(* ===== verification/_CoqProject ===== *)
-Q . S2P
Prelude.v
Str.v
Types.v
Envelope.v
SpecBuilder.v
Http.v
Response.v
Framing.v
Base64.v
Registry.v
Ring.v
Backend.v
Quic.v
Conn.v
Uring.v
Tpa.v
Wait.v
Lane.v
Reconnect.v
Parallel.v
Demo.v
WorkerInv.v
Sequential.v
Connect.v
QuicCert.v
Sender.v
System.v
SeqSystem.v
Lifecycle.v
ParLife.v
SeqLife.v
ConnLive.v
Example.v
