(* ===== verification/Prelude.v ===== *)
(** * tx-sender: a verification of the crate's data path and its threads

    The crate sends one Solana transaction to many providers as fast as it can.
    A caller triggers a job; worker threads fill the transaction for each
    provider, send it over HTTP/1.1 with TLS or over QUIC, and collect the
    replies; a result lane parses the replies and hands outcomes to the
    caller's sink; a reconnect thread rebuilds connections that failed. This
    library models those parts as executable functions and proves what they
    promise each other. File names below are relative to src/src/.

    ** How the model reads

    - A Rust function is a Rocq function with the same branches. A panic (an
      index or slice out of range, a failed [expect], a checked overflow) is the
      value [Panic] of [outcome]; [Result] is [result]; [usize], [u64], [u32],
      [u16] are integers in [Z] with [add_mod], [sub_mod], [mod] where the code
      can leave their range, and [BuildProfile] says whether overflow panics
      (debug) or wraps (release). Bytes and [str] are [list byte].
    - Code that calls the world (sockets, clocks, the caller's traits) is a
      function of a world state [W], in the monad [M]. [post], [safe], [halts] and
      [ends] state partial correctness, absence of panics, coming back with a
      result or a panic, and coming back with a result; [Modality] is what they
      share, so that one walk through a worker's pass serves all of them.
    - Code of other crates and of the system is a class the definitions are
      parametrised by ([Tls], [Quinn], [Libc], [Clock], [BoundedQueue], [TxSource],
      [ResultSink], [Uring], [Tpa], [Cpu], [Rcgen], the base64 encoder), and what is
      relied on is a second class of laws. Each has a small concrete instance, so
      every theorem with such a hypothesis is shown to apply. The laws are about
      that code, never about the crate's loops around it: [TlsLaws] say what a
      TLS session opens a ciphertext to ([opens]) and what of it is unread,
      however much of it one call takes or gives; [TimeLaws] that the clock does
      not go back and does not stand still for more than [R] readings;
      [PeerClosed] what the kernel completes after the peer has closed.
    - The caller's transaction source and sink may return, panic or never come
      back: [fill] and [on_result] are in [M]. Safety needs nothing of them
      ([SinkBehaviour] is any behaviour); [FillLaws] for a modality, [SinkReturns]
      and [SinkComesBack] are what the theorems on panics, progress and shutdown
      ask for.
    - A channel has an address, the one [monitor_addr] gives, so that two empty
      channels differ and wiring the wrong end to a thread is a different state.
    - Loops whose end depends on the outside take fuel. [OutOfFuel] is not a
      behaviour of the code: theorems that need a loop to end prove that a stated
      amount of fuel is enough ([raw_submit_stream], [tpa_submit_stream],
      [uring_batch_order], [engine_loops_end], [quic_handshake_ends],
      [lane_pass_delivers], [crate_conns_come_back]). In ParLife.v and SeqLife.v a
      pass that runs out of fuel is a thread that hangs, and the theorems exclude
      it.

    ** The files

    - Prelude.v: outcomes, the monad, bytes, machine integers, slices, searching,
      tactics and hint databases. Str.v: the standard library's string functions
      the crate uses (UTF-8 check, trim, lines, integer parsing and printing).
    - Types.v: job.rs, error.rs, sink.rs, provider/mod.rs and [io::Error].
    - Envelope.v (protocol/http/envelope.rs): [compile] a request template,
      [splice] a transaction into it. SpecBuilder.v (protocol/http/spec_builder.rs
      and [build_envelope]): the text of a request. Http.v
      (protocol/http/engine.rs): [encode], [ingest], [body_if_complete].
      Response.v (provider/response.rs): the JSON-RPC codec. Framing.v: writing
      and reading a frame. Base64.v: an RFC 4648 encoder, the instance of the
      encoder parameter. Registry.v (provider/registry.rs): the presets.
    - Ring.v (rt/spsc.rs): the channel with its notify counter and its address.
    - Backend.v (backend/mod.rs, backend/raw_libc.rs): the [ByteIo] interface and
      the plain socket transport. Uring.v (backend/io_uring.rs) and Tpa.v
      (backend/libtpa/mod.rs): the other two transports. Wait.v (rt/wait.rs,
      rt/mod.rs): the idle wait and the thread settings.
    - Quic.v (protocol/quic.rs): the QUIC engine and its handshake. QuicCert.v
      (protocol/quic_cert.rs): the client configuration.
    - Conn.v (conn/mod.rs): HTTP and QUIC connections and the active/standby
      pair. Reconnect.v (conn/reconnect.rs): the reconnect thread.
    - Lane.v (result_lane.rs): the result lane.
    - Parallel.v (transport/parallel.rs) and Sequential.v
      (transport/sequential.rs): the workers, phase by phase; WorkerInv.v: what a
      pass of a worker guarantees; Demo.v: concrete connections for examples.
    - Connect.v (transport/connect.rs) and Sender.v (transport/mod.rs, builder.rs,
      spawn.rs, health.rs): connecting, the builder, [trigger], [health], the
      threads' initial states. System.v and SeqSystem.v: all threads of the
      parallel and of the sequential sender as step relations.
    - Lifecycle.v: the stop flag, [shutdown] and the joins, over any threads;
      ParLife.v and SeqLife.v: the threads of the two senders as its instances,
      with fair executions. ConnLive.v: the crate's connections as connections
      that come back.
    - Example.v (examples/send_real_tx.rs): reading the settings, preparing the
      transaction, sending it and printing what the sink hears.

    ** What the theorems show

    - Requests: a template compiled once serves any sequence of transactions
      ([template_reuse]); what the crate writes its own parser reads back
      ([frame_roundtrip]), for every preset ([registry_requests]) and for the
      example, whose request carries the transaction that was signed
      ([example_requests]); every builder is served or refused, without a panic
      as long as its request stays below 2^32 bytes ([envelope_total]); the search
      for placeholders is exact ([find_unique_correct]); the example reads an
      endpoint as it is written, and which ones it refuses
      ([parse_endpoint_roundtrip]).
    - Responses: fragmentation does not matter up to 64 KiB, and beyond it is an
      error ([ingest_fragments]); exactly which texts the codec accepts and
      rejects, and with what ([accepted_iff], [rejected_iff], [accepted_sound],
      [parse_not_utf8]).
    - Transports: the sending loops lose and repeat nothing, and end when the
      kernel or the stack makes progress ([raw_submit_stream],
      [tpa_submit_stream]); without SQPOLL a batch on io_uring keeps its order
      ([uring_batch_order]; with it a full queue spins,
      [sqpoll_full_queue_spins]) and a receive brings what arrived
      ([uring_recv_delivers]); addresses are laid out for the kernel and for
      libtpa ([sockaddr_roundtrip], [tpa_endpoint_roundtrip], [tpa_udp_packet]);
      libtpa starts once ([tpa_starts_once]); the end of a stream is a failure
      on plain sockets ([raw_eof_is_failure]).
    - Waiting ends by itself on every kind of CPU ([idle_wait_bounded]).
    - Channels, lane, trigger: FIFO with a bound, announced by a counter that
      changes with every accepted push ([spsc_fifo]), every response
      delivered once in order ([lane_pass_delivers]), when and where a job is
      queued ([trigger_spec]).
    - Workers: no panics of their own, whatever the size of a response
      ([par_pass_no_panic]), what failover does with the job being sent and with
      the one in flight ([failover_resends]), the sequential worker is the parallel
      one provider by provider ([sequential_is_parallel]).
    - QUIC: the handshake ends, and with which result ([quic_handshake_ends]); a
      poll hands out exactly the last job sent, once, after its window
      ([quic_window_settles_once]); the configuration is the one asked for, and
      the call panics only without a crypto provider ([quic_client_config_spec]).
    - The whole: connecting, with the cause of each error
      ([connect_all_or_error]); which thread has which end of which channel
      ([build_parallel_wiring]); what a failed build leaves behind
      ([build_errors]); and in every interleaving the sink hears only of triggered
      jobs, for each provider at most as often as jobs were triggered
      ([outcomes_sound], [seq_outcomes_sound]), by induction over the step
      relations with the invariants [sys_inv] and [seq_inv].
    - Progress, in fair executions: every accepted job is taken and every
      response reaches the sink as long as the connections, the source and the
      sink return ([jobs_eventually_taken], [responses_eventually_sunk],
      [seq_sender_live]); [shutdown] returns and leaves nothing running as long as
      they return or panic ([shutdown_returns], [seq_shutdown_returns]), which the
      crate's connections do over libraries that do ([crate_conns_come_back]).
    - Limits of the code, stated as theorems: [body_panics_iff],
      [silent_handshake_never_ends], [ingest_drops_rest], [failover_drops_inflight],
      [response_goes_to_latest_job], [trigger_spec] on backpressure,
      [build_errors] on the lane that is left running, [tpa_submit_stream] on a
      stack that refuses for ever; on io_uring [uring_eof_is_silent] and [uring_send_completion_blind], on libtpa
      [tpa_eof_is_silent].

    ** What is not modelled

    The profiling feature apart from [hist_snap], [real_roots] (which only calls
    rustls), what the example prints to stderr, the logic inside rustls,
    quinn-proto, rcgen, rtrb, crossbeam, libtpa, the Solana SDK, the CPU and the
    kernel (classes with laws, or arguments). A step of System.v, SeqSystem.v,
    ParLife.v and SeqLife.v is one pass of a thread's loop: the channels between
    threads have one producer and one consumer each, whose operations on
    different ends commute. A step of System.v and SeqSystem.v is a pass that
    returns; what becomes of a thread whose pass panics or hangs is in ParLife.v
    and SeqLife.v. The threads of the libtpa engine are modelled up to
    their start (Sender.v); their passes are those of Parallel.v. What remains of
    the repository is imports, documentation and tests. *)
From Stdlib Require Export Strings.Byte.
From stdpp Require Export base tactics numbers option list list_numbers gmap strings.
From stdpp Require Import options.

Open Scope Z_scope.

(** * Values the Rust code computes with *)

Declare Scope rust_scope.
Delimit Scope rust_scope with rust.

(** What running a piece of Rust code gives: a value, a panic (an index or a
    slice out of range, a failed [expect], a checked overflow), or no answer
    within the fuel a loop was given. The code itself never runs out of fuel:
    every theorem about a fuelled loop bounds the fuel it needs. *)
Inductive outcome (A : Type) :=
| Ret (a : A)
| Panic
| OutOfFuel.
Arguments Ret {A} a.
Arguments Panic {A}.
Arguments OutOfFuel {A}.

#[export] Instance outcome_ret : MRet outcome := λ A a, Ret a.
#[export] Instance outcome_bind : MBind outcome := λ A B f m,
  match m with
  | Ret a => f a
  | Panic => Panic
  | OutOfFuel => OutOfFuel
  end.
#[export] Instance outcome_fmap : FMap outcome := λ A B f m,
  match m with
  | Ret a => Ret (f a)
  | Panic => Panic
  | OutOfFuel => OutOfFuel
  end.

(** [std::result::Result]. *)
Inductive result (T E : Type) :=
| Ok (t : T)
| Err (e : E).
Arguments Ok {T E} t.
Arguments Err {T E} e.

Definition map_err {T E F} (f : E → F) (r : result T E) : result T F :=
  match r with
  | Ok t => Ok t
  | Err e => Err (f e)
  end.

Definition ok_or {T E} (o : option T) (e : E) : result T E :=
  match o with
  | Some t => Ok t
  | None => Err e
  end.

Definition is_ok {T E} (r : result T E) : bool :=
  match r with
  | Ok _ => true
  | Err _ => false
  end.

(** The [?] operator inside a function that may also panic. *)
Definition try_ {A B E} (m : outcome (result A E)) (k : A → outcome (result B E)) :
    outcome (result B E) :=
  m ≫= λ r, match r with
            | Ok a => k a
            | Err e => Ret (Err e)
            end.
Notation "x ←? m ; k" := (try_ m (λ x, k))
  (at level 20, m at level 100, k at level 200, format "x  ←?  m ;  '/' k") : rust_scope.
Open Scope rust_scope.

(** Code that calls the world outside the crate (sockets, clocks, a caller's
    trait objects): a function of that world's state [W]. *)
Definition M (W A : Type) : Type := W → outcome (A * W).

#[export] Instance M_ret W : MRet (M W) := λ A a w, Ret (a, w).
#[export] Instance M_bind W : MBind (M W) := λ A B f m w,
  match m w with
  | Ret (a, w') => f a w'
  | Panic => Panic
  | OutOfFuel => OutOfFuel
  end.

(** Code that does not touch the world, and a call that cannot panic. *)
Definition pure {W A} (m : outcome A) : M W A := λ w,
  match m with
  | Ret a => Ret (a, w)
  | Panic => Panic
  | OutOfFuel => OutOfFuel
  end.
Definition call {W A} (f : W → A * W) : M W A := λ w, Ret (f w).

(** * Bytes *)

#[export] Instance byte_eq_dec : EqDecision byte := Byte.byte_eq_dec.
Abbreviation bytes := (list byte).

Definition b2z (b : byte) : Z := Z.of_N (Byte.to_N b).
Definition z2b (z : Z) : byte :=
  match Byte.of_N (Z.to_N (z mod 256)) with
  | Some b => b
  | None => x00
  end.

(** A byte-string literal; [json] writes a literal that holds double quotes
    with single quotes in their place. *)
Definition str (s : string) : bytes := String.list_byte_of_string s.
Definition json (s : string) : bytes :=
  (λ b, if Byte.eqb b x27 then x22 else b) <$> str s.
Definition CR : byte := x0d.
Definition LF : byte := x0a.
Definition CRLF : bytes := [CR; LF].
Definition SP : byte := x20.
Definition QUOTE : byte := x22.

Definition zlen {A} (l : list A) : Z := Z.of_nat (length l).

(** * Machine integers *)

Definition U16 : Z := 2 ^ 16.
Definition U32 : Z := 2 ^ 32.
Definition U64 : Z := 2 ^ 64.

(** [+] on an unsigned integer of the given modulus: with overflow checks on
    (the debug profile) it panics, with overflow checks off (the release
    profile) it wraps. *)
Class BuildProfile := overflow_checks : bool.
Definition add_mod `{BuildProfile} (m a b : Z) : outcome Z :=
  if a + b <? m then Ret (a + b)
  else if overflow_checks then Panic
  else Ret ((a + b) mod m).

(** [-] in the same way. *)
Definition sub_mod `{BuildProfile} (m a b : Z) : outcome Z :=
  if b <=? a then Ret (a - b)
  else if overflow_checks then Panic
  else Ret ((a - b) mod m).

(** [u32::try_from(x).expect(..)]. *)
Definition u32_expect (x : Z) : outcome Z :=
  if x <? U32 then Ret x else Panic.

(** * Slices *)

(** [&l[a..b]]. *)
Definition slice {A} (a b : Z) (l : list A) : outcome (list A) :=
  if (0 <=? a) && (a <=? b) && (b <=? zlen l)
  then Ret (take (Z.to_nat (b - a)) (drop (Z.to_nat a) l))
  else Panic.
(** [&l[..b]] and [&l[a..]]. *)
Definition slice_to {A} (b : Z) (l : list A) : outcome (list A) := slice 0 b l.
Definition slice_from {A} (a : Z) (l : list A) : outcome (list A) := slice a (zlen l) l.

(** [l[a..a + src.len()].copy_from_slice(src)]. *)
Definition write_at {A} (a : Z) (src l : list A) : outcome (list A) :=
  if (0 <=? a) && (a + zlen src <=? zlen l)
  then Ret (take (Z.to_nat a) l ++ src ++ drop (Z.to_nat a + length src) l)
  else Panic.

(** [l[i]]. *)
Definition index {A} (l : list A) (i : nat) : outcome A :=
  match l !! i with
  | Some x => Ret x
  | None => Panic
  end.

(** [l[i] = x]. *)
Definition store {A} (l : list A) (i : nat) (x : A) : outcome (list A) :=
  match l !! i with
  | Some _ => Ret (<[i:=x]> l)
  | None => Panic
  end.

(** * Searching *)

Fixpoint starts_with (p l : bytes) : bool :=
  match p, l with
  | [], _ => true
  | a :: p', b :: l' => Byte.eqb a b && starts_with p' l'
  | _ :: _, [] => false
  end.

(** [l.windows(p.len()).position(|w| w == p)], and [str::find] on the bytes
    of a string: the first offset at which [p] stands in [l]. *)
Fixpoint find_sub (p l : bytes) : option nat :=
  if starts_with p l then Some O
  else match l with
       | [] => None
       | _ :: l' => S <$> find_sub p l'
       end.

(** The offset of the first byte with a property. *)
Fixpoint find_byte (f : byte → bool) (l : bytes) : option nat :=
  match l with
  | [] => None
  | b :: l' => if f b then Some O else S <$> find_byte f l'
  end.

(** * Tactics *)

(** Case analysis on the tests of the code, with their arithmetic. *)
Ltac case_test :=
  match goal with
  | |- context [if ?c then _ else _] => destruct c eqn:?
  | |- context [match ?c with _ => _ end] => destruct c eqn:?
  end; simplify_eq/=.

Ltac ztests :=
  repeat match goal with
  | H : (_ && _) = true |- _ => apply andb_true_iff in H as [? ?]
  | H : (_ && _) = false |- _ => apply andb_false_iff in H
  | H : (_ <=? _) = true |- _ => apply Z.leb_le in H
  | H : (_ <=? _) = false |- _ => apply Z.leb_gt in H
  | H : (_ <? _) = true |- _ => apply Z.ltb_lt in H
  | H : (_ <? _) = false |- _ => apply Z.ltb_ge in H
  | H : (_ =? _) = true |- _ => apply Z.eqb_eq in H
  | H : (_ =? _) = false |- _ => apply Z.eqb_neq in H
  end.

(** * Hint databases: lengths, and the lemmas the components share *)

Create Rewrite HintDb len.
Create HintDb txsender.

Lemma zlen_nil {A} : zlen (@nil A) = 0.
Proof. done. Qed.
Lemma zlen_cons {A} (x : A) l : zlen (x :: l) = 1 + zlen l.
Proof. unfold zlen. simpl. lia. Qed.
Lemma zlen_app {A} (l1 l2 : list A) : zlen (l1 ++ l2) = zlen l1 + zlen l2.
Proof. unfold zlen. rewrite length_app. lia. Qed.
Lemma zlen_replicate {A} n (x : A) : zlen (replicate n x) = Z.of_nat n.
Proof. unfold zlen. by rewrite length_replicate. Qed.
Lemma zlen_nonneg {A} (l : list A) : 0 ≤ zlen l.
Proof. unfold zlen. lia. Qed.
Lemma to_nat_zlen {A} (l : list A) : Z.to_nat (zlen l) = length l.
Proof. unfold zlen. lia. Qed.
#[export] Hint Rewrite @zlen_nil @zlen_cons @zlen_app @zlen_replicate @to_nat_zlen : len.
#[export] Hint Resolve zlen_nonneg : txsender.

(** [len] settles arithmetic on lengths. *)
Ltac know_nonneg l :=
  lazymatch goal with
  | _ : 0 ≤ zlen l |- _ => fail
  | _ => pose proof (zlen_nonneg l)
  end.
Ltac len :=
  autorewrite with len in *;
  repeat match goal with
  | |- context [zlen ?l] => know_nonneg l
  | _ : context [zlen ?l] |- _ => know_nonneg l
  end; try lia.

(** * The outcome monad *)

Section outcome_lemmas.
Context {A B : Type}.

Lemma bind_Ret (m : outcome A) (f : A → outcome B) b :
  m ≫= f = Ret b ↔ ∃ a, m = Ret a ∧ f a = Ret b.
Proof. destruct m; naive_solver. Qed.

Lemma bind_Panic (m : outcome A) (f : A → outcome B) :
  m ≫= f = Panic ↔ m = Panic ∨ ∃ a, m = Ret a ∧ f a = Panic.
Proof. destruct m; naive_solver. Qed.

(** A run that, if it gives a value, gives one in [Q]; a run that moreover does
    not panic; and a run that ends, in [Q]. *)
Definition post {W A} (m : M W A) (w : W) (Q : A → W → Prop) : Prop :=
  match m w with
  | Ret (a, w') => Q a w'
  | _ => True
  end.
Definition safe {W A} (m : M W A) (w : W) (Q : A → W → Prop) : Prop :=
  match m w with
  | Ret (a, w') => Q a w'
  | Panic => False
  | OutOfFuel => True
  end.
(** It comes to an end, normally or by a panic. *)
Definition halts {W A} (m : M W A) (w : W) (Q : A → W → Prop) : Prop :=
  match m w with
  | Ret (a, w') => Q a w'
  | Panic => True
  | OutOfFuel => False
  end.
Definition ends {W A} (m : M W A) (w : W) (Q : A → W → Prop) : Prop :=
  ∃ a w', m w = Ret (a, w') ∧ Q a w'.

Lemma post_ret {W} (a : A) (w : W) (Q : A → W → Prop) : Q a w → post (mret a) w Q.
Proof. done. Qed.
Lemma post_call {W} (f : W → A * W) w (Q : A → W → Prop) :
  Q (f w).1 (f w).2 → post (call f) w Q.
Proof. unfold post, call. by destruct (f w). Qed.
Lemma post_pure {W} (w : W) (m : outcome A) (Q : A → W → Prop) :
  (∀ a, m = Ret a → Q a w) → post (pure m) w Q.
Proof. unfold post, pure. destruct m; auto. Qed.
Lemma post_bind {W} (m : M W A) (f : A → M W B) w Q :
  post m w (λ a w', post (f a) w' Q) → post (m ≫= f) w Q.
Proof. unfold post, mbind, M_bind. by destruct (m w) as [[]| |]. Qed.
Lemma post_mono {W} (m : M W A) w (P Q : A → W → Prop) :
  post m w P → (∀ a w', P a w' → Q a w') → post m w Q.
Proof. unfold post. destruct (m w) as [[]| |]; auto. Qed.
Lemma post_any {W} (m : M W A) w (Q : A → W → Prop) : (∀ a w', Q a w') → post m w Q.
Proof. unfold post. intros HQ. by destruct (m w) as [[]| |]. Qed.
Lemma post_Ret {W} (m : M W A) w (Q : A → W → Prop) a w' :
  post m w Q → m w = Ret (a, w') → Q a w'.
Proof. unfold post. intros HQ Hm. by rewrite Hm in HQ. Qed.

Lemma safe_ret {W} (a : A) (w : W) (Q : A → W → Prop) : Q a w → safe (mret a) w Q.
Proof. done. Qed.
Lemma safe_call {W} (f : W → A * W) w (Q : A → W → Prop) :
  Q (f w).1 (f w).2 → safe (call f) w Q.
Proof. unfold safe, call. by destruct (f w). Qed.
Lemma safe_pure {W} (a : A) (w : W) m (Q : A → W → Prop) :
  m = Ret a → Q a w → safe (pure m) w Q.
Proof. unfold safe, pure. by intros ->. Qed.
Lemma safe_bind {W} (m : M W A) (f : A → M W B) w Q :
  safe m w (λ a w', safe (f a) w' Q) → safe (m ≫= f) w Q.
Proof. unfold safe, mbind, M_bind. by destruct (m w) as [[]| |]. Qed.
Lemma safe_mono {W} (m : M W A) w (P Q : A → W → Prop) :
  safe m w P → (∀ a w', P a w' → Q a w') → safe m w Q.
Proof. unfold safe. destruct (m w) as [[]| |]; auto. Qed.
Lemma safe_ends {W} (m : M W A) w (Q : A → W → Prop) : ends m w Q → safe m w Q.
Proof. intros (a&w'&Hm&HQ). unfold safe. by rewrite Hm. Qed.

Lemma ends_post {W} (m : M W A) w (P Q : A → W → Prop) :
  ends m w P → post m w Q → ends m w (λ a w', P a w' ∧ Q a w').
Proof. intros (a&w'&Hm&HP) HQ. exists a, w'. split; [done|]. split; [done|]. by eapply post_Ret. Qed.
Lemma ends_ret {W} (a : A) (w : W) (Q : A → W → Prop) : Q a w → ends (mret a) w Q.
Proof. intros HQ. by exists a, w. Qed.
Lemma ends_call {W} (f : W → A * W) w (Q : A → W → Prop) :
  Q (f w).1 (f w).2 → ends (call f) w Q.
Proof. intros HQ. exists (f w).1, (f w).2. unfold call. by destruct (f w). Qed.
Lemma ends_pure {W} (a : A) (w : W) m (Q : A → W → Prop) :
  m = Ret a → Q a w → ends (pure m) w Q.
Proof. intros -> HQ. by exists a, w. Qed.
Lemma ends_bind {W} (m : M W A) (f : A → M W B) w Q :
  ends m w (λ a w', ends (f a) w' Q) → ends (m ≫= f) w Q.
Proof.
  intros (a&w1&Hm&b&w2&Hf&HQ). exists b, w2. split; [|done].
  unfold mbind, M_bind. by rewrite Hm.
Qed.
Lemma ends_mono {W} (m : M W A) w (P Q : A → W → Prop) :
  ends m w P → (∀ a w', P a w' → Q a w') → ends m w Q.
Proof. intros (a&w'&Hm&HP) HPQ. exists a, w'. auto. Qed.

Lemma M_bind_Ret {W} (m : M W A) (f : A → M W B) w b w' :
  (m ≫= f) w = Ret (b, w') ↔ ∃ a w1, m w = Ret (a, w1) ∧ f a w1 = Ret (b, w').
Proof.
  unfold mbind, M_bind. destruct (m w) as [[a w1]| |]; split.
  - intros Hf. by exists a, w1.
  - intros (a'&w1'&[= <- <-]&Hf). done.
  - done.
  - by intros (?&?&?&?).
  - done.
  - by intros (?&?&?&?).
Qed.

Lemma fmap_Ret (m : outcome A) (f : A → B) b :
  f <$> m = Ret b ↔ ∃ a, m = Ret a ∧ b = f a.
Proof. destruct m; naive_solver. Qed.
End outcome_lemmas.

Lemma ends_halts {W A} (m : M W A) w (Q : A → W → Prop) : ends m w Q → halts m w Q.
Proof. intros (a&w'&E&HQ). unfold halts. by rewrite E. Qed.
Lemma halts_Ret {W A} (m : M W A) w a w' (Q : A → W → Prop) :
  halts m w Q → m w = Ret (a, w') → Q a w'.
Proof. unfold halts. by intros ? E; rewrite E in *. Qed.
Lemma halts_comes_back {W A} (m : M W A) w (Q : A → W → Prop) : halts m w Q → m w ≠ OutOfFuel.
Proof. unfold halts. by intros ? E; rewrite E in *. Qed.

(** What these have in common: a proof that goes through the steps of a
    computation serves them all. *)
Class Modality (W : Type) (wp : ∀ A, M W A → W → (A → W → Prop) → Prop) : Prop := {
  wp_ret : ∀ A (a : A) w (Q : A → W → Prop), Q a w → wp A (mret a) w Q;
  wp_call : ∀ A (f : W → A * W) w (Q : A → W → Prop), Q (f w).1 (f w).2 → wp A (call f) w Q;
  wp_pure : ∀ A (a : A) m w (Q : A → W → Prop), m = Ret a → Q a w → wp A (pure m) w Q;
  wp_bind : ∀ A B (m : M W A) (f : A → M W B) w Q,
    wp A m w (λ a w', wp B (f a) w' Q) → wp B (m ≫= f) w Q;
  wp_mono : ∀ A (m : M W A) w (P Q : A → W → Prop),
    wp A m w P → (∀ a w', P a w' → Q a w') → wp A m w Q;
  wp_at : ∀ A (m m' : M W A) w Q, m' w = m w → wp A m w Q → wp A m' w Q;
}.
#[export] Instance post_modality W : Modality W (@post W).
Proof.
  split; intros; [by apply post_ret|by apply post_call|apply post_pure; by intros; simplify_eq|
    by apply post_bind|by eapply post_mono|].
  unfold post in *. match goal with H : _ = _ |- _ => by rewrite H end.
Qed.
#[export] Instance safe_modality W : Modality W (@safe W).
Proof.
  split; intros; [by apply safe_ret|by apply safe_call|by eapply safe_pure|by apply safe_bind|
    by eapply safe_mono|]. unfold safe in *. match goal with H : _ = _ |- _ => by rewrite H end.
Qed.
#[export] Instance halts_modality W : Modality W (@halts W).
Proof.
  split; intros; unfold halts in *; [done|by cbn; destruct (f w)|unfold pure; by simplify_eq|..].
  - unfold mbind, M_bind. by repeat case_match.
  - repeat case_match; naive_solver.
  - match goal with H : _ = _ |- _ => by rewrite H end.
Qed.
#[export] Instance ends_modality W : Modality W (@ends W).
Proof.
  split; intros; [by apply ends_ret|by apply ends_call|by eapply ends_pure|by apply ends_bind|
    by eapply ends_mono|]. unfold ends in *. match goal with H : _ = _ |- _ => by rewrite H end.
Qed.

(** One step into a sequence of calls, for [safe] and for [ends]. *)
Ltac run_step :=
  match goal with
  | |- post (_ ≫= _) _ _ => apply post_bind
  | |- post (mret _) _ _ => apply post_ret
  | |- post (call _) _ _ => apply post_call
  | |- safe (_ ≫= _) _ _ => apply safe_bind
  | |- safe (mret _) _ _ => apply safe_ret
  | |- safe (call _) _ _ => apply safe_call
  | |- ends (_ ≫= _) _ _ => apply ends_bind
  | |- ends (mret _) _ _ => apply ends_ret
  | |- ends (call _) _ _ => apply ends_call
  end.

(** Arithmetic that stays in range does not depend on the profile. *)
Lemma add_mod_ok `{BuildProfile} m a b : a + b < m → add_mod m a b = Ret (a + b).
Proof. intros Hlt. unfold add_mod. by rewrite (proj2 (Z.ltb_lt _ _) Hlt). Qed.

Lemma sub_mod_ok `{BuildProfile} m a b : b ≤ a → sub_mod m a b = Ret (a - b).
Proof. intros Hle. unfold sub_mod. by rewrite (proj2 (Z.leb_le _ _) Hle). Qed.

Lemma u32_expect_ok x : x < U32 → u32_expect x = Ret x.
Proof. intros Hx. unfold u32_expect. by rewrite (proj2 (Z.ltb_lt _ _) Hx). Qed.
Lemma u32_expect_big x : U32 ≤ x → u32_expect x = Panic.
Proof. intros Hx. unfold u32_expect. by rewrite (proj2 (Z.ltb_ge _ _) Hx). Qed.

(** * Bytes *)

Lemma b2z_range b : 0 ≤ b2z b < 256.
Proof. unfold b2z. pose proof (Byte.to_N_bounded b). lia. Qed.

Lemma b2z_inj b1 b2 : b2z b1 = b2z b2 → b1 = b2.
Proof.
  unfold b2z. intros H%N2Z.inj.
  pose proof (Byte.of_to_N b1) as E1. pose proof (Byte.of_to_N b2) as E2.
  rewrite H in E1. congruence.
Qed.

Lemma b2z_z2b z : 0 ≤ z < 256 → b2z (z2b z) = z.
Proof.
  intros Hz. unfold z2b. rewrite Z.mod_small by lia.
  destruct (Byte.of_N (Z.to_N z)) as [b|] eqn:E.
  - unfold b2z. apply Byte.to_of_N in E. rewrite E. lia.
  - apply Byte.of_N_None_iff in E. lia.
Qed.

Lemma byte_eqb_eq a b : Byte.eqb a b = true ↔ a = b.
Proof.
  split.
  - apply Byte.byte_dec_bl.
  - apply Byte.byte_dec_lb.
Qed.

Lemma byte_eqb_refl a : Byte.eqb a a = true.
Proof. by apply byte_eqb_eq. Qed.

Lemma byte_eqb_ne a b : a ≠ b → Byte.eqb a b = false.
Proof. intros Hne. apply not_true_is_false. by rewrite byte_eqb_eq. Qed.

(** * Slices *)

Section slices.
Context {A : Type}.
Implicit Types (l a b c : list A).

Lemma slice_mid a b c : slice (zlen a) (zlen a + zlen b) (a ++ b ++ c) = Ret b.
Proof.
  unfold slice.
  destruct (_ && _ && _) eqn:E.
  - replace (Z.to_nat (zlen a + zlen b - zlen a)) with (length b) by (unfold zlen; lia).
    rewrite to_nat_zlen, drop_app_length, take_app_length. done.
  - pose proof (zlen_nonneg a). pose proof (zlen_nonneg b). pose proof (zlen_nonneg c).
    apply not_true_iff_false in E. contradict E.
    rewrite !andb_true_iff, !Z.leb_le. len.
Qed.

Lemma slice_to_app a b : slice_to (zlen a) (a ++ b) = Ret a.
Proof. pose proof (slice_mid [] a b) as H. by rewrite zlen_nil, Z.add_0_l in H. Qed.

Lemma slice_from_app a b : slice_from (zlen a) (a ++ b) = Ret b.
Proof.
  unfold slice_from. pose proof (slice_mid a b []) as H.
  rewrite app_nil_r in H. by rewrite zlen_app.
Qed.

Lemma slice_to_ok n l : 0 ≤ n ≤ zlen l → slice_to n l = Ret (take (Z.to_nat n) l).
Proof.
  intros Hn. unfold slice_to, slice.
  rewrite (proj2 (Z.leb_le 0 0)), (proj2 (Z.leb_le 0 n)), (proj2 (Z.leb_le n _)) by lia.
  simpl. by rewrite Z.sub_0_r.
Qed.

Lemma slice_to_panic n l : zlen l < n → slice_to n l = Panic.
Proof.
  intros Hn. unfold slice_to, slice.
  by rewrite (proj2 (Z.leb_gt n _)), andb_false_r by lia.
Qed.

Lemma slice_backwards s e l : e < s → slice s e l = Panic.
Proof.
  intros H. unfold slice.
  by rewrite (proj2 (Z.leb_gt s e)), andb_false_r by lia.
Qed.

Lemma write_at_app a b b' c :
  zlen b = zlen b' → write_at (zlen a) b' (a ++ b ++ c) = Ret (a ++ b' ++ c).
Proof.
  intros Hb. unfold write_at.
  pose proof (zlen_nonneg a). pose proof (zlen_nonneg c).
  rewrite (proj2 (Z.leb_le 0 _)), (proj2 (Z.leb_le _ (zlen (a ++ b ++ c)))) by len.
  simpl. rewrite to_nat_zlen, take_app_length.
  replace (length b') with (length b) by (unfold zlen in *; lia).
  rewrite (app_assoc a b c), drop_app_length' by (by rewrite length_app). done.
Qed.

Lemma index_Some l i x : index l i = Ret x ↔ l !! i = Some x.
Proof. unfold index. destruct (l !! i); naive_solver. Qed.

Lemma index_lt l i : (i < length l)%nat → ∃ x, index l i = Ret x ∧ l !! i = Some x.
Proof.
  intros [x Hx]%lookup_lt_is_Some. exists x. split; [|done]. by apply index_Some.
Qed.

Lemma store_lt l i x : (i < length l)%nat → store l i x = Ret (<[i:=x]> l).
Proof. intros [y Hy]%lookup_lt_is_Some. unfold store. by rewrite Hy. Qed.

Lemma store_Ret l i x l' :
  store l i x = Ret l' ↔ (i < length l)%nat ∧ l' = <[i:=x]> l.
Proof.
  unfold store. rewrite <- lookup_lt_is_Some.
  destruct (l !! i) as [y|] eqn:E; split.
  - intros [= <-]. split; [|done]. by exists y.
  - intros [_ ->]. done.
  - discriminate.
  - intros [[? ?] _]. discriminate.
Qed.
End slices.

(** * Searching *)

Lemma starts_with_prefix p l : starts_with p l = true ↔ p `prefix_of` l.
Proof.
  revert l. induction p as [|a p IH]; intros [|b l]; simpl.
  - split; [intros _; apply prefix_nil | done].
  - split; [intros _; apply prefix_nil | done].
  - split; [discriminate | intros H; by apply prefix_nil_not in H].
  - rewrite andb_true_iff, byte_eqb_eq, IH. split.
    + intros [-> H]. by apply prefix_cons.
    + intros H. split; [by apply prefix_cons_inv_1 in H | by apply prefix_cons_inv_2 in H].
Qed.

Lemma starts_with_app p l : starts_with p (p ++ l) = true.
Proof. apply starts_with_prefix. by exists l. Qed.

Lemma starts_with_head a p b l : a ≠ b → starts_with (a :: p) (b :: l) = false.
Proof. intros H. simpl. by rewrite byte_eqb_ne. Qed.

(** [p] stands in [l] at offset [i]. *)
Definition occurs_at (p l : bytes) (i : nat) : Prop := ∃ a b, l = a ++ p ++ b ∧ length a = i.

Lemma occurs_at_O p l : occurs_at p l 0 ↔ starts_with p l = true.
Proof.
  rewrite starts_with_prefix. split.
  - intros ([|]&r&->&?); [|done]. by exists r.
  - intros [r ->]. by exists [], r.
Qed.

Lemma occurs_at_S p x l i : occurs_at p (x :: l) (S i) ↔ occurs_at p l i.
Proof.
  split.
  - intros ([|y a]&b&E&Ha); simplify_eq/=. by exists a, b.
  - intros (a&b&->&<-). by exists (x :: a), b.
Qed.

Lemma occurs_at_nil p i : occurs_at p [] i → i = O ∧ p = [].
Proof.
  intros (a&b&E&<-). symmetry in E. apply app_nil in E as [-> E].
  apply app_nil in E as [-> _]. done.
Qed.

(** [find_sub] finds the first occurrence and nothing else. *)
Lemma find_sub_Some p l i :
  find_sub p l = Some i ↔ occurs_at p l i ∧ ∀ j, (j < i)%nat → ¬ occurs_at p l j.
Proof.
  revert i. induction l as [|x l IH]; intros i; simpl.
  - destruct (starts_with p []) eqn:E.
    + apply occurs_at_O in E. split.
      * intros [= <-]. split; [done | lia].
      * intros [H _]. by apply occurs_at_nil in H as [-> _].
    + split; [done|]. intros [H _]. destruct (occurs_at_nil _ _ H) as [-> ->]. done.
  - destruct (starts_with p (x :: l)) eqn:E.
    + apply occurs_at_O in E. split.
      * intros [= <-]. split; [done | lia].
      * intros [_ H]. destruct i; [done|]. destruct (H O); [lia | done].
    + assert (¬ occurs_at p (x :: l) 0) as E' by (rewrite occurs_at_O; congruence).
      destruct i as [|i].
      * split; [|naive_solver]. by destruct (find_sub p l).
      * rewrite occurs_at_S. transitivity (find_sub p l = Some i).
        { destruct (find_sub p l); simpl; naive_solver. }
        rewrite IH. split; intros [H1 H2]; (split; [done|]).
        -- intros [|j] ?; [done|]. rewrite occurs_at_S. apply H2. lia.
        -- intros j ?. rewrite <- (occurs_at_S p x). apply H2. lia.
Qed.

Lemma find_sub_None p l : find_sub p l = None ↔ ∀ i, ¬ occurs_at p l i.
Proof.
  split.
  - revert l. induction l as [|x l IH]; simpl.
    + destruct (starts_with p []) eqn:E; [done|]. intros _ i Hi.
      destruct (occurs_at_nil _ _ Hi) as [-> ->]. done.
    + destruct (starts_with p (x :: l)) eqn:E; [done|].
      intros H [|i].
      * rewrite occurs_at_O. congruence.
      * rewrite occurs_at_S. apply IH. by destruct (find_sub p l).
  - intros H. destruct (find_sub p l) as [i|] eqn:E; [|done].
    apply find_sub_Some in E as [E _]. by destruct (H i).
Qed.

(** Bytes that differ from the head of the pattern are skipped. *)
Lemma find_sub_skip c p a l :
  c ∉ a → find_sub (c :: p) (a ++ l) = Nat.add (length a) <$> find_sub (c :: p) l.
Proof.
  induction a as [|x a IH]; intros Hc.
  - simpl. by destruct (find_sub _ l).
  - apply not_elem_of_cons in Hc as [Hx Ha].
    cbn [app find_sub]. rewrite starts_with_head by done.
    rewrite IH by done. by destruct (find_sub _ l).
Qed.

(** The first occurrence in a text stays the first when the text grows. *)
Lemma find_sub_grow p l k i : find_sub p l = Some i → find_sub p (l ++ k) = Some i.
Proof.
  rewrite !find_sub_Some. intros [(a&b&->&<-) Hf]. split.
  - exists a, (b ++ k). by rewrite <- !app_assoc.
  - intros j Hj (a'&b'&E&<-). apply (Hf (length a')); [done|].
    set (n := length (a' ++ p)). set (l := a ++ p ++ b) in *.
    assert (take n l = a' ++ p) as Hl.
    { rewrite app_assoc in E. apply (f_equal (take n)) in E.
      rewrite take_app_le, take_app_length' in E; [done..|].
      unfold n, l. rewrite !length_app. lia. }
    exists a', (drop n l). split; [|done].
    by rewrite app_assoc, <- Hl, take_drop.
Qed.

(** A text cut before the end of the first occurrence has none. *)
Lemma find_sub_short p l n i :
  find_sub p l = Some i → (n < i + length p)%nat → find_sub p (take n l) = None.
Proof.
  rewrite find_sub_Some, find_sub_None. intros [_ Hf] Hn j (a&b&E&<-).
  assert (length (a ++ p ++ b) ≤ n)%nat as Hle by (rewrite <- E, length_take; lia).
  rewrite !length_app in Hle. apply (Hf (length a)); [lia|].
  exists a, (b ++ drop n l). split; [|done].
  by rewrite <- (take_drop n l) at 1; rewrite E, <- !app_assoc.
Qed.

Lemma find_sub_miss needle x l :
  starts_with needle (x :: l) = false → find_sub needle (x :: l) = S <$> find_sub needle l.
Proof. intros Hx. cbn [find_sub]. by rewrite Hx. Qed.

Lemma find_sub_here p l : find_sub p (p ++ l) = Some O.
Proof.
  apply find_sub_Some. split; [|lia]. by exists [], l.
Qed.

Lemma find_byte_skip f a l :
  Forall (λ b, f b = false) a → find_byte f (a ++ l) = Nat.add (length a) <$> find_byte f l.
Proof.
  induction 1 as [|x a Hx Ha IH]; simpl.
  - by destruct (find_byte f l).
  - rewrite Hx, IH. by destruct (find_byte f l).
Qed.

Lemma find_byte_Some f l i :
  find_byte f l = Some i →
  ∃ a b c, l = a ++ b :: c ∧ length a = i ∧ f b = true ∧ Forall (λ b, f b = false) a.
Proof.
  revert i. induction l as [|x l IH]; intros i; simpl; [done|].
  destruct (f x) eqn:E.
  - intros [= <-]. by exists [], x, l.
  - destruct (find_byte f l) as [j|]; [|done]. intros [= <-].
    destruct (IH j eq_refl) as (a&b&c&->&<-&?&?).
    exists (x :: a), b, c. auto.
Qed.
