(* ===== verification/Str.v ===== *)
(** The part of Rust's standard library of strings and integers that the crate
    uses: UTF-8 validation, trimming, lines, ASCII case, parsing and printing
    of integers. A [str] is the list of its UTF-8 bytes. *)
From S2P Require Import Prelude.
From stdpp Require Import options.

(** * UTF-8 *)

Definition in_range (lo hi : Z) (b : byte) : bool := (lo <=? b2z b) && (b2z b <=? hi).
Definition is_cont (b : byte) : bool := in_range 0x80 0xBF b.
Definition is_ascii (b : byte) : bool := b2z b <? 0x80.

(** The table of well-formed sequences [std::str::from_utf8] accepts. *)
Fixpoint utf8_valid (l : bytes) : bool :=
  match l with
  | [] => true
  | b1 :: l1 =>
      if is_ascii b1 then utf8_valid l1
      else match l1 with
      | [] => false
      | b2 :: l2 =>
          if in_range 0xC2 0xDF b1 then is_cont b2 && utf8_valid l2
          else match l2 with
          | [] => false
          | b3 :: l3 =>
              if in_range 0xE0 0xEF b1 then
                in_range (if b2z b1 =? 0xE0 then 0xA0 else 0x80)
                         (if b2z b1 =? 0xED then 0x9F else 0xBF) b2
                && is_cont b3 && utf8_valid l3
              else match l3 with
              | [] => false
              | b4 :: l4 =>
                  in_range 0xF0 0xF4 b1
                  && in_range (if b2z b1 =? 0xF0 then 0x90 else 0x80)
                              (if b2z b1 =? 0xF4 then 0x8F else 0xBF) b2
                  && is_cont b3 && is_cont b4 && utf8_valid l4
              end
          end
      end
  end.

Definition from_utf8 (l : bytes) : option bytes := if utf8_valid l then Some l else None.

(** * White space and lines *)

(** The encodings of the characters with the Unicode property White_Space, by
    their length. *)
Definition ws1 (b : byte) : bool := in_range 9 13 b || Byte.eqb b x20.
Definition ws2 (b1 b2 : byte) : bool := Byte.eqb b1 xc2 && (Byte.eqb b2 x85 || Byte.eqb b2 xa0).
Definition ws3 (b1 b2 b3 : byte) : bool :=
  (Byte.eqb b1 xe1 && Byte.eqb b2 x9a && Byte.eqb b3 x80)
  || (Byte.eqb b1 xe2 && Byte.eqb b2 x80
      && (in_range 0x80 0x8A b3 || Byte.eqb b3 xa8 || Byte.eqb b3 xa9 || Byte.eqb b3 xaf))
  || (Byte.eqb b1 xe2 && Byte.eqb b2 x81 && Byte.eqb b3 x9f)
  || (Byte.eqb b1 xe3 && Byte.eqb b2 x80 && Byte.eqb b3 x80).

Fixpoint trim_start (l : bytes) : bytes :=
  match l with
  | [] => []
  | b1 :: l1 =>
      if ws1 b1 then trim_start l1
      else match l1 with
      | [] => l
      | b2 :: l2 =>
          if ws2 b1 b2 then trim_start l2
          else match l2 with
          | [] => l
          | b3 :: l3 => if ws3 b1 b2 b3 then trim_start l3 else l
          end
      end
  end.

(** The same from the end: the argument is the string backwards. *)
Fixpoint trim_rev (l : bytes) : bytes :=
  match l with
  | [] => []
  | b1 :: l1 =>
      if ws1 b1 then trim_rev l1
      else match l1 with
      | [] => l
      | b2 :: l2 =>
          if ws2 b2 b1 then trim_rev l2
          else match l2 with
          | [] => l
          | b3 :: l3 => if ws3 b3 b2 b1 then trim_rev l3 else l
          end
      end
  end.

Definition trim_end (l : bytes) : bytes := reverse (trim_rev (reverse l)).
Definition trim (l : bytes) : bytes := trim_end (trim_start l).

(** [str::trim_end_matches(c)] for an ASCII character. *)
Fixpoint drop_byte (c : byte) (l : bytes) : bytes :=
  match l with
  | b :: l' => if Byte.eqb b c then drop_byte c l' else l
  | [] => []
  end.
Definition trim_end_matches (c : byte) (l : bytes) : bytes := reverse (drop_byte c (reverse l)).

Definition strip_cr (l : bytes) : bytes :=
  match reverse l with
  | b :: r => if Byte.eqb b CR then reverse r else l
  | [] => l
  end.

(** [str::lines]: split after each line feed, without the ending. *)
Fixpoint lines_from (cur l : bytes) : list bytes :=
  match l with
  | [] => match cur with [] => [] | _ => [cur] end
  | b :: l' => if Byte.eqb b LF then strip_cr cur :: lines_from [] l' else lines_from (cur ++ [b]) l'
  end.
Definition lines (l : bytes) : list bytes := lines_from [] l.

(** * ASCII case *)

Definition to_ascii_lowercase (b : byte) : byte :=
  if in_range 65 90 b then z2b (b2z b + 32) else b.
Definition eq_ignore_ascii_case (a b : bytes) : bool :=
  bool_decide (to_ascii_lowercase <$> a = to_ascii_lowercase <$> b).

(** * Integers *)

Definition is_ascii_digit (b : byte) : bool := in_range 48 57 b.

Fixpoint parse_digits (max acc : Z) (l : bytes) : option Z :=
  match l with
  | [] => Some acc
  | b :: l' =>
      if is_ascii_digit b then
        let acc' := acc * 10 + (b2z b - 48) in
        if acc' <=? max then parse_digits max acc' l' else None
      else None
  end.

Definition PLUS : byte := x2b.
Definition MINUS : byte := x2d.

(** [str::parse] at an unsigned type with the given maximum. *)
Definition parse_unsigned (max : Z) (l : bytes) : option Z :=
  match l with
  | [] => None
  | b :: l' =>
      if Byte.eqb b PLUS then match l' with [] => None | _ => parse_digits max 0 l' end
      else parse_digits max 0 l
  end.
Definition parse_usize : bytes → option Z := parse_unsigned (U64 - 1).
Definition parse_u16 : bytes → option Z := parse_unsigned (U16 - 1).

(** [str::parse::<i64>]. *)
Definition parse_i64 (l : bytes) : option Z :=
  match l with
  | b :: l' =>
      if Byte.eqb b MINUS then
        match l' with [] => None | _ => Z.opp <$> parse_digits (2 ^ 63) 0 l' end
      else parse_unsigned (2 ^ 63 - 1) l
  | [] => None
  end.

(** The decimal digits of a [u64], as [Display] prints them. *)
Fixpoint decimal_aux (fuel : nat) (n : Z) (acc : bytes) : bytes :=
  let acc' := z2b (48 + n mod 10) :: acc in
  match fuel with
  | O => acc'
  | S f => if n / 10 =? 0 then acc' else decimal_aux f (n / 10) acc'
  end.
Definition decimal (n : Z) : bytes := decimal_aux 19 n [].

(** * Lemmas *)

Lemma is_ascii_b2z b : is_ascii b = true → b2z b < 128.
Proof. unfold is_ascii. by rewrite Z.ltb_lt. Qed.

(** Validity is compositional: it can be checked piece by piece. *)
Lemma utf8_valid_app a l : utf8_valid a = true → utf8_valid (a ++ l) = utf8_valid l.
Proof.
  remember (length a) as n eqn:Hn. revert a Hn.
  induction (lt_wf n) as [n _ IH]; intros a ->.
  destruct a as [|b1 a1]; [done|]. cbn [utf8_valid app].
  destruct (is_ascii b1) eqn:E1.
  { apply IH with (y := length a1); simpl; [lia | done]. }
  destruct a1 as [|b2 a2]; [done|]. cbn [app].
  destruct (in_range 0xC2 0xDF b1).
  { intros [Hb Ha]%andb_true_iff. rewrite Hb. simpl.
    apply IH with (y := length a2); simpl; [lia | done..]. }
  destruct a2 as [|b3 a3]; [done|]. cbn [app].
  destruct (in_range 0xE0 0xEF b1).
  { intros [Hb Ha]%andb_true_iff. rewrite Hb. simpl.
    apply IH with (y := length a3); simpl; [lia | done..]. }
  destruct a3 as [|b4 a4]; [done|]. cbn [app].
  intros [Hb Ha]%andb_true_iff. rewrite Hb. simpl.
  apply IH with (y := length a4); simpl; [lia | done..].
Qed.

Lemma utf8_valid_ascii a : Forall (λ b, is_ascii b = true) a → utf8_valid a = true.
Proof. induction 1 as [|b a Hb Ha IH]; [done|]. cbn [utf8_valid]. by rewrite Hb. Qed.

Lemma is_ascii_digit_z2b d : 0 ≤ d < 10 → is_ascii_digit (z2b (48 + d)) = true.
Proof.
  intros Hd. unfold is_ascii_digit, in_range. rewrite b2z_z2b by lia.
  apply andb_true_iff. rewrite !Z.leb_le. lia.
Qed.

Lemma decimal_aux_digits f n acc :
  Forall (λ b, is_ascii_digit b = true) acc →
  Forall (λ b, is_ascii_digit b = true) (decimal_aux f n acc).
Proof.
  revert n acc. induction f as [|f IH]; intros n acc Hacc; simpl;
    assert (is_ascii_digit (z2b (48 + n mod 10)) = true)
      by (apply is_ascii_digit_z2b; apply Z.mod_pos_bound; lia); [by constructor|].
  destruct (n / 10 =? 0); [by constructor|]. apply IH. by constructor.
Qed.

Lemma decimal_digits n : Forall (λ b, is_ascii_digit b = true) (decimal n).
Proof. by apply decimal_aux_digits. Qed.

Lemma decimal_aux_app f n acc : ∃ p, p ≠ [] ∧ decimal_aux f n acc = p ++ acc.
Proof.
  revert n acc. induction f as [|f IH]; intros n acc; simpl.
  - by exists [z2b (48 + n mod 10)].
  - destruct (n / 10 =? 0); [by exists [z2b (48 + n mod 10)]|].
    destruct (IH (n / 10) (z2b (48 + n mod 10) :: acc)) as (p&Hp&->).
    exists (p ++ [z2b (48 + n mod 10)]). rewrite <- app_assoc. split; [|done].
    by destruct p.
Qed.

Lemma decimal_nonempty n : decimal n ≠ [].
Proof. unfold decimal. destruct (decimal_aux_app 19 n []) as ([|]&?&->); done. Qed.

(** A number below [10 ^ k] prints with at most [k] digits. *)
Lemma decimal_aux_length f n acc (k : nat) :
  0 ≤ n < 10 ^ Z.of_nat k → (0 < k)%nat →
  (length (decimal_aux f n acc) ≤ k + length acc)%nat.
Proof.
  revert n acc k. induction f as [|f IH]; intros n acc k Hn Hk; simpl; [lia|].
  destruct (n / 10 =? 0) eqn:E; simpl; [lia|].
  apply Z.eqb_neq in E.
  destruct k as [|[|k]]; [lia| |].
  - change (10 ^ Z.of_nat 1) with 10 in Hn. by rewrite Z.div_small in E by lia.
  - etrans; [apply (IH _ _ (S k)); [|lia]|simpl; lia].
    rewrite (Nat2Z.inj_succ (S k)), Z.pow_succ_r in Hn by lia.
    split; [apply Z.div_pos; lia | apply Z.div_lt_upper_bound; lia].
Qed.

Lemma decimal_length n (k : nat) :
  0 ≤ n < 10 ^ Z.of_nat k → (0 < k)%nat → (length (decimal n) ≤ k)%nat.
Proof.
  intros Hn Hk. pose proof (decimal_aux_length 19 n [] k Hn Hk) as H.
  unfold decimal. change (length (@nil byte)) with O in H. lia.
Qed.

(** Printing then parsing gives the number back. *)
Lemma parse_digits_decimal_aux f n acc max :
  0 ≤ n ≤ max → n < 10 ^ Z.of_nat (S f) →
  parse_digits max 0 (decimal_aux f n acc) = parse_digits max n acc.
Proof.
  revert n acc. induction f as [|f IH]; intros n acc Hn Hf; cbn [decimal_aux].
  - change (10 ^ Z.of_nat 1) with 10 in Hf.
    rewrite Z.mod_small by lia. cbn [parse_digits].
    rewrite is_ascii_digit_z2b, b2z_z2b by lia.
    replace (0 * 10 + (48 + n - 48)) with n by lia.
    by rewrite (proj2 (Z.leb_le n max)) by lia.
  - pose proof (Z.mod_pos_bound n 10 ltac:(lia)) as Hm.
    pose proof (Z.div_mod n 10 ltac:(lia)) as Hdm.
    assert (0 ≤ n / 10) by (apply Z.div_pos; lia).
    assert (parse_digits max (n / 10) (z2b (48 + n mod 10) :: acc) = parse_digits max n acc)
      as Hstep.
    { cbn [parse_digits]. rewrite is_ascii_digit_z2b, b2z_z2b by lia.
      replace (n / 10 * 10 + (48 + n mod 10 - 48)) with n by lia.
      by rewrite (proj2 (Z.leb_le n max)) by lia. }
    destruct (n / 10 =? 0) eqn:E.
    + apply Z.eqb_eq in E. by rewrite <- Hstep, E.
    + rewrite IH; [done | lia |].
      rewrite Nat2Z.inj_succ, Z.pow_succ_r in Hf by lia.
      apply Z.div_lt_upper_bound; lia.
Qed.

Lemma not_plus_digit b : is_ascii_digit b = true → Byte.eqb b PLUS = false.
Proof.
  intros H. apply byte_eqb_ne. intros ->. vm_compute in H. discriminate.
Qed.

Lemma parse_unsigned_decimal max n :
  0 ≤ n ≤ max → n < U64 → parse_unsigned max (decimal n) = Some n.
Proof.
  intros Hn H64. unfold parse_unsigned.
  destruct (decimal n) as [|b l] eqn:E; [by apply decimal_nonempty in E|].
  pose proof (decimal_digits n) as Hd. rewrite E in Hd. apply Forall_cons in Hd as [Hb _].
  rewrite not_plus_digit, <- E by done. unfold decimal.
  rewrite parse_digits_decimal_aux; [done | lia|].
  unfold U64 in H64. change (Z.of_nat 20) with 20. lia.
Qed.

Lemma parse_digits_bounds max acc l n :
  0 ≤ acc ≤ max → parse_digits max acc l = Some n → 0 ≤ n ≤ max.
Proof.
  revert acc. induction l as [|b l IH]; intros acc Ha; cbn [parse_digits]; [by intros [= <-]|].
  destruct (is_ascii_digit b) eqn:Eb; [|done]. unfold is_ascii_digit, in_range in Eb.
  apply andb_true_iff in Eb as [Eb _]. apply Z.leb_le in Eb.
  destruct (Z.leb_spec (acc * 10 + (b2z b - 48)) max); [|done]. apply IH. lia.
Qed.
Lemma parse_usize_bounds l n : parse_usize l = Some n → 0 ≤ n < U64.
Proof.
  unfold parse_usize, parse_unsigned. intros Hn. cut (0 ≤ n ≤ U64 - 1); [lia|].
  destruct l as [|b l]; [done|].
  destruct (Byte.eqb b PLUS); [destruct l; [done|]|]; (eapply parse_digits_bounds; [|exact Hn]);
    unfold U64; lia.
Qed.

Lemma parse_usize_decimal n : 0 ≤ n < U64 → parse_usize (decimal n) = Some n.
Proof. intros Hn. apply parse_unsigned_decimal; lia. Qed.
Lemma parse_u16_decimal n : 0 ≤ n < U16 → parse_u16 (decimal n) = Some n.
Proof. intros Hn. apply parse_unsigned_decimal; unfold U64, U16 in *; lia. Qed.

(** * Lines *)

Lemma lines_from_skip cur a l :
  LF ∉ a → lines_from cur (a ++ l) = lines_from (cur ++ a) l.
Proof.
  revert cur. induction a as [|x a IH]; intros cur Ha; simpl; [by rewrite app_nil_r|].
  apply not_elem_of_cons in Ha as [Hx Ha].
  rewrite byte_eqb_ne by done. rewrite IH by done. by rewrite <- app_assoc.
Qed.

Lemma strip_cr_snoc a : strip_cr (a ++ [CR]) = a.
Proof. unfold strip_cr. rewrite reverse_snoc. simpl. by rewrite reverse_involutive. Qed.

Lemma lines_crlf a l : LF ∉ a → lines (a ++ CRLF ++ l) = a :: lines l.
Proof.
  intros Ha. unfold lines. rewrite lines_from_skip by done. simpl.
  by rewrite strip_cr_snoc.
Qed.

(** * Trimming *)

Lemma trim_start_ws a l : Forall (λ b, ws1 b = true) a → trim_start (a ++ l) = trim_start l.
Proof. induction 1 as [|x a Hx Ha IH]; [done|]. cbn [app trim_start]. by rewrite Hx. Qed.

Lemma trim_rev_ws a l : Forall (λ b, ws1 b = true) a → trim_rev (a ++ l) = trim_rev l.
Proof. induction 1 as [|x a Hx Ha IH]; [done|]. cbn [app trim_rev]. by rewrite Hx. Qed.

(** A string that starts with an ASCII byte other than white space starts
    with that byte after trimming. *)
Lemma ws_ascii b :
  is_ascii b = true → (∀ b2, ws2 b b2 = false) ∧ (∀ b2 b3, ws3 b b2 b3 = false).
Proof.
  intros Hb.
  assert (∀ c, 128 ≤ b2z c → Byte.eqb b c = false) as Hc.
  { intros c Hc. apply byte_eqb_ne. intros ->. apply is_ascii_b2z in Hb. lia. }
  split; intros; unfold ws2, ws3; rewrite !Hc by (vm_compute; discriminate); done.
Qed.

Lemma trim_start_id b l : is_ascii b = true → ws1 b = false → trim_start (b :: l) = b :: l.
Proof.
  intros Hb Hw. destruct (ws_ascii b Hb) as [H2 H3].
  cbn [trim_start]. rewrite Hw. destruct l as [|b2 l]; [done|]. rewrite H2.
  destruct l as [|b3 l]; [done|]. by rewrite H3.
Qed.

Lemma ws_cont_ascii b :
  is_ascii b = true → (∀ b2, ws2 b2 b = false) ∧ (∀ b2 b3, ws3 b3 b2 b = false).
Proof.
  intros Hb.
  assert (∀ c, 128 ≤ b2z c → Byte.eqb b c = false) as Hc.
  { intros c Hc. apply byte_eqb_ne. intros ->. apply is_ascii_b2z in Hb. lia. }
  assert (in_range 0x80 0x8A b = false) as Hr.
  { apply is_ascii_b2z in Hb. unfold in_range. apply andb_false_iff. rewrite Z.leb_gt. lia. }
  split; intros; unfold ws2, ws3; rewrite ?Hr, !Hc by (vm_compute; discriminate);
    by rewrite ?andb_false_r.
Qed.

Lemma trim_rev_id b l : is_ascii b = true → ws1 b = false → trim_rev (b :: l) = b :: l.
Proof.
  intros Hb Hw. destruct (ws_cont_ascii b Hb) as [H2 H3].
  cbn [trim_rev]. rewrite Hw. destruct l as [|b2 l]; [done|]. rewrite H2.
  destruct l as [|b3 l]; [done|]. by rewrite H3.
Qed.

(** Spaces around a run of digits are trimmed away. *)
Lemma digit_ascii b : is_ascii_digit b = true → is_ascii b = true ∧ ws1 b = false.
Proof.
  unfold is_ascii_digit, is_ascii, ws1, in_range. rewrite andb_true_iff, !Z.leb_le.
  intros [H1 H2]. split; [apply Z.ltb_lt; lia|].
  apply orb_false_iff. split.
  - apply andb_false_iff. rewrite !Z.leb_gt. lia.
  - apply byte_eqb_ne. intros ->. vm_compute in H1. by apply H1.
Qed.

(** Text between two ASCII bytes other than white space. *)
Lemma trim_pad a d b x y :
  Forall (λ c, ws1 c = true) a → Forall (λ c, ws1 c = true) b →
  head d = Some x → is_ascii x = true → ws1 x = false →
  last d = Some y → is_ascii y = true → ws1 y = false → trim (a ++ d ++ b) = d.
Proof.
  intros Ha Hb Hd Hx1 Hx2 Hl Hy1 Hy2. unfold trim, trim_end. rewrite trim_start_ws by done.
  destruct d as [|z d]; [done|]. injection Hd as ->.
  rewrite <- app_comm_cons, trim_start_id, app_comm_cons by done.
  rewrite reverse_app, trim_rev_ws by (by apply Forall_reverse).
  apply last_Some in Hl as [d' Hl]. rewrite Hl, reverse_snoc, trim_rev_id by done.
  by rewrite reverse_cons, reverse_involutive.
Qed.

Lemma trim_digits a d b :
  Forall (λ c, ws1 c = true) a → Forall (λ c, ws1 c = true) b →
  Forall (λ c, is_ascii_digit c = true) d → d ≠ [] → trim (a ++ d ++ b) = d.
Proof.
  intros Ha Hb Hd Hne. destruct (head d) as [x|] eqn:Ex; [|by destruct d].
  destruct (last d) as [y|] eqn:Ey; [|by apply last_None in Ey].
  assert (∀ z, z ∈ d → is_ascii z = true ∧ ws1 z = false) as Hz.
  { intros z Hz. apply digit_ascii. rewrite Forall_forall in Hd. by apply Hd. }
  destruct (Hz x) as [Hx1 Hx2]; [destruct d; [done|]; injection Ex as ->; by left|].
  destruct (Hz y) as [Hy1 Hy2]; [|by eapply trim_pad].
  apply last_Some in Ey as [d' ->]. apply elem_of_app. right. by left.
Qed.

Lemma trim_start_suffix l : ∃ ws, l = ws ++ trim_start l.
Proof.
  remember (length l) as n eqn:Hn. revert l Hn.
  induction (lt_wf n) as [n _ IH]; intros l ->.
  destruct l as [|b1 l1]; [by exists []|]. cbn [trim_start].
  destruct (ws1 b1).
  { destruct (IH (length l1) ltac:(simpl; lia) l1 eq_refl) as [ws Hws].
    exists (b1 :: ws). by rewrite Hws at 1. }
  destruct l1 as [|b2 l2]; [by exists []|]. destruct (ws2 b1 b2).
  { destruct (IH (length l2) ltac:(simpl; lia) l2 eq_refl) as [ws Hws].
    exists (b1 :: b2 :: ws). by rewrite Hws at 1. }
  destruct l2 as [|b3 l3]; [by exists []|]. destruct (ws3 b1 b2 b3); [|by exists []].
  destruct (IH (length l3) ltac:(simpl; lia) l3 eq_refl) as [ws Hws].
  exists (b1 :: b2 :: b3 :: ws). by rewrite Hws at 1.
Qed.
