(* ===== verification/Types.v ===== *)
(** The crate's plain data: jobs (job.rs), errors (error.rs), outcomes
    (sink.rs), provider configuration (provider/mod.rs), and the standard
    library's [io::Error] and [SocketAddr] they mention. *)
From S2P Require Import Prelude.
From stdpp Require Import options.

(** * std::io::Error *)

(** The kinds the crate tests for or raises; a system error of any other kind
    is [Uncategorized]. *)
Inductive ErrorKind :=
| PermissionDenied
| ConnectionRefused
| ConnectionReset
| ConnectionAborted
| NotConnected
| BrokenPipe
| WouldBlock
| InvalidInput
| TimedOut
| WriteZero
| Interrupted
| Unsupported
| UnexpectedEof
| OtherKind
| Uncategorized.

#[export] Instance ErrorKind_eq_dec : EqDecision ErrorKind.
Proof. solve_decision. Defined.

Inductive io_error :=
| Os (errno : Z)
| Simple (kind : ErrorKind)
| Custom (kind : ErrorKind) (inner : io_error)
| Message (kind : ErrorKind) (text : string).

Definition EPERM : Z := 1.
Definition EINTR : Z := 4.
Definition EAGAIN : Z := 11.
Definition EACCES : Z := 13.
Definition EINVAL : Z := 22.
Definition EPIPE : Z := 32.
Definition ENOSYS : Z := 38.
Definition EOPNOTSUPP : Z := 95.
Definition ECONNABORTED : Z := 103.
Definition ECONNRESET : Z := 104.
Definition ENOTCONN : Z := 107.
Definition ETIMEDOUT : Z := 110.
Definition ECONNREFUSED : Z := 111.

(** The Linux errno table of [io::Error::kind]. *)
Definition decode_error_kind (e : Z) : ErrorKind :=
  if (e =? EPERM) || (e =? EACCES) then PermissionDenied
  else if e =? EINTR then Interrupted
  else if e =? EAGAIN then WouldBlock
  else if e =? EINVAL then InvalidInput
  else if e =? EPIPE then BrokenPipe
  else if (e =? ENOSYS) || (e =? EOPNOTSUPP) then Unsupported
  else if e =? ECONNABORTED then ConnectionAborted
  else if e =? ECONNRESET then ConnectionReset
  else if e =? ENOTCONN then NotConnected
  else if e =? ETIMEDOUT then TimedOut
  else if e =? ECONNREFUSED then ConnectionRefused
  else Uncategorized.

Definition kind (e : io_error) : ErrorKind :=
  match e with
  | Os n => decode_error_kind n
  | Simple k | Custom k _ | Message k _ => k
  end.

Definition raw_os_error (e : io_error) : option Z :=
  match e with
  | Os n => Some n
  | _ => None
  end.

(** [std::net::SocketAddr]. *)
Inductive SocketAddr :=
| V4 (octets : bytes) (port : Z)
| V6 (octets : bytes) (port flowinfo scope_id : Z).

Definition addr_port (a : SocketAddr) : Z :=
  match a with
  | V4 _ p => p
  | V6 _ p _ _ => p
  end.

(** * job.rs *)

Definition MAX_TX_LEN : Z := 1232.

Record Job := mkJob { job_id : Z; job_ctx : Z }.

#[export] Instance Job_eq_dec : EqDecision Job.
Proof. solve_decision. Defined.

(** [ProviderId(pub u16)]. *)
Record ProviderId := mkProviderId { pid_u16 : Z }.

#[export] Instance ProviderId_eq_dec : EqDecision ProviderId.
Proof. solve_decision. Defined.

Definition idx (p : ProviderId) : Z := pid_u16 p.

(** [ProviderId(i as u16)]: the cast keeps the low sixteen bits. *)
Definition provider_id (i : nat) : ProviderId := mkProviderId (Z.of_nat i mod U16).

(** * error.rs *)

Inductive EnvelopeError :=
| BodySentinelMissing
| BodyMaxTooSmall (max_len sentinel : Z)
| BodyTooLarge (encoded body_max : Z)
| ContentLengthOverflow (value width : Z)
| UnknownUserSlot (name : bytes)
| UserSlotOverflow (name : bytes) (value sentinel : Z).

Inductive TransportError :=
| TConnect (e : io_error)
| TIo (e : io_error)
| TTls (msg : bytes)
| TQuic (msg : bytes)
| TEnvelope (e : EnvelopeError)
| TClosed
| TFailover
| TTpa (code : Z).

Inductive TriggerError :=
| Backpressure.

Inductive SenderError :=
| NoProviders
| NoSource
| NoSink
| NoTransport
| NoTls
| SUnsupported (e : io_error)
| SConnect (provider : Z) (source : TransportError)
| SQuicConfig (provider : Z) (reason : bytes).

(** * sink.rs *)

Inductive OutcomeKind :=
| Accepted (signature : bytes)
| Rejected (code : Z) (message : bytes)
| Transport (e : TransportError)
| NoResponse.

Record ProviderOutcome := mkProviderOutcome {
  po_job : Z;
  po_provider : ProviderId;
  po_kind : OutcomeKind;
  po_sent_at : Z;
  po_settled_at : Z;
}.

(** * provider/mod.rs *)

(** [trait ResponseCodec]. *)
Record ResponseCodec := mkResponseCodec { codec_parse : bytes → OutcomeKind }.

Inductive Protocol := Http | Quic.

Inductive HttpAuth :=
| HttpAuth_None
| HttpAuth_Header (name value : bytes)
| HttpAuth_UrlParam (key value : bytes)
| HttpAuth_UrlPath (token : bytes).

Record HttpEndpoint := mkHttpEndpoint {
  ep_host : bytes;
  ep_port : Z;
  ep_path : bytes;
  ep_server_name : bytes;
}.

Record QuicEndpoint := mkQuicEndpoint {
  qe_addr : SocketAddr;
  qe_server_name : bytes;
}.

Record QuicProfile := mkQuicProfile {
  qp_alpn : bytes;
  qp_idle_timeout_ms : Z;
  qp_keepalive_interval_secs : Z;
  qp_max_streams_uni : Z;
}.

Definition QuicProfile_soyas : QuicProfile :=
  mkQuicProfile (str "solana-tpu") 300000 30 1000000.
Definition QuicProfile_speedlanding : QuicProfile :=
  mkQuicProfile (str "solana-tpu") 300000 30 1000000.
Definition QuicProfile_falcon : QuicProfile :=
  mkQuicProfile (str "falcon-tx") 30000 25 64.

Inductive QuicAuth :=
| Ed25519Keypair (keypair : bytes)
| FalconApiKey (api_key : bytes)
| NoCert.

Record ProviderConfig := mkProviderConfig {
  pc_protocol : Protocol;
  pc_endpoint : HttpEndpoint;
  pc_quic_endpoint : option QuicEndpoint;
  pc_quic_profile : option QuicProfile;
  pc_quic_auth : option QuicAuth;
  pc_auth : HttpAuth;
  pc_max_body : Z;
  pc_body_template : bytes;
  pc_codec : ResponseCodec;
}.
