(* ===== verification/Envelope.v ===== *)
(** The request envelope, protocol/http/envelope.rs: a request template is
    compiled once, with the offsets of its two placeholders, and a transaction
    is spliced into it for every job. *)
From S2P Require Import Prelude Str Types.
From stdpp Require Import options.

(** * Data *)

Record BodyPlaceholder := mkBodyPlaceholder {
  bp_sentinel : bytes;
  bp_max_len : Z;
}.

Record ContentLengthSpec := mkContentLengthSpec {
  cls_sentinel : bytes;
  cls_width : Z;
}.

Record EnvelopeSpec := mkEnvelopeSpec {
  es_bytes : bytes;
  es_body : BodyPlaceholder;
  es_content_length : option ContentLengthSpec;
}.

Record EnvelopeTemplate := mkEnvelopeTemplate {
  et_buf : bytes;
  et_out : bytes;
  et_body_off : Z;
  et_body_max : Z;
  et_cl_off : option Z;
  et_cl_width : Z;
  et_http_body_start : Z;
}.

(** * Operations *)

Section envelope.
Context `{BuildProfile}.

(** The loop of [find_unique] from offset [i], where [haystack] is the rest of
    the haystack from there and [found] the occurrence seen so far. *)
Fixpoint find_unique_from (needle haystack : bytes) (i : nat) (found : option nat) : option nat :=
  if bool_decide (length needle ≤ length haystack)%nat then
    let hit := starts_with needle haystack in
    match hit, found with
    | true, Some _ => None
    | _, _ =>
        let found' := if hit then Some i else found in
        match haystack with
        | [] => found'
        | _ :: rest => find_unique_from needle rest (S i) found'
        end
    end
  else found.

Definition find_unique (haystack needle : bytes) : option nat :=
  find_unique_from needle haystack 0 None.

Definition HEADER_SEP : bytes := CRLF ++ CRLF.

(** Where [compile] moves the content-length offset when the body placeholder
    grows. *)
Definition shift_cl (cl_off : option Z) (threshold delta : Z) : outcome (option Z) :=
  match cl_off with
  | Some off => if threshold <=? off then Some <$> add_mod U32 off delta else Ret (Some off)
  | None => Ret None
  end.

(** The offset and the width of the content-length placeholder. *)
Definition compile_cl (spec : EnvelopeSpec) : outcome (result (option Z * Z) EnvelopeError) :=
  match es_content_length spec with
  | Some cl =>
      match find_unique (es_bytes spec) (cls_sentinel cl) with
      | Some off =>
          off' ← u32_expect (Z.of_nat off);
          Ret (Ok (Some off', cls_width cl))
      | None => Ret (Err BodySentinelMissing)
      end
  | None => Ret (Ok (None, 0))
  end.

(** The placeholder widened to [max_len] spaces, with the content-length
    offset it moves. *)
Definition compile_pad (spec : EnvelopeSpec) (body_off : Z) (cl_off : option Z) :
    outcome (bytes * option Z) :=
  let sentinel_len := zlen (bp_sentinel (es_body spec)) in
  let max_len := bp_max_len (es_body spec) in
  if sentinel_len <? max_len then
    head ← slice_to body_off (es_bytes spec);
    tail ← slice_from (body_off + sentinel_len) (es_bytes spec);
    delta ← u32_expect (max_len - sentinel_len);
    threshold ← u32_expect (body_off + sentinel_len);
    cl_off' ← shift_cl cl_off threshold delta;
    Ret (head ++ replicate (Z.to_nat max_len) SP ++ tail, cl_off')
  else Ret (es_bytes spec, cl_off).

(** [EnvelopeTemplate::compile], and [EnvelopeSpec::compile], which calls it. *)
Definition compile (spec : EnvelopeSpec) : outcome (result EnvelopeTemplate EnvelopeError) :=
  let sentinel_len := zlen (bp_sentinel (es_body spec)) in
  let max_len := bp_max_len (es_body spec) in
  if max_len <? sentinel_len then Ret (Err (BodyMaxTooSmall max_len sentinel_len))
  else
    match find_unique (es_bytes spec) (bp_sentinel (es_body spec)) with
    | None => Ret (Err BodySentinelMissing)
    | Some body_off =>
        cl ←? compile_cl spec;
        '(buf, cl_off) ← compile_pad spec (Z.of_nat body_off) cl.1;
        body_max ← u32_expect max_len;
        body_off_u32 ← u32_expect (Z.of_nat body_off);
        match find_sub HEADER_SEP buf with
        | None => Ret (Err BodySentinelMissing)
        | Some header_sep =>
            http_body_start ← u32_expect (Z.of_nat header_sep + 4);
            Ret (Ok (mkEnvelopeTemplate buf [] body_off_u32 body_max cl_off cl.2 http_body_start))
        end
    end.

(** The loop that writes the decimal digits of [n] into the twenty-byte
    scratch array from the right: [pos] bytes are still free and [digits] are
    written. *)
Fixpoint digits_loop (pos : nat) (n : Z) (digits : bytes) : outcome bytes :=
  match pos with
  | O => Panic
  | S pos' =>
      let digits' := z2b (48 + n mod 10) :: digits in
      if n / 10 =? 0 then Ret digits' else digits_loop pos' (n / 10) digits'
  end.

(** [tx.len().div_ceil(3) * 4]. *)
Definition needed_len (tx : bytes) : Z := (zlen tx + 2) / 3 * 4.

(** [base64_simd::STANDARD.encode]. *)
Context (base64 : bytes → bytes).

(** The last part of [splice]: the content length written over its
    placeholder, left-aligned and padded with spaces. *)
Definition splice_cl (t : EnvelopeTemplate) (out : bytes) :
    outcome (result bytes EnvelopeError) :=
  match et_cl_off t with
  | None => Ret (Ok out)
  | Some cl_off =>
      http_body_len ← sub_mod U64 (zlen out) (et_http_body_start t);
      digits ← digits_loop 20 http_body_len [];
      if et_cl_width t <? zlen digits
      then Ret (Err (ContentLengthOverflow http_body_len (et_cl_width t)))
      else
        out1 ← write_at cl_off digits out;
        let pad := replicate (Z.to_nat (et_cl_width t - zlen digits)) SP in
        out2 ← write_at (cl_off + zlen digits) pad out1;
        Ret (Ok out2)
  end.

(** [EnvelopeTemplate::splice]: the template with its new [out] buffer, and
    the frame, which is the whole of that buffer. *)
Definition splice (t : EnvelopeTemplate) (tx : bytes) :
    outcome (result bytes EnvelopeError * EnvelopeTemplate) :=
  let needed := needed_len tx in
  if et_body_max t <? needed
  then Ret (Err (BodyTooLarge needed (et_body_max t)), t)
  else
    head ← slice_to (et_body_off t) (et_buf t);
    tail ← slice_from (et_body_off t + et_body_max t) (et_buf t);
    if needed <? zlen (base64 tx) then Panic
    else
      let out := head ++ base64 tx ++ tail in
      r ← splice_cl t out;
      let out' := match r with Ok o => o | Err _ => out end in
      Ret (r, mkEnvelopeTemplate (et_buf t) out' (et_body_off t) (et_body_max t)
                (et_cl_off t) (et_cl_width t) (et_http_body_start t)).
End envelope.

Lemma zlen_HEADER_SEP : zlen HEADER_SEP = 4.
Proof. done. Qed.
#[export] Hint Rewrite zlen_HEADER_SEP : len.

(** * find_unique *)

Lemma occurs_at_long p l i : (length l < length p)%nat → ¬ occurs_at p l i.
Proof. intros Hl (a&b&->&_). rewrite !length_app in Hl. lia. Qed.

(** [k] is the one occurrence the loop at [i] can report. *)
Definition one_ahead (needle h : bytes) (i : nat) (found : option nat) (k : nat) : Prop :=
  (found = Some k ∧ ∀ j, ¬ occurs_at needle h j) ∨
  (found = None ∧ ∃ j, k = (i + j)%nat ∧ occurs_at needle h j ∧
     ∀ j', occurs_at needle h j' → j' = j).

Lemma one_ahead_skip needle x h i found k :
  ¬ occurs_at needle (x :: h) 0 →
  one_ahead needle h (S i) found k ↔ one_ahead needle (x :: h) i found k.
Proof.
  intros E'. unfold one_ahead. f_equiv; f_equiv.
  - split.
    + intros Hn [|j]; [done|]. by rewrite occurs_at_S.
    + intros Hn j Hj. by apply (Hn (S j)), occurs_at_S.
  - split.
    + intros (j&->&Hj&Hu). exists (S j). rewrite occurs_at_S.
      split_and!; [lia | done |]. intros [|j'] Hj'; [done|].
      rewrite occurs_at_S in Hj'. by rewrite (Hu _ Hj').
    + intros ([|j]&->&Hj&Hu); [done|]. rewrite occurs_at_S in Hj. exists j.
      split_and!; [lia | done |]. intros j' Hj'.
      rewrite <- (occurs_at_S _ x) in Hj'. apply Hu in Hj'. lia.
Qed.

(** What the loop returns, from the occurrences still ahead of it. *)
Lemma find_unique_from_spec needle h i found k :
  find_unique_from needle h i found = Some k ↔ one_ahead needle h i found k.
Proof.
  revert i found. induction h as [|x h IH]; intros i found; cbn [find_unique_from];
    case_bool_decide as Hlen.
  - unfold one_ahead. destruct (starts_with needle []) eqn:E.
    + apply occurs_at_O in E. destruct found as [f|].
      * split; [done|]. intros [[_ Hn]|[? _]]; [by destruct (Hn O) | done].
      * split.
        -- intros [= <-]. right. split; [done|]. exists O. rewrite Nat.add_0_r.
           split_and!; [done..|]. intros j' Hj'. by apply occurs_at_nil in Hj' as [-> _].
        -- intros [[? _]|(_&j&->&Hj&_)]; [done|].
           apply occurs_at_nil in Hj as [-> _]. by rewrite Nat.add_0_r.
    + assert (∀ j, ¬ occurs_at needle [] j) as Hn.
      { intros j Hj. destruct (occurs_at_nil _ _ Hj) as [-> ->]. done. }
      unfold one_ahead; destruct found; naive_solver.
  - assert (∀ j, ¬ occurs_at needle [] j) as Hn by (intros; apply occurs_at_long; lia).
    unfold one_ahead; destruct found; naive_solver.
  - destruct (starts_with needle (x :: h)) eqn:E.
    + apply occurs_at_O in E. destruct found as [f|].
      * split; [done|]. intros [[_ Hn]|[? _]]; [by destruct (Hn O) | done].
      * rewrite IH. unfold one_ahead. split.
        -- intros [[[= <-] Hn]|[? _]]; [|done]. right. split; [done|]. exists O.
           rewrite Nat.add_0_r. split_and!; [done..|].
           intros [|j'] Hj'; [done|]. rewrite occurs_at_S in Hj'. by destruct (Hn j').
        -- intros [[? _]|(_&j&->&Hj&Hu)]; [done|]. left.
           assert (j = O) as -> by (symmetry; auto). rewrite Nat.add_0_r. split; [done|].
           intros j' Hj'. rewrite <- (occurs_at_S _ x) in Hj'. apply Hu in Hj'. lia.
    + assert (¬ occurs_at needle (x :: h) 0) as E' by (rewrite occurs_at_O; congruence).
      transitivity (find_unique_from needle h (S i) found = Some k).
      { by destruct found. }
      by rewrite IH, <- (one_ahead_skip _ x).
  - assert (∀ j, ¬ occurs_at needle (x :: h) j) as Hn
      by (intros; apply occurs_at_long; lia).
    unfold one_ahead; destruct found; naive_solver.
Qed.

Lemma find_unique_spec h needle i :
  find_unique h needle = Some i ↔
  occurs_at needle h i ∧ ∀ j, occurs_at needle h j → j = i.
Proof.
  unfold find_unique. rewrite find_unique_from_spec. split.
  - intros [[? _]|(_&j&->&?&?)]; [done|]. by rewrite Nat.add_0_l.
  - intros [Hi Hu]. right. split; [done|]. by exists i.
Qed.

(** Text without the pattern's first byte does not change what is found. *)
Lemma occurs_at_skip c p a l j :
  c ∉ a → occurs_at (c :: p) (a ++ l) j ↔
  (length a ≤ j)%nat ∧ occurs_at (c :: p) l (j - length a).
Proof.
  revert j. induction a as [|x a IH]; intros j Ha.
  - simpl. rewrite Nat.sub_0_r. split; [intros; split; [lia|done] | by intros [_ ?]].
  - apply not_elem_of_cons in Ha as [Hx Ha]. cbn [app]. destruct j as [|j].
    + rewrite occurs_at_O, starts_with_head by done. simpl. naive_solver lia.
    + rewrite occurs_at_S, IH by done. simpl. split; intros [??]; (split; [lia|done]).
Qed.

Lemma find_unique_skip c p a l :
  c ∉ a → find_unique (a ++ l) (c :: p) = Nat.add (length a) <$> find_unique l (c :: p).
Proof.
  intros Ha. apply option_eq. intros i. rewrite fmap_Some, find_unique_spec.
  setoid_rewrite find_unique_spec. setoid_rewrite (occurs_at_skip c p a l); [|done..].
  split.
  - intros [[Hle Hi] Hu]. exists (i - length a)%nat. split_and!; [done| |lia].
    intros j Hj. cut ((j + length a)%nat = i); [lia|]. apply Hu.
    split; [lia|]. by replace (j + length a - length a)%nat with j by lia.
  - intros (k&[Hk Hu]&->). replace (length a + k - length a)%nat with k by lia.
    split; [split; [lia|done]|]. intros j [Hle Hj]. apply Hu in Hj. lia.
Qed.

(** * The frame a template gives *)

Lemma digits_loop_decimal f n acc :
  0 ≤ n < 10 ^ Z.of_nat (S f) → digits_loop (S f) n acc = Ret (decimal_aux f n acc).
Proof.
  revert n acc. induction f as [|f IH]; intros n acc Hn.
  - change (10 ^ Z.of_nat 1) with 10 in Hn. cbn [digits_loop decimal_aux].
    by rewrite (Z.div_small n 10) by lia.
  - cbn [decimal_aux]. change (digits_loop (S (S f)) n acc) with
      (let d := z2b (48 + n mod 10) :: acc in
       if n / 10 =? 0 then Ret d else digits_loop (S f) (n / 10) d).
    cbn zeta. destruct (n / 10 =? 0); [done|]. apply IH.
    rewrite Nat2Z.inj_succ, Z.pow_succ_r in Hn by lia.
    split; [apply Z.div_pos; lia | apply Z.div_lt_upper_bound; lia].
Qed.

(** The digits loop never leaves its scratch array on a [usize]. *)
Lemma digits_loop_u64 n : 0 ≤ n < U64 → digits_loop 20 n [] = Ret (decimal n).
Proof.
  intros Hn. apply digits_loop_decimal. unfold U64 in Hn. change (Z.of_nat 20) with 20. lia.
Qed.

Definition pad_right (w : Z) (d : bytes) : bytes :=
  d ++ replicate (Z.to_nat (w - zlen d)) SP.

Lemma zlen_pad_right w d : zlen d ≤ w → zlen (pad_right w d) = w.
Proof. intros. unfold pad_right. len. Qed.

(** A request: header bytes around a content-length field of width [w], the
    blank line, and a body. *)
Definition request_frame (w : Z) (h1 h2 body : bytes) : bytes :=
  h1 ++ pad_right w (decimal (zlen body)) ++ h2 ++ HEADER_SEP ++ body.

(** A specification whose content-length placeholder stands in the header and
    whose body placeholder stands in the body, each once. *)
Record request_layout (spec : EnvelopeSpec) (cl : ContentLengthSpec) (h1 h2 b1 b2 : bytes) : Prop := {
  rl_cl : es_content_length spec = Some cl;
  rl_bytes : es_bytes spec =
    h1 ++ cls_sentinel cl ++ h2 ++ HEADER_SEP ++ b1 ++ bp_sentinel (es_body spec) ++ b2;
  rl_body_once : is_Some (find_unique (es_bytes spec) (bp_sentinel (es_body spec)));
  rl_cl_once : is_Some (find_unique (es_bytes spec) (cls_sentinel cl));
  rl_sep : find_sub HEADER_SEP (h1 ++ cls_sentinel cl ++ h2 ++ HEADER_SEP)
           = Some (length (h1 ++ cls_sentinel cl ++ h2));
  rl_width : zlen (cls_sentinel cl) = cls_width cl ∧ 0 < cls_width cl ≤ 20;
  rl_max : zlen (bp_sentinel (es_body spec)) ≤ bp_max_len (es_body spec);
  rl_size : zlen (es_bytes spec) + bp_max_len (es_body spec) < U32;
}.

(** The template compiled from one: [c] and [ph] fill the two placeholders. *)
Record template_layout (t : EnvelopeTemplate) (w m : Z) (h1 h2 b1 b2 : bytes) : Prop := {
  tl_buf : ∃ c ph, zlen c = w ∧ zlen ph = m ∧
    et_buf t = h1 ++ c ++ h2 ++ HEADER_SEP ++ b1 ++ ph ++ b2;
  tl_body_off : et_body_off t = zlen h1 + w + zlen h2 + 4 + zlen b1;
  tl_body_max : et_body_max t = m;
  tl_cl_off : et_cl_off t = Some (zlen h1);
  tl_cl_width : et_cl_width t = w ∧ 0 < w ≤ 20;
  tl_start : et_http_body_start t = zlen h1 + w + zlen h2 + 4;
}.

Lemma find_unique_at h needle a b :
  is_Some (find_unique h needle) → h = a ++ needle ++ b → find_unique h needle = Some (length a).
Proof.
  intros [i Hi] ->. rewrite Hi. apply find_unique_spec in Hi as [_ Hu].
  f_equal. symmetry. apply Hu. by exists a, b.
Qed.

Section frames.
Context `{BuildProfile} (base64 : bytes → bytes).

Lemma compile_cl_layout spec cl h1 h2 b1 b2 :
  request_layout spec cl h1 h2 b1 b2 →
  compile_cl spec = Ret (Ok (Some (zlen h1), cls_width cl)).
Proof.
  intros L. unfold compile_cl. rewrite (rl_cl _ _ _ _ _ _ L).
  erewrite find_unique_at; [|apply L|apply L].
  pose proof (rl_size _ _ _ _ _ _ L) as Hs. rewrite (rl_bytes _ _ _ _ _ _ L) in Hs.
  pose proof (rl_max _ _ _ _ _ _ L) as Hm.
  fold (zlen h1). rewrite u32_expect_ok; [done|]. len.
Qed.

Lemma compile_pad_layout spec cl h1 h2 b1 b2 :
  request_layout spec cl h1 h2 b1 b2 →
  let hd := h1 ++ cls_sentinel cl ++ h2 ++ HEADER_SEP ++ b1 in
  ∃ ph, zlen ph = bp_max_len (es_body spec) ∧
    compile_pad spec (zlen hd) (Some (zlen h1)) = Ret (hd ++ ph ++ b2, Some (zlen h1)).
Proof.
  intros L hd. set (bs := bp_sentinel (es_body spec)). set (m := bp_max_len (es_body spec)).
  assert (es_bytes spec = hd ++ bs ++ b2) as Hb.
  { rewrite (rl_bytes _ _ _ _ _ _ L). unfold hd. by rewrite <- !app_assoc. }
  pose proof (rl_size _ _ _ _ _ _ L) as Hs. rewrite Hb in Hs.
  pose proof (rl_max _ _ _ _ _ _ L) as Hm. fold bs m in Hs, Hm.
  unfold compile_pad. fold bs m. destruct (zlen bs <? m) eqn:E; ztests.
  - exists (replicate (Z.to_nat m) SP). split; [len|].
    rewrite Hb, slice_to_app. cbn.
    rewrite <- zlen_app, app_assoc, slice_from_app. cbn.
    rewrite !u32_expect_ok by len. cbn.
    rewrite (proj2 (Z.leb_gt _ _)); [done|].
    unfold hd. destruct (rl_width _ _ _ _ _ _ L) as [Hw ?]. len.
  - exists bs. split; [lia|]. by rewrite Hb.
Qed.

(** Compiling a request specification succeeds and records where its
    placeholders are. *)
Lemma compile_request spec cl h1 h2 b1 b2 :
  request_layout spec cl h1 h2 b1 b2 →
  ∃ t, compile spec = Ret (Ok t) ∧
    template_layout t (cls_width cl) (bp_max_len (es_body spec)) h1 h2 b1 b2.
Proof.
  intros L. set (hd := h1 ++ cls_sentinel cl ++ h2 ++ HEADER_SEP ++ b1).
  pose proof (rl_size _ _ _ _ _ _ L) as Hs. pose proof (rl_max _ _ _ _ _ _ L) as Hm.
  destruct (rl_width _ _ _ _ _ _ L) as [Hw Hw'].
  unfold compile. rewrite (proj2 (Z.ltb_ge _ _)) by done.
  assert (find_unique (es_bytes spec) (bp_sentinel (es_body spec)) = Some (length hd)) as Hf.
  { apply (find_unique_at _ _ hd b2); [apply L|]. rewrite (rl_bytes _ _ _ _ _ _ L).
    unfold hd. by rewrite <- !app_assoc. }
  rewrite Hf. erewrite compile_cl_layout by done. unfold try_. cbn [mbind outcome_bind fst snd].
  destruct (compile_pad_layout _ _ _ _ _ _ L) as (ph&Hph&Hpad). fold hd in Hpad.
  fold (zlen hd). rewrite Hpad. cbn [mbind outcome_bind].
  rewrite (rl_bytes _ _ _ _ _ _ L) in Hs.
  assert (zlen hd < U32) by (unfold hd; len).
  rewrite (u32_expect_ok (bp_max_len _)) by len. cbn [mbind outcome_bind].
  rewrite u32_expect_ok by done. cbn [mbind outcome_bind].
  assert (find_sub HEADER_SEP (hd ++ ph ++ b2) = Some (length (h1 ++ cls_sentinel cl ++ h2)))
    as Hsep.
  { replace (hd ++ ph ++ b2) with
      ((h1 ++ cls_sentinel cl ++ h2 ++ HEADER_SEP) ++ b1 ++ ph ++ b2)
      by (unfold hd; by rewrite <- !app_assoc).
    apply find_sub_grow, L. }
  rewrite Hsep. fold (zlen (h1 ++ cls_sentinel cl ++ h2)).
  rewrite u32_expect_ok by len. cbn [mbind outcome_bind].
  eexists. split; [done|]. split; cbn; [|unfold hd; len; try done..].
  - exists (cls_sentinel cl), ph. split_and!; [done..|]. unfold hd. by rewrite <- !app_assoc.
Qed.

(** Writing the content length over the placeholder. *)
Lemma splice_cl_frame t w m h1 h2 b1 b2 c body :
  template_layout t w m h1 h2 b1 b2 → zlen c = w →
  zlen body < 10 ^ w → zlen body < U64 →
  splice_cl t (h1 ++ c ++ h2 ++ HEADER_SEP ++ body) = Ret (Ok (request_frame w h1 h2 body)).
Proof.
  intros L Hc Hb Hb'. destruct (tl_cl_width _ _ _ _ _ _ _ L) as [Hw Hw'].
  unfold splice_cl. rewrite (tl_cl_off _ _ _ _ _ _ _ L), (tl_start _ _ _ _ _ _ _ L), Hw.
  rewrite sub_mod_ok by len. cbn [mbind outcome_bind].
  replace (zlen (h1 ++ c ++ h2 ++ HEADER_SEP ++ body) - (zlen h1 + w + zlen h2 + 4))
    with (zlen body) by len.
  rewrite digits_loop_u64 by len. cbn [mbind outcome_bind].
  set (d := decimal (zlen body)).
  assert (zlen d ≤ w) as Hd.
  { unfold d, zlen at 1. pose proof (decimal_length (zlen body) (Z.to_nat w)) as Hl.
    rewrite Z2Nat.id in Hl by lia. unfold zlen in *. lia. }
  rewrite (proj2 (Z.ltb_ge _ _)) by done.
  rewrite <- (take_drop (length d) c), <- (app_assoc (take _ c)).
  assert (zlen (take (length d) c) = zlen d) as Ht
    by (unfold zlen in *; rewrite length_take; lia).
  assert (zlen (drop (length d) c) = w - zlen d) as Ht'
    by (unfold zlen in *; rewrite length_drop; lia).
  rewrite write_at_app by done. cbn [mbind outcome_bind].
  rewrite <- zlen_app, app_assoc, write_at_app by len. cbn [mbind outcome_bind].
  unfold request_frame, pad_right. fold d. by rewrite <- !app_assoc.
Qed.

Definition body_of (b1 b2 tx : bytes) : bytes := b1 ++ base64 tx ++ b2.

(** Splicing a transaction that fits gives its frame and leaves the template
    ready for the next one. *)
Lemma splice_frame t w m h1 h2 b1 b2 tx :
  template_layout t w m h1 h2 b1 b2 →
  zlen (base64 tx) ≤ needed_len tx ≤ m →
  zlen (body_of b1 b2 tx) < 10 ^ w → zlen (body_of b1 b2 tx) < U64 →
  ∃ t', splice base64 t tx = Ret (Ok (request_frame w h1 h2 (body_of b1 b2 tx)), t') ∧
    template_layout t' w m h1 h2 b1 b2.
Proof.
  intros L [He Hn] Hb Hb'. destruct (tl_buf _ _ _ _ _ _ _ L) as (c&ph&Hc&Hph&Hbuf).
  destruct (tl_cl_width _ _ _ _ _ _ _ L) as [Hw Hw'].
  unfold splice. rewrite (tl_body_max _ _ _ _ _ _ _ L), (tl_body_off _ _ _ _ _ _ _ L), Hbuf.
  rewrite (proj2 (Z.ltb_ge _ _)) by done.
  set (hd := h1 ++ c ++ h2 ++ HEADER_SEP ++ b1).
  replace (zlen h1 + w + zlen h2 + 4 + zlen b1) with (zlen hd) by (unfold hd; len).
  replace (h1 ++ c ++ h2 ++ HEADER_SEP ++ b1 ++ ph ++ b2) with (hd ++ ph ++ b2)
    by (unfold hd; by rewrite <- !app_assoc).
  rewrite slice_to_app. cbn [mbind outcome_bind].
  replace (zlen hd + m) with (zlen (hd ++ ph)) by len.
  rewrite (app_assoc hd ph), slice_from_app. cbn [mbind outcome_bind].
  rewrite (proj2 (Z.ltb_ge _ _)) by done.
  replace (hd ++ base64 tx ++ b2) with (h1 ++ c ++ h2 ++ HEADER_SEP ++ body_of b1 b2 tx)
    by (unfold hd, body_of; by rewrite <- !app_assoc).
  erewrite splice_cl_frame by done. cbn [mbind outcome_bind].
  eexists. split; [done|]. destruct L as [? ? ? ? ? ?]. split; cbn; try done; [|unfold hd; len].
  exists c, ph. split_and!; [done..|]. unfold hd. by rewrite <- !app_assoc.
Qed.

(** A transaction whose encoding does not fit is refused, and nothing of the
    template changes. *)
Lemma splice_too_large t tx :
  et_body_max t < needed_len tx →
  splice base64 t tx = Ret (Err (BodyTooLarge (needed_len tx) (et_body_max t)), t).
Proof. intros Hn. unfold splice. by rewrite (proj2 (Z.ltb_lt _ _)). Qed.

(** The frames of a sequence of transactions spliced one after the other. *)
Fixpoint splice_all (t : EnvelopeTemplate) (txs : list bytes) :
    outcome (list (result bytes EnvelopeError)) :=
  match txs with
  | [] => Ret []
  | tx :: txs' =>
      '(r, t') ← splice base64 t tx;
      rs ← splice_all t' txs';
      Ret (r :: rs)
  end.

(** What every transaction of a job must satisfy to be sent in this envelope. *)
Definition fits (w m : Z) (b1 b2 tx : bytes) : Prop :=
  zlen (base64 tx) ≤ needed_len tx ≤ m ∧
  zlen (body_of b1 b2 tx) < 10 ^ w ∧ zlen (body_of b1 b2 tx) < U64.

Lemma splice_all_frames t w m h1 h2 b1 b2 txs :
  template_layout t w m h1 h2 b1 b2 → Forall (fits w m b1 b2) txs →
  splice_all t txs = Ret ((λ tx, Ok (request_frame w h1 h2 (body_of b1 b2 tx))) <$> txs).
Proof.
  intros L Htxs. revert t L. induction Htxs as [|tx txs (Hf&Hb&Hb') Htxs IH]; intros t L; [done|].
  destruct (splice_frame t w m h1 h2 b1 b2 tx) as (t'&Hs&L'); [done..|].
  cbn [splice_all]. rewrite Hs. cbn [mbind outcome_bind].
  by rewrite (IH _ L').
Qed.

(** What a splice gives, by the size of the transaction. *)
Definition splice_result (w m : Z) (h1 h2 b1 b2 tx : bytes) : result bytes EnvelopeError :=
  if m <? needed_len tx then Err (BodyTooLarge (needed_len tx) m)
  else Ok (request_frame w h1 h2 (body_of b1 b2 tx)).

Lemma splice_all_results t w m h1 h2 b1 b2 txs :
  template_layout t w m h1 h2 b1 b2 →
  Forall (λ tx, needed_len tx ≤ m → fits w m b1 b2 tx) txs →
  splice_all t txs = Ret (splice_result w m h1 h2 b1 b2 <$> txs).
Proof.
  intros L Htxs. revert t L. induction Htxs as [|tx txs Hfit Htxs IH]; intros t L; [done|].
  cbn [splice_all fmap list_fmap]. unfold splice_result at 1. destruct (Z.ltb_spec m (needed_len tx)).
  - rewrite splice_too_large by (by rewrite (tl_body_max _ _ _ _ _ _ _ L)).
    rewrite (tl_body_max _ _ _ _ _ _ _ L). cbn [mbind outcome_bind]. by rewrite (IH _ L).
  - destruct Hfit as (Hf&Hb&Hb'); [done|].
    destruct (splice_frame t w m h1 h2 b1 b2 tx) as (t'&Hs&L'); [done..|].
    rewrite Hs. cbn [mbind outcome_bind]. by rewrite (IH _ L').
Qed.
End frames.

(** C10: one compiled template serves any sequence of transactions. The template
    has its content-length placeholder before its one body placeholder. Each
    transaction that fits gives exactly its own request, with its own base64
    body and its own space-padded content length, whatever was spliced before
    it; each one that does not fit is refused with the sizes, and the
    transactions after it are not affected. *)
Theorem template_reuse `{BuildProfile} base64 spec cl h1 h2 b1 b2 txs :
  request_layout spec cl h1 h2 b1 b2 →
  Forall (λ tx, needed_len tx ≤ bp_max_len (es_body spec) →
            fits base64 (cls_width cl) (bp_max_len (es_body spec)) b1 b2 tx) txs →
  ∃ t, compile spec = Ret (Ok t) ∧
    splice_all base64 t txs
    = Ret (splice_result base64 (cls_width cl) (bp_max_len (es_body spec)) h1 h2 b1 b2 <$> txs).
Proof.
  intros L Htxs. destruct (compile_request spec cl h1 h2 b1 b2 L) as (t&Ht&Lt).
  exists t. split; [done|]. by apply splice_all_results.
Qed.

Definition sample_spec : EnvelopeSpec :=
  mkEnvelopeSpec (str "P" ++ str "########" ++ HEADER_SEP ++ str "{" ++ str "@" ++ str "}")
    (mkBodyPlaceholder (str "@") 8) (Some (mkContentLengthSpec (str "########") 8)).

(** An encoding with the length of base64, for the example. *)
Definition sample_base64 (tx : bytes) : bytes := replicate (Z.to_nat (needed_len tx)) x41.

Lemma template_reuse_witness :
  ∃ t, @compile true sample_spec = Ret (Ok t) ∧
    @splice_all true sample_base64 t [str "abc"; str "toolargetx"; str "ab"]
    = Ret [Ok (str "P6       " ++ HEADER_SEP ++ str "{AAAA}"); Err (BodyTooLarge 16 8);
           Ok (str "P6       " ++ HEADER_SEP ++ str "{AAAA}")].
Proof.
  apply (@template_reuse true sample_base64 sample_spec (mkContentLengthSpec (str "########") 8)
    (str "P") [] (str "{") (str "}") [str "abc"; str "toolargetx"; str "ab"]).
  - split; [reflexivity|reflexivity|compute_done|compute_done|reflexivity|compute_done..].
  - unfold fits. do 3 (apply Forall_cons; split; [compute_done|]). constructor.
Defined.

(** The placeholder search is right: it finds an offset exactly when the
    sentinel occurs there and nowhere else in the template. *)
Theorem find_unique_correct h needle i :
  find_unique h needle = Some i ↔
  occurs_at needle h i ∧ ∀ j, occurs_at needle h j → j = i.
Proof. apply find_unique_spec. Qed.
