(* ===== verification/SpecBuilder.v ===== *)
(** Building the request text of a provider: protocol/http/spec_builder.rs,
    and [build_envelope] of transport/connect.rs, which calls it. *)
From S2P Require Import Prelude Str Types Envelope.
From stdpp Require Import options.

Inductive AuthPlacement :=
| AuthNone
| AuthHeader (name value : bytes)
| AuthUrlParam (key value : bytes)
| AuthUrlPath (token : bytes).

Record EnvelopeSpecBuilder := mkEnvelopeSpecBuilder {
  sb_http_method : bytes;
  sb_base_path : bytes;
  sb_host : bytes;
  sb_extra_headers : list (bytes * bytes);
  sb_body_tpl : bytes;
  sb_max_body : Z;
  sb_auth : AuthPlacement;
}.

Definition DEFAULT_BODY : bytes :=
  json "{'jsonrpc':'2.0','id':1,'method':'sendTransaction','params':['<<BODY>>',{'encoding':'base64','skipPreflight':true,'maxRetries':0}]}".

Definition BODY_SENTINEL : bytes := str "<<BODY>>".
Definition CL_SENTINEL : bytes := str "<<CL>>      ".

(** * The builder *)

Definition builder_new (method path host : bytes) (max_body : Z) : EnvelopeSpecBuilder :=
  mkEnvelopeSpecBuilder method path host [] DEFAULT_BODY max_body AuthNone.

Definition send_transaction (path host : bytes) (max_body : Z) : EnvelopeSpecBuilder :=
  builder_new (str "POST") path host max_body.

Definition auth_placement (b : EnvelopeSpecBuilder) (a : AuthPlacement) : EnvelopeSpecBuilder :=
  mkEnvelopeSpecBuilder (sb_http_method b) (sb_base_path b) (sb_host b) (sb_extra_headers b)
    (sb_body_tpl b) (sb_max_body b) a.

Definition body_template (b : EnvelopeSpecBuilder) (tpl : bytes) : EnvelopeSpecBuilder :=
  mkEnvelopeSpecBuilder (sb_http_method b) (sb_base_path b) (sb_host b) (sb_extra_headers b)
    tpl (sb_max_body b) (sb_auth b).

Definition header (b : EnvelopeSpecBuilder) (name value : bytes) : EnvelopeSpecBuilder :=
  mkEnvelopeSpecBuilder (sb_http_method b) (sb_base_path b) (sb_host b)
    (sb_extra_headers b ++ [(name, value)]) (sb_body_tpl b) (sb_max_body b) (sb_auth b).

(** The path with the token of the two URL placements. *)
Definition build_path (b : EnvelopeSpecBuilder) : bytes :=
  match sb_auth b with
  | AuthUrlParam key value => sb_base_path b ++ str "?" ++ key ++ str "=" ++ value
  | AuthUrlPath token => trim_end_matches x2f (sb_base_path b) ++ str "/" ++ token
  | _ => sb_base_path b
  end.

(** One header line: the name, a colon and a space, the value, the line ending. *)
Definition write_header (wire : bytes) (kv : bytes * bytes) : bytes :=
  wire ++ kv.1 ++ str ": " ++ kv.2 ++ CRLF.

Definition build (b : EnvelopeSpecBuilder) : EnvelopeSpec :=
  let wire := sb_http_method b ++ str " " ++ build_path b ++ str " HTTP/1.1" ++ CRLF in
  let wire := wire ++ str "Host: " ++ sb_host b ++ CRLF in
  let wire := wire ++ str "Content-Type: application/json" ++ CRLF in
  let wire := match sb_auth b with
              | AuthHeader name value => write_header wire (name, value)
              | _ => wire
              end in
  let wire := foldl write_header wire (sb_extra_headers b) in
  let wire := wire ++ str "Content-Length: <<CL>>      " ++ CRLF in
  let wire := wire ++ CRLF in
  let wire := wire ++ sb_body_tpl b in
  mkEnvelopeSpec wire
    (mkBodyPlaceholder BODY_SENTINEL (sb_max_body b))
    (Some (mkContentLengthSpec CL_SENTINEL 12)).

(** [build_envelope] of transport/connect.rs. *)
Definition placement_of (a : HttpAuth) : AuthPlacement :=
  match a with
  | HttpAuth_None => AuthNone
  | HttpAuth_Header name value => AuthHeader name value
  | HttpAuth_UrlParam key value => AuthUrlParam key value
  | HttpAuth_UrlPath token => AuthUrlPath token
  end.

Definition envelope_builder (p : ProviderConfig) : EnvelopeSpecBuilder :=
  let b := auth_placement
             (builder_new (str "POST") (ep_path (pc_endpoint p))
                (ep_server_name (pc_endpoint p)) (pc_max_body p))
             (placement_of (pc_auth p)) in
  match pc_body_template p with
  | [] => b
  | tpl => body_template b tpl
  end.

Definition build_envelope (p : ProviderConfig) : EnvelopeSpec := build (envelope_builder p).

(** * The text it writes, line by line *)

(** The lines of the header before the content length. *)
Definition auth_lines (a : AuthPlacement) : list bytes :=
  match a with
  | AuthHeader name value => [name ++ str ": " ++ value]
  | _ => []
  end.

Definition header_lines (b : EnvelopeSpecBuilder) : list bytes :=
  [sb_http_method b ++ str " " ++ build_path b ++ str " HTTP/1.1";
   str "Host: " ++ sb_host b;
   str "Content-Type: application/json"]
  ++ auth_lines (sb_auth b)
  ++ ((λ kv, kv.1 ++ str ": " ++ kv.2) <$> sb_extra_headers b).

(** Lines with their endings. *)
Definition crlf_lines (ls : list bytes) : bytes := concat ((λ l, l ++ CRLF) <$> ls).

Lemma crlf_lines_app ls1 ls2 : crlf_lines (ls1 ++ ls2) = crlf_lines ls1 ++ crlf_lines ls2.
Proof. unfold crlf_lines. by rewrite fmap_app, concat_app. Qed.

Lemma crlf_lines_cons l ls : crlf_lines (l :: ls) = l ++ CRLF ++ crlf_lines ls.
Proof. unfold crlf_lines. cbn. by rewrite <- app_assoc. Qed.

Lemma foldl_write_header wire kvs :
  foldl write_header wire kvs
  = wire ++ crlf_lines ((λ kv, kv.1 ++ str ": " ++ kv.2) <$> kvs).
Proof.
  revert wire. induction kvs as [|kv kvs IH]; intros wire; [by rewrite app_nil_r|].
  cbn [foldl fmap list_fmap]. rewrite IH, crlf_lines_cons. unfold write_header.
  by rewrite <- !app_assoc.
Qed.

(** The header up to the content-length placeholder. *)
Definition CL_NAME : bytes := str "Content-Length: ".
Definition header_text (b : EnvelopeSpecBuilder) : bytes :=
  crlf_lines (header_lines b) ++ CL_NAME.

Lemma zlen_CRLF : zlen CRLF = 2.
Proof. done. Qed.
Lemma zlen_CL_NAME : zlen CL_NAME = 16.
Proof. done. Qed.
Lemma zlen_CL_SENTINEL : zlen CL_SENTINEL = 12.
Proof. done. Qed.
Lemma zlen_BODY_SENTINEL : zlen BODY_SENTINEL = 8.
Proof. done. Qed.
#[export] Hint Rewrite zlen_CRLF zlen_CL_NAME zlen_CL_SENTINEL zlen_BODY_SENTINEL : len.

Lemma build_bytes b :
  es_bytes (build b) = header_text b ++ CL_SENTINEL ++ [] ++ HEADER_SEP ++ sb_body_tpl b.
Proof.
  unfold build, es_bytes. rewrite foldl_write_header.
  change (str "Content-Length: <<CL>>      ") with (CL_NAME ++ CL_SENTINEL).
  unfold header_text, header_lines, HEADER_SEP.
  rewrite !crlf_lines_app, !crlf_lines_cons.
  destruct (sb_auth b); unfold write_header, auth_lines;
    rewrite ?crlf_lines_cons, <- !app_assoc; cbn [app fst snd crlf_lines concat fmap list_fmap];
    rewrite <- ?app_assoc, ?app_nil_l; done.
Qed.

(** * Clean text: no placeholder and no line ending can start in it *)

Definition clean_byte (c : byte) : bool :=
  negb (Byte.eqb c x3c || Byte.eqb c CR || Byte.eqb c LF).
Definition is_clean (l : bytes) : bool := forallb clean_byte l.

Lemma is_clean_app a b : is_clean (a ++ b) = is_clean a && is_clean b.
Proof. apply forallb_app. Qed.

Lemma is_clean_not_elem c l : clean_byte c = false → is_clean l = true → c ∉ l.
Proof.
  intros Hc Hl Hin. unfold is_clean in Hl. rewrite forallb_forall in Hl.
  apply list_elem_of_In, Hl in Hin. congruence.
Qed.

Lemma is_clean_no l : is_clean l = true → (x3c ∉ l) ∧ (CR ∉ l) ∧ (LF ∉ l).
Proof. intros Hl. split_and!; by eapply is_clean_not_elem. Qed.

Lemma is_clean_trim c l : is_clean l = true → is_clean (trim_end_matches c l) = true.
Proof.
  unfold trim_end_matches, is_clean. rewrite !forallb_forall.
  intros Hl x Hx. apply Hl. rewrite <- list_elem_of_In in Hx |- *.
  rewrite elem_of_reverse in Hx. rewrite <- elem_of_reverse.
  revert Hx. generalize (reverse l). clear.
  induction l as [|y l IH]; simpl; [done|].
  destruct (Byte.eqb y c); [|done]. rewrite elem_of_cons. auto.
Qed.

(** What the configuration of a provider must look like for its header to be
    clean: no [<] and no line ending in the fields that go into it. *)
Definition clean_auth (a : AuthPlacement) : bool :=
  match a with
  | AuthNone => true
  | AuthHeader name value => is_clean name && is_clean value
  | AuthUrlParam key value => is_clean key && is_clean value
  | AuthUrlPath token => is_clean token
  end.
Definition clean_builder (b : EnvelopeSpecBuilder) : bool :=
  is_clean (sb_http_method b) && is_clean (sb_base_path b) && is_clean (sb_host b)
  && forallb (λ kv, is_clean kv.1 && is_clean kv.2) (sb_extra_headers b)
  && clean_auth (sb_auth b).

Lemma clean_build_path b :
  is_clean (sb_base_path b) = true → clean_auth (sb_auth b) = true →
  is_clean (build_path b) = true.
Proof.
  intros Hp Ha. unfold build_path. destruct (sb_auth b); cbn in Ha; try done.
  - apply andb_true_iff in Ha as [Hk Hv]. by rewrite !is_clean_app, Hp, Hk, Hv.
  - rewrite !is_clean_app, is_clean_trim, Ha by done. done.
Qed.

Lemma clean_header_lines b :
  clean_builder b = true → Forall (λ l, is_clean l = true ∧ l ≠ []) (header_lines b).
Proof.
  unfold clean_builder. rewrite !andb_true_iff, forallb_forall.
  intros ((((Hm&Hp)&Hh)&Hx)&Ha). unfold header_lines. rewrite !Forall_app. split_and!.
  - repeat constructor; rewrite ?is_clean_app, ?clean_build_path, ?Hm, ?Hh; try done.
    by destruct (sb_http_method b).
  - destruct (sb_auth b); cbn [auth_lines]; constructor; [|done].
    cbn in Ha. apply andb_true_iff in Ha as [Hn Hv].
    rewrite !is_clean_app, Hn, Hv. split; [done|]. by destruct name.
  - apply Forall_fmap, Forall_forall. intros [k v] Hin%list_elem_of_In.
    apply Hx, andb_true_iff in Hin as [Hk Hv]. cbn [fst snd] in Hk, Hv |- *. unfold compose. cbn [fst snd].
    rewrite !is_clean_app, Hk, Hv. split; [done|]. by destruct k.
Qed.

(** * Where the blank line and the placeholders are *)

Lemma find_sep_line l s :
  CR ∉ l → starts_with [CR] s = false →
  find_sub HEADER_SEP (l ++ CRLF ++ s) = (λ n, length l + 2 + n)%nat <$> find_sub HEADER_SEP s.
Proof.
  intros Hl Hs. unfold HEADER_SEP at 1. cbn [app CRLF].
  rewrite find_sub_skip by done.
  change (CR :: LF :: CRLF) with HEADER_SEP.
  assert (find_sub HEADER_SEP (CR :: LF :: s) = (λ n, 2 + n)%nat <$> find_sub HEADER_SEP s) as ->.
  { cbn [find_sub]. change (starts_with HEADER_SEP (CR :: LF :: s)) with (starts_with CRLF s).
    assert (starts_with CRLF s = false) as ->.
    { destruct s as [|b s]; [done|]. cbn [starts_with CRLF] in Hs |- *. by destruct (Byte.eqb CR b). }
    change (starts_with HEADER_SEP (LF :: s)) with false. by destruct (find_sub HEADER_SEP s). }
  destruct (find_sub HEADER_SEP s); cbn; [|done]. f_equal. lia.
Qed.

Lemma find_sep_lines ls s :
  Forall (λ l, is_clean l = true ∧ l ≠ []) ls → starts_with [CR] s = false →
  find_sub HEADER_SEP (crlf_lines ls ++ s)
  = Nat.add (length (crlf_lines ls)) <$> find_sub HEADER_SEP s.
Proof.
  intros Hls Hs. induction Hls as [|l ls [Hl Hne] Hls IH].
  { change (crlf_lines []) with (@nil byte). cbn [app length].
    by destruct (find_sub HEADER_SEP s). }
  rewrite crlf_lines_cons, <- !app_assoc, find_sep_line.
  - rewrite IH. destruct (find_sub HEADER_SEP s); cbn; [|done].
    rewrite !length_app. cbn. f_equal. lia.
  - by apply is_clean_no in Hl as (_&?&_).
  - destruct ls as [|l' ls]; [done|]. apply Forall_cons in Hls as [[Hl' Hne'] _].
    rewrite crlf_lines_cons. destruct l' as [|c l']; [done|]. cbn [app starts_with].
    apply is_clean_no in Hl' as (_&Hcr&_). apply not_elem_of_cons in Hcr as [Hc _].
    by rewrite byte_eqb_ne.
Qed.

Lemma clean_crlf_lines ls :
  Forall (λ l, is_clean l = true ∧ l ≠ []) ls → x3c ∉ crlf_lines ls.
Proof.
  induction 1 as [|l ls [Hl _] Hls IH]; [by intros ?%elem_of_nil|].
  rewrite crlf_lines_cons, !not_elem_of_app. apply is_clean_no in Hl as (?&_).
  split_and!; [done| |done]. set_solver.
Qed.

(** One byte of the haystack that starts no occurrence, or the only one. *)
Lemma find_unique_miss needle x l :
  starts_with needle (x :: l) = false → find_unique (x :: l) needle = S <$> find_unique l needle.
Proof.
  intros Hx. assert (¬ occurs_at needle (x :: l) 0) as Hx' by (rewrite occurs_at_O; congruence).
  apply option_eq. intros i. rewrite fmap_Some, find_unique_spec.
  setoid_rewrite find_unique_spec. split.
  - intros [Hi Hu]. destruct i as [|i]; [done|]. rewrite occurs_at_S in Hi.
    exists i. split_and!; [done| |done]. intros j Hj.
    assert (S j = S i) by (apply Hu; by rewrite occurs_at_S). lia.
  - intros (k&[Hk Hu]&->). rewrite occurs_at_S. split; [done|].
    intros [|j] Hj; [done|]. rewrite occurs_at_S in Hj. f_equal. auto.
Qed.

Lemma find_unique_hit needle x l :
  starts_with needle (x :: l) = true → find_sub needle l = None →
  find_unique (x :: l) needle = Some O.
Proof.
  intros Hx Hl. apply find_unique_spec. rewrite occurs_at_O. split; [done|].
  intros [|j] Hj; [done|]. rewrite occurs_at_S in Hj.
  rewrite find_sub_None in Hl. by destruct (Hl j).
Qed.

(** Text without [<] holds no placeholder. *)
Lemma find_unique_no_lt n a l :
  head n = Some x3c → x3c ∉ a → find_unique (a ++ l) n = Nat.add (length a) <$> find_unique l n.
Proof. destruct n as [|c n]; [done|]. intros [= ->]. apply find_unique_skip. Qed.

Lemma find_sub_no_lt n a l :
  head n = Some x3c → x3c ∉ a → find_sub n (a ++ l) = Nat.add (length a) <$> find_sub n l.
Proof. destruct n as [|c n]; [done|]. intros [= ->]. apply find_sub_skip. Qed.

(** The text between the two placeholders. *)
Definition gap : bytes := str "CL>>      " ++ HEADER_SEP.

Lemma gap_clean : x3c ∉ gap.
Proof. compute_done. Qed.

Lemma after_header b :
  CL_SENTINEL ++ [] ++ HEADER_SEP ++ sb_body_tpl b = x3c :: x3c :: gap ++ sb_body_tpl b.
Proof. reflexivity. Qed.

Lemma header_text_clean b : clean_builder b = true → x3c ∉ header_text b.
Proof.
  intros Hc%clean_header_lines. unfold header_text. rewrite not_elem_of_app.
  split; [by apply clean_crlf_lines | compute_done].
Qed.

(** The placeholders of the whole text are those of the body template. *)
Lemma body_found b :
  clean_builder b = true →
  find_unique (es_bytes (build b)) BODY_SENTINEL
  = (λ k, length (header_text b) + S (S (length gap + k)))%nat
      <$> find_unique (sb_body_tpl b) BODY_SENTINEL.
Proof.
  intros Hc%header_text_clean. pose proof gap_clean. rewrite build_bytes.
  rewrite find_unique_no_lt, after_header, !find_unique_miss, find_unique_no_lt by done.
  by destruct (find_unique (sb_body_tpl b) BODY_SENTINEL).
Qed.

Lemma cl_found b :
  clean_builder b = true →
  find_unique (es_bytes (build b)) CL_SENTINEL
  = match find_sub CL_SENTINEL (sb_body_tpl b) with
    | None => Some (length (header_text b))
    | Some _ => None
    end.
Proof.
  intros Hc%header_text_clean. pose proof gap_clean. rewrite build_bytes.
  rewrite find_unique_no_lt, after_header by done.
  destruct (find_sub CL_SENTINEL (sb_body_tpl b)) as [k|] eqn:E.
  - destruct (find_unique _ CL_SENTINEL) as [i|] eqn:Ei; [exfalso|done].
    apply find_unique_spec in Ei as [_ Hu]. apply find_sub_Some in E as [Hk _].
    assert (O = i) as <- by (apply Hu; by apply occurs_at_O).
    cut (S (S (length gap + k)) = O); [lia|]. apply Hu. rewrite !occurs_at_S.
    destruct Hk as (p&q&Hpq&<-). exists (gap ++ p), q. rewrite Hpq, <- app_assoc. by rewrite length_app.
  - rewrite find_unique_hit; [cbn; by rewrite Nat.add_0_r|done|].
    rewrite find_sub_miss by done. rewrite find_sub_no_lt by done. by rewrite E.
Qed.

(** The builder's text has the layout of a request. *)
Lemma build_layout b b1 b2 :
  clean_builder b = true →
  sb_body_tpl b = b1 ++ BODY_SENTINEL ++ b2 →
  is_Some (find_unique (sb_body_tpl b) BODY_SENTINEL) →
  find_sub CL_SENTINEL (sb_body_tpl b) = None →
  8 ≤ sb_max_body b → zlen (es_bytes (build b)) + sb_max_body b < U32 →
  request_layout (build b) (mkContentLengthSpec CL_SENTINEL 12) (header_text b) [] b1 b2.
Proof.
  intros Hc Htpl Hbody Hcl Hmax Hsize. pose proof (clean_header_lines _ Hc) as Hlines. split.
  - done.
  - rewrite build_bytes, Htpl. done.
  - change (bp_sentinel (es_body (build b))) with BODY_SENTINEL. rewrite body_found by done.
    by apply fmap_is_Some.
  - cbn [cls_sentinel]. rewrite cl_found, Hcl by done. by eexists.
  - cbn [cls_sentinel]. rewrite app_nil_l, app_nil_r.
    unfold header_text. rewrite <- !app_assoc, find_sep_lines by done.
    change (CL_NAME ++ CL_SENTINEL ++ HEADER_SEP) with ((CL_NAME ++ CL_SENTINEL) ++ HEADER_SEP).
    unfold HEADER_SEP at 1. cbn [app CRLF].
    rewrite find_sub_skip by compute_done.
    rewrite <- (app_nil_r HEADER_SEP) at 1. rewrite find_sub_here. cbn [fmap option_fmap option_map].
    by rewrite Nat.add_0_r, <- length_app.
  - cbn. split; [done | lia].
  - done.
  - done.
Qed.

(** * Every builder is served or refused *)

Lemma compile_no_body `{BuildProfile} b :
  8 ≤ sb_max_body b → clean_builder b = true →
  find_unique (sb_body_tpl b) BODY_SENTINEL = None ∨ is_Some (find_sub CL_SENTINEL (sb_body_tpl b)) →
  compile (build b) = Ret (Err BodySentinelMissing).
Proof.
  intros Hm Hc Hno. unfold compile. change (bp_sentinel (es_body (build b))) with BODY_SENTINEL.
  change (bp_max_len (es_body (build b))) with (sb_max_body b).
  rewrite (proj2 (Z.ltb_ge _ _)) by done. rewrite body_found by done.
  destruct (find_unique (sb_body_tpl b) BODY_SENTINEL); [|done]. cbn [fmap option_fmap option_map].
  destruct Hno as [|[k Hk]]; [done|]. unfold compile_cl.
  change (es_content_length (build b)) with (Some (mkContentLengthSpec CL_SENTINEL 12)).
  cbn [cls_sentinel]. by rewrite cl_found, Hk.
Qed.

Lemma compile_Ok_template `{BuildProfile} b t :
  clean_builder b = true → compile (build b) = Ret (Ok t) →
  ∃ k, 8 ≤ sb_max_body b ∧ find_unique (sb_body_tpl b) BODY_SENTINEL = Some k ∧
    find_sub CL_SENTINEL (sb_body_tpl b) = None.
Proof.
  intros Hc Ht. destruct (Z.ltb_spec (sb_max_body b) 8) as [Hm|Hm].
  { unfold compile in Ht. change (zlen (bp_sentinel (es_body (build b)))) with 8 in Ht.
    change (bp_max_len (es_body (build b))) with (sb_max_body b) in Ht.
    by rewrite (proj2 (Z.ltb_lt _ _)) in Ht. }
  destruct (find_unique (sb_body_tpl b) BODY_SENTINEL) as [k|] eqn:Ek;
    [destruct (find_sub CL_SENTINEL (sb_body_tpl b)) as [j|] eqn:Ej|].
  - rewrite compile_no_body in Ht by eauto. discriminate.
  - by exists k.
  - rewrite compile_no_body in Ht by eauto. discriminate.
Qed.

(** Compiling has no loop to run out of fuel. *)
Lemma compile_cl_fuel spec : compile_cl spec ≠ OutOfFuel.
Proof.
  unfold compile_cl. destruct (es_content_length spec); [|done]. case_match; [|done].
  unfold u32_expect. by case_match.
Qed.
Lemma compile_pad_fuel `{BuildProfile} spec off cl : compile_pad spec off cl ≠ OutOfFuel.
Proof.
  unfold compile_pad, slice_to, slice_from, slice, u32_expect, shift_cl, add_mod.
  repeat (case_match; cbn; try done).
Qed.

(** A maximum that does not fit in 32 bits. *)
Lemma compile_too_wide `{BuildProfile} b :
  clean_builder b = true → is_Some (find_unique (sb_body_tpl b) BODY_SENTINEL) →
  find_sub CL_SENTINEL (sb_body_tpl b) = None → U32 ≤ sb_max_body b →
  compile (build b) = Panic.
Proof.
  intros Hc [k Hk] Hcl Hm. unfold compile. change (bp_sentinel (es_body (build b))) with BODY_SENTINEL.
  change (bp_max_len (es_body (build b))) with (sb_max_body b).
  rewrite (proj2 (Z.ltb_ge _ _)) by (change (zlen BODY_SENTINEL) with 8; unfold U32 in Hm; lia).
  rewrite body_found, Hk by done. cbn [fmap option_fmap option_map].
  generalize (Z.of_nat (length (header_text b) + S (S (length gap + k)))) as off. intros off.
  destruct (compile_cl (build b)) as [[[cl_off w]|e]| |] eqn:Ecl; unfold try_; cbn [mbind outcome_bind]; try done.
  - cbn [fst snd]. destruct (compile_pad (build b) off cl_off) as [[buf cl']| |] eqn:Ep; cbn [mbind outcome_bind].
    + rewrite (u32_expect_big (sb_max_body b) Hm). reflexivity.
    + done.
    + by apply compile_pad_fuel in Ep.
  - unfold compile_cl in Ecl. change (es_content_length (build b))
      with (Some (mkContentLengthSpec CL_SENTINEL 12)) in Ecl. cbn [cls_sentinel] in Ecl.
    rewrite cl_found, Hcl in Ecl by done. cbn in Ecl. unfold u32_expect in Ecl. by case_match.
  - by apply compile_cl_fuel in Ecl.
Qed.

(** The envelope of a template with one body placeholder. *)
Lemma envelope_serves `{BuildProfile} base64 b k :
  (∀ tx, zlen (base64 tx) = needed_len tx) → clean_builder b = true → 8 ≤ sb_max_body b →
  find_unique (sb_body_tpl b) BODY_SENTINEL = Some k → find_sub CL_SENTINEL (sb_body_tpl b) = None →
  zlen (es_bytes (build b)) + sb_max_body b < U32 →
  let b1 := take k (sb_body_tpl b) in
  let b2 := drop (k + 8) (sb_body_tpl b) in
  sb_body_tpl b = b1 ++ BODY_SENTINEL ++ b2 ∧
  ∃ t, compile (build b) = Ret (Ok t) ∧ ∀ txs,
    splice_all base64 t txs
    = Ret (splice_result base64 12 (sb_max_body b) (header_text b) [] b1 b2 <$> txs).
Proof.
  intros Hb64 Hc Hm Ek Ej Hsz b1 b2.
  apply find_unique_spec in Ek as Hk. destruct Hk as [(p&q&Hpq&Hk) _].
  assert (b1 = p ∧ b2 = q) as [-> ->].
  { unfold b1, b2. rewrite Hpq, <- Hk, take_app_length. split; [done|].
    rewrite app_assoc, drop_app_length'; [done|]. by rewrite length_app. }
  split; [done|].
  assert (request_layout (build b) (mkContentLengthSpec CL_SENTINEL 12) (header_text b) [] p q) as L.
  { apply build_layout; [done|done|by rewrite Ek|done|done|lia]. }
  destruct (compile_request _ _ _ _ _ _ L) as (t&Ht&Lt). exists t. split; [done|]. intros txs.
  apply (splice_all_results base64 t 12 (sb_max_body b)); [done|]. apply Forall_true. intros tx Hn.
  pose proof (Hb64 tx) as Hb. rewrite build_bytes, Hpq in Hsz.
  unfold fits, body_of. unfold U32, U64 in *. split_and!; len.
Qed.

(** C11: every builder is served or refused. The method, the path, the host, the
    headers and the authorization hold no [<] and no line ending; the body
    template is any. A maximum shorter than the placeholder, a template without
    exactly one body placeholder and a template with a second content-length
    placeholder are refused with their error, whatever their sizes. For every
    other template, as long as the unfilled request and the maximum together
    stay below 2^32, the envelope compiles, and each transaction is then either
    spliced into a request of the right shape or refused with its size, in any
    order and without a panic; a maximum of 2^32 or more makes compiling it
    panic. *)
Theorem envelope_total `{BuildProfile} base64 b :
  (∀ tx, zlen (base64 tx) = needed_len tx) → clean_builder b = true →
  if sb_max_body b <? 8 then compile (build b) = Ret (Err (BodyMaxTooSmall (sb_max_body b) 8))
  else
    match find_unique (sb_body_tpl b) BODY_SENTINEL, find_sub CL_SENTINEL (sb_body_tpl b) with
    | Some k, None =>
        let b1 := take k (sb_body_tpl b) in
        let b2 := drop (k + 8) (sb_body_tpl b) in
        (zlen (es_bytes (build b)) + sb_max_body b < U32 →
         ∃ t, compile (build b) = Ret (Ok t) ∧ ∀ txs,
           splice_all base64 t txs
           = Ret (splice_result base64 12 (sb_max_body b) (header_text b) [] b1 b2 <$> txs)) ∧
        (U32 ≤ sb_max_body b → compile (build b) = Panic)
    | _, _ => compile (build b) = Ret (Err BodySentinelMissing)
    end.
Proof.
  intros Hb64 Hc. destruct (Z.ltb_spec (sb_max_body b) 8) as [Hm|Hm].
  { unfold compile. change (zlen (bp_sentinel (es_body (build b)))) with 8.
    change (bp_max_len (es_body (build b))) with (sb_max_body b). by rewrite (proj2 (Z.ltb_lt _ _)). }
  destruct (find_unique (sb_body_tpl b) BODY_SENTINEL) as [k|] eqn:Ek;
    [destruct (find_sub CL_SENTINEL (sb_body_tpl b)) as [j|] eqn:Ej|];
    [apply compile_no_body; [done|done|by eauto]| |apply compile_no_body; [done|done|by eauto]].
  intros b1 b2. split; [|by apply compile_too_wide]. intros Hsz. by apply envelope_serves.
Qed.

Lemma sample_base64_length tx : zlen (sample_base64 tx) = needed_len tx.
Proof.
  unfold sample_base64, zlen. rewrite length_replicate, Z2Nat.id; [done|].
  unfold needed_len. pose proof (zlen_nonneg tx). apply Z.mul_nonneg_nonneg; [|lia].
  apply Z.div_pos; lia.
Qed.

Lemma envelope_total_witness :
  let b := auth_placement (send_transaction (str "/") (str "h") 16) (AuthHeader (str "k") (str "v")) in
  ∃ t, @compile true (build b) = Ret (Ok t) ∧
    @splice_all true sample_base64 t [str "abc"; str "a longer transaction"]
    = Ret [Ok (request_frame 12 (header_text b) []
             (body_of sample_base64 (take 62 DEFAULT_BODY) (drop 70 DEFAULT_BODY) (str "abc")));
           Err (BodyTooLarge 28 16)].
Proof.
  intros b. destruct (@envelope_total true sample_base64 b) as [Hok _];
    [exact sample_base64_length|reflexivity|].
  destruct Hok as (t&Ht&Hs).
  - compute_done.
  - exists t. split; [exact Ht|]. exact (Hs [str "abc"; str "a longer transaction"]).
Defined.
