(* ===== verification/Http.v ===== *)
(** The HTTP engine, protocol/http/engine.rs: requests out through TLS, and
    the search for one complete response in what TLS has delivered. *)
From S2P Require Import Prelude Str Types Envelope.
From stdpp Require Import options.

Definition MAX_RESPONSE : Z := 64 * 1024.

(** * rustls *)

(** The operations of [rustls::ClientConnection] the engine calls, over the
    connection's state [T]. [write_tls] into a vector gives the bytes it
    appends; [read_tls] from a slice gives how many bytes it took. *)
Class Tls (T : Type) := {
  server_name_try_from : bytes → result bytes bytes;
  client_connection_new : bytes → result T bytes;
  is_handshaking : T → bool;
  wants_write : T → bool;
  write_tls : T → result bytes io_error * T;
  writer_write_all : T → bytes → result unit io_error * T;
  read_tls : T → bytes → result nat io_error * T;
  process_new_packets : T → result unit bytes * T;
  reader_read : T → nat → result bytes io_error * T;
}.

(** * The engine *)

Record HttpEngine (T : Type) := mkHttpEngine {
  eng_tls : T;
  eng_envelope : EnvelopeTemplate;
  eng_rx_plain : bytes;
  eng_ciphertext : bytes;
}.
Arguments mkHttpEngine {T}.
Arguments eng_tls {T}.
Arguments eng_envelope {T}.
Arguments eng_rx_plain {T}.
Arguments eng_ciphertext {T}.

Fixpoint find_map {A B} (f : A → option B) (l : list A) : option B :=
  match l with
  | [] => None
  | x :: l' => match f x with Some y => Some y | None => find_map f l' end
  end.

Definition CL_PREFIX : bytes := str "content-length:".

(** The closure of [body_if_complete]: the trimmed value of a content-length
    line. *)
Definition cl_value (l : bytes) : option bytes :=
  if (length CL_PREFIX <=? length l)%nat
     && eq_ignore_ascii_case (take (length CL_PREFIX) l) CL_PREFIX
  then Some (trim (drop (length CL_PREFIX) l))
  else None.

Section engine.
Context `{BuildProfile}.

Definition body_if_complete (acc : bytes) : outcome (option bytes) :=
  match find_sub HEADER_SEP acc with
  | None => Ret None
  | Some sep =>
      let header_end := Z.of_nat sep + 4 in
      head ← slice_to header_end acc;
      match from_utf8 head with
      | None => Ret None
      | Some headers =>
          match find_map cl_value (lines headers) with
          | None => Ret None
          | Some cl =>
              match parse_usize cl with
              | None => Ret None
              | Some len =>
                  body_end ← add_mod U64 header_end len;
                  if body_end <=? zlen acc
                  then Some <$> slice header_end body_end acc
                  else Ret None
              end
          end
      end
  end.

Context `{Tls T} (base64 : bytes → bytes).

Definition engine_new (server_name : bytes) (envelope : EnvelopeTemplate) :
    result (HttpEngine T) TransportError :=
  match server_name_try_from server_name with
  | Err e => Err (TTls e)
  | Ok name =>
      match client_connection_new name with
      | Err e => Err (TTls e)
      | Ok tls => Ok (mkHttpEngine tls envelope [] [])
      end
  end.

(** [while wants_write() { let _ = write_tls(&mut out); }]. *)
Fixpoint handshake_loop (fuel : nat) (t : T) (out : bytes) : outcome (bytes * T) :=
  match fuel with
  | O => OutOfFuel
  | S f =>
      if wants_write t then
        let '(r, t') := write_tls t in
        handshake_loop f t' (out ++ match r with Ok b => b | Err _ => [] end)
      else Ret (out, t)
  end.

Definition handshake_ciphertext (fuel : nat) (e : HttpEngine T) :
    outcome (bytes * HttpEngine T) :=
  '(out, t) ← handshake_loop fuel (eng_tls e) [];
  Ret (out, mkHttpEngine t (eng_envelope e) (eng_rx_plain e) (eng_ciphertext e)).

Definition engine_is_handshaking (e : HttpEngine T) : bool := is_handshaking (eng_tls e).

(** [while wants_write() { write_tls(&mut ciphertext)?; }]. *)
Fixpoint encode_loop (fuel : nat) (t : T) (out : bytes) :
    outcome (result unit TransportError * T * bytes) :=
  match fuel with
  | O => OutOfFuel
  | S f =>
      if wants_write t then
        match write_tls t with
        | (Ok b, t') => encode_loop f t' (out ++ b)
        | (Err e, t') => Ret (Err (TIo e), t', out)
        end
      else Ret (Ok (), t, out)
  end.

(** [encode]: the ciphertext to send is left in the engine's buffer. *)
Definition encode (fuel : nat) (e : HttpEngine T) (tx : bytes) :
    outcome (result bytes TransportError * HttpEngine T) :=
  '(r, env) ← splice base64 (eng_envelope e) tx;
  match r with
  | Err err => Ret (Err (TEnvelope err), mkHttpEngine (eng_tls e) env (eng_rx_plain e) (eng_ciphertext e))
  | Ok frame =>
      match writer_write_all (eng_tls e) frame with
      | (Err err, t) => Ret (Err (TIo err), mkHttpEngine t env (eng_rx_plain e) (eng_ciphertext e))
      | (Ok _, t) =>
          '(r, t', out) ← encode_loop fuel t [];
          let e' := mkHttpEngine t' env (eng_rx_plain e) out in
          match r with
          | Err err => Ret (Err err, e')
          | Ok _ => Ret (Ok out, e')
          end
      end
  end.

(** The loop that hands the ciphertext to TLS. *)
Fixpoint feed_loop (fuel : nat) (t : T) (cipher : bytes) :
    outcome (result unit TransportError * T) :=
  match cipher with
  | [] => Ret (Ok (), t)
  | _ =>
      match fuel with
      | O => OutOfFuel
      | S f =>
          match read_tls t cipher with
          | (Err e, t') => Ret (Err (TIo e), t')
          | (Ok O, t') => Ret (Ok (), t')
          | (Ok n, t') =>
              match process_new_packets t' with
              | (Err e, t'') => Ret (Err (TTls e), t'')
              | (Ok _, t'') => feed_loop f t'' (drop n cipher)
              end
          end
      end
  end.

(** The loop that reads the plaintext, 2048 bytes at a time. *)
Fixpoint read_loop (fuel : nat) (t : T) (plain : bytes) :
    outcome (result unit TransportError * T * bytes) :=
  match fuel with
  | O => OutOfFuel
  | S f =>
      match reader_read t 2048 with
      | (Ok [], t') => Ret (Ok (), t', plain)
      | (Ok b, t') => read_loop f t' (plain ++ b)
      | (Err e, t') =>
          if bool_decide (kind e = WouldBlock) then Ret (Ok (), t', plain)
          else Ret (Err (TIo e), t', plain)
      end
  end.

(** The end of [ingest]: a complete body is taken and the buffer cleared. *)
Definition take_body (e : HttpEngine T) :
    outcome (result (option bytes) TransportError * HttpEngine T) :=
  b ← body_if_complete (eng_rx_plain e);
  match b with
  | Some body => Ret (Ok (Some body), mkHttpEngine (eng_tls e) (eng_envelope e) [] (eng_ciphertext e))
  | None =>
      if MAX_RESPONSE <? zlen (eng_rx_plain e)
      then Ret (Err (TTls (str "response exceeds maximum size")), e)
      else Ret (Ok None, e)
  end.

Definition ingest (fuel : nat) (e : HttpEngine T) (cipher : bytes) :
    outcome (result (option bytes) TransportError * HttpEngine T) :=
  match cipher with
  | [] => take_body e
  | _ =>
      '(r, t) ← feed_loop fuel (eng_tls e) cipher;
      match r with
      | Err err => Ret (Err err, mkHttpEngine t (eng_envelope e) (eng_rx_plain e) (eng_ciphertext e))
      | Ok _ =>
          '(r, t', plain) ← read_loop fuel t (eng_rx_plain e);
          let e' := mkHttpEngine t' (eng_envelope e) plain (eng_ciphertext e) in
          match r with
          | Err err => Ret (Err err, e')
          | Ok _ => take_body e'
          end
      end
  end.
End engine.

(** * Responses *)

(** [hdr] is the text before the blank line of a message with a body of [n]
    bytes: no blank line in it, UTF-8, and [n] in its first content-length
    line. *)
Record message_header (hdr : bytes) (n : Z) : Prop := {
  mh_sep : find_sub HEADER_SEP (hdr ++ HEADER_SEP) = Some (length hdr);
  mh_utf8 : utf8_valid (hdr ++ HEADER_SEP) = true;
  mh_cl : find_map cl_value (lines (hdr ++ HEADER_SEP)) ≫= parse_usize = Some n;
  mh_size : 0 ≤ n ∧ zlen hdr + 4 + n < U64;
}.

Section responses.
Context `{BuildProfile}.

(** On a text that starts with such a header, the body is complete exactly
    when the announced bytes have arrived. *)
Lemma body_if_complete_header hdr n rest :
  message_header hdr n →
  body_if_complete (hdr ++ HEADER_SEP ++ rest)
  = Ret (if n <=? zlen rest then Some (take (Z.to_nat n) rest) else None).
Proof.
  intros [Hsep Hutf Hcl [Hn Hsize]]. unfold body_if_complete.
  rewrite app_assoc, (find_sub_grow _ _ _ _ Hsep).
  fold (zlen hdr). rewrite <- zlen_HEADER_SEP, <- zlen_app, slice_to_app.
  cbn [mbind outcome_bind]. unfold from_utf8. rewrite Hutf.
  destruct (find_map cl_value _) as [v|]; [|done]. cbn in Hcl. rewrite Hcl.
  rewrite add_mod_ok by len. cbn [mbind outcome_bind].
  destruct (n <=? zlen rest) eqn:E; ztests.
  - rewrite (proj2 (Z.leb_le _ _)) by len.
    rewrite <- (take_drop (Z.to_nat n) rest) at 1.
    assert (zlen (take (Z.to_nat n) rest) = n) as Ht
      by (unfold zlen in *; rewrite length_take; lia).
    rewrite <- Ht at 1. by rewrite slice_mid.
  - by rewrite (proj2 (Z.leb_gt _ _)) by len.
Qed.

(** As long as bytes of a message are missing there is no body. *)
Lemma body_if_complete_partial hdr body n :
  message_header hdr (zlen body) →
  (n < length (hdr ++ HEADER_SEP ++ body))%nat →
  body_if_complete (take n (hdr ++ HEADER_SEP ++ body)) = Ret None.
Proof.
  intros Hh Hn. rewrite app_assoc in Hn |- *.
  destruct (decide (n < length (hdr ++ HEADER_SEP))%nat) as [Hlt|Hge].
  - rewrite take_app_le by lia. unfold body_if_complete.
    rewrite (find_sub_short _ _ _ _ (mh_sep _ _ Hh)); [done|].
    by rewrite length_app in Hlt.
  - rewrite take_app_ge, <- app_assoc by lia. rewrite (body_if_complete_header _ _ _ Hh).
    rewrite (proj2 (Z.leb_gt _ _)); [done|].
    rewrite length_app in Hn. unfold zlen. rewrite length_take. lia.
Qed.

Lemma body_if_complete_whole hdr body rest :
  message_header hdr (zlen body) →
  body_if_complete (hdr ++ HEADER_SEP ++ body ++ rest) = Ret (Some body).
Proof.
  intros Hh. rewrite (body_if_complete_header _ _ _ Hh).
  rewrite (proj2 (Z.leb_le _ _)) by len. by rewrite to_nat_zlen, take_app_length.
Qed.

(** A header whose content length makes the end of the body leave the range
    of [usize]: whatever the build profile, the parser panics. *)
Lemma body_if_complete_overflow hdr rest n :
  find_sub HEADER_SEP (hdr ++ HEADER_SEP) = Some (length hdr) →
  utf8_valid (hdr ++ HEADER_SEP) = true →
  find_map cl_value (lines (hdr ++ HEADER_SEP)) ≫= parse_usize = Some n →
  n < U64 → U64 ≤ zlen hdr + 4 + n →
  body_if_complete (hdr ++ HEADER_SEP ++ rest) = Panic.
Proof.
  intros Hsep Hutf Hcl Hn Hov. unfold body_if_complete.
  rewrite app_assoc, (find_sub_grow _ _ _ _ Hsep).
  fold (zlen hdr). rewrite <- zlen_HEADER_SEP, <- zlen_app, slice_to_app.
  cbn [mbind outcome_bind]. unfold from_utf8. rewrite Hutf.
  destruct (find_map cl_value _) as [v|]; [|done]. cbn in Hcl. rewrite Hcl.
  unfold add_mod. rewrite (proj2 (Z.ltb_ge _ _)) by len.
  destruct overflow_checks; [done|]. cbn [mbind outcome_bind].
  destruct (decide (zlen (hdr ++ HEADER_SEP) < U64)) as [Hs|Hs].
  - assert ((zlen (hdr ++ HEADER_SEP) + n) mod U64 = zlen (hdr ++ HEADER_SEP) + n - U64) as ->.
    { symmetry. apply (Z.mod_unique_pos _ _ 1); len. }
    rewrite (proj2 (Z.leb_le _ _)) by len.
    by rewrite slice_backwards by lia.
  - set (e := (zlen (hdr ++ HEADER_SEP) + n) mod U64).
    assert (e < U64) by (by apply Z.mod_pos_bound).
    rewrite (proj2 (Z.leb_le _ _)) by len.
    by rewrite slice_backwards by lia.
Qed.

(** The first blank line, on its own. *)
Lemma header_split acc sep :
  find_sub HEADER_SEP acc = Some sep →
  ∃ hdr rest, acc = hdr ++ HEADER_SEP ++ rest ∧ length hdr = sep ∧
    find_sub HEADER_SEP (hdr ++ HEADER_SEP) = Some (length hdr).
Proof.
  intros Hs. pose proof Hs as [(hdr&rest&->&<-) Hmin]%find_sub_Some. exists hdr, rest.
  split_and!; [done..|]. apply find_sub_Some. split; [by exists hdr, []; rewrite app_nil_r|].
  intros j Hj (a&b&Hab&<-). apply (Hmin (length a) Hj). exists a, (b ++ rest).
  by rewrite app_assoc, Hab, <- !app_assoc.
Qed.
End responses.

(** * What TLS delivers *)

(** A connection as the receiver of a stream: the plaintext that is decrypted
    and not read yet, the ciphertext it will take without an error, and the
    plaintext that such ciphertext opens to. *)
Class TlsView (T : Type) := {
  unread : T → bytes;
  accepts : T → bytes → Prop;
  opens : T → bytes → bytes;
}.

(** [t'] is [t] after [c]: it takes what may follow [c], and what follows
    opens to what it would have opened to. *)
Definition follows `{TlsView T} (t : T) (c : bytes) (t' : T) : Prop :=
  ∀ d, accepts t (c ++ d) → accepts t' d ∧ opens t (c ++ d) = opens t c ++ opens t' d.

(** What rustls documents of its single calls: [read_tls] takes some of the
    bytes and [process_new_packets] makes what they open to readable;
    [reader().read()] gives some of what is readable, and [WouldBlock], or no
    bytes after the peer's close, when there is nothing. *)
Class TlsLaws (T : Type) `{Tls T, TlsView T} : Prop := {
  opens_nil : ∀ t, opens t [] = [];
  accepts_prefix : ∀ t c d, accepts t (c ++ d) → accepts t c;
  reads_some : ∀ t c, accepts t c → c ≠ [] →
    ∃ n t1 t2, read_tls t c = (Ok n, t1) ∧ (0 < n ≤ length c)%nat ∧
      process_new_packets t1 = (Ok (), t2) ∧
      unread t2 = unread t ++ opens t (take n c) ∧ follows t (take n c) t2;
  gives_some : ∀ t k, unread t ≠ [] → (0 < k)%nat →
    ∃ b t', reader_read t k = (Ok b, t') ∧ b ≠ [] ∧ unread t = b ++ unread t' ∧ follows t [] t';
  gives_none : ∀ t k, unread t = [] → ∃ r t', reader_read t k = (r, t') ∧
    (r = Ok [] ∨ ∃ e, r = Err e ∧ kind e = WouldBlock) ∧ unread t' = [] ∧ follows t [] t';
}.

Section ingest.
Context `{BuildProfile} `{TL : TlsLaws T}.
Implicit Types (t : T) (e : HttpEngine T).

Lemma follows_refl t : follows t [] t.
Proof using TL. intros d Hd. by rewrite opens_nil. Qed.

Lemma follows_trans t c t1 c1 t2 :
  accepts t (c ++ c1) → follows t c t1 → follows t1 c1 t2 → follows t (c ++ c1) t2.
Proof.
  intros Hc Hf1 Hf2 d. rewrite <- app_assoc. intros Hd. destruct (Hf1 _ Hd) as [Hd1 Ho].
  destruct (Hf2 _ Hd1) as [Hd2 Ho1]. destruct (Hf1 _ Hc) as [_ Ho2].
  split; [done|]. by rewrite Ho, Ho1, Ho2, app_assoc.
Qed.

Lemma feed_loop_opens fuel t c :
  accepts t c → (length c ≤ fuel)%nat →
  ∃ t', feed_loop fuel t c = Ret (Ok (), t') ∧ unread t' = unread t ++ opens t c ∧ follows t c t'.
Proof using TL.
  revert t c. induction fuel as [|f IH]; intros t [|x c] Ha Hf; try (cbn in Hf; lia).
  1, 2: exists t; split; [done|]; rewrite opens_nil, app_nil_r; split; [done|apply follows_refl].
  destruct (reads_some t (x :: c) Ha ltac:(done)) as (n&t1&t2&Hr&Hn&Hp&Hu&Hfo).
  cbn [feed_loop]. rewrite Hr. destruct n as [|n]; [lia|]. rewrite Hp.
  pose proof (take_drop (S n) (x :: c)) as Htd.
  destruct (Hfo (drop (S n) (x :: c))) as [Ha2 Ho]; [by rewrite Htd|]. rewrite Htd in Ho.
  destruct (IH t2 (drop (S n) (x :: c)) Ha2) as (t'&Hl&Hu'&Hfo'); [rewrite length_drop; lia|].
  exists t'. split; [exact Hl|]. split; [by rewrite Hu', Hu, Ho, app_assoc|].
  rewrite <- Htd. eapply follows_trans; [by rewrite Htd|done..].
Qed.

Lemma opens_prefix t c d : accepts t (c ++ d) → opens t c `prefix_of` opens t (c ++ d).
Proof using TL.
  intros Ha. destruct (feed_loop_opens (length c) t c) as (t'&_&_&Hfo); [by eapply accepts_prefix|done|].
  destruct (Hfo d Ha) as [_ ->]. by apply prefix_app_r.
Qed.

Lemma read_loop_drains fuel t acc :
  (length (unread t) < fuel)%nat →
  ∃ t', read_loop fuel t acc = Ret (Ok (), t', acc ++ unread t) ∧ unread t' = [] ∧ follows t [] t'.
Proof using TL.
  revert t acc. induction fuel as [|f IH]; intros t acc Hf; [lia|]. cbn [read_loop].
  destruct (decide (unread t = [])) as [He|Hne].
  - destruct (gives_none t 2048 He) as (r&t'&Hr&Hk&Hu&Hfo). exists t'. rewrite Hr, He, app_nil_r.
    by destruct Hk as [->|(e&->&->)].
  - destruct (gives_some t 2048 Hne ltac:(lia)) as (b&t1&Hr&Hb&Hu&Hfo). rewrite Hr.
    destruct b as [|x b]; [done|]. destruct (IH t1 (acc ++ x :: b)) as (t'&Hl&Hu'&Hfo').
    { rewrite Hu in Hf. cbn in Hf. rewrite length_app in Hf. lia. }
    exists t'. rewrite Hl, Hu, <- app_assoc. split; [done|]. split; [done|].
    intros d Hd. destruct (Hfo d Hd) as [Hd1 Ho]. destruct (Hfo' d Hd1) as [Hd2 Ho'].
    rewrite opens_nil in *. cbn [app] in *. split; [done|congruence].
Qed.

(** A piece of the stream goes whole into the buffer. *)
Lemma ingest_opens fuel e c :
  c ≠ [] → accepts (eng_tls e) c → unread (eng_tls e) = [] →
  (length c ≤ fuel)%nat → (length (opens (eng_tls e) c) < fuel)%nat →
  ∃ t', ingest fuel e c = take_body (mkHttpEngine t' (eng_envelope e)
          (eng_rx_plain e ++ opens (eng_tls e) c) (eng_ciphertext e)) ∧
    unread t' = [] ∧ follows (eng_tls e) c t'.
Proof using TL.
  intros Hc Ha Hu Hf Hf'. destruct (feed_loop_opens fuel _ c Ha Hf) as (t1&Hl&Hu1&Hfo1).
  rewrite Hu in Hu1. cbn [app] in Hu1.
  destruct (read_loop_drains fuel t1 (eng_rx_plain e)) as (t2&Hr&Hu2&Hfo2); [by rewrite Hu1|].
  exists t2. unfold ingest. destruct c as [|x c]; [done|]. rewrite Hl. cbn [mbind outcome_bind].
  rewrite Hr, Hu1. split; [done|]. split; [done|].
  rewrite <- (app_nil_r (x :: c)). eapply follows_trans; [by rewrite app_nil_r|done..].
Qed.

Fixpoint ingest_all (fuel : nat) (e : HttpEngine T) (ciphers : list bytes) :
    outcome (list (result (option bytes) TransportError) * HttpEngine T) :=
  match ciphers with
  | [] => Ret ([], e)
  | c :: cs =>
      '(r, e') ← ingest fuel e c;
      '(rs, e'') ← ingest_all fuel e' cs;
      Ret (r :: rs, e'')
  end.

(** What [ingest] says of the start of a response. *)
Definition so_far (acc : bytes) : result (option bytes) TransportError :=
  if MAX_RESPONSE <? zlen acc then Err (TTls (str "response exceeds maximum size")) else Ok None.

Lemma take_body_partial e hdr body :
  message_header hdr (zlen body) → eng_rx_plain e `prefix_of` hdr ++ HEADER_SEP ++ body →
  (length (eng_rx_plain e) < length (hdr ++ HEADER_SEP ++ body))%nat →
  take_body e = Ret (so_far (eng_rx_plain e), e).
Proof.
  intros Hh [rest Hrest] Hlt. unfold take_body, so_far.
  replace (eng_rx_plain e) with (take (length (eng_rx_plain e)) (hdr ++ HEADER_SEP ++ body)) at 1
    by (by rewrite Hrest, take_app_length).
  rewrite body_if_complete_partial by done. cbn [mbind outcome_bind]. by case_match.
Qed.

(** The pieces [cs] and then [c] of a response, the part [seen] of the stream
    having been taken from state [t0]. *)
Lemma ingest_pieces fuel t0 e seen cs c hdr body :
  message_header hdr (zlen body) → Forall (λ c, c ≠ []) (cs ++ [c]) →
  accepts t0 (seen ++ concat cs ++ c) →
  opens t0 (seen ++ concat cs ++ c) = hdr ++ HEADER_SEP ++ body →
  (length (opens t0 (seen ++ concat cs)) < length (hdr ++ HEADER_SEP ++ body))%nat →
  (length (concat cs ++ c) + length (hdr ++ HEADER_SEP ++ body) < fuel)%nat →
  eng_rx_plain e = opens t0 seen → unread (eng_tls e) = [] → follows t0 seen (eng_tls e) →
  ∃ t', ingest_all fuel e (cs ++ [c])
    = Ret (((λ k, so_far (opens t0 (seen ++ concat (take (S k) cs)))) <$> seq 0 (length cs))
             ++ [Ok (Some body)],
           mkHttpEngine t' (eng_envelope e) [] (eng_ciphertext e)) ∧
    unread t' = [].
Proof using TL.
  intros Hh. revert e seen. induction cs as [|c0 cs IH]; intros e seen Hne Ha Ho Hlt Hf Hrx Hu Hfo.
  - cbn [app concat] in *. apply Forall_cons in Hne as [Hne _].
    destruct (Hfo _ Ha) as [Ha' Ho']. rewrite Ho' in Ho.
    destruct (ingest_opens fuel e c Hne Ha' Hu) as (t'&Hi&Hu'&_);
      [cbn in Hf; lia|pose proof (f_equal length Ho) as Hl; rewrite length_app in Hl; lia|].
    exists t'. split; [|done]. cbn [ingest_all fmap list_fmap seq length app]. rewrite Hi. unfold take_body.
    cbn [eng_rx_plain]. rewrite Hrx, Ho, <- (app_nil_r body) at 1.
    by rewrite (body_if_complete_whole _ _ _ Hh).
  - cbn [app concat length] in *. apply Forall_cons in Hne as [Hne Hnes].
    rewrite <- app_assoc, app_assoc in Ha, Ho. rewrite app_assoc in Hlt.
    assert (accepts t0 (seen ++ c0)) as Ha0 by (by eapply accepts_prefix).
    assert (accepts t0 ((seen ++ c0) ++ concat cs)) as Ha1
      by (eapply (accepts_prefix _ _ c); by rewrite <- app_assoc).
    destruct (Hfo _ Ha0) as [Ha' Ho'].
    pose proof (opens_prefix _ _ _ Ha1) as Hp1%prefix_length.
    pose proof (opens_prefix _ _ _ Ha) as Hp. rewrite Ho in Hp.
    destruct (ingest_opens fuel e c0 Hne Ha' Hu) as (t'&Hi&Hu'&Hfo').
    { rewrite !length_app in Hf. lia. }
    { rewrite Ho', length_app in Hp1. lia. }
    rewrite Hrx, <- Ho' in Hi. set (e' := mkHttpEngine t' _ _ _) in Hi.
    destruct (IH e' (seen ++ c0)) as (t2&Hall&Hu2); try done.
    { rewrite !length_app in Hf. rewrite !length_app. lia. }
    { by eapply follows_trans. }
    exists t2. split; [|done]. cbn [ingest_all]. rewrite Hi.
    rewrite (take_body_partial e' hdr body Hh Hp) by (cbn [e' eng_rx_plain]; lia).
    cbn [mbind outcome_bind]. rewrite Hall. cbn [mbind outcome_bind seq fmap list_fmap app].
    rewrite <- fmap_S_seq, <- list_fmap_compose. cbn [take concat]. rewrite app_nil_r.
    do 4 f_equal. apply list_fmap_ext. intros k y _. cbn. by rewrite app_assoc.
Qed.
End ingest.

(** * Progress of the TLS loops *)

(** A connection whose loops end: [backlog] bounds the writes it still wants,
    [readable] the plaintext it still has, and a read of ciphertext takes at
    least a byte. *)
Class TlsProgress (T : Type) `{Tls T} (backlog readable : T → nat) : Prop := {
  write_progress : ∀ t, wants_write t = true → (backlog (write_tls t).2 < backlog t)%nat;
  read_progress : ∀ t n b, (reader_read t n).1 = Ok b → b ≠ [] →
    (readable (reader_read t n).2 < readable t)%nat;
}.

Section progress.
Context `{TP : TlsProgress T backlog readable}.

Lemma encode_loop_ends fuel t out :
  (backlog t < fuel)%nat → ∃ r t' out', encode_loop fuel t out = Ret (r, t', out').
Proof using TP.
  revert t out. induction fuel as [|f IH]; intros t out Hf; [lia|]. cbn [encode_loop].
  destruct (wants_write t) eqn:Ew; [|by eauto]. pose proof (write_progress t Ew) as Hp.
  destruct (write_tls t) as [[b|e] t']; [|by eauto]. apply IH. cbn in Hp. lia.
Qed.

Lemma handshake_loop_ends fuel t out :
  (backlog t < fuel)%nat → ∃ out' t', handshake_loop fuel t out = Ret (out', t').
Proof using TP.
  revert t out. induction fuel as [|f IH]; intros t out Hf; [lia|]. cbn [handshake_loop].
  destruct (wants_write t) eqn:Ew; [|by eauto]. pose proof (write_progress t Ew) as Hp.
  destruct (write_tls t) as [r t']. apply IH. cbn in Hp. lia.
Qed.

Lemma feed_loop_ends fuel t cipher :
  (length cipher < fuel)%nat → ∃ r t', feed_loop fuel t cipher = Ret (r, t').
Proof using TP.
  revert t cipher. induction fuel as [|f IH]; intros t cipher Hf; [lia|].
  destruct cipher as [|c cipher]; [by do 2 eexists|]. cbn [feed_loop].
  destruct (read_tls t (c :: cipher)) as [[[|n]|e] t']; [by eauto| |by eauto].
  destruct (process_new_packets t') as [[[]|e] t'']; [|by eauto].
  apply IH. cbn [drop]. rewrite length_drop. cbn in Hf. lia.
Qed.

Lemma read_loop_ends fuel t plain :
  (readable t < fuel)%nat → ∃ r t' plain', read_loop fuel t plain = Ret (r, t', plain').
Proof using TP.
  revert t plain. induction fuel as [|f IH]; intros t plain Hf; [lia|]. cbn [read_loop].
  pose proof (read_progress t 2048) as Hp.
  destruct (reader_read t 2048) as [[[|b bs]|e] t']; cbn in Hp; [by eauto| |case_match; by eauto].
  apply IH. specialize (Hp _ eq_refl ltac:(done)). lia.
Qed.
End progress.

(** * Theorems *)

(** C13: however the network cuts the ciphertext of a response into pieces, and
    however TLS hands on what they open to, [ingest] gives the body exactly
    once, with the piece that completes it; the buffer is then empty for the
    next response. Before that it gives nothing, except that every piece after
    which more than 64 KiB are there and the response is not complete is
    answered with the error for its size. *)
Theorem ingest_fragments `{BuildProfile} `{TlsLaws T} fuel (e : HttpEngine T) cs c hdr body :
  message_header hdr (zlen body) → eng_rx_plain e = [] → unread (eng_tls e) = [] →
  Forall (λ c, c ≠ []) (cs ++ [c]) → accepts (eng_tls e) (concat cs ++ c) →
  opens (eng_tls e) (concat cs ++ c) = hdr ++ HEADER_SEP ++ body →
  (length (opens (eng_tls e) (concat cs)) < length (hdr ++ HEADER_SEP ++ body))%nat →
  (length (concat cs ++ c) + length (hdr ++ HEADER_SEP ++ body) < fuel)%nat →
  ∃ t', ingest_all fuel e (cs ++ [c])
    = Ret (((λ k, so_far (opens (eng_tls e) (concat (take (S k) cs)))) <$> seq 0 (length cs))
             ++ [Ok (Some body)],
           mkHttpEngine t' (eng_envelope e) [] (eng_ciphertext e)) ∧
    unread t' = [].
Proof.
  intros Hh Hrx Hu Hne Ha Ho Hlt Hf. apply (ingest_pieces fuel (eng_tls e) e [] cs c hdr body); try done.
  - by rewrite Hrx, opens_nil.
  - apply follows_refl.
Qed.

(** A response that arrives together with the one before it is lost. When
    one piece opens to a complete response and the start of what follows, the
    first body is returned and everything after it is thrown away: the next
    call finds an empty buffer. *)
Theorem ingest_drops_rest `{BuildProfile} `{TlsLaws T} fuel (e : HttpEngine T) c hdr body rest :
  message_header hdr (zlen body) → eng_rx_plain e = [] → unread (eng_tls e) = [] →
  c ≠ [] → accepts (eng_tls e) c → opens (eng_tls e) c = hdr ++ HEADER_SEP ++ body ++ rest →
  (length c ≤ fuel)%nat → (length (opens (eng_tls e) c) < fuel)%nat →
  ∃ e', ingest fuel e c = Ret (Ok (Some body), e') ∧ eng_rx_plain e' = [] ∧
    ingest fuel e' [] = Ret (Ok None, e').
Proof.
  intros Hh Hrx Hu Hc Ha Ho Hf Hf'. destruct (ingest_opens fuel e c Hc Ha Hu Hf Hf') as (t'&->&_).
  unfold take_body. cbn [eng_rx_plain]. rewrite Hrx, Ho. cbn [app].
  rewrite (body_if_complete_whole _ _ _ Hh). cbn [mbind outcome_bind].
  eexists. split; [done|]. done.
Qed.

(** C40: the message parser panics exactly on an announced length that makes
    the end of the body overflow [usize], in debug builds at the addition and
    in release builds at the slice; the announced length is under the peer's
    control. Nothing else a peer can send makes it panic. *)
Theorem body_panics_iff `{BuildProfile} acc :
  body_if_complete acc = Panic ↔
  ∃ hdr rest n, acc = hdr ++ HEADER_SEP ++ rest ∧
    find_sub HEADER_SEP (hdr ++ HEADER_SEP) = Some (length hdr) ∧
    utf8_valid (hdr ++ HEADER_SEP) = true ∧
    find_map cl_value (lines (hdr ++ HEADER_SEP)) ≫= parse_usize = Some n ∧
    U64 ≤ zlen hdr + 4 + n.
Proof.
  split.
  - intros Hp. destruct (find_sub HEADER_SEP acc) as [sep|] eqn:Es;
      [|unfold body_if_complete in Hp; by rewrite Es in Hp].
    destruct (header_split acc sep Es) as (hdr&rest&->&<-&Hsep). exists hdr, rest.
    destruct (utf8_valid (hdr ++ HEADER_SEP)) eqn:Eu.
    2: { unfold body_if_complete in Hp. rewrite Es in Hp. fold (zlen hdr) in Hp.
         rewrite app_assoc, <- zlen_HEADER_SEP, <- zlen_app, slice_to_app in Hp.
         cbn [mbind outcome_bind] in Hp. unfold from_utf8 in Hp. by rewrite Eu in Hp. }
    destruct (find_map cl_value (lines (hdr ++ HEADER_SEP)) ≫= parse_usize) as [n|] eqn:En.
    + exists n. split_and!; [done..|]. destruct (decide (U64 ≤ zlen hdr + 4 + n)) as [|Hno]; [done|].
      assert (0 ≤ n < U64) as Hn.
      { apply bind_Some in En as (v&_&Hv). by eapply parse_usize_bounds. }
      rewrite (body_if_complete_header hdr n) in Hp; [done|]. split; [done..|lia].
    + unfold body_if_complete in Hp. rewrite Es in Hp. fold (zlen hdr) in Hp.
      rewrite app_assoc, <- zlen_HEADER_SEP, <- zlen_app, slice_to_app in Hp.
      cbn [mbind outcome_bind] in Hp. unfold from_utf8 in Hp. rewrite Eu in Hp.
      destruct (find_map cl_value _) as [v|]; [|done]. cbn in En. by rewrite En in Hp.
  - intros (hdr&rest&n&->&Hsep&Hu&Hcl&Hov). eapply body_if_complete_overflow; [done..| |done].
    apply bind_Some in Hcl as (v&_&Hv). by eapply parse_usize_bounds.
Qed.

(** Encoding and ingesting end. Over a TLS connection that makes progress,
    the engine's loops need no more calls than the connection's backlog, the
    ciphertext's length and the readable plaintext allow. *)
Theorem engine_loops_end `{TlsProgress T backlog readable} (t : T) cipher out plain fuel :
  (backlog t < fuel)%nat → (length cipher < fuel)%nat → (readable t < fuel)%nat →
  (∃ r, encode_loop fuel t out = Ret r) ∧ (∃ r, handshake_loop fuel t out = Ret r) ∧
  (∃ r, feed_loop fuel t cipher = Ret r) ∧ (∃ r, read_loop fuel t plain = Ret r).
Proof.
  intros Hb Hc Hr.
  destruct (encode_loop_ends fuel t out Hb) as (?&?&?&->).
  destruct (handshake_loop_ends fuel t out Hb) as (?&?&->).
  destruct (feed_loop_ends fuel t cipher Hc) as (?&?&->).
  destruct (read_loop_ends fuel t plain Hr) as (?&?&?&->). eauto 10.
Qed.

(** * A plain connection, for the examples *)

(** No encryption: ciphertext is plaintext, taken nine bytes at a time. *)
Record plain_tls := mkPlainTls { pl_out : bytes; pl_in : bytes }.
#[export] Instance plain_tls_ops : Tls plain_tls := {
  server_name_try_from n := Ok n;
  client_connection_new _ := Ok (mkPlainTls [] []);
  is_handshaking _ := false;
  wants_write t := match pl_out t with [] => false | _ => true end;
  write_tls t := (Ok (pl_out t), mkPlainTls [] (pl_in t));
  writer_write_all t l := (Ok (), mkPlainTls (pl_out t ++ l) (pl_in t));
  read_tls t l := (Ok (length (take 9 l)), mkPlainTls (pl_out t) (pl_in t ++ take 9 l));
  process_new_packets t := (Ok (), t);
  reader_read t n :=
    match pl_in t with
    | [] => (Err (Simple WouldBlock), t)
    | _ => (Ok (take n (pl_in t)), mkPlainTls (pl_out t) (drop n (pl_in t)))
    end;
}.

#[export] Instance plain_tls_progress :
  TlsProgress plain_tls (λ t, length (pl_out t)) (λ t, length (pl_in t)).
Proof.
  split.
  - intros [[|] i]; cbn; [done|lia].
  - intros [o [|x i]] n b; cbn; [done|]. intros [= <-] Hb. destruct n; [done|].
    cbn. rewrite length_drop. lia.
Qed.

(** What goes in comes out. *)
#[export] Instance plain_tls_view : TlsView plain_tls := {
  unread := pl_in; accepts _ _ := True; opens _ c := c }.
#[export] Instance plain_tls_laws : TlsLaws plain_tls.
Proof.
  split; [done..| | |].
  - intros t c _ Hc. eexists _, _, _. split; [done|]. destruct c as [|x c]; [done|].
    split; [rewrite length_take; cbn [length]; lia|]. split; [done|]. split; [|done].
    cbn [unread pl_in opens plain_tls_view]. f_equal. rewrite length_take.
    destruct (decide (length (x :: c) ≤ 9)%nat); [rewrite !take_ge by lia; done|].
    by rewrite Nat.min_l by lia.
  - intros [o [|x i]] k Hi Hk; [done|]. eexists _, _. split; [done|]. cbn. rewrite take_drop.
    by destruct k; [lia|].
  - intros [o i] k Hi. cbn in Hi. subst i. eexists _, _. split; [done|].
    split; [right; by eexists|done].
Qed.

Definition sample_header : bytes := str "HTTP/1.1 200 OK" ++ CRLF ++ str "Content-Length: 5".
Definition sample_engine : HttpEngine plain_tls :=
  mkHttpEngine (mkPlainTls [] []) (mkEnvelopeTemplate [] [] 0 0 None 0 0) [] [].

Lemma sample_message : message_header sample_header 5.
Proof. split; [reflexivity..|compute_done]. Qed.

Lemma ingest_fragments_witness :
  ∃ t', @ingest_all true plain_tls _ 100 sample_engine
    [str "HTTP/1.1 200 OK" ++ CRLF; str "Content-Length: 5" ++ HEADER_SEP ++ str "he"; str "llo"]
  = Ret ([Ok None; Ok None; Ok (Some (str "hello"))],
         mkHttpEngine t' (mkEnvelopeTemplate [] [] 0 0 None 0 0) [] []) ∧ unread t' = [].
Proof.
  destruct (@ingest_fragments true plain_tls _ _ _ 100 sample_engine
    [str "HTTP/1.1 200 OK" ++ CRLF; str "Content-Length: 5" ++ HEADER_SEP ++ str "he"]
    (str "llo") sample_header (str "hello")) as (t'&Hi&Hu);
    [apply sample_message|reflexivity|reflexivity|repeat constructor; discriminate|exact I|reflexivity|
     vm_compute; lia|vm_compute; lia|].
  exists t'. split; [|exact Hu]. etrans; [exact Hi|]. reflexivity.
Defined.

Lemma ingest_drops_rest_witness :
  let c := sample_header ++ HEADER_SEP ++ str "hello" ++ sample_header ++ HEADER_SEP ++ str "world" in
  ∃ e', @ingest true plain_tls _ 100 sample_engine c = Ret (Ok (Some (str "hello")), e') ∧
    @ingest true plain_tls _ 100 e' [] = Ret (Ok None, e').
Proof.
  intros c. destruct (@ingest_drops_rest true plain_tls _ _ _ 100 sample_engine c
    sample_header (str "hello") (sample_header ++ HEADER_SEP ++ str "world")) as (e'&H1&_&H2);
    [apply sample_message|reflexivity|reflexivity|discriminate|exact I|reflexivity|vm_compute; lia..|].
  by exists e'.
Defined.

Lemma engine_loops_end_witness :
  ∃ r, feed_loop 9 (mkPlainTls [] []) (str "response") = Ret r.
Proof.
  apply (engine_loops_end (mkPlainTls [] []) (str "response") [] [] 9); cbn; lia.
Defined.
