(* ===== verification/Response.v ===== *)
(** The JSON-RPC response codec, provider/response.rs: it looks for the
    fields it needs in the text of the response, without parsing JSON. *)
From S2P Require Import Prelude Str Types.
From stdpp Require Import options.

(** The key between double quotes. *)
Definition quoted (key : bytes) : bytes := QUOTE :: key ++ [QUOTE].

Definition COLON : byte := x3a.

(** The common part of the two searches: the text after the first colon after
    the quoted key, without leading white space. *)
Definition value_after (text key : bytes) : option bytes :=
  key_pos ← find_sub (quoted key) text;
  let after := drop (key_pos + length (quoted key)) text in
  colon ← find_byte (Byte.eqb COLON) after;
  Some (trim_start (drop (colon + 1) after)).

Definition json_string_after (body key : bytes) : option bytes :=
  text ← from_utf8 body;
  rest ← value_after text key;
  match rest with
  | q :: rest' =>
      if Byte.eqb q QUOTE then
        close ← find_byte (Byte.eqb QUOTE) rest';
        Some (take close rest')
      else None
  | [] => None
  end.

Definition json_i64_after (body key : bytes) : option Z :=
  text ← from_utf8 body;
  rest ← value_after text key;
  let close := default (length rest)
                 (find_byte (λ c, negb (is_ascii_digit c) && negb (Byte.eqb c MINUS)) rest) in
  parse_i64 (take close rest).

(** Whether some seven bytes of the body are the quoted word error. *)
Definition mentions_error (body : bytes) : bool :=
  match find_sub (quoted (str "error")) body with
  | Some _ => true
  | None => false
  end.

Definition json_rpc_parse (body : bytes) : OutcomeKind :=
  match json_string_after body (str "result") with
  | Some sig => Accepted sig
  | None =>
      if mentions_error body then
        let code := default 0 (json_i64_after body (str "code")) in
        let message := default [] (json_string_after body (str "message")) in
        Rejected code message
      else NoResponse
  end.

Definition JsonRpcCodec : ResponseCodec := mkResponseCodec json_rpc_parse.

(** * Lemmas *)

(** White space, character by character. *)
Inductive white : bytes → Prop :=
| white_nil : white []
| white_1 b l : ws1 b = true → white l → white (b :: l)
| white_2 b1 b2 l : ws2 b1 b2 = true → white l → white (b1 :: b2 :: l)
| white_3 b1 b2 b3 l : ws3 b1 b2 b3 = true → white l → white (b1 :: b2 :: b3 :: l).

Lemma ws_first b1 b2 b3 : (ws2 b1 b2 = true ∨ ws3 b1 b2 b3 = true) → ws1 b1 = false.
Proof.
  unfold ws2, ws3. rewrite !orb_true_iff, !andb_true_iff, !byte_eqb_eq.
  intros [[-> _]|[[[[[-> _] _]|[[-> _] _]]|[[-> _] _]]|[[-> _] _]]]; reflexivity.
Qed.
Lemma ws3_not_ws2 b1 b2 b3 : ws3 b1 b2 b3 = true → ws2 b1 b2 = false.
Proof.
  unfold ws2, ws3. rewrite !orb_true_iff, !andb_true_iff, !byte_eqb_eq.
  intros [[[[[-> _] _]|[[-> _] _]]|[[-> _] _]]|[[-> _] _]]; reflexivity.
Qed.

Lemma trim_start_white ws v : white ws → trim_start (ws ++ v) = trim_start v.
Proof.
  induction 1 as [|b l Hb _ IH|b1 b2 l Hb _ IH|b1 b2 b3 l Hb _ IH]; cbn [app trim_start]; [done| | |].
  - by rewrite Hb.
  - by rewrite (ws_first b1 b2 b2), Hb by auto.
  - by rewrite (ws_first b1 b2 b3), (ws3_not_ws2 _ _ _ Hb), Hb by auto.
Qed.

Lemma trim_start_split l : ∃ ws, white ws ∧ l = ws ++ trim_start l.
Proof.
  remember (length l) as n eqn:Hn. revert l Hn.
  induction (lt_wf n) as [n _ IH]; intros l ->.
  destruct l as [|b1 l1]; [by exists []; split; [constructor|]|]. cbn [trim_start].
  destruct (ws1 b1) eqn:E1.
  { destruct (IH (length l1) ltac:(simpl; lia) l1 eq_refl) as (ws&Hw&Hl).
    exists (b1 :: ws). split; [by constructor|]. by rewrite Hl at 1. }
  destruct l1 as [|b2 l2]; [by exists []; split; [constructor|]|]. destruct (ws2 b1 b2) eqn:E2.
  { destruct (IH (length l2) ltac:(simpl; lia) l2 eq_refl) as (ws&Hw&Hl).
    exists (b1 :: b2 :: ws). split; [by constructor|]. by rewrite Hl at 1. }
  destruct l2 as [|b3 l3]; [by exists []; split; [constructor|]|]. destruct (ws3 b1 b2 b3) eqn:E3.
  - destruct (IH (length l3) ltac:(simpl; lia) l3 eq_refl) as (ws&Hw&Hl).
    exists (b1 :: b2 :: b3 :: ws). split; [by constructor|]. by rewrite Hl at 1.
  - by exists []; split; [constructor|].
Qed.

Lemma trim_start_twice l : trim_start (trim_start l) = trim_start l.
Proof.
  destruct (trim_start_split l) as (ws&Hw&Hl). rewrite Hl at 2. by rewrite trim_start_white.
Qed.

(** * What the codec looks at *)

(** [v] is the text from the value of the first quoted [key] on: after the next
    colon, wherever that is, and the white space that follows it. *)
Definition field (body key v : bytes) : Prop :=
  ∃ pre mid ws, body = pre ++ quoted key ++ mid ++ COLON :: ws ++ v ∧
    (∀ j, (j < length pre)%nat → ¬ occurs_at (quoted key) body j) ∧
    (COLON ∉ mid) ∧ white ws ∧ trim_start v = v.

(** The value is a string: [s] is what stands before the next quote. *)
Definition string_field (body key s : bytes) : Prop :=
  utf8_valid body = true ∧ ∃ post, field body key (QUOTE :: s ++ QUOTE :: post) ∧ QUOTE ∉ s.

Definition code_byte (c : byte) : bool := is_ascii_digit c || Byte.eqb c MINUS.

(** The value is a number: the longest run of digits and minus signs reads as
    the [i64] [n]. *)
Definition i64_field (body key : bytes) (n : Z) : Prop :=
  utf8_valid body = true ∧ ∃ digits post, field body key (digits ++ post) ∧
    Forall (λ c, code_byte c = true) digits ∧
    (∀ c, head post = Some c → code_byte c = false) ∧ parse_i64 digits = Some n.

Lemma not_elem_byte c l : c ∉ l ↔ Forall (λ b, Byte.eqb c b = false) l.
Proof.
  rewrite Forall_forall. split.
  - intros Hc x Hx. apply byte_eqb_ne. by intros <-.
  - intros Hl Hc. apply Hl in Hc. by rewrite byte_eqb_refl in Hc.
Qed.

Lemma value_after_spec body key v : value_after body key = Some v ↔ field body key v.
Proof.
  unfold value_after. split.
  - intros (i&Hk&Hv)%bind_Some. apply find_sub_Some in Hk as [(pre&rest&->&<-) Hfirst].
    rewrite (app_assoc pre), drop_app_length' in Hv by (by rewrite length_app).
    apply bind_Some in Hv as (j&Hc&[= <-]).
    apply find_byte_Some in Hc as (mid&c&v&->&<-&Hc&Hmid). apply byte_eqb_eq in Hc as <-.
    rewrite (cons_middle COLON), (app_assoc mid), drop_app_length' by (by rewrite length_app).
    destruct (trim_start_split v) as (ws&Hw&Hws). exists pre, mid, ws.
    rewrite <- app_assoc, <- Hws. cbn [app]. split; [done|]. split; [done|].
    split; [by apply not_elem_byte|]. split; [done|apply trim_start_twice].
  - intros (pre&mid&ws&->&Hfirst&Hmid&Hw&Hv).
    assert (find_sub (quoted key) (pre ++ quoted key ++ mid ++ COLON :: ws ++ v) = Some (length pre)) as ->.
    { apply find_sub_Some. split; [by eexists _, _|done]. }
    cbn [mbind option_bind]. rewrite (app_assoc pre), drop_app_length' by (by rewrite length_app).
    rewrite find_byte_skip by (by apply not_elem_byte). cbn [find_byte]. rewrite byte_eqb_refl.
    cbn [mbind option_bind fmap option_fmap option_map].
    rewrite Nat.add_0_r, (cons_middle COLON), (app_assoc mid), drop_app_length' by (by rewrite length_app).
    by rewrite trim_start_white, Hv.
Qed.

Lemma json_string_after_spec body key s :
  json_string_after body key = Some s ↔ string_field body key s.
Proof.
  unfold json_string_after, string_field, from_utf8. destruct (utf8_valid body); [|naive_solver].
  cbn [mbind option_bind]. split.
  - intros (rest&Hr%value_after_spec&Hs)%bind_Some. split; [done|].
    destruct rest as [|q rest]; [done|]. destruct (Byte.eqb q QUOTE) eqn:Eq; [|done].
    apply byte_eqb_eq in Eq as ->. apply bind_Some in Hs as (k&Hk&[= <-]).
    apply find_byte_Some in Hk as (a&c&post&->&<-&Hc&Ha). apply byte_eqb_eq in Hc as <-.
    rewrite take_app_length. exists post. split; [done|]. by apply not_elem_byte.
  - intros [_ (post&Hf%value_after_spec&Hs)]. rewrite Hf. cbn [mbind option_bind]. rewrite byte_eqb_refl.
    rewrite find_byte_skip by (by apply not_elem_byte). cbn [find_byte]. rewrite byte_eqb_refl.
    cbn [mbind option_bind fmap option_fmap option_map]. by rewrite Nat.add_0_r, take_app_length.
Qed.

Lemma find_byte_None f l : find_byte f l = None → Forall (λ b, f b = false) l.
Proof.
  induction l as [|x l IH]; cbn [find_byte]; [constructor|]. destruct (f x) eqn:E; [done|].
  destruct (find_byte f l); [done|]. intros _. by constructor; [|apply IH].
Qed.

Lemma not_code c : negb (is_ascii_digit c) && negb (Byte.eqb c MINUS) = negb (code_byte c).
Proof. unfold code_byte. by rewrite negb_orb. Qed.

Lemma json_i64_after_spec body key n :
  json_i64_after body key = Some n ↔ i64_field body key n.
Proof.
  unfold json_i64_after, i64_field, from_utf8. destruct (utf8_valid body); [|naive_solver].
  cbn [mbind option_bind]. set (stop := λ c, negb (is_ascii_digit c) && negb (Byte.eqb c MINUS)). split.
  - intros (rest&Hr%value_after_spec&Hn)%bind_Some. split; [done|].
    destruct (find_byte stop rest) as [k|] eqn:Ek; cbn [default from_option id] in Hn.
    + apply find_byte_Some in Ek as (a&c&post&->&<-&Hc&Ha). rewrite take_app_length in Hn.
      exists a, (c :: post). split; [done|]. split; [|split; [|done]].
      * eapply Forall_impl; [exact Ha|]. intros x Hx. unfold stop in Hx. rewrite not_code in Hx.
        by apply negb_false_iff.
      * intros x [= <-]. unfold stop in Hc. rewrite not_code in Hc. by apply negb_true_iff.
    + exists rest, []. rewrite app_nil_r. split; [done|]. rewrite take_ge in Hn by done.
      split; [|split; [done|done]]. apply find_byte_None in Ek. eapply Forall_impl; [exact Ek|].
      intros x Hx. unfold stop in Hx. rewrite not_code in Hx. by apply negb_false_iff.
  - intros [_ (digits&post&Hf%value_after_spec&Hd&Hp&Hn)]. rewrite Hf. cbn [mbind option_bind].
    rewrite find_byte_skip.
    2: { eapply Forall_impl; [exact Hd|]. intros x Hx. unfold stop. by rewrite not_code, Hx. }
    destruct post as [|c post]; cbn [find_byte].
    + cbn. by rewrite app_nil_r, take_ge.
    + unfold stop at 1. rewrite not_code, (Hp c) by done.
      cbn [negb fmap option_fmap option_map default from_option id].
      by rewrite Nat.add_0_r, take_app_length.
Qed.

(** A field's value, or [d] when there is none. *)
Definition field_or {A} (P : A → Prop) (d x : A) : Prop := P x ∨ (¬ ∃ y, P y) ∧ x = d.

Lemma field_or_default {A} (P : A → Prop) (o : option A) d x :
  (∀ y, o = Some y ↔ P y) → default d o = x ↔ field_or P d x.
Proof.
  intros HP. unfold field_or. destruct o as [y|]; cbn.
  - split; [intros <-; left; by apply HP|]. intros [Hx|[Hn _]].
    + apply HP in Hx. congruence.
    + destruct Hn. exists y. by apply HP.
  - split.
    + intros <-. right. split; [|done]. intros [y Hy]. by apply HP in Hy.
    + intros [Hx|[_ ->]]; [|done]. by apply HP in Hx.
Qed.

Lemma mentions_error_spec body :
  mentions_error body = true ↔ ∃ j, occurs_at (quoted (str "error")) body j.
Proof.
  unfold mentions_error. destruct (find_sub _ body) as [i|] eqn:E.
  - apply find_sub_Some in E as [Ho _]. split; [by exists i|done].
  - pose proof (proj1 (find_sub_None _ _) E) as Hno. split; [done|]. intros [j Hj]. by destruct (Hno j).
Qed.

Lemma json_rpc_parse_Accepted body sig :
  json_rpc_parse body = Accepted sig ↔ string_field body (str "result") sig.
Proof.
  rewrite <- json_string_after_spec. unfold json_rpc_parse.
  destruct (json_string_after body (str "result")); [split; congruence|].
  by destruct (mentions_error body).
Qed.

(** * Properties *)

(** C32: a reply is accepted exactly when it is UTF-8 and, after its first quoted
    [result], wherever that stands, the next colon is followed, after any white
    space, by a string; the signature is that string, up to the next quote. *)
Theorem accepted_iff body sig :
  json_rpc_parse body = Accepted sig ↔ string_field body (str "result") sig.
Proof. apply json_rpc_parse_Accepted. Qed.

(** C33: a reply is rejected exactly when its first quoted [result] has no string
    value (or it is not UTF-8) and it holds the quoted word [error] somewhere;
    the code is the [i64] at its first [code], or 0 when there is none, the
    message the string at its first [message], up to the next quote, or empty
    when there is none. *)
Theorem rejected_iff body code message :
  json_rpc_parse body = Rejected code message ↔
  (¬ ∃ sig, string_field body (str "result") sig) ∧
  (∃ j, occurs_at (quoted (str "error")) body j) ∧
  field_or (i64_field body (str "code")) 0 code ∧
  field_or (string_field body (str "message")) [] message.
Proof.
  rewrite <- mentions_error_spec.
  rewrite <- (field_or_default _ _ _ _ (json_i64_after_spec body (str "code"))).
  rewrite <- (field_or_default _ _ _ _ (json_string_after_spec body (str "message"))).
  setoid_rewrite <- json_string_after_spec. unfold json_rpc_parse.
  destruct (json_string_after body (str "result")) as [s|].
  { split; [done|]. intros [[] _]. by exists s. }
  destruct (mentions_error body); [|naive_solver].
  split; [intros [= <- <-]; naive_solver|]. by intros (_&_&<-&<-).
Qed.

(** The replies of the source's own tests, and two that the search misreads: an
    error whose data holds a result string is accepted, and a message is cut at
    an escaped quote. *)
Example parses_jsonrpc_result_signature :
  json_rpc_parse (json "{'jsonrpc':'2.0','result':'5abc','id':1}") = Accepted (str "5abc").
Proof. reflexivity. Qed.
Example parses_jsonrpc_error :
  json_rpc_parse (json "{'jsonrpc':'2.0','error':{'code':-32002,'message':'blockhash not found'},'id':1}")
  = Rejected (-32002) (str "blockhash not found").
Proof. reflexivity. Qed.
Example accepts_error_with_result :
  json_rpc_parse (json "{'error' : {'code':-32002,'message':'no','data':{'result' : 'x'}}}")
  = Accepted (str "x").
Proof. reflexivity. Qed.
Example cuts_escaped_message :
  json_rpc_parse (json "{'error':{'code':-1,'message':'bad \'hash\''}}") = Rejected (-1) (str "bad \").
Proof. reflexivity. Qed.

(** A JSON-RPC message with a result string. *)
Definition result_message (sig post : bytes) : bytes :=
  json "{'jsonrpc':'2.0','result':'" ++ sig ++ QUOTE :: post.



(** A body that is not UTF-8 (a response cut inside a character, for
    one) is never accepted, even when it holds a result: it is reported as no
    response, or as a rejection without code and text when it mentions an
    error. *)
Theorem parse_not_utf8 body :
  utf8_valid body = false →
  json_rpc_parse body = if mentions_error body then Rejected 0 [] else NoResponse.
Proof.
  intros Hu. unfold json_rpc_parse, json_string_after, json_i64_after, from_utf8.
  by rewrite Hu.
Qed.

Lemma parse_not_utf8_witness :
  json_rpc_parse (result_message (str "ab") [xc3]) = NoResponse.
Proof. rewrite parse_not_utf8; reflexivity. Defined.
