(* ===== verification/Framing.v ===== *)
(** The envelope and the parser together: a frame written by
    protocol/http/envelope.rs from the text of spec_builder.rs is read back by
    the message parser of protocol/http/engine.rs, byte for byte. *)
From S2P Require Import Prelude Str Types Envelope SpecBuilder Http.
From stdpp Require Import options.

(** * Lines of a header *)

Lemma lines_crlf_lines ls rest :
  Forall (λ l, is_clean l = true ∧ l ≠ []) ls → lines (crlf_lines ls ++ rest) = ls ++ lines rest.
Proof.
  induction 1 as [|l ls [Hl _] Hls IH]; [done|].
  rewrite crlf_lines_cons, <- !app_assoc, lines_crlf; [by rewrite IH|].
  by apply is_clean_no in Hl as (_&_&?).
Qed.

Lemma find_map_app {A B} (f : A → option B) l1 l2 :
  Forall (λ x, f x = None) l1 → find_map f (l1 ++ l2) = find_map f l2.
Proof. induction 1 as [|x l1 Hx Hl IH]; [done|]. cbn. by rewrite Hx. Qed.

Lemma utf8_valid_crlf_lines ls :
  Forall (λ l, utf8_valid l = true) ls → utf8_valid (crlf_lines ls) = true.
Proof.
  induction 1 as [|l ls Hl Hls IH]; [done|].
  rewrite crlf_lines_cons, utf8_valid_app by done. by rewrite utf8_valid_app.
Qed.

(** The value of the content-length line, as the envelope writes it. *)
Definition cl_field (n : Z) : bytes := pad_right 12 (decimal n).

Lemma digits_ascii n : Forall (λ b, is_ascii b = true) (decimal n).
Proof.
  eapply Forall_impl; [apply decimal_digits|]. intros c Hc. simpl in Hc.
  by apply digit_ascii in Hc as [? _].
Qed.

Lemma cl_field_ascii n : Forall (λ b, is_ascii b = true) (cl_field n).
Proof.
  unfold cl_field, pad_right. apply Forall_app. split; [apply digits_ascii|].
  by apply Forall_replicate.
Qed.

Lemma cl_field_not_elem c n : is_ascii_digit c = false → c ≠ SP → c ∉ cl_field n.
Proof.
  intros Hc Hsp. unfold cl_field, pad_right. rewrite not_elem_of_app. split.
  - intros Hin. pose proof (decimal_digits n) as Hd. rewrite Forall_forall in Hd.
    apply Hd in Hin. congruence.
  - intros [-> _]%elem_of_replicate. done.
Qed.

Lemma cl_value_field n : cl_value (CL_NAME ++ cl_field n) = Some (decimal n).
Proof.
  unfold cl_value. change (CL_NAME ++ cl_field n) with (str "Content-Length:" ++ [SP] ++ cl_field n).
  rewrite take_app_length' by done. rewrite drop_app_length' by done.
  rewrite (proj2 (Nat.leb_le _ _)) by (rewrite length_app; cbn; lia).
  change (eq_ignore_ascii_case (str "Content-Length:") CL_PREFIX) with true. cbn [andb].
  unfold cl_field, pad_right. f_equal. apply trim_digits.
  - by repeat constructor.
  - by apply Forall_replicate.
  - apply decimal_digits.
  - apply decimal_nonempty.
Qed.

(** A line whose first byte is no C is not the content-length line. *)
Lemma cl_value_other c l : to_ascii_lowercase c ≠ x63 → cl_value (c :: l) = None.
Proof.
  intros Hc. unfold cl_value.
  destruct (_ && _) eqn:E; [|done]. apply andb_true_iff in E as [_ E].
  unfold eq_ignore_ascii_case in E. apply bool_decide_eq_true in E.
  change CL_PREFIX with (x63 :: str "ontent-length:") in E. cbn [length take fmap list_fmap] in E.
  injection E as E _. by change (to_ascii_lowercase x63) with x63 in E.
Qed.

(** * Reading a frame back *)

(** The header lines of the builder, as a parser has to see them: UTF-8, and
    none of them a content-length line. *)
Definition readable_lines (b : EnvelopeSpecBuilder) : Prop :=
  Forall (λ l, utf8_valid l = true ∧ cl_value l = None) (header_lines b).

Lemma builder_message_header b n :
  clean_builder b = true → readable_lines b →
  0 ≤ n → zlen (header_text b) + 64 + n < U64 → n < 10 ^ 12 →
  message_header (header_text b ++ cl_field n) n.
Proof.
  intros Hc%clean_header_lines Hr Hn Hsz Hw.
  assert (zlen (cl_field n) = 12) as Hcl.
  { unfold cl_field. apply zlen_pad_right.
    pose proof (decimal_length n 12 ltac:(cbn; lia) ltac:(lia)). unfold zlen. lia. }
  split.
  - unfold header_text. rewrite <- !app_assoc, find_sep_lines by done.
    rewrite (app_assoc CL_NAME). unfold HEADER_SEP at 1. cbn [app CRLF].
    rewrite find_sub_skip.
    2:{ rewrite not_elem_of_app. split; [compute_done|]. by apply cl_field_not_elem. }
    rewrite <- (app_nil_r HEADER_SEP) at 1. rewrite find_sub_here.
    cbn [fmap option_fmap option_map]. by rewrite Nat.add_0_r, <- length_app.
  - unfold header_text. rewrite <- !app_assoc, utf8_valid_app.
    + rewrite utf8_valid_app by done. rewrite utf8_valid_app; [done|].
      by apply utf8_valid_ascii, cl_field_ascii.
    + apply utf8_valid_crlf_lines. eapply Forall_impl; [exact Hr|]. by intros ? [? _].
  - unfold header_text. rewrite <- !app_assoc, lines_crlf_lines by done.
    rewrite find_map_app by (eapply Forall_impl; [exact Hr|]; by intros ? [_ ?]).
    unfold HEADER_SEP. rewrite (app_assoc CL_NAME), lines_crlf.
    2:{ rewrite not_elem_of_app. split; [compute_done|]. by apply cl_field_not_elem. }
    cbn [find_map]. rewrite cl_value_field. cbn [mbind option_bind].
    apply parse_usize_decimal. unfold U64. lia.
  - len.
Qed.

Section roundtrip.
Context `{BuildProfile} (b : EnvelopeSpecBuilder) (body : bytes).
Hypothesis Hclean : clean_builder b = true.
Hypothesis Hread : readable_lines b.
Hypothesis Hbody : zlen body < 10 ^ 12.
Hypothesis Hhead : zlen (header_text b) < 2 ^ 32.

Lemma request_frame_message :
  request_frame 12 (header_text b) [] body
  = (header_text b ++ cl_field (zlen body)) ++ HEADER_SEP ++ body.
Proof. unfold request_frame, cl_field. by rewrite app_nil_l, <- app_assoc. Qed.

Lemma request_frame_header : message_header (header_text b ++ cl_field (zlen body)) (zlen body).
Proof using Hclean Hread Hbody Hhead.
  apply builder_message_header; try done; unfold U64; len.
Qed.

Lemma frame_read_whole rest :
  body_if_complete (request_frame 12 (header_text b) [] body ++ rest) = Ret (Some body).
Proof using Hclean Hread Hbody Hhead.
  rewrite request_frame_message, <- !app_assoc, app_assoc.
  apply body_if_complete_whole, request_frame_header.
Qed.

Lemma frame_read_partial k :
  (k < length (request_frame 12 (header_text b) [] body))%nat →
  body_if_complete (take k (request_frame 12 (header_text b) [] body)) = Ret None.
Proof using Hclean Hread Hbody Hhead.
  rewrite request_frame_message. apply body_if_complete_partial, request_frame_header.
Qed.
End roundtrip.

(** What reads as [body] in front of anything, and as nothing until its last
    byte is there. *)
Definition reads_as `{BuildProfile} (frame body : bytes) : Prop :=
  (∀ rest, body_if_complete (frame ++ rest) = Ret (Some body)) ∧
  ∀ k, (k < length frame)%nat → body_if_complete (take k frame) = Ret None.

(** C17: what the envelope writes is a message. For a clean builder (no [<] and
    no line ending in the method, the path, the host, the headers and the
    authorization) whose header lines are UTF-8 and none of them another
    content-length line, and whose request and maximum stay below 2^32
    together, take the template [compile] gives and splice any transactions
    into it, one after the other. Each is either refused because its encoding
    is longer than the maximum, or comes out as a request in which the engine's
    own parser finds exactly the body template with the encoded transaction in
    it, also when more bytes follow, and nothing as long as a byte is missing. *)
Theorem frame_roundtrip `{BuildProfile} base64 b t :
  (∀ tx, zlen (base64 tx) = needed_len tx) → clean_builder b = true → readable_lines b →
  zlen (es_bytes (build b)) + sb_max_body b < U32 →
  compile (build b) = Ret (Ok t) →
  ∃ k, find_unique (sb_body_tpl b) BODY_SENTINEL = Some k ∧
    let b1 := take k (sb_body_tpl b) in
    let b2 := drop (k + 8) (sb_body_tpl b) in
    ∀ txs, ∃ rs, splice_all base64 t txs = Ret rs ∧
      Forall2 (λ tx r,
        match r with
        | Ok frame => needed_len tx ≤ sb_max_body b ∧ reads_as frame (b1 ++ base64 tx ++ b2)
        | Err e => sb_max_body b < needed_len tx ∧ e = BodyTooLarge (needed_len tx) (sb_max_body b)
        end) txs rs.
Proof.
  intros Hb64 Hc Hr Hsz Ht. destruct (compile_Ok_template b t Hc Ht) as (k&Hm&Ek&Ej).
  destruct (envelope_serves base64 b k Hb64 Hc Hm Ek Ej Hsz) as (Htpl&t'&Ht'&Hs).
  replace t' with t in Hs by congruence.
  exists k. split; [done|]. intros b1 b2 txs. eexists. split; [apply Hs|].
  apply Forall2_fmap_r, Forall_Forall2_diag, Forall_true. intros tx.
  cbn. unfold splice_result. destruct (Z.ltb_spec (sb_max_body b) (needed_len tx)) as [Hb|Hb]; [done|].
  split; [done|]. pose proof (Hb64 tx) as Hl. rewrite build_bytes, Htpl in Hsz. fold b1 b2 in Hsz.
  unfold body_of, U32 in *.
  split; [intros rest; apply frame_read_whole|intros j; apply frame_read_partial]; try done; fold b1 b2; len.
Qed.

(** A small request, for the witnesses. *)
Definition sample_builder : EnvelopeSpecBuilder :=
  auth_placement (send_transaction (str "/") (str "h") 64) (AuthHeader (str "k") (str "v")).

Lemma sample_readable : readable_lines sample_builder.
Proof. repeat constructor. Qed.

Lemma frame_roundtrip_witness :
  ∃ t frame, @compile false (build sample_builder) = Ret (Ok t) ∧
    @splice_all false sample_base64 t [str "a tx"; str "a transaction that is longer than the 48 bytes it may have"]
      = Ret [Ok frame; Err (BodyTooLarge 80 64)] ∧
    @body_if_complete false (frame ++ str "more")
      = Ret (Some (take 62 DEFAULT_BODY ++ sample_base64 (str "a tx") ++ drop 70 DEFAULT_BODY)).
Proof.
  destruct (@compile false (build sample_builder)) as [[t|]| |] eqn:Et; [|discriminate Et..].
  destruct (@frame_roundtrip false sample_base64 sample_builder t sample_base64_length) as (k&Hk&Hs);
    [reflexivity|exact sample_readable|compute_done|exact Et|].
  assert (k = 62%nat) as -> by (vm_compute in Hk; congruence).
  destruct (Hs [str "a tx"; str "a transaction that is longer than the 48 bytes it may have"])
    as (rs&Hrs&HF).
  destruct (Forall2_cons_inv_l _ _ _ _ HF) as (r1&rs'&Hr1&HF'&->).
  destruct (Forall2_cons_inv_l _ _ _ _ HF') as (r2&rs''&Hr2&Hnil&->).
  apply Forall2_nil_inv_l in Hnil as ->.
  destruct r1 as [frame|e]; [|destruct Hr1 as [Hr1 _]; discriminate Hr1].
  destruct r2 as [frame2|e]; [destruct Hr2 as [Hr2 _]; destruct Hr2; reflexivity|].
  destruct Hr2 as [_ ->]. exists t, frame. split; [reflexivity|]. split; [exact Hrs|].
  apply Hr1.
Defined.
