(* ===== verification/Base64.v ===== *)
(** The standard base64 encoding of RFC 4648 with padding. The crate takes it
    from base64_simd, which the model has as a parameter; this is the function
    that parameter is instantiated with on concrete inputs. *)
From S2P Require Import Prelude Str Types Envelope.
From stdpp Require Import options.

Definition b64_alphabet : bytes :=
  str "ABCDEFGHIJKLMNOPQRSTUVWXYZabcdefghijklmnopqrstuvwxyz0123456789+/".
Definition b64_char (n : Z) : byte := default x3d (b64_alphabet !! Z.to_nat (n mod 64)).

Fixpoint rfc4648 (l : bytes) : bytes :=
  match l with
  | a :: b :: c :: r =>
      let n := b2z a * 65536 + b2z b * 256 + b2z c in
      [b64_char (n / 262144); b64_char (n / 4096); b64_char (n / 64); b64_char n] ++ rfc4648 r
  | [a; b] =>
      let n := b2z a * 65536 + b2z b * 256 in
      [b64_char (n / 262144); b64_char (n / 4096); b64_char (n / 64); x3d]
  | [a] =>
      let n := b2z a * 65536 in
      [b64_char (n / 262144); b64_char (n / 4096); x3d; x3d]
  | [] => []
  end.

Example rfc4648_foobar : rfc4648 (str "foobar") = str "Zm9vYmFy".
Proof. reflexivity. Qed.
Example rfc4648_padding : rfc4648 (str "fo") = str "Zm8=" ∧ rfc4648 (str "f") = str "Zg==".
Proof. split; reflexivity. Qed.

Lemma needed_len_cons3 a b c l : needed_len (a :: b :: c :: l) = 4 + needed_len l.
Proof.
  unfold needed_len. rewrite !zlen_cons.
  replace (1 + (1 + (1 + zlen l)) + 2) with (zlen l + 2 + 1 * 3) by lia.
  rewrite Z.div_add by lia. lia.
Qed.

(** The length the crate reserves for the encoding is its exact length. *)
Lemma rfc4648_length l : zlen (rfc4648 l) = needed_len l.
Proof.
  remember (length l) as n eqn:Hn. revert l Hn.
  induction (lt_wf n) as [n _ IH]; intros l ->.
  destruct l as [|a [|b [|c l]]]; [reflexivity..|].
  rewrite needed_len_cons3. cbn [rfc4648]. rewrite zlen_app, (IH (length l)); [reflexivity| |done].
  simpl. lia.
Qed.
