(* ===== verification/Registry.v ===== *)
(** The provider presets, provider/registry.rs: thirteen HTTP endpoints and
    three QUIC endpoints. *)
From S2P Require Import Prelude Str Types Envelope SpecBuilder Http Response Framing Base64.
From stdpp Require Import options.

Definition MAX_BODY : Z := 1644.

Definition http_cfg (host : bytes) (port : Z) (path server_name : bytes) (auth : HttpAuth)
    (tpl : bytes) : ProviderConfig :=
  mkProviderConfig Http (mkHttpEndpoint host port path server_name) None None None
    auth MAX_BODY tpl JsonRpcCodec.

Definition jito_transaction (token : bytes) : ProviderConfig :=
  let host := str "mainnet.block-engine.jito.wtf" in
  let body := json "{'jsonrpc':'2.0','id':1,'method':'sendTransaction','params':['<<BODY>>',{'encoding':'base64'}]}" in
  http_cfg host 443 (str "/api/v1/transactions?uuid=" ++ token) host (HttpAuth_Header (str "x-jito-auth") token) body.

Definition jito_bundle (token : bytes) : ProviderConfig :=
  let host := str "mainnet.block-engine.jito.wtf" in
  let body := json "{'jsonrpc':'2.0','id':1,'method':'sendBundle','params':[['<<BODY>>'],{'encoding':'base64'}]}" in
  http_cfg host 443 (str "/api/v1/bundles?uuid=" ++ token) host (HttpAuth_Header (str "x-jito-auth") token) body.

Definition nextblock (token : bytes) : ProviderConfig :=
  let host := str "fra.nextblock.io" in
  let body := json "{'transaction':{'content':'<<BODY>>'},'frontRunningProtection':false}" in
  http_cfg host 443 (str "/api/v2/submit") host (HttpAuth_Header (str "Authorization") token) body.

Definition zeroslot (token : bytes) : ProviderConfig :=
  let host := str "de.0slot.trade" in
  let body := json "{'jsonrpc':'2.0','id':1,'method':'sendTransaction','params':['<<BODY>>',{'encoding':'base64','skipPreflight':true}]}" in
  http_cfg host 443 (str "/") host (HttpAuth_UrlParam (str "api-key") token) body.

Definition temporal (token : bytes) : ProviderConfig :=
  let host := str "ny.temporal.xyz" in
  let body := json "{'jsonrpc':'2.0','id':1,'method':'sendTransaction','params':['<<BODY>>',{'encoding':'base64'}]}" in
  http_cfg host 443 (str "/") host (HttpAuth_UrlParam (str "c") token) body.

Definition bloxroute (token : bytes) : ProviderConfig :=
  let host := str "virginia.solana.dex.blxrbdn.com" in
  let body := json "{'transaction':{'content':'<<BODY>>'},'frontRunningProtection':false,'useStakedRPCs':true}" in
  http_cfg host 443 (str "/api/v2/submit") host (HttpAuth_Header (str "Authorization") token) body.

Definition node1 (token : bytes) : ProviderConfig :=
  let host := str "rpc.node1.io" in
  let body := json "{'jsonrpc':'2.0','id':1,'method':'sendTransaction','params':['<<BODY>>',{'encoding':'base64','skipPreflight':true}]}" in
  http_cfg host 443 (str "/") host (HttpAuth_Header (str "api-key") token) body.

Definition flashblock (token : bytes) : ProviderConfig :=
  let host := str "fra.flashblock.io" in
  let body := json "{'transactions':['<<BODY>>']}" in
  http_cfg host 443 (str "/api/v2/submit-batch") host (HttpAuth_Header (str "Authorization") token) body.

Definition blockrazor (token : bytes) : ProviderConfig :=
  let host := str "solana.blockrazor.xyz" in
  let body := json "{'transaction':'<<BODY>>','mode':'fast'}" in
  http_cfg host 443 (str "/sendTransaction") host (HttpAuth_Header (str "apikey") token) body.

Definition astralane (token : bytes) : ProviderConfig :=
  let host := str "solana-ny.astralane.io" in
  let body := json "{'jsonrpc':'2.0','id':1,'method':'sendTransaction','params':['<<BODY>>',{'encoding':'base64','skipPreflight':true},{'mevProtect':false}]}" in
  http_cfg host 443 (str "/") host (HttpAuth_Header (str "api_key") token) body.

Definition stellium (token : bytes) : ProviderConfig :=
  let host := str "tx.stellium.io" in
  let body := json "{'jsonrpc':'2.0','id':1,'method':'sendTransaction','params':['<<BODY>>',{'encoding':'base64'}]}" in
  http_cfg host 443 (str "/" ++ token) host HttpAuth_None body.

Definition lightspeed (token : bytes) : ProviderConfig :=
  let host := str "solana.lightspeed.supply" in
  let body := json "{'jsonrpc':'2.0','id':1,'method':'sendTransaction','params':['<<BODY>>',{'encoding':'base64','skipPreflight':true,'preflightCommitment':'processed','maxRetries':0}]}" in
  http_cfg host 443 (str "/") host (HttpAuth_UrlParam (str "api_key") token) body.

Definition helius (token : bytes) : ProviderConfig :=
  let host := str "mainnet.helius-rpc.com" in
  let body := json "{'jsonrpc':'2.0','id':1,'method':'sendTransaction','params':['<<BODY>>',{'encoding':'base64','skipPreflight':true,'maxRetries':0}]}" in
  http_cfg host 443 (str "/") host (HttpAuth_UrlParam (str "api-key") token) body.

Definition quic_cfg (host server_name : bytes) (addr : SocketAddr) (auth : QuicAuth)
    (profile : QuicProfile) : ProviderConfig :=
  mkProviderConfig Quic (mkHttpEndpoint host (addr_port addr) [] server_name)
    (Some (mkQuicEndpoint addr server_name)) (Some profile) (Some auth)
    HttpAuth_None MAX_BODY [] JsonRpcCodec.

Definition soyas (addr : SocketAddr) (keypair : bytes) : ProviderConfig :=
  quic_cfg (str "soyas-landing.solana.io") (str "soyas-landing") addr
    (Ed25519Keypair keypair) QuicProfile_soyas.

Definition speedlanding (addr : SocketAddr) (keypair : bytes) : ProviderConfig :=
  quic_cfg (str "speed-landing.solana.io") (str "speed-landing") addr
    (Ed25519Keypair keypair) QuicProfile_speedlanding.

Definition falcon_quic (addr : SocketAddr) (api_key : bytes) : ProviderConfig :=
  quic_cfg (str "fra.falcon.wtf") (str "falcon") addr
    (FalconApiKey api_key) QuicProfile_falcon.

(** All HTTP presets. *)
Definition http_presets : list (bytes → ProviderConfig) :=
  [jito_transaction; jito_bundle; nextblock; zeroslot; temporal; bloxroute; node1; flashblock; blockrazor; astralane; stellium; lightspeed; helius].

(** * Every preset gives a request *)

(** The two halves of a body template, around its placeholder. *)
Definition body_head (p : ProviderConfig) : bytes :=
  let tpl := sb_body_tpl (envelope_builder p) in take (default O (find_unique tpl BODY_SENTINEL)) tpl.
Definition body_tail (p : ProviderConfig) : bytes :=
  drop (length (body_head p) + length BODY_SENTINEL) (sb_body_tpl (envelope_builder p)).

(** Text that holds the token. *)
Definition holds (t l : bytes) : Prop := ∃ a b, l = a ++ t ++ b.

Lemma holds_cons t x l : holds t l → holds t (x :: l).
Proof. intros (a&b&->). by exists (x :: a), b. Qed.

Lemma holds_app t a l : holds t l → holds t (a ++ l).
Proof. intros (x&y&->). exists (a ++ x), y. by rewrite <- app_assoc. Qed.

Lemma holds_here t l : holds t (t ++ l).
Proof. by exists [], l. Qed.

(** A configuration that gives requests, with a header and a template of up to
    [n] bytes. *)
Record config_ok (p : ProviderConfig) (n : Z) : Prop := {
  co_clean : clean_builder (envelope_builder p) = true;
  co_readable : readable_lines (envelope_builder p);
  co_tpl : sb_body_tpl (envelope_builder p) = body_head p ++ BODY_SENTINEL ++ body_tail p;
  co_once : is_Some (find_unique (sb_body_tpl (envelope_builder p)) BODY_SENTINEL);
  co_no_cl : find_sub CL_SENTINEL (sb_body_tpl (envelope_builder p)) = None;
  co_max : sb_max_body (envelope_builder p) = MAX_BODY;
  co_size : zlen (header_text (envelope_builder p)) + zlen (sb_body_tpl (envelope_builder p)) ≤ n;
}.

(** What the presets have in common, whatever the token. *)
Record preset_ok (f : bytes → ProviderConfig) (token : bytes) : Prop := {
  po_own : pc_body_template (f token) ≠ [];
  po_config : config_ok (f token) (1000 + 2 * zlen token);
  po_auth : holds token (header_text (envelope_builder (f token)));
}.

(** A line that starts with a literal: UTF-8 when the rest is, and no
    content-length line when the literal's first letter is no C. *)
Lemma line_readable a l :
  utf8_valid a = true → utf8_valid l = true →
  match a with c :: _ => to_ascii_lowercase c ≠ x63 | [] => False end →
  utf8_valid (a ++ l) = true ∧ cl_value (a ++ l) = None.
Proof.
  intros Ha Hl Hc. rewrite utf8_valid_app by done. split; [done|].
  destruct a as [|c a]; [done|]. by apply cl_value_other.
Qed.

Ltac known_lengths :=
  repeat match goal with
  | |- context [zlen (str ?s)] =>
      let v := eval vm_compute in (zlen (str s)) in change (zlen (str s)) with v
  | |- context [zlen (json ?s)] =>
      let v := eval vm_compute in (zlen (json s)) in change (zlen (json s)) with v
  end.

(** The builder of a provider with a body template of its own. *)
Definition provider_builder (p : ProviderConfig) : EnvelopeSpecBuilder :=
  mkEnvelopeSpecBuilder (str "POST") (ep_path (pc_endpoint p)) (ep_server_name (pc_endpoint p))
    [] (pc_body_template p) (pc_max_body p) (placement_of (pc_auth p)).

Lemma envelope_builder_own p : pc_body_template p ≠ [] → envelope_builder p = provider_builder p.
Proof. unfold envelope_builder, provider_builder. by destruct (pc_body_template p). Qed.

(** Goals on a preset: only its token is left symbolic. *)
Ltac open_preset :=
  unfold http_cfg, provider_builder, header_text, header_lines, crlf_lines, build_path,
    auth_lines, clean_builder, clean_auth, readable_lines, placement_of;
  cbn [sb_http_method sb_base_path sb_host sb_extra_headers sb_body_tpl sb_max_body sb_auth
       pc_endpoint pc_auth pc_body_template pc_max_body ep_path ep_server_name
       fmap list_fmap concat forallb app].
Ltac solve_utf8 Hu :=
  repeat (rewrite utf8_valid_app by (exact Hu || reflexivity)); (exact Hu || reflexivity).
Ltac solve_lines Hu :=
  repeat apply Forall_cons_2; try apply Forall_nil_2;
  (split; reflexivity) || (apply line_readable; [reflexivity | solve_utf8 Hu | discriminate]).

Ltac solve_holds :=
  rewrite <- !app_assoc; cbn [app str String.list_byte_of_string];
  repeat first [apply holds_here | apply holds_app | apply holds_cons].
Ltac solve_preset Hc Hu :=
  match goal with |- preset_ok ?f _ => unfold f end;
  split; [discriminate|split|]; unfold body_tail, body_head;
  rewrite ?envelope_builder_own by discriminate; open_preset;
  [ rewrite ?is_clean_app, ?Hc; reflexivity
  | solve_lines Hu
  | reflexivity
  | eexists; reflexivity
  | reflexivity
  | reflexivity
  | repeat rewrite ?zlen_app, ?zlen_nil; known_lengths; len
  | solve_holds ].

Lemma presets_ok token :
  is_clean token = true → utf8_valid token = true →
  Forall (λ f, preset_ok f token) http_presets.
Proof.
  intros Hc Hu. unfold http_presets. repeat apply Forall_cons_2; try apply Forall_nil_2.
  all: solve_preset Hc Hu.
Qed.

(** The largest transaction fits the body placeholder exactly. *)
Lemma needed_len_max tx : zlen tx ≤ MAX_TX_LEN → needed_len tx ≤ MAX_BODY.
Proof.
  intros Htx. unfold needed_len, MAX_BODY, MAX_TX_LEN in *.
  assert ((zlen tx + 2) / 3 < 412); [|lia].
  apply Z.div_lt_upper_bound; lia.
Qed.

Lemma config_layout p n :
  config_ok p n → n ≤ 2 ^ 32 - 2000 →
  request_layout (build_envelope p) (mkContentLengthSpec CL_SENTINEL 12)
    (header_text (envelope_builder p)) [] (body_head p) (body_tail p).
Proof.
  intros [Hc _ Htpl Honce Hcl Hmax Hsz] Hn. unfold build_envelope.
  apply build_layout; try done.
  - by rewrite Hmax.
  - rewrite build_bytes, Hmax. unfold MAX_BODY, U32. len.
Qed.

(** A job's frame for a configuration. *)
Definition preset_frame (base64 : bytes → bytes) (p : ProviderConfig) (tx : bytes) : bytes :=
  request_frame 12 (header_text (envelope_builder p)) [] (body_head p ++ base64 tx ++ body_tail p).

(** Any transactions of up to [MAX_TX_LEN] bytes make requests that the
    message parser reads back. *)
Lemma config_requests `{BuildProfile} base64 p n txs :
  (∀ tx, zlen (base64 tx) = needed_len tx) → config_ok p n → n ≤ 2 ^ 32 - 2000 →
  Forall (λ tx, zlen tx ≤ MAX_TX_LEN) txs →
  ∃ t, compile (build_envelope p) = Ret (Ok t) ∧
    splice_all base64 t txs = Ret ((λ tx, Ok (preset_frame base64 p tx)) <$> txs) ∧
    Forall (λ tx, body_if_complete (preset_frame base64 p tx)
                  = Ret (Some (body_head p ++ base64 tx ++ body_tail p))) txs.
Proof.
  intros Hb64 Hok Hn Htxs. pose proof (config_layout p n Hok Hn) as L.
  destruct Hok as [Hcb Hr Htpl _ _ Hmax Hsz].
  destruct (compile_request _ _ _ _ _ _ L) as (t&Ht&Lt).
  change (bp_max_len (es_body (build_envelope p))) with (sb_max_body (envelope_builder p)) in Lt.
  rewrite Hmax in Lt.
  assert (∀ tx, zlen tx ≤ MAX_TX_LEN →
            needed_len tx ≤ MAX_BODY ∧
            zlen (body_of base64 (body_head p) (body_tail p) tx) < 2 ^ 32) as Hsmall.
  { intros tx Htx%needed_len_max. split; [done|]. unfold body_of. rewrite Htpl in Hsz.
    pose proof (Hb64 tx). unfold MAX_BODY in *. len. }
  exists t. split_and!; [done| |].
  - apply (splice_all_frames base64 t 12 MAX_BODY); [done|].
    eapply Forall_impl; [exact Htxs|]. intros tx [Hneed Hs]%Hsmall.
    split; [rewrite Hb64; lia|]. unfold U64. lia.
  - eapply Forall_impl; [exact Htxs|]. intros tx [Hneed Hs]%Hsmall. unfold preset_frame.
    rewrite <- (app_nil_r (request_frame _ _ _ _)).
    apply frame_read_whole; try done; [unfold body_of in Hs; lia | len].
Qed.

(** C8: every HTTP preset works for every transaction. For any clean token
    (UTF-8, no [<], no line ending) its envelope compiles, and splicing any
    sequence of transactions of up to [MAX_TX_LEN] bytes into it succeeds
    each time, never panics, and gives requests that hold the token in the
    header and the encoded transaction in the body, with the length of that
    body as their content length: the crate's own message parser reads the
    body back from each of them. *)
Theorem registry_requests `{BuildProfile} base64 f token txs :
  (∀ tx, zlen (base64 tx) = needed_len tx) →
  f ∈ http_presets → is_clean token = true → utf8_valid token = true → zlen token ≤ 2 ^ 30 →
  Forall (λ tx, zlen tx ≤ MAX_TX_LEN) txs →
  holds token (header_text (envelope_builder (f token))) ∧
  pc_body_template (f token) = body_head (f token) ++ BODY_SENTINEL ++ body_tail (f token) ∧
  ∃ t, compile (build_envelope (f token)) = Ret (Ok t) ∧
    splice_all base64 t txs = Ret ((λ tx, Ok (preset_frame base64 (f token) tx)) <$> txs) ∧
    Forall (λ tx, body_if_complete (preset_frame base64 (f token) tx)
                  = Ret (Some (body_head (f token) ++ base64 tx ++ body_tail (f token)))) txs.
Proof.
  intros Hb64 Hf Hc Hu Htok Htxs.
  pose proof (presets_ok token Hc Hu) as Hok. rewrite Forall_forall in Hok.
  destruct (Hok f Hf) as [Hown Hcfg Hauth]. split; [done|]. split.
  - rewrite <- (co_tpl _ _ Hcfg). by rewrite envelope_builder_own.
  - eapply config_requests; [done..|lia|done].
Qed.

Lemma registry_requests_witness :
  Forall (λ tx, @body_if_complete true (preset_frame rfc4648 (helius (str "key-1")) tx)
                = Ret (Some (body_head (helius (str "key-1")) ++ rfc4648 tx
                             ++ body_tail (helius (str "key-1"))))) [str "tx"; str "another"].
Proof.
  refine (match @registry_requests true rfc4648 helius (str "key-1") [str "tx"; str "another"]
            rfc4648_length _ _ _ _ _ with
          | conj _ (conj _ (ex_intro _ _ (conj _ (conj _ H)))) => H
          end).
  - apply list_elem_of_lookup. by exists 12%nat.
  - reflexivity.
  - reflexivity.
  - compute_done.
  - repeat constructor; compute_done.
Defined.
