(* ===== verification/Ring.v ===== *)
(** The single-producer single-consumer channel of rt/spsc.rs, over the ring
    buffer of the rtrb crate, and the bounded channel of crossbeam. Both
    crates are parameters of the model: a type of bounded queues with the
    laws their documentation gives. *)
From S2P Require Import Prelude.
From stdpp Require Import options.

(** * Bounded queues *)

(** [bq_new a n] is a queue for [n] elements at the address [a]: its two ends
    are handed out separately and share the allocation, so the address is what
    tells one queue from another. *)
Class BoundedQueue (Q : Type → Type) := {
  bq_new : ∀ {A}, nat → nat → Q A;
  bq_push : ∀ {A}, A → Q A → option A * Q A;
  bq_pop : ∀ {A}, Q A → option A * Q A;
  bq_is_empty : ∀ {A}, Q A → bool;
}.

(** What a queue holds, oldest first, how much it can hold, and where it is. *)
Class QueueView (Q : Type → Type) := {
  contents : ∀ {A}, Q A → list A;
  capacity : ∀ {A}, Q A → nat;
  address : ∀ {A}, Q A → nat;
}.

Class QueueLaws (Q : Type → Type) `{BoundedQueue Q, QueueView Q} : Prop := {
  new_contents : ∀ A a n, contents (bq_new a n : Q A) = [];
  new_capacity : ∀ A a n, capacity (bq_new a n : Q A) = n;
  new_address : ∀ A a n, address (bq_new a n : Q A) = a;
  push_room : ∀ A (x : A) (q : Q A), (length (contents q) < capacity q)%nat →
    (bq_push x q).1 = None ∧ contents (bq_push x q).2 = contents q ++ [x];
  push_full : ∀ A (x : A) (q : Q A), (capacity q ≤ length (contents q))%nat →
    bq_push x q = (Some x, q);
  push_capacity : ∀ A (x : A) (q : Q A), capacity (bq_push x q).2 = capacity q;
  push_address : ∀ A (x : A) (q : Q A), address (bq_push x q).2 = address q;
  pop_some : ∀ A (x : A) l (q : Q A), contents q = x :: l →
    (bq_pop q).1 = Some x ∧ contents (bq_pop q).2 = l;
  pop_none : ∀ A (q : Q A), contents q = [] → bq_pop q = (None, q);
  pop_capacity : ∀ A (q : Q A), capacity (bq_pop q).2 = capacity q;
  pop_address : ∀ A (q : Q A), address (bq_pop q).2 = address q;
  is_empty_spec : ∀ A (q : Q A), bq_is_empty q = true ↔ contents q = [];
}.

(** A list with a bound is such a queue. *)
Record list_queue (A : Type) := mkQueueAt { lq_address : nat; lq_items : list A; lq_cap : nat }.
Arguments mkQueueAt {A}.
Arguments lq_address {A}.
Arguments lq_items {A}.
Arguments lq_cap {A}.
Abbreviation mkListQueue := (mkQueueAt 0).

#[export] Instance list_queue_ops : BoundedQueue list_queue := {
  bq_new A a n := mkQueueAt a [] n;
  bq_push A x q :=
    if decide (length (lq_items q) < lq_cap q)%nat
    then (None, mkQueueAt (lq_address q) (lq_items q ++ [x]) (lq_cap q))
    else (Some x, q);
  bq_pop A q :=
    match lq_items q with
    | x :: l => (Some x, mkQueueAt (lq_address q) l (lq_cap q))
    | [] => (None, q)
    end;
  bq_is_empty A q := match lq_items q with [] => true | _ => false end;
}.
#[export] Instance list_queue_view : QueueView list_queue := {
  contents A q := lq_items q;
  capacity A q := lq_cap q;
  address A q := lq_address q;
}.
#[export] Instance list_queue_laws : QueueLaws list_queue.
Proof.
  split; intros; unfold contents, capacity, address, bq_push, bq_pop, bq_is_empty in *; cbn in *;
    try done; try (destruct q as [? [|] ?]; cbn in *; by simplify_eq).
  - by rewrite decide_True.
  - rewrite decide_False by lia. done.
  - by case_decide.
  - by case_decide.
Qed.

(** * The channel of rt/spsc.rs *)

(** The ring and the notify counter its two ends share. *)
Record Spsc (Q : Type → Type) (A : Type) := mkSpsc {
  spsc_inner : Q A;
  spsc_counter : Z;
}.
Arguments mkSpsc {Q A}.
Arguments spsc_inner {Q A}.
Arguments spsc_counter {Q A}.

Section spsc.
Context `{BoundedQueue Q} {A : Type}.

Definition channel (a capacity : nat) : Spsc Q A := mkSpsc (bq_new a capacity) 0.

(** [counter.fetch_add(1)]: atomics wrap around. *)
Definition notify (c : Z) : Z := (c + 1) mod U64.

Definition try_push (x : A) (s : Spsc Q A) : result unit A * Spsc Q A :=
  match bq_push x (spsc_inner s) with
  | (None, q) => (Ok (), mkSpsc q (notify (spsc_counter s)))
  | (Some v, q) => (Err v, mkSpsc q (spsc_counter s))
  end.

Definition try_pop (s : Spsc Q A) : option A * Spsc Q A :=
  let '(r, q) := bq_pop (spsc_inner s) in (r, mkSpsc q (spsc_counter s)).

Definition is_empty (s : Spsc Q A) : bool := bq_is_empty (spsc_inner s).
End spsc.

Definition items {Q A} `{QueueView Q} (s : Spsc Q A) : list A := contents (spsc_inner s).
Definition room {Q A} `{QueueView Q} (s : Spsc Q A) : nat := capacity (spsc_inner s).

(** [monitor_addr]: the ring and its counter are allocated together, and both
    ends give the same address. *)
Definition monitor_addr {Q A} `{QueueView Q} (s : Spsc Q A) : nat := address (spsc_inner s).

Section spsc_lemmas.
Context {Q : Type → Type} {BQ : BoundedQueue Q} {QV : QueueView Q} {QL : QueueLaws Q}.
Context {A : Type}.
Implicit Types (x : A) (s : Spsc Q A).

Lemma channel_items a n : items (channel a n : Spsc Q A) = [].
Proof using QL. apply new_contents. Qed.

Lemma channel_room a n : room (channel a n : Spsc Q A) = n.
Proof using QL. apply new_capacity. Qed.

Lemma channel_addr a n : monitor_addr (channel a n : Spsc Q A) = a.
Proof using QL. apply new_address. Qed.

Lemma try_push_room x s :
  (length (items s) < room s)%nat →
  (try_push x s).1 = Ok () ∧ items (try_push x s).2 = items s ++ [x] ∧
  spsc_counter (try_push x s).2 = notify (spsc_counter s).
Proof using QL.
  intros Hr. destruct (push_room _ x (spsc_inner s) Hr) as [H1 H2].
  unfold try_push. destruct (bq_push x (spsc_inner s)) as [o q]. cbn in *. by subst.
Qed.

Lemma try_push_full x s :
  (room s ≤ length (items s))%nat → try_push x s = (Err x, s).
Proof using QL.
  intros Hr. unfold try_push. rewrite push_full by done. by destruct s.
Qed.

Lemma try_push_room_eq x s : room (try_push x s).2 = room s.
Proof using QL.
  unfold try_push, room. pose proof (push_capacity _ x (spsc_inner s)) as Hc.
  destruct (bq_push x (spsc_inner s)) as [[|] q]; done.
Qed.

Lemma try_push_addr x s : monitor_addr (try_push x s).2 = monitor_addr s.
Proof using QL.
  unfold try_push, monitor_addr. pose proof (push_address _ x (spsc_inner s)) as Hc.
  destruct (bq_push x (spsc_inner s)) as [[|] q]; done.
Qed.

(** What a push does, in one statement. *)
Lemma try_push_items x s :
  items (try_push x s).2
  = items s ++ (if (length (items s) <? room s)%nat then [x] else []).
Proof using QL.
  destruct (Nat.ltb_spec (length (items s)) (room s)) as [Hr|Hr].
  - by destruct (try_push_room x s Hr) as (_&?&_).
  - by rewrite try_push_full, app_nil_r.
Qed.

Lemma try_push_ok x s : is_ok (try_push x s).1 = (length (items s) <? room s)%nat.
Proof using QL.
  destruct (Nat.ltb_spec (length (items s)) (room s)) as [Hr|Hr].
  - by destruct (try_push_room x s Hr) as (->&_&_).
  - by rewrite try_push_full.
Qed.

(** A push moves the counter exactly when the value goes in. *)
Lemma try_push_counter x s :
  spsc_counter (try_push x s).2
  = if is_ok (try_push x s).1 then notify (spsc_counter s) else spsc_counter s.
Proof. unfold try_push. by destruct (bq_push x (spsc_inner s)) as [[|] q]. Qed.

Lemma try_pop_cons x l s :
  items s = x :: l →
  (try_pop s).1 = Some x ∧ items (try_pop s).2 = l ∧ spsc_counter (try_pop s).2 = spsc_counter s.
Proof using QL.
  intros Hs. destruct (pop_some _ _ _ (spsc_inner s) Hs) as [H1 H2].
  unfold try_pop. destruct (bq_pop (spsc_inner s)) as [o q]. cbn in *. by subst.
Qed.

Lemma try_pop_nil s : items s = [] → try_pop s = (None, s).
Proof using QL. intros Hs. unfold try_pop. rewrite pop_none by done. by destruct s. Qed.

Lemma try_pop_room_eq s : room (try_pop s).2 = room s.
Proof using QL.
  unfold try_pop, room. pose proof (pop_capacity _ (spsc_inner s)) as Hc.
  by destruct (bq_pop (spsc_inner s)).
Qed.

Lemma try_pop_addr s : monitor_addr (try_pop s).2 = monitor_addr s.
Proof using QL.
  unfold try_pop, monitor_addr. pose proof (pop_address _ (spsc_inner s)) as Hc.
  by destruct (bq_pop (spsc_inner s)).
Qed.

Lemma try_pop_counter s : spsc_counter (try_pop s).2 = spsc_counter s.
Proof. unfold try_pop. by destruct (bq_pop (spsc_inner s)). Qed.

(** What a pop does, in one statement. *)
Lemma try_pop_items s : try_pop s = (head (items s), (try_pop s).2) ∧ items (try_pop s).2 = tail (items s).
Proof using QL.
  destruct (items s) as [|x l] eqn:E.
  - by rewrite try_pop_nil.
  - destruct (try_pop_cons x l s E) as (H1&H2&_).
    destruct (try_pop s) as [o s']. cbn in *. by subst.
Qed.

Lemma is_empty_items s : is_empty s = true ↔ items s = [].
Proof using QL. apply is_empty_spec. Qed.
End spsc_lemmas.

(** A run of pushes and pops on one channel. *)
Inductive spsc_op (A : Type) := OpPush (x : A) | OpPop.
Arguments OpPush {A} x.
Arguments OpPop {A}.

(** The values the pushes put in, and the values the pops gave. *)
Fixpoint spsc_run `{BoundedQueue Q} {A} (s : Spsc Q A) (ops : list (spsc_op A)) :
    list A * list A * Spsc Q A :=
  match ops with
  | [] => ([], [], s)
  | OpPush x :: ops' =>
      let '(r, s') := try_push x s in
      let '(ins, outs, s'') := spsc_run s' ops' in
      ((if is_ok r then x :: ins else ins), outs, s'')
  | OpPop :: ops' =>
      let '(r, s') := try_pop s in
      let '(ins, outs, s'') := spsc_run s' ops' in
      (ins, match r with Some x => x :: outs | None => outs end, s'')
  end.

(** What a run keeps: order, bound, address, and a counter that counts what
    went in. *)
Lemma spsc_run_spec `{QueueLaws Q} {A} (s : Spsc Q A) (ops : list (spsc_op A)) :
  (length (items s) ≤ room s)%nat → 0 ≤ spsc_counter s < U64 →
  let '(ins, outs, s') := spsc_run s ops in
  items s ++ ins = outs ++ items s' ∧ (length (items s') ≤ room s')%nat ∧
  room s' = room s ∧ monitor_addr s' = monitor_addr s ∧
  spsc_counter s' = (spsc_counter s + zlen ins) mod U64.
Proof.
  revert s. induction ops as [|[x|] ops IH]; intros s Hs Hc; cbn [spsc_run].
  - rewrite app_nil_r. change (zlen (@nil A)) with 0. rewrite Z.add_0_r, Z.mod_small by done. done.
  - pose proof (try_push_ok x s) as Hok. pose proof (try_push_items x s) as Hit.
    pose proof (try_push_room_eq x s) as Hro. pose proof (try_push_addr x s) as Ha.
    pose proof (try_push_counter x s) as Hct.
    destruct (try_push x s) as [r s']. cbn [fst snd] in *. rewrite Hok in *.
    specialize (IH s'). destruct (spsc_run s' ops) as [[ins outs] s''].
    rewrite Hit, Hro, Ha, Hct in IH. destruct (Nat.ltb_spec (length (items s)) (room s)).
    + destruct IH as (IHi&IHl&IHr&IHa&IHc); [rewrite length_app; cbn; lia|apply Z.mod_pos_bound; done|].
      rewrite <- app_assoc in IHi. split_and!; [done..|]. rewrite IHc, zlen_cons. unfold notify.
      rewrite Z.add_mod_idemp_l by done. f_equal. lia.
    + rewrite app_nil_r in IH. apply IH; [lia|done].
  - destruct (try_pop_items s) as [Hp Hit]. pose proof (try_pop_room_eq s) as Hro.
    pose proof (try_pop_addr s) as Ha. pose proof (try_pop_counter s) as Hct.
    destruct (try_pop s) as [r s']. cbn [snd] in *. injection Hp as ->.
    specialize (IH s'). destruct (spsc_run s' ops) as [[ins outs] s''].
    rewrite Hit, Hro, Ha, Hct in IH. destruct (items s) as [|x l]; cbn in *.
    + apply IH; [lia|done].
    + destruct IH as (IHi&IH); [lia|done|]. by rewrite IHi.
Qed.

(** C19: the channel is a bounded first-in first-out queue that announces what
    it is given. In any interleaving of pushes and pops, what was accepted is
    what was delivered followed by what is still inside, in order, and the
    channel never holds more than its capacity. From any point of the run on,
    the counter at the address both ends give, which a waiting consumer
    monitors, changes if and only if a value is accepted, as long as fewer than
    2^64 are: a consumer that found the ring empty and armed the monitor misses
    no push, and is not woken by pushes that were refused. *)
Theorem spsc_fifo `{QueueLaws Q} {A} a n (ops ops' : list (spsc_op A)) :
  let '(ins, outs, s) := spsc_run (channel a n : Spsc Q A) ops in
  let '(ins', outs', s') := spsc_run s ops' in
  ins ++ ins' = (outs ++ outs') ++ items s' ∧ (length (items s') ≤ n)%nat ∧
  monitor_addr s' = a ∧
  (zlen ins' < U64 → (spsc_counter s' = spsc_counter s ↔ ins' = [])).
Proof.
  pose proof (spsc_run_spec (channel a n : Spsc Q A) ops) as Hr1.
  destruct (spsc_run (channel a n) ops) as [[ins outs] s].
  rewrite channel_items, channel_room, channel_addr in Hr1. cbn [spsc_counter channel] in Hr1.
  destruct Hr1 as (Hi&Hl&Hr&Ha&Hc); [cbn; lia|done|].
  pose proof (spsc_run_spec s ops') as Hr2. destruct (spsc_run s ops') as [[ins' outs'] s'].
  destruct Hr2 as (Hi'&Hl'&Hr'&Ha'&Hc'); [done|rewrite Hc; by apply Z.mod_pos_bound|].
  cbn [app] in Hi. split_and!; [by rewrite Hi, <- !app_assoc, Hi'|congruence|congruence|].
  intros Hz. pose proof (zlen_nonneg ins'). rewrite Hc'. split; [|intros ->; change (zlen (@nil A)) with 0;
    rewrite Z.add_0_r, Hc, Z.mod_mod by done; done].
  assert (0 ≤ spsc_counter s < U64) as Hb by (rewrite Hc; by apply Z.mod_pos_bound).
  intros He. apply nil_length_inv, Nat2Z.inj. fold (zlen ins'). destruct (Z.lt_ge_cases (spsc_counter s + zlen ins') U64).
  - rewrite Z.mod_small in He by lia. lia.
  - replace (spsc_counter s + zlen ins') with (spsc_counter s + zlen ins' - U64 + 1 * U64) in He by lia.
    rewrite Z.mod_add, Z.mod_small in He by lia. lia.
Qed.

Lemma spsc_fifo_witness :
  spsc_run (channel 8 2 : Spsc list_queue nat) [OpPush 1; OpPush 2; OpPush 3; OpPop; OpPush 4]%nat
    = ([1; 2; 4], [1], mkSpsc (mkQueueAt 8 [2; 4] 2) 3)%nat ∧
  spsc_counter (mkSpsc (mkQueueAt 8 [2; 4]%nat 2) 3 : Spsc list_queue nat)
    ≠ spsc_counter (channel 8 2 : Spsc list_queue nat).
Proof.
  split; [reflexivity|].
  pose proof (spsc_fifo (Q := list_queue) 8 2 [] [OpPush 1; OpPush 2; OpPush 3; OpPop; OpPush 4]%nat)
    as (_&_&_&Hc).
  intros He. by apply Hc in He.
Defined.
