(* ===== verification/Backend.v ===== *)
(** The interface between the connections and the byte transports,
    backend/mod.rs, and the transport over plain sockets, backend/raw_libc.rs. *)
From S2P Require Import Prelude Types.
From stdpp Require Import options.

(** * backend/mod.rs *)

Inductive Wire :=
| Datagram (dst : SocketAddr)
| Stream.

(** [trait ByteIo]: [B] is the transport, [C] its [Conn], [W] the world both
    act on. A call gives its result and the transport and connection it
    leaves; [io_poll_recv] also gives the buffer. *)
Class ByteIo (W B C : Type) := {
  io_connect : B → bytes → M W (result C io_error * B);
  io_submit : B → C → Wire → bytes → M W (result unit io_error * (B * C));
  io_poll_recv : B → C → bytes → M W (result Z io_error * bytes * (B * C));
  io_drive : B → M W B;
}.

(** * Sockets *)

(** The system calls and the standard library's socket operations
    raw_libc.rs uses. A receiving call gives its return value and the bytes it
    wrote at the start of the buffer. *)
Class Libc (W : Type) := {
  tcp_connect : bytes → W → result Z io_error * W;
  set_nodelay : Z → W → result unit io_error * W;
  udp_bind : bytes → W → result Z io_error * W;
  set_nonblocking : Z → W → result unit io_error * W;
  libc_send : Z → bytes → W → Z * W;
  libc_recv : Z → nat → W → Z * bytes * W;
  libc_recvfrom : Z → nat → W → Z * bytes * W;
  libc_sendto : Z → bytes → bytes → Z → W → Z * W;
  libc_sendmsg : Z → bytes → Z → bytes → bytes → W → Z * W;
  errno : W → Z;
}.

Definition last_os_error `{Libc W} : M W io_error := λ w, Ret (Os (errno w), w).

(** The buffer after a call that wrote [data] at its start. *)
Definition written (data buf : bytes) : bytes := data ++ drop (length data) buf.

(** The little-endian bytes of an integer, as x86-64 stores it. *)
Fixpoint le_bytes (n : nat) (z : Z) : bytes :=
  match n with
  | O => []
  | S n' => z2b z :: le_bytes n' (z / 256)
  end.
Fixpoint le_value (l : bytes) : Z :=
  match l with
  | [] => 0
  | b :: l' => b2z b + 256 * le_value l'
  end.

(** [u16::to_be]. *)
Definition to_be16 (z : Z) : Z := (z mod 256) * 256 + z / 256.

Definition AF_INET : Z := 2.
Definition AF_INET6 : Z := 10.
Definition SOCKADDR_STORAGE : nat := 128.
Definition zeroes (n : nat) : bytes := replicate n x00.

(** A zeroed [sockaddr_storage] with the fields of a [sockaddr_in] or a
    [sockaddr_in6] written over its start, and the length of that struct. *)
Definition sockaddr_of (addr : SocketAddr) : bytes * Z :=
  match addr with
  | V4 octets port =>
      let sa := le_bytes 2 AF_INET ++ le_bytes 2 (to_be16 port) ++ octets in
      (written sa (zeroes SOCKADDR_STORAGE), 16)
  | V6 octets port flowinfo scope_id =>
      let sa := le_bytes 2 AF_INET6 ++ le_bytes 2 (to_be16 port) ++ le_bytes 4 flowinfo
                ++ octets ++ le_bytes 4 scope_id in
      (written sa (zeroes SOCKADDR_STORAGE), 28)
  end.

Section raw_libc.
Context `{Libc W}.

(** ** UDP *)

Record UdpConn := mkUdpConn { udp_fd : Z }.

Definition udp_connect (bind_addr : bytes) : M W (result UdpConn io_error) :=
  r ← call (udp_bind bind_addr);
  match r with
  | Err e => mret (Err e)
  | Ok fd =>
      r ← call (set_nonblocking fd);
      match r with
      | Err e => mret (Err e)
      | Ok _ => mret (Ok (mkUdpConn fd))
      end
  end.

Definition poll_recv_udp (conn : UdpConn) (buf : bytes) : M W (result Z io_error * bytes) :=
  '(n, data) ← call (libc_recvfrom (udp_fd conn) (length buf));
  let buf := written data buf in
  if 0 <? n then mret (Ok n, buf)
  else if n =? 0 then mret (Ok 0, buf)
  else
    err ← last_os_error;
    if bool_decide (kind err = WouldBlock) then mret (Ok 0, buf)
    else if bool_decide (raw_os_error err = Some EINTR) then mret (Ok 0, buf)
    else mret (Err err, buf).

Definition udp_sendto (fd : Z) (dst : SocketAddr) (buf : bytes) : M W (result unit io_error) :=
  let '(storage, sa_len) := sockaddr_of dst in
  n ← call (libc_sendto fd buf storage sa_len);
  if n <? 0 then
    err ← last_os_error;
    if bool_decide (kind err = WouldBlock) then mret (Ok ())
    else mret (Err err)
  else mret (Ok ()).

Definition udp_send_to (conn : UdpConn) (dst : SocketAddr) (buf : bytes) :
    M W (result unit io_error) :=
  udp_sendto (udp_fd conn) dst buf.

Definition UDP_SEGMENT : Z := 103.
Definition SOL_UDP : Z := 17.

(** The control message: a [cmsghdr] of length [CMSG_LEN(2)], the [u16], and
    the padding up to [CMSG_SPACE(2)]. *)
Definition gso_control (segment_size : Z) : bytes :=
  le_bytes 8 18 ++ le_bytes 4 SOL_UDP ++ le_bytes 4 UDP_SEGMENT
  ++ le_bytes 2 segment_size ++ zeroes 6.

Definition udp_sendmsg_gso (fd : Z) (dst : SocketAddr) (data : bytes) (segment_size : Z) :
    M W (result unit io_error) :=
  let '(storage, sa_len) := sockaddr_of dst in
  n ← call (libc_sendmsg fd storage sa_len data (gso_control segment_size));
  if n <? 0 then
    err ← last_os_error;
    if bool_decide (kind err = WouldBlock) then mret (Ok ())
    else mret (Err err)
  else mret (Ok ()).

(** ** TCP *)

Record RawConn := mkRawConn { stream_fd : Z }.
Record RawLibc := mkRawLibc { }.

Definition raw_connect (b : RawLibc) (endpoint : bytes) : M W (result RawConn io_error * RawLibc) :=
  r ← call (tcp_connect endpoint);
  match r with
  | Err e => mret (Err e, b)
  | Ok fd =>
      r ← call (set_nodelay fd);
      match r with
      | Err e => mret (Err e, b)
      | Ok _ =>
          r ← call (set_nonblocking fd);
          match r with
          | Err e => mret (Err e, b)
          | Ok _ => mret (Ok (mkRawConn fd), b)
          end
      end
  end.

(** The sending loop, from the offset [sent] on. *)
Fixpoint submit_loop (fuel : nat) (fd : Z) (data : bytes) (sent : Z) :
    M W (result unit io_error) :=
  match fuel with
  | O => λ _, OutOfFuel
  | S f =>
      if sent <? zlen data then
        rest ← pure (slice_from sent data);
        n ← call (libc_send fd rest);
        if 0 <? n then submit_loop f fd data (sent + n)
        else
          err ← last_os_error;
          if bool_decide (raw_os_error err = Some EINTR) then submit_loop f fd data sent
          else if bool_decide (kind err = WouldBlock) then submit_loop f fd data sent
          else mret (Err err)
      else mret (Ok ())
  end.

Definition raw_submit (fuel : nat) (b : RawLibc) (conn : RawConn) (kind : Wire) (data : bytes) :
    M W (result unit io_error * (RawLibc * RawConn)) :=
  match kind with
  | Datagram _ => mret (Err (Simple Unsupported), (b, conn))
  | Stream =>
      r ← submit_loop fuel (stream_fd conn) data 0;
      mret (r, (b, conn))
  end.

Fixpoint recv_loop (fuel : nat) (fd : Z) (buf : bytes) : M W (result Z io_error * bytes) :=
  match fuel with
  | O => λ _, OutOfFuel
  | S f =>
      '(n, data) ← call (libc_recv fd (length buf));
      let buf := written data buf in
      if 0 <? n then mret (Ok n, buf)
      else if n =? 0 then mret (Err (Simple UnexpectedEof), buf)
      else
        err ← last_os_error;
        if bool_decide (raw_os_error err = Some EINTR) then recv_loop f fd buf
        else if bool_decide (kind err = WouldBlock) then mret (Ok 0, buf)
        else mret (Err err, buf)
  end.

Definition raw_poll_recv (fuel : nat) (b : RawLibc) (conn : RawConn) (buf : bytes) :
    M W (result Z io_error * bytes * (RawLibc * RawConn)) :=
  '(r, buf) ← recv_loop fuel (stream_fd conn) buf;
  mret (r, buf, (b, conn)).

(** [impl ByteIo for RawLibc]; [drive] is the trait's empty default. *)
Definition raw_libc_io (fuel : nat) : ByteIo W RawLibc RawConn := {|
  io_connect := raw_connect;
  io_submit := raw_submit fuel;
  io_poll_recv := raw_poll_recv fuel;
  io_drive := λ b, mret b;
|}.
End raw_libc.

(** * The sending loop *)

(** The bytes a socket has taken so far, in order. *)
Class SocketView (W : Type) := accepted : W → Z → bytes.

(** What POSIX says of [send]: a positive result is the number of bytes taken
    from the front of the buffer, any other result means none was. *)
Class SendLaws (W : Type) `{Libc W, SocketView W} : Prop := send_accepts : ∀ fd l w,
  (0 < (libc_send fd l w).1 →
     (libc_send fd l w).1 ≤ zlen l ∧
     accepted (libc_send fd l w).2 fd = accepted w fd ++ take (Z.to_nat (libc_send fd l w).1) l) ∧
  ((libc_send fd l w).1 ≤ 0 → accepted (libc_send fd l w).2 fd = accepted w fd).

(** The errors after which the loop tries again. *)
Definition retried (e : io_error) : bool :=
  bool_decide (raw_os_error e = Some EINTR) || bool_decide (kind e = WouldBlock).

(** What the loop leaves, started with the bytes before [sent] delivered. *)
Definition submitted `{SocketView W} (fd : Z) (data : bytes) (w : W)
    (r : result unit io_error) (w' : W) : Prop :=
  match r with
  | Ok _ => accepted w' fd = accepted w fd ++ data
  | Err e => retried e = false ∧
      ∃ k, (k < length data)%nat ∧ accepted w' fd = accepted w fd ++ take k data
  end.

Section submit.
Context `{SL : SendLaws W}.

Lemma slice_from_to_nat (data : bytes) sent :
  0 ≤ sent ≤ zlen data → slice_from sent data = Ret (drop (Z.to_nat sent) data).
Proof.
  intros Hs. unfold slice_from, slice.
  rewrite !(proj2 (Z.leb_le _ _)) by lia. cbn [andb].
  rewrite take_ge; [done|]. rewrite length_drop. unfold zlen. lia.
Qed.

(** The kernel makes progress on [fd]: between two accepted chunks it answers
    try again at most [K] times. [stall] counts the refusals still to come. *)
Definition progress (fd : Z) (stall : W → nat) (K : nat) : Prop := ∀ l w, l ≠ [] →
  let '(n, w') := libc_send fd l w in
  (0 < n → (stall w' ≤ K)%nat) ∧
  (n ≤ 0 → retried (Os (errno w')) = true → (stall w' < stall w)%nat).

Lemma submit_loop_ends fd data stall K w0 fuel w sent :
  progress fd stall K → 0 ≤ sent ≤ zlen data →
  accepted w fd = accepted w0 fd ++ take (Z.to_nat sent) data →
  ((length data - Z.to_nat sent) * S K + stall w < fuel)%nat →
  ends (submit_loop fuel fd data sent) w (submitted fd data w0).
Proof using SL.
  intros Hprog. revert w sent. induction fuel as [|f IH]; intros w sent Hs Hacc Hf; [by apply Nat.nlt_0_r in Hf|].
  cbn [submit_loop]. destruct (Z.ltb_spec sent (zlen data)) as [Hlt|Hge].
  2: { apply ends_ret. cbn. rewrite Hacc, take_ge; [done|]. unfold zlen in *. lia. }
  apply ends_bind, (ends_pure (drop (Z.to_nat sent) data)); [by apply slice_from_to_nat|].
  apply ends_bind, ends_call.
  set (l := drop (Z.to_nat sent) data).
  destruct (send_accepts fd l w) as [Hyes Hno]. assert (Z.of_nat (length l) = zlen data - sent) as Hl
    by (unfold l, zlen in *; rewrite length_drop; lia).
  assert (l ≠ []) as Hne by (intros ->; cbn in Hl; lia). specialize (Hprog l w Hne).
  destruct (libc_send fd l w) as [n w']. cbn [fst snd] in *. destruct Hprog as [Hp1 Hp2].
  destruct (Z.ltb_spec 0 n) as [Hn|Hn].
  - destruct (Hyes Hn) as [Hle Hacc']. specialize (Hp1 Hn). unfold zlen in Hle.
    apply IH; [lia| |].
    + rewrite Hacc', Hacc, <- app_assoc. f_equal. unfold l.
      rewrite Z2Nat.inj_add by lia. by rewrite take_take_drop.
    + unfold zlen in *. nia.
  - apply ends_bind. exists (Os (errno w')), w'. split; [done|].
    specialize (Hno Hn). specialize (Hp2 Hn). unfold retried in Hp2.
    assert ((stall w' < stall w)%nat →
            ends (submit_loop f fd data sent) w' (submitted fd data w0)) as Hretry.
    { intros Hst. apply IH; [done|by rewrite Hno|lia]. }
    destruct (bool_decide _) eqn:E1; [by apply Hretry, Hp2|].
    destruct (bool_decide (kind _ = _)) eqn:E2; [by apply Hretry, Hp2|].
    apply ends_ret. split; [unfold retried; by rewrite E1, E2|].
    exists (Z.to_nat sent). split; [unfold zlen in *; lia|by rewrite Hno].
Qed.
End submit.

(** C14: [RawLibc::submit] on a stream writes every byte, once and in order, or
    reports a hard error after a proper prefix; short writes, interrupted
    calls and a full socket buffer only delay it. As long as the kernel
    refuses at most [K] times between two chunks, the loop ends within
    [(K + 1) * (len + 1)] calls. *)
Theorem raw_submit_stream `{SendLaws W} b conn data (w : W) stall K fuel :
  progress (stream_fd conn) stall K → (stall w ≤ K)%nat →
  (S K * S (length data) ≤ fuel)%nat →
  ends (raw_submit fuel b conn Stream data) w
    (λ '(r, bc) w', bc = (b, conn) ∧ submitted (stream_fd conn) data w r w').
Proof.
  intros Hp Hw Hf. unfold raw_submit. apply ends_bind.
  eapply ends_mono.
  - eapply submit_loop_ends; [done|pose proof (zlen_nonneg data); lia|by rewrite app_nil_r|].
    cbn. nia.
  - intros r w' Hr. by apply ends_ret.
Qed.

(** * A kernel for the examples *)

(** A loop-back kernel: of every three sends the first takes at most five
    bytes, the second meets a full buffer and the third is interrupted;
    [dk_inbox] holds the chunks still to be received, an empty one being the
    end of the stream. *)
Inductive demo_turn := Taking | Full | Interrupted_.
Record demo_kernel := mkDemo {
  dk_sent : bytes;
  dk_turn : demo_turn;
  dk_errno : Z;
  dk_inbox : list bytes;
}.

Definition demo_send (l : bytes) (w : demo_kernel) : Z * demo_kernel :=
  match dk_turn w with
  | Taking => (zlen (take 5 l), mkDemo (dk_sent w ++ take 5 l) Full (dk_errno w) (dk_inbox w))
  | Full => (-1, mkDemo (dk_sent w) Interrupted_ EAGAIN (dk_inbox w))
  | Interrupted_ => (-1, mkDemo (dk_sent w) Taking EINTR (dk_inbox w))
  end.

Definition demo_recv (n : nat) (w : demo_kernel) : Z * bytes * demo_kernel :=
  match dk_inbox w with
  | [] => (-1, [], mkDemo (dk_sent w) (dk_turn w) EAGAIN [])
  | c :: cs => (zlen (take n c), take n c, mkDemo (dk_sent w) (dk_turn w) (dk_errno w) cs)
  end.

#[export] Instance demo_libc : Libc demo_kernel := {
  tcp_connect _ w := (Ok 3, w);
  set_nodelay _ w := (Ok (), w);
  udp_bind _ w := (Ok 4, w);
  set_nonblocking _ w := (Ok (), w);
  libc_send _ l w := demo_send l w;
  libc_recv _ n w := demo_recv n w;
  libc_recvfrom _ n w := demo_recv n w;
  libc_sendto _ l _ _ w := (zlen l, mkDemo (dk_sent w ++ l) (dk_turn w) (dk_errno w) (dk_inbox w));
  libc_sendmsg _ _ _ l _ w :=
    (zlen l, mkDemo (dk_sent w ++ l) (dk_turn w) (dk_errno w) (dk_inbox w));
  errno := dk_errno;
}.
#[export] Instance demo_view : SocketView demo_kernel := λ w _, dk_sent w.
#[export] Instance demo_send_laws : SendLaws demo_kernel.
Proof.
  intros fd l w. unfold libc_send, accepted, demo_libc, demo_view, demo_send.
  destruct (dk_turn w); cbn [fst snd dk_sent]; [|split; [lia|done]..].
  unfold zlen. rewrite Nat2Z.id, length_take. split.
  - intros _. split; [lia|]. f_equal. destruct (decide (5 ≤ length l)%nat).
    + by replace (5 `min` length l)%nat with 5%nat by lia.
    + by rewrite !take_ge by lia.
  - intros Hn. destruct l; [by rewrite take_nil, app_nil_r|cbn in Hn; lia].
Qed.

Definition demo_stall (w : demo_kernel) : nat :=
  match dk_turn w with Taking => 0 | Full => 2 | Interrupted_ => 1 end.

Lemma demo_progress fd : progress fd demo_stall 2.
Proof.
  intros l w Hl. unfold libc_send, demo_libc, demo_send, errno, demo_stall.
  destruct (dk_turn w); cbn; (split; [lia|]; intros Hn _; try lia).
  destruct l as [|x l]; [done|]. cbn [take] in Hn. len.
Qed.

Lemma raw_submit_stream_witness :
  ends (raw_submit 200 mkRawLibc (mkRawConn 3) Stream (str "POST / HTTP/1.1"))
    (mkDemo [] Interrupted_ 0 [])
    (λ '(r, bc) w', bc = (mkRawLibc, mkRawConn 3) ∧
       submitted 3 (str "POST / HTTP/1.1") (mkDemo [] Interrupted_ 0 []) r w').
Proof.
  apply (raw_submit_stream mkRawLibc (mkRawConn 3) _ _ demo_stall 2);
    [apply demo_progress|compute_done..].
Defined.

(** * What the connections rely on *)

(** No call of the transport panics, and a receive reports a count inside the
    caller's buffer, whose length it keeps. *)
Class ByteIoSafe (W B C : Type) `{ByteIo W B C} : Prop := {
  connect_safe : ∀ b e w, safe (io_connect b e) w (λ _ _, True);
  submit_safe : ∀ b c k l w, safe (io_submit b c k l) w (λ _ _, True);
  drive_safe : ∀ b w, safe (io_drive b) w (λ _ _, True);
  poll_recv_safe : ∀ b c buf w, safe (io_poll_recv b c buf) w (λ '(r, buf', _) _,
    length buf' = length buf ∧ ∀ n, r = Ok n → 0 ≤ n ≤ zlen buf);
}.

(** What POSIX says of [recv] and [recvfrom]: the result is the number of
    bytes written, at most the length given, or not positive and none is. *)
Class RecvLaws (W : Type) `{Libc W} : Prop := {
  recv_bounds : ∀ fd k w, let '(n, data, _) := libc_recv fd k w in
    n ≤ Z.of_nat k ∧ length data = Z.to_nat n;
  recvfrom_bounds : ∀ fd k w, let '(n, data, _) := libc_recvfrom fd k w in
    n ≤ Z.of_nat k ∧ length data = Z.to_nat n;
}.

Lemma length_zeroes n : length (zeroes n) = n.
Proof. apply length_replicate. Qed.

Lemma length_written data buf : (length data ≤ length buf)%nat → length (written data buf) = length buf.
Proof. intros Hd. unfold written. rewrite length_app, length_drop. lia. Qed.

Section raw_safe.
Context `{RL : RecvLaws W}.

Lemma submit_loop_safe fuel fd data sent w :
  0 ≤ sent → safe (submit_loop fuel fd data sent) w (λ _ _, True).
Proof using RL.
  revert sent w. induction fuel as [|f IH]; intros sent w Hs; [done|]. cbn [submit_loop].
  destruct (Z.ltb_spec sent (zlen data)); [|done].
  apply safe_bind, (safe_pure (drop (Z.to_nat sent) data)); [apply slice_from_to_nat; lia|].
  apply safe_bind, safe_call. destruct (libc_send _ _ _) as [n w']. cbn [fst snd].
  destruct (Z.ltb_spec 0 n); [apply IH; lia|].
  apply safe_bind. cbn. repeat case_bool_decide; by try apply IH.
Qed.

Lemma recv_loop_safe fuel fd buf w :
  safe (recv_loop fuel fd buf) w (λ '(r, buf') _,
    length buf' = length buf ∧ ∀ n, r = Ok n → 0 ≤ n ≤ zlen buf).
Proof using RL.
  revert buf w. induction fuel as [|f IH]; intros buf w; [done|]. cbn [recv_loop].
  apply safe_bind, safe_call. pose proof (recv_bounds fd (length buf) w) as Hb.
  destruct (libc_recv _ _ _) as [[n data] w']. cbn [fst snd].
  destruct Hb as [Hn Hd]. pose proof (length_written data buf ltac:(lia)) as Hlen.
  unfold zlen. destruct (Z.ltb_spec 0 n); [apply safe_ret; split; [done|intros ? [= <-]; lia]|].
  destruct (Z.eqb_spec n 0); [by apply safe_ret|].
  apply safe_bind. cbn. repeat case_bool_decide.
  - eapply safe_mono; [apply IH|]. intros [r b'] _ [Hl Hr]. rewrite Hlen in Hl.
    split; [done|]. intros k Hk. specialize (Hr k Hk). unfold zlen in Hr. lia.
  - apply safe_ret. split; [done|intros ? [= <-]; lia].
  - by apply safe_ret.
Qed.

Lemma raw_libc_safe fuel : @ByteIoSafe W RawLibc RawConn (raw_libc_io fuel).
Proof using RL.
  split.
  - intros b e w. cbn. unfold raw_connect. repeat (run_step || case_match); done.
  - intros b c [|] l w; cbn; unfold raw_submit; [done|].
    apply safe_bind. eapply safe_mono; [by apply submit_loop_safe|]. intros; by apply safe_ret.
  - done.
  - intros b c buf w. cbn. unfold raw_poll_recv. apply safe_bind.
    eapply safe_mono; [apply recv_loop_safe|]. intros [r b'] w' Hr. by apply safe_ret.
Qed.
End raw_safe.

#[export] Instance demo_recv_laws : RecvLaws demo_kernel.
Proof.
  split; intros fd k w; cbn; unfold demo_recv; destruct (dk_inbox w); cbn; try lia;
    unfold zlen; rewrite length_take; lia.
Qed.

(** * Socket addresses *)

(** An address whose fields are in range, as the Rust type guarantees. *)
Definition addr_ok (a : SocketAddr) : Prop :=
  match a with
  | V4 octets port => length octets = 4%nat ∧ 0 ≤ port < U16
  | V6 octets port flowinfo scope_id =>
      length octets = 16%nat ∧ 0 ≤ port < U16 ∧ 0 ≤ flowinfo < U32 ∧ 0 ≤ scope_id < U32
  end.

(** The kernel's reading of a socket address: the family, the port in network
    byte order, the address, and for IPv6 the flow label and the scope. *)
Definition be_value (l : bytes) : Z := le_value (reverse l).
Definition field (off len : nat) (l : bytes) : bytes := take len (drop off l).
Definition read_sockaddr (storage : bytes) (sa_len : Z) : option SocketAddr :=
  let family := le_value (field 0 2 storage) in
  let port := be_value (field 2 2 storage) in
  if (family =? AF_INET) && (sa_len =? 16) then Some (V4 (field 4 4 storage) port)
  else if (family =? AF_INET6) && (sa_len =? 28) then
    Some (V6 (field 8 16 storage) port (le_value (field 4 4 storage)) (le_value (field 24 4 storage)))
  else None.

Lemma length_le_bytes n z : length (le_bytes n z) = n.
Proof. revert z. induction n; intros z; cbn; [done|]. by rewrite IHn. Qed.

Lemma b2z_z2b_mod z : b2z (z2b z) = z mod 256.
Proof.
  rewrite <- (b2z_z2b (z mod 256)) by (by apply Z.mod_pos_bound).
  unfold z2b. by rewrite Zmod_mod.
Qed.

Lemma le_value_le_bytes n z : 0 ≤ z < 256 ^ Z.of_nat n → le_value (le_bytes n z) = z.
Proof.
  revert z. induction n as [|n IH]; intros z Hz; cbn [le_value le_bytes]; [cbn in Hz; lia|].
  rewrite b2z_z2b_mod, IH; [pose proof (Z.div_mod z 256); lia|].
  rewrite Nat2Z.inj_succ, Z.pow_succ_r in Hz by lia.
  split; [apply Z.div_pos; lia|apply Z.div_lt_upper_bound; lia].
Qed.

Lemma be_value_port p : 0 ≤ p < U16 → be_value (le_bytes 2 (to_be16 p)) = p.
Proof.
  intros Hp. unfold U16 in Hp. unfold be_value, to_be16.
  pose proof (Z.mod_pos_bound p 256 ltac:(lia)). pose proof (Z.div_mod p 256 ltac:(lia)).
  assert (0 ≤ p / 256 < 256) by (split; [apply Z.div_pos|apply Z.div_lt_upper_bound]; lia).
  change (le_value [z2b ((p mod 256 * 256 + p / 256) / 256);
                    z2b (p mod 256 * 256 + p / 256)] = p).
  cbn [le_value]. rewrite !b2z_z2b_mod.
  rewrite Z.div_add_l, (Z.div_small (p / 256)), Z.add_0_r, Z.mod_mod by lia.
  rewrite (Z.add_comm (_ * 256)), Z.mod_add, (Z.mod_small (p / 256)) by lia. lia.
Qed.

(** C35: the bytes [sockaddr_of] lays out for the kernel read back as the
    address it was given, for IPv4 and IPv6: port in network order, octets,
    flow label and scope in place, the right family and struct length. *)
Theorem sockaddr_roundtrip a :
  addr_ok a → let '(storage, sa_len) := sockaddr_of a in
  length storage = SOCKADDR_STORAGE ∧ read_sockaddr storage sa_len = Some a.
Proof.
  destruct a as [o p|o p f s]; cbn [addr_ok sockaddr_of].
  - intros [Ho Hp]. do 4 (destruct o as [|? o]; [done|]). destruct o; [|done].
    split; [done|]. rewrite <- (be_value_port p) at 2 by done. reflexivity.
  - intros (Ho&Hp&Hf&Hs). do 16 (destruct o as [|? o]; [done|]). destruct o; [|done].
    split; [done|]. unfold U32 in *.
    rewrite <- (be_value_port p) at 2 by done.
    rewrite <- (le_value_le_bytes 4 f) at 2 by lia.
    rewrite <- (le_value_le_bytes 4 s) at 2 by lia. reflexivity.
Qed.

Lemma sockaddr_roundtrip_witness :
  read_sockaddr (sockaddr_of (V4 (z2b <$> [10; 0; 0; 7]) 8899)).1 16
  = Some (V4 (z2b <$> [10; 0; 0; 7]) 8899).
Proof.
  apply (sockaddr_roundtrip (V4 (z2b <$> [10; 0; 0; 7]) 8899)). compute_done.
Defined.
