(* ===== verification/Quic.v ===== *)
(** The QUIC engine, protocol/quic.rs: transactions out as unidirectional
    streams, the datagram pump over a non-blocking UDP socket, and the
    handshake with its five second deadline. The protocol itself is the
    quinn-proto crate, a parameter of the model. *)
From S2P Require Import Prelude Types Backend.
From stdpp Require Import options.

(** * The clocks *)

(** [_rdtsc] and [Instant::now]; an instant is a number of nanoseconds. *)
Class Clock (W : Type) := {
  rdtsc : W → Z * W;
  instant_now : W → Z * W;
}.

Definition NANOS_PER_SEC : Z := 1000000000.
Definition NANOS_PER_MS : Z := 1000000.

(** * quinn-proto *)

Inductive DatagramEvent (CE : Type) :=
| ConnectionEvent (ev : CE)
| Response (size : Z)
| NewConnection.
Arguments ConnectionEvent {CE}.
Arguments Response {CE}.
Arguments NewConnection {CE}.

Inductive QEvent :=
| EvConnected
| EvConnectionLost (reason : bytes)
| EvOther.

(** The operations of [quinn_proto::Connection] (state [C]) and [Endpoint]
    (state [E]) the engine calls, with [Cfg] the client configuration. A
    transmit is its size and the bytes appended to the buffer. *)
Class Quinn (C E Cfg : Type) := {
  endpoint_event : Type;
  connection_event : Type;
  endpoint_new : E;
  endpoint_connect : E → Z → Cfg → SocketAddr → bytes → result (Z * C) bytes * E;
  endpoint_handle : E → Z → SocketAddr → bytes → option (DatagramEvent connection_event) * bytes * E;
  endpoint_handle_event : E → Z → endpoint_event → option connection_event * E;
  conn_is_closed : C → bool;
  conn_is_drained : C → bool;
  conn_is_handshaking : C → bool;
  streams_open_uni : C → option Z * C;
  write_chunks : C → Z → bytes → result Z bytes * C;
  stream_finish : C → Z → C;
  poll_transmit : C → Z → Z → option (Z * bytes) * C;
  poll_timeout : C → option Z * C;
  handle_timeout : C → Z → C;
  poll_endpoint_events : C → option endpoint_event * C;
  conn_handle_event : C → connection_event → C;
  conn_poll : C → option QEvent * C;
}.

(** * The engine *)

Record QuicEngine (C E : Type) := mkQuicEngine {
  qe_endpoint : E;
  qe_connection : option C;
  qe_handle : Z;
  qe_fd : Z;
  qe_remote : SocketAddr;
  qe_send_buf : bytes;
  qe_recv_buf : bytes;
  qe_resp_buf : bytes;
  qe_next_timeout : option Z;
}.
Arguments mkQuicEngine {C E}.
Arguments qe_endpoint {C E}.
Arguments qe_connection {C E}.
Arguments qe_handle {C E}.
Arguments qe_fd {C E}.
Arguments qe_remote {C E}.
Arguments qe_send_buf {C E}.
Arguments qe_recv_buf {C E}.
Arguments qe_resp_buf {C E}.
Arguments qe_next_timeout {C E}.

Definition with_connection {C E} (c : option C) (q : QuicEngine C E) : QuicEngine C E :=
  mkQuicEngine (qe_endpoint q) c (qe_handle q) (qe_fd q) (qe_remote q)
    (qe_send_buf q) (qe_recv_buf q) (qe_resp_buf q) (qe_next_timeout q).
Definition with_endpoint {C E} (e : E) (q : QuicEngine C E) : QuicEngine C E :=
  mkQuicEngine e (qe_connection q) (qe_handle q) (qe_fd q) (qe_remote q)
    (qe_send_buf q) (qe_recv_buf q) (qe_resp_buf q) (qe_next_timeout q).
Definition with_send_buf {C E} (b : bytes) (q : QuicEngine C E) : QuicEngine C E :=
  mkQuicEngine (qe_endpoint q) (qe_connection q) (qe_handle q) (qe_fd q) (qe_remote q)
    b (qe_recv_buf q) (qe_resp_buf q) (qe_next_timeout q).
Definition with_recv_buf {C E} (b : bytes) (q : QuicEngine C E) : QuicEngine C E :=
  mkQuicEngine (qe_endpoint q) (qe_connection q) (qe_handle q) (qe_fd q) (qe_remote q)
    (qe_send_buf q) b (qe_resp_buf q) (qe_next_timeout q).
Definition with_resp_buf {C E} (b : bytes) (q : QuicEngine C E) : QuicEngine C E :=
  mkQuicEngine (qe_endpoint q) (qe_connection q) (qe_handle q) (qe_fd q) (qe_remote q)
    (qe_send_buf q) (qe_recv_buf q) b (qe_next_timeout q).
Definition with_next_timeout {C E} (t : option Z) (q : QuicEngine C E) : QuicEngine C E :=
  mkQuicEngine (qe_endpoint q) (qe_connection q) (qe_handle q) (qe_fd q) (qe_remote q)
    (qe_send_buf q) (qe_recv_buf q) (qe_resp_buf q) t.

Section quic.
Context `{Libc W, Clock W, Quinn C E Cfg}.
Implicit Type q : QuicEngine C E.

(** [recv_dgram]: the count, and the buffer. *)
Definition recv_dgram (fd : Z) (buf : bytes) : M W (Z * bytes) :=
  '(n, data) ← call (libc_recvfrom fd (length buf));
  mret (if 0 <? n then n else 0, written data buf).

(** [while let Some(transmit) = conn.poll_transmit(now, max, &mut buf)]. *)
Fixpoint transmit_loop (fuel : nat) (max fd : Z) (remote : SocketAddr) (now : Z) (c : C) : M W C :=
  match fuel with
  | O => λ _, OutOfFuel
  | S f =>
      match poll_transmit c now max with
      | (None, c') => mret c'
      | (Some (size, buf), c') =>
          dgram ← pure (slice_to size buf);
          _ ← udp_sendto fd remote dgram;
          transmit_loop f max fd remote now c'
      end
  end.

Definition drain_transmits (fuel : nat) (q : QuicEngine C E) (now : Z) : M W (QuicEngine C E) :=
  match qe_connection q with
  | None => mret q
  | Some c =>
      c' ← transmit_loop fuel 8 (qe_fd q) (qe_remote q) now c;
      mret (with_connection (Some c') (with_send_buf [] q))
  end.

(** [self.next_timeout = self.connection.as_mut().and_then(|c| c.poll_timeout())]. *)
Definition refresh_timeout (q : QuicEngine C E) : QuicEngine C E :=
  match qe_connection q with
  | None => with_next_timeout None q
  | Some c =>
      let '(t, c') := poll_timeout c in
      with_next_timeout t (with_connection (Some c') q)
  end.

Definition quic_send_tx (fuel : nat) (q : QuicEngine C E) (tx : bytes) (now : Z) :
    M W (result unit TransportError * QuicEngine C E) :=
  match qe_connection q with
  | None => mret (Err (TQuic (str "connection closed")), q)
  | Some c =>
      if conn_is_closed c || conn_is_drained c
      then mret (Err (TQuic (str "connection closed")), q)
      else
        match streams_open_uni c with
        | (None, c1) =>
            mret (Err (TQuic (str "stream limit reached")), with_connection (Some c1) q)
        | (Some id, c1) =>
            match write_chunks c1 id tx with
            | (Err e, c2) => mret (Err (TQuic (str "write: " ++ e)), with_connection (Some c2) q)
            | (Ok written, c2) =>
                if written <? zlen tx
                then mret (Err (TQuic (str "partial write")), with_connection (Some c2) q)
                else
                  q' ← drain_transmits fuel (with_connection (Some (stream_finish c2 id)) q) now;
                  mret (Ok (), refresh_timeout q')
            end
        end
  end.

(** [while let Some(ep_ev) = conn.poll_endpoint_events()]. *)
Fixpoint endpoint_events_loop (fuel : nat) (handle : Z) (e : E) (c : C) : outcome (E * C) :=
  match fuel with
  | O => OutOfFuel
  | S f =>
      match poll_endpoint_events c with
      | (None, c') => Ret (e, c')
      | (Some ev, c') =>
          match endpoint_handle_event e handle ev with
          | (Some cev, e') => endpoint_events_loop f handle e' (conn_handle_event c' cev)
          | (None, e') => endpoint_events_loop f handle e' c'
          end
      end
  end.

Definition recv_once (fuel : nat) (q : QuicEngine C E) (now : Z) : M W (QuicEngine C E) :=
  '(n, buf) ← recv_dgram (qe_fd q) (qe_recv_buf q);
  let q := with_recv_buf buf q in
  if n =? 0 then mret q
  else
    data ← pure (slice_to n buf);
    let '(event, resp, e) := endpoint_handle (qe_endpoint q) now (qe_remote q) data in
    let q := with_resp_buf resp (with_endpoint e q) in
    q ← match event with
        | Some (ConnectionEvent ev) =>
            mret (with_connection ((λ c, conn_handle_event c ev) <$> qe_connection q) q)
        | Some (Response size) =>
            dgram ← pure (slice_to size resp);
            _ ← udp_sendto (qe_fd q) (qe_remote q) dgram;
            mret q
        | Some NewConnection | None => mret q
        end;
    match qe_connection q with
    | None => mret q
    | Some c =>
        '(e', c') ← pure (endpoint_events_loop fuel (qe_handle q) (qe_endpoint q) c);
        mret (with_connection (Some c') (with_endpoint e' q))
    end.

Definition drive_timeout (fuel : nat) (q : QuicEngine C E) (now : Z) : M W (QuicEngine C E) :=
  match qe_next_timeout q with
  | None => mret q
  | Some deadline =>
      if now <? deadline then mret q
      else drain_transmits fuel
             (with_connection ((λ c, handle_timeout c now) <$> qe_connection q) q) now
  end.

Definition quic_drive (fuel : nat) (q : QuicEngine C E) (now : Z) : M W (QuicEngine C E) :=
  q ← recv_once fuel q now;
  q ← drive_timeout fuel q now;
  q ← drain_transmits fuel q now;
  mret (refresh_timeout q).

Definition quic_is_closed (q : QuicEngine C E) : bool :=
  match qe_connection q with
  | Some c => conn_is_closed c || conn_is_drained c
  | None => true
  end.

Definition next_timeout (q : QuicEngine C E) : option Z := qe_next_timeout q.

(** ** The handshake *)

Definition drain_handshake (fuel : nat) (fd : Z) (c : C) (addr : SocketAddr) : M W C :=
  now ← call instant_now;
  transmit_loop fuel 1 fd addr now c.

(** [while let Some(event) = connection.poll()]: the first event that settles
    the handshake, if any. *)
Fixpoint poll_loop (fuel : nat) (c : C) : outcome (option (result unit bytes) * C) :=
  match fuel with
  | O => OutOfFuel
  | S f =>
      match conn_poll c with
      | (None, c') => Ret (None, c')
      | (Some EvConnected, c') => Ret (Some (Ok ()), c')
      | (Some (EvConnectionLost reason), c') => Ret (Some (Err reason), c')
      | (Some EvOther, c') => poll_loop f c'
      end
  end.

(** The datagram a pass of the handshake receives, if any. *)
Definition handshake_recv (fd : Z) (addr : SocketAddr) (now : Z) (buf : bytes) (e : E) (c : C) :
    M W (bytes * E * C) :=
  '(n, buf) ← recv_dgram fd buf;
  if 0 <? n then
    data ← pure (slice_to n buf);
    let '(event, resp, e) := endpoint_handle e now addr data in
    match event with
    | Some (ConnectionEvent ev) => mret (buf, e, conn_handle_event c ev)
    | Some (Response size) =>
        dgram ← pure (slice_to size resp);
        _ ← udp_sendto fd addr dgram;
        mret (buf, e, c)
    | Some NewConnection | None => mret (buf, e, c)
    end
  else mret (buf, e, c).

(** [if let Some(t) = connection.poll_timeout() { if now >= t .. }]. *)
Definition handshake_timeout (now : Z) (c : C) : C :=
  let '(t, c) := poll_timeout c in
  match t with
  | Some t => if t <=? now then handle_timeout c now else c
  | None => c
  end.

(** One pass of the loop: settled, or go on with the buffer, the endpoint and
    the connection. *)
Definition handshake_pass (fuel : nat) (fd : Z) (addr : SocketAddr) (handle deadline : Z)
    (buf : bytes) (e : E) (c : C) :
    M W (option (result unit TransportError) * bytes * E * C) :=
  now ← call instant_now;
  if deadline <? now
  then mret (Some (Err (TQuic (str "handshake timeout (5s)"))), buf, e, c)
  else
    c ← transmit_loop fuel 1 fd addr now c;
    '(buf, e, c) ← handshake_recv fd addr now buf e c;
    '(e, c) ← pure (endpoint_events_loop fuel handle e (handshake_timeout now c));
    '(settled, c) ← pure (poll_loop fuel c);
    match settled with
    | Some (Err reason) =>
        mret (Some (Err (TQuic (str "handshake rejected: " ++ reason))), buf, e, c)
    | Some (Ok _) =>
        c ← drain_handshake fuel fd c addr;
        mret (Some (Ok ()), buf, e, c)
    | None =>
        if conn_is_handshaking c then mret (None, buf, e, c)
        else
          c ← drain_handshake fuel fd c addr;
          mret (Some (Ok ()), buf, e, c)
    end.

Fixpoint handshake_passes (passes fuel : nat) (fd : Z) (addr : SocketAddr) (handle deadline : Z)
    (buf : bytes) (e : E) (c : C) : M W (result unit TransportError * E * C) :=
  match passes with
  | O => λ _, OutOfFuel
  | S p =>
      '(r, buf, e, c) ← handshake_pass fuel fd addr handle deadline buf e c;
      match r with
      | Some r => mret (r, e, c)
      | None => handshake_passes p fuel fd addr handle deadline buf e c
      end
  end.

Definition HANDSHAKE_SECS : Z := 5.
Definition DGRAM_MAX : nat := Z.to_nat 65535.

Definition quic_handshake (passes fuel : nat) (fd : Z) (e : E) (c : C) (handle : Z)
    (addr : SocketAddr) : M W (result unit TransportError * E * C) :=
  t0 ← call instant_now;
  handshake_passes passes fuel fd addr handle (t0 + HANDSHAKE_SECS * NANOS_PER_SEC)
    (zeroes DGRAM_MAX) e c.

(** [io_text] is the [Display] of [io::Error]. *)
Definition quic_connect (io_text : io_error → bytes) (passes fuel : nat) (cfg : Cfg)
    (addr : SocketAddr) (server_name : bytes) : M W (result (QuicEngine C E) TransportError) :=
  r ← call (udp_bind (str "0.0.0.0:0"));
  match r with
  | Err e => mret (Err (TQuic (str "bind: " ++ io_text e)))
  | Ok fd =>
      r ← call (set_nonblocking fd);
      match r with
      | Err e => mret (Err (TQuic (str "set_nonblocking: " ++ io_text e)))
      | Ok _ =>
          now ← call instant_now;
          match endpoint_connect endpoint_new now cfg addr server_name with
          | (Err e, _) => mret (Err (TQuic (str "connect: " ++ e)))
          | (Ok (handle, c), ep) =>
              '(r, ep, c) ← quic_handshake passes fuel fd ep c handle addr;
              match r with
              | Err e => mret (Err e)
              | Ok _ =>
                  let '(t, c) := poll_timeout c in
                  mret (Ok (mkQuicEngine ep (Some c) handle fd addr [] (zeroes DGRAM_MAX) [] t))
              end
          end
      end
  end.
End quic.

(** * The handshake is bounded *)

(** What the engine's loops rely on of quinn-proto: at any time at most [K]
    transmits, endpoint events and application events are waiting, each poll
    that gives one leaves fewer, and a transmit lies in the buffer it was
    written to. *)
Class QuinnProgress (C E Cfg : Type) `{Quinn C E Cfg} (K : nat)
    (txs evs apps : C → nat) : Prop := {
  txs_bound : ∀ c, (txs c ≤ K)%nat;
  evs_bound : ∀ c, (evs c ≤ K)%nat;
  apps_bound : ∀ c, (apps c ≤ K)%nat;
  txs_progress : ∀ c now max size buf, (poll_transmit c now max).1 = Some (size, buf) →
    (txs (poll_transmit c now max).2 < txs c)%nat ∧ 0 ≤ size ≤ zlen buf;
  evs_progress : ∀ c ev e h, (poll_endpoint_events c).1 = Some ev →
    (evs (poll_endpoint_events c).2 < evs c)%nat ∧
    ∀ cev, (endpoint_handle_event e h ev).1 = Some cev →
      (evs (conn_handle_event (poll_endpoint_events c).2 cev) < evs c)%nat;
  apps_progress : ∀ c, (conn_poll c).1 = Some EvOther → (apps (conn_poll c).2 < apps c)%nat;
  response_size : ∀ e now remote data size,
    (endpoint_handle e now remote data).1.1 = Some (Response size) →
    0 ≤ size ≤ zlen (endpoint_handle e now remote data).1.2;
}.

(** The clock is monotonically nondecreasing, and not stuck: it gives the same
    value at most [R] times in a row. [age] counts the readings, [R] to a
    nanosecond; system calls do not turn it back. *)
Class TimeLaws (W : Type) `{Libc W, Clock W} (R : Z) (age : W → Z) : Prop := {
  clock_rate : 0 < R;
  instant_time : ∀ w, (instant_now w).1 = age w / R ∧ age w < age (instant_now w).2;
  recvfrom_time : ∀ fd n w, age w ≤ age (libc_recvfrom fd n w).2;
  sendto_time : ∀ fd l sa n w, age w ≤ age (libc_sendto fd l sa n w).2;
}.

(** Arithmetic after a call, whose postcondition is still applied. *)
Ltac tlia := cbv beta in *; lia.

Section bounded.
Context `{Libc W, Clock W} `{TL : !TimeLaws W R age} `{RL : !RecvLaws W}.
Context `{QP : QuinnProgress QC E Cfg K txs evs apps}.

Lemma udp_sendto_ends fd addr l w : ends (udp_sendto fd addr l) w (λ _ w', age w ≤ age w').
Proof using TL.
  unfold udp_sendto. destruct (sockaddr_of addr) as [storage sa_len]. apply ends_bind, ends_call.
  pose proof (sendto_time fd l storage sa_len w) as Ht. destruct (libc_sendto _ _ _ _ w) as [n w'].
  cbn in Ht |- *. case_match; [|by apply ends_ret]. apply ends_bind. eexists _, _.
  split; [done|]. case_match; by apply ends_ret.
Qed.

Lemma transmit_loop_ends fuel max fd remote now (c : QC) w :
  (txs c < fuel)%nat →
  ends (transmit_loop fuel max fd remote now c) w (λ _ w', age w ≤ age w').
Proof using QP TL.
  revert c w. induction fuel as [|f IH]; intros c w Hf; [lia|]. cbn [transmit_loop].
  pose proof (txs_progress c now max) as Hp.
  destruct (poll_transmit c now max) as [[[size buf]|] c']; cbn in Hp; [|by apply ends_ret].
  destruct (Hp _ _ eq_refl) as [Hlt Hsize].
  apply ends_bind. eapply ends_pure; [by apply slice_to_ok|]. apply ends_bind.
  eapply ends_mono; [apply udp_sendto_ends|]. intros r w' Ht.
  eapply ends_mono; [apply IH; lia|]. intros c2 w2 Ht2. tlia.
Qed.

Lemma endpoint_events_loop_ends fuel handle e (c : QC) :
  (evs c < fuel)%nat → ∃ r, endpoint_events_loop fuel handle e c = Ret r.
Proof using QP.
  revert e c. induction fuel as [|f IH]; intros e c Hf; [lia|]. cbn [endpoint_events_loop].
  pose proof (evs_progress c) as Hp. destruct (poll_endpoint_events c) as [[ev|] c']; [|by eauto].
  destruct (Hp ev e handle eq_refl) as [Hlt Hh].
  destruct (endpoint_handle_event e handle ev) as [[cev|] e']; apply IH.
  - specialize (Hh cev eq_refl). cbn in Hh. lia.
  - cbn in Hlt. lia.
Qed.

Lemma poll_loop_ends fuel (c : QC) : (apps c < fuel)%nat → ∃ r, poll_loop fuel c = Ret r.
Proof using QP.
  revert c. induction fuel as [|f IH]; intros c Hf; [lia|]. cbn [poll_loop].
  pose proof (apps_progress c) as Hp. destruct (conn_poll c) as [[[]|] c']; try by eauto.
  apply IH. specialize (Hp eq_refl). cbn in Hp. lia.
Qed.

Lemma handshake_recv_ends fd addr now buf e (c : QC) w :
  ends (handshake_recv fd addr now buf e c) w (λ _ w', age w ≤ age w').
Proof using QP RL TL.
  unfold handshake_recv, recv_dgram. apply ends_bind, ends_bind, ends_call.
  pose proof (recvfrom_bounds fd (length buf) w) as Hb. pose proof (recvfrom_time fd (length buf) w) as Ht.
  destruct (libc_recvfrom _ _ _) as [[n data] w']. cbn [fst snd] in *. destruct Hb as [Hn Hd].
  apply ends_ret. destruct (Z.ltb_spec 0 n); [|by apply ends_ret].
  rewrite (proj2 (Z.ltb_lt _ _)) by done. apply ends_bind. eapply ends_pure.
  { apply slice_to_ok. unfold zlen. rewrite length_written; lia. }
  pose proof (response_size e now addr (take (Z.to_nat n) (written data buf))) as Hr.
  destruct (endpoint_handle _ _ _ _) as [[event resp] e']. cbn [fst snd] in Hr.
  destruct event as [[ev|size|]|]; try by apply ends_ret.
  specialize (Hr _ eq_refl). apply ends_bind. eapply ends_pure; [by apply slice_to_ok|].
  apply ends_bind. eapply ends_mono; [apply udp_sendto_ends|]. intros r w'' Ht'.
  apply ends_ret. tlia.
Qed.

Lemma drain_handshake_ends fuel fd (c : QC) addr w :
  (K < fuel)%nat → ends (drain_handshake fuel fd c addr) w (λ _ w', age w ≤ age w').
Proof using QP TL.
  intros Hf. unfold drain_handshake. apply ends_bind, ends_call.
  pose proof (instant_time w) as [_ Ht]. pose proof (txs_bound c).
  eapply ends_mono; [apply transmit_loop_ends; lia|]. intros c2 w2 Ht2. tlia.
Qed.

(** A connection that has said it is connected, or has stopped handshaking, and
    has since only been asked for datagrams to send. *)
Inductive established : QC → Prop :=
| established_event c c' : conn_poll c = (Some EvConnected, c') → established c'
| established_state c : conn_is_handshaking c = false → established c
| established_transmit c now max : established c → established (poll_transmit c now max).2.

Lemma transmit_loop_established fuel max fd remote now (c : QC) w :
  established c →
  post (transmit_loop fuel max fd remote now c) w (λ c' _, established c').
Proof.
  revert c w. induction fuel as [|f IH]; intros c w Hc; [done|]. cbn [transmit_loop].
  pose proof (established_transmit c now max Hc) as Hc'.
  destruct (poll_transmit c now max) as [[[size buf]|] c']; [|by apply post_ret].
  apply post_bind, post_any. intros data w1. apply post_bind, post_any. intros r w2. by apply IH.
Qed.

(** What a drained connection is, when draining ends. *)
Lemma drain_handshake_spec fuel fd (c : QC) addr w :
  (K < fuel)%nat → established c →
  ends (drain_handshake fuel fd c addr) w (λ c' w', age w ≤ age w' ∧ established c').
Proof using QP TL.
  intros Hf Hc. destruct (drain_handshake_ends fuel fd c addr w Hf) as (c'&w'&Hd&Hage).
  exists c', w'. split; [done|]. split; [done|].
  assert (post (drain_handshake fuel fd c addr) w (λ c' _, established c')) as Hp.
  { unfold drain_handshake. apply post_bind, post_call. by apply transmit_loop_established. }
  by apply (post_Ret _ _ _ _ _ Hp Hd).
Qed.

Lemma poll_loop_settled fuel (c c' : QC) r :
  poll_loop fuel c = Ret (Some r, c') →
  match r with
  | Ok _ => established c'
  | Err reason => ∃ c0, conn_poll c0 = (Some (EvConnectionLost reason), c')
  end.
Proof.
  revert c. induction fuel as [|f IH]; intros c; [done|]. cbn [poll_loop].
  destruct (conn_poll c) as [[[|reason|]|] c1] eqn:Ec; try done.
  - intros [= <- <-]. by eapply established_event.
  - intros [= <- <-]. by exists c.
  - apply IH.
Qed.

(** How a handshake may end, with the connection [c], at age [a]. *)
Definition handshake_result (deadline : Z) (r : result unit TransportError) (c : QC) (a : Z) : Prop :=
  match r with
  | Ok _ => established c
  | Err e =>
      (e = TQuic (str "handshake timeout (5s)") ∧ deadline < a / R) ∨
      (∃ reason c0, e = TQuic (str "handshake rejected: " ++ reason) ∧
         conn_poll c0 = (Some (EvConnectionLost reason), c))
  end.

(** Past the deadline a pass gives up at once. *)
Lemma handshake_pass_late fuel fd addr handle deadline buf e (c : QC) w :
  deadline < age w / R →
  handshake_pass fuel fd addr handle deadline buf e c w
  = Ret (Some (Err (TQuic (str "handshake timeout (5s)"))), buf, e, c, (instant_now w).2).
Proof using TL.
  intros Hd. unfold handshake_pass, call, mbind, M_bind. pose proof (instant_time w) as [Hn _].
  destruct (instant_now w) as [now w1]. cbn in Hn |- *. subst now.
  by rewrite (proj2 (Z.ltb_lt _ _) Hd).
Qed.

(** A pass of the handshake ends and takes time; it settles the handshake with
    cause, and before the deadline not with a time-out. *)
Lemma handshake_pass_ends fuel fd addr handle deadline buf e (c : QC) w :
  (K < fuel)%nat →
  ends (handshake_pass fuel fd addr handle deadline buf e c) w (λ '(r, _, _, c') w',
    match r with
    | Some r => handshake_result deadline r c' (age w')
    | None => age w / R ≤ deadline ∧ age w < age w'
    end).
Proof using QP RL TL.
  intros Hf. destruct (decide (deadline < age w / R)) as [Hlate|Hearly].
  { eexists _, _. split; [by apply handshake_pass_late|]. left. split; [done|].
    pose proof (instant_time w) as [_ Ht]. pose proof clock_rate.
    pose proof (Z.div_le_mono (age w) (age (instant_now w).2) R). lia. }
  unfold handshake_pass. apply ends_bind, ends_call.
  pose proof (instant_time w) as [-> Ht]. destruct (instant_now w) as [now w1]. cbn [fst snd] in *.
  rewrite (proj2 (Z.ltb_ge _ _)) by lia.
  pose proof (txs_bound c). apply ends_bind.
  eapply ends_mono; [apply transmit_loop_ends; lia|]. intros c1 w2 Ht2. apply ends_bind.
  eapply ends_mono; [apply handshake_recv_ends|]. intros [[buf1 e1] c2] w3 Ht3.
  destruct (endpoint_events_loop_ends fuel handle e1 (handshake_timeout (age w / R) c2)) as [[e2 c3] He];
    [pose proof (evs_bound (handshake_timeout (age w / R) c2)); lia|].
  apply ends_bind. eapply ends_pure; [exact He|].
  destruct (poll_loop_ends fuel c3) as [[settled c4] Hp]; [pose proof (apps_bound c3); lia|].
  apply ends_bind. eapply ends_pure; [exact Hp|].
  destruct settled as [r|]; [apply poll_loop_settled in Hp; destruct r as [[]|reason]|].
  - apply ends_bind. eapply ends_mono; [by apply drain_handshake_spec|].
    intros c5 w4 [_ Hc5]. by apply ends_ret.
  - apply ends_ret. right. destruct Hp as [c0 Hc0]. by exists reason, c0.
  - destruct (conn_is_handshaking c4) eqn:Eh.
    + apply ends_ret. split; tlia.
    + apply ends_bind. eapply ends_mono; [apply drain_handshake_spec; [done|by apply established_state]|].
      intros c5 w4 [_ Hc5]. by apply ends_ret.
Qed.

Lemma handshake_passes_ends passes fuel fd addr handle deadline buf e (c : QC) w :
  (K < fuel)%nat → (deadline + 1) * R - age w < Z.of_nat passes → (0 < passes)%nat →
  ends (handshake_passes passes fuel fd addr handle deadline buf e c) w (λ '(r, _, c') w',
    handshake_result deadline r c' (age w')).
Proof using QP RL TL.
  intros Hf. revert buf e c w. induction passes as [|n IH]; intros buf e c w Hd Hn; [lia|].
  cbn [handshake_passes]. apply ends_bind. eapply ends_mono; [by apply handshake_pass_ends|].
  intros [[[r buf'] e'] c'] w' Hr. destruct r as [r|]; [by apply ends_ret|].
  destruct Hr as [Hle Hlt]. apply IH; [lia|]. pose proof clock_rate.
  assert (age w < (deadline + 1) * R); [|lia].
  pose proof (Z.mul_succ_div_gt (age w) R). nia.
Qed.
End bounded.

(** C22: the QUIC handshake always returns, and for a reason. With a clock that
    does not go back and gives the same value at most [R] times in a row,
    (5 000 000 001 R + 1) passes are enough for any server, and no pass loops or
    panics inside. It returns success only on a connection that has said it is
    connected or has stopped handshaking, the time-out error only when more
    than five seconds have passed since it began, the rejection only with the
    reason the connection was lost for; and the first pass that begins more
    than five seconds after the start gives up at once, with nothing sent. *)
Theorem quic_handshake_ends `{Libc W, Clock W} `{!TimeLaws W R age} `{!RecvLaws W}
    `{QuinnProgress QC E Cfg K txs evs apps} passes fuel fd e (c : QC) handle addr w :
  (K < fuel)%nat → 5000000001 * R < Z.of_nat passes →
  let deadline := age w / R + 5000000000 in
  ends (quic_handshake passes fuel fd e c handle addr) w (λ '(r, _, c') w',
    match r with
    | Ok _ => established c'
    | Err e =>
        (e = TQuic (str "handshake timeout (5s)") ∧ deadline < age w' / R) ∨
        (∃ reason c0, e = TQuic (str "handshake rejected: " ++ reason) ∧
           conn_poll c0 = (Some (EvConnectionLost reason), c'))
    end) ∧
  ∀ p buf e' (c' : QC) w', deadline < age w' / R →
    handshake_passes (S p) fuel fd addr handle deadline buf e' c' w'
    = Ret (Err (TQuic (str "handshake timeout (5s)")), e', c', (instant_now w').2).
Proof.
  intros Hf Hp deadline. pose proof clock_rate. split.
  - unfold quic_handshake. apply ends_bind, ends_call.
    pose proof (instant_time w) as [-> Ht]. apply handshake_passes_ends; [done| |lia].
    change (HANDSHAKE_SECS * NANOS_PER_SEC) with 5000000000.
    pose proof (Z.mul_div_le (age w) R). nia.
  - intros p buf e' c' w' Hd. cbn [handshake_passes]. unfold mbind, M_bind.
    by rewrite handshake_pass_late.
Qed.

(** * A server that never answers, for the example *)

(** The clock moves with every third reading. *)
Record silent := mkSilent { si_time : Z }.
#[export] Instance silent_libc : Libc silent := {
  tcp_connect _ w := (Err (Os ECONNREFUSED), w);
  set_nodelay _ w := (Ok (), w);
  udp_bind _ w := (Ok 5, w);
  set_nonblocking _ w := (Ok (), w);
  libc_send _ l w := (zlen l, w);
  libc_recv _ _ w := (-1, [], w);
  libc_recvfrom _ _ w := (-1, [], w);
  libc_sendto _ l _ _ w := (zlen l, w);
  libc_sendmsg _ _ _ l _ w := (zlen l, w);
  errno _ := EAGAIN;
}.
#[export] Instance silent_clock : Clock silent := {
  rdtsc w := (si_time w, mkSilent (si_time w + 1));
  instant_now w := (si_time w / 3, mkSilent (si_time w + 1));
}.
#[export] Instance silent_time : TimeLaws silent 3 si_time.
Proof. split; intros; cbn; lia. Qed.
#[export] Instance silent_recv : RecvLaws silent.
Proof. split; intros; cbn; lia. Qed.

(** A connection that has sent its first flight and waits. *)
#[export] Instance waiting_quinn : Quinn bool unit unit := {
  endpoint_event := unit;
  connection_event := unit;
  endpoint_new := ();
  endpoint_connect e _ _ _ _ := (Ok (0, true), e);
  endpoint_handle e _ _ _ := (None, [], e);
  endpoint_handle_event e _ _ := (None, e);
  conn_is_closed _ := false;
  conn_is_drained _ := false;
  conn_is_handshaking _ := true;
  streams_open_uni c := (None, c);
  write_chunks c _ _ := (Ok 0, c);
  stream_finish c _ := c;
  poll_transmit c _ _ := if c then (Some (7, str "initial"), false) else (None, false);
  poll_timeout c := (None, c);
  handle_timeout c _ := c;
  poll_endpoint_events c := (None, c);
  conn_handle_event c _ := c;
  conn_poll c := (None, c);
}.
#[export] Instance waiting_progress :
  QuinnProgress bool unit unit 1 (λ c, if c then 1 else 0)%nat (λ _, 0%nat) (λ _, 0%nat).
Proof.
  split; cbn; intros; try done; try lia.
  - destruct c; lia.
  - destruct c; [|done]. cbn in *. simplify_eq. split; [lia|compute_done].
Qed.

Lemma quic_handshake_ends_witness :
  ends (quic_handshake (Z.to_nat 15000000004) 4 5 () true 0 (V4 (z2b <$> [127; 0; 0; 1]) 443))
    (mkSilent 0) (λ '(r, _, c') w',
      match r with Ok _ => established c' | Err e => e ≠ TQuic (str "handshake timeout (5s)") end ∨
      5000000000 < si_time w' / 3).
Proof.
  destruct (quic_handshake_ends (W := silent) (QC := bool) (E := unit) (Cfg := unit)
    (Z.to_nat 15000000004) 4 5 () true 0 (V4 (z2b <$> [127; 0; 0; 1]) 443) (mkSilent 0)) as [He _];
    [lia|rewrite Z2Nat.id; [reflexivity|lia]|].
  eapply ends_mono; [exact He|]. intros [[[[]|e] ep] c'] w' Hr; [by left|].
  destruct Hr as [[-> Hd]|(reason&c0&->&_)]; [right; exact Hd|left]. vm_compute. discriminate.
Defined.
