(* ===== verification/Conn.v ===== *)
(** Connections, conn/mod.rs: an HTTP engine over a byte transport, a QUIC
    engine with its response window, and the active/standby pair a provider
    has. *)
From S2P Require Import Prelude Str Types Envelope Http Backend Quic.
From stdpp Require Import options.

(** * HttpConn *)

Record HttpConn (B C T : Type) := mkHttpConn {
  hc_io : B;
  hc_raw : C;
  hc_engine : HttpEngine T;
}.
Arguments mkHttpConn {B C T}.
Arguments hc_io {B C T}.
Arguments hc_raw {B C T}.
Arguments hc_engine {B C T}.

Definition RX_LEN : nat := 4096.

Section http_conn.
Context `{BuildProfile} `{ByteIo W B C} `{Tls T}.
Context (base64 : bytes → bytes).

(** [while engine.is_handshaking() { .. }]. *)
Fixpoint connect_loop (passes fuel : nat) (io : B) (raw : C) (e : HttpEngine T) (rx : bytes) :
    M W (result (HttpConn B C T) TransportError) :=
  match passes with
  | O => λ _, OutOfFuel
  | S p =>
      if engine_is_handshaking e then
        '(out, e) ← pure (handshake_ciphertext fuel e);
        '(r, (io, raw)) ← (match out with
                           | [] => mret (Ok (), (io, raw))
                           | _ => io_submit io raw Stream out
                           end : M W _);
        match r with
        | Err err => mret (Err (TIo err))
        | Ok _ =>
            io ← io_drive io;
            '(r, rx, (io, raw)) ← io_poll_recv io raw rx;
            match r with
            | Err err => mret (Err (TIo err))
            | Ok n =>
                if n =? 0 then connect_loop p fuel io raw e rx
                else
                  data ← pure (slice_to n rx);
                  '(r, e) ← pure (ingest fuel e data);
                  match r with
                  | Err err => mret (Err err)
                  | Ok _ => connect_loop p fuel io raw e rx
                  end
            end
        end
      else mret (Ok (mkHttpConn io raw e))
  end.

(** [format!(.., host, port)] with a colon between them. *)
Definition endpoint_addr (ep : HttpEndpoint) : bytes :=
  ep_host ep ++ str ":" ++ decimal (ep_port ep).

Definition connect_with (passes fuel : nat) (io : B) (cfg : ProviderConfig) (env : EnvelopeTemplate) :
    M W (result (HttpConn B C T) TransportError) :=
  '(r, io) ← io_connect io (endpoint_addr (pc_endpoint cfg));
  match r with
  | Err e => mret (Err (TConnect e))
  | Ok raw =>
      match engine_new (ep_server_name (pc_endpoint cfg)) env with
      | Err e => mret (Err e)
      | Ok engine => connect_loop passes fuel io raw engine (zeroes RX_LEN)
      end
  end.

Definition http_send_tx (fuel : nat) (h : HttpConn B C T) (tx : bytes) :
    M W (result unit TransportError * HttpConn B C T) :=
  '(r, e) ← pure (encode base64 fuel (hc_engine h) tx);
  match r with
  | Err err => mret (Err err, mkHttpConn (hc_io h) (hc_raw h) e)
  | Ok cipher =>
      '(r, (io, raw)) ← io_submit (hc_io h) (hc_raw h) Stream cipher;
      mret (map_err TIo r, mkHttpConn io raw e)
  end.

Definition http_drive (h : HttpConn B C T) : M W (HttpConn B C T) :=
  io ← io_drive (hc_io h);
  mret (mkHttpConn io (hc_raw h) (hc_engine h)).

Definition poll_response (fuel : nat) (h : HttpConn B C T) :
    M W (result (option bytes) TransportError * HttpConn B C T) :=
  '(r, rx, (io, raw)) ← io_poll_recv (hc_io h) (hc_raw h) (zeroes RX_LEN);
  match r with
  | Err e => mret (Err (TIo e), mkHttpConn io raw (hc_engine h))
  | Ok n =>
      data ← (if n =? 0 then mret [] else pure (slice_to n rx));
      '(r, e) ← pure (ingest fuel (hc_engine h) data);
      mret (r, mkHttpConn io raw e)
  end.
End http_conn.

(** * QuicConn *)

Definition QUIC_RESPONSE_WINDOW_MS : Z := 500.

Record QuicConn (QE : Type) := mkQuicConn {
  qc_engine : QE;
  qc_inflight : option (Z * Z);
  qc_sent_at : option Z;
}.
Arguments mkQuicConn {QE}.
Arguments qc_engine {QE}.
Arguments qc_inflight {QE}.
Arguments qc_sent_at {QE}.

Definition quic_conn_new {QE} (e : QE) : QuicConn QE := mkQuicConn e None None.

Section quic_conn.
Context `{Libc W, Clock W, Quinn QC E Cfg}.
Abbreviation QE := (QuicEngine QC E).

Definition conn_send_tx (fuel : nat) (q : QuicConn QE) (job : Job) (sent_tsc : Z) (tx : bytes) :
    M W (result unit TransportError * QuicConn QE) :=
  now ← call instant_now;
  '(r, e) ← quic_send_tx fuel (qc_engine q) tx now;
  match r with
  | Err err => mret (Err err, mkQuicConn e (qc_inflight q) (qc_sent_at q))
  | Ok _ => mret (Ok (), mkQuicConn e (Some (job_id job, sent_tsc)) (Some now))
  end.

(** [sent_at.elapsed()]: the time since, and no less than zero. *)
Definition elapsed (now sent_at : Z) : Z := Z.max 0 (now - sent_at).

Definition poll_noresp_window (q : QuicConn QE) : M W (option (Z * Z) * QuicConn QE) :=
  match qc_inflight q, qc_sent_at q with
  | Some (jid, sent_tsc), Some sent_at =>
      now ← call instant_now;
      if QUIC_RESPONSE_WINDOW_MS * NANOS_PER_MS <? elapsed now sent_at
      then mret (Some (jid, sent_tsc), mkQuicConn (qc_engine q) None None)
      else mret (None, q)
  | _, _ => mret (None, q)
  end.

Definition conn_drive (fuel : nat) (q : QuicConn QE) : M W (QuicConn QE) :=
  now ← call instant_now;
  e ← quic_drive fuel (qc_engine q) now;
  mret (mkQuicConn e (qc_inflight q) (qc_sent_at q)).

Definition is_dead (q : QuicConn QE) : bool := quic_is_closed (qc_engine q).
End quic_conn.

(** * ConnState *)

Inductive ConnState (H Q : Type) :=
| CsHttp (h : H)
| CsQuic (q : Q).
Arguments CsHttp {H Q}.
Arguments CsQuic {H Q}.

(** What a worker calls on the two kinds of connection. *)
Class Conns (W H Q : Type) := {
  h_send_tx : H → bytes → M W (result unit TransportError * H);
  h_poll_response : H → M W (result (option bytes) TransportError * H);
  h_drive : H → M W H;
  q_send_tx : Q → Job → Z → bytes → M W (result unit TransportError * Q);
  q_poll_noresp_window : Q → M W (option (Z * Z) * Q);
  q_drive : Q → M W Q;
  q_is_dead : Q → bool;
}.

Definition drive `{Conns W H Q} (c : ConnState H Q) : M W (ConnState H Q) :=
  match c with
  | CsHttp h => h ← h_drive h; mret (CsHttp h)
  | CsQuic q => q ← q_drive q; mret (CsQuic q)
  end.

(** The connections above are such connections. *)
Definition crate_conns `{BuildProfile, ByteIo W B C, Tls T, Libc W, Clock W, Quinn QC E Cfg}
    (base64 : bytes → bytes) (fuel : nat) :
    Conns W (HttpConn B C T) (QuicConn (QuicEngine QC E)) := {|
  h_send_tx := http_send_tx base64 fuel;
  h_poll_response := poll_response fuel;
  h_drive := http_drive;
  q_send_tx := conn_send_tx fuel;
  q_poll_noresp_window := poll_noresp_window;
  q_drive := conn_drive fuel;
  q_is_dead := is_dead;
|}.

(** * DualConn *)

Record ConnSlot (C : Type) := mkConnSlot { conn : C; healthy : bool }.
Arguments mkConnSlot {C}.
Arguments conn {C}.
Arguments healthy {C}.

Record DualConn (C : Type) := mkDualConn { active : ConnSlot C; standby : ConnSlot C }.
Arguments mkDualConn {C}.
Arguments active {C}.
Arguments standby {C}.

Section dual.
Context {C : Type}.

Definition dual_new (a s : C) : DualConn C := mkDualConn (mkConnSlot a true) (mkConnSlot s true).

Definition swap (d : DualConn C) : DualConn C :=
  mkDualConn (mkConnSlot (conn (standby d)) true) (active d).

Definition replace_standby (d : DualConn C) (c : C) : DualConn C :=
  mkDualConn (active d) (mkConnSlot c true).

(** [self.active.conn] after a call on it. *)
Definition set_active (d : DualConn C) (c : C) : DualConn C :=
  mkDualConn (mkConnSlot c (healthy (active d))) (standby d).
End dual.

Definition http_conn_failed_io (e : io_error) : bool :=
  match kind e with
  | UnexpectedEof | BrokenPipe | ConnectionReset | ConnectionAborted => true
  | _ => false
  end.

(** * Theorems *)

(** ** A QUIC connection in use *)

(** What its worker does with a connection, and what can be seen of it: the
    instant of each call, and its answer. *)
Inductive quic_op := QSend (job : Job) (sent_tsc : Z) (tx : bytes) | QPoll | QDrive.
Inductive quic_obs :=
| ObsSent (at_ : Z) (job : Z * Z)
| ObsRefused
| ObsPoll (at_ : Z) (answer : option (Z * Z))
| ObsDriven.

Section ops.
Context `{Libc W, Clock W, Quinn QC E Cfg}.
Implicit Types (q : QuicConn (QuicEngine QC E)) (obs : list quic_obs).

(** What the clock says, without reading it. *)
Definition peek : M W Z := λ w, Ret ((instant_now w).1, w).

Definition quic_op_run (fuel : nat) (op : quic_op) q : M W (quic_obs * QuicConn (QuicEngine QC E)) :=
  t ← peek;
  match op with
  | QSend job tsc tx =>
      '(r, q) ← conn_send_tx fuel q job tsc tx;
      mret (match r with Ok _ => ObsSent t (job_id job, tsc) | Err _ => ObsRefused end, q)
  | QPoll => '(r, q) ← poll_noresp_window q; mret (ObsPoll t r, q)
  | QDrive => q ← conn_drive fuel q; mret (ObsDriven, q)
  end.

Fixpoint quic_ops_run (fuel : nat) (ops : list quic_op) q :
    M W (list quic_obs * QuicConn (QuicEngine QC E)) :=
  match ops with
  | [] => mret ([], q)
  | op :: ops =>
      '(o, q) ← quic_op_run fuel op q;
      '(obs, q) ← quic_ops_run fuel ops q;
      mret (o :: obs, q)
  end.

(** [o] leaves a job that waits for its window waiting. *)
Definition leaves_waiting (o : quic_obs) : Prop :=
  match o with ObsSent _ _ | ObsPoll _ (Some _) => False | _ => True end.

(** [job], sent at [t], waits for its window: it is the last one that was
    accepted, and has not been handed out. *)
Definition waits obs (job : Z * Z) (t : Z) : Prop :=
  ∃ i, obs !! i = Some (ObsSent t job) ∧
    ∀ k o, (i < k)%nat → obs !! k = Some o → leaves_waiting o.

Lemma waits_sent obs job t t' job' :
  waits (obs ++ [ObsSent t job]) job' t' ↔ job' = job ∧ t' = t.
Proof.
  split.
  - intros (i&Hi&Hk). apply lookup_app_Some in Hi as [Hi|[Hle Hi]].
    + apply lookup_lt_Some in Hi. destruct (Hk (length obs) (ObsSent t job) Hi).
      by rewrite list_lookup_middle.
    + apply list_lookup_singleton_Some in Hi as [_ [= -> ->]]. done.
  - intros [-> ->]. exists (length obs). split; [by rewrite list_lookup_middle|].
    intros k o Hlt Hk%lookup_lt_Some. rewrite length_app in Hk. cbn in Hk. lia.
Qed.

Lemma waits_keep obs o job t :
  leaves_waiting o → waits (obs ++ [o]) job t ↔ waits obs job t.
Proof.
  intros Ho. split; intros (i&Hi&Hk); exists i.
  - apply lookup_app_Some in Hi as [Hi|[Hle Hi]].
    + split; [done|]. intros k o' Hlt Hk'. apply (Hk k); [done|]. by apply lookup_app_l_Some.
    + by apply list_lookup_singleton_Some in Hi as [_ ->].
  - split; [by apply lookup_app_l_Some|]. intros k o' Hlt [Hk'|[_ Hk']]%lookup_app_Some; [by eapply Hk|].
    by apply list_lookup_singleton_Some in Hk' as [_ <-].
Qed.

Lemma waits_settled obs at_ a job t : ¬ waits (obs ++ [ObsPoll at_ (Some a)]) job t.
Proof.
  intros (i&Hi&Hk). apply lookup_app_Some in Hi as [Hi|[_ Hi]].
  - apply lookup_lt_Some in Hi. apply (Hk (length obs) (ObsPoll at_ (Some a)) Hi).
    by rewrite list_lookup_middle.
  - by apply list_lookup_singleton_Some in Hi as [_ ?].
Qed.

(** The fields of a connection that has [obs] behind it. *)
Definition window_inv obs q : Prop :=
  ∀ job t, waits obs job t ↔ qc_inflight q = Some job ∧ qc_sent_at q = Some t.

Lemma window_inv_new e : window_inv [] (quic_conn_new e).
Proof. intros job t. split; [by intros (i&?&_)|by intros [? _]]. Qed.

Lemma window_inv_keep obs o q q' :
  leaves_waiting o → qc_inflight q' = qc_inflight q → qc_sent_at q' = qc_sent_at q →
  window_inv obs q → window_inv (obs ++ [o]) q'.
Proof. intros Ho Hi Hs Hw job t. by rewrite waits_keep, Hi, Hs. Qed.

(** A poll at [t] after [obs] hands out what waits and is due. *)
Definition answers obs (o : quic_obs) : Prop :=
  match o with
  | ObsPoll t r => ∀ a, r = Some a ↔ ∃ t0, waits obs a t0 ∧ 500000000 < t - t0
  | _ => True
  end.

Lemma poll_window_inv obs q t w :
  window_inv obs q → (instant_now w).1 = t →
  post (poll_noresp_window q) w (λ '(r, q') _,
    window_inv (obs ++ [ObsPoll t r]) q' ∧ answers obs (ObsPoll t r)).
Proof.
  intros Hinv Ht. pose proof Hinv as Hw. unfold window_inv in Hw. unfold poll_noresp_window.
  assert ((qc_inflight q = None ∨ qc_sent_at q = None) → ∀ a t0, ¬ waits obs a t0) as Hnone.
  { intros Hn a t0 [Hi Hs]%Hw. destruct Hn; congruence. }
  destruct (qc_inflight q) as [[jid tsc]|] eqn:Ei, (qc_sent_at q) as [t0|] eqn:Es.
  2, 3, 4: apply post_ret; split; [by eapply window_inv_keep|]; intros a; split; [done|]; intros (t1&Hwt&_); exfalso; eapply Hnone; eauto.
  apply post_bind, post_call. rewrite Ht.
  assert ((QUIC_RESPONSE_WINDOW_MS * NANOS_PER_MS <? elapsed t t0) = (500000000 <? t - t0)) as ->.
  { unfold elapsed. apply eq_true_iff_eq. rewrite !Z.ltb_lt.
    change (QUIC_RESPONSE_WINDOW_MS * NANOS_PER_MS) with 500000000. lia. }
  assert (∀ a t1, waits obs a t1 ↔ a = (jid, tsc) ∧ t1 = t0) as Hone.
  { intros a t1. rewrite Hw. split; [intros [? ?]|intros [-> ->]]; split; congruence. }
  destruct (Z.ltb_spec 500000000 (t - t0)) as [Hlate|Hearly]; apply post_ret.
  - split.
    + intros job t1. split; [by intros []%waits_settled|by intros [? _]].
    + intros a. split; [intros [= <-]; exists t0; by rewrite Hone|].
      intros (t1&Hwt&_). apply Hone in Hwt as [-> _]. done.
  - split.
    + by eapply window_inv_keep.
    + intros a. split; [done|]. intros (t1&Hwt&Hl). apply Hone in Hwt as [_ ->]. lia.
Qed.

(** The observation is of the operation. *)
Definition observes (op : quic_op) (o : quic_obs) : Prop :=
  match op, o with
  | QSend job tsc _, ObsSent _ sent => sent = (job_id job, tsc)
  | QSend _ _ _, ObsRefused | QPoll, ObsPoll _ _ | QDrive, ObsDriven => True
  | _, _ => False
  end.

Lemma quic_op_inv fuel op obs q w :
  window_inv obs q →
  post (quic_op_run fuel op q) w (λ '(o, q') _,
    window_inv (obs ++ [o]) q' ∧ answers obs o ∧ observes op o).
Proof.
  intros Hinv. unfold quic_op_run. apply post_bind. unfold peek at 1. unfold post at 1.
  destruct op as [job tsc tx| |].
  - apply post_bind. unfold conn_send_tx. apply post_bind, post_call, post_bind, post_any.
    intros [[[]|err] e] w'; apply post_ret, post_ret; (split; [|done]).
    + intros job' t. rewrite waits_sent. cbn.
      split; [by intros [-> ->]|by intros [[= <-] [= <-]]].
    + by eapply window_inv_keep.
  - apply post_bind. eapply post_mono; [by apply (poll_window_inv obs)|].
    intros [r q'] w' [Hi Ha]. by apply post_ret.
  - apply post_bind. unfold conn_drive. apply post_bind, post_call, post_bind, post_any.
    intros e w'. apply post_ret, post_ret. split; [|done]. by eapply window_inv_keep.
Qed.

Lemma quic_ops_inv fuel ops obs0 q w :
  window_inv obs0 q →
  post (quic_ops_run fuel ops q) w (λ '(obs, _) _, Forall2 observes ops obs ∧
    ∀ j o, obs !! j = Some o → answers (obs0 ++ take j obs) o).
Proof.
  revert obs0 q w. induction ops as [|op ops IH]; intros obs0 q w Hinv; cbn [quic_ops_run].
  { by apply post_ret. }
  apply post_bind. eapply post_mono; [by apply quic_op_inv|]. intros [o q'] w' (Hinv'&Ho&Hop).
  apply post_bind. eapply post_mono; [by apply (IH (obs0 ++ [o]))|]. intros [obs q''] w'' [Hops Hobs].
  apply post_ret. split; [by constructor|]. intros [|j] o' Hj; cbn in Hj |- *.
  - injection Hj as <-. by rewrite app_nil_r.
  - apply Hobs in Hj. by rewrite <- app_assoc in Hj.
Qed.
End ops.

(** A QUIC connection that is open and takes whatever is written. *)
#[export] Instance open_quinn : Quinn nat unit unit := {
  endpoint_event := unit;
  connection_event := unit;
  endpoint_new := ();
  endpoint_connect e _ _ _ _ := (Ok (0, O), e);
  endpoint_handle e _ _ _ := (None, [], e);
  endpoint_handle_event e _ _ := (None, e);
  conn_is_closed _ := false;
  conn_is_drained _ := false;
  conn_is_handshaking _ := false;
  streams_open_uni c := (Some (Z.of_nat c), S c);
  write_chunks c _ l := (Ok (zlen l), c);
  stream_finish c _ := c;
  poll_transmit c _ _ := (None, c);
  poll_timeout c := (None, c);
  handle_timeout c _ := c;
  poll_endpoint_events c := (None, c);
  conn_handle_event c _ := c;
  conn_poll c := (None, c);
}.
Definition sample_quic : QuicConn (QuicEngine nat unit) :=
  quic_conn_new (mkQuicEngine () (Some O) 0 5 (V4 (z2b <$> [127; 0; 0; 1]) 443) [] [] [] None).

(** On plain sockets the end of the stream is a failure the worker acts
    on: when the peer has closed, [poll_response] reports [UnexpectedEof],
    which [http_conn_failed_io] takes for a dead connection. *)
Theorem raw_eof_is_failure `{BuildProfile} `{Libc W} `{Tls T} fuel
    (h : HttpConn RawLibc RawConn T) w w' data :
  libc_recv (stream_fd (hc_raw h)) RX_LEN w = (0, data, w') →
  poll_response (H0 := raw_libc_io (S fuel)) fuel h w
    = Ret (Err (TIo (Simple UnexpectedEof)), h, w') ∧
  http_conn_failed_io (Simple UnexpectedEof) = true.
Proof.
  intros Hr. split; [|done]. unfold poll_response. cbn [io_poll_recv raw_libc_io].
  unfold raw_poll_recv. cbn [recv_loop]. unfold mbind, M_bind, call.
  rewrite length_zeroes, Hr. by destruct h as [[] ? ?].
Qed.

Lemma raw_eof_is_failure_witness :
  let h := mkHttpConn mkRawLibc (mkRawConn 3) sample_engine in
  poll_response (H := true) (H0 := raw_libc_io 2) 1 h (mkDemo [] Taking 0 [[]])
  = Ret (Err (TIo (Simple UnexpectedEof)), h, mkDemo [] Taking 0 []).
Proof.
  intros h. by apply (raw_eof_is_failure (H := true) 1 h _ _ []).
Defined.
