(* ===== verification/Uring.v ===== *)
(** The io_uring transport, backend/io_uring.rs, over a class for the io-uring
    crate's ring. *)
From S2P Require Import Prelude Types Backend Envelope Http Quic Conn.
From stdpp Require Import options.

Definition OP_SEND : Z := 0.
Definition OP_RECV : Z := 1.
Definition RX_CAP : nat := 4096.
Definition RING_ENTRIES : Z := 256.

Inductive IoUringMode := BatchSyscall | SqeStream.
Record SqpollCfg := mkSqpollCfg { sq_poll_core : Z; sq_idle_ms : Z }.
Record IoUringTuning := mkIoUringTuning { tun_sqpoll : option SqpollCfg }.
Definition tuning_default : IoUringTuning := mkIoUringTuning None.

(** * The ring *)

(** A submission: the buffer a send points to, the length a receive asks for,
    and the user data that comes back with the completion. *)
Inductive sqe :=
| SqSend (fd : Z) (buf : bytes) (user_data : Z)
| SqRecv (fd : Z) (len : nat) (user_data : Z).

Record cqe := mkCqe { cq_user_data : Z; cq_result : Z }.

(** The operations of [io_uring::IoUring] the transport calls, over the ring's
    state [R]. [sq_push] gives nothing when the queue is full; [cq_drain] is
    [sync] and the iteration over the completions; [rx_memory] is what the
    kernel has written to the buffer of the receive with the given user data. *)
Class Uring (W R : Type) := {
  ring_build : option SqpollCfg → Z → W → result R io_error * W;
  sq_push : R → sqe → option R;
  ring_submit : R → W → result unit io_error * R * W;
  cq_drain : R → W → list cqe * R * W;
  rx_memory : R → Z → bytes;
}.

(** * The transport *)

Record UringConn := mkUringConn {
  uc_fd : Z;
  uc_idx : Z;
  uc_rx_buf : bytes;
  uc_recv_in_flight : bool;
  uc_send_in_flight : list bytes;
}.

Record IoUring (R : Type) := mkIoUring {
  iu_ring : R;
  iu_mode : IoUringMode;
  iu_sqpoll : bool;
  iu_next_idx : Z;
  iu_pending : list sqe;
  iu_completed_sends : gmap Z Z;
  iu_completed_recvs : gmap Z Z;
}.
Arguments mkIoUring {R}.
Arguments iu_ring {R}.
Arguments iu_mode {R}.
Arguments iu_sqpoll {R}.
Arguments iu_next_idx {R}.
Arguments iu_pending {R}.
Arguments iu_completed_sends {R}.
Arguments iu_completed_recvs {R}.

(** [(idx << 1) | op] on [u64]. *)
Definition ud (idx op : Z) : Z := Z.lor (Z.shiftl idx 1 mod U64) op.

Definition map_setup_err (e : io_error) : io_error :=
  if bool_decide (raw_os_error e = Some ENOSYS) || bool_decide (raw_os_error e = Some EPERM)
  then Custom Unsupported e
  else e.

Section uring.
Context `{BuildProfile} `{Libc W} `{Uring W R}.
Abbreviation uring := (IoUring R).

Definition with_ring (r : R) (u : uring) : uring :=
  mkIoUring r (iu_mode u) (iu_sqpoll u) (iu_next_idx u) (iu_pending u) (iu_completed_sends u)
    (iu_completed_recvs u).
Definition with_pending (p : list sqe) (u : uring) : uring :=
  mkIoUring (iu_ring u) (iu_mode u) (iu_sqpoll u) (iu_next_idx u) p (iu_completed_sends u)
    (iu_completed_recvs u).
Definition with_completed (s r : gmap Z Z) (u : uring) : uring :=
  mkIoUring (iu_ring u) (iu_mode u) (iu_sqpoll u) (iu_next_idx u) (iu_pending u) s r.

Definition uring_new (mode : IoUringMode) (tuning : IoUringTuning) : M W (result uring io_error) :=
  r ← call (ring_build (tun_sqpoll tuning) RING_ENTRIES);
  mret (match r with
        | Err e => Err (map_setup_err e)
        | Ok ring =>
            Ok (mkIoUring ring mode (match tun_sqpoll tuning with Some _ => true | None => false end)
                  0 [] ∅ ∅)
        end).

Definition flush_submit (u : uring) : M W (result unit io_error * uring) :=
  if iu_sqpoll u then mret (Ok (), u)
  else λ w, let '(r, ring, w) := ring_submit (iu_ring u) w in Ret (r, with_ring ring u, w).

(** One completion of [reap]; the send counter is a [u32]. *)
Definition reap_one (u : uring) (c : cqe) : outcome uring :=
  let key := cq_user_data c in
  if Z.land key 1 =? OP_SEND then
    n ← add_mod U32 (default 0 (iu_completed_sends u !! key)) 1;
    Ret (with_completed (<[key := n]> (iu_completed_sends u)) (iu_completed_recvs u) u)
  else
    Ret (with_completed (iu_completed_sends u) (<[key := cq_result c]> (iu_completed_recvs u)) u).

Fixpoint reap_all (u : uring) (cs : list cqe) : outcome uring :=
  match cs with
  | [] => Ret u
  | c :: cs => u ← reap_one u c; reap_all u cs
  end.

Definition uring_reap (u : uring) : M W uring := λ w,
  let '(cs, ring, w) := cq_drain (iu_ring u) w in
  pure (reap_all (with_ring ring u) cs) w.

(** The loop of [push_sqe]. *)
Fixpoint push_sqe (fuel : nat) (u : uring) (e : sqe) : M W (result unit io_error * uring) :=
  match fuel with
  | O => λ _, OutOfFuel
  | S f =>
      match sq_push (iu_ring u) e with
      | Some ring => mret (Ok (), with_ring ring u)
      | None =>
          '(r, u) ← flush_submit u;
          match r with
          | Err err => mret (Err err, u)
          | Ok _ => u ← uring_reap u; push_sqe f u e
          end
      end
  end.

(** The entry taken from the queue is lost if the flush fails. *)
Fixpoint drain_pending (fuel n : nat) (u : uring) : M W (result unit io_error * uring) :=
  match n with
  | O => mret (Ok (), u)
  | S n =>
      match iu_pending u with
      | [] => mret (Ok (), u)
      | e :: es =>
          '(r, u) ← push_sqe fuel (with_pending es u) e;
          match r with
          | Err err => mret (Err err, u)
          | Ok _ => drain_pending fuel n u
          end
      end
  end.

Definition reclaim_sends (u : uring) (c : UringConn) : uring * UringConn :=
  let key := ud (uc_idx c) OP_SEND in
  match iu_completed_sends u !! key with
  | Some n =>
      (with_completed (delete key (iu_completed_sends u)) (iu_completed_recvs u) u,
       mkUringConn (uc_fd c) (uc_idx c) (uc_rx_buf c) (uc_recv_in_flight c)
         (drop (Z.to_nat n) (uc_send_in_flight c)))
  | None => (u, c)
  end.

Definition drive_inner (fuel : nat) (u : uring) : M W (result unit io_error * uring) :=
  '(r, u) ← (match iu_mode u with
             | BatchSyscall => drain_pending fuel (length (iu_pending u)) u
             | SqeStream => mret (Ok (), u)
             end);
  match r with
  | Err err => mret (Err err, u)
  | Ok _ =>
      '(r, u) ← flush_submit u;
      match r with
      | Err err => mret (Err err, u)
      | Ok _ => u ← uring_reap u; mret (Ok (), u)
      end
  end.

Definition uring_connect (u : uring) (endpoint : bytes) : M W (result UringConn io_error * uring) :=
  r ← call (tcp_connect endpoint);
  match r with
  | Err e => mret (Err e, u)
  | Ok fd =>
      r ← call (set_nodelay fd);
      match r with
      | Err e => mret (Err e, u)
      | Ok _ =>
          next ← pure (add_mod U64 (iu_next_idx u) 1);
          mret (Ok (mkUringConn fd (iu_next_idx u) (zeroes RX_CAP) false []),
                mkIoUring (iu_ring u) (iu_mode u) (iu_sqpoll u) next (iu_pending u)
                  (iu_completed_sends u) (iu_completed_recvs u))
      end
  end.

Definition uring_submit (fuel : nat) (u : uring) (c : UringConn) (kind : Wire) (data : bytes) :
    M W (result unit io_error * (uring * UringConn)) :=
  match kind with
  | Datagram _ => mret (Err (Simple Unsupported), (u, c))
  | Stream =>
      let c := mkUringConn (uc_fd c) (uc_idx c) (uc_rx_buf c) (uc_recv_in_flight c)
                 (uc_send_in_flight c ++ [data]) in
      let e := SqSend (uc_fd c) data (ud (uc_idx c) OP_SEND) in
      match iu_mode u with
      | SqeStream =>
          '(r, u) ← push_sqe fuel u e;
          match r with
          | Err err => mret (Err err, (u, c))
          | Ok _ => '(r, u) ← flush_submit u; mret (r, (u, c))
          end
      | BatchSyscall => mret (Ok (), (with_pending (iu_pending u ++ [e]) u, c))
      end
  end.

(** The end of [poll_recv]: a completed receive, if there is one. *)
Definition take_recv (u : uring) (c : UringConn) (buf : bytes) :
    outcome (result Z io_error * bytes * (uring * UringConn)) :=
  let key := ud (uc_idx c) OP_RECV in
  match iu_completed_recvs u !! key with
  | None => Ret (Ok 0, buf, (u, c))
  | Some res =>
      let u' := with_completed (iu_completed_sends u) (delete key (iu_completed_recvs u)) u in
      let rx := written (rx_memory (iu_ring u) key) (uc_rx_buf c) in
      let c' := mkUringConn (uc_fd c) (uc_idx c) rx false (uc_send_in_flight c) in
      if res <? 0 then Ret (Err (Os (- res)), buf, (u', c'))
      else if res =? 0 then Ret (Ok 0, buf, (u', c'))
      else
        let copy := Z.min res (zlen buf) in
        src ← slice_to copy rx;
        buf ← write_at 0 src buf;
        Ret (Ok copy, buf, (u', c'))
  end.

Definition uring_poll_recv (fuel : nat) (u : uring) (c : UringConn) (buf : bytes) :
    M W (result Z io_error * bytes * (uring * UringConn)) :=
  '(r, u, c) ← (if uc_recv_in_flight c then mret (Ok (), u, c)
                else
                  '(r, u) ← push_sqe fuel u
                    (SqRecv (uc_fd c) (length (uc_rx_buf c)) (ud (uc_idx c) OP_RECV));
                  match r with
                  | Err err => mret (Err err, u, c)
                  | Ok _ =>
                      mret (Ok (), u, mkUringConn (uc_fd c) (uc_idx c) (uc_rx_buf c) true
                                        (uc_send_in_flight c))
                  end : M W (result unit io_error * uring * UringConn));
  match r with
  | Err err => mret (Err err, buf, (u, c))
  | Ok _ =>
      '(r, u) ← drive_inner fuel u;
      match r with
      | Err err => mret (Err err, buf, (u, c))
      | Ok _ =>
          let '(u, c) := reclaim_sends u c in
          pure (take_recv u c buf)
      end
  end.

Definition uring_drive (fuel : nat) (u : uring) : M W uring :=
  '(_, u) ← drive_inner fuel u;
  mret u.

(** [impl ByteIo for IoUring]. *)
Definition uring_io (fuel : nat) : ByteIo W uring UringConn := {|
  io_connect := uring_connect;
  io_submit := uring_submit fuel;
  io_poll_recv := uring_poll_recv fuel;
  io_drive := uring_drive fuel;
|}.
End uring.

(** * Keys *)

Lemma ud_op idx op : op = OP_SEND ∨ op = OP_RECV → Z.land (ud idx op) 1 = op.
Proof.
  intros Hop. unfold ud, U64. rewrite Z.shiftl_mul_pow2 by lia.
  change (2 ^ 64) with (2 ^ 63 * 2 ^ 1). rewrite Z.mul_mod_distr_r by lia.
  rewrite Z.land_lor_distr_l. replace (Z.land (idx mod 2 ^ 63 * 2 ^ 1) 1) with 0.
  - by destruct Hop as [-> | ->].
  - change 1 with (Z.ones 1) at 2. rewrite Z.land_ones by lia.
    change (2 ^ 1) with 2. by rewrite Z_mod_mult.
Qed.

(** What the code relies on when it files completions under their user data:
    connections and directions do not share a key. *)
Lemma ud_inj i j a b :
  0 ≤ i < 2 ^ 63 → 0 ≤ j < 2 ^ 63 → a = OP_SEND ∨ a = OP_RECV → b = OP_SEND ∨ b = OP_RECV →
  ud i a = ud j b → i = j ∧ a = b.
Proof.
  intros Hi Hj Ha Hb Hk. pose proof (ud_op i a Ha) as Hia. pose proof (ud_op j b Hb) as Hjb.
  rewrite Hk in Hia. assert (a = b) as <- by congruence. split; [|done].
  apply (f_equal (λ z, Z.shiftr z 1)) in Hk. unfold ud in Hk.
  rewrite !Z.shiftl_mul_pow2, !Z.mod_small, !Z.shiftr_lor, <- !Z.shiftl_mul_pow2,
    !Z.shiftr_shiftl_l in Hk by (unfold U64; lia).
  replace (Z.shiftr a 1) with 0 in Hk by (by destruct Ha as [-> | ->]).
  by rewrite !Z.lor_0_r, !Z.shiftl_0_r in Hk.
Qed.

(** * Completions *)

Section completions.
Context `{BuildProfile} `{Libc W} `{Uring W R}.
Implicit Type u : IoUring R.

Lemma reap_recv u idx res :
  reap_all u [mkCqe (ud idx OP_RECV) res]
  = Ret (with_completed (iu_completed_sends u)
           (<[ud idx OP_RECV := res]> (iu_completed_recvs u)) u).
Proof.
  cbn [reap_all]. unfold reap_one. cbn [cq_user_data cq_result].
  rewrite ud_op by (by right). done.
Qed.

Lemma reap_send u idx res :
  iu_completed_sends u !! ud idx OP_SEND = None →
  reap_all u [mkCqe (ud idx OP_SEND) res]
  = Ret (with_completed (<[ud idx OP_SEND := 1]> (iu_completed_sends u))
           (iu_completed_recvs u) u).
Proof.
  intros Hn. cbn [reap_all]. unfold reap_one. cbn [cq_user_data cq_result].
  rewrite ud_op by (by left). rewrite Hn. done.
Qed.

(** A poll with a receive in flight and nothing to send: flush, take the
    completions, then look at what they say. *)
Lemma poll_recv_armed fuel u c buf w u1 w1 cs ring2 w2 u2 :
  uc_recv_in_flight c = true → iu_pending u = [] →
  flush_submit u w = Ret (Ok (), u1, w1) →
  cq_drain (iu_ring u1) w1 = (cs, ring2, w2) →
  reap_all (with_ring ring2 u1) cs = Ret u2 →
  uring_poll_recv fuel u c buf w
  = pure (let '(u', c') := reclaim_sends u2 c in take_recv u' c' buf) w2.
Proof.
  intros Hc Hp Hf Hd Hr.
  assert (drive_inner fuel u w = Ret (Ok (), u2, w2)) as Hdr.
  { unfold drive_inner. rewrite Hp. unfold mbind, M_bind, mret, M_ret.
    destruct (iu_mode u); cbn [length drain_pending mret M_ret]; rewrite Hf;
      unfold uring_reap; by rewrite Hd, Hr. }
  unfold uring_poll_recv. rewrite Hc. unfold mbind, M_bind, mret, M_ret. rewrite Hdr.
  by destruct (reclaim_sends u2 c).
Qed.

Lemma flush_submit_frame u w r u1 w1 :
  flush_submit u w = Ret (r, u1, w1) →
  ∃ ring, u1 = with_ring ring u.
Proof.
  unfold flush_submit. destruct (iu_sqpoll u).
  - intros [= <- <- <-]. exists (iu_ring u). by destruct u.
  - destruct (ring_submit (iu_ring u) w) as [[r' ring] w']. intros [= <- <- <-]. by exists ring.
Qed.
End completions.

(** * The order of a batch *)

(** What the io-uring crate says of the two queues, over a view of the ring:
    the entries pushed so far and the completions handed out so far. An entry
    pushed goes to the end; a submission that succeeds makes room for one more;
    no more completions come out than entries went in. *)
Class RingView (R : Type) := {
  ring_log : R → list sqe;
  ring_reaped : R → list cqe;
}.
Class RingLaws (W R : Type) `{Uring W R, RingView R} : Prop := {
  push_log : ∀ r e r', sq_push r e = Some r' →
    ring_log r' = ring_log r ++ [e] ∧ ring_reaped r' = ring_reaped r;
  submit_log : ∀ r w, let '(_, r', _) := ring_submit r w in
    ring_log r' = ring_log r ∧ ring_reaped r' = ring_reaped r;
  drain_log : ∀ r w, let '(cs, r', _) := cq_drain r w in
    ring_log r' = ring_log r ∧ ring_reaped r' = ring_reaped r ++ cs ∧
    zlen (ring_reaped r') ≤ zlen (ring_log r');
  submit_room : ∀ r w r1 w1 cs r2 w2 e, ring_submit r w = (Ok (), r1, w1) →
    cq_drain r1 w1 = (cs, r2, w2) → is_Some (sq_push r2 e);
}.

Section batch.
Context `{BuildProfile} `{Libc W} `{UR : Uring W R} `{RV : RingView R} {RL : RingLaws W R}.
Implicit Type u : IoUring R.

(** No counter of completed sends is above what the ring has handed out. *)
Definition counted u : Prop := ∀ k,
  0 ≤ default 0 (iu_completed_sends u !! k) ≤ zlen (ring_reaped (iu_ring u)).

(** [u'] has pushed [es] and not touched the queue, the mode or the numbering. *)
Record pushed_on u u' (es : list sqe) : Prop := {
  po_log : ring_log (iu_ring u') = ring_log (iu_ring u) ++ es;
  po_pending : iu_pending u' = iu_pending u;
  po_mode : iu_mode u' = iu_mode u;
  po_sqpoll : iu_sqpoll u' = iu_sqpoll u;
  po_counted : counted u';
}.

Lemma pushed_on_trans u1 u2 u3 es es' :
  pushed_on u1 u2 es → pushed_on u2 u3 es' → pushed_on u1 u3 (es ++ es').
Proof. intros [] []. split; [|congruence..|done]. rewrite app_assoc. congruence. Qed.

Lemma reap_all_counts cs u m :
  (∀ k, 0 ≤ default 0 (iu_completed_sends u !! k) ≤ m) → m + zlen cs < U32 →
  ∃ s r, reap_all u cs = Ret (with_completed s r u) ∧
    ∀ k, 0 ≤ default 0 (s !! k) ≤ m + zlen cs.
Proof.
  revert u m. induction cs as [|c cs IH]; intros u m Hu Hm.
  { exists (iu_completed_sends u), (iu_completed_recvs u). split; [by destruct u|].
    intros k. specialize (Hu k). len. }
  rewrite zlen_cons in Hm |- *. pose proof (zlen_nonneg cs) as Hcs. cbn [reap_all]. unfold reap_one.
  destruct (_ =? OP_SEND).
  - pose proof (Hu (cq_user_data c)) as Hk. rewrite add_mod_ok by lia. cbn [mbind outcome_bind].
    set (n := default 0 (iu_completed_sends u !! cq_user_data c)) in *.
    destruct (IH (with_completed (<[cq_user_data c:=n + 1]> (iu_completed_sends u))
      (iu_completed_recvs u) u) (m + 1)) as (s&r&Hr&Hs); [|lia|].
    { intros k. cbn. destruct (decide (k = cq_user_data c)) as [->|Hne].
      - rewrite lookup_insert_eq. cbn [default from_option id]. lia.
      - rewrite lookup_insert_ne by done. specialize (Hu k). lia. }
    exists s, r. rewrite Hr. split; [done|]. intros k. specialize (Hs k). lia.
  - destruct (IH (with_completed (iu_completed_sends u) (<[cq_user_data c:=cq_result c]>
      (iu_completed_recvs u)) u) m) as (s&r&Hr&Hs); [done|lia|].
    exists s, r. cbn [mbind outcome_bind]. rewrite Hr. split; [done|]. intros k. specialize (Hs k). lia.
Qed.

Lemma uring_reap_ends u w :
  counted u → zlen (ring_log (iu_ring u)) < U32 →
  ends (uring_reap u) w (λ u' w', pushed_on u u' [] ∧
    ∃ cs, cq_drain (iu_ring u) w = (cs, iu_ring u', w')).
Proof using RL.
  intros Hc Hl. unfold ends, uring_reap. pose proof (drain_log (iu_ring u) w) as Hd.
  destruct (cq_drain (iu_ring u) w) as [[cs ring] w']. destruct Hd as (Hlog&Hre&Hle).
  rewrite Hlog in Hle.
  destruct (reap_all_counts cs (with_ring ring u) (zlen (ring_reaped (iu_ring u)))) as (s&r&Hr&Hs).
  - exact Hc.
  - rewrite <- zlen_app, <- Hre. lia.
  - rewrite Hr. do 2 eexists. split; [done|]. split; [|by eexists].
    split; cbn; [by rewrite app_nil_r|done..|]. intros k. cbn. rewrite Hre, zlen_app. apply Hs.
Qed.

Lemma flush_submit_ends u w :
  counted u → iu_sqpoll u = false →
  ends (flush_submit u) w (λ '(r, u') w', pushed_on u u' [] ∧
    ring_submit (iu_ring u) w = (r, iu_ring u', w')).
Proof using RL.
  intros Hc Hs. unfold ends, flush_submit. rewrite Hs. pose proof (submit_log (iu_ring u) w) as Hl.
  destruct (ring_submit (iu_ring u) w) as [[r ring] w']. destruct Hl as [Hlog Hre].
  do 2 eexists. split; [done|]. split; [|done]. split; cbn; [by rewrite app_nil_r|done..|].
  intros k. cbn. rewrite Hre. apply Hc.
Qed.

Lemma push_now u e ring :
  counted u → sq_push (iu_ring u) e = Some ring → pushed_on u (with_ring ring u) [e].
Proof using RL.
  intros Hc Hp. destruct (push_log _ _ _ Hp) as [Hl Hr]. split; cbn; [done..|].
  intros k. cbn. rewrite Hr. apply Hc.
Qed.

Lemma push_sqe_ends fuel u e w :
  (2 ≤ fuel)%nat → counted u → iu_sqpoll u = false → zlen (ring_log (iu_ring u)) < U32 →
  ends (push_sqe fuel u e) w (λ '(r, u') _,
    pushed_on u u' (if is_ok r then [e] else [])).
Proof using RL.
  intros Hf Hc Hs Hl. destruct fuel as [|[|fuel]]; [lia..|]. cbn [push_sqe].
  destruct (sq_push (iu_ring u) e) as [ring|] eqn:Hp.
  { apply ends_ret. by apply push_now. }
  run_step. eapply ends_mono; [by apply flush_submit_ends|]. intros [r u1] w1 [Hu1 Hsub].
  destruct r as [[]|err]; [|by apply ends_ret]. run_step.
  eapply ends_mono; [apply uring_reap_ends; [apply Hu1|]|].
  { rewrite (po_log _ _ _ Hu1), app_nil_r. lia. }
  intros u2 w2 [Hu2 [cs Hd]]. destruct (submit_room _ _ _ _ _ _ _ e Hsub Hd) as [ring Hr].
  rewrite Hr. apply ends_ret. apply (pushed_on_trans _ u1 _ [] [e]); [done|].
  apply (pushed_on_trans _ u2 _ [] [e]); [done|]. apply push_now; [apply Hu2|done].
Qed.

(** How far a drain gets: all of the queue is in the ring in its order, or the
    flush failed after [k] entries, and the one after them is in neither. *)
Definition drained u u' (r : result unit io_error) : Prop :=
  ∃ k, ring_log (iu_ring u') = ring_log (iu_ring u) ++ take k (iu_pending u) ∧
    iu_pending u' = drop (S k) (iu_pending u) ∧
    (is_ok r = true → k = length (iu_pending u)).

Lemma drain_pending_ends fuel n u w :
  (2 ≤ fuel)%nat → counted u → iu_sqpoll u = false → n = length (iu_pending u) →
  zlen (ring_log (iu_ring u)) + zlen (iu_pending u) < U32 →
  ends (drain_pending fuel n u) w (λ '(r, u') _,
    drained u u' r ∧ counted u' ∧ iu_sqpoll u' = false).
Proof using RL.
  intros Hf. revert u w. induction n as [|n IH]; intros u w Hc Hs Hn Hl; cbn [drain_pending].
  { apply ends_ret. destruct (iu_pending u) eqn:Hp; [|done]. split; [|done].
    exists O. rewrite Hp. by rewrite app_nil_r. }
  destruct (iu_pending u) as [|e es] eqn:Hp; [done|]. rewrite zlen_cons in Hl.
  pose proof (zlen_nonneg es) as Hes. run_step.
  eapply ends_mono; [apply (push_sqe_ends fuel (with_pending es u) e); [done..|cbn; lia]|].
  intros [r u1] w1 Hu1. destruct Hu1 as [Hlog Hpe _ Hsp Hc1]. cbn in Hlog, Hpe, Hsp.
  destruct r as [[]|err]; cbn [is_ok] in Hlog.
  - eapply ends_mono; [apply (IH u1); [done|congruence|rewrite Hpe; cbn in Hn; lia|]|].
    { rewrite Hlog, Hpe, zlen_app, zlen_cons, zlen_nil. lia. }
    intros [r u2] w2 [(k&Hl2&Hp2&Hk) Hrest]. split; [|done]. exists (S k). rewrite Hp.
    rewrite Hl2, Hlog, Hp2, Hpe, <- app_assoc. split; [done|]. split; [done|].
    intros Hr. rewrite (Hk Hr), Hpe. done.
  - apply ends_ret. split; [|split; [done|congruence]]. exists O. rewrite Hp. by rewrite Hlog, Hpe.
Qed.

Lemma drive_inner_ends fuel u w :
  (2 ≤ fuel)%nat → counted u → iu_sqpoll u = false → iu_mode u = BatchSyscall →
  zlen (ring_log (iu_ring u)) + zlen (iu_pending u) < U32 →
  ends (drive_inner fuel u) w (λ '(r, u') _, drained u u' r ∧ counted u' ∧ iu_sqpoll u' = false).
Proof using RL.
  intros Hf Hc Hs Hm Hl. unfold drive_inner. rewrite Hm. run_step.
  eapply ends_mono; [by apply drain_pending_ends|]. intros [r u1] w1 (Hd&Hc1&Hs1).
  destruct r as [[]|err]; [|by apply ends_ret]. destruct Hd as (k&Hl1&Hp1&Hk).
  pose proof (Hk eq_refl) as ->. rewrite take_ge in Hl1 by done.
  run_step. eapply ends_mono; [by apply flush_submit_ends|]. intros [r u2] w2 [Hu2 _].
  assert (∀ u3 r', pushed_on u2 u3 [] → drained u u3 r') as Hfin.
  { intros u3 r' Hu3. exists (length (iu_pending u)). split; [|split; [|done]].
    - by rewrite (po_log _ _ _ Hu3), (po_log _ _ _ Hu2), Hl1, !app_nil_r, take_ge by done.
    - by rewrite (po_pending _ _ _ Hu3), (po_pending _ _ _ Hu2). }
  destruct r as [[]|err].
  - run_step. eapply ends_mono; [apply uring_reap_ends; [apply Hu2|]|].
    + rewrite (po_log _ _ _ Hu2), Hl1, app_nil_r, zlen_app. lia.
    + intros u3 w3 [Hu3 _]. apply ends_ret. split; [by apply Hfin|]. split; [apply Hu3|].
      by rewrite (po_sqpoll _ _ _ Hu3), (po_sqpoll _ _ _ Hu2).
  - apply ends_ret. split; [|split; [apply Hu2|by rewrite (po_sqpoll _ _ _ Hu2)]]. apply Hfin.
    split; [by rewrite app_nil_r|done..|apply Hu2].
Qed.

(** The entries the ring has seen or will see. *)
Definition load u : Z := zlen (ring_log (iu_ring u)) + zlen (iu_pending u).

(** A transport that works: no counter can overflow while the load stays below
    2^32, and there is no kernel thread to wait for. *)
Record fit (n : Z) u : Prop := {
  ft_counted : counted u;
  ft_sqpoll : iu_sqpoll u = false;
  ft_load : load u ≤ n;
}.

Lemma fit_pushed n u u' es :
  fit n u → pushed_on u u' es → fit (n + zlen es) u'.
Proof.
  intros [Hc Hs Hl] [Hlog Hp _ Hsp Hc']. split; [done|congruence|].
  unfold load in *. rewrite Hlog, Hp, zlen_app. lia.
Qed.

Lemma fit_drive fuel n u w :
  (2 ≤ fuel)%nat → fit n u → n < U32 → ends (drive_inner fuel u) w (λ '(_, u') _, fit n u').
Proof using RL.
  intros Hf Hu Hn. pose proof Hu as [Hc Hs Hl]. pose proof (zlen_nonneg (iu_pending u)).
  destruct (iu_mode u) eqn:Em.
  - eapply ends_mono; [apply drive_inner_ends; [done..|unfold load in Hl; lia]|].
    intros [r u'] w' ((k&Hlog&Hp&_)&Hc'&Hs'). split; [done..|]. unfold load in *. rewrite Hlog, Hp.
    rewrite zlen_app. unfold zlen in *. rewrite length_take, length_drop. lia.
  - unfold drive_inner. rewrite Em. run_step. apply ends_ret. run_step.
    eapply ends_mono; [by apply flush_submit_ends|]. intros [r u1] w1 [Hu1 _].
    pose proof (fit_pushed _ _ _ _ Hu Hu1) as Hf1. rewrite zlen_nil, Z.add_0_r in Hf1.
    destruct r as [[]|err]; [|by apply ends_ret]. run_step.
    eapply ends_mono; [apply uring_reap_ends; [apply Hu1|]|].
    + destruct Hf1 as [_ _ Hl1]. unfold load in Hl1. pose proof (zlen_nonneg (iu_pending u1)). lia.
    + intros u2 w2 [Hu2 _]. apply ends_ret. pose proof (fit_pushed _ _ _ _ Hf1 Hu2) as Hf2.
      by rewrite zlen_nil, Z.add_0_r in Hf2.
Qed.

Lemma fit_push fuel n u e w :
  (2 ≤ fuel)%nat → fit n u → n < U32 → ends (push_sqe fuel u e) w (λ '(_, u') _, fit (n + 1) u').
Proof using RL.
  intros Hf Hu Hn. pose proof Hu as [Hc Hs Hl]. pose proof (zlen_nonneg (iu_pending u)).
  eapply ends_mono; [apply push_sqe_ends; [done..|unfold load in Hl; lia]|].
  intros [r u'] w' Hp. pose proof (fit_pushed _ _ _ _ Hu Hp) as [? ? Hl']. split; [done..|].
  destruct (is_ok r); revert Hl'; len.
Qed.
End batch.

(** The transport hands in a sequence of requests on one connection. *)
Fixpoint submit_all `{BuildProfile} `{Libc W} `{Uring W R} (fuel : nat) (u : IoUring R)
    (c : UringConn) (datas : list bytes) : M W (IoUring R * UringConn) :=
  match datas with
  | [] => mret (u, c)
  | d :: ds => '(_, (u, c)) ← uring_submit fuel u c Stream d; submit_all fuel u c ds
  end.

Definition send_of (c : UringConn) (d : bytes) : sqe :=
  SqSend (uc_fd c) d (ud (uc_idx c) OP_SEND).

Lemma submit_all_batch `{BuildProfile} `{Libc W} `{Uring W R} fuel (u : IoUring R) c datas w :
  iu_mode u = BatchSyscall →
  submit_all fuel u c datas w
  = Ret (with_pending (iu_pending u ++ (send_of c <$> datas)) u,
         mkUringConn (uc_fd c) (uc_idx c) (uc_rx_buf c) (uc_recv_in_flight c)
           (uc_send_in_flight c ++ datas), w).
Proof.
  revert u c. induction datas as [|d ds IH]; intros u c Hm; cbn [submit_all].
  { rewrite !app_nil_r. by destruct u, c. }
  unfold uring_submit. rewrite Hm. unfold mbind, M_bind, mret, M_ret.
  rewrite IH by done. cbn. by rewrite <- !app_assoc.
Qed.

(** C27: a batch keeps the order of its requests. When the requests submitted in
    [BatchSyscall] mode without the SQPOLL tuning are driven, and fewer than 2^32
    entries go through the ring in all, the call ends without a panic, also when
    the submission queue is full on the way; if it succeeds, the ring has the
    requests that were waiting and then the new ones, in the order they were
    submitted, the queue is empty, and the connection keeps every new buffer
    alive; if it fails, exactly the entry that was being pushed is lost. *)
Theorem uring_batch_order `{BuildProfile} `{Libc W} `{Uring W R} `{RingView R} {RL : RingLaws W R}
    fuel (u : IoUring R) c datas w :
  (2 ≤ fuel)%nat → counted u → iu_sqpoll u = false → iu_mode u = BatchSyscall →
  zlen (ring_log (iu_ring u)) + zlen (iu_pending u) + zlen datas < U32 →
  let queue := iu_pending u ++ (send_of c <$> datas) in
  ends ('(u, c) ← submit_all fuel u c datas; '(r, u) ← drive_inner fuel u; mret (r, u, c)) w
    (λ '(r, u', c') _, uc_send_in_flight c' = uc_send_in_flight c ++ datas ∧
      match r with
      | Ok _ => ring_log (iu_ring u') = ring_log (iu_ring u) ++ queue ∧ iu_pending u' = []
      | Err _ => ∃ k, ring_log (iu_ring u') = ring_log (iu_ring u) ++ take k queue ∧
          iu_pending u' = drop (S k) queue
      end).
Proof.
  intros Hf Hc Hs Hm Hl queue. run_step. unfold ends at 1.
  do 2 eexists. split; [by apply submit_all_batch|]. cbv beta iota. run_step.
  eapply ends_mono.
  { apply drive_inner_ends; [done..|]. cbn. unfold zlen in *. rewrite length_app, length_fmap. lia. }
  intros [r u2] w2 ((k&Hlog&Hp&Hk)&_&_). cbn in Hlog, Hp, Hk. apply ends_ret. cbn. split; [done|].
  destruct r as [[]|err].
  - rewrite (Hk eq_refl) in Hlog, Hp. rewrite take_ge in Hlog by done. split; [done|].
    rewrite Hp. apply drop_ge. fold queue. lia.
  - by exists k.
Qed.

(** With the SQPOLL tuning nothing wakes the kernel's thread: [flush_submit] does
    nothing, so when the queue is full and the thread asleep, pushing an entry
    never ends. *)
Theorem sqpoll_full_queue_spins `{BuildProfile} `{Libc W} `{Uring W R} (asleep : R → Prop) fuel
    (u : IoUring R) e (w : W) :
  (∀ r w, asleep r → sq_push r e = None ∧ ∃ r', cq_drain r w = ([], r', w) ∧ asleep r') →
  iu_sqpoll u = true → asleep (iu_ring u) → push_sqe fuel u e w = OutOfFuel.
Proof.
  intros Hstuck Hs. revert u Hs. induction fuel as [|f IH]; intros u Hs Ha; [done|]. cbn [push_sqe].
  destruct (Hstuck _ w Ha) as (Hp&r'&Hd&Ha'). rewrite Hp. unfold flush_submit. rewrite Hs.
  unfold mbind, M_bind, mret, M_ret, uring_reap. rewrite Hd. cbn. by apply IH.
Qed.

(** C29: what a completed receive brings is what the caller gets. With a receive
    in flight and nothing waiting to be sent, when the kernel reports as the only
    completion that [data] is in the connection's buffer, [poll_recv] returns its length and leaves it at
    the start of the caller's buffer, whole if it fits, and the connection is
    ready to arm the next receive. *)
Theorem uring_recv_delivers `{BuildProfile} `{Libc W} `{Uring W R} fuel (u : IoUring R) c buf w
    u1 w1 ring2 w2 data :
  uc_recv_in_flight c = true → iu_pending u = [] →
  flush_submit u w = Ret (Ok (), u1, w1) →
  cq_drain (iu_ring u1) w1 = ([mkCqe (ud (uc_idx c) OP_RECV) (zlen data)], ring2, w2) →
  rx_memory ring2 (ud (uc_idx c) OP_RECV) = data → data ≠ [] →
  zlen data ≤ zlen buf →
  ∃ u' c', uring_poll_recv fuel u c buf w = Ret (Ok (zlen data), written data buf, (u', c'), w2) ∧
    uc_recv_in_flight c' = false ∧ iu_completed_recvs u' !! ud (uc_idx c) OP_RECV = None.
Proof.
  intros Hc Hp Hf Hd Hm Hne Hbuf.
  rewrite (poll_recv_armed _ _ _ _ _ _ _ _ _ _ _ Hc Hp Hf Hd (reap_recv _ _ _)).
  set (u2 := with_completed _ _ _). assert (Hpos : 0 < zlen data) by (destruct data; [done|len]).
  assert (∃ u3 l, reclaim_sends u2 c
    = (u3, mkUringConn (uc_fd c) (uc_idx c) (uc_rx_buf c) (uc_recv_in_flight c) l) ∧
    iu_ring u3 = ring2 ∧ iu_completed_recvs u3 = iu_completed_recvs u2) as (u3&l&->&Hr3&Hc3).
  { unfold reclaim_sends. destruct (_ !! _); [by do 2 eexists|].
    exists u2, (uc_send_in_flight c). by destruct c. }
  unfold take_recv. cbn [uc_idx uc_rx_buf]. rewrite Hc3, Hr3, Hm. cbn [u2 iu_completed_recvs with_completed].
  rewrite lookup_insert_eq. destruct (Z.ltb_spec (zlen data) 0); [lia|].
  destruct (Z.eqb_spec (zlen data) 0); [lia|]. rewrite Z.min_l by lia. unfold written.
  rewrite slice_to_app. cbn [mbind outcome_bind].
  unfold write_at. rewrite (proj2 (Z.leb_le _ _)) by lia. cbn [andb].
  rewrite (proj2 (Z.leb_le _ _)) by lia. cbn. do 2 eexists. split; [done|]. split; [done|].
  apply lookup_delete_eq.
Qed.

(** ** A peer that has closed *)

(** The ring of a connection whose peer has closed, [key] being that of its
    receives: they complete with 0, whatever other entries complete with;
    submitting works. *)
Class PeerClosed (W R : Type) `{Uring W R} (key : Z) (closed : R → W → Prop) : Prop := {
  closed_push : ∀ r w e r', closed r w → sq_push r e = Some r' → closed r' w;
  closed_submit : ∀ r w, closed r w → ∃ r' w', ring_submit r w = (Ok (), r', w') ∧ closed r' w';
  closed_drain : ∀ r w cs r' w', closed r w → cq_drain r w = (cs, r', w') →
    closed r' w' ∧ Forall (λ c, cq_user_data c = key → cq_result c = 0) cs;
}.

Section closed.
Context `{BuildProfile} `{Libc W} `{UR : Uring W R} `{PC : !PeerClosed W R key closed}.
Implicit Type u : IoUring R.

(** No receive has completed with anything but 0. *)
Definition quiet u (w : W) : Prop :=
  closed (iu_ring u) w ∧ ∀ res, iu_completed_recvs u !! key = Some res → res = 0.

Lemma quiet_pending es u w : quiet u w → quiet (with_pending es u) w.
Proof. done. Qed.

Lemma quiet_flush u w :
  quiet u w → post (flush_submit u) w (λ '(r, u') w', r = Ok () ∧ quiet u' w').
Proof using PC.
  intros [Hc Hr]. unfold flush_submit. destruct (iu_sqpoll u); [by apply post_ret|].
  destruct (closed_submit _ _ Hc) as (r'&w'&Hs&Hc'). unfold post. by rewrite Hs.
Qed.

Lemma quiet_reap_all cs u u' :
  Forall (λ c, cq_user_data c = key → cq_result c = 0) cs → reap_all u cs = Ret u' →
  (∀ res, iu_completed_recvs u !! key = Some res → res = 0) →
  iu_ring u' = iu_ring u ∧ ∀ res, iu_completed_recvs u' !! key = Some res → res = 0.
Proof using.
  clear UR PC. intros Hcs. revert u. induction Hcs as [|c cs Hc Hcs IH]; intros u Hr Hu; cbn in Hr; [by simplify_eq|].
  apply bind_Ret in Hr as (u1&Hone&Hr). unfold reap_one in Hone. destruct (_ =? OP_SEND).
  - apply bind_Ret in Hone as (k&_&[= <-]). by destruct (IH _ Hr Hu).
  - injection Hone as <-. apply (IH _ Hr). intros res. cbn.
    destruct (decide (cq_user_data c = key)) as [<-|Hne].
    + rewrite lookup_insert_eq. intros [= <-]. by apply Hc.
    + rewrite lookup_insert_ne by done. apply Hu.
Qed.

Lemma quiet_reap u w : quiet u w → post (uring_reap u) w quiet.
Proof using PC.
  intros [Hc Hr]. unfold uring_reap, post. destruct (cq_drain (iu_ring u) w) as [[cs ring] w'] eqn:E.
  destruct (closed_drain _ _ _ _ _ Hc E) as [Hc' Hcs]. unfold pure.
  destruct (reap_all (with_ring ring u) cs) as [u'| |] eqn:Er; [|done..].
  destruct (quiet_reap_all cs _ u' Hcs Er Hr) as [Hring Hr']. split; [by rewrite Hring|done].
Qed.

Lemma quiet_push fuel u e w :
  quiet u w → post (push_sqe fuel u e) w (λ '(r, u') w', r = Ok () ∧ quiet u' w').
Proof using PC.
  revert u w. induction fuel as [|f IH]; intros u w Hq; [done|]. cbn [push_sqe].
  destruct (sq_push (iu_ring u) e) as [ring|] eqn:E.
  { apply post_ret. destruct Hq as [Hc Hr]. split; [done|]. split; [by eapply closed_push|done]. }
  run_step. eapply post_mono; [by apply quiet_flush|]. intros [r u1] w1 [-> Hq1].
  run_step. eapply post_mono; [by apply quiet_reap|]. intros u2 w2 Hq2. by apply IH.
Qed.

Lemma quiet_drain fuel n u w :
  quiet u w → post (drain_pending fuel n u) w (λ '(r, u') w', r = Ok () ∧ quiet u' w').
Proof using PC.
  revert u w. induction n as [|n IH]; intros u w Hq; cbn [drain_pending]; [by apply post_ret|].
  destruct (iu_pending u) as [|e es]; [by apply post_ret|]. run_step.
  eapply post_mono; [by apply quiet_push, quiet_pending|]. intros [r u1] w1 [-> Hq1]. by apply IH.
Qed.

Lemma quiet_drive fuel u w :
  quiet u w → post (drive_inner fuel u) w (λ '(r, u') w', r = Ok () ∧ quiet u' w').
Proof using PC.
  intros Hq. unfold drive_inner. run_step.
  eapply (post_mono _ _ (λ '(r, u') w', r = Ok () ∧ quiet u' w')).
  { destruct (iu_mode u); [by apply quiet_drain|by apply post_ret]. }
  intros [r u1] w1 [-> Hq1]. run_step. eapply post_mono; [by apply quiet_flush|].
  intros [r u2] w2 [-> Hq2]. run_step. eapply post_mono; [by apply quiet_reap|].
  intros u3 w3 Hq3. by apply post_ret.
Qed.

(** What is left of the queue after a poll says nothing and is not an error. *)
Lemma quiet_take u c buf w :
  quiet u w → ud (uc_idx c) OP_RECV = key →
  ∃ u' c', take_recv u c buf = Ret (Ok 0, buf, (u', c')) ∧ quiet u' w ∧ uc_idx c' = uc_idx c ∧
    iu_ring u' = iu_ring u ∧ iu_pending u' = iu_pending u ∧ iu_sqpoll u' = iu_sqpoll u ∧
    iu_completed_sends u' = iu_completed_sends u.
Proof.
  intros Hq Hk. pose proof Hq as [Hc Hr]. unfold take_recv. rewrite Hk.
  destruct (iu_completed_recvs u !! key) as [res|] eqn:E; [|by exists u, c].
  rewrite (Hr res) by done. cbn. do 2 eexists. split; [done|]. split; [|done].
  split; [done|]. intros res'. cbn. by rewrite lookup_delete_eq.
Qed.

Context `{RV : RingView R} {RL : RingLaws W R}.

Lemma fit_reclaim n u c :
  fit n u → fit n (reclaim_sends u c).1.
Proof.
  intros [Hc Hs Hl]. unfold reclaim_sends. destruct (iu_completed_sends u !! _); [|done].
  split; [|done..]. intros k. cbn. destruct (decide (k = ud (uc_idx c) OP_SEND)) as [->|Hne].
  - rewrite lookup_delete_eq. cbn. split; [done|apply zlen_nonneg].
  - rewrite lookup_delete_ne by done. apply Hc.
Qed.

Lemma closed_poll fuel n u c buf w :
  (2 ≤ fuel)%nat → fit n u → n + 1 < U32 → quiet u w → ud (uc_idx c) OP_RECV = key →
  ends (uring_poll_recv fuel u c buf) w (λ '(r, _, (u', c')) w',
    r = Ok 0 ∧ fit (n + 1) u' ∧ quiet u' w' ∧ uc_idx c' = uc_idx c).
Proof using PC RL.
  intros Hf Hu Hn Hq Hk. unfold uring_poll_recv. run_step.
  eapply (ends_mono _ _ (λ '(r, u', c') w', r = Ok () ∧ fit (n + 1) u' ∧ quiet u' w' ∧ uc_idx c' = uc_idx c)).
  { destruct (uc_recv_in_flight c).
    - apply ends_ret. split; [done|]. split; [|done]. destruct Hu. split; [done..|lia].
    - run_step. eapply ends_mono; [apply ends_post; [apply fit_push; [done|done|lia]|by apply quiet_push]|].
      intros [r u1] w1 [Hu1 [-> Hq1]]. by apply ends_ret. }
  intros [[r u1] c1] w1 (->&Hu1&Hq1&Hc1). run_step.
  eapply ends_mono; [apply ends_post; [apply fit_drive; [done|done|lia]|by apply quiet_drive]|].
  intros [r u2] w2 [Hu2 [-> Hq2]]. pose proof (fit_reclaim _ u2 c1 Hu2) as Hu3.
  assert (quiet (reclaim_sends u2 c1).1 w2 ∧ uc_idx (reclaim_sends u2 c1).2 = uc_idx c1) as [Hq3 Hc3].
  { unfold reclaim_sends. by destruct (iu_completed_sends u2 !! _). }
  destruct (reclaim_sends u2 c1) as [u3 c3]. cbn [fst snd] in *.
  destruct (quiet_take u3 c3 buf w2 Hq3) as (u'&c'&Ht&Hq'&Hc'&Hring&Hpe&Hsp&Hse);
    [by rewrite Hc3, Hc1|].
  eapply ends_pure; [exact Ht|]. split; [done|]. split; [|split; [done|congruence]].
  destruct Hu3 as [Hcn Hs3 Hl3]. split; [|congruence|unfold load in *; by rewrite Hring, Hpe].
  intros k. rewrite Hring, Hse. apply Hcn.
Qed.
End closed.

(** Polls of one connection, one after the other. *)
Fixpoint poll_responses `{BuildProfile} `{ByteIo W B C} `{Tls T} (fuel k : nat) (h : HttpConn B C T) :
    M W (list (result (option bytes) TransportError) * HttpConn B C T) :=
  match k with
  | O => mret ([], h)
  | S k =>
      '(r, h) ← poll_response fuel h;
      '(rs, h) ← poll_responses fuel k h;
      mret (r :: rs, h)
  end.

(** C38: on io_uring the end of the stream is never seen. When the peer has
    closed, so that every receive that is posted completes with 0, then however
    often the worker polls the connection, [poll_response] gives no response
    and no error, whether or not the start of a response had arrived; so there
    is nothing to fail over on. Sends still in flight may complete meanwhile,
    with whatever result. (Without the SQPOLL tuning, and for fewer than 2^32
    entries in the life of the ring.) *)
Theorem uring_eof_is_silent `{BuildProfile} `{Libc W} `{Uring W R} `{RingView R} {RL : RingLaws W R}
    `{Tls T} closed fuel n k (h : HttpConn (IoUring R) UringConn T) (w : W) :
  let key := ud (uc_idx (hc_raw h)) OP_RECV in
  PeerClosed W R key closed → closed (iu_ring (hc_io h)) w →
  (∀ res, iu_completed_recvs (hc_io h) !! key = Some res → res = 0) →
  (2 ≤ fuel)%nat → counted (hc_io h) → iu_sqpoll (hc_io h) = false →
  load (hc_io h) + Z.of_nat k < U32 →
  body_if_complete (eng_rx_plain (hc_engine h)) = Ret None →
  zlen (eng_rx_plain (hc_engine h)) ≤ MAX_RESPONSE →
  ends (poll_responses (H0 := uring_io fuel) n k h) w (λ '(rs, h') _,
    rs = replicate k (Ok None) ∧ hc_engine h' = hc_engine h).
Proof.
  intros key PC Hcl Hres Hf Hc Hs Hl Hb Hm.
  assert (quiet (key := key) (closed := closed) (hc_io h) w) as Hq by done.
  assert (fit (load (hc_io h)) (hc_io h)) as Hu by done.
  assert (take_body (hc_engine h) = Ret (Ok None, hc_engine h)) as Htb.
  { unfold take_body. rewrite Hb. cbn [mbind outcome_bind]. by rewrite (proj2 (Z.ltb_ge _ _)). }
  clear Hcl Hres Hc Hs Hb Hm. revert Hu Hl. generalize (load (hc_io h)). intros m Hu Hl.
  assert (ud (uc_idx (hc_raw h)) OP_RECV = key) as Hk by done. clearbody key.
  revert m h w Hq Hu Hl Htb Hk. induction k as [|k IH]; intros m h w Hq Hu Hl Htb Hk; cbn [poll_responses].
  { by apply ends_ret. }
  run_step. unfold poll_response. run_step. cbn [io_poll_recv uring_io].
  eapply ends_mono; [by apply (closed_poll (key := key) (closed := closed) fuel m); [|done|lia|..]|].
  intros [[r rx] [u' c']] w' (->&Hu'&Hq'&Hc'). cbn [Z.eqb]. run_step. apply ends_ret. run_step.
  eapply ends_pure; [exact Htb|]. apply ends_ret. run_step.
  eapply ends_mono; [apply (IH (m + 1)); cbn; [done|done|lia|done|congruence]|].
  intros [rs h'] w2 [-> He]. by apply ends_ret.
Qed.

(** The sends the kernel still has, with their buffers. *)
Class InFlight (R : Type) := in_flight : R → list sqe.

(** Every buffer the kernel reads from is one the connection keeps. *)
Definition buffers_alive `{InFlight R} (ring : R) (c : UringConn) : Prop := ∀ fd b k,
  SqSend fd b k ∈ in_flight ring → b ∈ uc_send_in_flight c.

(** A completed send says neither how much was sent nor which send it was.
    Whatever the result, short counts and errors included, the next poll drops
    the oldest buffer of the connection and reports nothing; when it was not
    the oldest send that completed, the kernel is left with a buffer that has
    been freed. *)
Theorem uring_send_completion_blind `{BuildProfile} `{Libc W} `{Uring W R} `{InFlight R} fuel
    (u : IoUring R) c buf w u1 w1 ring2 w2 res fd b bs :
  uc_recv_in_flight c = true → iu_pending u = [] → uc_send_in_flight c = b :: bs →
  iu_completed_sends u = ∅ → iu_completed_recvs u = ∅ →
  flush_submit u w = Ret (Ok (), u1, w1) →
  cq_drain (iu_ring u1) w1 = ([mkCqe (ud (uc_idx c) OP_SEND) res], ring2, w2) →
  ∃ u' c', uring_poll_recv fuel u c buf w = Ret (Ok 0, buf, (u', c'), w2) ∧
    iu_ring u' = ring2 ∧ uc_send_in_flight c' = bs ∧
    (b ∉ bs → SqSend fd b (ud (uc_idx c) OP_SEND) ∈ in_flight ring2 → ¬ buffers_alive ring2 c').
Proof.
  intros Hc Hp Hb Hs Hr Hf Hd. destruct (flush_submit_frame _ _ _ _ _ Hf) as [ring ->].
  assert (iu_completed_sends (with_ring ring2 (with_ring ring u)) !! ud (uc_idx c) OP_SEND = None)
    as Hn by (cbn; by rewrite Hs).
  rewrite (poll_recv_armed _ _ _ _ _ _ _ _ _ _ _ Hc Hp Hf Hd (reap_send _ _ _ Hn)).
  unfold reclaim_sends. cbn [iu_completed_sends with_completed]. rewrite lookup_insert_eq.
  unfold take_recv. cbn. rewrite Hr, lookup_empty, Hb. do 2 eexists.
  split; [done|]. split; [done|]. split; [done|]. intros Hnb Hin Hal. apply Hnb.
  exact (Hal _ _ _ Hin).
Qed.

(** * Rings for the examples *)

(** A ring of two slots that completes the entries in order, with the results
    of a script; [od_rx] is what its receives bring. *)
Record ordered_ring := mkOrdered {
  od_done : list (sqe * cqe);
  od_open : list sqe;
  od_queued : nat;
  od_script : list cqe;
  od_rx : bytes;
}.

Definition od_drain (r : ordered_ring) : list cqe * ordered_ring :=
  let n := (length (od_open r) `min` length (od_script r))%nat in
  let cs := take n (od_script r) in
  (cs, mkOrdered (od_done r ++ zip (take n (od_open r)) cs) (drop n (od_open r)) (od_queued r)
         (drop n (od_script r)) (od_rx r)).

#[export] Instance ordered_uring : Uring demo_kernel ordered_ring := {
  ring_build _ _ w := (Ok (mkOrdered [] [] 0 [] []), w);
  sq_push r e :=
    if (od_queued r <? 2)%nat
    then Some (mkOrdered (od_done r) (od_open r ++ [e]) (S (od_queued r)) (od_script r) (od_rx r))
    else None;
  ring_submit r w := (Ok (), mkOrdered (od_done r) (od_open r) 0 (od_script r) (od_rx r), w);
  cq_drain r w := (od_drain r, w);
  rx_memory r _ := od_rx r;
}.
#[export] Instance ordered_view : RingView ordered_ring := {
  ring_log r := (od_done r).*1 ++ od_open r;
  ring_reaped r := (od_done r).*2;
}.

#[export] Instance ordered_laws : RingLaws demo_kernel ordered_ring.
Proof.
  split; cbn.
  - intros r e r' Hp. case_match; [|done]. injection Hp as <-. cbn.
    by rewrite app_assoc.
  - done.
  - intros r w. set (n := (length (od_open r) `min` length (od_script r))%nat).
    assert (length (take n (od_open r)) = length (take n (od_script r))) as Hz
      by (rewrite !length_take; lia).
    rewrite !fmap_app, fst_zip, snd_zip, <- app_assoc, take_drop by lia.
    split; [done|]. split; [done|]. unfold zlen.
    rewrite !length_app, !length_fmap, length_take. lia.
  - intros r w r1 w1 cs r2 w2 e [= <- <-] [= <- <- <-]. by eexists.
Qed.

(** A ring of connections that are closed: everything completes with 0. *)
Record shut_ring := mkShut { sh_done : list (sqe * cqe); sh_open : list sqe }.
Definition shut_cqe (e : sqe) : cqe :=
  match e with SqSend _ _ k | SqRecv _ _ k => mkCqe k 0 end.
#[export] Instance shut_uring : Uring demo_kernel shut_ring := {
  ring_build _ _ w := (Ok (mkShut [] []), w);
  sq_push r e := Some (mkShut (sh_done r) (sh_open r ++ [e]));
  ring_submit r w := (Ok (), r, w);
  cq_drain r w :=
    (shut_cqe <$> sh_open r, mkShut (sh_done r ++ ((λ e, (e, shut_cqe e)) <$> sh_open r)) [], w);
  rx_memory _ _ := [];
}.
#[export] Instance shut_view : RingView shut_ring := {
  ring_log r := (sh_done r).*1 ++ sh_open r;
  ring_reaped r := (sh_done r).*2;
}.
#[export] Instance shut_laws : RingLaws demo_kernel shut_ring.
Proof.
  split; cbn.
  - intros r e r' [= <-]. cbn. by rewrite app_assoc.
  - done.
  - intros r w. rewrite !fmap_app, <- !list_fmap_compose, app_nil_r. cbn.
    split; [f_equal; apply list_fmap_id|]. split; [done|]. unfold zlen.
    rewrite !length_app, !length_fmap. lia.
  - intros r w r1 w1 cs r2 w2 e _ _. by eexists.
Qed.
Lemma shut_closed key : PeerClosed demo_kernel shut_ring key (λ _ _, True).
Proof.
  split; cbn; [done|by eauto|]. intros r w cs r' w' _ [= <- <- <-]. split; [done|].
  apply Forall_fmap, Forall_true. by intros [].
Qed.

(** A ring that completes the youngest of its sends first. *)
Record youngest_ring := mkYoungest { yr_open : list sqe }.
#[export] Instance youngest_uring : Uring demo_kernel youngest_ring := {
  ring_build _ _ w := (Ok (mkYoungest []), w);
  sq_push r e := Some (mkYoungest (yr_open r ++ [e]));
  ring_submit r w := (Ok (), r, w);
  cq_drain r w :=
    match rev (yr_open r) with
    | SqSend _ b k :: es => ([mkCqe k (zlen b)], mkYoungest (rev es), w)
    | _ => ([], r, w)
    end;
  rx_memory _ _ := [];
}.
#[export] Instance youngest_in_flight : InFlight youngest_ring := yr_open.

Definition sample_uring {R} (ring : R) (pending : list sqe) : IoUring R :=
  mkIoUring ring BatchSyscall false 1 pending ∅ ∅.
Definition sample_uconn (staged : list bytes) : UringConn :=
  mkUringConn 3 0 (zeroes RX_CAP) true staged.
Abbreviation quiet_kernel := (mkDemo [] Taking 0 []).

Lemma uring_batch_order_witness :
  let u := sample_uring (mkOrdered [] [] 0 [] []) [] in
  let c := sample_uconn [] in
  ends ('(u, c) ← submit_all (H := true) 2 u c [str "a"; str "b"; str "c"];
        '(r, u) ← drive_inner (H := true) 2 u; mret (r, u, c)) quiet_kernel
    (λ '(r, u', c') _, uc_send_in_flight c' = [str "a"; str "b"; str "c"] ∧
      match r with
      | Ok _ => ring_log (iu_ring u')
          = [SqSend 3 (str "a") 0; SqSend 3 (str "b") 0; SqSend 3 (str "c") 0] ∧ iu_pending u' = []
      | Err _ => ∃ k, ring_log (iu_ring u') =
          take k [SqSend 3 (str "a") 0; SqSend 3 (str "b") 0; SqSend 3 (str "c") 0] ∧
          iu_pending u'
          = drop (S k) [SqSend 3 (str "a") 0; SqSend 3 (str "b") 0; SqSend 3 (str "c") 0]
      end).
Proof.
  intros u c. assert (counted u) as Hc by (intros k; cbn; by rewrite lookup_empty).
  eapply ends_mono; [exact (uring_batch_order (H := true) 2 u c [str "a"; str "b"; str "c"]
    quiet_kernel (le_n 2) Hc eq_refl eq_refl eq_refl)|].
  intros [[r u'] c'] w' Hw. exact Hw.
Defined.

Lemma uring_recv_delivers_witness :
  let ring := mkOrdered [] [SqRecv 3 RX_CAP 1] 0 [mkCqe 1 2] (str "OK") in
  ∃ u' c', uring_poll_recv (H := true) 2 (sample_uring ring []) (sample_uconn []) (zeroes 4)
      quiet_kernel
    = Ret (Ok 2, str "OK" ++ zeroes 2, (u', c'), quiet_kernel) ∧
    uc_recv_in_flight c' = false ∧ iu_completed_recvs u' !! 1 = None.
Proof.
  intros ring.
  by eapply (uring_recv_delivers (H := true) 2 (sample_uring ring []) (sample_uconn []) (zeroes 4)
    quiet_kernel _ _ _ _ (str "OK")).
Defined.

Lemma uring_eof_is_silent_witness :
  let h := mkHttpConn (sample_uring (mkShut [] []) []) (sample_uconn []) sample_engine in
  ends (poll_responses (H := true) (H0 := uring_io (H := true) 2) 2 1000 h) quiet_kernel (λ '(rs, _) _,
    rs = replicate 1000 (Ok None)).
Proof.
  intros h. eapply ends_mono.
  - apply (uring_eof_is_silent (H := true) (λ _ _, True) 2 2 1000 h quiet_kernel);
      [apply shut_closed|exact I|intros res; cbn; rewrite lookup_empty; discriminate|lia| |reflexivity..|
       vm_compute; discriminate].
    intros k. cbn. rewrite lookup_empty. cbn. split; reflexivity || discriminate.
  - intros [rs h'] w [Hr _]. exact Hr.
Defined.

Lemma uring_send_completion_blind_witness :
  let ring := mkYoungest [SqSend 3 (str "a") 0; SqSend 3 (str "b") 0] in
  ∃ u' c', uring_poll_recv (H := true) 2 (sample_uring ring []) (sample_uconn [str "a"; str "b"])
      (zeroes 4) quiet_kernel = Ret (Ok 0, zeroes 4, (u', c'), quiet_kernel) ∧
    ¬ buffers_alive (iu_ring u') c'.
Proof.
  intros ring.
  edestruct (uring_send_completion_blind (H := true) 2 (sample_uring ring [])
    (sample_uconn [str "a"; str "b"]) (zeroes 4) quiet_kernel) as (u'&c'&Hr&Hring&_&Hdead);
    [reflexivity..|].
  exists u', c'. split; [exact Hr|]. rewrite Hring. apply Hdead.
  - intros Hin. apply list_elem_of_singleton in Hin. done.
  - left.
Defined.
