(* ===== verification/Tpa.v ===== *)
(** The libtpa transport, backend/libtpa/mod.rs, over a class for the FFI
    bindings of libtpa-sys. *)
From S2P Require Import Prelude Str Types Envelope Http Backend Quic Conn.
From stdpp Require Import options.

(** * The bindings *)

(** [ffi::TpaUdpPkt]; the address is the four [u32] of [ffi::TpaIp]. *)
Record TpaUdpPkt := mkTpaUdpPkt {
  pkt_buf : bytes;
  pkt_len : Z;
  pkt_remote_ip : list Z;
  pkt_remote_port : Z;
  pkt_local_port : Z;
}.

(** The functions of libtpa-sys the transport calls, over the state [W] of the
    stack. A worker is its pointer, 0 being null; [tpa_event_poll] gives the
    number of events and the bits of the first; a read gives its result and
    the bytes it wrote; [tpa_udp_recv_batch] is given the room of the packet and
    gives its result, the bytes and the length left in the packet;
    [open_lock_file] and [flock_nb] are the two calls on the lock file. *)
Class Tpa (W : Type) := {
  TPA_EVENT_IN : Z;
  tpa_init_with_udp_queues : Z → Z → W → Z * W;
  tpa_udp_init : list Z → W → Z * list Z * W;
  tpa_worker_init : W → Z * W;
  tpa_worker_run : Z → W → W;
  tpa_connect_to : bytes → Z → W → Z * W;
  tpa_write : Z → bytes → W → Z * W;
  tpa_event_poll : Z → W → Z * Z * W;
  tpa_zreadv : Z → nat → W → Z * bytes * W;
  tpa_udp_send_batch : Z → TpaUdpPkt → W → Z * W;
  tpa_udp_recv_batch : Z → Z → W → Z * bytes * Z * W;
  open_lock_file : W → result Z io_error * W;
  flock_nb : Z → W → Z * W;
  close_lock_file : Z → W → W;
  tpa_errno : W → Z;
}.

Definition tpa_last_error `{Tpa W} : M W io_error := λ w, Ret (Os (tpa_errno w), w).

(** * Addresses *)

Definition rsplit_colon_at (b : byte) (l : bytes) (r : option (bytes * bytes)) :
    option (bytes * bytes) :=
  match r with
  | Some (h, t) => Some (b :: h, t)
  | None => if Byte.eqb b x3a then Some ([], l) else None
  end.
(** [str::rsplit_once] at a colon. *)
Fixpoint rsplit_colon (l : bytes) : option (bytes * bytes) :=
  match l with
  | [] => None
  | b :: l' => rsplit_colon_at b l' (rsplit_colon l')
  end.

Definition split_host_port (endpoint : bytes) : option (bytes * Z) :=
  '(host, port) ← rsplit_colon endpoint;
  port ← parse_u16 port;
  Some (host, port).

(** [u32::from] of the octets of an IPv4 address, and [u32::to_be]. *)
Definition u32_from_v4 (octets : bytes) : Z := le_value (rev octets).
Definition to_be32 (z : Z) : Z := le_value (rev (le_bytes 4 z)).

Definition tpa_ip_from_v4 (octets : bytes) : list Z :=
  [0; 0; 0xffff0000; to_be32 (u32_from_v4 octets)].

(** The sixteen bytes of a [TpaIp] in memory. *)
Definition tpa_ip_bytes (ip : list Z) : bytes := concat (le_bytes 4 <$> ip).

Definition build_udp_pkt (buf : bytes) (len : Z) (remote : bytes) (remote_port local_port : Z) :
    TpaUdpPkt :=
  mkTpaUdpPkt buf len (tpa_ip_from_v4 remote) (to_be16 remote_port) (to_be16 local_port).

(** * The runtime *)

(** The process: the flag [INIT_DONE] and the locks held are part of the
    crate's state, the rest is the stack's. *)
Record tpa_process (W : Type) := mkTpaProcess { init_done : bool; stack : W }.
Arguments mkTpaProcess {W}.
Arguments init_done {W}.
Arguments stack {W}.

Record TpaRuntime := mkTpaRuntime { rt_lock : Z }.

Section runtime.
Context `{Tpa W}.

Definition on_stack {A} (f : W → A * W) : M (tpa_process W) A := λ p,
  let '(a, w) := f (stack p) in Ret (a, mkTpaProcess (init_done p) w).
Definition drop_lock (lock : Z) : M (tpa_process W) unit :=
  on_stack (λ w, ((), close_lock_file lock w)).
Definition init_done_swap (b : bool) : M (tpa_process W) bool := λ p,
  Ret (init_done p, mkTpaProcess b (stack p)).

Definition try_acquire_lock_only : M (tpa_process W) (result TpaRuntime io_error) :=
  r ← on_stack open_lock_file;
  match r with
  | Err e => mret (Err e)
  | Ok lock =>
      rc ← on_stack (flock_nb lock);
      if rc =? 0 then mret (Ok (mkTpaRuntime lock))
      else
        err ← (λ p, Ret (Os (tpa_errno (stack p)), p));
        _ ← drop_lock lock;
        mret (Err err)
  end.

(** The lock of a runtime that is not returned goes with it. *)
Definition tpa_start (nr_worker nr_udp_queue : Z) :
    M (tpa_process W) (result TpaRuntime TransportError) :=
  r ← try_acquire_lock_only;
  match r with
  | Err e => mret (Err (TIo e))
  | Ok runtime =>
      already ← init_done_swap true;
      if (already : bool) then
        _ ← drop_lock (rt_lock runtime);
        mret (Err (TTpa (-1)))
      else
        rc ← on_stack (tpa_init_with_udp_queues nr_worker nr_udp_queue);
        if rc =? 0 then mret (Ok runtime)
        else
          _ ← init_done_swap false;
          _ ← drop_lock (rt_lock runtime);
          mret (Err (TTpa rc))
  end.

Definition init_udp_ports (ports : list Z) :
    M (tpa_process W) (result unit TransportError * list Z) :=
  '(rc, ports) ← on_stack (tpa_udp_init ports);
  mret (if rc =? 0 then Ok () else Err (TTpa rc), ports).
End runtime.

(** * The transport *)

Record TpaConn := mkTpaConn { sid : Z; dst : option SocketAddr }.
Record LibTpa := mkLibTpa { tpa_worker : Z }.

Definition tpa_new : LibTpa := mkLibTpa 0.
Definition with_worker (worker : Z) : LibTpa := mkLibTpa worker.
Definition connect_udp (dst : SocketAddr) : TpaConn := mkTpaConn (-1) (Some dst).

(** [format!] of a [TransportError::Tpa] with its [Debug] implementation. *)
Definition debug_tpa (code : Z) : string :=
  String.string_of_list_byte
    (str "Tpa(" ++ (if code <? 0 then MINUS :: decimal (- code) else decimal code) ++ str ")").

Section libtpa.
Context `{Tpa W}.

Definition attach_worker (b : LibTpa) : M W (result unit TransportError * LibTpa) :=
  worker ← call tpa_worker_init;
  if worker =? 0 then mret (Err (TTpa (-1)), b)
  else mret (Ok (), mkLibTpa worker).

(** The code of a [TransportError::Tpa], the only error of [connect_tcp]. *)
Definition connect_tcp (host : bytes) (port : Z) : M W (result TpaConn Z) :=
  if bool_decide (x00 ∈ host) then mret (Err (-1))
  else
    sid ← call (tpa_connect_to host port);
    if sid <? 0 then mret (Err sid) else mret (Ok (mkTpaConn sid None)).

Definition tpa_connect (b : LibTpa) (endpoint : bytes) : M W (result TpaConn io_error * LibTpa) :=
  match split_host_port endpoint with
  | None => mret (Err (Simple InvalidInput), b)
  | Some (host, port) =>
      r ← connect_tcp host port;
      mret (map_err (λ code, Message OtherKind (debug_tpa code)) r, b)
  end.

Definition send_udp (b : LibTpa) (conn : TpaConn) (dst_ : SocketAddr) (data : bytes) :
    M W (result unit io_error) :=
  match dst_ with
  | V6 _ _ _ _ => mret (Err (Simple Unsupported))
  | V4 ip port =>
      let local_port := match dst conn with Some (V4 _ p) => p | _ => 0 end in
      n ← call (tpa_udp_send_batch (tpa_worker b)
                  (build_udp_pkt data (zlen data mod U16) ip port local_port));
      mret (if n =? 1 then Ok () else Err (Simple WriteZero))
  end.

(** The loop of [submit] on a stream, from the offset [sent] on. *)
Fixpoint tpa_write_loop (fuel : nat) (worker sid : Z) (data : bytes) (sent : Z) :
    M W (result unit io_error) :=
  match fuel with
  | O => λ _, OutOfFuel
  | S f =>
      if sent <? zlen data then
        rest ← pure (slice_from sent data);
        n ← call (tpa_write sid rest);
        if 0 <? n then tpa_write_loop f worker sid data (sent + n)
        else if n =? 0 then
          _ ← call (λ w, ((), tpa_worker_run worker w));
          tpa_write_loop f worker sid data sent
        else
          err ← tpa_last_error;
          mret (Err err)
      else mret (Ok ())
  end.

Definition tpa_submit (fuel : nat) (b : LibTpa) (conn : TpaConn) (kind : Wire) (data : bytes) :
    M W (result unit io_error * (LibTpa * TpaConn)) :=
  r ← (match kind with
       | Stream => tpa_write_loop fuel (tpa_worker b) (sid conn) data 0
       | Datagram dst => send_udp b conn dst data
       end);
  mret (r, (b, conn)).

Definition recv_udp (b : LibTpa) (buf : bytes) : M W (result Z io_error * bytes) :=
  '(n, data, len) ← call (tpa_udp_recv_batch (tpa_worker b) (zlen buf mod U16));
  let buf := written data buf in
  mret (Ok (if n <=? 0 then 0 else len), buf).

Definition recv_tcp (b : LibTpa) (conn : TpaConn) (buf : bytes) : M W (result Z io_error * bytes) :=
  '(n, events) ← call (tpa_event_poll (tpa_worker b));
  if (n <=? 0) || (Z.land events TPA_EVENT_IN =? 0) then mret (Ok 0, buf)
  else
    '(got, data) ← call (tpa_zreadv (sid conn) (length buf));
    let buf := written data buf in
    if got <? 0 then (err ← tpa_last_error; mret (Err err, buf))
    else mret (Ok got, buf).

Definition tpa_poll_recv (b : LibTpa) (conn : TpaConn) (buf : bytes) :
    M W (result Z io_error * bytes * (LibTpa * TpaConn)) :=
  '(r, buf) ← (match dst conn with
               | Some _ => recv_udp b buf
               | None => recv_tcp b conn buf
               end);
  mret (r, buf, (b, conn)).

Definition tpa_drive (b : LibTpa) : M W LibTpa :=
  if tpa_worker b =? 0 then mret b
  else
    _ ← call (λ w, ((), tpa_worker_run (tpa_worker b) w));
    mret b.

(** [impl ByteIo for LibTpa]. *)
Definition libtpa_io (fuel : nat) : ByteIo W LibTpa TpaConn := {|
  io_connect := tpa_connect;
  io_submit := tpa_submit fuel;
  io_poll_recv := tpa_poll_recv;
  io_drive := tpa_drive;
|}.
End libtpa.

(** * Endpoints *)

Lemma rsplit_colon_none l : x3a ∉ l → rsplit_colon l = None.
Proof.
  induction l as [|b l IH]; intros Hl; [done|]. apply not_elem_of_cons in Hl as [Hb Hl].
  cbn [rsplit_colon]. rewrite IH by done. cbn. by rewrite byte_eqb_ne.
Qed.

Lemma rsplit_colon_last h t : x3a ∉ t → rsplit_colon (h ++ x3a :: t) = Some (h, t).
Proof.
  intros Ht. induction h as [|b h IH]; cbn [app rsplit_colon].
  - by rewrite rsplit_colon_none.
  - by rewrite IH.
Qed.

Lemma decimal_no_colon n : x3a ∉ decimal n.
Proof.
  intros Hin. pose proof (decimal_digits n) as Hd. rewrite Forall_forall in Hd.
  specialize (Hd _ Hin). by vm_compute in Hd.
Qed.

(** The endpoint a connection is asked for is the one libtpa connects to:
    the host and port that [HttpConn::connect_with] prints into the endpoint
    come back from [split_host_port], whatever bytes the host has, and
    [connect] passes them on unless the host has a NUL byte. *)
Theorem tpa_endpoint_roundtrip `{Tpa W} (b : LibTpa) ep (w : W) :
  0 ≤ ep_port ep < U16 → x00 ∉ ep_host ep →
  split_host_port (endpoint_addr ep) = Some (ep_host ep, ep_port ep) ∧
  tpa_connect b (endpoint_addr ep) w =
    let '(s, w') := tpa_connect_to (ep_host ep) (ep_port ep) w in
    Ret (if s <? 0 then Err (Message OtherKind (debug_tpa s)) else Ok (mkTpaConn s None), b, w').
Proof.
  intros Hp Hn. assert (split_host_port (endpoint_addr ep) = Some (ep_host ep, ep_port ep)) as Hs.
  { unfold split_host_port, endpoint_addr. change (str ":" ++ ?l) with (x3a :: l).
    rewrite rsplit_colon_last by apply decimal_no_colon. cbn [mbind option_bind].
    by rewrite parse_u16_decimal. }
  split; [done|]. unfold tpa_connect, connect_tcp. rewrite Hs, bool_decide_false by done.
  unfold mbind, M_bind, call. destruct (tpa_connect_to _ _ _) as [s w'].
  by destruct (s <? 0).
Qed.

(** * The writing loop *)

(** The bytes a connection of the stack has taken so far, in order. *)
Class TpaView (W : Type) := tpa_accepted : W → Z → bytes.

(** [tpa_write] takes as many bytes from the front as it says and none when the
    result is not positive; running the worker takes none. *)
Class TpaLaws (W : Type) `{Tpa W, TpaView W} : Prop := {
  write_accepts : ∀ s l w, let '(n, w') := tpa_write s l w in
    (0 < n → n ≤ zlen l ∧ tpa_accepted w' s = tpa_accepted w s ++ take (Z.to_nat n) l) ∧
    (n ≤ 0 → tpa_accepted w' s = tpa_accepted w s);
  run_accepts : ∀ wk s w, tpa_accepted (tpa_worker_run wk w) s = tpa_accepted w s;
}.

(** What [submit] on a stream leaves. *)
Definition tpa_submitted `{TpaView W} (s : Z) (data : bytes) (w : W) (r : result unit io_error)
    (w' : W) : Prop :=
  match r with
  | Ok _ => tpa_accepted w' s = tpa_accepted w s ++ data
  | Err _ => ∃ k, (k < length data)%nat ∧ tpa_accepted w' s = tpa_accepted w s ++ take k data
  end.

Section write.
Context `{TL : TpaLaws W}.

(** Running the worker drains the stack's buffers: between two accepted chunks
    a write is refused at most [K] times. *)
Definition tpa_progress (wk s : Z) (stall : W → nat) (K : nat) : Prop := ∀ l w, l ≠ [] →
  let '(n, w') := tpa_write s l w in
  (0 < n → (stall w' ≤ K)%nat) ∧ (n = 0 → (stall (tpa_worker_run wk w') < stall w)%nat).

Lemma tpa_write_loop_ends wk s data stall K w0 fuel w sent :
  tpa_progress wk s stall K → 0 ≤ sent ≤ zlen data →
  tpa_accepted w s = tpa_accepted w0 s ++ take (Z.to_nat sent) data →
  ((length data - Z.to_nat sent) * S K + stall w < fuel)%nat →
  ends (tpa_write_loop fuel wk s data sent) w (tpa_submitted s data w0).
Proof using TL.
  intros Hprog. revert w sent. induction fuel as [|f IH]; intros w sent Hs Hacc Hf;
    [by apply Nat.nlt_0_r in Hf|].
  cbn [tpa_write_loop]. destruct (Z.ltb_spec sent (zlen data)) as [Hlt|Hge].
  2: { apply ends_ret. cbn. rewrite Hacc, take_ge; [done|]. unfold zlen in *. lia. }
  apply ends_bind, (ends_pure (drop (Z.to_nat sent) data)); [by apply slice_from_to_nat|].
  apply ends_bind, ends_call. set (l := drop (Z.to_nat sent) data).
  assert (Z.of_nat (length l) = zlen data - sent) as Hl
    by (unfold l, zlen in *; rewrite length_drop; lia).
  assert (l ≠ []) as Hne by (intros ->; cbn in Hl; lia).
  specialize (Hprog l w Hne). pose proof (write_accepts s l w) as Hw.
  destruct (tpa_write s l w) as [n w']. destruct Hw as [Hyes Hno]. destruct Hprog as [Hp1 Hp2].
  cbn [fst snd]. destruct (Z.ltb_spec 0 n) as [Hn|Hn].
  - destruct (Hyes Hn) as [Hle Hacc']. specialize (Hp1 Hn). unfold zlen in Hle.
    apply IH; [lia| |unfold zlen in *; nia].
    rewrite Hacc', Hacc, <- app_assoc. f_equal. unfold l.
    rewrite Z2Nat.inj_add by lia. by rewrite take_take_drop.
  - specialize (Hno Hn). destruct (Z.eqb_spec n 0) as [Hz|Hz].
    + apply ends_bind, ends_call. cbn [fst snd]. specialize (Hp2 Hz).
      apply IH; [done|by rewrite run_accepts, Hno|lia].
    + apply ends_bind. eexists _, w'. split; [done|]. apply ends_ret.
      exists (Z.to_nat sent). split; [unfold zlen in *; lia|by rewrite Hno].
Qed.

(** A stack that refuses for ever. *)
Lemma tpa_write_loop_stalls wk s data (stalled : W → Prop) fuel w :
  (∀ l w, stalled w → let '(n, w') := tpa_write s l w in n = 0 ∧ stalled (tpa_worker_run wk w')) →
  stalled w → data ≠ [] → tpa_write_loop fuel wk s data 0 w = OutOfFuel.
Proof using.
  intros Hst Hw Hd. revert w Hw. induction fuel as [|f IH]; intros w Hw; [done|]. cbn [tpa_write_loop].
  rewrite (proj2 (Z.ltb_lt _ _)) by (destruct data; [done|rewrite zlen_cons; pose proof (zlen_nonneg data); lia]).
  unfold mbind, M_bind, pure, call. pose proof (slice_from_app [] data) as Hl.
  change (zlen []) with 0 in Hl. cbn [app] in Hl. rewrite Hl.
  specialize (Hst data w Hw). destruct (tpa_write s data w) as [n w']. destruct Hst as [-> Hw'].
  cbn. by apply IH.
Qed.
End write.

(** C28: [LibTpa::submit] on a stream writes every byte, once and in order, or
    reports an error after a proper prefix; while the stack is full it runs the
    worker and tries again. If running the worker makes room after at most [K]
    refusals in a row, the loop ends within [(K + 1) * (len + 1)] writes. There
    is no other end to it: on a connection whose stack refuses for ever it never
    returns, whatever the fuel. *)
Theorem tpa_submit_stream `{TpaLaws W} b conn data (w : W) fuel :
  (∀ stall K, tpa_progress (tpa_worker b) (sid conn) stall K → (stall w ≤ K)%nat →
     (S K * S (length data) ≤ fuel)%nat →
     ends (tpa_submit fuel b conn Stream data) w
       (λ '(r, bc) w', bc = (b, conn) ∧ tpa_submitted (sid conn) data w r w')) ∧
  (∀ stalled : W → Prop,
     (∀ l w, stalled w → let '(n, w') := tpa_write (sid conn) l w in
        n = 0 ∧ stalled (tpa_worker_run (tpa_worker b) w')) →
     stalled w → data ≠ [] → tpa_submit fuel b conn Stream data w = OutOfFuel).
Proof.
  split.
  - intros stall K Hp Hw Hf. unfold tpa_submit. apply ends_bind. eapply ends_mono.
    + eapply tpa_write_loop_ends; [done|pose proof (zlen_nonneg data); lia|by rewrite app_nil_r|].
      cbn. nia.
    + intros r w' Hr. by apply ends_ret.
  - intros stalled Hst Hw Hd. unfold tpa_submit, mbind, M_bind.
    by rewrite (tpa_write_loop_stalls _ _ _ stalled).
Qed.

(** * Datagrams *)

Lemma le_bytes_le_value l : le_bytes (length l) (le_value l) = l.
Proof.
  induction l as [|b l IH]; [done|]. cbn [length le_bytes le_value].
  pose proof (b2z_range b) as Hb. f_equal.
  - apply b2z_inj. rewrite b2z_z2b_mod, Z.mul_comm, Z.mod_add by lia. by apply Z.mod_small.
  - replace ((b2z b + 256 * le_value l) / 256) with (le_value l); [done|].
    rewrite Z.mul_comm, Z.div_add, Z.div_small by lia. lia.
Qed.

Lemma tpa_ip_mapped octets :
  length octets = 4%nat → tpa_ip_bytes (tpa_ip_from_v4 octets) = zeroes 10 ++ [xff; xff] ++ octets.
Proof.
  intros Ho. unfold tpa_ip_bytes, tpa_ip_from_v4. cbn [fmap list_fmap concat].
  assert (∀ l, length l = 4%nat → le_bytes 4 (le_value l) = l) as Hle
    by (intros l <-; apply le_bytes_le_value).
  unfold to_be32. rewrite Hle by (by rewrite length_rev, length_le_bytes). unfold u32_from_v4.
  rewrite Hle by (by rewrite length_rev). rewrite rev_involutive, app_nil_r. done.
Qed.

(** The datagram handed to the stack: all of the data with its length, the
    destination as the IPv4-mapped IPv6 address, its port in network order; the
    local port of a connection made by [connect_udp] is the destination's port,
    not one of the host's. The call succeeds exactly when the stack took the
    packet, and a destination with an IPv6 address is refused. *)
Theorem tpa_udp_packet `{Tpa W} (b : LibTpa) octets port data (w : W) :
  length octets = 4%nat → 0 ≤ port < U16 → zlen data < U16 →
  ∃ pkt, send_udp b (connect_udp (V4 octets port)) (V4 octets port) data w
      = (let '(n, w') := tpa_udp_send_batch (tpa_worker b) pkt w in
         Ret (if n =? 1 then Ok () else Err (Simple WriteZero), w')) ∧
    pkt_buf pkt = data ∧ pkt_len pkt = zlen data ∧
    tpa_ip_bytes (pkt_remote_ip pkt) = zeroes 10 ++ [xff; xff] ++ octets ∧
    be_value (le_bytes 2 (pkt_remote_port pkt)) = port ∧
    be_value (le_bytes 2 (pkt_local_port pkt)) = port.
Proof.
  intros Ho Hp Hd. pose proof (zlen_nonneg data) as Hz.
  exists (build_udp_pkt data (zlen data mod U16) octets port port). split.
  - unfold send_udp, mbind, M_bind, call. cbn [dst connect_udp].
    by destruct (tpa_udp_send_batch _ _ _).
  - cbn [build_udp_pkt pkt_buf pkt_len pkt_remote_ip pkt_remote_port pkt_local_port].
    by rewrite Z.mod_small, tpa_ip_mapped, be_value_port.
Qed.

(** On libtpa the end of the stream goes unseen as well: when the peer has
    closed and the read gives 0 bytes, [poll_response] gives no response and no
    error and leaves the connection as it was, as if nothing had arrived. *)
Theorem tpa_eof_is_silent `{BuildProfile} `{Tpa W} `{Tls T} fuel n (h : HttpConn LibTpa TpaConn T)
    k events w w1 w2 :
  dst (hc_raw h) = None → eng_rx_plain (hc_engine h) = [] →
  tpa_event_poll (tpa_worker (hc_io h)) w = (k, events, w1) →
  0 < k → Z.land events TPA_EVENT_IN ≠ 0 →
  tpa_zreadv (sid (hc_raw h)) RX_LEN w1 = (0, [], w2) →
  poll_response (H0 := libtpa_io fuel) n h w = Ret (Ok None, h, w2).
Proof.
  intros Hd Hrx He Hk Hev Hr. destruct h as [b c e]. cbn [hc_io hc_raw hc_engine] in *.
  unfold poll_response. cbn [io_poll_recv libtpa_io hc_io hc_raw hc_engine].
  unfold tpa_poll_recv, recv_tcp. rewrite Hd. unfold mbind, M_bind, call, mret, M_ret.
  rewrite He. destruct (Z.leb_spec k 0); [lia|]. destruct (Z.eqb_spec (Z.land events TPA_EVENT_IN) 0);
    [done|]. cbn [orb]. rewrite length_zeroes, Hr. cbn [Z.ltb Z.eqb Z.compare].
  cbn [pure ingest]. unfold take_body. by rewrite Hrx.
Qed.

(** * Starting once *)

(** The starts of one process in turn; between two of them the rest of the
    program may do anything to the stack, dropping a runtime included. *)
Fixpoint starts `{Tpa W} (l : list (Z * Z * (W → W))) :
    M (tpa_process W) (list (result TpaRuntime TransportError)) :=
  match l with
  | [] => mret []
  | (nw, nq, rest) :: l =>
      r ← tpa_start nw nq;
      _ ← call (λ p, ((), mkTpaProcess (init_done p) (rest (stack p))));
      rs ← starts l;
      mret (r :: rs)
  end.

Lemma tpa_start_flag `{Tpa W} nw nq (p : tpa_process W) :
  ends (tpa_start nw nq) p (λ r p',
    if is_ok r then init_done p = false ∧ init_done p' = true else init_done p' = init_done p).
Proof.
  unfold tpa_start, try_acquire_lock_only, on_stack, drop_lock, init_done_swap, mbind, M_bind, mret,
    M_ret, ends.
  repeat (case_match; simplify_eq/=); do 2 eexists; (split; [done|]); cbn; try done; congruence.
Qed.

Definition started (rs : list (result TpaRuntime TransportError)) : nat :=
  length (filter (λ r, is_ok r = true) rs).

(** A process initialises the stack at most once. Over any sequence of
    starts, whatever happens to the stack between them, [INIT_DONE] at the end
    counts the starts that succeeded: at most one does, and none in a process
    where one did before, also when the runtime it gave has been dropped and
    its lock released. *)
Theorem tpa_starts_once `{Tpa W} l (p : tpa_process W) :
  ends (starts l) p (λ rs p', length rs = length l ∧
    (started rs + Nat.b2n (init_done p) = Nat.b2n (init_done p'))%nat).
Proof.
  revert p. induction l as [|[[nw nq] rest] l IH]; intros p; cbn [starts]; [by apply ends_ret|].
  run_step. eapply ends_mono; [apply tpa_start_flag|]. intros r p1 Hr.
  run_step. apply ends_call. cbv beta iota. run_step.
  eapply ends_mono; [apply IH|]. intros rs p2 [Hlen Heq]. cbn [init_done snd] in Heq.
  apply ends_ret. cbn [length]. split; [by rewrite Hlen|].
  unfold started in *. rewrite filter_cons. destruct (is_ok r).
  - destruct Hr as [Hp Hp1]. rewrite decide_True by done. rewrite Hp. rewrite Hp1 in Heq.
    cbn [length Nat.b2n] in *. lia.
  - rewrite decide_False by done. by rewrite <- Hr.
Qed.

(** * A stack for the examples *)

(** A stack whose buffer takes four bytes and is drained by running the worker,
    and whose peer has closed. *)
Record toy_stack := mkToy { toy_sent : bytes; toy_full : bool }.
#[export] Instance toy_tpa : Tpa toy_stack := {
  TPA_EVENT_IN := 1;
  tpa_init_with_udp_queues _ _ w := (0, w);
  tpa_udp_init ports w := (0, ports, w);
  tpa_worker_init w := (4096, w);
  tpa_worker_run _ w := mkToy (toy_sent w) false;
  tpa_connect_to _ _ w := (7, w);
  tpa_write _ l w :=
    if toy_full w then (0, w) else (zlen (take 4 l), mkToy (toy_sent w ++ take 4 l) true);
  tpa_event_poll _ w := (1, 1, w);
  tpa_zreadv _ _ w := (0, [], w);
  tpa_udp_send_batch _ pkt w := (1, mkToy (toy_sent w ++ pkt_buf pkt) (toy_full w));
  tpa_udp_recv_batch _ _ w := (0, [], 0, w);
  open_lock_file w := (Ok 5, w);
  flock_nb _ w := (0, w);
  close_lock_file _ w := w;
  tpa_errno _ := 0;
}.
#[export] Instance toy_view : TpaView toy_stack := λ w _, toy_sent w.
#[export] Instance toy_laws : TpaLaws toy_stack.
Proof.
  split; [|done]. intros s l [sent full]. cbn. destruct full; [done|]. cbn.
  unfold zlen. rewrite Nat2Z.id, length_take. split.
  - intros _. split; [lia|]. f_equal. destruct (decide (4 ≤ length l)%nat).
    + by replace (4 `min` length l)%nat with 4%nat by lia.
    + by rewrite !take_ge by lia.
  - intros Hn. destruct l; [by rewrite take_nil, app_nil_r|cbn in Hn; lia].
Qed.

Lemma tpa_submit_stream_witness :
  ends (tpa_submit 40 (mkLibTpa 4096) (mkTpaConn 7 None) Stream (str "POST / HTTP/1.1"))
    (mkToy [] true)
    (λ '(r, bc) w', bc = (mkLibTpa 4096, mkTpaConn 7 None) ∧
       tpa_submitted 7 (str "POST / HTTP/1.1") (mkToy [] true) r w').
Proof.
  destruct (tpa_submit_stream (mkLibTpa 4096) (mkTpaConn 7 None) (str "POST / HTTP/1.1") (mkToy [] true) 40)
    as [Hs _].
  apply (Hs (λ w, if toy_full w then 1%nat else 0%nat) 1%nat); [|compute_done..].
  intros l [sent full] Hl. cbn. destruct full; cbn; [lia|]. split; [lia|].
  destruct l as [|x l]; [done|]. cbn [take]. len.
Defined.

Lemma tpa_endpoint_roundtrip_witness :
  let ep := mkHttpEndpoint (str "[::1]") 8899 (str "/") (str "localhost") in
  split_host_port (str "[::1]:8899") = Some (str "[::1]", 8899) ∧
  tpa_connect tpa_new (str "[::1]:8899") (mkToy [] false)
  = Ret (Ok (mkTpaConn 7 None), tpa_new, mkToy [] false).
Proof.
  intros ep. assert (x00 ∉ ep_host ep) as Hn by (by apply (bool_decide_eq_false_1 (x00 ∈ ep_host ep))).
  change (str "[::1]:8899") with (endpoint_addr ep).
  exact (tpa_endpoint_roundtrip tpa_new ep (mkToy [] false) ltac:(done) Hn).
Defined.

Lemma tpa_udp_packet_witness :
  ∃ pkt, send_udp (mkLibTpa 4096) (connect_udp (V4 [x0a; x00; x00; x07] 8899))
      (V4 [x0a; x00; x00; x07] 8899) (str "tx") (mkToy [] false)
    = Ret (Ok (), mkToy (pkt_buf pkt) false) ∧
    tpa_ip_bytes (pkt_remote_ip pkt) = zeroes 10 ++ [xff; xff; x0a; x00; x00; x07] ∧
    be_value (le_bytes 2 (pkt_local_port pkt)) = 8899.
Proof.
  destruct (tpa_udp_packet (mkLibTpa 4096) [x0a; x00; x00; x07] 8899 (str "tx") (mkToy [] false))
    as (pkt&Hs&_&_&Hip&_&Hl); [done..|].
  exists pkt. split; [exact Hs|]. by split.
Defined.

Lemma tpa_eof_is_silent_witness :
  let h := mkHttpConn (mkLibTpa 4096) (mkTpaConn 7 None) sample_engine in
  poll_response (H := true) (H0 := libtpa_io 2) 2 h (mkToy [] false)
  = Ret (Ok None, h, mkToy [] false).
Proof.
  intros h. by apply (tpa_eof_is_silent (H := true) 2 2 h 1 1 (mkToy [] false) (mkToy [] false)
    (mkToy [] false)).
Defined.
