(* ===== verification/Wait.v ===== *)
(** Waiting and scheduling, rt/wait.rs and rt/mod.rs, over classes for the CPU
    and the operating system. *)
From S2P Require Import Prelude Types Backend.
From stdpp Require Import options.

(** * The CPU *)

(** The instructions [idle_wait] is made of, for the cache line it is given:
    [cpuid] gives [ecx] of a leaf and subleaf, [monitor_line] arms the monitor,
    [mwaitx_ins] takes [ecx] and [ebx] (the timer), [umwait_until] the two halves of
    its deadline, [read_line] reads the counter. *)
Class Cpu (W : Type) := {
  cpuid : Z → Z → Z;
  monitor_line : W → W;
  mwaitx_ins : Z → Z → W → W;
  umwait_until : Z → Z → W → W;
  rdtsc : W → Z * W;
  read_line : W → Z * W;
  spin_hint : W → W;
}.

Inductive IdleBackend := AmdMwaitx | IntelUmwait | SpinLoop.

(** [backend as u8]. *)
Definition backend_u8 (b : IdleBackend) : Z :=
  match b with
  | AmdMwaitx => 1
  | IntelUmwait => 2
  | SpinLoop => 3
  end.

Definition DEFAULT_TIMEOUT_TSC : Z := 100000.

Section wait.
Context `{BuildProfile} `{Cpu W}.

Definition detect_backend_cpuid : IdleBackend :=
  if negb (Z.land (cpuid 0x80000001 0) (Z.shiftl 1 29) =? 0) then AmdMwaitx
  else if negb (Z.land (cpuid 7 0) (Z.shiftl 1 5) =? 0) then IntelUmwait
  else SpinLoop.

(** The backend and the new value of the cache. *)
Definition detect_backend (cached : Z) : IdleBackend * Z :=
  if negb (cached =? 0) then
    (if cached =? 1 then AmdMwaitx else if cached =? 2 then IntelUmwait else SpinLoop, cached)
  else
    let backend := detect_backend_cpuid in
    (backend, backend_u8 backend).

Definition mwaitx (timeout_tsc : Z) : M W unit :=
  if 0 <? timeout_tsc then call (λ w, ((), mwaitx_ins 2 timeout_tsc w))
  else call (λ w, ((), mwaitx_ins 0 0 w)).

Definition umwait (deadline_tsc : Z) : M W unit :=
  let lo := deadline_tsc mod U32 in
  let hi := Z.shiftr deadline_tsc 32 mod U32 in
  call (λ w, ((), umwait_until lo hi w)).

Fixpoint spin_until (n : nat) (initial : Z) : M W unit :=
  match n with
  | O => mret ()
  | S n =>
      _ ← call (λ w, ((), spin_hint w));
      v ← call read_line;
      if v =? initial then spin_until n initial else mret ()
  end.

Definition idle_wait (cached : Z) (condition_still_true : W → bool * W) : M W Z :=
  let '(backend, cached) := detect_backend cached in
  match backend with
  | AmdMwaitx =>
      _ ← call (λ w, ((), monitor_line w));
      c ← call condition_still_true;
      _ ← (if (c : bool) then mwaitx DEFAULT_TIMEOUT_TSC else mret ());
      mret cached
  | IntelUmwait =>
      _ ← call (λ w, ((), monitor_line w));
      c ← call condition_still_true;
      if (c : bool) then
        now ← call rdtsc;
        deadline ← pure (add_mod U64 now DEFAULT_TIMEOUT_TSC);
        _ ← umwait deadline;
        mret cached
      else mret cached
  | SpinLoop =>
      initial ← call read_line;
      _ ← spin_until 256 initial;
      mret cached
  end.
End wait.

(** * Threads *)

(** [core_affinity] and [sched_setscheduler]. *)
Class Sched (W : Type) := {
  get_core_ids : W → option (list Z);
  set_for_current : Z → W → bool * W;
  sched_setscheduler_fifo : Z → W → Z * W;
  sched_errno : W → Z;
}.

Section sched.
Context `{Sched W}.

Definition pin_current_thread (core_id : Z) : M W bool := λ w,
  match get_core_ids w with
  | None => Ret (false, w)
  | Some ids =>
      match head (filter (λ c, c = core_id) ids) with
      | Some id => call (set_for_current id) w
      | None => Ret (false, w)
      end
  end.

Definition set_sched_fifo (priority : Z) : M W (result unit io_error) :=
  ret ← call (sched_setscheduler_fifo priority);
  if ret =? 0 then mret (Ok ()) else (λ w, Ret (Err (Os (sched_errno w)), w)).
End sched.

(** * Waiting is bounded *)

(** What the manuals say of the instructions, on the time stamp counter: each
    takes at most [d] cycles, and a wait ends by its deadline. *)
Class CpuLaws (W : Type) `{Cpu W} (tsc : W → Z) (d : Z) : Prop := {
  cycle_nonneg : 0 ≤ d;
  tsc_nonneg : ∀ w, 0 ≤ tsc w;
  monitor_cycles : ∀ w, tsc (monitor_line w) ≤ tsc w + d;
  rdtsc_cycles : ∀ w, tsc (rdtsc w).2 ≤ tsc w + d;
  rdtsc_reads : ∀ w, tsc w ≤ (rdtsc w).1 ≤ tsc (rdtsc w).2;
  read_cycles : ∀ w, tsc (read_line w).2 ≤ tsc w + d;
  spin_cycles : ∀ w, tsc (spin_hint w) ≤ tsc w + d;
  mwaitx_deadline : ∀ t w, 0 < t → tsc (mwaitx_ins 2 t w) ≤ tsc w + t + d;
  umwait_deadline : ∀ lo hi w, tsc (umwait_until lo hi w) ≤ Z.max (tsc w) (lo + 2 ^ 32 * hi) + d;
}.

(** The two halves [umwait] takes apart make the deadline again. *)
Lemma umwait_halves t : 0 ≤ t < U64 → t mod U32 + 2 ^ 32 * (Z.shiftr t 32 mod U32) = t.
Proof.
  unfold U64, U32. intros Ht. rewrite Z.shiftr_div_pow2 by lia.
  rewrite (Z.mod_small (t / 2 ^ 32)).
  - pose proof (Z.div_mod t (2 ^ 32)). lia.
  - split; [apply Z.div_pos; lia|apply Z.div_lt_upper_bound; lia].
Qed.

Section bounded.
Context `{BuildProfile} `{CL : CpuLaws W tsc d}.

Lemma spin_until_bounded n initial w :
  ends (spin_until n initial) w (λ _ w', tsc w' ≤ tsc w + 2 * d * Z.of_nat n).
Proof using CL.
  pose proof cycle_nonneg as Hd. revert w. induction n as [|n IH]; intros w; cbn [spin_until].
  { apply ends_ret. lia. }
  run_step. run_step. cbv beta iota. run_step. run_step. cbv beta iota.
  pose proof (spin_cycles w) as H1. pose proof (read_cycles (spin_hint w)) as H2. cbn [snd].
  destruct (read_line (spin_hint w)) as [v w']. cbn [fst snd] in *.
  destruct (v =? initial); [|apply ends_ret; lia].
  eapply ends_mono; [apply IH|]. intros [] w2 Hw. cbv beta in *. lia.
Qed.
End bounded.

(** C31: a worker that goes to sleep wakes up by itself. Whichever way of waiting
    the CPU has, [idle_wait] returns, within the time-out and the cycles of its
    own instructions; it caches the way of waiting that [cpuid] reports; and
    when the condition no longer holds once the monitor is armed (a push came
    in between), it does not wait. *)
Theorem idle_wait_bounded `{BuildProfile} `{CpuLaws W tsc d} cached cond w :
  cached = 0 ∨ cached = backend_u8 detect_backend_cpuid →
  (∀ w, tsc (cond w).2 ≤ tsc w + d) →
  tsc w + DEFAULT_TIMEOUT_TSC + 3 * d < U64 →
  ends (idle_wait cached cond) w (λ cached' w',
    cached' = backend_u8 detect_backend_cpuid ∧
    tsc w' ≤ tsc w + DEFAULT_TIMEOUT_TSC + 513 * d ∧
    (detect_backend_cpuid ≠ SpinLoop → (cond (monitor_line w)).1 = false →
     w' = (cond (monitor_line w)).2)).
Proof.
  intros Hcache Hcond Hmax. pose proof cycle_nonneg as Hd. unfold DEFAULT_TIMEOUT_TSC in *.
  assert (detect_backend cached = (detect_backend_cpuid, backend_u8 detect_backend_cpuid)) as Hdet.
  { destruct Hcache as [-> | ->]; unfold detect_backend; [done|]. by destruct detect_backend_cpuid. }
  unfold idle_wait, DEFAULT_TIMEOUT_TSC. rewrite Hdet. destruct detect_backend_cpuid; cbn [backend_u8].
  - pose proof (monitor_cycles w) as Hm. pose proof (Hcond (monitor_line w)) as Hc.
    do 4 (run_step; cbv beta iota; cbn [snd]). destruct (cond (monitor_line w)) as [[] w1]; cbn [fst snd] in *.
    + run_step. unfold mwaitx. cbn [Z.ltb Z.compare]. run_step. cbn [snd]. run_step.
      pose proof (mwaitx_deadline 100000 w1 ltac:(lia)). by split_and!; [|lia|].
    + run_step. run_step. run_step. by split_and!; [|lia|].
  - pose proof (monitor_cycles w) as Hm. pose proof (Hcond (monitor_line w)) as Hc.
    do 4 (run_step; cbv beta iota; cbn [snd]). destruct (cond (monitor_line w)) as [[] w1]; cbn [fst snd] in *.
    + pose proof (rdtsc_cycles w1). pose proof (rdtsc_reads w1). pose proof (tsc_nonneg w1).
      run_step. run_step. destruct (rdtsc w1) as [now w2]. cbv beta iota. cbn [fst snd] in *.
      run_step. eapply ends_pure; [apply add_mod_ok; lia|]. run_step. unfold umwait. run_step.
      cbv beta iota. run_step. cbn [snd].
      pose proof (umwait_deadline ((now + 100000) mod U32)
        (Z.shiftr (now + 100000) 32 mod U32) w2) as Hu.
      rewrite umwait_halves in Hu by lia. by split_and!; [|lia|].
    + run_step. by split_and!; [|lia|].
  - pose proof (read_cycles w) as Hr. run_step. run_step. destruct (read_line w) as [v w1].
    cbv beta iota. cbn [snd] in *. run_step.
    eapply ends_mono; [apply (spin_until_bounded (d := d) (tsc := tsc))|]. intros [] w2 Hw. cbv beta in *.
    run_step. by split_and!; [|lia|].
Qed.

(** A CPU with one cycle to an instruction whose waits sleep to the end. *)
Record toy_cpu := mkToyCpu { toy_tsc : N }.
Definition toy_tick (w : toy_cpu) : toy_cpu := mkToyCpu (toy_tsc w + 1).
Definition toy_time (w : toy_cpu) : Z := Z.of_N (toy_tsc w).
#[export] Instance umwait_cpu : Cpu toy_cpu := {
  cpuid leaf _ := if leaf =? 7 then 32 else 0;
  monitor_line := toy_tick;
  mwaitx_ins _ t w := mkToyCpu (toy_tsc w + Z.to_N t);
  umwait_until lo hi w := mkToyCpu (N.max (toy_tsc w) (Z.to_N (lo + 2 ^ 32 * hi)));
  rdtsc w := (toy_time w, toy_tick w);
  read_line w := (0, toy_tick w);
  spin_hint := toy_tick;
}.
#[export] Instance umwait_laws : CpuLaws toy_cpu toy_time 1.
Proof. split; intros; unfold toy_time; cbn -[Z.mul Z.pow N.add N.max Z.to_N Z.of_N]; unfold toy_time; lia. Qed.

Lemma idle_wait_bounded_witness :
  ends (idle_wait (H := true) 0 (λ w, (true, toy_tick w))) (mkToyCpu 1000) (λ cached' w',
    cached' = 2 ∧ toy_time w' ≤ 1000 + DEFAULT_TIMEOUT_TSC + 513).
Proof.
  eapply ends_mono; [apply (idle_wait_bounded (H := true) (tsc := toy_time) (d := 1) 0
    (λ w, (true, toy_tick w)) (mkToyCpu 1000))|].
  - by left.
  - intros w. unfold toy_time. cbn. lia.
  - reflexivity.
  - intros c w (Hc&Hw&_). split; [exact Hc|]. change (toy_time (mkToyCpu 1000)) with 1000 in Hw. lia.
Defined.
