(* ===== verification/Lane.v ===== *)
(** The result lane, result_lane.rs: raw responses from the workers' rings,
    parsed by the provider's codec and handed to the caller's sink. *)
From S2P Require Import Prelude Types Ring Response.
From stdpp Require Import options.

Definition RESP_CAP : Z := 1024.
Definition RESULT_RING : nat := 256.

Record RawResp := mkRawResp {
  rr_job : Z;
  rr_provider : ProviderId;
  rr_sent_tsc : Z;
  rr_settled_tsc : Z;
  rr_bytes : bytes;
  rr_outcome_hint : option OutcomeKind;
}.

Definition raw_resp_new : RawResp := mkRawResp 0 (mkProviderId 0) 0 0 [] None.

Definition hinted_no_response (resp : RawResp) : bool :=
  match rr_outcome_hint resp with
  | Some NoResponse => true
  | _ => false
  end.

Definition parse_one (resp : RawResp) (codec : ResponseCodec) : ProviderOutcome :=
  let kind :=
    if hinted_no_response resp then NoResponse else codec_parse codec (rr_bytes resp) in
  mkProviderOutcome (rr_job resp) (rr_provider resp) kind (rr_sent_tsc resp) (rr_settled_tsc resp).

(** [trait ResultSink]: the caller's code, which may panic and may not return. *)
Class ResultSink (W : Type) := on_result : ProviderOutcome → M W unit.

(** The rings and the codecs; the sink is part of the world. *)
Record ResultLane (Q : Type → Type) := mkResultLane {
  rl_rings : list (Spsc Q RawResp);
  rl_codecs : list ResponseCodec;
}.
Arguments mkResultLane {Q}.
Arguments rl_rings {Q}.
Arguments rl_codecs {Q}.

Section lane.
Context `{BoundedQueue Q, ResultSink W}.

(** [while let Some(resp) = ring.try_pop() { .. }] on ring [i]: whether it had
    a response, and the ring. *)
Fixpoint drain_ring (fuel : nat) (codecs : list ResponseCodec) (i : nat) (got : bool)
    (ring : Spsc Q RawResp) : M W (bool * Spsc Q RawResp) :=
  match fuel with
  | O => λ _, OutOfFuel
  | S f =>
      match try_pop ring with
      | (None, ring) => mret (got, ring)
      | (Some resp, ring) =>
          codec ← pure (index codecs i);
          _ ← on_result (parse_one resp codec);
          drain_ring f codecs i true ring
      end
  end.

(** The [for] over the rings, from ring [i] on. *)
Fixpoint drain_rings (fuel : nat) (codecs : list ResponseCodec) (i : nat) (got : bool)
    (rings : list (Spsc Q RawResp)) : M W (bool * list (Spsc Q RawResp)) :=
  match rings with
  | [] => mret (got, [])
  | ring :: rings =>
      '(got, ring) ← drain_ring fuel codecs i got ring;
      '(got, rings) ← drain_rings fuel codecs (S i) got rings;
      mret (got, ring :: rings)
  end.

(** One pass of [run]: whether it waits (nothing came, and there is a ring to
    wait on), and the lane. *)
Definition lane_pass (fuel : nat) (l : ResultLane Q) : M W (bool * ResultLane Q) :=
  '(got, rings) ← drain_rings fuel (rl_codecs l) 0 false (rl_rings l);
  mret (negb got && match rings with [] => false | _ => true end,
        mkResultLane rings (rl_codecs l)).

(** [run] while the stop flag reads as [flags]: whether it has returned, and
    the lane. [idle] is the wait on the first ring's counter. *)
Fixpoint lane_run (idle : W → W) (fuel : nat) (flags : list bool) (l : ResultLane Q) :
    M W (bool * ResultLane Q) :=
  match flags with
  | [] => mret (false, l)
  | true :: _ => mret (true, l)
  | false :: flags =>
      '(waits, l) ← lane_pass fuel l;
      _ ← call (λ w, ((), if waits : bool then idle w else w));
      lane_run idle fuel flags l
  end.
End lane.

(** * What a pass delivers *)

(** The outcomes a sink has been given, in order. *)
Class SinkView (W : Type) := delivered : W → list ProviderOutcome.
(** A call of the sink delivers its argument, in the sense of [wp]: if it
    returns ([post]), if it comes back at all ([halts]), always ([ends]). *)
Class SinkLaws (W : Type) `{ResultSink W, SinkView W}
    (wp : ∀ A, M W A → W → (A → W → Prop) → Prop) : Prop :=
  on_result_delivers : ∀ o w, wp _ (on_result o) w (λ _ w', delivered w' = delivered w ++ [o]).

(** What the lane makes of a ring. *)
Definition outcomes `{QueueView Q} (codec : ResponseCodec) (ring : Spsc Q RawResp) :
    list ProviderOutcome :=
  (λ resp, parse_one resp codec) <$> items ring.

Section lane_lemmas.
Context `{QL : QueueLaws Q} `{SL : SinkLaws W wp} {MW : Modality W wp}.
Implicit Types (ring : Spsc Q RawResp).

Lemma drain_ring_delivers codecs codec i fuel got ring w :
  codecs !! i = Some codec → (length (items ring) < fuel)%nat →
  wp _ (drain_ring fuel codecs i got ring) w (λ '(got', ring') w',
    got' = got || negb (is_empty ring) ∧ items ring' = [] ∧
    delivered w' = delivered w ++ outcomes codec ring).
Proof using MW QL SL.
  intros Hc. revert got ring w. induction fuel as [|f IH]; intros got ring w Hf; [lia|].
  cbn [drain_ring]. unfold outcomes. destruct (items ring) as [|r rs] eqn:E.
  - rewrite try_pop_nil by done. apply wp_ret.
    rewrite (proj2 (is_empty_items _)), orb_false_r, app_nil_r by done. done.
  - destruct (try_pop_cons _ _ _ E) as (Hpop&Hitems&_).
    destruct (try_pop ring) as [o ring']. cbn [fst snd] in *. subst o.
    apply wp_bind, (wp_pure _ codec); [by apply index_Some|]. apply wp_bind.
    eapply wp_mono; [apply on_result_delivers|]. intros [] w1 Hw1.
    eapply wp_mono; [apply (IH true); rewrite Hitems; cbn in Hf; lia|].
    intros [got' ring''] w' (->&Hr'&Hw'). rewrite Hw'. unfold outcomes. rewrite Hitems.
    assert (is_empty ring = false) as ->
      by (apply not_true_iff_false; by rewrite is_empty_items, E).
    rewrite orb_true_r, Hw1, <- app_assoc. done.
Qed.

Lemma drain_rings_deliver codecs fuel i got rings w :
  (i + length rings ≤ length codecs)%nat →
  Forall (λ ring, length (items ring) < fuel)%nat rings →
  wp _ (drain_rings fuel codecs i got rings) w (λ '(got', rings') w',
    got' = got || existsb (λ ring, negb (is_empty ring)) rings ∧
    Forall (λ ring, items ring = []) rings' ∧ length rings' = length rings ∧
    delivered w' = delivered w ++ concat (zip_with outcomes (drop i codecs) rings)).
Proof using MW QL SL.
  revert i got w. induction rings as [|ring rings IH]; intros i got w Hlen Hf.
  - apply wp_ret. rewrite zip_with_nil_r, orb_false_r, app_nil_r. done.
  - cbn [length] in Hlen. destruct (lookup_lt_is_Some_2 codecs i) as [codec Hc]; [lia|].
    rewrite (drop_S _ _ _ Hc). cbn [zip_with concat drain_rings].
    apply Forall_cons in Hf as [Hf0 Hf].
    apply wp_bind. eapply wp_mono; [by eapply drain_ring_delivers|].
    intros [got1 ring1] w1 (->&Hr1&Hw1). apply wp_bind.
    eapply wp_mono; [apply (IH (S i) _ w1); [lia|done]|].
    intros [got2 rings2] w2 (->&Hr2&Hl2&Hw2). apply wp_ret.
    rewrite Hw2, Hw1, <- app_assoc. cbn. rewrite orb_assoc, Hl2. by repeat split; try constructor.
Qed.

Lemma all_empty rings :
  existsb (λ ring, negb (is_empty ring)) rings = false ↔ Forall (λ ring, items ring = []) rings.
Proof using QL.
  induction rings as [|r rs IH]; [done|]. cbn [existsb].
  by rewrite orb_false_iff, Forall_cons, negb_false_iff, is_empty_items, IH.
Qed.
End lane_lemmas.

(** The pass, once more than enough fuel for the longest ring. *)
Lemma lane_pass_wp `{QueueLaws Q} `{SinkLaws W wp} `{!Modality W wp} (l : ResultLane Q) (w : W) fuel :
  length (rl_codecs l) = length (rl_rings l) →
  Forall (λ ring, length (items ring) < fuel)%nat (rl_rings l) →
  wp _ (lane_pass fuel l) w (λ '(waits, l') w',
    Forall (λ ring, items ring = []) (rl_rings l') ∧
    rl_codecs l' = rl_codecs l ∧ length (rl_rings l') = length (rl_rings l) ∧
    delivered w' = delivered w ++ concat (zip_with outcomes (rl_codecs l) (rl_rings l)) ∧
    (waits = true ↔ rl_rings l ≠ [] ∧ Forall (λ ring, items ring = []) (rl_rings l))).
Proof.
  intros Hlen Hf. unfold lane_pass. apply wp_bind.
  eapply wp_mono; [apply (drain_rings_deliver _ _ 0); [lia|done]|].
  intros [got rings] w' (->&Hr&Hl&Hw). apply wp_ret. cbn [rl_rings rl_codecs].
  repeat (split; [done|]). rewrite andb_true_iff, negb_true_iff. cbn [orb].
  rewrite all_empty. split; intros [Ha Hb]; (split; try done); by destruct (rl_rings l), rings.
Qed.

(** A lane to which nothing comes only waits. *)
Lemma lane_pass_empty `{QueueLaws Q} `{ResultSink W} (l : ResultLane Q) (w : W) fuel :
  Forall (λ ring, items ring = []) (rl_rings l) → rl_rings l ≠ [] → (0 < fuel)%nat →
  lane_pass fuel l w = Ret (true, l, w).
Proof.
  intros He Hne Hf. destruct fuel as [|f]; [lia|].
  assert (∀ codecs i rings, Forall (λ ring, items ring = []) rings →
    drain_rings (S f) codecs i false rings w = Ret (false, rings, w)) as Hd.
  { intros codecs i rings Hr. revert i. induction Hr as [|ring rings Hr _ IH]; intros i; [done|].
    cbn [drain_rings drain_ring]. rewrite try_pop_nil by done. unfold mbind, M_bind, mret, M_ret.
    by rewrite IH. }
  unfold lane_pass, mbind, M_bind. rewrite Hd by done. destruct l as [[|ring rings] codecs]; done.
Qed.

Lemma lane_run_waits `{QueueLaws Q} `{ResultSink W} idle (l : ResultLane Q) (w : W) fuel flags :
  Forall (λ ring, items ring = []) (rl_rings l) → rl_rings l ≠ [] → (0 < fuel)%nat →
  Forall (λ flag, flag = false) flags →
  lane_run idle fuel flags l w = Ret (false, l, Nat.iter (length flags) idle w).
Proof.
  intros He Hne Hf Hfl. revert w. induction Hfl as [|flag flags -> Hfl IH]; intros w; [done|].
  cbn [lane_run]. unfold mbind, M_bind, call. rewrite lane_pass_empty by done.
  rewrite IH. cbn [length]. by rewrite Nat.iter_succ_r.
Qed.

(** More than the longest ring holds. *)
Definition rings_fuel `{QueueView Q} (rings : list (Spsc Q RawResp)) : nat :=
  S (sum_list ((λ ring, length (items ring)) <$> rings)).

Lemma rings_fuel_enough `{QueueView Q} (rings : list (Spsc Q RawResp)) :
  Forall (λ ring, length (items ring) < rings_fuel rings)%nat rings.
Proof.
  unfold rings_fuel. induction rings as [|ring rings IH]; cbn; constructor; [lia|].
  eapply Forall_impl; [exact IH|]. cbn. lia.
Qed.

(** C18: one pass of the result lane empties every ring and gives the sink, ring
    by ring and in the order they arrived, exactly the outcome of each
    response; it waits exactly when there are rings and none had anything. *)
Theorem lane_pass_delivers `{QueueLaws Q} `{SinkLaws W (@ends W)} (l : ResultLane Q) (w : W) fuel :
  length (rl_codecs l) = length (rl_rings l) →
  Forall (λ ring, length (items ring) < fuel)%nat (rl_rings l) →
  ends (lane_pass fuel l) w (λ '(waits, l') w',
    Forall (λ ring, items ring = []) (rl_rings l') ∧
    rl_codecs l' = rl_codecs l ∧ length (rl_rings l') = length (rl_rings l) ∧
    delivered w' = delivered w ++ concat (zip_with outcomes (rl_codecs l) (rl_rings l)) ∧
    (waits = true ↔ rl_rings l ≠ [] ∧ Forall (λ ring, items ring = []) (rl_rings l))).
Proof. apply lane_pass_wp. Qed.

(** A sink as what it does with each outcome after those it was given before;
    the world is the list of outcomes it has taken. *)
Class SinkBehaviour := sink_does : list ProviderOutcome → ProviderOutcome → outcome unit.

#[export] Instance list_sink `{SinkBehaviour} : ResultSink (list ProviderOutcome) :=
  λ o w, u ← sink_does w o; Ret (u, w ++ [o]).
#[export] Instance list_sink_view : SinkView (list ProviderOutcome) := λ w, w.

(** What the caller's sink does: return; return or panic. *)
Class SinkReturns `{SinkBehaviour} : Prop := sink_returns : ∀ w o, sink_does w o = Ret ().
Class SinkComesBack `{SinkBehaviour} : Prop := sink_comes_back : ∀ w o, sink_does w o ≠ OutOfFuel.

#[export] Instance list_sink_post `{SinkBehaviour} : SinkLaws (list ProviderOutcome) (@post _).
Proof. intros o w. unfold post, on_result, list_sink. by destruct (sink_does w o). Qed.
#[export] Instance list_sink_halts `{SinkComesBack} : SinkLaws (list ProviderOutcome) (@halts _).
Proof.
  intros o w. unfold halts, on_result, list_sink. pose proof (sink_comes_back w o).
  by destruct (sink_does w o).
Qed.
#[export] Instance list_sink_ends `{SinkReturns} : SinkLaws (list ProviderOutcome) (@ends _).
Proof. intros o w. exists (), (w ++ [o]). unfold on_result, list_sink. by rewrite sink_returns. Qed.

#[export] Instance returns_comes_back `{SinkReturns} : SinkComesBack.
Proof. intros w o. by rewrite sink_returns. Qed.

(** A sink that returns at once. *)
Definition quiet_sink : SinkBehaviour := λ _ _, Ret ().
#[export] Instance quiet_sink_returns : @SinkReturns quiet_sink.
Proof. done. Qed.

#[local] Existing Instance quiet_sink.

Definition sample_lane : ResultLane list_queue :=
  let ok := mkRawResp 7 (mkProviderId 1) 10 20 (json "{'result':'sig'}") None in
  let late := mkRawResp 8 (mkProviderId 1) 11 25 [] (Some NoResponse) in
  mkResultLane [channel 0 RESULT_RING; mkSpsc (mkQueueAt 1 [ok; late] RESULT_RING) 2]
    [JsonRpcCodec; JsonRpcCodec].

Lemma lane_pass_delivers_witness :
  ends (lane_pass 300 sample_lane) [] (λ '(waits, l') w',
    waits = false ∧ w' = [mkProviderOutcome 7 (mkProviderId 1) (Accepted (str "sig")) 10 20;
                          mkProviderOutcome 8 (mkProviderId 1) NoResponse 11 25]).
Proof.
  eapply ends_mono.
  - apply (lane_pass_delivers sample_lane [] 300); [done|].
    repeat constructor; cbn; lia.
  - intros [waits l'] w' (_&_&_&Hd&Hw). split; [|exact Hd].
    apply not_true_iff_false. rewrite Hw. intros [_ He]. apply Forall_cons in He as [_ He].
    by apply Forall_cons in He as [He _].
Defined.
