(* ===== verification/Reconnect.v ===== *)
(** The reconnect thread, conn/reconnect.rs: workers ask for a fresh standby
    connection, the thread builds it and hands it to the provider's worker. *)
From S2P Require Import Prelude Types Ring.
From stdpp Require Import options.

Inductive ConnKind := KRawLibc | KIoUring | KLibTpa.

#[export] Instance ConnKind_eq_dec : EqDecision ConnKind.
Proof. solve_decision. Defined.

Record ReconnectReq := mkReconnectReq { rq_provider_idx : nat; rq_kind : ConnKind }.

(** [Box<dyn Any + Send>]: a connection of the type [CS], or something else. *)
Inductive ConnBox (CS : Type) :=
| BoxConn (c : CS)
| BoxOther.
Arguments BoxConn {CS}.
Arguments BoxOther {CS}.

(** [resp.conn.downcast::<CS>()]. *)
Definition downcast {CS} (b : ConnBox CS) : option CS :=
  match b with
  | BoxConn c => Some c
  | BoxOther => None
  end.

Record ReconnectResp (CS : Type) := mkReconnectResp { rs_provider_idx : nat; rs_conn : ConnBox CS }.
Arguments mkReconnectResp {CS}.
Arguments rs_provider_idx {CS}.
Arguments rs_conn {CS}.

Inductive ReconnectError :=
| NotSupported
| Build (reason : bytes).

(** [trait ReconnectBuilder]. *)
Class ReconnectBuilder (W CS : Type) :=
  rb_build : nat → ConnKind → M W (result (ConnBox CS) ReconnectError).

Definition REQ_RING : nat := 64.
Definition RESP_RING : nat := 1.

(** [tx.try_send(v)] and [rx.try_recv()] on a crossbeam channel, with the
    result of the first ignored as every caller does. *)
Definition try_send `{BoundedQueue X} {A} (v : A) (x : X A) : X A := (bq_push v x).2.
Definition try_recv `{BoundedQueue X} {A} (x : X A) : option A * X A := bq_pop x.

(** The channels of the thread. *)
Record ReconnectLoop (X : Type → Type) (CS : Type) := mkReconnectLoop {
  rcl_req_rx : X ReconnectReq;
  rcl_resp_txs : list (X (ReconnectResp CS));
}.
Arguments mkReconnectLoop {X CS}.
Arguments rcl_req_rx {X CS}.
Arguments rcl_resp_txs {X CS}.

(** [ReconnectThread::spawn]: the request channel, whose sending end [sender]
    clones for every worker, and what the thread starts with. *)
Definition reconnect_spawn `{BoundedQueue X} {CS} (a : nat) (resp_txs : list (X (ReconnectResp CS))) :
    X ReconnectReq * ReconnectLoop X CS :=
  let req := bq_new a REQ_RING in (req, mkReconnectLoop req resp_txs).

Section reconnect.
Context `{BoundedQueue X} `{ReconnectBuilder W CS}.

(** What a pass does with a request. *)
Definition handle_req (req : ReconnectReq) (resp_txs : list (X (ReconnectResp CS))) :
    M W (list (X (ReconnectResp CS))) :=
  if bool_decide (rq_kind req = KLibTpa) then mret resp_txs
  else
    r ← rb_build (rq_provider_idx req) (rq_kind req);
    match r with
    | Err _ => mret resp_txs
    | Ok c =>
        let i := rq_provider_idx req in
        match resp_txs !! i with
        | Some tx => mret (<[i := try_send (mkReconnectResp i c) tx]> resp_txs)
        | None => mret resp_txs
        end
    end.

(** One pass of [run_reconnect_loop]: whether the loop goes on. [stop] is the
    flag it loads and [disconnected] says that every sender is gone. *)
Definition reconnect_pass (stop disconnected : bool) (l : ReconnectLoop X CS) :
    M W (bool * ReconnectLoop X CS) :=
  if stop then mret (false, l)
  else
    match try_recv (rcl_req_rx l) with
    | (Some req, rx) =>
        txs ← handle_req req (rcl_resp_txs l);
        mret (true, mkReconnectLoop rx txs)
    | (None, rx) =>
        if disconnected then mret (false, mkReconnectLoop rx (rcl_resp_txs l))
        else mret (true, mkReconnectLoop rx (rcl_resp_txs l))
    end.
End reconnect.

(** * What the thread delivers *)

Section delivers.
Context `{XL : QueueLaws X} `{RB : ReconnectBuilder W CS} `{MW : Modality W wp}.
Context (P : CS → Prop).

(** [txs'] are the channels [txs] with connections in [P] added, each to the
    channel of the provider it was built for. *)
Definition extends (txs txs' : list (X (ReconnectResp CS))) : Prop :=
  length txs' = length txs ∧
  ∀ i tx tx', txs !! i = Some tx → txs' !! i = Some tx' →
    ∃ new, contents tx' = contents tx ++ new ∧
      Forall (λ r, rs_provider_idx r = i ∧ ∀ c, downcast (rs_conn r) = Some c → P c) new.

Lemma extends_refl txs : extends txs txs.
Proof.
  split; [done|]. intros i tx tx' Htx Htx'. exists []. rewrite app_nil_r. by simplify_eq.
Qed.

Lemma try_send_contents {A} (v : A) (x : X A) :
  contents (try_send v x) = contents x ∨ contents (try_send v x) = contents x ++ [v].
Proof using XL.
  unfold try_send. destruct (decide (length (contents x) < capacity x)%nat) as [Hr|Hr].
  - right. by destruct (push_room _ v x Hr).
  - left. rewrite push_full by lia. done.
Qed.

Lemma try_send_items {A} (v : A) (x : X A) :
  contents (try_send v x)
  = contents x ++ (if (length (contents x) <? capacity x)%nat then [v] else []).
Proof using XL.
  unfold try_send. destruct (Nat.ltb_spec (length (contents x)) (capacity x)) as [Hr|Hr].
  - by destruct (push_room _ v x Hr).
  - by rewrite push_full, app_nil_r.
Qed.

(** The builder's connections are in [P]. *)
Definition builds : Prop := ∀ i k w, wp _ (rb_build i k) w (λ r _, ∀ c, r = Ok (BoxConn c) → P c).

Lemma handle_req_extends r (txs : list (X (ReconnectResp CS))) w :
  builds → wp _ (handle_req r txs) w (λ txs' _, extends txs txs').
Proof using MW XL.
  intros Hbuild. unfold handle_req. case_match; [apply wp_ret, extends_refl|].
  apply wp_bind. eapply wp_mono; [apply Hbuild|].
  intros [b|e] w' Hb; [|apply wp_ret, extends_refl].
  destruct (txs !! _) as [tx|] eqn:E; apply wp_ret; [|apply extends_refl].
  split; [by rewrite length_insert|]. intros i tx1 tx2 Htx1 Htx2.
  apply list_lookup_insert_Some in Htx2 as [(<-&<-&_)|[Hne Htx2]];
    [|exists []; rewrite app_nil_r; by simplify_eq].
  replace tx1 with tx by congruence.
  destruct (try_send_contents (mkReconnectResp (rq_provider_idx r) b) tx) as [->| ->];
    [exists []|eexists [_]].
  - by rewrite app_nil_r.
  - split; [done|]. constructor; [|done]. split; [done|]. cbn. intros c Hd. destruct b; [|done].
    injection Hd as ->. by apply Hb.
Qed.

Lemma reconnect_pass_extends stop disconnected (l : ReconnectLoop X CS) w :
  builds → wp _ (reconnect_pass stop disconnected l) w (λ '(goes_on, l') _,
    (stop = false → disconnected = false → goes_on = true) ∧
    extends (rcl_resp_txs l) (rcl_resp_txs l')).
Proof using MW XL.
  intros Hb. unfold reconnect_pass. case_match; [by apply wp_ret; auto using extends_refl|].
  destruct (try_recv _) as [[req|] rx].
  - apply wp_bind. eapply wp_mono; [by apply handle_req_extends|]. intros. by apply wp_ret.
  - case_match; apply wp_ret; auto using extends_refl.
Qed.
End delivers.
