(* ===== verification/Parallel.v ===== *)
(** The worker of the parallel transport, transport/parallel.rs: one provider,
    one thread. The profiling feature is off. *)
From S2P Require Import Prelude Types Ring Lane Quic Conn Reconnect.
From stdpp Require Import options.

(** * source.rs and transport/health.rs *)

(** [trait TxSource]: the length it returns and the buffer it leaves. It is the
    caller's code, which may panic and may not return. *)
Class TxSource (W : Type) := fill : ProviderId → Job → bytes → M W (Z * bytes).

Record HistSnapshot := mkHistSnapshot {
  hs_p50 : Z; hs_p99 : Z; hs_p99_9 : Z; hs_max : Z; hs_count : Z;
}.
Definition hist_default : HistSnapshot := mkHistSnapshot 0 0 0 0 0.

(** hdrhistogram, with quantiles in thousandths. *)
Class Histogram (H : Type) := {
  value_at_quantile : H → Z → Z;
  hist_max : H → Z;
  hist_len : H → Z;
}.
Definition hist_snap `{Histogram H} (h : H) : HistSnapshot :=
  mkHistSnapshot (value_at_quantile h 500) (value_at_quantile h 990) (value_at_quantile h 999)
    (hist_max h) (hist_len h).

Record WorkerDiag := mkWorkerDiag {
  wd_alive : bool;
  wd_jobs_sent : Z;
  wd_fill_ns : HistSnapshot;
  wd_submit_ns : HistSnapshot;
}.
Definition diag_default : WorkerDiag := mkWorkerDiag false 0 hist_default hist_default.

(** [idle_wait] on the trigger's counter: it returns after a bounded wait and
    changes nothing of the worker. *)
Class Idle (W : Type) := idle_wait : W → W.

(** * Configuration *)

Record CoreSet := mkCoreSet { core_ids : list Z }.
Record RtConfig := mkRtConfig { rt_prio : option Z }.
Record ParallelConfig := mkParallelConfig { pcfg_affinity : option CoreSet; pcfg_rt : RtConfig }.
Definition parallel_config_default : ParallelConfig := mkParallelConfig None (mkRtConfig None).

Definition PERIODIC_MASK : Z := 0x3FF.

(** * The worker *)

Record ParWorker (Q X : Type → Type) (CS : Type) := mkParWorker {
  pw_provider_idx : nat;
  pw_trigger : Spsc Q Job;
  pw_result_tx : Spsc Q RawResp;
  pw_dual_conn : DualConn CS;
  pw_inflight : option (Job * Z);
  pw_reconnect_req_tx : X ReconnectReq;
  pw_reconnect_resp_rx : X (ReconnectResp CS);
  pw_conn_kind : ConnKind;
  pw_tick : Z;
  pw_diag : WorkerDiag;
  pw_jobs_sent : Z;
}.
Arguments mkParWorker {Q X CS}.
Arguments pw_provider_idx {Q X CS}.
Arguments pw_trigger {Q X CS}.
Arguments pw_result_tx {Q X CS}.
Arguments pw_dual_conn {Q X CS}.
Arguments pw_inflight {Q X CS}.
Arguments pw_reconnect_req_tx {Q X CS}.
Arguments pw_reconnect_resp_rx {Q X CS}.
Arguments pw_conn_kind {Q X CS}.
Arguments pw_tick {Q X CS}.
Arguments pw_diag {Q X CS}.
Arguments pw_jobs_sent {Q X CS}.

Section updates.
Context {Q X : Type → Type} {CS : Type}.
Implicit Type p : ParWorker Q X CS.

Definition with_trigger t p : ParWorker Q X CS :=
  mkParWorker (pw_provider_idx p) t (pw_result_tx p) (pw_dual_conn p) (pw_inflight p)
    (pw_reconnect_req_tx p) (pw_reconnect_resp_rx p) (pw_conn_kind p) (pw_tick p) (pw_diag p)
    (pw_jobs_sent p).
Definition with_result_tx r p : ParWorker Q X CS :=
  mkParWorker (pw_provider_idx p) (pw_trigger p) r (pw_dual_conn p) (pw_inflight p)
    (pw_reconnect_req_tx p) (pw_reconnect_resp_rx p) (pw_conn_kind p) (pw_tick p) (pw_diag p)
    (pw_jobs_sent p).
Definition with_dual_conn d p : ParWorker Q X CS :=
  mkParWorker (pw_provider_idx p) (pw_trigger p) (pw_result_tx p) d (pw_inflight p)
    (pw_reconnect_req_tx p) (pw_reconnect_resp_rx p) (pw_conn_kind p) (pw_tick p) (pw_diag p)
    (pw_jobs_sent p).
Definition with_inflight i p : ParWorker Q X CS :=
  mkParWorker (pw_provider_idx p) (pw_trigger p) (pw_result_tx p) (pw_dual_conn p) i
    (pw_reconnect_req_tx p) (pw_reconnect_resp_rx p) (pw_conn_kind p) (pw_tick p) (pw_diag p)
    (pw_jobs_sent p).
Definition with_req_tx r p : ParWorker Q X CS :=
  mkParWorker (pw_provider_idx p) (pw_trigger p) (pw_result_tx p) (pw_dual_conn p) (pw_inflight p)
    r (pw_reconnect_resp_rx p) (pw_conn_kind p) (pw_tick p) (pw_diag p) (pw_jobs_sent p).
Definition with_resp_rx r p : ParWorker Q X CS :=
  mkParWorker (pw_provider_idx p) (pw_trigger p) (pw_result_tx p) (pw_dual_conn p) (pw_inflight p)
    (pw_reconnect_req_tx p) r (pw_conn_kind p) (pw_tick p) (pw_diag p) (pw_jobs_sent p).
Definition with_tick t p : ParWorker Q X CS :=
  mkParWorker (pw_provider_idx p) (pw_trigger p) (pw_result_tx p) (pw_dual_conn p) (pw_inflight p)
    (pw_reconnect_req_tx p) (pw_reconnect_resp_rx p) (pw_conn_kind p) t (pw_diag p) (pw_jobs_sent p).
Definition with_diag d p : ParWorker Q X CS :=
  mkParWorker (pw_provider_idx p) (pw_trigger p) (pw_result_tx p) (pw_dual_conn p) (pw_inflight p)
    (pw_reconnect_req_tx p) (pw_reconnect_resp_rx p) (pw_conn_kind p) (pw_tick p) d (pw_jobs_sent p).
Definition with_jobs_sent j p : ParWorker Q X CS :=
  mkParWorker (pw_provider_idx p) (pw_trigger p) (pw_result_tx p) (pw_dual_conn p) (pw_inflight p)
    (pw_reconnect_req_tx p) (pw_reconnect_resp_rx p) (pw_conn_kind p) (pw_tick p) (pw_diag p) j.

(** The active connection after a call on it. *)
Definition with_conn c p : ParWorker Q X CS := with_dual_conn (set_active (pw_dual_conn p) c) p.
End updates.

Section worker.
Context `{BuildProfile} `{BoundedQueue Q} `{BoundedQueue X}.
Context `{Conns W HC QC} `{Clock W, TxSource W, Idle W}.
Abbreviation CS := (ConnState HC QC).
Abbreviation worker := (ParWorker Q X CS).
Implicit Type p : worker.

Definition par_new (provider_idx : nat) (trigger : Spsc Q Job) (result_tx : Spsc Q RawResp)
    (dual : DualConn CS) (req_tx : X ReconnectReq) (resp_rx : X (ReconnectResp CS))
    (kind : ConnKind) (diag : WorkerDiag) : worker :=
  mkParWorker provider_idx trigger result_tx dual None req_tx resp_rx kind 0 diag 0.

(** [self.jobs_sent += 1]. *)
Definition count_job (p : worker) : outcome worker :=
  n ← add_mod U64 (pw_jobs_sent p) 1;
  Ret (with_jobs_sent n p).

(** The job just sent is in flight, and counted. *)
Definition mark_sent (job : Job) (sent : Z) (p : worker) : outcome worker :=
  count_job (with_inflight (Some (job, sent)) p).

Definition do_failover (p : worker) : worker :=
  let p := with_inflight None p in
  let p := with_dual_conn (swap (pw_dual_conn p)) p in
  with_req_tx (try_send (mkReconnectReq (pw_provider_idx p) (pw_conn_kind p))
                 (pw_reconnect_req_tx p)) p.

(** The retry of [send_to] on the connection the failover made active. *)
Definition resend (job : Job) (sent : Z) (tx : bytes) (p : worker) : M W worker :=
  match conn (active (pw_dual_conn p)) with
  | CsHttp h2 =>
      '(r, h2) ← h_send_tx h2 tx;
      let p := with_conn (CsHttp h2) p in
      if is_ok r then pure (mark_sent job sent p) else mret p
  | CsQuic _ => mret p
  end.

Definition send_to (p : worker) (job : Job) (sent : Z) (len : Z) (scratch : bytes) : M W worker :=
  tx ← pure (slice_to len scratch);
  match conn (active (pw_dual_conn p)) with
  | CsHttp h =>
      '(r, h) ← h_send_tx h tx;
      let p := with_conn (CsHttp h) p in
      match r with
      | Ok _ => pure (mark_sent job sent p)
      | Err (TIo e) =>
          if http_conn_failed_io e then resend job sent tx (do_failover p) else mret p
      | Err _ => mret p
      end
  | CsQuic q =>
      '(_, q) ← q_send_tx q job sent tx;
      pure (count_job (with_conn (CsQuic q) p))
  end.

(** [ArrayVec::extend], which panics when the capacity is exceeded. *)
Definition array_extend (cap : Z) (v more : bytes) : outcome bytes :=
  if zlen (v ++ more) <=? cap then Ret (v ++ more) else Panic.

(** The response an HTTP body gives, cut to the ring's record. *)
Definition http_resp (job : Job) (pid : ProviderId) (sent settled : Z) (body : bytes) :
    outcome RawResp :=
  let take := Z.min (zlen body) RESP_CAP in
  data ← slice_to take body;
  data ← array_extend RESP_CAP (rr_bytes raw_resp_new) data;
  Ret (mkRawResp (job_id job) pid sent settled data (rr_outcome_hint raw_resp_new)).

(** The response of a QUIC job whose window has passed. *)
Definition quic_resp (jid : Z) (pid : ProviderId) (sent settled : Z) : RawResp :=
  mkRawResp jid pid sent settled [] (Some NoResponse).

Definition push_result (resp : RawResp) (p : worker) : worker :=
  with_result_tx (try_push resp (pw_result_tx p)).2 p.

Definition reap (p : worker) (pid : ProviderId) : M W worker :=
  match conn (active (pw_dual_conn p)) with
  | CsHttp h =>
      '(r, h) ← h_poll_response h;
      let p := with_conn (CsHttp h) p in
      match r with
      | Ok (Some body) =>
          match pw_inflight p with
          | Some (job, sent) =>
              settled ← call rdtsc;
              resp ← pure (http_resp job pid sent settled body);
              mret (push_result resp (with_inflight None p))
          | None => mret p
          end
      | Err (TIo e) => if http_conn_failed_io e then mret (do_failover p) else mret p
      | _ => mret p
      end
  | CsQuic q =>
      if q_is_dead q then mret (do_failover p)
      else
        '(o, q) ← q_poll_noresp_window q;
        let p := with_conn (CsQuic q) p in
        match o with
        | Some (jid, sent) =>
            settled ← call rdtsc;
            mret (push_result (quic_resp jid pid sent settled) p)
        | None => mret p
        end
  end.

Definition check_standby_delivery (p : worker) : worker :=
  match try_recv (pw_reconnect_resp_rx p) with
  | (Some resp, rx) =>
      let p := with_resp_rx rx p in
      match downcast (rs_conn resp) with
      | Some c => with_dual_conn (replace_standby (pw_dual_conn p) c) p
      | None => p
      end
  | (None, rx) => with_resp_rx rx p
  end.

Definition publish_diag (p : worker) : worker :=
  with_diag (mkWorkerDiag true (pw_jobs_sent p) hist_default hist_default) p.

(** ** The phases of a pass of [run] *)

(** A job from the trigger, if there is one: filled and sent. *)
Definition take_job (p : worker) (pid : ProviderId) (scratch : bytes) : M W (worker * bytes) :=
  match try_pop (pw_trigger p) with
  | (None, t) => mret (with_trigger t p, scratch)
  | (Some job, t) =>
      sent ← call rdtsc;
      '(len, scratch) ← fill pid job scratch;
      p ← send_to (with_trigger t p) job sent len scratch;
      mret (p, scratch)
  end.

Definition drive_active (p : worker) : M W worker :=
  c ← drive (conn (active (pw_dual_conn p)));
  mret (with_conn c p).

Definition housekeeping (p : worker) : worker := publish_diag (check_standby_delivery p).

(** [tick.wrapping_add(1)] and the periodic work. *)
Definition tick_phase (p : worker) : worker :=
  let p := with_tick ((pw_tick p + 1) mod U32) p in
  if Z.land (pw_tick p) PERIODIC_MASK =? 0 then housekeeping p else p.

(** The wait when no job is queued. *)
Definition idle_phase (p : worker) : M W worker :=
  if is_empty (pw_trigger p) then
    _ ← call (λ w, ((), idle_wait w));
    mret (housekeeping p)
  else mret p.

(** One pass of [run]'s loop. *)
Definition par_pass (p : worker) (pid : ProviderId) (scratch : bytes) : M W (worker * bytes) :=
  '(p, scratch) ← take_job p pid scratch;
  p ← drive_active p;
  p ← reap p pid;
  p ← idle_phase (tick_phase p);
  mret (p, scratch).

(** [run]: passes until the stop flag is seen. [stops] are the values it
    loads, one before each pass; it ends with the first [true]. *)
Fixpoint par_passes (stops : list bool) (p : worker) (pid : ProviderId) (scratch : bytes) :
    M W worker :=
  match stops with
  | [] => λ _, OutOfFuel
  | true :: _ => mret p
  | false :: stops =>
      '(p, scratch) ← par_pass p pid scratch;
      par_passes stops p pid scratch
  end.

Definition par_run (stops : list bool) (p : worker) : M W worker :=
  par_passes stops p (provider_id (pw_provider_idx p)) (Backend.zeroes (Z.to_nat MAX_TX_LEN)).
End worker.

(** The record holds the first [RESP_CAP] bytes of the body: the cut keeps the
    slice and the vector from panicking. *)
Lemma http_resp_Ret job pid sent settled body :
  http_resp job pid sent settled body
  = Ret (mkRawResp (job_id job) pid sent settled (take (Z.to_nat RESP_CAP) body) None).
Proof.
  unfold http_resp. pose proof (zlen_nonneg body).
  rewrite slice_to_ok by (unfold RESP_CAP; lia). cbn [mbind outcome_bind]. unfold array_extend.
  cbn [raw_resp_new rr_bytes rr_outcome_hint app].
  assert (take (Z.to_nat (Z.min (zlen body) RESP_CAP)) body = take (Z.to_nat RESP_CAP) body) as ->.
  { destruct (Z.min_spec (zlen body) RESP_CAP) as [[Hl ->]|[Hl ->]]; [|done].
    rewrite !take_ge; [done|unfold zlen, RESP_CAP in *; lia..]. }
  destruct (Z.leb_spec (zlen (take (Z.to_nat RESP_CAP) body)) RESP_CAP) as [|Hgt]; [done|].
  unfold zlen in Hgt. rewrite length_take in Hgt. unfold RESP_CAP in Hgt. lia.
Qed.
