(* ===== verification/Demo.v ===== *)
(** A small concrete world for the examples: a clock that ticks at every
    reading, a source that writes three bytes, HTTP connections that follow a
    script, and QUIC connections whose window passes at once. *)
From S2P Require Import Prelude Types Ring Lane Quic Conn Reconnect Parallel.
From stdpp Require Import options.

Record demo_world := mkDemoWorld { dw_time : Z }.

#[export] Instance demo_clock : Clock demo_world := {
  rdtsc w := (dw_time w, mkDemoWorld (dw_time w + 1));
  instant_now w := (dw_time w, mkDemoWorld (dw_time w + 1));
}.
#[export] Instance demo_source : TxSource demo_world := λ _ _ scratch,
  mret (Z.min 3 (zlen scratch), Backend.written (take (length scratch) (str "tx!")) scratch).
#[export] Instance demo_idle : Idle demo_world := λ w, mkDemoWorld (dw_time w + 100000).

(** The answers still to come, and what was sent. *)
Record demo_http := mkDemoHttp {
  dh_sends : list (result unit TransportError);
  dh_polls : list (result (option bytes) TransportError);
  dh_log : list bytes;
}.
Record demo_quic := mkDemoQuic { dq_pending : option (Z * Z); dq_dead : bool }.

#[export] Instance demo_conns : Conns demo_world demo_http demo_quic := {
  h_send_tx h tx :=
    match dh_sends h with
    | Err e :: rs => mret (Err e, mkDemoHttp rs (dh_polls h) (dh_log h))
    | _ => mret (Ok (), mkDemoHttp (tail (dh_sends h)) (dh_polls h) (dh_log h ++ [tx]))
    end;
  h_poll_response h :=
    match dh_polls h with
    | [] => mret (Ok None, h)
    | r :: rs => mret (r, mkDemoHttp (dh_sends h) rs (dh_log h))
    end;
  h_drive h := mret h;
  q_send_tx q job sent _ :=
    mret (if dq_dead q then (Err TClosed, q)
          else (Ok (), mkDemoQuic (Some (job_id job, sent)) false));
  q_poll_noresp_window q := mret (dq_pending q, mkDemoQuic None (dq_dead q));
  q_drive q := mret q;
  q_is_dead q := dq_dead q;
}.

Abbreviation demo_cs := (ConnState demo_http demo_quic).
Abbreviation demo_worker := (ParWorker list_queue list_queue demo_cs).

Definition demo_dual (c1 c2 : demo_cs) : DualConn demo_cs := dual_new c1 c2.
Definition idle_http : demo_http := mkDemoHttp [] [] [].

(** A parallel worker for provider [i] with the given connections. *)
Definition demo_par (i : nat) (jobs : list Job) (c1 c2 : demo_cs) : demo_worker :=
  par_new i (mkSpsc (mkListQueue jobs 256) 0) (channel 1 RESULT_RING) (dual_new c1 c2)
    (bq_new 2 REQ_RING) (bq_new 3 RESP_RING) KRawLibc diag_default.
