(* ===== verification/WorkerInv.v ===== *)
(** What the passes of a parallel worker guarantee: where the outcomes it
    reports come from, how many there are, and that it does not panic. *)
From S2P Require Import Prelude Types Ring Lane Quic Conn Reconnect Parallel Demo.
From stdpp Require Import options.

(** * What the worker relies on *)

(** [pending q] is the job a QUIC connection still has to answer for. A
    successful send makes its job pending, the response window hands it out
    once, nothing else touches it. *)
Class PendingView (QC : Type) := pending : QC → option (Z * Z).
Class PendingLaws (W HC QC : Type) `{Conns W HC QC, PendingView QC} : Prop := {
  q_send_pending : ∀ q job sent tx w, post (q_send_tx q job sent tx) w (λ '(r, q') _,
    pending q' = if is_ok r then Some (job_id job, sent) else pending q);
  q_window_pending : ∀ q w, post (q_poll_noresp_window q) w (λ '(o, q') _,
    match o with
    | Some js => pending q = Some js ∧ pending q' = None
    | None => pending q' = pending q
    end);
  q_drive_pending : ∀ q w, post (q_drive q) w (λ q' _, pending q' = pending q);
}.

(** The crate's QUIC connections: the job in flight. *)
#[export] Instance crate_pending QE : PendingView (QuicConn QE) := qc_inflight.
Lemma crate_pending_laws `{BuildProfile, Backend.ByteIo W B C, Http.Tls T, Backend.Libc W,
    Clock W, Quinn QC E Cfg} base64 fuel :
  @PendingLaws W (HttpConn B C T) (QuicConn (QuicEngine QC E)) (crate_conns base64 fuel) _.
Proof.
  unfold pending, crate_pending. split.
  - intros q job sent tx w. cbn. unfold conn_send_tx. apply post_bind, post_call.
    apply post_bind. unfold post at 1.
    destruct (quic_send_tx _ _ _ _ _) as [[[[] e] w']| |]; done.
  - intros q w. cbn. unfold poll_noresp_window.
    destruct (qc_inflight q) as [[j s]|] eqn:Ei; [|by apply post_ret].
    destruct (qc_sent_at q); [|by apply post_ret].
    apply post_bind, post_call. case_match; by apply post_ret.
  - intros q w. cbn. unfold conn_drive. apply post_bind, post_call.
    apply post_bind. unfold post. by destruct (quic_drive _ _ _ _) as [[]| |].
Qed.

Section inv.
Context `{BuildProfile} `{QL : QueueLaws Q} `{XL : QueueLaws X}.
Context `{Clock W, TxSource W, Idle W} `{PL : PendingLaws W HC QC}.
Abbreviation CS := (ConnState HC QC).
Abbreviation worker := (ParWorker Q X CS).
Implicit Type p : worker.

(** The job a connection owes an outcome for. *)
Definition owed (c : CS) : option (Z * Z) :=
  match c with
  | CsHttp _ => None
  | CsQuic q => pending q
  end.

(** The connections waiting in the reconnect channel. *)
Definition arriving (p : worker) : list CS :=
  omap (λ r, downcast (rs_conn r)) (contents (pw_reconnect_resp_rx p)).

(** ** Provenance *)

Section provenance.
Context (P : Z → Z → Prop) (i : nat).

Definition owes_P (c : CS) : Prop := ∀ j s, owed c = Some (j, s) → P j s.

(** Whatever is queued, in flight or reported satisfies [P], the reports carry
    the worker's provider, and the connections delivered to it are its own. *)
Record worker_inv (p : worker) : Prop := {
  wi_trigger : Forall (λ job, ∀ s, P (job_id job) s) (items (pw_trigger p));
  wi_inflight : ∀ job s, pw_inflight p = Some (job, s) → P (job_id job) s;
  wi_active : owes_P (conn (active (pw_dual_conn p)));
  wi_standby : owes_P (conn (standby (pw_dual_conn p)));
  wi_arriving : Forall owes_P (arriving p);
  wi_results : Forall (λ r, rr_provider r = provider_id i ∧ P (rr_job r) (rr_sent_tsc r))
                 (items (pw_result_tx p));
  wi_routed : Forall (λ r, rs_provider_idx r = i) (contents (pw_reconnect_resp_rx p));
}.

Lemma inv_conn c p : owes_P c → worker_inv p → worker_inv (with_conn c p).
Proof. intros Hc []. by split. Qed.

Lemma inv_http h p : worker_inv p → worker_inv (with_conn (CsHttp h) p).
Proof. by apply inv_conn. Qed.

Lemma inv_mark_sent job s p p' :
  P (job_id job) s → worker_inv p → mark_sent job s p = Ret p' → worker_inv p'.
Proof.
  intros HP [] Hm. apply bind_Ret in Hm as (n&_&[= <-]). split; cbn; try done.
  by intros ? ? [= <- <-].
Qed.

Lemma inv_count p p' : worker_inv p → count_job p = Ret p' → worker_inv p'.
Proof. intros [] Hm. apply bind_Ret in Hm as (n&_&[= <-]). by split. Qed.

Lemma inv_failover p : worker_inv p → worker_inv (do_failover p).
Proof. intros []. by split. Qed.

Lemma inv_push r p :
  rr_provider r = provider_id i → P (rr_job r) (rr_sent_tsc r) → worker_inv p → worker_inv (push_result r p).
Proof using QL.
  intros Hr HP []. split; try done. cbn. rewrite try_push_items.
  apply Forall_app_2; [done|]. case_match; by repeat constructor.
Qed.

Lemma inv_check_standby p : worker_inv p → worker_inv (check_standby_delivery p).
Proof using XL.
  intros []. unfold check_standby_delivery, try_recv.
  unfold arriving in *. destruct (contents (pw_reconnect_resp_rx p)) as [|r rs] eqn:E.
  - rewrite pop_none by done. split; try done; unfold arriving; cbn; by rewrite E.
  - destruct (pop_some _ r rs _ E) as [Hp Hc]. destruct (bq_pop _) as [o x]. cbn in *. subst o.
    apply Forall_cons in wi_routed0 as [_ Hrt].
    destruct (downcast (rs_conn r)) as [c|] eqn:Ed; [apply Forall_cons in wi_arriving0 as [Hoc Hrs]|];
      (split; try done); unfold arriving; cbn; by rewrite Hc.
Qed.

Lemma inv_publish p : worker_inv p → worker_inv (publish_diag p).
Proof. intros []. by split. Qed.

Lemma inv_housekeeping p : worker_inv p → worker_inv (housekeeping p).
Proof using XL. intros Hp. by apply inv_publish, inv_check_standby. Qed.

Lemma inv_tick p : worker_inv p → worker_inv (tick_phase p).
Proof using XL.
  intros Hp. assert (worker_inv (with_tick ((pw_tick p + 1) mod U32) p)) by (destruct Hp; by split).
  unfold tick_phase. case_match; [by apply inv_housekeeping|done].
Qed.

Lemma inv_resend job s tx p w :
  P (job_id job) s → worker_inv p → post (resend job s tx p) w (λ p' _, worker_inv p').
Proof.
  intros HP Hp. unfold resend. destruct (conn (active (pw_dual_conn p))) as [h|q]; [|done].
  apply post_bind. unfold post at 1. destruct (h_send_tx h tx w) as [[[r h'] w']| |]; [|done..].
  pose proof (inv_http h' p Hp) as Hh. case_match; [|done].
  apply post_pure. intros p' Hp'. by eapply inv_mark_sent.
Qed.

Lemma inv_send_to p job s len scratch w :
  P (job_id job) s → worker_inv p → post (send_to p job s len scratch) w (λ p' _, worker_inv p').
Proof using PL.
  intros HP Hp. unfold send_to. apply post_bind, post_pure. intros tx _.
  destruct (conn (active (pw_dual_conn p))) as [h|q] eqn:Ea.
  - apply post_bind. unfold post at 1. destruct (h_send_tx h tx w) as [[[r h'] w']| |]; [|done..].
    pose proof (inv_http h' p Hp) as Hh. destruct r as [u|[]]; try done.
    + apply post_pure. intros p' Hp'. by eapply inv_mark_sent.
    + case_match; [|done]. apply inv_resend; [done|]. by apply inv_failover.
  - apply post_bind. eapply post_mono; [apply q_send_pending|]. intros [r q'] w' Hq.
    apply post_pure. intros p' Hp'. eapply inv_count; [|exact Hp']. apply inv_conn; [|done].
    intros j s'. cbn. rewrite Hq. destruct Hp as [_ _ Hact _ _ _ _]. rewrite Ea in Hact.
    destruct (is_ok r); [by intros [= <- <-]|apply Hact].
Qed.

Lemma inv_reap p w : worker_inv p → post (reap p (provider_id i)) w (λ p' _, worker_inv p').
Proof using PL QL.
  intros Hp. unfold reap. destruct (conn (active (pw_dual_conn p))) as [h|q] eqn:Ea.
  - apply post_bind. unfold post at 1. destruct (h_poll_response h w) as [[[r h'] w']| |]; [|done..].
    pose proof (inv_http h' p Hp) as Hh. destruct r as [[body|]|[]]; try done.
    + destruct (pw_inflight (with_conn _ p)) as [[job s]|] eqn:Ei; [|done].
      apply post_bind, post_call, post_bind, post_pure. intros resp Hresp.
      rewrite http_resp_Ret in Hresp. injection Hresp as <-. apply post_ret. apply inv_push; [done|by eapply wi_inflight|].
      destruct Hh. by split.
    + case_match; [by apply inv_failover|done].
  - case_match; [by apply inv_failover|]. apply post_bind.
    eapply post_mono; [apply q_window_pending|]. intros [o q'] w' Hq.
    pose proof (wi_active p Hp) as Hact. rewrite Ea in Hact. destruct o as [[j s]|].
    + destruct Hq as [Hq Hq']. apply post_bind, post_call, post_ret.
      apply inv_push; [done|by apply Hact|]. apply inv_conn; [|done]. intros ? ?. cbn. by rewrite Hq'.
    + apply post_ret, inv_conn; [|done]. intros ? ?. cbn. rewrite Hq. apply Hact.
Qed.

Lemma inv_drive p w : worker_inv p → post (drive_active p) w (λ p' _, worker_inv p').
Proof using PL.
  intros Hp. unfold drive_active, drive. pose proof (wi_active p Hp) as Hact. apply post_bind.
  destruct (conn (active (pw_dual_conn p))) as [h|q]; apply post_bind.
  - unfold post. destruct (h_drive h w) as [[]| |]; [|done..]. by apply inv_http.
  - eapply post_mono; [apply q_drive_pending|]. intros q' w' Hq. apply post_ret, post_ret.
    apply inv_conn; [|done]. intros ? ?. cbn. rewrite Hq. apply Hact.
Qed.

Lemma inv_take_job p scratch w :
  worker_inv p → post (take_job p (provider_id i) scratch) w (λ '(p', _) _, worker_inv p').
Proof using PL QL.
  intros Hp. unfold take_job. pose proof (wi_trigger p Hp) as Ht.
  destruct (items (pw_trigger p)) as [|job js] eqn:E.
  - rewrite try_pop_nil by done. apply post_ret. by destruct Hp; split.
  - destruct (try_pop_cons _ _ _ E) as (Hpop&Hit&_). destruct (try_pop _) as [o t].
    cbn in Hpop, Hit. subst o. apply Forall_cons in Ht as [HP Hjs].
    apply post_bind, post_call, post_bind, post_any. intros [len scratch'] w'. apply post_bind.
    eapply post_mono; [apply inv_send_to; [apply HP|]|intros p' ? Hp'; by apply post_ret].
    destruct Hp. split; try done. cbn. by rewrite Hit.
Qed.

Lemma inv_pass p scratch w :
  worker_inv p → post (par_pass p (provider_id i) scratch) w (λ '(p', _) _, worker_inv p').
Proof using PL QL XL.
  intros Hp. unfold par_pass. apply post_bind. eapply post_mono; [by apply inv_take_job|].
  intros [p1 s1] w1 Hp1. apply post_bind. eapply post_mono; [by apply inv_drive|].
  intros p2 w2 Hp2. apply post_bind. eapply post_mono; [by apply inv_reap|].
  intros p3 w3 Hp3. apply inv_tick in Hp3. apply post_bind. unfold idle_phase.
  case_match; [apply post_bind, post_call|]; apply post_ret, post_ret; [|done].
  by apply inv_housekeeping.
Qed.
End provenance.

(** ** Credit *)

Definition one {A} (o : option A) : Z := match o with Some _ => 1 | None => 0 end.

(** The outcomes the worker can still produce: those in its ring, and those
    its HTTP job and its QUIC connections owe. *)
Definition outstanding (p : worker) : Z :=
  zlen (items (pw_result_tx p)) + one (pw_inflight p)
  + one (owed (conn (active (pw_dual_conn p)))) + one (owed (conn (standby (pw_dual_conn p)))).

(** A fresh connection owes nothing. *)
Definition fresh (p : worker) : Prop := Forall (λ c, owed c = None) (arriving p).

(** From [p] to [p'] the worker sent [k] jobs, and its outstanding outcomes
    grew by no more than that. *)
Definition covered (k : Z) (p p' : worker) : Prop :=
  (fresh p → fresh p' ∧ outstanding p' ≤ outstanding p + k) ∧
  pw_jobs_sent p' = pw_jobs_sent p + k ∧
  pw_trigger p' = pw_trigger p ∧ pw_provider_idx p' = pw_provider_idx p.

Lemma one_bound {A} (o : option A) : 0 ≤ one o ≤ 1.
Proof. destruct o; cbn; lia. Qed.

Lemma covered_intro k p p' :
  pw_jobs_sent p' = pw_jobs_sent p + k → pw_trigger p' = pw_trigger p →
  pw_provider_idx p' = pw_provider_idx p →
  (fresh p → fresh p' ∧ outstanding p' ≤ outstanding p + k) → covered k p p'.
Proof. by split. Qed.

Lemma covered_trans k1 k2 p1 p2 p3 :
  covered k1 p1 p2 → covered k2 p2 p3 → covered (k1 + k2) p1 p3.
Proof.
  intros (Ha&Hb&Hc&Hd) (He&Hf&Hg&Hh). split; [|repeat split; [lia|congruence..]].
  intros Hfr. destruct (Ha Hfr) as [Hfr' ?]. destruct (He Hfr') as [? ?]. split; [done|lia].
Qed.

Lemma covered0_trans k p1 p2 p3 : covered 0 p1 p2 → covered k p2 p3 → covered k p1 p3.
Proof. intros Ha Hb. by apply (covered_trans 0 k _ p2). Qed.
Lemma covered_trans0 k p1 p2 p3 : covered k p1 p2 → covered 0 p2 p3 → covered k p1 p3.
Proof. intros Ha Hb. rewrite <- (Z.add_0_r k). by apply (covered_trans k 0 _ p2). Qed.

Lemma covered_conn c p :
  one (owed c) ≤ one (owed (conn (active (pw_dual_conn p)))) → covered 0 p (with_conn c p).
Proof. intros Hc. apply covered_intro; [cbn; lia|done..|]. split; [done|]. unfold outstanding. cbn. lia. Qed.

Lemma covered_http h h' p :
  conn (active (pw_dual_conn p)) = CsHttp h → covered 0 p (with_conn (CsHttp h') p).
Proof. intros Hh. apply covered_conn. by rewrite Hh. Qed.

Lemma count_job_Ret p p' :
  0 ≤ pw_jobs_sent p < U64 - 1 → count_job p = Ret p' → p' = with_jobs_sent (pw_jobs_sent p + 1) p.
Proof. intros Hj. unfold count_job. rewrite add_mod_ok by lia. by intros [= <-]. Qed.

Lemma covered_mark_sent job s p p' :
  0 ≤ pw_jobs_sent p < U64 - 1 → mark_sent job s p = Ret p' → covered 1 p p'.
Proof.
  intros Hj Hm. apply count_job_Ret in Hm as ->; [|done]. apply covered_intro; [done..|]. split; [done|].
  unfold outstanding. cbn. pose proof (one_bound (pw_inflight p)). lia.
Qed.

Lemma covered_failover p : covered 0 p (do_failover p).
Proof.
  apply covered_intro; [cbn; lia|done..|]. split; [done|]. unfold outstanding. cbn.
  pose proof (one_bound (pw_inflight p)). lia.
Qed.

Lemma zlen_push r (ring : Spsc Q RawResp) : zlen (items (try_push r ring).2) ≤ zlen (items ring) + 1.
Proof using QL. rewrite try_push_items. case_match; len. Qed.

Lemma covered_check_standby p : covered 0 p (check_standby_delivery p).
Proof using XL.
  unfold check_standby_delivery, try_recv.
  assert (∀ x d, contents x = tail (contents (pw_reconnect_resp_rx p)) →
    (fresh p → one (owed (conn (standby d))) ≤ one (owed (conn (standby (pw_dual_conn p))))) →
    active d = active (pw_dual_conn p) →
    covered 0 p (with_dual_conn d (with_resp_rx x p))) as Hgen.
  { intros x d Hx Hd Ha. apply covered_intro; [cbn; lia|done..|]. intros Hf. split.
    - unfold fresh, arriving in *. cbn. rewrite Hx.
      destruct (contents (pw_reconnect_resp_rx p)) as [|r rs]; [done|]. cbn in Hf |- *.
      destruct (downcast (rs_conn r)); [by apply Forall_cons in Hf as [_ ?]|done].
    - unfold outstanding. cbn. rewrite Ha. specialize (Hd Hf). lia. }
  destruct (contents (pw_reconnect_resp_rx p)) as [|r rs] eqn:E.
  - rewrite pop_none by done. by apply (Hgen _ (pw_dual_conn p)).
  - destruct (pop_some _ r rs _ E) as [Hp Hc]. destruct (bq_pop _) as [o x]. cbn in Hp, Hc. subst o.
    destruct (downcast (rs_conn r)) as [c|] eqn:Ed.
    + apply (Hgen x (replace_standby (pw_dual_conn p) c)); [done| |done].
      unfold fresh, arriving. rewrite E. cbn. rewrite Ed. intros [-> _]%Forall_cons.
      cbn. apply one_bound.
    + by apply (Hgen x (pw_dual_conn p)).
Qed.

Lemma covered_publish p : covered 0 p (publish_diag p).
Proof. apply covered_intro; [cbn; lia|done..|]. split; [done|]. unfold outstanding. cbn. lia. Qed.

Lemma covered_housekeeping p : covered 0 p (housekeeping p).
Proof using XL. eapply covered0_trans; [apply covered_check_standby|apply covered_publish]. Qed.

Lemma covered_tick p : covered 0 p (tick_phase p).
Proof using XL.
  unfold tick_phase. assert (covered 0 p (with_tick ((pw_tick p + 1) mod U32) p)).
  { apply covered_intro; [cbn; lia|done..|]. split; [done|]. unfold outstanding. cbn. lia. }
  case_match; [|done]. eapply covered0_trans; [done|]. apply covered_housekeeping.
Qed.

(** A pass sends at most one job; [sent_some] is what is left of a send. *)
Definition sent_some (p p' : worker) : Prop := ∃ k, 0 ≤ k ≤ 1 ∧ covered k p p'.

Lemma sent_some0 p p' : covered 0 p p' → sent_some p p'.
Proof. intros Hc. by exists 0. Qed.
Lemma sent_some_trans p1 p2 p3 : covered 0 p1 p2 → sent_some p2 p3 → sent_some p1 p3.
Proof. intros Ha (k&Hk&Hb). exists k. split; [done|]. by eapply covered0_trans. Qed.


Lemma covered_refl p : covered 0 p p.
Proof. apply covered_intro; [lia|done..|]. intros Hf. split; [done|lia]. Qed.

Lemma covered_resend job s tx p w :
  0 ≤ pw_jobs_sent p < U64 - 1 → post (resend job s tx p) w (λ p' _, sent_some p p').
Proof.
  intros Hj. unfold resend.
  destruct (conn (active (pw_dual_conn p))) as [h|q] eqn:Ea; [|apply sent_some0, covered_refl].
  apply post_bind. unfold post at 1. destruct (h_send_tx h tx w) as [[[r h'] w']| |]; [|done..].
  pose proof (covered_http h h' p Ea) as Hh. case_match; [|by apply sent_some0].
  apply post_pure. intros p' Hp'. exists 1. split; [lia|].
  eapply covered0_trans; [exact Hh|]. by eapply covered_mark_sent.
Qed.

Lemma covered_send_to p job s len scratch w :
  0 ≤ pw_jobs_sent p < U64 - 1 →
  post (send_to p job s len scratch) w (λ p' _, sent_some p p').
Proof using PL.
  intros Hj. unfold send_to. apply post_bind, post_pure. intros tx _.
  destruct (conn (active (pw_dual_conn p))) as [h|q] eqn:Ea.
  - apply post_bind. unfold post at 1. destruct (h_send_tx h tx w) as [[[r h'] w']| |]; [|done..].
    pose proof (covered_http h h' p Ea) as Hh. destruct r as [u|[]]; try by apply sent_some0.
    + apply post_pure. intros p' Hp'. exists 1. split; [lia|].
      eapply covered0_trans; [exact Hh|]. by eapply covered_mark_sent.
    + case_match; [|by apply sent_some0]. eapply post_mono; [by apply covered_resend|].
      intros p' ? Hp'. eapply sent_some_trans; [|exact Hp'].
      eapply covered0_trans; [exact Hh|]. apply covered_failover.
  - apply post_bind. unfold post at 1. destruct (q_send_tx q job s tx w) as [[[r q'] w']| |]; [|done..].
    apply post_pure. intros p' Hp'. apply count_job_Ret in Hp'; [|done]. subst p'.
    exists 1. split; [lia|]. apply covered_intro; [done..|]. split; [done|]. unfold outstanding. cbn.
    pose proof (one_bound (pending q')). pose proof (one_bound (owed (conn (active (pw_dual_conn p))))).
    lia.
Qed.

Lemma covered_reap p pid w : post (reap p pid) w (λ p' _, covered 0 p p').
Proof using PL QL.
  unfold reap. destruct (conn (active (pw_dual_conn p))) as [h|q] eqn:Ea.
  - apply post_bind. unfold post at 1. destruct (h_poll_response h w) as [[[r h'] w']| |]; [|done..].
    pose proof (covered_http h h' p Ea) as Hh. destruct r as [[body|]|[]]; try done.
    + destruct (pw_inflight (with_conn _ p)) as [[job s]|] eqn:Ei; [|done].
      apply post_bind, post_call, post_bind, post_pure. intros resp Hresp.
      rewrite http_resp_Ret in Hresp. injection Hresp as <-. apply post_ret. eapply covered0_trans; [exact Hh|].
      apply covered_intro; [cbn; lia|done..|]. split; [done|]. unfold outstanding. rewrite Ei. cbn.
      match goal with |- context [try_push ?x ?ring] => pose proof (zlen_push x ring) end. lia.
    + case_match; [|done]. eapply covered0_trans; [exact Hh|]. apply covered_failover.
  - case_match; [apply covered_failover|]. apply post_bind.
    eapply post_mono; [apply q_window_pending|]. intros [o q'] w' Hq. destruct o as [[j s]|].
    + destruct Hq as [Hq Hq']. apply post_bind, post_call, post_ret.
      apply covered_intro; [cbn; lia|done..|]. split; [done|]. unfold outstanding. rewrite Ea. cbn. rewrite Hq, Hq'. cbn.
      pose proof (zlen_push (quic_resp j pid s (rdtsc w').1) (pw_result_tx p)). lia.
    + apply post_ret, covered_conn. rewrite Ea. cbn. by rewrite Hq.
Qed.

Lemma covered_drive p w : post (drive_active p) w (λ p' _, covered 0 p p').
Proof using PL.
  unfold drive_active, drive. apply post_bind.
  destruct (conn (active (pw_dual_conn p))) as [h|q] eqn:Ea; apply post_bind.
  - unfold post. destruct (h_drive h w) as [[]| |]; [|done..]. by eapply covered_http.
  - eapply post_mono; [apply q_drive_pending|]. intros q' w' Hq. apply post_ret, post_ret.
    apply covered_conn. rewrite Ea. cbn. by rewrite Hq.
Qed.

(** What a pass does to the counters: the outcomes it adds are covered by the
    jobs it sends, and those by the jobs it takes from the trigger. *)
Record pass_credit (p p' : worker) : Prop := {
  pcr_outcomes : fresh p →
    fresh p' ∧ outstanding p' - pw_jobs_sent p' ≤ outstanding p - pw_jobs_sent p;
  pcr_mono : pw_jobs_sent p ≤ pw_jobs_sent p';
  pcr_trigger : pw_jobs_sent p' + zlen (items (pw_trigger p'))
                ≤ pw_jobs_sent p + zlen (items (pw_trigger p));
  pcr_idx : pw_provider_idx p' = pw_provider_idx p;
}.

Lemma pass_credit_covered p p' p'' : pass_credit p p' → covered 0 p' p'' → pass_credit p p''.
Proof.
  intros [Ha Hb Hc Hd] (He&Hf&Hg&Hh). split; [|lia|rewrite Hg; lia|congruence].
  intros Hfr. destruct (Ha Hfr) as [Hfr' ?]. destruct (He Hfr'). split; [done|lia].
Qed.

Lemma credit_take_job p pid scratch w :
  0 ≤ pw_jobs_sent p < U64 - 1 →
  post (take_job p pid scratch) w (λ '(p', _) _, pass_credit p p').
Proof using PL QL.
  intros Hj. unfold take_job. destruct (try_pop_items (pw_trigger p)) as [Hpop Hit].
  destruct (try_pop (pw_trigger p)) as [o t]. cbn [snd] in Hpop, Hit. injection Hpop as ->.
  assert (∀ k p', 0 ≤ k → covered k (with_trigger t p) p' →
    k + zlen (items t) ≤ zlen (items (pw_trigger p)) → pass_credit p p') as Hgen.
  { intros k p' Hk (He&Hf&Hg&Hh) Hle. cbn in Hf, Hg, Hh. split; [|lia|rewrite Hg; lia|done].
    intros Hfr. destruct (He Hfr) as [? Ho]. split; [done|].
    unfold outstanding at 2 in Ho. cbn in Ho. unfold outstanding at 2. lia. }
  destruct (items (pw_trigger p)) as [|job js]; cbn [head tail] in *.
  - apply post_ret, (Hgen 0); [done|apply covered_refl|by rewrite Hit].
  - apply post_bind, post_call, post_bind, post_any. intros [len scratch'] w'. apply post_bind.
    eapply post_mono; [by apply (covered_send_to (with_trigger t p))|].
    intros p' ? (k&Hk&Hp'). apply post_ret, (Hgen k); [lia|done|]. rewrite Hit. len.
Qed.

Lemma credit_pass p pid scratch w :
  0 ≤ pw_jobs_sent p < U64 - 1 →
  post (par_pass p pid scratch) w (λ '(p', _) _, pass_credit p p').
Proof using PL QL XL.
  intros Hj. unfold par_pass. apply post_bind. eapply post_mono; [by apply credit_take_job|].
  intros [p1 s1] w1 Hp1. apply post_bind. eapply post_mono; [apply covered_drive|].
  intros p2 w2 Hp2. apply post_bind. eapply post_mono; [apply covered_reap|].
  intros p3 w3 Hp3.
  assert (pass_credit p (tick_phase p3)) as Hp4.
  { eapply pass_credit_covered; [exact Hp1|]. eapply covered0_trans; [exact Hp2|].
    eapply covered0_trans; [exact Hp3|apply covered_tick]. }
  apply post_bind. unfold idle_phase.
  case_match; [apply post_bind, post_call|]; apply post_ret, post_ret; [|done].
  eapply pass_credit_covered; [exact Hp4|]. apply covered_housekeeping.
Qed.
End inv.

(** * Passes that go through *)

(** Connections that do not panic ([wp] is [safe]) or that always return ([wp]
    is [ends]), as long as [hok] and [qok] hold of them. *)
Class ConnOk (W HC QC : Type) `{Conns W HC QC} (wp : ∀ A, M W A → W → (A → W → Prop) → Prop)
    (hok : HC → Prop) (qok : QC → Prop) : Prop := {
  h_send_safe : ∀ h tx w, hok h → wp _ (h_send_tx h tx) w (λ '(_, h') _, hok h');
  h_poll_safe : ∀ h w, hok h → wp _ (h_poll_response h) w (λ '(_, h') _, hok h');
  h_drive_safe : ∀ h w, hok h → wp _ (h_drive h) w (λ h' _, hok h');
  q_send_safe : ∀ q job sent tx w, qok q →
    wp _ (q_send_tx q job sent tx) w (λ '(_, q') _, qok q');
  q_window_safe : ∀ q w, qok q → wp _ (q_poll_noresp_window q) w (λ '(_, q') _, qok q');
  q_drive_safe : ∀ q w, qok q → wp _ (q_drive q) w (λ q' _, qok q');
}.

#[export] Instance conn_ok_halts `{CL : ConnOk W HC QC (@ends W) hok qok} :
  ConnOk W HC QC (@halts W) hok qok.
Proof. split; intros; apply ends_halts; by apply CL. Qed.

(** A source that does not panic, comes back or returns ([wp] is [safe], [halts]
    or [ends]) and keeps to the buffer it is given. *)
Class FillLaws (W : Type) `{TxSource W} (wp : ∀ A, M W A → W → (A → W → Prop) → Prop) : Prop :=
  fill_bounds : ∀ pid job scratch w, wp _ (fill pid job scratch) w (λ '(len, scratch') _,
    0 ≤ len ≤ zlen scratch ∧ length scratch' = length scratch).
#[export] Instance fill_halts `{FL : FillLaws W (@ends W)} : FillLaws W (@halts W).
Proof. intros pid job scratch w. apply ends_halts, FL. Qed.

(** A record that its [ArrayVec] can hold. *)
Definition resp_fits (r : RawResp) : Prop := zlen (rr_bytes r) ≤ RESP_CAP.

Lemma cut_fits j pid s t body hint :
  resp_fits (mkRawResp j pid s t (take (Z.to_nat RESP_CAP) body) hint).
Proof. unfold resp_fits, zlen. cbn [rr_bytes]. rewrite length_take. unfold RESP_CAP. lia. Qed.

Section through.
Context `{BuildProfile} `{QL : QueueLaws Q} `{XL : QueueLaws X}.
Context `{Clock W, Idle W} `{FL : FillLaws W wp} `{CN : Conns W HC QC} `{CL : !ConnOk W HC QC wp hok qok}.
Context {MW : Modality W wp}.
Abbreviation CS := (ConnState HC QC).
Abbreviation worker := (ParWorker Q X CS).
Implicit Type p : worker.

Definition cs_ok (c : CS) : Prop :=
  match c with
  | CsHttp h => hok h
  | CsQuic q => qok q
  end.

Record worker_ok (p : worker) : Prop := {
  wo_active : cs_ok (conn (active (pw_dual_conn p)));
  wo_standby : cs_ok (conn (standby (pw_dual_conn p)));
  wo_arriving : Forall cs_ok (arriving p);
}.

(** What a part of a pass leaves alone: the trigger ring; it only adds to the
    result ring, counts at most [k] jobs, and adds nothing to the channel of
    fresh connections; what it adds to the result ring fits. *)
Record framed (k : Z) (p p' : worker) : Prop := {
  fr_trigger : pw_trigger p' = pw_trigger p;
  fr_results : items (pw_result_tx p) `prefix_of` items (pw_result_tx p');
  fr_jobs : pw_jobs_sent p ≤ pw_jobs_sent p' ≤ pw_jobs_sent p + k;
  fr_resp : ∀ P, Forall P (contents (pw_reconnect_resp_rx p)) →
    Forall P (contents (pw_reconnect_resp_rx p'));
  fr_fits : Forall resp_fits (items (pw_result_tx p)) → Forall resp_fits (items (pw_result_tx p'));
}.

(** A worker that is in order, and how it came out of [p]. *)
Definition kept (k : Z) (p p' : worker) : Prop := worker_ok p' ∧ framed k p p'.

Lemma kept_intro k p p' :
  worker_ok p' → 0 ≤ k → pw_trigger p' = pw_trigger p → pw_result_tx p' = pw_result_tx p →
  pw_jobs_sent p' = pw_jobs_sent p →
  contents (pw_reconnect_resp_rx p') `suffix_of` contents (pw_reconnect_resp_rx p) → kept k p p'.
Proof.
  intros Hp Hk Ht Hr Hj [l Hs]. split; [done|]. split; [done|by rewrite Hr|lia| |by rewrite Hr].
  intros P. rewrite Hs. by intros [_ ?]%Forall_app.
Qed.

Lemma kept_trans k1 k2 k p1 p2 p3 :
  k = k1 + k2 → kept k1 p1 p2 → kept k2 p2 p3 → kept k p1 p3.
Proof.
  intros -> [_ [Ht1 Hr1 Hj1 Hx1 Hf1]] [Hok [Ht2 Hr2 Hj2 Hx2 Hf2]]. split; [done|].
  split; [congruence|by etrans|lia|auto|auto].
Qed.

Lemma ok_conn k c p : 0 ≤ k → cs_ok c → worker_ok p → kept k p (with_conn c p).
Proof. intros Hk Hc []. by apply kept_intro. Qed.

Lemma ok_failover k p : 0 ≤ k → worker_ok p → kept k p (do_failover p).
Proof. intros Hk []. by apply kept_intro. Qed.

Lemma ok_push r i p :
  resp_fits r → worker_ok p → kept 0 p (push_result r (with_inflight i p)).
Proof using QL.
  intros Hfit []. split; [by split|].
  split; [done| |cbn; lia|done|]; cbn; rewrite try_push_items; [by apply prefix_app_r|].
  intros Hf. apply Forall_app_2; [done|]. case_match; by repeat constructor.
Qed.

Lemma ok_check_standby p : worker_ok p → kept 0 p (check_standby_delivery p).
Proof using XL.
  intros []. unfold check_standby_delivery, try_recv, arriving in *.
  destruct (contents (pw_reconnect_resp_rx p)) as [|r rs] eqn:E.
  - rewrite pop_none by done. apply kept_intro; try done. split; try done. unfold arriving. cbn.
    by rewrite E.
  - destruct (pop_some _ r rs _ E) as [Hp Hc]. destruct (bq_pop _) as [o x]. cbn in *. subst o.
    destruct (downcast (rs_conn r)); [apply Forall_cons in wo_arriving0 as [? ?]|];
      (apply kept_intro; try done; [|cbn; rewrite Hc, E; by apply suffix_cons_r]);
      (split; try done); unfold arriving; cbn; by rewrite Hc.
Qed.

Lemma ok_publish p : worker_ok p → kept 0 p (publish_diag p).
Proof. intros []. by apply kept_intro. Qed.

Lemma ok_housekeeping p : worker_ok p → kept 0 p (housekeeping p).
Proof using XL.
  intros Hp. pose proof (ok_check_standby p Hp) as Hc.
  eapply (kept_trans 0 0); [done|exact Hc|]. apply ok_publish, Hc.
Qed.

Lemma ok_count p w (Q' : worker → W → Prop) :
  0 ≤ pw_jobs_sent p < U64 - 1 → Q' (with_jobs_sent (pw_jobs_sent p + 1) p) w →
  wp _ (pure (count_job p)) w Q'.
Proof using MW.
  intros Hj. apply wp_pure. unfold count_job. by rewrite add_mod_ok by lia.
Qed.

Lemma ok_sent job s c p w :
  0 ≤ pw_jobs_sent p < U64 - 1 → cs_ok c → worker_ok p →
  wp _ (pure (mark_sent job s (with_conn c p))) w (λ p' _, kept 1 p p').
Proof using MW.
  intros Hj Hc []. apply ok_count; [done|]. split; [by split|]. split; cbn; [done|done|lia|done|done].
Qed.

Lemma ok_resend job s tx p w :
  0 ≤ pw_jobs_sent p < U64 - 1 → worker_ok p →
  wp _ (resend job s tx p) w (λ p' _, kept 1 p p').
Proof using CL MW.
  intros Hj Hp. unfold resend. pose proof (wo_active p Hp) as Ha.
  destruct (conn (active (pw_dual_conn p))) as [h|q]; [|by apply wp_ret, kept_intro].
  apply wp_bind. eapply wp_mono; [by apply h_send_safe|]. intros [r h'] w' Hh.
  case_match; [|by apply wp_ret, ok_conn]. by apply ok_sent.
Qed.

Lemma ok_send_to p job s len scratch w :
  0 ≤ pw_jobs_sent p < U64 - 1 → 0 ≤ len ≤ zlen scratch → worker_ok p →
  wp _ (send_to p job s len scratch) w (λ p' _, kept 1 p p').
Proof using CL MW.
  intros Hj Hlen Hp. unfold send_to. apply wp_bind.
  eapply wp_pure; [by apply slice_to_ok|]. pose proof (wo_active p Hp) as Ha.
  destruct (conn (active (pw_dual_conn p))) as [h|q]; apply wp_bind.
  - eapply wp_mono; [by apply h_send_safe|]. intros [r h'] w' Hh.
    pose proof (ok_conn 0 (CsHttp h') p ltac:(done) Hh Hp) as Hp'.
    destruct r as [u|[]]; [by apply ok_sent|..]; try (by apply wp_ret, ok_conn).
    case_match; [|by apply wp_ret, ok_conn].
    pose proof (ok_failover 0 _ ltac:(done) (proj1 Hp')) as Hf.
    eapply wp_mono; [by apply ok_resend; [|apply Hf]|]. intros p' ? Hp''.
    eapply (kept_trans 0 1); [done|exact Hp'|]. by eapply (kept_trans 0 1).
  - eapply wp_mono; [by apply q_send_safe|]. intros [r q'] w' Hq.
    apply ok_count; [done|]. destruct Hp. split; [by split|]. split; cbn; [done|done|lia|done|done].
Qed.

Lemma ok_reap p pid w : worker_ok p → wp _ (reap p pid) w (λ p' _, kept 0 p p').
Proof using CL MW QL.
  intros Hp. unfold reap. pose proof (wo_active p Hp) as Ha.
  destruct (conn (active (pw_dual_conn p))) as [h|q].
  - apply wp_bind. eapply wp_mono; [by apply h_poll_safe|]. intros [r h'] w' Hh.
    pose proof (ok_conn 0 (CsHttp h') p ltac:(done) Hh Hp) as Hp'.
    destruct r as [[body|]|[]]; try by apply wp_ret.
    + case_match; [|by apply wp_ret]. case_match. apply wp_bind, wp_call, wp_bind.
      eapply wp_pure; [apply http_resp_Ret|]. apply wp_ret.
      eapply (kept_trans 0 0); [done|exact Hp'|]. apply ok_push, Hp'. apply cut_fits.
    + case_match; apply wp_ret; [|done].
      eapply (kept_trans 0 0); [done|exact Hp'|]. by apply ok_failover; [|apply Hp'].
  - case_match; [by apply wp_ret, ok_failover|]. apply wp_bind.
    eapply wp_mono; [by apply q_window_safe|]. intros [o q'] w' Hq.
    pose proof (ok_conn 0 (CsQuic q') p ltac:(done) Hq Hp) as Hp'. case_match; [|by apply wp_ret].
    case_match. apply wp_bind, wp_call, wp_ret.
    eapply (kept_trans 0 0); [done|exact Hp'|].
    by apply (ok_push _ (pw_inflight (with_conn (CsQuic q') p))), Hp'.
Qed.

Lemma ok_drive p w : worker_ok p → wp _ (drive_active p) w (λ p' _, kept 0 p p').
Proof using CL MW.
  intros Hp. unfold drive_active, drive. pose proof (wo_active p Hp) as Ha. apply wp_bind.
  destruct (conn (active (pw_dual_conn p))) as [h|q]; apply wp_bind.
  - eapply wp_mono; [by apply h_drive_safe|]. intros h' w' Hh. by apply wp_ret, wp_ret, ok_conn.
  - eapply wp_mono; [by apply q_drive_safe|]. intros q' w' Hq. by apply wp_ret, wp_ret, ok_conn.
Qed.

(** What a pass does: it takes the first job of the trigger ring, only adds to
    the result ring, only what fits in a record, and counts a job only if it
    took one. *)
Record passed (p p' : worker) : Prop := {
  ps_ok : worker_ok p';
  ps_trigger : items (pw_trigger p') = tail (items (pw_trigger p));
  ps_results : items (pw_result_tx p) `prefix_of` items (pw_result_tx p');
  ps_jobs : pw_jobs_sent p ≤ pw_jobs_sent p';
  ps_count : pw_jobs_sent p' + zlen (items (pw_trigger p'))
             ≤ pw_jobs_sent p + zlen (items (pw_trigger p));
  ps_fits : Forall resp_fits (items (pw_result_tx p)) → Forall resp_fits (items (pw_result_tx p'));
}.

Lemma passed_kept p p1 p2 : passed p p1 → kept 0 p1 p2 → passed p p2.
Proof.
  intros [Ha Hb Hc Hd He Hf] [Hok [Ht Hr Hj _ Hf']].
  split; [done|by rewrite Ht|by etrans|lia|rewrite Ht; lia|auto].
Qed.

Lemma ok_take_job p pid scratch w :
  0 ≤ pw_jobs_sent p < U64 - 1 → worker_ok p →
  wp _ (take_job p pid scratch) w (λ '(p', scratch') _,
    passed p p' ∧ length scratch' = length scratch).
Proof using CL FL MW QL.
  intros Hj Hp. unfold take_job. destruct (try_pop_items (pw_trigger p)) as [Hpop Hit].
  destruct (try_pop (pw_trigger p)) as [o t]. cbn [snd] in Hpop, Hit. injection Hpop as ->.
  assert (worker_ok (with_trigger t p)) as Hp' by (by destruct Hp; split).
  destruct (items (pw_trigger p)) as [|job js] eqn:E; cbn [head tail] in *.
  - apply wp_ret. split; [|done].
    split; cbn; [done|by rewrite Hit, E|done|done|rewrite Hit, E; lia|done].
  - apply wp_bind, wp_call, wp_bind. eapply wp_mono; [apply fill_bounds|].
    intros [len scratch'] w' [Hl Hs]. apply wp_bind. eapply wp_mono.
    + apply ok_send_to; [done|unfold zlen in *; lia|done].
    + intros p' ? [Hok [Ht Hr Hk _ Hf]]. apply wp_ret. split; [|done]. cbn in Ht, Hr, Hk.
      split; [done|by rewrite Ht, Hit, E|done|lia| |done]. rewrite Ht, Hit, E. len.
Qed.

Lemma ok_pass p pid scratch w :
  0 ≤ pw_jobs_sent p < U64 - 1 → worker_ok p →
  wp _ (par_pass p pid scratch) w (λ '(p', scratch') _,
    passed p p' ∧ length scratch' = length scratch).
Proof using CL FL MW QL XL.
  intros Hj Hp. unfold par_pass. apply wp_bind. eapply wp_mono; [by apply ok_take_job|].
  intros [p1 s1] w1 [Hp1 Hs1]. apply wp_bind. eapply wp_mono; [by apply ok_drive; apply Hp1|].
  intros p2 w2 Hp2. apply wp_bind. eapply wp_mono; [by apply ok_reap; apply Hp2|].
  intros p3 w3 Hp3. eapply passed_kept in Hp2; [|done]. eapply passed_kept in Hp3; [|done].
  assert (passed p (tick_phase p3)) as Hp4.
  { assert (passed p (with_tick ((pw_tick p3 + 1) mod U32) p3)) as Htick.
    { eapply passed_kept; [done|]. destruct (ps_ok _ _ Hp3). by apply kept_intro. }
    unfold tick_phase. case_match; [|done]. eapply passed_kept; [done|].
    apply ok_housekeeping, Htick. }
  apply wp_bind. unfold idle_phase.
  case_match; [apply wp_bind, wp_call|]; apply wp_ret, wp_ret; [|done].
  split; [|done]. eapply passed_kept; [exact Hp4|]. apply ok_housekeeping, Hp4.
Qed.
End through.

(** * The examples' connections *)

#[export] Instance demo_pending : PendingView demo_quic := dq_pending.
#[export] Instance demo_pending_laws : PendingLaws demo_world demo_http demo_quic.
Proof.
  split.
  - intros q job sent tx w. unfold post. cbn. by destruct (dq_dead q).
  - intros q w. unfold post, pending, demo_pending. cbn. by destruct (dq_pending q).
  - done.
Qed.

#[export] Instance demo_fill_laws `{Modality demo_world wp} : FillLaws demo_world wp.
Proof.
  intros pid job scratch w. apply wp_ret. split; [len|].
  apply Backend.length_written. rewrite length_take. cbn. lia.
Qed.
#[export] Instance demo_conn_safe :
  ConnOk demo_world demo_http demo_quic (@safe demo_world) (λ _, True) (λ _, True).
Proof.
  split; intros; unfold safe; cbn; try done; repeat case_match; done.
Qed.
#[export] Instance demo_conn_ends :
  ConnOk demo_world demo_http demo_quic (@ends demo_world) (λ _, True) (λ _, True).
Proof.
  split; intros; unfold ends; cbn; repeat case_match; eauto 10.
Qed.

(** * Theorems *)

(** The responses the worker has reported and the lane has not taken yet. *)
Definition reports `{QueueView Q} {X CS} (p : ParWorker Q X CS) : list RawResp :=
  items (pw_result_tx p).

(** C15: a worker's pass does not panic. Whatever the trigger ring holds and
    whatever the connections answer, however long the body, if the connections
    and the source themselves do not panic, the source keeps to the buffer it
    is given, and fewer than 2^64 - 1 jobs were sent, the pass does not panic
    and leaves its buffer intact: the first job of the trigger ring is taken,
    the result ring only grows, each record in it holds at most [RESP_CAP]
    bytes, a job is counted only if one was taken, and the worker is in order
    for the next pass. *)
Theorem par_pass_no_panic `{BuildProfile} `{QueueLaws Q} `{QueueLaws X} `{Clock W, Idle W}
    `{FillLaws W (@safe W)} `{ConnOk W HC QC (@safe W) hok qok} (p : ParWorker Q X (ConnState HC QC))
    pid scratch w :
  0 ≤ pw_jobs_sent p < U64 - 1 → worker_ok (hok := hok) (qok := qok) p →
  safe (par_pass p pid scratch) w (λ '(p', scratch') _,
    passed (hok := hok) (qok := qok) p p' ∧ length scratch' = length scratch).
Proof. apply ok_pass. Qed.

(** A pass that takes a job and reaps a body longer than the record. *)
Lemma par_pass_no_panic_witness :
  let long := Backend.zeroes 5000 in
  let h := mkDemoHttp [] [Ok (Some long)] [] in
  let p := with_inflight (Some (mkJob 9 0, 1))
             (demo_par 0 [mkJob 1 0; mkJob 2 0] (CsHttp h) (CsQuic (mkDemoQuic None true))) in
  safe (par_pass (H := true) p (provider_id 0) (Backend.zeroes 16)) (mkDemoWorld 0)
    (λ '(p', scratch') _, items (pw_trigger p') = [mkJob 2 0] ∧ length scratch' = 16%nat ∧
       Forall resp_fits (reports p')).
Proof.
  intros long h p. eapply safe_mono.
  - apply (par_pass_no_panic (H := true) (hok := λ _, True) (qok := λ _, True)); [compute_done|].
    split; [done..|constructor].
  - intros [p' s'] w' [Hp Hs]. split; [exact (ps_trigger _ _ Hp)|]. split; [exact Hs|].
    apply (ps_fits _ _ Hp). constructor.
Defined.

(** What becomes of the retry on the connection [c] that was standing by: over
    HTTP the same bytes are sent, over QUIC they are not. *)
Definition retried `{Conns W HC QC} (tx : bytes) (c : ConnState HC QC) (w1 : W) (ok : bool)
    (c' : ConnState HC QC) (w2 : W) : Prop :=
  match c with
  | CsHttp h2 => ∃ r h2', h_send_tx h2 tx w1 = Ret (r, h2', w2) ∧ ok = is_ok r ∧ c' = CsHttp h2'
  | CsQuic _ => ok = false ∧ c' = c ∧ w2 = w1
  end.



(** A failover drops the job in flight without a word. When the response
    read finds the connection gone, the job that was in flight is forgotten:
    the worker has nothing in flight and has reported nothing, so no later
    pass can report an outcome for it; no [TransportError::Failover] is ever
    produced. *)
Theorem failover_drops_inflight `{QueueLaws Q} `{BoundedQueue X} `{Conns W HC QC} `{Clock W}
    (p : ParWorker Q X (ConnState HC QC)) pid job s h h' e w w1 :
  conn (active (pw_dual_conn p)) = CsHttp h → pw_inflight p = Some (job, s) →
  h_poll_response h w = Ret (Err (TIo e), h', w1) → http_conn_failed_io e = true →
  ∃ p', reap p pid w = Ret (p', w1) ∧ pw_inflight p' = None ∧
    reports p' = reports p ∧
    conn (active (pw_dual_conn p')) = conn (standby (pw_dual_conn p)).
Proof.
  intros Ha Hi Hp He. unfold reap, mbind, M_bind. rewrite Ha, Hp. cbv beta iota. rewrite He.
  by eexists.
Qed.

Lemma failover_drops_inflight_witness :
  let gone := mkDemoHttp [] [Err (TIo (Simple UnexpectedEof))] [] in
  let p := with_inflight (Some (mkJob 5 0, 42)) (demo_par 0 [] (CsHttp gone) (CsHttp idle_http)) in
  ∃ p', reap p (provider_id 0) (mkDemoWorld 0) = Ret (p', mkDemoWorld 0) ∧
    pw_inflight p' = None ∧ reports p' = [].
Proof.
  intros gone p. destruct (failover_drops_inflight p (provider_id 0) (mkJob 5 0) 42 gone idle_http
    (Simple UnexpectedEof) (mkDemoWorld 0) (mkDemoWorld 0)) as (p'&Hp&Hi&Hr&_); [reflexivity..|].
  exists p'. by split.
Defined.

(** C39: the next response is credited to the latest job. If a job is sent
    while an earlier one is still in flight on the same connection, the
    earlier one is overwritten; the next complete response, which over
    HTTP/1.1 answers the earlier job, is reported under the later job's id and
    send time, and the earlier job is never reported. *)
Theorem response_goes_to_latest_job `{BuildProfile} `{QueueLaws Q} `{BoundedQueue X} `{Conns W HC QC}
    `{Clock W} (p : ParWorker Q X (ConnState HC QC)) pid job1 s1 job2 s2 len scratch h h1 h2 body w w1 w2 w3 t :
  conn (active (pw_dual_conn p)) = CsHttp h → pw_inflight p = Some (job1, s1) →
  0 ≤ len ≤ zlen scratch → 0 ≤ pw_jobs_sent p < U64 - 1 →
  (length (reports p) < room (pw_result_tx p))%nat →
  h_send_tx h (take (Z.to_nat len) scratch) w = Ret (Ok (), h1, w1) →
  h_poll_response h1 w1 = Ret (Ok (Some body), h2, w2) → rdtsc w2 = (t, w3) →
  ∃ p', (p1 ← send_to p job2 s2 len scratch; reap p1 pid) w = Ret (p', w3) ∧
    reports p' = reports p ++
      [mkRawResp (job_id job2) pid s2 t (take (Z.to_nat RESP_CAP) body) None] ∧
    pw_inflight p' = None.
Proof.
  intros Ha Hi Hl Hj Hroom Hsend Hpoll Ht. unfold send_to, reap, mbind, M_bind, pure.
  rewrite (slice_to_ok _ _ Hl), Ha, Hsend. cbv beta iota.
  unfold mark_sent, count_job. cbn. rewrite add_mod_ok by lia. cbn. rewrite Hpoll. cbn.
  unfold call. rewrite Ht, http_resp_Ret. eexists. split; [done|]. split; [|done]. cbn.
  by destruct (try_push_room (mkRawResp (job_id job2) pid s2 t (take (Z.to_nat RESP_CAP) body) None)
    _ Hroom) as (_&?&_).
Qed.

Lemma response_goes_to_latest_job_witness :
  let c := mkDemoHttp [] [Ok (Some (str "reply to 1"))] [] in
  let p := with_inflight (Some (mkJob 1 0, 10)) (demo_par 0 [] (CsHttp c) (CsHttp idle_http)) in
  ∃ p', (p1 ← send_to (H := true) p (mkJob 2 0) 20 3 (str "tx!"); reap p1 (provider_id 0)) (mkDemoWorld 30)
          = Ret (p', mkDemoWorld 31) ∧
    rr_job <$> reports p' = [2].
Proof.
  intros c p. destruct (response_goes_to_latest_job (H := true) p (provider_id 0) (mkJob 1 0) 10
    (mkJob 2 0) 20 3 (str "tx!") c (mkDemoHttp [] [Ok (Some (str "reply to 1"))] [str "tx!"])
    (mkDemoHttp [] [] [str "tx!"]) (str "reply to 1") (mkDemoWorld 30) (mkDemoWorld 30) (mkDemoWorld 30)
    (mkDemoWorld 31) 30) as (p'&Hp&Hr&_); [reflexivity|reflexivity|compute_done..|reflexivity|reflexivity|reflexivity|].
  exists p'. split; [exact Hp|]. by rewrite Hr.
Defined.
