(* ===== verification/Sequential.v ===== *)
(** The worker of the sequential transport, transport/sequential.rs: one
    thread, every provider in turn; and how it relates to the workers of the
    parallel transport. The profiling feature is off. *)
From S2P Require Import Prelude Types Ring Lane Quic Conn Reconnect Parallel Demo.
From stdpp Require Import options.

Definition TRIGGER_RING : nat := 256.

Record SeqWorker (Q X : Type → Type) (CS : Type) := mkSeqWorker {
  sw_trigger : Spsc Q Job;
  sw_conns : list (DualConn CS);
  sw_result_tx : list (Spsc Q RawResp);
  sw_inflight : list (option (Job * Z));
  sw_reconnect_req_tx : X ReconnectReq;
  sw_reconnect_resp_rx : list (X (ReconnectResp CS));
  sw_conn_kind : ConnKind;
  sw_tick : Z;
  sw_diag : list WorkerDiag;
  sw_jobs_sent : list Z;
}.
Arguments mkSeqWorker {Q X CS}.
Arguments sw_trigger {Q X CS}.
Arguments sw_conns {Q X CS}.
Arguments sw_result_tx {Q X CS}.
Arguments sw_inflight {Q X CS}.
Arguments sw_reconnect_req_tx {Q X CS}.
Arguments sw_reconnect_resp_rx {Q X CS}.
Arguments sw_conn_kind {Q X CS}.
Arguments sw_tick {Q X CS}.
Arguments sw_diag {Q X CS}.
Arguments sw_jobs_sent {Q X CS}.

Module Seq.
Section updates.
Context {Q X : Type → Type} {CS : Type}.
Implicit Type s : SeqWorker Q X CS.

Definition with_trigger t s : SeqWorker Q X CS :=
  mkSeqWorker t (sw_conns s) (sw_result_tx s) (sw_inflight s) (sw_reconnect_req_tx s)
    (sw_reconnect_resp_rx s) (sw_conn_kind s) (sw_tick s) (sw_diag s) (sw_jobs_sent s).
Definition with_conns c s : SeqWorker Q X CS :=
  mkSeqWorker (sw_trigger s) c (sw_result_tx s) (sw_inflight s) (sw_reconnect_req_tx s)
    (sw_reconnect_resp_rx s) (sw_conn_kind s) (sw_tick s) (sw_diag s) (sw_jobs_sent s).
Definition with_result_tx r s : SeqWorker Q X CS :=
  mkSeqWorker (sw_trigger s) (sw_conns s) r (sw_inflight s) (sw_reconnect_req_tx s)
    (sw_reconnect_resp_rx s) (sw_conn_kind s) (sw_tick s) (sw_diag s) (sw_jobs_sent s).
Definition with_inflight i s : SeqWorker Q X CS :=
  mkSeqWorker (sw_trigger s) (sw_conns s) (sw_result_tx s) i (sw_reconnect_req_tx s)
    (sw_reconnect_resp_rx s) (sw_conn_kind s) (sw_tick s) (sw_diag s) (sw_jobs_sent s).
Definition with_req_tx r s : SeqWorker Q X CS :=
  mkSeqWorker (sw_trigger s) (sw_conns s) (sw_result_tx s) (sw_inflight s) r
    (sw_reconnect_resp_rx s) (sw_conn_kind s) (sw_tick s) (sw_diag s) (sw_jobs_sent s).
Definition with_resp_rx r s : SeqWorker Q X CS :=
  mkSeqWorker (sw_trigger s) (sw_conns s) (sw_result_tx s) (sw_inflight s) (sw_reconnect_req_tx s)
    r (sw_conn_kind s) (sw_tick s) (sw_diag s) (sw_jobs_sent s).
Definition with_tick t s : SeqWorker Q X CS :=
  mkSeqWorker (sw_trigger s) (sw_conns s) (sw_result_tx s) (sw_inflight s) (sw_reconnect_req_tx s)
    (sw_reconnect_resp_rx s) (sw_conn_kind s) t (sw_diag s) (sw_jobs_sent s).
Definition with_diag d s : SeqWorker Q X CS :=
  mkSeqWorker (sw_trigger s) (sw_conns s) (sw_result_tx s) (sw_inflight s) (sw_reconnect_req_tx s)
    (sw_reconnect_resp_rx s) (sw_conn_kind s) (sw_tick s) d (sw_jobs_sent s).
Definition with_jobs_sent j s : SeqWorker Q X CS :=
  mkSeqWorker (sw_trigger s) (sw_conns s) (sw_result_tx s) (sw_inflight s) (sw_reconnect_req_tx s)
    (sw_reconnect_resp_rx s) (sw_conn_kind s) (sw_tick s) (sw_diag s) j.
End updates.

Section worker.
Context `{BuildProfile} `{BoundedQueue Q} `{BoundedQueue X}.
Context `{Conns W HC QC} `{Clock W, TxSource W, Idle W}.
Abbreviation CS := (ConnState HC QC).
Abbreviation worker := (SeqWorker Q X CS).

Definition new (trigger : Spsc Q Job) (conns : list (DualConn CS)) (result_tx : list (Spsc Q RawResp))
    (req_tx : X ReconnectReq) (resp_rx : list (X (ReconnectResp CS))) (kind : ConnKind)
    (diag : list WorkerDiag) : worker :=
  let n := length conns in
  mkSeqWorker trigger conns result_tx (replicate n None) req_tx resp_rx kind 0 diag (replicate n 0).

(** [&mut self.conns[i].active.conn], and its value after a call on it. *)
Definition active_conn (s : worker) (i : nat) : outcome CS :=
  d ← index (sw_conns s) i;
  Ret (conn (active d)).
Definition with_conn (i : nat) (c : CS) (s : worker) : outcome worker :=
  d ← index (sw_conns s) i;
  conns ← store (sw_conns s) i (set_active d c);
  Ret (with_conns conns s).

(** [self.jobs_sent[i] += 1]. *)
Definition count_job (i : nat) (s : worker) : outcome worker :=
  n ← index (sw_jobs_sent s) i;
  n ← add_mod U64 n 1;
  js ← store (sw_jobs_sent s) i n;
  Ret (with_jobs_sent js s).

Definition mark_sent (i : nat) (job : Job) (sent : Z) (s : worker) : outcome worker :=
  inf ← store (sw_inflight s) i (Some (job, sent));
  count_job i (with_inflight inf s).

Definition do_failover (i : nat) (s : worker) : outcome worker :=
  inf ← store (sw_inflight s) i None;
  let s := with_inflight inf s in
  d ← index (sw_conns s) i;
  conns ← store (sw_conns s) i (swap d);
  let s := with_conns conns s in
  Ret (with_req_tx (try_send (mkReconnectReq i (sw_conn_kind s)) (sw_reconnect_req_tx s)) s).

Definition resend (i : nat) (job : Job) (sent : Z) (tx : bytes) (s : worker) : M W worker :=
  c ← pure (active_conn s i);
  match c with
  | CsHttp h2 =>
      '(r, h2) ← h_send_tx h2 tx;
      s ← pure (with_conn i (CsHttp h2) s);
      if is_ok r then pure (mark_sent i job sent s) else mret s
  | CsQuic _ => mret s
  end.

Definition send_to (s : worker) (i : nat) (job : Job) (sent : Z) (len : Z) (scratch : bytes) :
    M W worker :=
  tx ← pure (slice_to len scratch);
  c ← pure (active_conn s i);
  match c with
  | CsHttp h =>
      '(r, h) ← h_send_tx h tx;
      s ← pure (with_conn i (CsHttp h) s);
      match r with
      | Ok _ => pure (mark_sent i job sent s)
      | Err (TIo e) =>
          if http_conn_failed_io e
          then (s ← pure (do_failover i s); resend i job sent tx s)
          else mret s
      | Err _ => mret s
      end
  | CsQuic q =>
      '(_, q) ← q_send_tx q job sent tx;
      s ← pure (with_conn i (CsQuic q) s);
      pure (count_job i s)
  end.

Definition push_result (i : nat) (resp : RawResp) (s : worker) : outcome worker :=
  ring ← index (sw_result_tx s) i;
  rings ← store (sw_result_tx s) i (try_push resp ring).2;
  Ret (with_result_tx rings s).

Definition reap (s : worker) (i : nat) (pid : ProviderId) : M W worker :=
  c ← pure (active_conn s i);
  match c with
  | CsHttp h =>
      '(r, h) ← h_poll_response h;
      s ← pure (with_conn i (CsHttp h) s);
      match r with
      | Ok (Some body) =>
          o ← pure (index (sw_inflight s) i);
          match o with
          | Some (job, sent) =>
              inf ← pure (store (sw_inflight s) i None);
              settled ← call rdtsc;
              resp ← pure (http_resp job pid sent settled body);
              pure (push_result i resp (with_inflight inf s))
          | None => mret s
          end
      | Err (TIo e) => if http_conn_failed_io e then pure (do_failover i s) else mret s
      | _ => mret s
      end
  | CsQuic q =>
      if q_is_dead q then pure (do_failover i s)
      else
        '(o, q) ← q_poll_noresp_window q;
        s ← pure (with_conn i (CsQuic q) s);
        match o with
        | Some (jid, sent) =>
            settled ← call rdtsc;
            pure (push_result i (quic_resp jid pid sent settled) s)
        | None => mret s
        end
  end.

(** One iteration of [check_standby_deliveries]. *)
Definition check_standby_delivery (i : nat) (s : worker) : outcome worker :=
  rx ← index (sw_reconnect_resp_rx s) i;
  let '(o, rx) := try_recv rx in
  rxs ← store (sw_reconnect_resp_rx s) i rx;
  let s := with_resp_rx rxs s in
  match o with
  | Some resp =>
      match downcast (rs_conn resp) with
      | Some c =>
          let j := rs_provider_idx resp in
          d ← index (sw_conns s) j;
          conns ← store (sw_conns s) j (replace_standby d c);
          Ret (with_conns conns s)
      | None => Ret s
      end
  | None => Ret s
  end.

(** A [for i in i0..i0 + n] over a fallible body. *)
Fixpoint for_pure (n i : nat) (body : nat → worker → outcome worker) (s : worker) : outcome worker :=
  match n with
  | O => Ret s
  | S n => s ← body i s; for_pure n (S i) body s
  end.
Fixpoint for_world (n i : nat) (body : nat → worker → M W worker) (s : worker) : M W worker :=
  match n with
  | O => mret s
  | S n => s ← body i s; for_world n (S i) body s
  end.

Definition check_standby_deliveries (s : worker) : outcome worker :=
  for_pure (length (sw_reconnect_resp_rx s)) 0 check_standby_delivery s.

(** One iteration of [publish_diag]. *)
Definition publish_diag_one (i : nat) (s : worker) : outcome worker :=
  js ← index (sw_jobs_sent s) i;
  ds ← store (sw_diag s) i (mkWorkerDiag true js hist_default hist_default);
  Ret (with_diag ds s).
Definition publish_diag (s : worker) : outcome worker :=
  for_pure (length (sw_diag s)) 0 publish_diag_one s.

Definition drive_active (i : nat) (s : worker) : M W worker :=
  c ← pure (active_conn s i);
  c ← drive c;
  pure (with_conn i c s).

(** The sends of one job, provider by provider, through one buffer. *)
Fixpoint send_all (n i : nat) (job : Job) (sent : Z) (s : worker) (scratch : bytes) :
    M W (worker * bytes) :=
  match n with
  | O => mret (s, scratch)
  | S n =>
      '(len, scratch) ← fill (provider_id i) job scratch;
      s ← send_to s i job sent len scratch;
      send_all n (S i) job sent s scratch
  end.

Definition take_job (s : worker) (scratch : bytes) : M W (worker * bytes) :=
  match try_pop (sw_trigger s) with
  | (None, t) => mret (with_trigger t s, scratch)
  | (Some job, t) =>
      let s := with_trigger t s in
      sent ← call rdtsc;
      '(s, scratch) ← send_all (length (sw_conns s)) 0 job sent s scratch;
      s ← for_world (length (sw_conns s)) 0 drive_active s;
      mret (s, scratch)
  end.

Definition drive_and_reap (i : nat) (s : worker) : M W worker :=
  s ← drive_active i s;
  reap s i (provider_id i).

Definition housekeeping (s : worker) : outcome worker :=
  s ← check_standby_deliveries s;
  publish_diag s.

Definition tick_phase (s : worker) : outcome worker :=
  let s := with_tick ((sw_tick s + 1) mod U32) s in
  if Z.land (sw_tick s) PERIODIC_MASK =? 0 then housekeeping s else Ret s.

Definition idle_phase (s : worker) : M W worker :=
  if is_empty (sw_trigger s) then
    _ ← call (λ w, ((), idle_wait w));
    pure (housekeeping s)
  else mret s.

(** One pass of [run]'s loop. *)
Definition seq_pass (s : worker) (scratch : bytes) : M W (worker * bytes) :=
  '(s, scratch) ← take_job s scratch;
  s ← for_world (length (sw_conns s)) 0 drive_and_reap s;
  s ← pure (tick_phase s);
  s ← idle_phase s;
  mret (s, scratch).

(** [run]: [stops] are the values of the stop flag, one before each pass. *)
Fixpoint seq_passes (stops : list bool) (s : worker) (scratch : bytes) : M W worker :=
  match stops with
  | [] => λ _, OutOfFuel
  | true :: _ => mret s
  | false :: stops =>
      '(s, scratch) ← seq_pass s scratch;
      seq_passes stops s scratch
  end.

Definition run (stops : list bool) (s : worker) : M W worker :=
  seq_passes stops s (Backend.zeroes (Z.to_nat MAX_TX_LEN)).
End worker.
End Seq.

(** * A provider of the sequential worker is a parallel worker *)

(** The result of a run, mapped. *)
Definition mapM {W A B} (f : A → B) (m : M W A) : M W B := m ≫= λ a, mret (f a).

Section lens.
Context {Q X : Type → Type} {CS : Type}.
Implicit Types (s : SeqWorker Q X CS) (p : ParWorker Q X CS).

(** Provider [i] of [s], replaced by the state of a parallel worker. *)
Definition put_lane (i : nat) (s : SeqWorker Q X CS) (p : ParWorker Q X CS) : SeqWorker Q X CS :=
  mkSeqWorker (pw_trigger p) (<[i := pw_dual_conn p]> (sw_conns s))
    (<[i := pw_result_tx p]> (sw_result_tx s)) (<[i := pw_inflight p]> (sw_inflight s))
    (pw_reconnect_req_tx p) (<[i := pw_reconnect_resp_rx p]> (sw_reconnect_resp_rx s))
    (sw_conn_kind s) (pw_tick p) (<[i := pw_diag p]> (sw_diag s))
    (<[i := pw_jobs_sent p]> (sw_jobs_sent s)).

(** Provider [i] of [s] as a parallel worker. *)
Definition get_lane (i : nat) (s : SeqWorker Q X CS) : option (ParWorker Q X CS) :=
  d ← sw_conns s !! i;
  r ← sw_result_tx s !! i;
  inf ← sw_inflight s !! i;
  rx ← sw_reconnect_resp_rx s !! i;
  dg ← sw_diag s !! i;
  js ← sw_jobs_sent s !! i;
  Some (mkParWorker i (sw_trigger s) r d inf (sw_reconnect_req_tx s) rx (sw_conn_kind s)
          (sw_tick s) dg js).

(** [s] has a provider [i], in every list. *)
Record wide (i : nat) (s : SeqWorker Q X CS) : Prop := {
  wide_conns : (i < length (sw_conns s))%nat;
  wide_results : (i < length (sw_result_tx s))%nat;
  wide_inflight : (i < length (sw_inflight s))%nat;
  wide_resp : (i < length (sw_reconnect_resp_rx s))%nat;
  wide_diag : (i < length (sw_diag s))%nat;
  wide_jobs : (i < length (sw_jobs_sent s))%nat;
}.

Lemma get_lane_wide i s p : get_lane i s = Some p → wide i s.
Proof.
  unfold get_lane. intros Hg. repeat (apply bind_Some in Hg as (?&?%lookup_lt_Some&Hg)). by split.
Qed.

Lemma get_lane_idx i s p :
  get_lane i s = Some p → pw_provider_idx p = i ∧ pw_conn_kind p = sw_conn_kind s.
Proof.
  unfold get_lane. intros Hg. repeat (apply bind_Some in Hg as (?&?&Hg)). by injection Hg as <-.
Qed.

Lemma get_put i s p :
  wide i s → pw_provider_idx p = i → pw_conn_kind p = sw_conn_kind s →
  get_lane i (put_lane i s p) = Some p.
Proof.
  intros [] Hi Hk. unfold get_lane, put_lane. cbn.
  rewrite !list_lookup_insert_eq by done. cbn. rewrite <- Hi, <- Hk. by destruct p.
Qed.

Lemma put_get i s p : get_lane i s = Some p → put_lane i s p = s.
Proof.
  unfold get_lane. intros Hg.
  repeat (let x := fresh in let E := fresh in apply bind_Some in Hg as (x&E&Hg);
          apply (list_insert_id _ _ x) in E).
  injection Hg as <-. unfold put_lane. cbn. destruct s; cbn in *. congruence.
Qed.
End lens.

Section simulation.
Context `{BuildProfile} `{BoundedQueue Q} `{QX : QueueLaws X}.
Context `{Conns W HC QC} `{Clock W, TxSource W, Idle W}.
Abbreviation CS := (ConnState HC QC).
Context (i : nat) (s : SeqWorker Q X CS) (Hw : wide i s).
Implicit Type p : ParWorker Q X CS.
Abbreviation put := (put_lane i s).

Lemma active_conn_put p : Seq.active_conn (put p) i = Ret (conn (active (pw_dual_conn p))).
Proof using Hw.
  destruct Hw. unfold Seq.active_conn, index. cbn. by rewrite list_lookup_insert_eq.
Qed.

Lemma with_conn_put c p : Seq.with_conn i c (put p) = Ret (put (with_conn c p)).
Proof using Hw.
  destruct Hw. unfold Seq.with_conn, index, store. cbn.
  rewrite !list_lookup_insert_eq by done. cbn. by rewrite list_insert_insert_eq.
Qed.

Lemma count_job_put p : Seq.count_job i (put p) = put <$> count_job p.
Proof using Hw.
  destruct Hw. unfold Seq.count_job, count_job, index, store. cbn.
  rewrite !list_lookup_insert_eq by done. cbn. destruct (add_mod _ _ _); cbn; [|done..].
  by rewrite list_insert_insert_eq.
Qed.

Lemma mark_sent_put job t p : Seq.mark_sent i job t (put p) = put <$> mark_sent job t p.
Proof using Hw.
  unfold mark_sent. rewrite <- count_job_put. destruct Hw. unfold Seq.mark_sent, store. cbn.
  rewrite list_lookup_insert_eq by done. cbn. by rewrite list_insert_insert_eq.
Qed.

Lemma do_failover_put p :
  pw_provider_idx p = i → pw_conn_kind p = sw_conn_kind s →
  Seq.do_failover i (put p) = Ret (put (do_failover p)).
Proof using Hw.
  intros Hi Hk. destruct Hw. unfold Seq.do_failover, index, store. cbn.
  rewrite !list_lookup_insert_eq by done. cbn. rewrite !list_insert_insert_eq.
  unfold do_failover, put_lane. cbn. by rewrite Hi, Hk.
Qed.

Lemma push_result_put r p : Seq.push_result i r (put p) = Ret (put (push_result r p)).
Proof using Hw.
  destruct Hw. unfold Seq.push_result, index, store. cbn.
  rewrite !list_lookup_insert_eq by done. cbn. by rewrite list_insert_insert_eq.
Qed.

Lemma index_inflight_put p : index (sw_inflight (put p)) i = Ret (pw_inflight p).
Proof using Hw. destruct Hw. unfold index. cbn. by rewrite list_lookup_insert_eq. Qed.

Lemma store_inflight_put o p :
  store (sw_inflight (put p)) i o = Ret (sw_inflight (put (with_inflight o p))).
Proof using Hw.
  destruct Hw. unfold store. cbn. rewrite list_lookup_insert_eq by done.
  by rewrite list_insert_insert_eq.
Qed.

(** The runs, one world at a time. *)
Ltac in_world := unfold mapM, mbind, M_bind, mret, M_ret, pure.

Lemma resend_put job t tx p w :
  Seq.resend i job t tx (put p) w = mapM put (resend job t tx p) w.
Proof using Hw.
  unfold Seq.resend, resend. in_world. rewrite active_conn_put.
  destruct (conn _) as [h|q]; [|done]. destruct (h_send_tx h tx w) as [[[r h'] w']| |]; [|done..].
  rewrite with_conn_put. destruct (is_ok r); [|done]. rewrite mark_sent_put.
  by destruct (mark_sent _ _ _).
Qed.

Lemma send_to_put p job t len scratch w :
  pw_provider_idx p = i → pw_conn_kind p = sw_conn_kind s →
  Seq.send_to (put p) i job t len scratch w = mapM put (send_to p job t len scratch) w.
Proof using Hw.
  intros Hi Hk. unfold Seq.send_to, send_to. in_world.
  destruct (slice_to len scratch) as [tx| |]; [|done..]. rewrite active_conn_put.
  destruct (conn _) as [h|q].
  - destruct (h_send_tx h tx w) as [[[r h'] w']| |]; [|done..]. rewrite with_conn_put.
    destruct r as [u|[]]; try done.
    + rewrite mark_sent_put. by destruct (mark_sent _ _ _).
    + destruct (http_conn_failed_io e); [|done]. rewrite do_failover_put by done. apply resend_put.
  - destruct (q_send_tx q job t tx w) as [[[r q'] w']| |]; [|done..]. rewrite with_conn_put.
    rewrite count_job_put. by destruct (count_job _).
Qed.

Lemma reap_put p pid w :
  pw_provider_idx p = i → pw_conn_kind p = sw_conn_kind s →
  Seq.reap (put p) i pid w = mapM put (reap p pid) w.
Proof using Hw.
  intros Hi Hk. unfold Seq.reap, reap. in_world. rewrite active_conn_put.
  destruct (conn _) as [h|q].
  - destruct (h_poll_response h w) as [[[r h'] w']| |]; [|done..]. rewrite with_conn_put.
    destruct r as [[body|]|[]]; try done.
    + rewrite index_inflight_put. destruct (pw_inflight _) as [[job t]|]; [|done].
      rewrite store_inflight_put. unfold call. destruct (rdtsc w') as [settled w''].
      rewrite http_resp_Ret.
      change (Seq.with_inflight _ _) with (put (with_inflight None (with_conn (CsHttp h') p))).
      by rewrite push_result_put.
    + destruct (http_conn_failed_io e); [|done]. by rewrite do_failover_put.
  - destruct (q_is_dead q); [by rewrite do_failover_put|].
    destruct (q_poll_noresp_window q w) as [[[o q'] w']| |]; [|done..]. rewrite with_conn_put.
    destruct o as [[j t]|]; [|done]. unfold call. destruct (rdtsc w') as [settled w''].
    by rewrite push_result_put.
Qed.

Lemma drive_active_put p w : Seq.drive_active i (put p) w = mapM put (drive_active p) w.
Proof using Hw.
  unfold Seq.drive_active, drive_active. in_world. rewrite active_conn_put.
  destruct (drive _ w) as [[c w']| |]; [|done..]. by rewrite with_conn_put.
Qed.

Lemma check_standby_put p :
  Forall (λ r, rs_provider_idx r = i) (contents (pw_reconnect_resp_rx p)) →
  Seq.check_standby_delivery i (put p) = Ret (put (check_standby_delivery p)).
Proof using Hw QX.
  intros Hr. destruct Hw.
  unfold Seq.check_standby_delivery, check_standby_delivery, try_recv, index, store. cbn.
  rewrite !list_lookup_insert_eq by done. cbn.
  destruct (contents (pw_reconnect_resp_rx p)) as [|r rs] eqn:E.
  - rewrite pop_none by done. by rewrite list_insert_insert_eq.
  - destruct (pop_some _ r rs _ E) as [Hp Hc]. destruct (bq_pop _) as [o x]. cbn in Hp. subst o.
    rewrite list_insert_insert_eq. apply Forall_cons in Hr as [-> _].
    destruct (downcast (rs_conn r)); [|done].
    rewrite list_lookup_insert_eq by done. cbn. by rewrite list_insert_insert_eq.
Qed.

Lemma publish_diag_put p : Seq.publish_diag_one i (put p) = Ret (put (publish_diag p)).
Proof using Hw.
  destruct Hw. unfold Seq.publish_diag_one, index, store. cbn.
  rewrite !list_lookup_insert_eq by done. cbn. by rewrite list_insert_insert_eq.
Qed.
End simulation.

(** The same, for a provider that is there. *)
Section lane_ops.
Context `{BuildProfile} `{BoundedQueue Q} `{QX : QueueLaws X}.
Context `{Conns W HC QC} `{Clock W, TxSource W, Idle W}.
Context (i : nat) (s : SeqWorker Q X (ConnState HC QC)) (p : ParWorker Q X (ConnState HC QC)).
Context (Hg : get_lane i s = Some p).

Ltac as_put :=
  pose proof (get_lane_wide _ _ _ Hg) as Hw; destruct (get_lane_idx _ _ _ Hg) as [Hi Hk];
  rewrite <- (put_get _ _ _ Hg) at 1.

Lemma send_to_lane job t len scratch w :
  Seq.send_to s i job t len scratch w = mapM (put_lane i s) (send_to p job t len scratch) w.
Proof using Hg. as_put. by apply send_to_put. Qed.
Lemma reap_lane pid w : Seq.reap s i pid w = mapM (put_lane i s) (reap p pid) w.
Proof using Hg. as_put. by apply reap_put. Qed.
Lemma drive_lane w : Seq.drive_active i s w = mapM (put_lane i s) (drive_active p) w.
Proof using Hg. as_put. by apply drive_active_put. Qed.
Lemma check_standby_lane :
  Forall (λ r, rs_provider_idx r = i) (contents (pw_reconnect_resp_rx p)) →
  Seq.check_standby_delivery i s = Ret (put_lane i s (check_standby_delivery p)).
Proof using Hg QX. intros Hr. as_put. by apply check_standby_put. Qed.
Lemma publish_lane : Seq.publish_diag_one i s = Ret (put_lane i s (publish_diag p)).
Proof using Hg. as_put. by apply publish_diag_put. Qed.
End lane_ops.

(** C12: every provider of the sequential worker behaves as a parallel worker of
    its own. Sending, reaping, driving, taking a delivered standby and
    publishing diagnostics for provider [i] do to the shared state exactly what
    the parallel worker does to its own, panics included, and touch no other
    provider. *)
Theorem sequential_is_parallel `{BuildProfile} `{BoundedQueue Q} `{QueueLaws X}
    `{Conns W HC QC} `{Clock W} i (s : SeqWorker Q X (ConnState HC QC)) p :
  get_lane i s = Some p →
  (∀ job t len scratch w,
     Seq.send_to s i job t len scratch w = mapM (put_lane i s) (send_to p job t len scratch) w) ∧
  (∀ pid w, Seq.reap s i pid w = mapM (put_lane i s) (reap p pid) w) ∧
  (∀ w, Seq.drive_active i s w = mapM (put_lane i s) (drive_active p) w) ∧
  (Forall (λ r, rs_provider_idx r = i) (contents (pw_reconnect_resp_rx p)) →
     Seq.check_standby_delivery i s = Ret (put_lane i s (check_standby_delivery p))) ∧
  Seq.publish_diag_one i s = Ret (put_lane i s (publish_diag p)).
Proof.
  intros Hg. split_and!; intros.
  - by apply send_to_lane.
  - by apply reap_lane.
  - by apply drive_lane.
  - by apply check_standby_lane.
  - by apply publish_lane.
Qed.

Definition sample_seq : SeqWorker list_queue list_queue demo_cs :=
  Seq.new (channel 0 TRIGGER_RING)
    [dual_new (CsHttp idle_http) (CsHttp idle_http);
     dual_new (CsQuic (mkDemoQuic None false)) (CsQuic (mkDemoQuic None false))]
    [channel 4 RESULT_RING; channel 1 RESULT_RING] (bq_new 2 REQ_RING)
    [bq_new 5 RESP_RING; bq_new 3 RESP_RING] KRawLibc [diag_default; diag_default].

Lemma sequential_is_parallel_witness :
  let c := CsQuic (mkDemoQuic None false) in
  Seq.reap sample_seq 1 (provider_id 1) (mkDemoWorld 4)
  = mapM (put_lane 1 sample_seq) (reap (demo_par 1 [] c c) (provider_id 1)) (mkDemoWorld 4).
Proof.
  intros c. destruct (sequential_is_parallel (H := true) 1 sample_seq (demo_par 1 [] c c)) as (_&Hr&_);
    [reflexivity|]. apply Hr.
Defined.
