(* ===== verification/Connect.v ===== *)
(** How a provider's connections are made, transport/connect.rs. *)
From S2P Require Import Prelude Types Envelope SpecBuilder Http Registry Backend Quic Conn Ring Reconnect.
From stdpp Require Import options.

(** [build_quic_client_config] of protocol/quic_cert.rs, over the crates that
    make keys, certificates and TLS configurations. *)
Class QuicCert (W Cfg : Type) :=
  build_quic_client_config : QuicProfile → QuicAuth → M W (result Cfg TransportError).

(** [i as u16]. *)
Definition as_u16 (i : nat) : Z := Z.of_nat i mod U16.

Section connect.
Context `{BuildProfile, ByteIo W B C, Tls T, Libc W, Clock W, Quinn QC E Cfg, QuicCert W Cfg}.
Context (io_text : io_error → bytes) (passes fuel : nat).
Abbreviation CS := (ConnState (HttpConn B C T) (QuicConn (QuicEngine QC E))).

(** [make] makes the byte transport of a provider. *)
Context (make : nat → M W (result B SenderError)).

Definition connect_http (i : nat) (p : ProviderConfig) : M W (result CS SenderError) :=
  tpl ← pure (compile (build_envelope p));
  match tpl with
  | Err e => mret (Err (SConnect (as_u16 i) (TEnvelope e)))
  | Ok tpl =>
      io ← make i;
      match io with
      | Err e => mret (Err e)
      | Ok io =>
          r ← connect_with passes fuel io p tpl;
          match r with
          | Err e => mret (Err (SConnect (as_u16 i) e))
          | Ok c => mret (Ok (CsHttp c))
          end
      end
  end.

Definition connect_quic (i : nat) (p : ProviderConfig) : M W (result CS SenderError) :=
  match pc_quic_endpoint p with
  | None => mret (Err (SQuicConfig (as_u16 i) (str "missing quic_endpoint")))
  | Some ep =>
      match pc_quic_profile p with
      | None => mret (Err (SQuicConfig (as_u16 i) (str "missing quic_profile")))
      | Some profile =>
          match pc_quic_auth p with
          | None => mret (Err (SQuicConfig (as_u16 i) (str "missing quic_auth")))
          | Some auth =>
              cfg ← build_quic_client_config profile auth;
              match cfg with
              | Err e => mret (Err (SConnect (as_u16 i) e))
              | Ok cfg =>
                  r ← quic_connect io_text passes fuel cfg (qe_addr ep) (qe_server_name ep);
                  match r with
                  | Err e => mret (Err (SConnect (as_u16 i) e))
                  | Ok engine => mret (Ok (CsQuic (quic_conn_new engine)))
                  end
              end
          end
      end
  end.

Definition connect_one (providers : list ProviderConfig) (i : nat) : M W (result CS SenderError) :=
  p ← pure (index providers i);
  match pc_protocol p with
  | Types.Http => connect_http i p
  | Types.Quic => connect_quic i p
  end.

(** The loop of [connect_dual_all], for the providers from [i] on. *)
Fixpoint connect_duals (providers : list ProviderConfig) (n i : nat) (duals : list (DualConn CS)) :
    M W (result (list (DualConn CS)) SenderError) :=
  match n with
  | O => mret (Ok duals)
  | S n =>
      a ← connect_one providers i;
      match a with
      | Err e => mret (Err e)
      | Ok a =>
          s ← connect_one providers i;
          match s with
          | Err e => mret (Err e)
          | Ok s => connect_duals providers n (S i) (duals ++ [dual_new a s])
          end
      end
  end.

Definition connect_dual_all (providers : list ProviderConfig) :
    M W (result (list (DualConn CS)) SenderError) :=
  connect_duals providers (length providers) 0 [].

(** [EngineReconnectBuilder::build]; [err_text] is the [Debug] of
    [SenderError]. *)
Definition engine_build (err_text : SenderError → bytes) (providers : list ProviderConfig) :
    ReconnectBuilder W CS := λ i _,
  r ← connect_one providers i;
  match r with
  | Err e => mret (Err (Build (err_text e)))
  | Ok c => mret (Ok (BoxConn c))
  end.
End connect.

(** [TpaReconnectBuilder::build]. *)
Definition tpa_build {W CS} : ReconnectBuilder W CS := λ _ _, mret (Err NotSupported).

(** * What a successful connect gives *)

(** A connection that has nothing in flight. *)
Definition unused {B C T QE} (c : ConnState (HttpConn B C T) (QuicConn QE)) : Prop :=
  match c with
  | CsHttp _ => True
  | CsQuic q => qc_inflight q = None ∧ qc_sent_at q = None
  end.

Section connect_lemmas.
Context `{BuildProfile, ByteIo W B C, Tls T, Libc W, Clock W, Quinn QC E Cfg, QuicCert W Cfg}.
Context (io_text : io_error → bytes) (passes fuel : nat).
Context (make : nat → M W (result B SenderError)).
Abbreviation CS := (ConnState (HttpConn B C T) (QuicConn (QuicEngine QC E))).

(** A connection of the provider's protocol, with nothing in flight. *)
Definition good_conn (p : ProviderConfig) (c : CS) : Prop :=
  unused c ∧
  match c with CsHttp _ => pc_protocol p = Types.Http | CsQuic _ => pc_protocol p = Types.Quic end.

(** Why connecting provider [i], configured as [p], fails in world [w], with
    which error, and in which world that leaves. The errors of making a byte
    transport are handed on as they are; all others name the provider. *)
Inductive connect_fault (p : ProviderConfig) (i : nat) (w : W) : SenderError → W → Prop :=
| fault_envelope e :
    pc_protocol p = Types.Http → compile (build_envelope p) = Ret (Err e) →
    connect_fault p i w (SConnect (as_u16 i) (TEnvelope e)) w
| fault_make tpl e w' :
    pc_protocol p = Types.Http → compile (build_envelope p) = Ret (Ok tpl) →
    make i w = Ret (Err e, w') →
    connect_fault p i w e w'
| fault_http tpl io w1 e w' :
    pc_protocol p = Types.Http → compile (build_envelope p) = Ret (Ok tpl) →
    make i w = Ret (Ok io, w1) →
    connect_with (C := C) (T := T) passes fuel io p tpl w1 = Ret (Err e, w') →
    connect_fault p i w (SConnect (as_u16 i) e) w'
| fault_no_endpoint :
    pc_protocol p = Types.Quic → pc_quic_endpoint p = None →
    connect_fault p i w (SQuicConfig (as_u16 i) (str "missing quic_endpoint")) w
| fault_no_profile ep :
    pc_protocol p = Types.Quic → pc_quic_endpoint p = Some ep → pc_quic_profile p = None →
    connect_fault p i w (SQuicConfig (as_u16 i) (str "missing quic_profile")) w
| fault_no_auth ep profile :
    pc_protocol p = Types.Quic → pc_quic_endpoint p = Some ep → pc_quic_profile p = Some profile →
    pc_quic_auth p = None →
    connect_fault p i w (SQuicConfig (as_u16 i) (str "missing quic_auth")) w
| fault_cert ep profile auth e w' :
    pc_protocol p = Types.Quic → pc_quic_endpoint p = Some ep → pc_quic_profile p = Some profile →
    pc_quic_auth p = Some auth →
    build_quic_client_config (Cfg := Cfg) profile auth w = Ret (Err e, w') →
    connect_fault p i w (SConnect (as_u16 i) e) w'
| fault_quic ep profile auth (cfg : Cfg) w1 e w' :
    pc_protocol p = Types.Quic → pc_quic_endpoint p = Some ep → pc_quic_profile p = Some profile →
    pc_quic_auth p = Some auth → build_quic_client_config profile auth w = Ret (Ok cfg, w1) →
    quic_connect (C := QC) (E := E) io_text passes fuel cfg (qe_addr ep) (qe_server_name ep) w1
      = Ret (Err e, w') →
    connect_fault p i w (SConnect (as_u16 i) e) w'.

Definition connect_verdict (p : ProviderConfig) (i : nat) (w : W) (r : result CS SenderError) (w' : W) :
    Prop :=
  match r with
  | Ok c => good_conn p c
  | Err e => connect_fault p i w e w'
  end.

Lemma connect_http_post i p w :
  pc_protocol p = Types.Http →
  post (connect_http passes fuel make i p) w (λ r w', connect_verdict p i w r w').
Proof.
  intros Hp. unfold connect_http. apply post_bind, post_pure.
  intros [tpl|e] Ht; [|apply post_ret; by eapply fault_envelope].
  apply post_bind. unfold post at 1. destruct (make i w) as [[[io|e] w']| |] eqn:Em; [|..];
    [|apply post_ret; by eapply fault_make|done..].
  apply post_bind. unfold post at 1. destruct (connect_with _ _ _ _ _ _) as [[[c|e] w'']| |] eqn:Ec;
    [by apply post_ret|apply post_ret; by eapply fault_http|done..].
Qed.

Lemma connect_quic_post i p w :
  pc_protocol p = Types.Quic →
  post (connect_quic io_text passes fuel (B := B) (C := C) (T := T) i p) w
    (λ r w', connect_verdict p i w r w').
Proof.
  intros Hp. unfold connect_quic.
  destruct (pc_quic_endpoint p) as [ep|] eqn:Ee; [|apply post_ret; by eapply fault_no_endpoint].
  destruct (pc_quic_profile p) as [profile|] eqn:Ef; [|apply post_ret; by eapply fault_no_profile].
  destruct (pc_quic_auth p) as [auth|] eqn:Ea; [|apply post_ret; by eapply fault_no_auth].
  apply post_bind. unfold post at 1.
  destruct (build_quic_client_config profile auth w) as [[[cfg|e] w1]| |] eqn:Ec;
    [|apply post_ret; by eapply fault_cert|done..].
  apply post_bind. unfold post at 1.
  destruct (quic_connect _ _ _ _ _ _ _) as [[[c|e] w']| |] eqn:Eq;
    [by apply post_ret|apply post_ret; by eapply fault_quic|done..].
Qed.

Lemma connect_one_post providers i p w :
  providers !! i = Some p →
  post (connect_one io_text passes fuel make providers i) w (λ r w', connect_verdict p i w r w').
Proof.
  intros Hp. unfold connect_one. apply post_bind, post_pure. intros p' Hp'%index_Some.
  replace p' with p by congruence. destruct (pc_protocol p) eqn:Epr.
  - by apply connect_http_post.
  - by apply connect_quic_post.
Qed.

(** The calls of [connect_one] for the providers [ks], one after the other, all
    of which succeed. *)
Inductive connecting (providers : list ProviderConfig) (w : W) : list nat → list CS → W → Prop :=
| connecting_nil : connecting providers w [] [] w
| connecting_snoc ks cs w1 i c w2 :
    connecting providers w ks cs w1 →
    connect_one io_text passes fuel make providers i w1 = Ret (Ok c, w2) →
    connecting providers w (ks ++ [i]) (cs ++ [c]) w2.

(** Both sides of the first [n] providers. *)
Definition attempts (n : nat) : list nat := concat ((λ i, [i; i]) <$> seq 0 n).
Definition sides (ds : list (DualConn CS)) : list CS :=
  concat ((λ d, [conn (active d); conn (standby d)]) <$> ds).

Lemma attempts_S n : attempts (S n) = (attempts n ++ [n]) ++ [n].
Proof. unfold attempts. by rewrite seq_S, fmap_app, concat_app, <- app_assoc. Qed.
Lemma sides_snoc ds a b : sides (ds ++ [dual_new a b]) = (sides ds ++ [a]) ++ [b].
Proof. unfold sides. by rewrite fmap_app, concat_app, <- app_assoc. Qed.

(** A pair of healthy connections of the provider's. *)
Definition good_dual (p : ProviderConfig) (d : DualConn CS) : Prop :=
  good_conn p (conn (active d)) ∧ good_conn p (conn (standby d)) ∧
  healthy (active d) = true ∧ healthy (standby d) = true.

(** How connecting [providers] may end. *)
Definition all_or_error (providers : list ProviderConfig) (w : W)
    (r : result (list (DualConn CS)) SenderError) (w' : W) : Prop :=
  match r with
  | Ok ds =>
      Forall2 good_dual providers ds ∧
      connecting providers w (attempts (length providers)) (sides ds) w'
  | Err e =>
      ∃ i p again cs w1, providers !! i = Some p ∧
        connecting providers w (attempts i ++ if again : bool then [i] else []) cs w1 ∧
        connect_fault p i w1 e w'
  end.

Lemma connect_duals_post providers n i duals w w1 :
  (i + n = length providers)%nat → Forall2 good_dual (take i providers) duals →
  connecting providers w (attempts i) (sides duals) w1 →
  post (connect_duals io_text passes fuel make providers n i duals) w1 (all_or_error providers w).
Proof.
  revert i duals w1. induction n as [|n IH]; intros i duals w1 Hn Hd Hc; cbn [connect_duals].
  { apply post_ret. rewrite Nat.add_0_r in Hn. subst i. rewrite firstn_all in Hd. done. }
  destruct (lookup_lt_is_Some_2 providers i) as [p Hp]; [lia|].
  apply post_bind. pose proof (connect_one_post providers i p w1 Hp) as Ha. unfold post in Ha |- * at 1.
  destruct (connect_one _ _ _ _ providers i w1) as [[[a|e] w2]| |] eqn:Ea; [|..]; try done.
  2: { apply post_ret. exists i, p, false, (sides duals), w1. by rewrite app_nil_r. }
  apply post_bind. pose proof (connect_one_post providers i p w2 Hp) as Hs. unfold post in Hs |- * at 1.
  destruct (connect_one _ _ _ _ providers i w2) as [[[s|e] w3]| |] eqn:Es; [|..]; try done.
  2: { apply post_ret. exists i, p, true, (sides duals ++ [a]), w2. split; [done|].
       split; [|done]. by eapply connecting_snoc. }
  apply IH; [lia| |].
  - rewrite (take_S_r _ _ _ Hp). apply Forall2_app; [done|]. constructor; [by split|constructor].
  - rewrite attempts_S, sides_snoc. eapply connecting_snoc; [|done]. by eapply connecting_snoc.
Qed.
(** Conversely the verdicts determine the run. *)
Lemma connect_fault_runs providers i p w e w' :
  providers !! i = Some p → connect_fault p i w e w' →
  connect_one io_text passes fuel make providers i w = Ret (Err e, w').
Proof.
  intros Hp Hf. unfold connect_one, mbind, M_bind, pure.
  rewrite (proj2 (index_Some _ _ _) Hp).
  destruct Hf; unfold connect_http, connect_quic, mbind, M_bind, pure;
    repeat match goal with E : _ = _ |- _ => rewrite E; clear E end; done.
Qed.

Lemma connecting_snoc_inv providers w ks i cs w' :
  connecting providers w (ks ++ [i]) cs w' →
  ∃ cs0 w1 c, cs = cs0 ++ [c] ∧ connecting providers w ks cs0 w1 ∧
    connect_one io_text passes fuel make providers i w1 = Ret (Ok c, w').
Proof.
  inversion 1 as [|ks0 cs0 w1 i0 c w2 Hk Hc]; [by destruct ks|].
  match goal with E : _ ++ [_] = _ ++ [_] |- _ => apply app_inj_tail in E as [-> ->] end.
  by exists cs0, w1, c.
Qed.

(** The loop after both sides of the first [k] providers. *)
Lemma connecting_runs providers w k cs w1 :
  (k ≤ length providers)%nat → connecting providers w (attempts k) cs w1 →
  ∃ pairs, let ds := (λ ab, dual_new ab.1 ab.2) <$> pairs in sides ds = cs ∧ length ds = k ∧
    connect_dual_all io_text passes fuel make providers w
    = connect_duals io_text passes fuel make providers (length providers - k) k ds w1.
Proof.
  revert cs w1. induction k as [|k IH]; intros cs w1 Hk Hc.
  { exists []. rewrite Nat.sub_0_r. inversion Hc as [|ks]; [done|]. by destruct ks. }
  rewrite attempts_S in Hc. apply connecting_snoc_inv in Hc as (cs1&w2&b&->&Hc&Hb).
  apply connecting_snoc_inv in Hc as (cs0&w3&a&->&Hc&Ha).
  destruct (IH cs0 w3 ltac:(lia) Hc) as (pairs&Hs&Hl&Hr).
  exists (pairs ++ [(a, b)]). cbn zeta. rewrite fmap_app. cbn [fmap list_fmap].
  rewrite sides_snoc, Hs, length_app, Hl. split; [done|]. split; [cbn; lia|].
  rewrite Hr. replace (length providers - k)%nat with (S (length providers - S k)) by lia.
  cbn [connect_duals]. unfold mbind, M_bind. by rewrite Ha, Hb.
Qed.

Lemma sides_pairs providers ds pairs :
  Forall2 good_dual providers ds → sides ((λ ab, dual_new ab.1 ab.2) <$> pairs) = sides ds →
  (λ ab, dual_new ab.1 ab.2) <$> pairs = ds.
Proof.
  intros Hg. revert pairs. induction Hg as [|p d providers ds (_&_&Ha&Hs) _ IH]; intros [|[a b] pairs];
    cbn; [done..|].
  intros [= -> -> Hr]. f_equal; [|by apply IH]. destruct d as [[ca ha] [cs hs]]. cbn in *. by subst.
Qed.

Lemma all_or_error_runs providers w r w' :
  all_or_error providers w r w' →
  connect_dual_all io_text passes fuel make providers w = Ret (r, w').
Proof.
  destruct r as [ds|e]; cbn [all_or_error].
  - intros [Hg Hc]. destruct (connecting_runs _ _ _ _ _ (le_n _) Hc) as (pairs&Hs&_&->).
    rewrite Nat.sub_diag. cbn. by rewrite (sides_pairs providers ds pairs).
  - intros (i&p&again&cs&w1&Hp&Hc&Hf%(connect_fault_runs providers)); [|done].
    pose proof (lookup_lt_Some _ _ _ Hp) as Hi. destruct again.
    + apply connecting_snoc_inv in Hc as (cs0&w0&a&->&Hc&Ha).
      destruct (connecting_runs _ _ _ _ _ (Nat.lt_le_incl _ _ Hi) Hc) as (pairs&_&_&->).
      replace (length providers - i)%nat with (S (length providers - S i)) by lia.
      cbn [connect_duals]. unfold mbind, M_bind. by rewrite Ha, Hf.
    + rewrite app_nil_r in Hc.
      destruct (connecting_runs _ _ _ _ _ (Nat.lt_le_incl _ _ Hi) Hc) as (pairs&_&_&->).
      replace (length providers - i)%nat with (S (length providers - S i)) by lia.
      cbn [connect_duals]. unfold mbind, M_bind. by rewrite Hf.
Qed.
End connect_lemmas.

(** C26: connecting is all or nothing and says who failed. [connect_dual_all]
    returns pairs exactly when every provider was connected twice, in order,
    and then gives one pair per provider, each of the provider's protocol, both
    sides healthy and with nothing in flight; it returns an error exactly when
    some call failed, the calls before it (both sides of the earlier providers,
    and perhaps the first side of this one) having succeeded, none is made after
    it, and the error is that call's: it names this provider and carries the
    cause, except that an error of making the byte transport is handed on as it
    is and names no provider. *)
Theorem connect_all_or_error `{BuildProfile, ByteIo W B C, Tls T, Libc W, Clock W, Quinn QC E Cfg,
    QuicCert W Cfg} io_text passes fuel (make : nat → M W (result B SenderError)) providers w r w' :
  connect_dual_all (T := T) io_text passes fuel make providers w = Ret (r, w') ↔
  match r with
  | Ok ds =>
      Forall2 good_dual providers ds ∧
      connecting io_text passes fuel make providers w (attempts (length providers)) (sides ds) w'
  | Err e =>
      ∃ i p again cs w1, providers !! i = Some p ∧
        connecting io_text passes fuel make providers w
          (attempts i ++ if again : bool then [i] else []) cs w1 ∧
        connect_fault (T := T) io_text passes fuel make p i w1 e w'
  end.
Proof.
  split; [|apply all_or_error_runs]. intros Hr.
  assert (post (connect_dual_all io_text passes fuel make providers) w
    (all_or_error io_text passes fuel make providers w)) as Hp
    by (apply connect_duals_post; [done|constructor..]).
  unfold post in Hp. by rewrite Hr in Hp.
Qed.
