(* ===== verification/QuicCert.v ===== *)
(** The client certificates and the TLS configuration of QUIC providers,
    protocol/quic_cert.rs, over classes for rcgen, rustls and quinn-proto. *)
From S2P Require Import Prelude Types Connect.
From stdpp Require Import options.

(** * The crates *)

(** [rcgen::CertificateParams]; what is not set has its default. *)
Record CertificateParams := mkCertificateParams {
  cp_common_name : option bytes;
  cp_validity : option ((Z * Z * Z) * (Z * Z * Z));
}.
Definition params_default : CertificateParams := mkCertificateParams None None.

(** [rcgen], with key pairs [K]. An error is its message. The world holds the
    source of the random numbers of keys and signatures. *)
Class Rcgen (W K : Type) := {
  from_pkcs8_der_ed25519 : bytes → result K bytes;
  generate_for_p256 : W → result K bytes * W;
  self_signed : CertificateParams → K → W → result bytes bytes * W;
  serialize_der : K → bytes;
}.

Inductive SignatureScheme := ED25519 | ECDSA_NISTP256_SHA256 | RSA_PSS_SHA256 | RSA_PKCS1_SHA256.

(** [rustls::client::danger::ServerCertVerifier]. *)
Record ServerCertVerifier := mkServerCertVerifier {
  verify_server_cert : bytes → list bytes → bytes → bytes → Z → result unit bytes;
  verify_tls12_signature : bytes → bytes → bytes → result unit bytes;
  verify_tls13_signature : bytes → bytes → bytes → result unit bytes;
  supported_verify_schemes : list SignatureScheme;
}.

(** [rustls::ClientConfig]. *)
Record TlsConfig := mkTlsConfig {
  tc_verifier : ServerCertVerifier;
  tc_client_auth : option (list bytes * bytes);
  tc_alpn_protocols : list bytes;
}.

(** What rustls and quinn-proto check when a configuration is made, with QUIC
    crypto configurations [QT]. [ClientConfig::builder] panics when the process
    has no default crypto provider. *)
Class QuicTls (W QT : Type) := {
  has_crypto_provider : W → bool;
  check_client_auth : list bytes → bytes → result unit bytes;
  quic_try_from : TlsConfig → result QT bytes;
  varint_bounds_exceeded : bytes;
}.

(** [quinn_proto::ClientConfig] with the fields of its transport that are set. *)
Record ClientConfig (QT : Type) := mkClientConfig {
  cc_crypto : QT;
  cc_max_idle_timeout : option Z;
  cc_keep_alive_interval : option Z;
  cc_max_concurrent_uni_streams : Z;
}.
Arguments mkClientConfig {QT}.
Arguments cc_crypto {QT}.
Arguments cc_max_idle_timeout {QT}.
Arguments cc_keep_alive_interval {QT}.
Arguments cc_max_concurrent_uni_streams {QT}.

(** * The file *)

Definition ED25519_PKCS8_PREFIX : bytes :=
  [x30; x2e; x02; x01; x00; x30; x05; x06; x03; x2b; x65; x70; x04; x22; x04; x20].

Definition NoVerifier : ServerCertVerifier := {|
  verify_server_cert := λ _ _ _ _ _, Ok ();
  verify_tls12_signature := λ _ _ _, Ok ();
  verify_tls13_signature := λ _ _ _, Ok ();
  supported_verify_schemes :=
    [ED25519; ECDSA_NISTP256_SHA256; RSA_PSS_SHA256; RSA_PKCS1_SHA256];
|}.

(** [r?] on the result of a call, the error turned into a
    [TransportError::Quic]. *)
Definition or_quic {W A B} (prefix : bytes) (r : W → result A bytes * W)
    (k : A → M W (result B TransportError)) : M W (result B TransportError) :=
  r ← call r;
  match r with
  | Ok a => k a
  | Err e => mret (Err (TQuic (prefix ++ e)))
  end.

Section cert.
Context `{Rcgen W K} `{QuicTls W QT}.

(** [VarInt::from_u64]. *)
Definition varint_from_u64 (x : Z) : result Z bytes :=
  if x <? 2 ^ 62 then Ok x else Err (varint_bounds_exceeded (W := W) (QT := QT)).

Definition finish_client_config (rustls_cfg : TlsConfig) (profile : QuicProfile) :
    M W (result (ClientConfig QT) TransportError) :=
  let rustls_cfg := mkTlsConfig (tc_verifier rustls_cfg) (tc_client_auth rustls_cfg)
                      [qp_alpn profile] in
  or_quic [] (pair (quic_try_from (W := W) rustls_cfg)) (λ quic_cfg,
  or_quic [] (pair (varint_from_u64 (qp_idle_timeout_ms profile))) (λ idle,
  mret (Ok (mkClientConfig quic_cfg (Some idle) (Some (qp_keepalive_interval_secs profile))
              (qp_max_streams_uni profile))))).

(** The PKCS #8 text of the seed, the first half of the 64 bytes of a pair. *)
Definition pkcs8_v1 (keypair : bytes) : bytes := ED25519_PKCS8_PREFIX ++ take 32 keypair.

Definition build_ed25519_cert (keypair : bytes) : M W (result (list bytes * bytes) TransportError) :=
  or_quic (str "keypair: ") (pair (from_pkcs8_der_ed25519 (W := W) (pkcs8_v1 keypair))) (λ key_pair,
  or_quic (str "self-sign: ") (self_signed params_default key_pair) (λ cert,
  mret (Ok ([cert], pkcs8_v1 keypair)))).

Definition build_falcon_cert (api_key : bytes) : M W (result (list bytes * bytes) TransportError) :=
  or_quic (str "keygen: ") generate_for_p256 (λ key_pair,
  let params := mkCertificateParams (Some api_key) (Some ((1970, 1, 1), (4096, 1, 1))) in
  or_quic (str "self-sign: ") (self_signed params key_pair) (λ cert,
  mret (Ok ([cert], serialize_der (W := W) key_pair)))).

(** [rustls::ClientConfig::builder()]. *)
Definition config_builder : M W () := λ w,
  if has_crypto_provider (QT := QT) w then Ret ((), w) else Panic.

(** [.with_client_auth_cert(certs, key)], after [builder()], and what follows. *)
Definition with_client_auth (profile : QuicProfile) (ck : list bytes * bytes) :
    M W (result (ClientConfig QT) TransportError) :=
  _ ← config_builder;
  or_quic (str "client cert: ") (pair (check_client_auth (W := W) (QT := QT) ck.1 ck.2)) (λ _,
  finish_client_config (mkTlsConfig NoVerifier (Some ck) []) profile).

(** [build_quic_client_config]. *)
Definition client_config (profile : QuicProfile) (auth : QuicAuth) :
    M W (result (ClientConfig QT) TransportError) :=
  match auth with
  | NoCert =>
      _ ← config_builder;
      finish_client_config (mkTlsConfig NoVerifier None []) profile
  | Ed25519Keypair kp =>
      ck ← build_ed25519_cert kp;
      match ck with
      | Ok ck => with_client_auth profile ck
      | Err e => mret (Err e)
      end
  | FalconApiKey api_key =>
      ck ← build_falcon_cert api_key;
      match ck with
      | Ok ck => with_client_auth profile ck
      | Err e => mret (Err e)
      end
  end.

#[export] Instance crate_cert : QuicCert W (ClientConfig QT) := client_config.
End cert.

(** * The key as PKCS #8 *)

(** A DER value with the given tag and a one-byte length, and what follows. *)
Definition der (tag : byte) (l : bytes) : option (bytes * bytes) :=
  match l with
  | t :: n :: rest =>
      if Byte.eqb t tag && (b2z n <? 128) && (b2z n <=? zlen rest)
      then Some (take (Z.to_nat (b2z n)) rest, drop (Z.to_nat (b2z n)) rest)
      else None
  | _ => None
  end.

(** The Ed25519 seed in a private key of RFC 8410: a sequence of the version 0,
    the algorithm 1.3.101.112 and an octet string that holds the octet string
    of the seed, with nothing left over. *)
Definition ed25519_seed (l : bytes) : option bytes :=
  '(key, end1) ← der x30 l;
  '(version, l) ← der x02 key;
  '(alg, l) ← der x30 l;
  '(oid, end2) ← der x06 alg;
  '(outer, end3) ← der x04 l;
  '(seed, end4) ← der x04 outer;
  if bool_decide (version = [x00] ∧ oid = [x2b; x65; x70] ∧ end1 = [] ∧ end2 = [] ∧ end3 = [] ∧
                  end4 = [] ∧ length seed = 32%nat)
  then Some seed else None.

Lemma der_app tag n body rest :
  b2z n < 128 → zlen body = b2z n → der tag (tag :: n :: body ++ rest) = Some (body, rest).
Proof.
  intros Hn Hb. unfold der. rewrite byte_eqb_refl, (proj2 (Z.ltb_lt _ _)) by done.
  rewrite (proj2 (Z.leb_le _ _)) by (rewrite zlen_app; pose proof (zlen_nonneg rest); lia).
  cbn [andb]. rewrite <- Hb, to_nat_zlen, take_app_length, drop_app_length. done.
Qed.

Lemma der_all tag n body :
  b2z n < 128 → zlen body = b2z n → der tag (tag :: n :: body) = Some (body, []).
Proof. intros Hn Hb. rewrite <- (app_nil_r body) at 1. by apply der_app. Qed.

Lemma pkcs8_v1_seed keypair :
  length keypair = 64%nat → ed25519_seed (pkcs8_v1 keypair) = Some (take 32 keypair).
Proof.
  intros Hk. unfold ed25519_seed, pkcs8_v1, ED25519_PKCS8_PREFIX. cbn [app].
  assert (zlen (take 32 keypair) = 32) as Hs by (unfold zlen; rewrite length_take, Hk; done).
  rewrite der_all by (try done; rewrite !zlen_cons, Hs; done). cbn [mbind option_bind].
  change (x02 :: x01 :: x00 :: ?l) with (x02 :: x01 :: [x00] ++ l).
  rewrite der_app by done. cbn [mbind option_bind].
  change (x30 :: x05 :: x06 :: x03 :: x2b :: x65 :: x70 :: ?l)
    with (x30 :: x05 :: [x06; x03; x2b; x65; x70] ++ l).
  rewrite der_app by done. cbn [mbind option_bind].
  rewrite (der_all x06 x03) by done. cbn [mbind option_bind].
  rewrite der_all by (try done; rewrite !zlen_cons, Hs; done). cbn [mbind option_bind].
  rewrite der_all by (try done; rewrite Hs; done). cbn [mbind option_bind].
  rewrite bool_decide_true; [done|]. repeat split. rewrite length_take, Hk. done.
Qed.

(** * The configuration *)

(** The client authentication that the choice of the provider asks for, made in
    world [w]. *)
Definition auth_matches `{Rcgen W K} (w : W) (auth : QuicAuth) (ca : option (list bytes * bytes)) :
    Prop :=
  match auth with
  | NoCert => ca = None
  | Ed25519Keypair kp => ∃ (k : K) cert w', ca = Some ([cert], pkcs8_v1 kp) ∧
      ed25519_seed (pkcs8_v1 kp) = Some (take 32 kp) ∧
      from_pkcs8_der_ed25519 (W := W) (pkcs8_v1 kp) = Ok k ∧
      self_signed params_default k w = (Ok cert, w')
  | FalconApiKey api_key => ∃ (k : K) p cert w1 w', ca = Some ([cert], serialize_der (W := W) k) ∧
      generate_for_p256 w = (Ok k, w1) ∧ cp_common_name p = Some api_key ∧
      cp_validity p = Some ((1970, 1, 1), (4096, 1, 1)) ∧ self_signed p k w1 = (Ok cert, w')
  end.

(** [auth] as its Rust type has it: a pair of 64 bytes. *)
Definition auth_typed (auth : QuicAuth) : Prop :=
  match auth with Ed25519Keypair kp => length kp = 64%nat | _ => True end.

Section config.
Context `{Rcgen W K} `{QuicTls W QT}.

(** What a configuration made for [profile] and [auth] in world [w] is made of. *)
Definition configured (w : W) (profile : QuicProfile) (auth : QuicAuth) (cfg : ClientConfig QT) :
    Prop :=
  ∃ tls, quic_try_from (W := W) tls = Ok (cc_crypto cfg) ∧
    tc_alpn_protocols tls = [qp_alpn profile] ∧ auth_matches w auth (tc_client_auth tls) ∧
    tc_verifier tls = NoVerifier ∧
    cc_max_idle_timeout cfg = Some (qp_idle_timeout_ms profile) ∧ qp_idle_timeout_ms profile < 2 ^ 62 ∧
    cc_keep_alive_interval cfg = Some (qp_keepalive_interval_secs profile) ∧
    cc_max_concurrent_uni_streams cfg = qp_max_streams_uni profile.

(** How the call may end. *)
Definition config_outcome (w : W) profile auth
    (r : outcome (result (ClientConfig QT) TransportError * W)) : Prop :=
  match r with
  | Ret (Ok cfg, _) => configured w profile auth cfg
  | Ret (Err e, _) => ∃ msg, e = TQuic msg
  | Panic => ∃ w', has_crypto_provider (QT := QT) w' = false
  | OutOfFuel => False
  end.

Lemma finish_configured tls profile auth w w' :
  tc_verifier tls = NoVerifier → auth_matches w auth (tc_client_auth tls) →
  config_outcome w profile auth (finish_client_config tls profile w').
Proof.
  intros Hv Ha. unfold finish_client_config, or_quic, varint_from_u64, mbind, M_bind, call.
  destruct (quic_try_from _) as [q|e] eqn:Hq; [|by eexists].
  destruct (Z.ltb_spec (qp_idle_timeout_ms profile) (2 ^ 62)); [|by eexists].
  eexists. split; [done|]. by split_and!.
Qed.

Lemma with_client_auth_configured profile auth ck w w' :
  auth_matches w auth (Some ck) → config_outcome w profile auth (with_client_auth profile ck w').
Proof.
  intros Ha. unfold with_client_auth, config_builder, mbind, M_bind.
  destruct (has_crypto_provider w') eqn:Hb; [|by eexists]. unfold or_quic, mbind, M_bind, call.
  destruct (check_client_auth _ _); [|by eexists]. by apply finish_configured.
Qed.

Lemma client_config_outcome profile auth w :
  auth_typed auth → config_outcome w profile auth (client_config profile auth w).
Proof.
  intros Ht. destruct auth as [kp|api_key|]; cbn [client_config];
    unfold build_ed25519_cert, build_falcon_cert, or_quic, call, mbind, M_bind.
  - destruct (from_pkcs8_der_ed25519 _) as [k|] eqn:Hk; [|by eexists].
    destruct (self_signed _ k w) as [[cert|] w1] eqn:Hc; [|by eexists].
    apply with_client_auth_configured. exists k, cert, w1. by rewrite pkcs8_v1_seed.
  - destruct (generate_for_p256 w) as [[k|] w1] eqn:Hk; [|by eexists].
    destruct (self_signed _ k w1) as [[cert|] w2] eqn:Hc; [|by eexists].
    apply with_client_auth_configured.
    by exists k, (mkCertificateParams (Some api_key) (Some ((1970, 1, 1), (4096, 1, 1)))), cert, w1, w2.
  - unfold config_builder. destruct (has_crypto_provider w) eqn:Hb; [|by eexists].
    by apply finish_configured.
Qed.
End config.

(** C30: the configuration a QUIC provider gets is the one its profile and its
    authentication ask for, or the call reports a QUIC error; it panics only
    when rustls finds no default crypto provider. The profile's ALPN is the only
    one offered, and its idle time-out, keep-alive and stream limit are set; a
    key pair becomes an RFC 8410 private key that holds its seed, with a
    certificate signed by it; an API key becomes the common name of a
    certificate, valid from 1970 to 4096, of the key generated in this call;
    without either there is no client certificate. In every case the server's
    certificate is accepted unseen. *)
Theorem quic_client_config_spec `{Rcgen W K} `{QuicTls W QT} profile auth (w : W) :
  auth_typed auth →
  match client_config (K := K) (QT := QT) profile auth w with
  | Ret (Ok cfg, _) => configured (K := K) w profile auth cfg
  | Ret (Err e, _) => ∃ msg, e = TQuic msg
  | Panic => ∃ w', has_crypto_provider (QT := QT) w' = false
  | OutOfFuel => False
  end.
Proof. apply client_config_outcome. Qed.

(** Crates that accept everything; the world counts the keys made. *)
#[export] Instance toy_rcgen : Rcgen nat bytes := {
  from_pkcs8_der_ed25519 := Ok;
  generate_for_p256 n := (Ok (replicate n x2a), S n);
  self_signed _ k n := (Ok k, n);
  serialize_der k := k;
}.
#[export] Instance toy_quic_tls : QuicTls nat TlsConfig := {
  has_crypto_provider _ := true;
  check_client_auth _ _ := Ok ();
  quic_try_from := Ok;
  varint_bounds_exceeded := str "value too large for varint encoding";
}.

Lemma quic_client_config_spec_witness :
  (∃ cfg, client_config (K := bytes) (QT := TlsConfig) QuicProfile_soyas
      (Ed25519Keypair (replicate 64 x2a)) 0%nat = Ret (Ok cfg, 0%nat) ∧
    configured (K := bytes) 0%nat QuicProfile_soyas (Ed25519Keypair (replicate 64 x2a)) cfg) ∧
  (∃ cfg, client_config (K := bytes) (QT := TlsConfig) QuicProfile_soyas
      (FalconApiKey (str "key")) 5%nat = Ret (Ok cfg, 6%nat) ∧
    configured (K := bytes) 5%nat QuicProfile_soyas (FalconApiKey (str "key")) cfg).
Proof.
  split; (eexists; split; [reflexivity|]).
  - exact (quic_client_config_spec (K := bytes) (QT := TlsConfig) QuicProfile_soyas
      (Ed25519Keypair (replicate 64 x2a)) 0%nat eq_refl).
  - exact (quic_client_config_spec (K := bytes) (QT := TlsConfig) QuicProfile_soyas
      (FalconApiKey (str "key")) 5%nat I).
Defined.
