(* ===== verification/Sender.v ===== *)
(** The public face of the crate: transport/mod.rs (the transport
    specification), transport/builder.rs (the builder, [trigger], [health])
    and transport/spawn.rs (the worker threads). A thread is represented by
    the state its body starts with. *)
From S2P Require Import Prelude Types Ring Lane Quic Conn Reconnect Parallel Sequential Demo Registry.
From stdpp Require Import options.

(** * TransportSpec *)

(** [Mode] and [Tuning] are the io_uring settings. *)
Inductive Engine (Mode Tuning : Type) :=
| SeqRaw
| SeqUring (mode : Mode) (tuning : Tuning)
| ParRaw (cfg : ParallelConfig)
| ParTpa (cfg : ParallelConfig).
Arguments SeqRaw {Mode Tuning}.
Arguments SeqUring {Mode Tuning}.
Arguments ParRaw {Mode Tuning}.
Arguments ParTpa {Mode Tuning}.

Section spec.
Context {Mode Tuning : Type}.

(** [Sequential::raw_libc], [Sequential::io_uring], [Parallel::raw_libc] and
    [Parallel::libtpa]. *)
Definition seq_raw_libc : Engine Mode Tuning := SeqRaw.
Definition seq_io_uring (default_tuning : Tuning) (mode : Mode) : Engine Mode Tuning :=
  SeqUring mode default_tuning.
Definition par_raw_libc : Engine Mode Tuning := ParRaw parallel_config_default.
Definition par_libtpa : Engine Mode Tuning := ParTpa parallel_config_default.

Definition affinity (spec : Engine Mode Tuning) (cores : CoreSet) : Engine Mode Tuning :=
  match spec with
  | ParRaw cfg => ParRaw (mkParallelConfig (Some cores) (pcfg_rt cfg))
  | _ => spec
  end.

Definition rt_priority (spec : Engine Mode Tuning) (priority : Z) : Engine Mode Tuning :=
  match spec with
  | ParRaw cfg => ParRaw (mkParallelConfig (pcfg_affinity cfg) (mkRtConfig (Some priority)))
  | _ => spec
  end.

Definition tuning (spec : Engine Mode Tuning) (t : Tuning) : Engine Mode Tuning :=
  match spec with
  | SeqUring mode _ => SeqUring mode t
  | _ => spec
  end.
End spec.

(** * Trigger *)

Inductive Dispatch (Q : Type → Type) :=
| Single (tx : Spsc Q Job)
| Fanout (txs : list (Spsc Q Job)).
Arguments Single {Q}.
Arguments Fanout {Q}.

Section trigger.
Context `{BoundedQueue Q}.

(** The loop over the workers' rings: whether every push went in. *)
Fixpoint push_all (txs : list (Spsc Q Job)) (job : Job) (ok : bool) : bool * list (Spsc Q Job) :=
  match txs with
  | [] => (ok, [])
  | tx :: txs =>
      let '(r, tx) := try_push job tx in
      let '(ok, txs) := push_all txs job (if is_ok r then ok else false) in
      (ok, tx :: txs)
  end.

Definition trigger (d : Dispatch Q) (job : Job) : result unit TriggerError * Dispatch Q :=
  match d with
  | Single tx =>
      let '(r, tx) := try_push job tx in
      (if is_ok r then Ok () else Err Backpressure, Single tx)
  | Fanout txs =>
      let '(ok, txs) := push_all txs job true in
      (if ok then Ok () else Err Backpressure, Fanout txs)
  end.
End trigger.

(** * Health *)

Record ProviderHealthEntry := mkHealthEntry {
  he_provider_idx : nat;
  he_alive : bool;
  he_jobs_sent : Z;
  he_fill_ns : HistSnapshot;
  he_submit_ns : HistSnapshot;
}.

Definition health (diag : list WorkerDiag) : list ProviderHealthEntry :=
  imap (λ i w, mkHealthEntry i (wd_alive w) (wd_jobs_sent w) (wd_fill_ns w) (wd_submit_ns w)) diag.

(** * The builder *)

Record SenderBuilder (Mode Tuning Src Snk Tls : Type) := mkSenderBuilder {
  sb_transport : option (Engine Mode Tuning);
  sb_providers : list ProviderConfig;
  sb_source : option Src;
  sb_sink : option Snk;
  sb_tls : option Tls;
}.
Arguments mkSenderBuilder {Mode Tuning Src Snk Tls}.
Arguments sb_transport {Mode Tuning Src Snk Tls}.
Arguments sb_providers {Mode Tuning Src Snk Tls}.
Arguments sb_source {Mode Tuning Src Snk Tls}.
Arguments sb_sink {Mode Tuning Src Snk Tls}.
Arguments sb_tls {Mode Tuning Src Snk Tls}.

Section builder.
Context {Mode Tuning Src Snk Tls : Type}.
Abbreviation builder := (SenderBuilder Mode Tuning Src Snk Tls).

Definition sender_builder : builder := mkSenderBuilder None [] None None None.
Definition set_transport (b : builder) (spec : Engine Mode Tuning) : builder :=
  mkSenderBuilder (Some spec) (sb_providers b) (sb_source b) (sb_sink b) (sb_tls b).
Definition set_tls (b : builder) (cfg : Tls) : builder :=
  mkSenderBuilder (sb_transport b) (sb_providers b) (sb_source b) (sb_sink b) (Some cfg).
Definition add_provider (b : builder) (p : ProviderConfig) : builder :=
  mkSenderBuilder (sb_transport b) (sb_providers b ++ [p]) (sb_source b) (sb_sink b) (sb_tls b).
Definition set_source (b : builder) (s : Src) : builder :=
  mkSenderBuilder (sb_transport b) (sb_providers b) (Some s) (sb_sink b) (sb_tls b).
Definition set_sink (b : builder) (s : Snk) : builder :=
  mkSenderBuilder (sb_transport b) (sb_providers b) (sb_source b) (Some s) (sb_tls b).

(** The checks at the start of [build], in their order. *)
Definition build_checks (b : builder) : result (Engine Mode Tuning * Tls * Src * Snk) SenderError :=
  match sb_providers b with
  | [] => Err NoProviders
  | _ =>
      match sb_transport b, sb_tls b, sb_source b, sb_sink b with
      | None, _, _, _ => Err NoTransport
      | _, None, _, _ => Err NoTls
      | _, _, None, _ => Err NoSource
      | _, _, _, None => Err NoSink
      | Some spec, Some tls, Some source, Some sink => Ok (spec, tls, source, sink)
      end
  end.
End builder.

(** * Threads *)

(** A parallel worker's thread: what it pins itself to and its priority. *)
Record ParThread (Q X : Type → Type) (CS : Type) := mkParThread {
  pt_worker : ParWorker Q X CS;
  pt_core : option Z;
  pt_prio : option Z;
}.
Arguments mkParThread {Q X CS}.
Arguments pt_worker {Q X CS}.
Arguments pt_core {Q X CS}.
Arguments pt_prio {Q X CS}.

(** A libtpa worker's thread, which makes its connections itself. *)
Record TpaThread (Q X : Type → Type) (CS : Type) := mkTpaThread {
  tt_idx : nat;
  tt_trigger : Spsc Q Job;
  tt_result_tx : Spsc Q RawResp;
  tt_req_tx : X ReconnectReq;
  tt_resp_rx : X (ReconnectResp CS);
  tt_diag : WorkerDiag;
  tt_core : option Z;
  tt_prio : option Z;
}.
Arguments mkTpaThread {Q X CS}.
Arguments tt_idx {Q X CS}.
Arguments tt_trigger {Q X CS}.
Arguments tt_result_tx {Q X CS}.
Arguments tt_req_tx {Q X CS}.
Arguments tt_resp_rx {Q X CS}.
Arguments tt_diag {Q X CS}.
Arguments tt_core {Q X CS}.
Arguments tt_prio {Q X CS}.

(** The threads [build] has started: the result lane, the reconnect thread,
    the sequential worker, the parallel workers, the libtpa workers. *)
Record Threads (Q X : Type → Type) (CS : Type) := mkThreads {
  th_lane : option (ResultLane Q);
  th_reconnect : option (ReconnectLoop X CS);
  th_seq : option (SeqWorker Q X CS);
  th_par : list (ParThread Q X CS);
  th_tpa : list (TpaThread Q X CS);
}.
Arguments mkThreads {Q X CS}.
Arguments th_lane {Q X CS}.
Arguments th_reconnect {Q X CS}.
Arguments th_seq {Q X CS}.
Arguments th_par {Q X CS}.
Arguments th_tpa {Q X CS}.

Record Sender (Q X : Type → Type) (CS : Type) := mkSender {
  sd_dispatch : Dispatch Q;
  sd_threads : Threads Q X CS;
  sd_diag : list WorkerDiag;
}.
Arguments mkSender {Q X CS}.
Arguments sd_dispatch {Q X CS}.
Arguments sd_threads {Q X CS}.
Arguments sd_diag {Q X CS}.

Section spawn.
Context `{BoundedQueue Q} `{BoundedQueue X} {CS : Type}.

Definition spawn_seq (duals : list (DualConn CS)) (trigger : Spsc Q Job)
    (result_tx : list (Spsc Q RawResp)) (req_tx : X ReconnectReq)
    (resp_rx : list (X (ReconnectResp CS))) (kind : ConnKind) (diag : list WorkerDiag) :
    SeqWorker Q X CS :=
  let n := length duals in
  mkSeqWorker trigger duals result_tx (replicate n None) req_tx resp_rx kind 0 diag (replicate n 0).

(** The loop of [spawn_parallel] over the zipped connections and channels,
    from provider [i] on; the next ring is allocated at [a]. *)
Fixpoint spawn_workers (a i : nat)
    (zipped : list (DualConn CS * Spsc Q RawResp * X (ReconnectResp CS)))
    (cores : list Z) (prio : option Z) (req_tx : X ReconnectReq) (kind : ConnKind)
    (diag : list WorkerDiag) : outcome (list (Spsc Q Job) * list (ParThread Q X CS)) :=
  match zipped with
  | [] => Ret ([], [])
  | (dual, res_tx, resp_rx) :: zipped =>
      let trig := channel a TRIGGER_RING in
      d ← index diag i;
      let worker := mkParWorker i trig res_tx dual None req_tx resp_rx kind 0 d 0 in
      '(txs, handles) ← spawn_workers (S a) (S i) zipped cores prio req_tx kind diag;
      Ret (trig :: txs, mkParThread worker (cores !! i) prio :: handles)
  end.

Definition spawn_parallel (a : nat) (duals : list (DualConn CS)) (result_tx : list (Spsc Q RawResp))
    (cfg : ParallelConfig) (req_tx : X ReconnectReq) (resp_rx : list (X (ReconnectResp CS)))
    (kind : ConnKind) (diag : list WorkerDiag) : outcome (Dispatch Q * list (ParThread Q X CS)) :=
  let cores := match pcfg_affinity cfg with Some c => core_ids c | None => [] end in
  '(txs, handles) ← spawn_workers a 0 (zip (zip duals result_tx) resp_rx) cores
                      (rt_prio (pcfg_rt cfg)) req_tx kind diag;
  Ret (Fanout txs, handles).

(** The loop of [spawn_parallel_tpa]. *)
Fixpoint spawn_tpa_threads (a i : nat) (zipped : list (Spsc Q RawResp * X (ReconnectResp CS)))
    (cores : list Z) (prio : option Z) (req_tx : X ReconnectReq) (diag : list WorkerDiag) :
    outcome (list (Spsc Q Job) * list (TpaThread Q X CS)) :=
  match zipped with
  | [] => Ret ([], [])
  | (res_tx, resp_rx) :: zipped =>
      let trig := channel a TRIGGER_RING in
      d ← index diag i;
      let thread := mkTpaThread i trig res_tx req_tx resp_rx d (cores !! i) prio in
      '(txs, handles) ← spawn_tpa_threads (S a) (S i) zipped cores prio req_tx diag;
      Ret (trig :: txs, thread :: handles)
  end.

Definition spawn_parallel_tpa (a : nat) (cfg : ParallelConfig) (result_tx : list (Spsc Q RawResp))
    (req_tx : X ReconnectReq) (resp_rx : list (X (ReconnectResp CS))) (diag : list WorkerDiag) :
    outcome (Dispatch Q * list (TpaThread Q X CS)) :=
  let cores := match pcfg_affinity cfg with Some c => core_ids c | None => [] end in
  '(txs, handles) ← spawn_tpa_threads a 0 (zip result_tx resp_rx) cores
                      (rt_prio (pcfg_rt cfg)) req_tx diag;
  Ret (Fanout txs, handles).

(** The body of a libtpa thread up to [worker.run]: [attach] gives the worker
    pointer the transports of both connections share. *)
Definition tpa_body {W P} (attach : M W (result P TransportError))
    (connect : P → nat → M W (result CS SenderError)) (t : TpaThread Q X CS) :
    M W (option (ParWorker Q X CS)) :=
  r ← attach;
  match r with
  | Err _ => mret None
  | Ok ptr =>
      a ← connect ptr (tt_idx t);
      match a with
      | Err _ => mret None
      | Ok a =>
          s ← connect ptr (tt_idx t);
          match s with
          | Err _ => mret None
          | Ok s =>
              mret (Some (mkParWorker (tt_idx t) (tt_trigger t) (tt_result_tx t) (dual_new a s) None
                            (tt_req_tx t) (tt_resp_rx t) KLibTpa 0 (tt_diag t) 0))
          end
      end
  end.
End spawn.

(** * build *)

Section build.
Context `{BoundedQueue Q} `{BoundedQueue X} {W CS Mode Tuning Src Snk Tls : Type}.

(** [connect_dual_all] over the plain sockets and over io_uring. *)
Context (connect_raw : list ProviderConfig → Tls →
           M W (result (list (DualConn CS)) SenderError)).
Context (connect_uring : Mode → Tuning → list ProviderConfig → Tls →
           M W (result (list (DualConn CS)) SenderError)).
(** [TpaRuntime::start]. *)
Context (tpa_start : Z → Z → M W (result unit TransportError)).

(** The rings, the lane that is started before the connections are made, and
    the diagnostics slots. The channels are at addresses in the order of their
    allocation: the result rings, the channels of fresh connections, the channel
    of requests, the trigger rings. *)
Definition result_rings (providers : list ProviderConfig) : list (Spsc Q RawResp) :=
  imap (λ i (_ : ProviderConfig), channel i RESULT_RING) providers.
Definition start_lane (providers : list ProviderConfig) : ResultLane Q :=
  mkResultLane (result_rings providers) (pc_codec <$> providers).
Definition diag_slots (providers : list ProviderConfig) : list WorkerDiag :=
  replicate (length providers) diag_default.
Definition resp_channels (providers : list ProviderConfig) : list (X (ReconnectResp CS)) :=
  imap (λ i (_ : ProviderConfig), bq_new (length providers + i) RESP_RING) providers.
Definition req_address (providers : list ProviderConfig) : nat := 2 * length providers.
Definition trigger_address (providers : list ProviderConfig) : nat := S (req_address providers).

Definition only_lane (providers : list ProviderConfig) : Threads Q X CS :=
  mkThreads (Some (start_lane providers)) None None [] [].

(** The end of [build] for the sequential engines. *)
Definition finish_seq (providers : list ProviderConfig) (kind : ConnKind)
    (duals : list (DualConn CS)) : Sender Q X CS :=
  let '(req, reconnect) := reconnect_spawn (req_address providers) (resp_channels providers) in
  let trig := channel (trigger_address providers) TRIGGER_RING in
  let worker := spawn_seq duals trig (result_rings providers) req (resp_channels providers) kind
                  (diag_slots providers) in
  mkSender (Single trig)
    (mkThreads (Some (start_lane providers)) (Some reconnect)
       (Some worker) [] [])
    (diag_slots providers).

(** The end of [build] for the parallel engine over plain sockets. *)
Definition finish_par (providers : list ProviderConfig) (cfg : ParallelConfig)
    (duals : list (DualConn CS)) : outcome (Sender Q X CS) :=
  let '(req, reconnect) := reconnect_spawn (req_address providers) (resp_channels providers) in
  '(d, handles) ← spawn_parallel (trigger_address providers) duals (result_rings providers) cfg req
                    (resp_channels providers) KRawLibc (diag_slots providers);
  Ret (mkSender d
         (mkThreads (Some (start_lane providers)) (Some reconnect)
            None handles [])
         (diag_slots providers)).

(** The end of [build] for the parallel engine over libtpa. *)
Definition finish_tpa (providers : list ProviderConfig) (cfg : ParallelConfig) :
    outcome (Sender Q X CS) :=
  let '(req, reconnect) := reconnect_spawn (req_address providers) (resp_channels providers) in
  '(d, handles) ← spawn_parallel_tpa (trigger_address providers) cfg (result_rings providers) req
                    (resp_channels providers) (diag_slots providers);
  Ret (mkSender d
         (mkThreads (Some (start_lane providers)) (Some reconnect)
            None [] handles)
         (diag_slots providers)).

(** [self.providers.len() as i32]. *)
Definition as_i32 (n : nat) : Z := (Z.of_nat n + 2 ^ 31) mod U32 - 2 ^ 31.

(** [build]: the sender, or the error and the threads that were started before
    it. *)
Definition build (b : SenderBuilder Mode Tuning Src Snk Tls) :
    M W (result (Sender Q X CS) (SenderError * Threads Q X CS)) :=
  match build_checks b with
  | Err e => mret (Err (e, mkThreads None None None [] []))
  | Ok (spec, tls, _, _) =>
      let providers := sb_providers b in
      let started := only_lane providers in
      match spec with
      | SeqRaw =>
          r ← connect_raw providers tls;
          mret (match r with
                | Err e => Err (e, started)
                | Ok duals => Ok (finish_seq providers KRawLibc duals)
                end)
      | SeqUring mode tun =>
          r ← connect_uring mode tun providers tls;
          mret (match r with
                | Err e => Err (e, started)
                | Ok duals => Ok (finish_seq providers KIoUring duals)
                end)
      | ParRaw cfg =>
          r ← connect_raw providers tls;
          match r with
          | Err e => mret (Err (e, started))
          | Ok duals =>
              s ← pure (finish_par providers cfg duals);
              mret (Ok s)
          end
      | ParTpa cfg =>
          r ← tpa_start (as_i32 (length providers)) 0;
          match r with
          | Err e => mret (Err (SConnect 0 e, started))
          | Ok _ =>
              s ← pure (finish_tpa providers cfg);
              mret (Ok s)
          end
      end
  end.
End build.

(** * Trigger: what it promises *)

Definition has_room `{QueueView Q} (tx : Spsc Q Job) : bool := (length (items tx) <? room tx)%nat.

(** A ring after an attempt to push [job]. *)
Definition pushed `{QueueView Q} (job : Job) (tx tx' : Spsc Q Job) : Prop :=
  items tx' = items tx ++ (if has_room tx then [job] else []) ∧ room tx' = room tx.

Section trigger_lemmas.
Context `{QL : QueueLaws Q}.

Lemma try_push_pushed job (tx : Spsc Q Job) : pushed job tx (try_push job tx).2.
Proof using QL. split; [apply try_push_items|apply try_push_room_eq]. Qed.

Lemma push_all_spec txs job ok :
  (push_all txs job ok).1 = ok && forallb has_room txs ∧
  Forall2 (pushed job) txs (push_all txs job ok).2.
Proof using QL.
  revert ok. induction txs as [|tx txs IH]; intros ok; cbn [push_all forallb].
  { by rewrite andb_true_r. }
  pose proof (try_push_ok job tx) as Hok. pose proof (try_push_pushed job tx) as Hp.
  destruct (try_push job tx) as [r tx']. cbn [fst snd] in *.
  specialize (IH (if is_ok r then ok else false)). destruct (push_all txs job _) as [ok' txs'].
  cbn [fst snd] in *. destruct IH as [-> HF]. split; [|by constructor].
  rewrite Hok. unfold has_room at 2. by destruct ok, (_ <? _)%nat.
Qed.
End trigger_lemmas.

(** C20: [Sender::trigger] never blocks and never loses a queued job. With one
    ring it is accepted exactly when there is room. With one ring per provider
    it reports success exactly when every ring had room; on backpressure the
    providers that had room have the job all the same, so a caller that
    retries sends it to them twice. *)
Theorem trigger_spec `{QueueLaws Q} (d : Dispatch Q) job :
  match d, (trigger d job).2 with
  | Single tx, Single tx' =>
      pushed job tx tx' ∧ ((trigger d job).1 = Ok () ↔ has_room tx = true)
  | Fanout txs, Fanout txs' =>
      Forall2 (pushed job) txs txs' ∧
      ((trigger d job).1 = Ok () ↔ Forall (λ tx, has_room tx = true) txs)
  | _, _ => False
  end.
Proof.
  destruct d as [tx|txs]; cbn [trigger].
  - pose proof (try_push_ok job tx) as Hok. pose proof (try_push_pushed job tx) as Hp.
    destruct (try_push job tx) as [r tx']. cbn [fst snd] in *. split; [done|].
    unfold has_room. rewrite <- Hok. by destruct (is_ok r).
  - destruct (push_all_spec txs job true) as [Hok Hp].
    destruct (push_all txs job true) as [ok txs']. cbn [fst snd] in *. split; [done|].
    rewrite List.Forall_forall, <- forallb_forall, Hok. cbn [andb]. by destruct (forallb _ _).
Qed.

Lemma trigger_spec_witness :
  let full := mkSpsc (mkListQueue [mkJob 1 0] 1) 1 in
  let free := mkSpsc (mkListQueue [] 1) 0 in
  trigger (Fanout [full; free] : Dispatch list_queue) (mkJob 2 0)
    = (Err Backpressure, Fanout [full; mkSpsc (mkListQueue [mkJob 2 0] 1) 1]) ∧
  Forall2 (pushed (mkJob 2 0)) [full; free] [full; mkSpsc (mkListQueue [mkJob 2 0] 1) 1].
Proof.
  intros full free. split; [reflexivity|].
  exact (proj1 (trigger_spec (Fanout [full; free] : Dispatch list_queue) (mkJob 2 0))).
Defined.

(** * Build: how the threads are wired *)

(** Thread [i] of a parallel sender: provider [i]'s connections, empty rings of
    the full capacity, nothing in flight, and its configured core. *)
Record thread_wired `{QueueView Q} {X CS} (cfg : ParallelConfig) (duals : list (DualConn CS)) (i : nat)
    (t : ParThread Q X CS) : Prop := {
  tw_idx : pw_provider_idx (pt_worker t) = i;
  tw_dual : duals !! i = Some (pw_dual_conn (pt_worker t));
  tw_trigger : items (pw_trigger (pt_worker t)) = [] ∧ room (pw_trigger (pt_worker t)) = TRIGGER_RING;
  tw_result : items (pw_result_tx (pt_worker t)) = [] ∧ room (pw_result_tx (pt_worker t)) = RESULT_RING;
  tw_idle : pw_inflight (pt_worker t) = None ∧ pw_jobs_sent (pt_worker t) = 0;
  tw_core : pt_core t = match pcfg_affinity cfg with Some c => core_ids c !! i | None => None end;
  tw_prio : pt_prio t = rt_prio (pcfg_rt cfg);
}.

(** The addresses of a sender's channels: the trigger rings, the result rings,
    the channels of fresh connections, and the channel of requests. *)
Definition addresses `{QueueView Q, QueueView X} {CS} (threads : list (ParThread Q X CS))
    (req : X ReconnectReq) : list nat :=
  ((λ t, monitor_addr (pw_trigger (pt_worker t))) <$> threads) ++
  ((λ t, monitor_addr (pw_result_tx (pt_worker t))) <$> threads) ++
  ((λ t, address (pw_reconnect_resp_rx (pt_worker t))) <$> threads) ++ [address req].

(** The dispatch's rings, the lane's rings and the reconnect thread's channels
    are the workers', in order and all at different addresses, and the lane's
    codecs are the providers'. *)
Record wired `{QueueView Q, QueueView X} {CS} (providers : list ProviderConfig) (cfg : ParallelConfig)
    (duals : list (DualConn CS)) (s : Sender Q X CS) : Prop := {
  wd_dispatch : sd_dispatch s = Fanout ((λ t, pw_trigger (pt_worker t)) <$> th_par (sd_threads s));
  wd_rings : rl_rings <$> th_lane (sd_threads s)
             = Some ((λ t, pw_result_tx (pt_worker t)) <$> th_par (sd_threads s));
  wd_codecs : rl_codecs <$> th_lane (sd_threads s) = Some (pc_codec <$> providers);
  wd_count : length (th_par (sd_threads s)) = length providers;
  wd_threads : ∀ i t, th_par (sd_threads s) !! i = Some t → thread_wired cfg duals i t;
  wd_reconnect : ∃ req, th_reconnect (sd_threads s) = Some (mkReconnectLoop req
      ((λ t, pw_reconnect_resp_rx (pt_worker t)) <$> th_par (sd_threads s))) ∧
    Forall (λ t, pw_reconnect_req_tx (pt_worker t) = req) (th_par (sd_threads s)) ∧
    NoDup (addresses (th_par (sd_threads s)) req);
}.

Section wiring.
Context `{QL : QueueLaws Q} `{XL : QueueLaws X} {CS : Type}.

Lemma spawn_workers_spec a i zipped cores prio (req_tx : X ReconnectReq) kind diag :
  (i + length zipped ≤ length diag)%nat →
  ∃ txs handles,
    spawn_workers (Q := Q) (CS := CS) a i zipped cores prio req_tx kind diag = Ret (txs, handles) ∧
    txs = (λ t, pw_trigger (pt_worker t)) <$> handles ∧
    length handles = length zipped ∧
    ∀ j dual res_tx resp_rx, zipped !! j = Some (dual, res_tx, resp_rx) →
      ∃ d, diag !! (i + j)%nat = Some d ∧
      handles !! j = Some (mkParThread
        (mkParWorker (i + j) (channel (a + j) TRIGGER_RING) res_tx dual None req_tx resp_rx kind 0 d 0)
        (cores !! (i + j)%nat) prio).
Proof using Type.
  revert a i. induction zipped as [|[[dual res_tx] resp_rx] zipped IH]; intros a i Hi.
  { exists [], []. by repeat split. }
  cbn [length] in Hi. destruct (index_lt diag i) as (d&Hd&Hd'); [lia|].
  destruct (IH (S a) (S i)) as (txs&handles&Hs&->&Hl&Hh); [lia|].
  cbn [spawn_workers]. rewrite Hd. cbn [mbind outcome_bind]. rewrite Hs. cbn [mbind outcome_bind].
  eexists _, _. split; [done|]. split; [done|]. split; [cbn; by rewrite Hl|].
  intros [|j] dual' res' resp' Hj; cbn in Hj.
  - simplify_eq. exists d. by rewrite !Nat.add_0_r.
  - destruct (Hh _ _ _ _ Hj) as (d'&Hd1&Hd2). exists d'. cbn [lookup list_lookup].
    replace (a + S j)%nat with (S a + j)%nat by lia.
    by replace (i + S j)%nat with (S i + j)%nat by lia.
Qed.

(** The thread of provider [i] as [finish_par] starts it. *)
Definition par_thread (providers : list ProviderConfig) (cfg : ParallelConfig) (kind : ConnKind)
    (req_tx : X ReconnectReq) (i : nat) (dual : DualConn CS) (d : WorkerDiag) : ParThread Q X CS :=
  mkParThread (mkParWorker i (channel (trigger_address providers + i) TRIGGER_RING)
      (channel i RESULT_RING) dual None req_tx (bq_new (length providers + i) RESP_RING) kind 0 d 0)
    ((match pcfg_affinity cfg with Some c => core_ids c | None => [] end) !! i) (rt_prio (pcfg_rt cfg)).

Lemma spawn_parallel_spec providers cfg (duals : list (DualConn CS)) (req_tx : X ReconnectReq) kind :
  length duals = length providers →
  ∃ handles,
    spawn_parallel (trigger_address providers) duals (result_rings providers : list (Spsc Q RawResp))
      cfg req_tx (resp_channels providers) kind (diag_slots providers)
    = Ret (Fanout ((λ t, pw_trigger (pt_worker t)) <$> handles), handles) ∧
    length handles = length providers ∧
    ∀ i t, handles !! i = Some t → ∃ d dual, duals !! i = Some dual ∧
      t = par_thread providers cfg kind req_tx i dual d.
Proof using Type.
  intros Hlen. unfold spawn_parallel.
  set (z := zip (zip duals (result_rings providers)) (resp_channels providers)).
  assert (length z = length providers) as Hz.
  { unfold z, result_rings, resp_channels. rewrite !length_zip_with, !length_imap, Hlen. lia. }
  edestruct (spawn_workers_spec (trigger_address providers) 0 z) as (txs&handles&->&->&Hl&Hh).
  { unfold diag_slots. rewrite length_replicate. by rewrite Hz. }
  exists handles. rewrite Hz in *. split; [done|]. split; [done|].
  intros i t Ht. pose proof (lookup_lt_Some _ _ _ Ht) as Hi.
  destruct (lookup_lt_is_Some_2 duals i) as [dual Hd]; [lia|].
  destruct (lookup_lt_is_Some_2 providers i) as [p Hp]; [lia|].
  destruct (Hh i dual (channel i RESULT_RING) (bq_new (length providers + i) RESP_RING)) as (d&_&Ht').
  - unfold z. rewrite !lookup_zip_with, Hd. unfold result_rings, resp_channels.
    by rewrite !list_lookup_imap, Hp.
  - cbn in Ht'. rewrite Ht in Ht'. injection Ht' as ->. by exists d, dual.
Qed.

(** A list given by its positions. *)
Lemma fmap_imap {A B C} (f : A → C) (g : nat → C) (l : list A) (l' : list B) :
  length l = length l' → (∀ i x, l !! i = Some x → f x = g i) → f <$> l = imap (λ i _, g i) l'.
Proof using Type.
  intros Hl Hf. apply list_eq. intros i. rewrite list_lookup_fmap, list_lookup_imap.
  destruct (l !! i) as [x|] eqn:E; cbn.
  - rewrite (Hf _ _ E). destruct (lookup_lt_is_Some_2 l' i) as [y ->]; [|done].
    rewrite <- Hl. by eapply lookup_lt_Some.
  - rewrite (lookup_ge_None_2 l'); [done|]. rewrite <- Hl. by apply lookup_ge_None.
Qed.
Lemma fmap_addresses {A} (f : A → nat) k (l : list A) :
  (∀ i x, l !! i = Some x → f x = (k + i)%nat) → f <$> l = seq k (length l).
Proof using Type.
  intros Hf. apply list_eq. intros i. rewrite list_lookup_fmap. destruct (l !! i) as [x|] eqn:E; cbn.
  - rewrite (Hf _ _ E), lookup_seq_lt; [done|]. by eapply lookup_lt_Some.
  - symmetry. apply lookup_seq_ge. by apply lookup_ge_None.
Qed.

Lemma par_threads_nodup providers cfg kind (req_tx : X ReconnectReq) handles (duals : list (DualConn CS)) :
  length handles = length providers → address req_tx = req_address providers →
  (∀ i t, handles !! i = Some t → ∃ d dual, duals !! i = Some dual ∧
     t = par_thread providers cfg kind req_tx i dual d) →
  NoDup (addresses handles req_tx).
Proof using QL XL.
  intros Hl Ha Hh. unfold addresses. rewrite Ha.
  rewrite (fmap_addresses _ (trigger_address providers)), (fmap_addresses _ 0),
    (fmap_addresses _ (length providers)), Hl.
  - unfold trigger_address, req_address. rewrite !NoDup_app.
    assert (∀ x k, x ∈ seq k (length providers) → (k ≤ x < k + length providers)%nat) as Hs
      by (intros x k; by rewrite elem_of_seq).
    split_and!; try apply NoDup_seq; try apply NoDup_singleton;
      intros x Hx%Hs; rewrite ?elem_of_app, ?list_elem_of_singleton; intros Hy;
      repeat match goal with H : _ ∨ _ |- _ => destruct H | H : _ ∈ seq _ _ |- _ => apply Hs in H end; lia.
  - intros i t Ht. destruct (Hh i t Ht) as (d&dual&_&->). apply new_address.
  - intros i t Ht. destruct (Hh i t Ht) as (d&dual&_&->). apply channel_addr.
  - intros i t Ht. destruct (Hh i t Ht) as (d&dual&_&->). apply channel_addr.
Qed.

Lemma finish_par_wired providers cfg (duals : list (DualConn CS)) :
  length duals = length providers →
  ∃ s : Sender Q X CS, finish_par providers cfg duals = Ret s ∧ wired providers cfg duals s.
Proof using QL XL.
  intros Hlen. unfold finish_par, reconnect_spawn. cbn zeta.
  destruct (spawn_parallel_spec providers cfg duals (bq_new (req_address providers) REQ_RING) KRawLibc Hlen)
    as (handles&->&Hl&Hh).
  cbn [mbind outcome_bind]. eexists. split; [done|].
  split; cbn [sd_dispatch sd_threads th_par th_lane th_reconnect]; [done| |done|done| |].
  - cbn. f_equal. symmetry. apply fmap_imap; [done|]. intros i t Ht.
    by destruct (Hh i t Ht) as (d&dual&_&->).
  - intros i t Ht. destruct (Hh i t Ht) as (d&dual&Hd&->).
    split; cbn; rewrite ?channel_items, ?channel_room; try done. by destruct (pcfg_affinity cfg).
  - eexists. split_and!.
    + f_equal. f_equal. symmetry. apply fmap_imap; [done|]. intros i t Ht.
      by destruct (Hh i t Ht) as (d&dual&_&->).
    + apply Forall_lookup. intros i t Ht. by destruct (Hh i t Ht) as (d&dual&_&->).
    + eapply par_threads_nodup; [done|apply new_address|exact Hh].
Qed.
End wiring.

(** C21: a parallel sender is wired consistently. When the checks pass and the
    connections are made, [build] gives one worker per provider, in order:
    worker [i] has provider [i]'s connections, the [i]-th trigger ring of the
    dispatch, the [i]-th ring of the result lane, whose codec is provider
    [i]'s, the reconnect thread's [i]-th channel, and the channel its requests
    are read from; no two of these channels are at the same address. All rings
    are empty and of full capacity, no job is in flight, and the thread gets the
    [i]-th configured core and the configured priority. *)
Theorem build_parallel_wiring `{QueueLaws Q} `{QueueLaws X} {W CS Mode Tuning Src Snk Tls}
    connect_raw connect_uring tpa_start (b : SenderBuilder Mode Tuning Src Snk Tls) cfg tls src snk
    (w w' : W) (duals : list (DualConn CS)) :
  build_checks b = Ok (ParRaw cfg, tls, src, snk) →
  connect_raw (sb_providers b) tls w = Ret (Ok duals, w') →
  length duals = length (sb_providers b) →
  ∃ s : Sender Q X CS, build connect_raw connect_uring tpa_start b w = Ret (Ok s, w') ∧
    wired (sb_providers b) cfg duals s.
Proof.
  intros Hb Hc Hlen. destruct (finish_par_wired (Q := Q) (X := X) _ cfg _ Hlen) as (s&Hs&Hw).
  exists s. split; [|done]. unfold build. rewrite Hb. cbv beta iota zeta.
  unfold mbind, M_bind. rewrite Hc. unfold pure. by rewrite Hs.
Qed.

(** * Build: how it fails *)

(** What a builder lacks, in the order in which [build] reports it. *)
Definition missing {Mode Tuning Src Snk Tls} (b : SenderBuilder Mode Tuning Src Snk Tls) :
    list SenderError :=
  (if sb_providers b is [] then [NoProviders] else []) ++
  (if sb_transport b is None then [NoTransport] else []) ++
  (if sb_tls b is None then [NoTls] else []) ++
  (if sb_source b is None then [NoSource] else []) ++
  (if sb_sink b is None then [NoSink] else []).

Lemma build_checks_missing {Mode Tuning Src Snk Tls} (b : SenderBuilder Mode Tuning Src Snk Tls) e :
  head (missing b) = Some e → build_checks b = Err e.
Proof.
  unfold missing, build_checks. destruct (sb_providers b); [by intros [= <-]|].
  destruct (sb_transport b), (sb_tls b), (sb_source b), (sb_sink b); by intros [= <-].
Qed.

(** C37: [build] reports the first thing its builder lacks (providers, transport,
    TLS, source, sink, in this order) and has then done nothing. With nothing
    lacking it starts the result lane before it connects; so when connecting, or
    starting libtpa, fails, it returns that error (for libtpa under provider 0)
    and leaves one thread behind, the lane, with an empty ring for each provider
    and nobody to set its stop flag: however many passes it makes, it is back
    at the head of its loop with its rings as they were, has waited each time
    and never called the sink. *)
Theorem build_errors `{QueueLaws Q} `{BoundedQueue X} {W CS Mode Tuning Src Snk Tls}
    connect_raw connect_uring tpa_start (b : SenderBuilder Mode Tuning Src Snk Tls) (w : W) :
  (∀ e, head (missing b) = Some e →
     build (Q := Q) (X := X) (CS := CS) connect_raw connect_uring tpa_start b w
     = Ret (Err (e, mkThreads None None None [] []), w)) ∧
  (∀ spec tls e w', missing b = [] → sb_transport b = Some spec → sb_tls b = Some tls →
     match spec with
     | SeqRaw | ParRaw _ => connect_raw (sb_providers b) tls w = Ret (Err e, w')
     | SeqUring m t => connect_uring m t (sb_providers b) tls w = Ret (Err e, w')
     | ParTpa _ => ∃ te, e = SConnect 0 te ∧
         tpa_start (as_i32 (length (sb_providers b))) 0 w = Ret (Err te, w')
     end →
     ∃ lane, build (Q := Q) (X := X) (CS := CS) connect_raw connect_uring tpa_start b w
         = Ret (Err (e, mkThreads (Some lane) None None [] []), w') ∧
       length (rl_rings lane) = length (sb_providers b) ∧
       ∀ (S : Type) (sink : ResultSink S) (idle : S → S) fuel flags sunk, (0 < fuel)%nat →
         Forall (λ flag, flag = false) flags →
         lane_run idle fuel flags lane sunk = Ret (false, lane, Nat.iter (length flags) idle sunk)).
Proof.
  split.
  - intros e He%build_checks_missing. unfold build. by rewrite He.
  - intros spec tls e w' Hm Hs Ht Hc. exists (start_lane (sb_providers b)). split_and!.
    + unfold missing in Hm. unfold build, build_checks. rewrite Hs, Ht in *.
      destruct (sb_providers b) as [|p ps]; [done|]. destruct (sb_source b); [|done].
      destruct (sb_sink b); [|done]. unfold mbind, M_bind.
      destruct spec; [by rewrite Hc..|]. destruct Hc as (te&->&Hc). by rewrite Hc.
    + cbn. unfold result_rings. by rewrite length_imap.
    + intros S sink idle fuel flags sunk Hf Hfl. apply lane_run_waits; [| |done..]; cbn.
      * apply Forall_lookup. intros i ring (p&_&->)%list_lookup_imap_Some. apply channel_items.
      * destruct (sb_providers b) eqn:Ep; [|done]. unfold missing in Hm. by rewrite Ep in Hm.
Qed.

Definition sample_provider : ProviderConfig :=
  jito_transaction (str "token").
Definition sample_sender_builder : SenderBuilder unit unit unit unit unit :=
  set_sink (set_source (set_tls (set_transport (add_provider sender_builder sample_provider)
    (rt_priority (ParRaw parallel_config_default) 50)) tt) tt) tt.
Definition sample_raw (ps : list ProviderConfig) (_ : unit) :
    M demo_world (result (list (DualConn demo_cs)) SenderError) :=
  mret (Ok ((λ _ : ProviderConfig, dual_new (CsHttp idle_http) (CsHttp idle_http)) <$> ps)).
Definition sample_refused (ps : list ProviderConfig) (_ : unit) :
    M demo_world (result (list (DualConn demo_cs)) SenderError) :=
  mret (Err (SConnect 0 (TConnect (Os ECONNREFUSED)))).
Definition sample_tpa (_ _ : Z) : M demo_world (result unit TransportError) := mret (Ok ()).

(** Two providers. *)
Definition sample_pair_builder : SenderBuilder unit unit unit unit unit :=
  add_provider sample_sender_builder (helius (str "key")).

Lemma build_parallel_wiring_witness :
  ∃ s : Sender list_queue list_queue demo_cs,
    build sample_raw (λ _ _, sample_raw) sample_tpa sample_pair_builder (mkDemoWorld 0)
      = Ret (Ok s, mkDemoWorld 0) ∧
    wired [sample_provider; helius (str "key")] (mkParallelConfig None (mkRtConfig (Some 50)))
      [dual_new (CsHttp idle_http) (CsHttp idle_http); dual_new (CsHttp idle_http) (CsHttp idle_http)] s.
Proof.
  apply (build_parallel_wiring (Q := list_queue) (X := list_queue) sample_raw (λ _ _, sample_raw)
    sample_tpa sample_pair_builder (mkParallelConfig None (mkRtConfig (Some 50))) tt tt tt
    (mkDemoWorld 0) (mkDemoWorld 0)
    [dual_new (CsHttp idle_http) (CsHttp idle_http); dual_new (CsHttp idle_http) (CsHttp idle_http)]);
    reflexivity.
Defined.

#[local] Existing Instance quiet_sink.

Lemma build_errors_witness :
  ∃ lane, build (Q := list_queue) (X := list_queue) sample_refused (λ _ _, sample_refused) sample_tpa
      sample_sender_builder (mkDemoWorld 0)
    = Ret (Err (SConnect 0 (TConnect (Os ECONNREFUSED)), mkThreads (Some lane) None None [] []),
           mkDemoWorld 0) ∧
    lane_run (W := list ProviderOutcome) id 1 (replicate 1000 false) lane []
    = Ret (false, lane, Nat.iter 1000 id []).
Proof.
  destruct (build_errors (Q := list_queue) (X := list_queue) sample_refused (λ _ _, sample_refused)
    sample_tpa sample_sender_builder (mkDemoWorld 0)) as [_ He].
  destruct (He (ParRaw (mkParallelConfig None (mkRtConfig (Some 50)))) tt
    (SConnect 0 (TConnect (Os ECONNREFUSED))) (mkDemoWorld 0)) as (lane&Hb&_&Hr); [reflexivity..|].
  exists lane. split; [exact Hb|].
  apply (Hr _ list_sink id 1%nat (replicate 1000 false)); [lia|].
  apply Forall_replicate. reflexivity.
Defined.
