(* ===== verification/System.v ===== *)
(** The parallel sender as a whole: the caller triggering jobs, one worker per
    provider, the result lane and the reconnect thread, interleaved. A step is
    one call of [trigger] or one pass of a thread's loop. Each channel has one
    producer and one consumer, which work on different ends of it, so passes
    that touch a channel from both sides commute and the interleaving of whole
    passes covers the interleaving of their parts. *)
From S2P Require Import Prelude Types Ring Response Lane Quic Conn Reconnect Parallel Sequential Sender WorkerInv Demo.
From stdpp Require Import options.

(** The workers with their transmit buffers, the request channel they share,
    the world, what the sink was given, and every job the caller triggered. *)
Record Sys (Q X : Type → Type) (W CS : Type) := mkSys {
  sy_workers : list (ParWorker Q X CS * bytes);
  sy_req : X ReconnectReq;
  sy_world : W;
  sy_sunk : list ProviderOutcome;
  sy_triggered : list Job;
}.
Arguments mkSys {Q X W CS}.
Arguments sy_workers {Q X W CS}.
Arguments sy_req {Q X W CS}.
Arguments sy_world {Q X W CS}.
Arguments sy_sunk {Q X W CS}.
Arguments sy_triggered {Q X W CS}.

Section steps.
Context `{BuildProfile} `{BoundedQueue Q, QueueView Q} `{BoundedQueue X}.
Context `{Conns W HC QC} `{Clock W, TxSource W, Idle W} `{ReconnectBuilder W (ConnState HC QC)}.
Abbreviation CS := (ConnState HC QC).
Context {SB : SinkBehaviour} (codecs : list ResponseCodec).

(** More than the longest ring, so that the lane's loops end. *)
Definition lane_fuel (ws : list (ParWorker Q X CS * bytes)) : nat :=
  rings_fuel ((λ wp, pw_result_tx wp.1) <$> ws).

Inductive sys_step : Sys Q X W CS → Sys Q X W CS → Prop :=
| step_trigger ws req w sunk tr job r txs :
    trigger (Fanout ((λ wp, pw_trigger wp.1) <$> ws)) job = (r, Fanout txs) →
    sys_step (mkSys ws req w sunk tr)
      (mkSys (zip_with (λ tx wp, (with_trigger tx wp.1, wp.2)) txs ws) req w sunk (tr ++ [job]))
| step_worker ws req w sunk tr i p scratch p' scratch' w' :
    ws !! i = Some (p, scratch) →
    par_pass (with_req_tx req p) (provider_id i) scratch w = Ret (p', scratch', w') →
    sys_step (mkSys ws req w sunk tr)
      (mkSys (<[i := (p', scratch')]> ws) (pw_reconnect_req_tx p') w' sunk tr)
| step_lane ws req w sunk tr waits l sunk' :
    lane_pass (lane_fuel ws) (mkResultLane ((λ wp, pw_result_tx wp.1) <$> ws) codecs) sunk
      = Ret (waits, l, sunk') →
    sys_step (mkSys ws req w sunk tr)
      (mkSys (zip_with (λ ring wp, (with_result_tx ring wp.1, wp.2)) (rl_rings l) ws) req w sunk' tr)
| step_reconnect ws req w sunk tr stop disconnected goes_on l w' :
    reconnect_pass stop disconnected
      (mkReconnectLoop req ((λ wp, pw_reconnect_resp_rx wp.1) <$> ws)) w = Ret (goes_on, l, w') →
    sys_step (mkSys ws req w sunk tr)
      (mkSys (zip_with (λ rx wp, (with_resp_rx rx wp.1, wp.2)) (rcl_resp_txs l) ws)
         (rcl_req_rx l) w' sunk tr).

(** The state [build] leaves: its threads, nothing triggered, nothing sunk. *)
Definition sys_init (threads : list (ParThread Q X CS)) (w : W) : Sys Q X W CS :=
  mkSys ((λ t, (pt_worker t, Backend.zeroes (Z.to_nat MAX_TX_LEN))) <$> threads)
    (bq_new (2 * length threads) REQ_RING) w [] [].

(** The steps as functions, to run a schedule: a pass that panics leaves the
    state as it is. *)
Definition do_trigger (job : Job) (st : Sys Q X W CS) : Sys Q X W CS :=
  match trigger (Fanout ((λ wp, pw_trigger wp.1) <$> sy_workers st)) job with
  | (_, Fanout txs) =>
      mkSys (zip_with (λ tx wp, (with_trigger tx wp.1, wp.2)) txs (sy_workers st))
        (sy_req st) (sy_world st) (sy_sunk st) (sy_triggered st ++ [job])
  | _ => st
  end.
Definition do_worker (i : nat) (st : Sys Q X W CS) : Sys Q X W CS :=
  match sy_workers st !! i with
  | Some (p, scratch) =>
      match par_pass (with_req_tx (sy_req st) p) (provider_id i) scratch (sy_world st) with
      | Ret (p', scratch', w') =>
          mkSys (<[i := (p', scratch')]> (sy_workers st)) (pw_reconnect_req_tx p') w'
            (sy_sunk st) (sy_triggered st)
      | _ => st
      end
  | None => st
  end.
Definition do_lane (st : Sys Q X W CS) : Sys Q X W CS :=
  match lane_pass (lane_fuel (sy_workers st))
          (mkResultLane ((λ wp, pw_result_tx wp.1) <$> sy_workers st) codecs) (sy_sunk st) with
  | Ret (_, l, sunk') =>
      mkSys (zip_with (λ ring wp, (with_result_tx ring wp.1, wp.2)) (rl_rings l) (sy_workers st))
        (sy_req st) (sy_world st) sunk' (sy_triggered st)
  | _ => st
  end.

Lemma do_trigger_steps job st : rtc sys_step st (do_trigger job st).
Proof.
  destruct st as [ws req w sunk tr]. unfold do_trigger. cbn [sy_workers].
  destruct (trigger _ job) as [r [tx|txs]] eqn:E; [done|]. apply rtc_once. by eapply step_trigger.
Qed.
Lemma do_worker_steps i st : rtc sys_step st (do_worker i st).
Proof.
  destruct st as [ws req w sunk tr]. unfold do_worker. cbn [sy_workers sy_req sy_world].
  destruct (ws !! i) as [[p scratch]|] eqn:Ei; [|done].
  destruct (par_pass _ _ _ _) as [[[p' scratch'] w']| |] eqn:E; [|done..].
  apply rtc_once. by eapply step_worker.
Qed.
Lemma do_lane_steps st : rtc sys_step st (do_lane st).
Proof.
  destruct st as [ws req w sunk tr]. unfold do_lane. cbn [sy_workers sy_sunk].
  destruct (lane_pass _ _ _) as [[[waits l] sunk']| |] eqn:E; [|done..].
  apply rtc_once. by eapply step_lane.
Qed.
End steps.

Section invariant.
Context `{BuildProfile} `{QL : QueueLaws Q} `{XL : QueueLaws X}.
Context `{Clock W, TxSource W, Idle W} `{PL : PendingLaws W HC QC}.
Context `{RB : ReconnectBuilder W (ConnState HC QC)}.
Abbreviation CS := (ConnState HC QC).
Context {SB : SinkBehaviour} (codecs : list ResponseCodec).
Implicit Types (st : Sys Q X W CS) (p : ParWorker Q X CS).

(** The job was triggered. *)
Definition was_triggered (tr : list Job) (j s : Z) : Prop := ∃ job, job ∈ tr ∧ job_id job = j.

(** The outcomes the sink has of provider [i]. *)
Definition count_of (i : nat) (sunk : list ProviderOutcome) : Z :=
  zlen (filter (λ o, po_provider o = provider_id i) sunk).

Record worker_st (tr : list Job) (sunk : list ProviderOutcome) (i : nat) (p : ParWorker Q X CS) : Prop := {
  ws_inv : worker_inv (was_triggered tr) i p;
  ws_fresh : fresh p;
  ws_jobs : 0 ≤ pw_jobs_sent p;
  ws_outcomes : count_of i sunk + outstanding p ≤ pw_jobs_sent p;
  ws_taken : pw_jobs_sent p + zlen (items (pw_trigger p)) ≤ zlen tr;
}.

Record sys_inv (st : Sys Q X W CS) : Prop := {
  si_count : length (sy_workers st) = length codecs;
  si_workers : ∀ i p scratch, sy_workers st !! i = Some (p, scratch) →
    worker_st (sy_triggered st) (sy_sunk st) i p;
  si_sunk : Forall (λ o, was_triggered (sy_triggered st) (po_job o) (po_sent_at o) ∧
    ∃ i, (i < length codecs)%nat ∧ po_provider o = provider_id i) (sy_sunk st);
}.

Lemma was_triggered_snoc tr job j s : was_triggered tr j s → was_triggered (tr ++ [job]) j s.
Proof. intros (x&Hx&Hj). exists x. split; [|done]. apply elem_of_app. by left. Qed.

Lemma worker_inv_mono (P P' : Z → Z → Prop) i p :
  (∀ j s, P j s → P' j s) → worker_inv P i p → worker_inv P' i p.
Proof.
  intros HP [Ht Hi Ha Hs Har Hr Hrt]. split.
  - eapply Forall_impl; [exact Ht|]. auto.
  - eauto.
  - intros ? ? ?. by apply HP, Ha.
  - intros ? ? ?. by apply HP, Hs.
  - eapply Forall_impl; [exact Har|]. intros c Hc ? ? ?. by apply HP, Hc.
  - eapply Forall_impl; [exact Hr|]. intros r []. auto.
  - done.
Qed.

Lemma zip_with_lookup_r {A B C} (f : A → B → C) l k i z :
  zip_with f l k !! i = Some z → ∃ x y, l !! i = Some x ∧ k !! i = Some y ∧ z = f x y.
Proof. intros Hz. apply lookup_zip_with_Some in Hz as (x&y&->&?&?). eauto. Qed.

(** ** The caller *)

Lemma inv_trigger ws req w sunk tr job r txs :
  trigger (Fanout ((λ wp, pw_trigger wp.1) <$> ws)) job = (r, Fanout txs) →
  sys_inv (mkSys ws req w sunk tr) →
  sys_inv (mkSys (zip_with (λ tx wp, (with_trigger tx wp.1, wp.2)) txs ws) req w sunk (tr ++ [job])).
Proof using QL.
  intros Ht [Hc Hws Hs]. cbn [sy_workers sy_triggered sy_sunk] in *. unfold trigger in Ht.
  destruct (push_all_spec ((λ wp, pw_trigger wp.1) <$> ws) job true) as [_ HF].
  destruct (push_all _ _ _) as [ok txs']. injection Ht as <- <-. cbn [snd] in HF.
  pose proof (Forall2_length _ _ _ HF) as Hl. rewrite length_fmap in Hl.
  split; cbn [sy_workers sy_triggered sy_sunk].
  - rewrite length_zip_with. lia.
  - intros i p' scratch Hp. apply zip_with_lookup_r in Hp as (tx&[p s]&Htx&Hp&[= -> ->]).
    destruct (Hws _ _ _ Hp) as [Hinv Hfr Hj Ho Ht].
    assert (pushed job (pw_trigger p) tx) as [Hit _].
    { eapply (Forall2_lookup_lr _ _ _ i); [exact HF|by rewrite list_lookup_fmap, Hp|exact Htx]. }
    apply (worker_inv_mono _ (was_triggered (tr ++ [job]))) in Hinv;
      [|intros; by apply was_triggered_snoc].
    split; [|done..|].
    + destruct Hinv. split; try done. cbn. rewrite Hit. apply Forall_app_2; [done|].
      case_match; [|done]. constructor; [|done]. intros s'. exists job.
      split; [apply elem_of_app; right; by apply list_elem_of_singleton|done].
    + cbn. rewrite Hit. case_match; len.
  - eapply Forall_impl; [exact Hs|]. intros o [Ho Hi]. split; [by apply was_triggered_snoc|done].
Qed.

(** ** A worker *)

Lemma inv_worker ws req w sunk tr i p scratch p' scratch' w' :
  zlen tr < U64 - 1 → ws !! i = Some (p, scratch) →
  par_pass (with_req_tx req p) (provider_id i) scratch w = Ret (p', scratch', w') →
  sys_inv (mkSys ws req w sunk tr) →
  sys_inv (mkSys (<[i := (p', scratch')]> ws) (pw_reconnect_req_tx p') w' sunk tr).
Proof using PL QL XL.
  intros Htr Hi Hp [Hc Hws Hs]. cbn [sy_workers sy_triggered sy_sunk] in *.
  destruct (Hws _ _ _ Hi) as [Hinv Hfr Hj Ho Ht].
  split; cbn [sy_workers sy_triggered sy_sunk]; [by rewrite length_insert| |done].
  intros k pk sk. rewrite list_lookup_insert_Some. intros [(<-&[= <- <-]&_)|[Hne Hk]]; [|by eapply Hws].
  assert (worker_inv (was_triggered tr) i (with_req_tx req p)) as Hinv'
    by (destruct Hinv; by split).
  pose proof (post_Ret _ _ _ _ _ (inv_pass _ _ _ scratch w Hinv') Hp) as Hinv2. cbn in Hinv2.
  assert (0 ≤ pw_jobs_sent (with_req_tx req p) < U64 - 1) as Hb.
  { cbn. pose proof (zlen_nonneg (items (pw_trigger p))). lia. }
  pose proof (post_Ret _ _ _ _ _ (credit_pass _ (provider_id i) scratch w Hb) Hp) as Hcr. cbn in Hcr.
  destruct Hcr as [Hout Hmono Htrig _]. destruct (Hout Hfr) as [Hfr2 Hout2].
  change (outstanding (with_req_tx req p)) with (outstanding p) in Hout2. cbn in Hmono, Htrig, Hout2.
  split; [done|done|lia|lia|lia].
Qed.

(** ** The reconnect thread *)

Lemma inv_resp_rx ws req req' w w' sunk tr (rxs : list (X (ReconnectResp CS))) :
  extends (λ c, owed c = None) ((λ wp, pw_reconnect_resp_rx wp.1) <$> ws) rxs →
  sys_inv (mkSys ws req w sunk tr) →
  sys_inv (mkSys (zip_with (λ rx wp, (with_resp_rx rx wp.1, wp.2)) rxs ws) req' w' sunk tr).
Proof.
  intros [Hl Hrx] [Hc Hws Hs]. cbn [sy_workers sy_triggered sy_sunk] in *. rewrite length_fmap in Hl.
  split; cbn [sy_workers sy_triggered sy_sunk]; [rewrite length_zip_with; lia| |done].
  intros i p' scratch Hp. apply zip_with_lookup_r in Hp as (rx&[p s]&Hrxi&Hp&[= -> ->]).
  destruct (Hrx i (pw_reconnect_resp_rx p) rx) as (new&Hnew&Hfresh);
    [by rewrite list_lookup_fmap, Hp|done|].
  destruct (Hws _ _ _ Hp) as [[] Hfr Hj Ho Ht].
  assert (Forall (λ c, owed c = None) (omap (λ r, downcast (rs_conn r)) new)) as Hnone.
  { apply Forall_forall. intros c (r&Hr&Hd)%list_elem_of_omap.
    rewrite Forall_forall in Hfresh. by apply (Hfresh r Hr). }
  split; [split; try done|..|done|]; cbn.
  - unfold arriving in *. cbn. rewrite Hnew, omap_app. apply Forall_app_2; [done|].
    eapply Forall_impl; [exact Hnone|]. intros c Hc' ? ?. by rewrite Hc'.
  - rewrite Hnew. apply Forall_app_2; [done|]. eapply Forall_impl; [exact Hfresh|]. by intros r [].
  - unfold fresh, arriving in *. cbn. rewrite Hnew, omap_app. by apply Forall_app_2.
  - done.
  - done.
Qed.

(** ** The result lane *)

(** A provider's outcomes all come from its own ring. *)
Lemma count_of_rings i cs rings base :
  length cs = length rings → (base + length rings ≤ Z.to_nat U16)%nat → (i < Z.to_nat U16)%nat →
  (∀ j ring, rings !! j = Some ring →
     Forall (λ r, rr_provider r = provider_id (base + j)) (items (ring : Spsc Q RawResp))) →
  count_of i (concat (zip_with outcomes cs rings))
  = if decide (base ≤ i)%nat
    then match rings !! (i - base)%nat with Some ring => zlen (items ring) | None => 0 end
    else 0.
Proof.
  revert cs base. induction rings as [|ring rings IH]; intros cs base Hl Hb Hi Hp.
  { rewrite zip_with_nil_r. cbn. by case_decide. }
  destruct cs as [|c cs]; [done|]. cbn [zip_with concat length] in *.
  unfold count_of in *. rewrite filter_app, zlen_app, (IH _ (S base)); [|lia..|].
  2: { intros j r Hj. specialize (Hp (S j) r Hj).
       by replace (S base + j)%nat with (base + S j)%nat by lia. }
  specialize (Hp O ring eq_refl). rewrite Nat.add_0_r in Hp.
  assert (zlen (filter (λ o, po_provider o = provider_id i) (outcomes c ring))
          = if decide (base = i) then zlen (items ring) else 0) as ->.
  { unfold outcomes. induction Hp as [|r rs Hr _ IHr]; [by case_decide|].
    cbn [fmap list_fmap]. rewrite filter_cons. cbn [po_provider parse_one]. rewrite Hr.
    assert (provider_id base = provider_id i ↔ base = i) as Hinj.
    { split; [|by intros ->]. intros [= Heq]. rewrite !Z.mod_small in Heq by lia. lia. }
    destruct (decide (base = i)) as [->|Hne].
    - rewrite decide_True by done. by rewrite !zlen_cons, IHr.
    - rewrite decide_False by (by rewrite Hinj). done. }
  destruct (decide (base = i)) as [->|Hne].
  - rewrite decide_False by lia. rewrite decide_True by lia. rewrite Nat.sub_diag. cbn. lia.
  - destruct (decide (S base ≤ i)%nat).
    + rewrite decide_True by lia. by replace (i - base)%nat with (S (i - S base)) by lia.
    + rewrite decide_False by lia. done.
Qed.

Lemma inv_lane ws req w sunk tr waits l sunk' :
  (length codecs ≤ Z.to_nat U16)%nat →
  lane_pass (lane_fuel ws) (mkResultLane ((λ wp, pw_result_tx wp.1) <$> ws) codecs) sunk
    = Ret (waits, l, sunk') →
  sys_inv (mkSys ws req w sunk tr) →
  sys_inv (mkSys (zip_with (λ ring wp, (with_result_tx ring wp.1, wp.2)) (rl_rings l) ws)
             req w sunk' tr).
Proof using QL.
  intros Hn Hp [Hc Hws Hs]. cbn [sy_workers sy_triggered sy_sunk] in *.
  set (rings := (λ wp, pw_result_tx wp.1) <$> ws) in *.
  assert (length rings = length ws) as Hrl by (unfold rings; by rewrite length_fmap).
  assert (length (rl_codecs (mkResultLane rings codecs)) = length rings) as Hcl by (cbn; lia).
  pose proof (post_Ret _ _ _ _ _ (lane_pass_wp (wp := @post _) (mkResultLane rings codecs) sunk (lane_fuel ws)
    Hcl (rings_fuel_enough rings)) Hp) as (He&_&Hl&Hd&_). cbn [rl_rings rl_codecs] in *.
  change (sunk' = sunk ++ concat (zip_with outcomes codecs rings)) in Hd.
  assert (∀ i ring, rings !! i = Some ring → ∃ p s, ws !! i = Some (p, s) ∧ ring = pw_result_tx p)
    as Hring.
  { intros i ring. unfold rings. rewrite list_lookup_fmap_Some. intros ([p s]&->&Hi). eauto. }
  split; cbn [sy_workers sy_triggered sy_sunk]; [rewrite length_zip_with; lia| |].
  - intros i p' scratch Hi. apply zip_with_lookup_r in Hi as (ring&[p s]&Hri&Hi&[= -> ->]).
    pose proof (lookup_lt_Some _ _ _ Hi) as Hlt.
    rewrite Forall_lookup in He. specialize (He _ _ Hri).
    destruct (Hws _ _ _ Hi) as [Hinv Hfr Hj Ho Ht].
    assert (count_of i sunk' = count_of i sunk + zlen (items (pw_result_tx p))) as Hcount.
    { rewrite Hd. unfold count_of at 1. rewrite filter_app, zlen_app.
      fold (count_of i sunk). fold (count_of i (concat (zip_with outcomes codecs rings))).
      rewrite (count_of_rings i codecs rings 0); [|lia..|].
      - rewrite decide_True by lia. rewrite Nat.sub_0_r. unfold rings.
        by rewrite list_lookup_fmap, Hi.
      - intros j r Hr. destruct (Hring _ _ Hr) as (pj&sj&Hj'&->).
        destruct (Hws _ _ _ Hj') as [[] _ _ _ _]. eapply Forall_impl; [eassumption|]. by intros ? []. }
    split; [|done..| |done].
    + destruct Hinv. split; try done. cbn. by rewrite He.
    + rewrite Hcount. unfold outstanding in *. cbn. rewrite He. rewrite zlen_nil. lia.
  - rewrite Hd. apply Forall_app_2; [done|]. apply Forall_concat, Forall_lookup. intros i os Hos.
    apply zip_with_lookup_r in Hos as (c&ring&_&Hr&->).
    pose proof (lookup_lt_Some _ _ _ Hr) as Hlt.
    destruct (Hring _ _ Hr) as (p&s&Hi&->). destruct (Hws _ _ _ Hi) as [[] _ _ _ _].
    unfold outcomes. apply Forall_fmap. eapply Forall_impl; [eassumption|].
    intros r [Hprov HP]. split; [done|]. exists i. split; [lia|done].
Qed.

Lemma step_mono st st' : sys_step codecs st st' → zlen (sy_triggered st) ≤ zlen (sy_triggered st').
Proof. intros []; cbn; len. Qed.

Lemma steps_mono st st' :
  rtc (sys_step codecs) st st' → zlen (sy_triggered st) ≤ zlen (sy_triggered st').
Proof. induction 1 as [|? ? ? Hs _ IH]; [done|]. apply step_mono in Hs. lia. Qed.

Lemma inv_step st st' :
  (∀ i k w, post (rb_build i k) w (λ r _, ∀ c, r = Ok (BoxConn c) → owed c = None)) →
  (length codecs ≤ Z.to_nat U16)%nat → zlen (sy_triggered st') < U64 - 1 →
  sys_step codecs st st' → sys_inv st → sys_inv st'.
Proof using PL QL XL.
  intros Hb Hn Htr Hstep; destruct Hstep as [| | |ws req w sunk tr stop disc goes_on l w' Hrec];
    cbn [sy_triggered] in Htr; intros Hst.
  - by eapply inv_trigger.
  - by eapply inv_worker.
  - by eapply inv_lane.
  - eapply inv_resp_rx; [|exact Hst].
    apply (post_Ret _ _ _ _ _ (reconnect_pass_extends _ _ _ _ _ Hb) Hrec).
Qed.

Lemma inv_steps st st' :
  (∀ i k w, post (rb_build i k) w (λ r _, ∀ c, r = Ok (BoxConn c) → owed c = None)) →
  (length codecs ≤ Z.to_nat U16)%nat → zlen (sy_triggered st') < U64 - 1 →
  rtc (sys_step codecs) st st' → sys_inv st → sys_inv st'.
Proof using PL QL XL.
  intros Hb Hn Htr Hsteps. induction Hsteps as [|st1 st2 st3 H12 H23 IH]; [done|].
  intros Hst. apply IH; [done|]. eapply inv_step; [done..| |exact H12|done].
  apply steps_mono in H23. lia.
Qed.
End invariant.

(** * The theorem *)

(** A thread as [build] leaves it. *)
Record thread_new `{QueueView Q, QueueView X} {HC QC} `{PendingView QC}
    (t : ParThread Q X (ConnState HC QC)) : Prop := {
  tn_trigger : items (pw_trigger (pt_worker t)) = [];
  tn_result : items (pw_result_tx (pt_worker t)) = [];
  tn_resp : contents (pw_reconnect_resp_rx (pt_worker t)) = [];
  tn_inflight : pw_inflight (pt_worker t) = None;
  tn_jobs : pw_jobs_sent (pt_worker t) = 0;
  tn_active : owed (conn (active (pw_dual_conn (pt_worker t)))) = None;
  tn_standby : owed (conn (standby (pw_dual_conn (pt_worker t)))) = None;
}.

Lemma thread_new_st `{QueueLaws Q, QueueLaws X, PendingView QC} {HC}
    (t : ParThread Q X (ConnState HC QC)) i : thread_new t → worker_st [] [] i (pt_worker t).
Proof.
  intros [Htr Hr Hrx Hi Hj Ha Hs]. split.
  - split; unfold owes_P, arriving; rewrite ?Htr, ?Hr, ?Hi, ?Ha, ?Hs, ?Hrx; by try constructor.
  - unfold fresh, arriving. rewrite Hrx. constructor.
  - lia.
  - unfold outstanding, count_of. rewrite Hr, Hi, Ha, Hs, Hj. done.
  - rewrite Htr, Hj. done.
Qed.

Lemma sys_init_inv `{QueueLaws Q, QueueLaws X, PendingView QC} {W HC} codecs
    (threads : list (ParThread Q X (ConnState HC QC))) (w : W) :
  Forall thread_new threads → length threads = length codecs →
  sys_inv codecs (sys_init threads w).
Proof.
  intros Hnew Hl. split; cbn [sy_workers sy_triggered sy_sunk sys_init];
    [by rewrite length_fmap| |constructor].
  intros i p scratch. rewrite list_lookup_fmap_Some. intros (t&[= -> ->]&Ht).
  rewrite Forall_lookup in Hnew. by apply thread_new_st, (Hnew _ _ Ht).
Qed.

(** What the invariant says of the sink. *)
Lemma sys_inv_sound `{QueueLaws Q, PendingView QC, QueueView X} {W HC} codecs
    (st : Sys Q X W (ConnState HC QC)) :
  sys_inv codecs st →
  Forall (λ o, (∃ job, job ∈ sy_triggered st ∧ job_id job = po_job o) ∧
               ∃ i, (i < length codecs)%nat ∧ po_provider o = provider_id i) (sy_sunk st) ∧
  ∀ i, (i < length codecs)%nat → count_of i (sy_sunk st) ≤ zlen (sy_triggered st).
Proof.
  intros [Hc Hws Hs]. split; [done|]. intros i Hi. rewrite <- Hc in Hi.
  destruct (lookup_lt_is_Some_2 _ _ Hi) as [[p scratch] Hp].
  destruct (Hws _ _ _ Hp) as [_ _ Hj Ho Ht].
  assert (0 ≤ outstanding p).
  { unfold outstanding. pose proof (zlen_nonneg (items (pw_result_tx p))).
    pose proof (one_bound (pw_inflight p)).
    pose proof (one_bound (owed (conn (active (pw_dual_conn p))))).
    pose proof (one_bound (owed (conn (standby (pw_dual_conn p))))). lia. }
  pose proof (zlen_nonneg (items (pw_trigger p))). lia.
Qed.

(** C1: end to end, the sink is never told anything the caller did not ask for.
    In every interleaving of triggers, worker passes, lane passes and
    reconnects, each outcome the sink receives is of a job that was triggered
    and of one of the configured providers, and a provider yields at most as
    many outcomes as jobs were triggered: failovers, reconnections, full rings
    and repeated passes never invent one. *)
Theorem outcomes_sound `{BuildProfile} {SB : SinkBehaviour} `{QueueLaws Q} `{QueueLaws X}
    `{Clock W, TxSource W, Idle W} `{PendingLaws W HC QC} `{ReconnectBuilder W (ConnState HC QC)}
    codecs (threads : list (ParThread Q X (ConnState HC QC))) (w : W) st :
  Forall thread_new threads → length threads = length codecs →
  (length codecs ≤ Z.to_nat U16)%nat →
  (∀ i k w, post (rb_build i k) w (λ r _, ∀ c, r = Ok (BoxConn c) → owed c = None)) →
  rtc (sys_step codecs) (sys_init threads w) st →
  zlen (sy_triggered st) < U64 - 1 →
  Forall (λ o, (∃ job, job ∈ sy_triggered st ∧ job_id job = po_job o) ∧
               ∃ i, (i < length codecs)%nat ∧ po_provider o = provider_id i) (sy_sunk st) ∧
  ∀ i, (i < length codecs)%nat → count_of i (sy_sunk st) ≤ zlen (sy_triggered st).
Proof.
  intros Hnew Hl Hn Hb Hsteps Htr. apply sys_inv_sound.
  exact (inv_steps _ _ _ Hb Hn Htr Hsteps (sys_init_inv codecs threads w Hnew Hl)).
Qed.

#[local] Existing Instance quiet_sink.

#[export] Instance demo_builder : ReconnectBuilder demo_world demo_cs := λ _ _, mret (Err NotSupported).

Lemma demo_builder_fresh i k w :
  post (rb_build i k) w (λ r _, ∀ c : demo_cs, r = Ok (BoxConn c) → owed c = None).
Proof. done. Qed.

Definition sample_threads : list (ParThread list_queue list_queue demo_cs) :=
  let c := CsQuic (mkDemoQuic None false) in [mkParThread (demo_par 0 [] c c) None None].

(** A job triggered, sent, and its missing response reported. *)
Definition sample_run : Sys list_queue list_queue demo_world demo_cs :=
  do_lane [JsonRpcCodec] (do_worker (H := true) 0
    (do_trigger (mkJob 7 0) (sys_init sample_threads (mkDemoWorld 0)))).

Lemma outcomes_sound_witness :
  sy_sunk sample_run = [mkProviderOutcome 7 (provider_id 0) NoResponse 0 1] ∧
  count_of 0 (sy_sunk sample_run) ≤ zlen (sy_triggered sample_run).
Proof.
  split; [vm_compute; reflexivity|].
  assert (Forall thread_new sample_threads) as Hnew by (by repeat constructor).
  assert (length [JsonRpcCodec] ≤ Z.to_nat U16)%nat as Hu by (unfold U16; cbn [length]; lia).
  edestruct (outcomes_sound (H := true) [JsonRpcCodec] sample_threads (mkDemoWorld 0) sample_run)
    as [_ Hc]; [exact Hnew|reflexivity|exact Hu|exact demo_builder_fresh| |vm_compute; reflexivity|].
  - etrans; [apply do_trigger_steps|]. etrans; [apply do_worker_steps|]. apply do_lane_steps.
  - apply (Hc O), Nat.lt_0_succ.
Defined.
