(* ===== verification/SeqSystem.v ===== *)
(** The sequential sender as a whole: the caller, the one worker, the result
    lane and the reconnect thread, interleaved. Its states are seen as states
    of the parallel system, one worker per provider ([view]), so that what is
    proved of the caller, the lane and the reconnect thread there holds here;
    the worker's pass is followed provider by provider through
    [sequential_is_parallel]'s lemmas. *)
From S2P Require Import Prelude Types Ring Response Registry Lane Quic Conn Reconnect Parallel Sequential Sender WorkerInv Demo System.
From stdpp Require Import options.

Record SeqSys (Q X : Type → Type) (W CS : Type) := mkSeqSys {
  qs_worker : SeqWorker Q X CS;
  qs_scratch : bytes;
  qs_world : W;
  qs_sunk : list ProviderOutcome;
  qs_triggered : list Job;
}.
Arguments mkSeqSys {Q X W CS}.
Arguments qs_worker {Q X W CS}.
Arguments qs_scratch {Q X W CS}.
Arguments qs_world {Q X W CS}.
Arguments qs_sunk {Q X W CS}.
Arguments qs_triggered {Q X W CS}.

Section steps.
Context `{BuildProfile} `{BoundedQueue Q, QueueView Q} `{BoundedQueue X}.
Context `{Conns W HC QC} `{Clock W, TxSource W, Idle W} `{ReconnectBuilder W (ConnState HC QC)}.
Abbreviation CS := (ConnState HC QC).
Context {SB : SinkBehaviour} (codecs : list ResponseCodec).

Inductive seq_step : SeqSys Q X W CS → SeqSys Q X W CS → Prop :=
| seq_trigger s scratch w sunk tr job r tx :
    trigger (Single (sw_trigger s)) job = (r, Single tx) →
    seq_step (mkSeqSys s scratch w sunk tr)
      (mkSeqSys (Seq.with_trigger tx s) scratch w sunk (tr ++ [job]))
| seq_worker s scratch w sunk tr s' scratch' w' :
    Seq.seq_pass s scratch w = Ret (s', scratch', w') →
    seq_step (mkSeqSys s scratch w sunk tr) (mkSeqSys s' scratch' w' sunk tr)
| seq_lane s scratch w sunk tr waits l sunk' :
    lane_pass (rings_fuel (sw_result_tx s)) (mkResultLane (sw_result_tx s) codecs) sunk
      = Ret (waits, l, sunk') →
    seq_step (mkSeqSys s scratch w sunk tr)
      (mkSeqSys (Seq.with_result_tx (rl_rings l) s) scratch w sunk' tr)
| seq_reconnect s scratch w sunk tr stop disconnected goes_on l w' :
    reconnect_pass stop disconnected
      (mkReconnectLoop (sw_reconnect_req_tx s) (sw_reconnect_resp_rx s)) w = Ret (goes_on, l, w') →
    seq_step (mkSeqSys s scratch w sunk tr)
      (mkSeqSys (Seq.with_req_tx (rcl_req_rx l) (Seq.with_resp_rx (rcl_resp_txs l) s))
         scratch w' sunk tr).

(** The state [build] leaves. *)
Definition seq_init (s : SeqWorker Q X CS) (w : W) : SeqSys Q X W CS :=
  mkSeqSys s (Backend.zeroes (Z.to_nat MAX_TX_LEN)) w [] [].

(** The steps as functions, to run a schedule. *)
Definition seq_do_trigger (job : Job) (st : SeqSys Q X W CS) : SeqSys Q X W CS :=
  mkSeqSys (Seq.with_trigger (try_push job (sw_trigger (qs_worker st))).2 (qs_worker st))
    (qs_scratch st) (qs_world st) (qs_sunk st) (qs_triggered st ++ [job]).
Definition seq_do_pass (st : SeqSys Q X W CS) : SeqSys Q X W CS :=
  match Seq.seq_pass (qs_worker st) (qs_scratch st) (qs_world st) with
  | Ret (s, scratch, w) => mkSeqSys s scratch w (qs_sunk st) (qs_triggered st)
  | _ => st
  end.
Definition seq_do_lane (st : SeqSys Q X W CS) : SeqSys Q X W CS :=
  match lane_pass (rings_fuel (sw_result_tx (qs_worker st)))
          (mkResultLane (sw_result_tx (qs_worker st)) codecs) (qs_sunk st) with
  | Ret (_, l, sunk) =>
      mkSeqSys (Seq.with_result_tx (rl_rings l) (qs_worker st)) (qs_scratch st) (qs_world st) sunk
        (qs_triggered st)
  | _ => st
  end.

Lemma seq_do_trigger_steps job st : rtc seq_step st (seq_do_trigger job st).
Proof.
  destruct st as [s scratch w sunk tr]. apply rtc_once. unfold seq_do_trigger. cbn.
  apply (seq_trigger s scratch w sunk tr job
    (if is_ok (try_push job (sw_trigger s)).1 then Ok () else Err Backpressure)).
  unfold trigger. by destruct (try_push job (sw_trigger s)).
Qed.
Lemma seq_do_pass_steps st : rtc seq_step st (seq_do_pass st).
Proof.
  destruct st as [s scratch w sunk tr]. unfold seq_do_pass. cbn [qs_worker qs_scratch qs_world].
  destruct (Seq.seq_pass _ _ _) as [[[s' scratch'] w']| |] eqn:E; [|done..].
  apply rtc_once. by eapply seq_worker.
Qed.
Lemma seq_do_lane_steps st : rtc seq_step st (seq_do_lane st).
Proof.
  destruct st as [s scratch w sunk tr]. unfold seq_do_lane. cbn [qs_worker qs_sunk].
  destruct (lane_pass _ _ _) as [[[waits l] sunk']| |] eqn:E; [|done..].
  apply rtc_once. by eapply seq_lane.
Qed.

Lemma seq_steps_mono st st' :
  rtc seq_step st st' → zlen (qs_triggered st) ≤ zlen (qs_triggered st').
Proof. induction 1 as [|? ? ? Hs _ IH]; [done|]. destruct Hs; cbn in *; revert IH; len. Qed.
End steps.

(** * The providers of a sequential worker *)

Section lanes.
Context {Q X : Type → Type} {CS : Type}.
Implicit Types (s : SeqWorker Q X CS) (p : ParWorker Q X CS).

(** Every list of the worker has one entry per provider. *)
Record regular (n : nat) (s : SeqWorker Q X CS) : Prop := {
  rg_conns : length (sw_conns s) = n;
  rg_results : length (sw_result_tx s) = n;
  rg_inflight : length (sw_inflight s) = n;
  rg_resp : length (sw_reconnect_resp_rx s) = n;
  rg_diag : length (sw_diag s) = n;
  rg_jobs : length (sw_jobs_sent s) = n;
}.

Lemma regular_wide n s i : regular n s → (i < n)%nat → wide i s.
Proof. intros [] Hi. split; lia. Qed.

Lemma wide_lane i s : wide i s → is_Some (get_lane i s).
Proof.
  intros [Hc Hr Hi Hx Hd Hj]. unfold get_lane.
  destruct (lookup_lt_is_Some_2 _ _ Hc) as [? ->]. destruct (lookup_lt_is_Some_2 _ _ Hr) as [? ->].
  destruct (lookup_lt_is_Some_2 _ _ Hi) as [? ->]. destruct (lookup_lt_is_Some_2 _ _ Hx) as [? ->].
  destruct (lookup_lt_is_Some_2 _ _ Hd) as [? ->]. destruct (lookup_lt_is_Some_2 _ _ Hj) as [? ->].
  by eexists.
Qed.

Lemma regular_put n s i p : regular n s → regular n (put_lane i s p).
Proof. intros []. split; cbn; by rewrite length_insert. Qed.

(** [pj] with the parts the providers share taken from [p]. *)
Definition shared p pj : ParWorker Q X CS :=
  with_trigger (pw_trigger p) (with_req_tx (pw_reconnect_req_tx p) (with_tick (pw_tick p) pj)).

Lemma get_lane_other i j s p :
  i ≠ j → get_lane j (put_lane i s p) = shared p <$> get_lane j s.
Proof.
  intros Hij. unfold get_lane, put_lane. cbn. rewrite !list_lookup_insert_ne by done.
  repeat (match goal with |- context [?l !! j] => destruct (l !! j) end; cbn); reflexivity.
Qed.

(** [p] with its place in the worker. *)
Definition relabel i k p : ParWorker Q X CS :=
  mkParWorker i (pw_trigger p) (pw_result_tx p) (pw_dual_conn p) (pw_inflight p)
    (pw_reconnect_req_tx p) (pw_reconnect_resp_rx p) k (pw_tick p) (pw_diag p) (pw_jobs_sent p).

Lemma get_lane_same i s p :
  wide i s → get_lane i (put_lane i s p) = Some (relabel i (sw_conn_kind s) p).
Proof. intros []. unfold get_lane, put_lane. cbn. by rewrite !list_lookup_insert_eq by done. Qed.

(** What an update of the whole worker is to a provider. *)
Ltac lane_of :=
  unfold get_lane; cbn;
  repeat (match goal with |- context [?l !! ?i] => destruct (l !! i) end; cbn); reflexivity.

Lemma get_lane_trigger i t s : get_lane i (Seq.with_trigger t s) = with_trigger t <$> get_lane i s.
Proof. lane_of. Qed.
Lemma get_lane_tick i t s : get_lane i (Seq.with_tick t s) = with_tick t <$> get_lane i s.
Proof. lane_of. Qed.
Lemma get_lane_req i x s : get_lane i (Seq.with_req_tx x s) = with_req_tx x <$> get_lane i s.
Proof. lane_of. Qed.
Lemma get_lane_resp i xs s x :
  wide i s → xs !! i = Some x →
  get_lane i (Seq.with_resp_rx xs s) = with_resp_rx x <$> get_lane i s.
Proof.
  intros [_ _ _ Hw _ _] Hx. apply lookup_lt_is_Some_2 in Hw as [y Hy].
  unfold get_lane. cbn. rewrite Hx, Hy. lane_of.
Qed.
Lemma get_lane_result i rs s r :
  wide i s → rs !! i = Some r →
  get_lane i (Seq.with_result_tx rs s) = with_result_tx r <$> get_lane i s.
Proof.
  intros [_ Hw _ _ _ _] Hr. apply lookup_lt_is_Some_2 in Hw as [y Hy].
  unfold get_lane. cbn. rewrite Hr, Hy. lane_of.
Qed.

(** [P] holds of every provider. *)
Definition lanes_hold (n : nat) (P : nat → ParWorker Q X CS → Prop) s : Prop :=
  regular n s ∧ ∀ i p, get_lane i s = Some p → P i p.

Lemma get_lane_trigger_of i s p : get_lane i s = Some p → pw_trigger p = sw_trigger s.
Proof.
  unfold get_lane. intros Hg. repeat (apply bind_Some in Hg as (?&_&Hg)). by injection Hg as <-.
Qed.

Lemma lanes_hold_lt n P s i p : lanes_hold n P s → get_lane i s = Some p → (i < n)%nat.
Proof.
  intros [Hr _] Hg. apply get_lane_wide in Hg as [Hc _ _ _ _ _]. by rewrite <- (rg_conns _ _ Hr).
Qed.

Lemma lane_exists n P s i : lanes_hold n P s → (i < n)%nat → ∃ p, get_lane i s = Some p.
Proof. intros [Hr _] Hi. apply wide_lane. by eapply regular_wide. Qed.

(** Provider [i] moves, the others stay. *)
Lemma lanes_hold_put n (P P' : nat → ParWorker Q X CS → Prop) s i p p' :
  lanes_hold n P s → get_lane i s = Some p → P' i (relabel i (sw_conn_kind s) p') →
  (∀ j pj, j ≠ i → pw_trigger pj = pw_trigger p → P j pj → P' j (shared p' pj)) →
  lanes_hold n P' (put_lane i s p').
Proof.
  intros [Hr Hl] Hg Hp' Hother. split; [by apply regular_put|]. intros j pj.
  destruct (decide (i = j)) as [<-|Hij].
  - rewrite get_lane_same by (by eapply get_lane_wide). by intros [= <-].
  - rewrite get_lane_other by done. intros (pj0&Hj&->)%fmap_Some.
    apply Hother; [done| |by apply Hl].
    by rewrite (get_lane_trigger_of _ _ _ Hj), (get_lane_trigger_of _ _ _ Hg).
Qed.

(** An update [f] of what the providers share. *)
Lemma lanes_hold_map n (P P' : nat → ParWorker Q X CS → Prop) f s s' :
  (∀ i, get_lane i s' = f <$> get_lane i s) → (regular n s → regular n s') →
  (∀ i p, pw_trigger p = sw_trigger s → P i p → P' i (f p)) → lanes_hold n P s → lanes_hold n P' s'.
Proof.
  intros Hf Hr' HP [Hr Hl]. split; [by apply Hr'|]. intros i p'. rewrite Hf.
  intros (p&Hp&->)%fmap_Some. apply HP; [by eapply get_lane_trigger_of|by apply Hl].
Qed.

(** The providers of [s], as parallel workers. *)
Definition lanes (n : nat) s : list (ParWorker Q X CS) := omap (λ i, get_lane i s) (seq 0 n).

Lemma omap_seq_lookup {A} (f : nat → option A) b n i :
  (∀ j, (b ≤ j < b + n)%nat → is_Some (f j)) →
  omap f (seq b n) !! i = if decide (i < n)%nat then f (b + i)%nat else None.
Proof.
  revert b i. induction n as [|n IH]; intros b i Hf; cbn; [done|].
  destruct (Hf b) as [x Hx]; [lia|]. rewrite Hx. destruct i as [|i]; cbn.
  - by rewrite Nat.add_0_r, Hx.
  - rewrite IH by (intros j Hj; apply Hf; lia).
    replace (b + S i)%nat with (S b + i)%nat by lia.
    destruct (decide (i < n)%nat), (decide (S i < S n)%nat); done || lia.
Qed.

Lemma lanes_lookup n s i :
  regular n s → lanes n s !! i = if decide (i < n)%nat then get_lane i s else None.
Proof.
  intros Hr. apply omap_seq_lookup. intros j Hj. apply wide_lane.
  eapply regular_wide; [done|lia].
Qed.

Lemma length_lanes n s : regular n s → length (lanes n s) = n.
Proof.
  intros Hr. apply Nat.le_antisymm.
  - apply Nat.nlt_ge. intros Hlt. destruct (lookup_lt_is_Some_2 _ _ Hlt) as [p Hp].
    rewrite lanes_lookup in Hp by done. case_decide; [lia|done].
  - destruct n as [|n]; [lia|]. assert (is_Some (lanes (S n) s !! n)) as Hl%lookup_lt_is_Some_1; [|lia].
    rewrite lanes_lookup, decide_True by (done || lia). apply wide_lane.
    eapply regular_wide; [done|lia].
Qed.
End lanes.

(** * A pass *)

Lemma for_world_inv {Q X HC QC W} `{Modality W wp}
    (J : SeqWorker Q X (ConnState HC QC) → Prop)
    (body : nat → SeqWorker Q X (ConnState HC QC) → M W (SeqWorker Q X (ConnState HC QC))) k i s w :
  (∀ j s w, (j < i + k)%nat → J s → wp _ (body j s) w (λ s' _, J s')) → J s →
  wp _ (Seq.for_world k i body s) w (λ s' _, J s').
Proof.
  revert i s w. induction k as [|k IH]; intros i s w Hb Hs; cbn [Seq.for_world]; [by apply wp_ret|].
  apply wp_bind. eapply wp_mono; [apply Hb; [lia|done]|]. intros s' w' Hs'.
  apply IH; [|done]. intros j s1 w1 Hj. apply Hb. lia.
Qed.

Section pass.
Context `{BuildProfile} `{QL : QueueLaws Q} `{XL : QueueLaws X}.
Context `{Clock W, TxSource W, Idle W} `{PL : PendingLaws W HC QC}.
Abbreviation CS := (ConnState HC QC).
Context (n : nat) (tr : list Job) (sunk : list ProviderOutcome) (Htr : zlen tr < U64 - 1).
Implicit Types (s : SeqWorker Q X CS) (p : ParWorker Q X CS).

(** [worker_st] of System.v, with room for [b] more sends. *)
Record lane_st (b : Z) (i : nat) (p : ParWorker Q X CS) : Prop := {
  ls_inv : worker_inv (was_triggered tr) i p;
  ls_fresh : fresh p;
  ls_jobs : 0 ≤ pw_jobs_sent p;
  ls_outcomes : count_of i sunk + outstanding p ≤ pw_jobs_sent p;
  ls_taken : pw_jobs_sent p + zlen (items (pw_trigger p)) + b ≤ zlen tr;
}.

Lemma lane_st_worker i p : lane_st 0 i p ↔ worker_st tr sunk i p.
Proof. split; intros []; split; done || lia. Qed.

Lemma lane_st_shared b i p pj :
  pw_trigger p = pw_trigger pj → lane_st b i pj → lane_st b i (shared p pj).
Proof.
  intros Ht [Hi Hf Hj Ho Hk]. split; try done; [|cbn; by rewrite Ht].
  destruct Hi. split; try done. cbn. by rewrite Ht.
Qed.

Lemma lane_st_relabel b i k p : lane_st b i p → lane_st b i (relabel i k p).
Proof. intros [Hi Hf Hj Ho Hk]. split; try done. by destruct Hi; split. Qed.

Lemma lane_st_le b b' i p : b' ≤ b → lane_st b i p → lane_st b' i p.
Proof. intros Hb []. split; done || lia. Qed.

(** A provider's step that sends at most what it has room for. *)
Lemma lane_st_covered b b' i p p' :
  worker_inv (was_triggered tr) i p' → (∃ k, 0 ≤ k ≤ b - b' ∧ covered k p p') →
  lane_st b i p → lane_st b' i p'.
Proof.
  intros Hi (k&Hk&Hf&Hj&Ht&_) [_ Hfr Hjs Ho Htk]. destruct (Hf Hfr) as [Hfr' Ho'].
  split; [done|done|lia|lia|]. rewrite Ht. lia.
Qed.

(** Every provider is in order and has room for its part of [b]. *)
Definition lanes_st (b : nat → Z) : SeqWorker Q X CS → Prop := lanes_hold n (λ i, lane_st (b i) i).

Lemma lanes_st_ext b b' s :
  (∀ i, (i < n)%nat → b' i ≤ b i) → lanes_st b s → lanes_st b' s.
Proof.
  intros Hb Hs. split; [apply Hs|]. intros i p Hg. eapply lane_st_le; [|by apply Hs].
  apply Hb. by eapply lanes_hold_lt.
Qed.

Lemma lanes_st_put b b' s i p p' :
  lanes_st b s → get_lane i s = Some p → pw_trigger p' = pw_trigger p →
  (∀ j, j ≠ i → b' j ≤ b j) → lane_st (b' i) i p' → lanes_st b' (put_lane i s p').
Proof.
  intros Hs Hg Ht Hb Hp'. eapply lanes_hold_put; [done..|by apply lane_st_relabel|].
  intros j pj Hj Htj Hpj. apply lane_st_shared; [by rewrite Ht, Htj|].
  eapply lane_st_le; [|exact Hpj]. by apply Hb.
Qed.

(** A step of the sequential worker that is a provider's step [m]. *)
Lemma lanes_st_lift b b' s i p (m : M W (ParWorker Q X CS)) (m' : M W (SeqWorker Q X CS)) w :
  lanes_st b s → get_lane i s = Some p → (∀ w, m' w = mapM (put_lane i s) m w) →
  (∀ j, j ≠ i → b' j ≤ b j) →
  post m w (λ p' _, worker_inv (was_triggered tr) i p') →
  post m w (λ p' _, ∃ k, 0 ≤ k ≤ b i - b' i ∧ covered k p p') →
  post m' w (λ s' _, lanes_st b' s').
Proof.
  intros Hs Hg Hm Hb Hi Hk. unfold post in *. rewrite Hm. unfold mapM, mbind, M_bind, mret, M_ret.
  destruct (m w) as [[p' w']| |]; [|done..].
  eapply lanes_st_put; [done..| | |].
  - by destruct Hk as (k&_&_&_&Ht&_).
  - done.
  - eapply lane_st_covered; [done..|]. by apply Hs.
Qed.

Lemma lane_jobs b i p : 0 ≤ b → lane_st b i p → 0 ≤ pw_jobs_sent p < U64 - 1.
Proof using Htr. intros Hb []. pose proof (zlen_nonneg (items (pw_trigger p))). lia. Qed.

(** ** The operations *)

(** The room left when provider [i] is the next to send. *)
Definition sending (i : nat) : nat → Z := λ j, if (j <? i)%nat then 0 else 1.

Lemma seq_send s i job t len scratch w :
  (∀ t, was_triggered tr (job_id job) t) → (i < n)%nat → lanes_st (sending i) s →
  post (Seq.send_to s i job t len scratch) w (λ s' _, lanes_st (sending (S i)) s').
Proof using PL Htr.
  intros HP Hi Hs. destruct (lane_exists _ _ _ _ Hs Hi) as [p Hg].
  pose proof (proj2 Hs _ _ Hg) as Hp. unfold sending in Hp. rewrite Nat.ltb_irrefl in Hp.
  eapply lanes_st_lift; [exact Hs|exact Hg|intros; by apply send_to_lane| | |].
  - intros j Hj. unfold sending. destruct (Nat.ltb_spec j i), (Nat.ltb_spec j (S i)); lia.
  - apply inv_send_to; [done|apply Hp].
  - eapply post_mono; [apply covered_send_to; eapply lane_jobs; [|exact Hp]; lia|].
    intros p' ? (k&Hk&Hc). exists k. split; [|done]. unfold sending.
    rewrite Nat.ltb_irrefl, (proj2 (Nat.ltb_lt i (S i))) by lia. lia.
Qed.

Abbreviation steady := (λ _ : nat, 0).

Lemma seq_drive s i w :
  (i < n)%nat → lanes_st steady s → post (Seq.drive_active i s) w (λ s' _, lanes_st steady s').
Proof using PL.
  intros Hi Hs. destruct (lane_exists _ _ _ _ Hs Hi) as [p Hg]. pose proof (proj2 Hs _ _ Hg) as Hp.
  eapply lanes_st_lift; [exact Hs|exact Hg|intros; by apply drive_lane|done|apply inv_drive, Hp|].
  eapply post_mono; [apply covered_drive|]. intros p' ? Hc. exists 0. by split.
Qed.

Lemma seq_reap s i w :
  (i < n)%nat → lanes_st steady s →
  post (Seq.reap s i (provider_id i)) w (λ s' _, lanes_st steady s').
Proof using PL QL.
  intros Hi Hs. destruct (lane_exists _ _ _ _ Hs Hi) as [p Hg]. pose proof (proj2 Hs _ _ Hg) as Hp.
  eapply lanes_st_lift; [exact Hs|exact Hg|intros; by apply reap_lane|done|apply inv_reap, Hp|].
  eapply post_mono; [apply covered_reap|]. intros p' ? Hc. exists 0. by split.
Qed.

(** A provider's step that does not touch the world. *)
Lemma lanes_st_pure s i p p' :
  lanes_st steady s → get_lane i s = Some p → worker_inv (was_triggered tr) i p' →
  covered 0 p p' → lanes_st steady (put_lane i s p').
Proof.
  intros Hs Hg Hi Hc. eapply lanes_st_put; [done|done|apply Hc|done|].
  apply (lane_st_covered 0 0 i p p'); [done|exists 0; by split|by apply (proj2 Hs)].
Qed.

Lemma seq_check_standby s i s' :
  (i < n)%nat → lanes_st steady s → Seq.check_standby_delivery i s = Ret s' → lanes_st steady s'.
Proof using XL.
  intros Hi Hs. destruct (lane_exists _ _ _ _ Hs Hi) as [p Hg].
  pose proof (ls_inv _ _ _ (proj2 Hs _ _ Hg)) as Hp.
  rewrite (check_standby_lane i s p Hg) by apply Hp. intros [= <-].
  eapply lanes_st_pure; [done..|by apply inv_check_standby|apply covered_check_standby].
Qed.

Lemma seq_publish s i s' :
  (i < n)%nat → lanes_st steady s → Seq.publish_diag_one i s = Ret s' → lanes_st steady s'.
Proof.
  intros Hi Hs. destruct (lane_exists _ _ _ _ Hs Hi) as [p Hg].
  rewrite (publish_lane i s p Hg). intros [= <-].
  eapply lanes_st_pure; [done..|apply inv_publish, (proj2 Hs _ _ Hg)|apply covered_publish].
Qed.

(** ** The loops *)

Lemma for_pure_inv (J : SeqWorker Q X CS → Prop) (body : nat → SeqWorker Q X CS → outcome (SeqWorker Q X CS)) k i s s' :
  (∀ j s s', (j < i + k)%nat → J s → body j s = Ret s' → J s') → J s →
  Seq.for_pure k i body s = Ret s' → J s'.
Proof.
  revert i s. induction k as [|k IH]; intros i s Hb Hs; cbn [Seq.for_pure]; [by intros [= <-]|].
  intros (s1&Hb1&Hs1)%bind_Ret. eapply (IH (S i) s1); [|eapply Hb; [|exact Hs|exact Hb1]; lia|done].
  intros j s2 s3 Hj. apply Hb. lia.
Qed.

Lemma seq_send_all k i job t s scratch w :
  (∀ t, was_triggered tr (job_id job) t) → (i + k = n)%nat → lanes_st (sending i) s →
  post (Seq.send_all k i job t s scratch) w (λ '(s', _) _, lanes_st (sending n) s').
Proof using PL Htr.
  intros HP. revert i s scratch w. induction k as [|k IH]; intros i s scratch w Hi Hs;
    cbn [Seq.send_all].
  { apply post_ret. by replace n with i by lia. }
  apply post_bind, post_any. intros [len scratch'] w'.
  apply post_bind. eapply post_mono; [apply seq_send; [done|lia|done]|].
  intros s' w'' Hs'. apply IH; [lia|done].
Qed.

Lemma seq_housekeeping s s' :
  lanes_st steady s → Seq.housekeeping s = Ret s' → lanes_st steady s'.
Proof using XL.
  intros Hs (s1&Hb1&Hb2)%bind_Ret.
  assert (lanes_st steady s1) as Hs1.
  { eapply for_pure_inv; [|exact Hs|exact Hb1]. intros j s2 s3 Hj. apply seq_check_standby.
    destruct Hs as [Hr _]. rewrite (rg_resp _ _ Hr) in Hj. lia. }
  eapply for_pure_inv; [|exact Hs1|exact Hb2]. intros j s2 s3 Hj. apply seq_publish.
  destruct Hs1 as [Hr _]. rewrite (rg_diag _ _ Hr) in Hj. lia.
Qed.

Lemma lanes_st_tick t s : lanes_st steady s → lanes_st steady (Seq.with_tick t s).
Proof.
  apply lanes_hold_map with (f := with_tick t); [intros; apply get_lane_tick|by intros []|].
  intros i p _ [Hi]. split; try done. by destruct Hi; split.
Qed.

Lemma lanes_st_trigger b b' s t :
  (∀ i p, lane_st (b i) i p → pw_trigger p = sw_trigger s → lane_st (b' i) i (with_trigger t p)) →
  lanes_st b s → lanes_st b' (Seq.with_trigger t s).
Proof.
  intros Hb. apply lanes_hold_map with (f := with_trigger t); [intros; apply get_lane_trigger|by intros []|].
  intros i p Ht Hp. by apply Hb.
Qed.

Lemma lanes_st_req x s : lanes_st steady s → lanes_st steady (Seq.with_req_tx x s).
Proof.
  apply lanes_hold_map with (f := with_req_tx x); [intros; apply get_lane_req|by intros []|].
  intros i p _ [Hi]. split; try done. by destruct Hi; split.
Qed.

(** ** The phases *)

Lemma seq_take_job s scratch w :
  lanes_st steady s →
  post (Seq.take_job s scratch) w (λ '(s', _) _, lanes_st steady s').
Proof using PL QL Htr.
  intros Hs. unfold Seq.take_job. destruct (items (sw_trigger s)) as [|job js] eqn:E.
  { rewrite try_pop_nil by done. apply post_ret. eapply lanes_st_trigger; [|exact Hs].
    intros i p Hp Ht. rewrite <- Ht. by destruct p. }
  destruct (try_pop_cons _ _ _ E) as (Hpop&Hit&_). destruct (try_pop _) as [o t].
  cbn in Hpop, Hit. subst o. apply post_bind, post_call. cbv beta iota.
  assert (lanes_st (sending 0) (Seq.with_trigger t s)) as Hs0.
  { eapply lanes_st_trigger; [|exact Hs]. intros i p [Hi Hf Hj Ho Hk] Ht.
    split; try done.
    - destruct Hi as [Htr' ? ? ? ? ? ?]. split; try done. cbn. rewrite Hit.
      rewrite Ht, E in Htr'. by apply Forall_cons in Htr' as [_ ?].
    - cbn. rewrite Ht, E, zlen_cons in Hk. rewrite Hit. lia. }
  assert (n = O ∨ ∀ t, was_triggered tr (job_id job) t) as Hjob.
  { destruct n as [|m] eqn:En; [by left|right]. destruct (lane_exists _ _ s 0 Hs) as [p Hg];
      [lia|]. destruct (ls_inv _ _ _ (proj2 Hs _ _ Hg)) as [Ht _ _ _ _ _ _].
    unfold get_lane in Hg. repeat (apply bind_Some in Hg as (?&_&Hg)). simplify_eq/=.
    rewrite E in Ht. by apply Forall_cons in Ht as [? _]. }
  cbn [Seq.with_trigger sw_conns]. rewrite (rg_conns _ _ (proj1 Hs)). apply post_bind.
  apply (post_mono _ _ (λ '(s', _) _, lanes_st (sending n) s')).
  { destruct Hjob as [Hn|Hjob]; [|by apply seq_send_all].
    rewrite Hn in *. by apply post_ret. }
  intros [s1 scratch'] w1 Hs1.
  assert (lanes_st steady s1) as Hs2.
  { eapply lanes_st_ext; [|exact Hs1]. intros i Hi. unfold sending.
    by rewrite (proj2 (Nat.ltb_lt i n)). }
  apply post_bind. eapply post_mono; [apply (for_world_inv (lanes_st steady)); [|exact Hs2]|].
  - intros j s3 w3 Hj. apply seq_drive. rewrite (rg_conns _ _ (proj1 Hs2)) in Hj. lia.
  - intros s3 w3 Hs3. by apply post_ret.
Qed.

Lemma seq_pass_st s scratch w :
  lanes_st steady s →
  post (Seq.seq_pass s scratch) w (λ '(s', _) _, lanes_st steady s').
Proof using PL QL XL Htr.
  intros Hs. unfold Seq.seq_pass. apply post_bind. eapply post_mono; [by apply seq_take_job|].
  intros [s1 scratch1] w1 Hs1. apply post_bind.
  eapply post_mono; [apply (for_world_inv (lanes_st steady)); [|exact Hs1]|].
  { intros j s2 w2 Hj Hs2. rewrite (rg_conns _ _ (proj1 Hs1)) in Hj. unfold Seq.drive_and_reap.
    apply post_bind. eapply post_mono; [apply seq_drive; [lia|done]|].
    intros s3 w3 Hs3. apply seq_reap; [lia|done]. }
  intros s2 w2 Hs2. apply post_bind, post_pure. intros s3 Ht.
  assert (lanes_st steady s3) as Hs3.
  { unfold Seq.tick_phase in Ht.
    apply (lanes_st_tick ((sw_tick s2 + 1) mod U32)) in Hs2.
    case_match; [by eapply seq_housekeeping|by simplify_eq]. }
  apply post_bind. unfold Seq.idle_phase.
  case_match; [|by apply post_ret, post_ret]. apply post_bind, post_call, post_pure.
  intros s4 Hs4. apply post_ret. by eapply seq_housekeeping.
Qed.
End pass.

(** * The system *)

Section invariant.
Context `{BuildProfile} `{QL : QueueLaws Q} `{XL : QueueLaws X}.
Context `{Clock W, TxSource W, Idle W} `{PL : PendingLaws W HC QC}.
Context `{RB : ReconnectBuilder W (ConnState HC QC)}.
Abbreviation CS := (ConnState HC QC).
Context {SB : SinkBehaviour} (codecs : list ResponseCodec).
Abbreviation n := (length codecs).
Implicit Types (s : SeqWorker Q X CS) (st : SeqSys Q X W CS).

(** The state as one of the parallel system. *)
Definition lanes_of (scratch : bytes) s : list (ParWorker Q X CS * bytes) :=
  (λ p, (p, scratch)) <$> lanes n s.
Definition view st : Sys Q X W CS :=
  mkSys (lanes_of (qs_scratch st) (qs_worker st)) (sw_reconnect_req_tx (qs_worker st))
    (qs_world st) (qs_sunk st) (qs_triggered st).

Definition seq_inv st : Prop := regular n (qs_worker st) ∧ sys_inv codecs (view st).

Lemma lanes_of_lookup scratch s i :
  regular n s → lanes_of scratch s !! i
  = if decide (i < n)%nat then (λ p, (p, scratch)) <$> get_lane i s else None.
Proof.
  intros Hr. unfold lanes_of. rewrite list_lookup_fmap, lanes_lookup by done. by case_decide.
Qed.

Lemma length_lanes_of scratch s : regular n s → length (lanes_of scratch s) = n.
Proof. intros Hr. unfold lanes_of. by rewrite length_fmap, length_lanes. Qed.

(** A list seen through the providers. *)
Lemma lanes_of_fmap {A} (f : ParWorker Q X CS → A) (l : list A) scratch s :
  regular n s → length l = n → (∀ i p, get_lane i s = Some p → l !! i = Some (f p)) →
  (λ wp, f wp.1) <$> lanes_of scratch s = l.
Proof.
  intros Hr Hl Hf. apply list_eq. intros i. rewrite list_lookup_fmap, lanes_of_lookup by done.
  case_decide as Hi.
  - destruct (wide_lane i s) as [p Hp]; [by eapply regular_wide|]. rewrite Hp. cbn.
    symmetry. by apply Hf.
  - cbn. symmetry. apply lookup_ge_None. lia.
Qed.

(** An update of a list, seen through the providers. *)
Lemma lanes_of_zip {A} (f : A → ParWorker Q X CS → ParWorker Q X CS) (l : list A) scratch s s' :
  regular n s → regular n s' → length l = n →
  (∀ i x, l !! i = Some x → get_lane i s' = f x <$> get_lane i s) →
  lanes_of scratch s' = zip_with (λ x wp, (f x wp.1, wp.2)) l (lanes_of scratch s).
Proof.
  intros Hr Hr' Hl Hf. apply list_eq. intros i. rewrite lookup_zip_with.
  rewrite !lanes_of_lookup by done. case_decide as Hi.
  - destruct (lookup_lt_is_Some_2 l i) as [x Hx]; [lia|]. rewrite (Hf _ _ Hx), Hx. cbn.
    by destruct (get_lane i s).
  - destruct (l !! i); done.
Qed.

Lemma view_lanes_st st :
  seq_inv st → lanes_st n (qs_triggered st) (qs_sunk st) (λ _, 0) (qs_worker st).
Proof.
  intros [Hr [_ Hw _]]. split; [done|]. intros i p Hg. apply lane_st_worker.
  apply (Hw i p (qs_scratch st)). cbn. rewrite lanes_of_lookup by done.
  rewrite decide_True, Hg; [done|]. apply get_lane_wide in Hg as [Hc _ _ _ _ _].
  by rewrite <- (rg_conns _ _ Hr).
Qed.

Lemma lanes_st_view st :
  lanes_st n (qs_triggered st) (qs_sunk st) (λ _, 0) (qs_worker st) →
  Forall (λ o, was_triggered (qs_triggered st) (po_job o) (po_sent_at o) ∧
    ∃ i, (i < n)%nat ∧ po_provider o = provider_id i) (qs_sunk st) → seq_inv st.
Proof.
  intros [Hr Hl] Hs. split; [done|]. split; cbn; [by apply length_lanes_of| |done].
  intros i p scratch. rewrite lanes_of_lookup by done. case_decide; [|done].
  intros (p'&Hg&[= -> ->])%fmap_Some. by apply lane_st_worker, Hl.
Qed.

(** The one ring of the sequential sender stands for the rings of all
    providers. *)
Lemma push_all_same (t tx : Spsc Q Job) job r ok k :
  try_push job t = (r, tx) → (push_all (replicate k t) job ok).2 = replicate k tx.
Proof.
  intros Ht. revert ok. induction k as [|k IH]; intros ok; [done|]. cbn. rewrite Ht.
  specialize (IH (if is_ok r then ok else false)). destruct (push_all _ _ _). cbn in *. congruence.
Qed.

Lemma seq_inv_trigger s scratch w sunk tr job r tx :
  trigger (Single (sw_trigger s)) job = (r, Single tx) →
  seq_inv (mkSeqSys s scratch w sunk tr) →
  seq_inv (mkSeqSys (Seq.with_trigger tx s) scratch w sunk (tr ++ [job])).
Proof using QL.
  intros Ht [Hr Hinv]. cbn in Hr. unfold trigger in Ht.
  destruct (try_push job (sw_trigger s)) as [r' tx'] eqn:Hp. injection Ht as _ ->.
  assert (regular n (Seq.with_trigger tx s)) as Hr' by (by destruct Hr; split). split; [done|].
  pose proof (push_all_same _ _ _ _ true n Hp) as Hall.
  destruct (push_all (replicate n (sw_trigger s)) job true) as [ok txs] eqn:Hpa. cbn in Hall. subst txs.
  unfold view. cbn [qs_worker qs_scratch qs_world qs_sunk qs_triggered].
  rewrite (lanes_of_zip with_trigger (replicate n tx) scratch s _ Hr Hr');
    [|by rewrite length_replicate|].
  2: { intros i x [-> _]%lookup_replicate. apply get_lane_trigger. }
  eapply inv_trigger; [|exact Hinv]. unfold view, trigger.
  cbn [qs_worker qs_scratch].
  rewrite (lanes_of_fmap pw_trigger (replicate n (sw_trigger s))); [|done|by rewrite length_replicate|].
  - by rewrite Hpa.
  - intros i p Hg. apply lookup_replicate. split.
    + unfold get_lane in Hg. repeat (apply bind_Some in Hg as (?&_&Hg)). by simplify_eq/=.
    + apply get_lane_wide in Hg as [Hc _ _ _ _ _]. by rewrite <- (rg_conns _ _ Hr).
Qed.

(** The fields of a provider are those of the worker. *)
Lemma get_lane_fields i s p :
  get_lane i s = Some p →
  sw_result_tx s !! i = Some (pw_result_tx p) ∧
  sw_reconnect_resp_rx s !! i = Some (pw_reconnect_resp_rx p).
Proof.
  unfold get_lane. intros Hg.
  repeat (let x := fresh in let E := fresh in apply bind_Some in Hg as (x&E&Hg)). by simplify_eq/=.
Qed.

Lemma seq_inv_lane s scratch w sunk tr waits l sunk' :
  (n ≤ Z.to_nat U16)%nat →
  lane_pass (rings_fuel (sw_result_tx s)) (mkResultLane (sw_result_tx s) codecs) sunk
    = Ret (waits, l, sunk') →
  seq_inv (mkSeqSys s scratch w sunk tr) →
  seq_inv (mkSeqSys (Seq.with_result_tx (rl_rings l) s) scratch w sunk' tr).
Proof using QL.
  intros Hn Hp [Hr Hinv]. cbn in Hr.
  assert (length codecs = length (sw_result_tx s)) as Hcl by (by rewrite (rg_results _ _ Hr)).
  pose proof (post_Ret _ _ _ _ _ (lane_pass_wp (wp := @post _) (mkResultLane (sw_result_tx s) codecs)
    sunk (rings_fuel (sw_result_tx s)) Hcl (rings_fuel_enough _)) Hp) as (_&_&Hl&_).
  cbn in Hl. rewrite (rg_results _ _ Hr) in Hl.
  assert (regular n (Seq.with_result_tx (rl_rings l) s)) as Hr' by (by destruct Hr; split).
  split; [done|]. unfold view. cbn [qs_worker qs_scratch qs_world qs_sunk qs_triggered].
  rewrite (lanes_of_zip with_result_tx (rl_rings l) scratch s _ Hr Hr' Hl).
  2: { intros i x Hx. apply get_lane_result; [|done]. eapply regular_wide; [done|].
       apply lookup_lt_Some in Hx. lia. }
  eapply inv_lane; [done| |exact Hinv]. unfold lane_fuel. cbn [qs_worker qs_scratch].
  rewrite (lanes_of_fmap pw_result_tx (sw_result_tx s)); [done..|apply Hr|].
  intros i p Hg. by apply get_lane_fields in Hg as [? _].
Qed.

Lemma seq_inv_reconnect s scratch w sunk tr stop disc goes_on l w' :
  (∀ i k w, post (rb_build i k) w (λ r _, ∀ c, r = Ok (BoxConn c) → owed c = None)) →
  reconnect_pass stop disc (mkReconnectLoop (sw_reconnect_req_tx s) (sw_reconnect_resp_rx s)) w
    = Ret (goes_on, l, w') →
  seq_inv (mkSeqSys s scratch w sunk tr) →
  seq_inv (mkSeqSys (Seq.with_req_tx (rcl_req_rx l) (Seq.with_resp_rx (rcl_resp_txs l) s))
             scratch w' sunk tr).
Proof using XL.
  intros Hb Hp [Hr Hinv]. cbn in Hr.
  pose proof (post_Ret _ _ _ _ _ (reconnect_pass_extends _ _ _ _ _ Hb) Hp) as [_ Hext]. cbn in Hext.
  assert (length (rcl_resp_txs l) = n) as Hl by (rewrite (proj1 Hext); apply Hr).
  assert (regular n (Seq.with_resp_rx (rcl_resp_txs l) s)) as Hr' by (by destruct Hr; split).
  assert (seq_inv (mkSeqSys (Seq.with_resp_rx (rcl_resp_txs l) s) scratch w' sunk tr)) as Hst.
  { split; [done|]. unfold view. cbn [qs_worker qs_scratch qs_world qs_sunk qs_triggered].
    rewrite (lanes_of_zip with_resp_rx (rcl_resp_txs l) scratch s _ Hr Hr' Hl).
    2: { intros i x Hx. apply get_lane_resp; [|done]. eapply regular_wide; [done|].
         apply lookup_lt_Some in Hx. lia. }
    eapply inv_resp_rx; [|exact Hinv]. cbn [qs_worker qs_scratch].
    rewrite (lanes_of_fmap pw_reconnect_resp_rx (sw_reconnect_resp_rx s)); [done..|apply Hr|].
    intros i p Hg. by apply get_lane_fields in Hg as [_ ?]. }
  apply lanes_st_view; cbn; [|apply Hinv]. by apply lanes_st_req, (view_lanes_st _ Hst).
Qed.

Lemma seq_inv_step st st' :
  (∀ i k w, post (rb_build i k) w (λ r _, ∀ c, r = Ok (BoxConn c) → owed c = None)) →
  (n ≤ Z.to_nat U16)%nat → zlen (qs_triggered st') < U64 - 1 →
  seq_step codecs st st' → seq_inv st → seq_inv st'.
Proof using PL QL XL.
  intros Hb Hn Htr Hstep Hst.
  destruct Hstep as [|s scratch w sunk tr s' scratch' w' Hp| |]; cbn [qs_triggered] in Htr.
  - by eapply seq_inv_trigger.
  - pose proof (view_lanes_st _ Hst) as Hl. apply lanes_st_view; cbn; [|apply (proj2 Hst)].
    exact (post_Ret _ _ _ _ _ (seq_pass_st n tr sunk Htr s scratch w Hl) Hp).
  - by eapply seq_inv_lane.
  - by eapply seq_inv_reconnect.
Qed.

Lemma seq_inv_steps st st' :
  (∀ i k w, post (rb_build i k) w (λ r _, ∀ c, r = Ok (BoxConn c) → owed c = None)) →
  (n ≤ Z.to_nat U16)%nat → zlen (qs_triggered st') < U64 - 1 →
  rtc (seq_step codecs) st st' → seq_inv st → seq_inv st'.
Proof using PL QL XL.
  intros Hb Hn Htr Hsteps. induction Hsteps as [|st1 st2 st3 H12 H23 IH]; [done|].
  intros Hst. apply IH; [done|]. eapply seq_inv_step; [done..| |exact H12|done].
  apply seq_steps_mono in H23. lia.
Qed.
End invariant.

(** * The theorem *)

(** Connections that no job has been sent on. *)
Definition unused {HC QC} `{PendingView QC} (d : DualConn (ConnState HC QC)) : Prop :=
  owed (conn (active d)) = None ∧ owed (conn (standby d)) = None.

(** The sequential worker [build] starts. *)
Lemma finish_seq_inv `{QueueLaws Q, QueueLaws X, PendingView QC} {W HC} providers kind
    (duals : list (DualConn (ConnState HC QC))) (s : SeqWorker Q X (ConnState HC QC)) (w : W) :
  th_seq (sd_threads (finish_seq providers kind duals)) = Some s →
  length duals = length providers → Forall unused duals →
  seq_inv (pc_codec <$> providers) (seq_init s w).
Proof.
  intros [= <-] Hl Hu. apply lanes_st_view; cbn [seq_init qs_triggered qs_sunk qs_worker];
    [|constructor]. rewrite length_fmap. split.
  - split; cbn; unfold result_rings, resp_channels, diag_slots;
      by rewrite ?length_imap, ?length_replicate, ?length_fmap.
  - intros i p Hg. apply lane_st_worker. apply (thread_new_st (mkParThread p None None)).
    unfold get_lane, spawn_seq in Hg. cbn in Hg.
    apply bind_Some in Hg as (d&Hd&Hg). apply bind_Some in Hg as (r&Hr&Hg).
    apply bind_Some in Hg as (o&[-> _]%lookup_replicate&Hg).
    apply bind_Some in Hg as (x&(y&_&->)%list_lookup_imap_Some&Hg).
    apply bind_Some in Hg as (g&_&Hg). apply bind_Some in Hg as (js&[-> _]%lookup_replicate&Hg).
    injection Hg as <-. apply list_lookup_imap_Some in Hr as (c&_&->).
    rewrite Forall_lookup in Hu. destruct (Hu _ _ Hd) as [Ha Hs].
    split; cbn; try done; apply channel_items || apply new_contents.
Qed.

(** C2: the sequential sender never tells the sink anything the caller did not
    ask for either. From what [build] starts, in every interleaving of
    triggers, passes of the one worker over all providers, lane passes and
    reconnects, each outcome is of a triggered job and of a configured
    provider, and a provider yields at most as many outcomes as jobs were
    triggered. *)
Theorem seq_outcomes_sound `{BuildProfile} {SB : SinkBehaviour} `{QueueLaws Q} `{QueueLaws X}
    `{Clock W, TxSource W, Idle W} `{PendingLaws W HC QC} `{ReconnectBuilder W (ConnState HC QC)}
    providers kind (duals : list (DualConn (ConnState HC QC))) (s : SeqWorker Q X (ConnState HC QC))
    (w : W) st :
  th_seq (sd_threads (finish_seq providers kind duals)) = Some s →
  length duals = length providers → Forall unused duals →
  (length providers ≤ Z.to_nat U16)%nat →
  (∀ i k w, post (rb_build i k) w (λ r _, ∀ c, r = Ok (BoxConn c) → owed c = None)) →
  rtc (seq_step (pc_codec <$> providers)) (seq_init s w) st →
  zlen (qs_triggered st) < U64 - 1 →
  Forall (λ o, (∃ job, job ∈ qs_triggered st ∧ job_id job = po_job o) ∧
               ∃ i, (i < length providers)%nat ∧ po_provider o = provider_id i) (qs_sunk st) ∧
  ∀ i, (i < length providers)%nat → count_of i (qs_sunk st) ≤ zlen (qs_triggered st).
Proof.
  intros Hs Hl Hu Hn Hb Hsteps Htr. rewrite <- (length_fmap pc_codec) in Hn |- *.
  apply (sys_inv_sound _ (view (pc_codec <$> providers) st)).
  refine (proj2 (seq_inv_steps _ _ _ Hb Hn Htr Hsteps _)). by eapply finish_seq_inv.
Qed.

#[local] Existing Instance quiet_sink.

Definition sample_duals : list (DualConn demo_cs) :=
  [dual_new (CsHttp (mkDemoHttp [] [Ok None; Ok (Some (json "{'result':'sig'}"))] []))
     (CsHttp idle_http);
   dual_new (CsQuic (mkDemoQuic None false)) (CsQuic (mkDemoQuic None false))].
Definition sample_providers : list ProviderConfig :=
  [helius (str "key"); nextblock (str "key")].
Definition sample_seq_worker : SeqWorker list_queue list_queue demo_cs :=
  spawn_seq sample_duals (channel (trigger_address sample_providers) TRIGGER_RING)
    (result_rings sample_providers) (bq_new (req_address sample_providers) REQ_RING)
    (resp_channels sample_providers) KRawLibc (diag_slots sample_providers).

(** A job triggered, two passes of the worker, one of the lane. *)
Definition sample_seq_run : SeqSys list_queue list_queue demo_world demo_cs :=
  seq_do_lane (pc_codec <$> sample_providers) (seq_do_pass (H := true) (seq_do_pass (H := true)
    (seq_do_trigger (mkJob 7 0) (seq_init sample_seq_worker (mkDemoWorld 0))))).

Lemma seq_outcomes_sound_witness :
  qs_sunk sample_seq_run
  = [mkProviderOutcome 7 (provider_id 0) (Accepted (str "sig")) 0 100002;
     mkProviderOutcome 7 (provider_id 1) NoResponse 0 1] ∧
  count_of 0 (qs_sunk sample_seq_run) ≤ zlen (qs_triggered sample_seq_run).
Proof.
  split; [vm_compute; reflexivity|].
  assert (length sample_providers ≤ Z.to_nat U16)%nat as Hu
    by (unfold U16; cbn [length sample_providers]; lia).
  edestruct (seq_outcomes_sound (H := true) sample_providers KRawLibc sample_duals
    sample_seq_worker (mkDemoWorld 0) sample_seq_run) as [_ Hc];
    [reflexivity|reflexivity|by repeat constructor|exact Hu|exact demo_builder_fresh|
     |vm_compute; reflexivity|].
  - etrans; [apply seq_do_trigger_steps|]. etrans; [apply seq_do_pass_steps|].
    etrans; [apply seq_do_pass_steps|]. apply seq_do_lane_steps.
  - apply (Hc O), Nat.lt_0_succ.
Defined.
