(* ===== verification/Lifecycle.v ===== *)
(** The life of a sender's threads: a stop flag, threads that load it before
    every pass of their loop, and a caller that sets it and joins them one after
    the other. The passes themselves are a parameter, so that the parallel and
    the sequential sender share what is proved here.

    The flag is stored and loaded with [Ordering::Relaxed]: a thread may still
    load the old value after the store, but not for ever. *)
From stdpp Require Import functions.
From S2P Require Import Prelude.
From stdpp Require Import options.

(** What has become of a thread: in its loop, returned, panicked, or in a pass
    that does not come back. *)
Inductive status := Running | Exited | Panicked | Hung.
#[export] Instance status_eq_dec : EqDecision status.
Proof. solve_decision. Defined.

(** [JoinHandle::join] returns, with [Ok] or with [Err]. *)
Definition finished (s : status) : bool :=
  match s with
  | Exited | Panicked => true
  | Running | Hung => false
  end.

(** What the threads [T] and the caller's calls [C] do to the state they share:
    a pass of a thread leaves it in its loop, ends it, or never ends. *)
Class Machine (St T C : Type) := {
  turn : T → St → status → St → Prop;
  invoke : C → St → St → Prop;
}.

(** The sender as its owner sees it: in use, or in [shutdown] with handles left
    to join; [shutdown] has returned when none are left. *)
Inductive phase (T : Type) := Up | Joining (rest : list T).
Arguments Up {T}.
Arguments Joining {T}.

Record Life (St T : Type) := mkLife {
  lf_state : St;
  lf_stop : bool;
  lf_status : T → status;
  lf_phase : phase T;
}.
Arguments mkLife {St T}.
Arguments lf_state {St T}.
Arguments lf_stop {St T}.
Arguments lf_status {St T}.
Arguments lf_phase {St T}.

(** Who acts: the caller with a call, with [shutdown]'s store, or waiting in a
    [join]; or a thread, with the value it loads from the flag. *)
Inductive label (T C : Type) := LCall (c : C) | LShutdown | LJoin | LThread (t : T) (seen : bool).
Arguments LCall {T C}.
Arguments LShutdown {T C}.
Arguments LJoin {T C}.
Arguments LThread {T C}.

Section life.
Context `{Machine St T C} `{EqDecision T} (handles : list T).
Implicit Types (l : Life St T) (t : T).

(** What [build] hands over: every thread in its loop. *)
Definition started (st : St) : Life St T := mkLife st false (λ _, Running) Up.

(** [shutdown]: [stop.store(true)], then the handles in order. *)
Definition shutdown l : Life St T := mkLife (lf_state l) true (lf_status l) (Joining handles).

(** The threads are passed over once they have ended, and so is a caller whose
    [shutdown] has returned. *)
Inductive life_step : label T C → Life St T → Life St T → Prop :=
| life_call c st st' stop ss :
    invoke c st st' →
    life_step (LCall c) (mkLife st stop ss Up) (mkLife st' stop ss Up)
| life_shutdown l :
    lf_phase l = Up → life_step LShutdown l (shutdown l)
| life_joined st stop ss t rest :
    finished (ss t) = true →
    life_step LJoin (mkLife st stop ss (Joining (t :: rest)))
      (mkLife st stop ss (Joining rest))
| life_waits st stop ss t rest :
    finished (ss t) = false →
    life_step LJoin (mkLife st stop ss (Joining (t :: rest)))
      (mkLife st stop ss (Joining (t :: rest)))
| life_returned st stop ss :
    life_step LJoin (mkLife st stop ss (Joining [])) (mkLife st stop ss (Joining []))
| life_exit t st ss ph :
    ss t = Running →
    life_step (LThread t true) (mkLife st true ss ph)
      (mkLife st true (<[t := Exited]> ss) ph)
| life_turn t st st' s stop ss ph :
    ss t = Running → turn t st s st' →
    life_step (LThread t false) (mkLife st stop ss ph)
      (mkLife st' stop (<[t := s]> ss) ph)
| life_over t seen st stop ss ph :
    ss t ≠ Running →
    life_step (LThread t seen) (mkLife st stop ss ph) (mkLife st stop ss ph).

(** * Invariants of a step *)

Definition returned l : Prop := lf_phase l = Joining [].

(** In [shutdown] the flag is set, and what has been joined has ended. *)
Record life_inv l : Prop := {
  li_stop : lf_phase l ≠ Up → lf_stop l = true;
  li_joined : ∀ rest t, lf_phase l = Joining rest → t ∈ handles → t ∈ rest ∨ finished (lf_status l t) = true;
}.

Lemma started_inv st : life_inv (started st).
Proof. by split. Qed.

(** A thread that has left its loop stays out of it. *)
Lemma over_step a l l' t :
  life_step a l l' → lf_status l t ≠ Running → lf_status l' t = lf_status l t.
Proof.
  intros Hs Ht. destruct Hs as [| | | | |t' ? ? ? Hr|t' ? ? ? ? ? ? Hr|]; cbn in *; try done;
    (destruct (decide (t' = t)) as [->|]; [done|by rewrite fn_lookup_insert_ne]).
Qed.

Lemma finished_step a l l' t :
  life_step a l l' → finished (lf_status l t) = true → finished (lf_status l' t) = true.
Proof.
  intros Hs Ht. rewrite (over_step a l l' t); [done|done|]. intros Hr. by rewrite Hr in Ht.
Qed.

Lemma stop_step a l l' : life_step a l l' → lf_stop l = true → lf_stop l' = true.
Proof. by intros []. Qed.

(** [shutdown] only moves forward. *)
Lemma phase_step a l l' rest :
  life_step a l l' → lf_phase l = Joining rest →
  ∃ rest', lf_phase l' = Joining rest' ∧ rest' `suffix_of` rest.
Proof.
  intros Hs Hp. destruct Hs; cbn in *; simplify_eq; eauto; [congruence|].
  eexists. split; [done|]. by apply suffix_cons_r.
Qed.

Lemma inv_life_step a l l' : life_step a l l' → life_inv l → life_inv l'.
Proof.
  intros Hs [Hst Hj]. split.
  - destruct Hs; cbn in *; try done; intros Hp; by apply Hst.
  - intros rest t Hp Ht. destruct (finished (lf_status l' t)) eqn:Ef; [by right|left].
    assert (∀ rest, lf_phase l = Joining rest → t ∈ rest) as Hin.
    { intros rest' Hp'. destruct (Hj _ _ Hp' Ht) as [|Hf]; [done|].
      by rewrite (finished_step _ _ _ _ Hs Hf) in Ef. }
    destruct Hs; cbn in *; simplify_eq; try done; try (by apply Hin).
    specialize (Hin _ eq_refl). apply elem_of_cons in Hin as [->|]; [|done]. congruence.
Qed.

(** * Executions *)

Definition exec (st : nat → Life St T) (lab : nat → label T C) : Prop :=
  ∀ n, life_step (lab n) (st n) (st (S n)).

(** Every thread with a handle goes on being scheduled, and goes on seeing stores to the
    flag; a caller in [shutdown] goes on looking at the handle it waits for. *)
Record fair (st : nat → Life St T) (lab : nat → label T C) : Prop := {
  fair_thread : ∀ t n, t ∈ handles → ∃ m, (n ≤ m)%nat ∧ lab m = LThread t (lf_stop (st m));
  fair_join : ∀ n, lf_phase (st n) ≠ Up → ∃ m, (n ≤ m)%nat ∧ lab m = LJoin;
}.

Section runs.
Context (st : nat → Life St T) (lab : nat → label T C) (Hexec : exec st lab).

(** What a step preserves holds from then on. *)
Lemma exec_preserves (P : Life St T → Prop) n m :
  (∀ a l l', life_step a l l' → P l → P l') → (n ≤ m)%nat → P (st n) → P (st m).
Proof using Hexec. intros Hp Hle Hn. induction Hle as [|m _ IH]; [done|]. by eapply Hp. Qed.

Lemma exec_inv m : life_inv (st O) → life_inv (st m).
Proof using Hexec. apply exec_preserves; [apply inv_life_step|lia]. Qed.

Lemma exec_phase n m rest :
  (n ≤ m)%nat → lf_phase (st n) = Joining rest →
  ∃ rest', lf_phase (st m) = Joining rest' ∧ rest' `suffix_of` rest.
Proof using Hexec.
  intros Hle Hn. apply (exec_preserves (λ l, ∃ rest', lf_phase l = Joining rest' ∧ _) n m);
    [|done|by exists rest].
  intros a l l' Hs (r&Hr&Hsuf). destruct (phase_step _ _ _ _ Hs Hr) as (r'&Hr'&Hsuf').
  exists r'. split; [done|]. by etrans.
Qed.

(** A thread that is scheduled with the flag set leaves its loop. *)
Lemma thread_ends n t :
  fair st lab → t ∈ handles → (∀ m, lf_status (st m) t ≠ Hung) → lf_stop (st n) = true →
  ∃ m, (n ≤ m)%nat ∧ finished (lf_status (st m) t) = true.
Proof using Hexec.
  intros Hf Ht Hh Hn. destruct (fair_thread _ _ Hf t n Ht) as (m&Hle&Hl).
  pose proof (exec_preserves (λ l, lf_stop l = true) n m stop_step Hle Hn) as Hm.
  exists (S m). split; [lia|]. pose proof (Hexec m) as Hs. pose proof (Hh (S m)) as Hh'.
  rewrite Hl, Hm in Hs. destruct (lf_status (st (S m)) t) eqn:Es; try done. exfalso.
  inversion Hs; subst; match goal with E : _ = st (S m) |- _ => rewrite <- E in Es end; cbn in Es.
  - by rewrite fn_lookup_insert in Es.
  - done.
Qed.

(** One more handle is joined. *)
Lemma join_progress n t rest :
  fair st lab → t ∈ handles → (∀ m, lf_status (st m) t ≠ Hung) → lf_stop (st n) = true →
  lf_phase (st n) = Joining (t :: rest) →
  ∃ m rest', (n ≤ m)%nat ∧ lf_phase (st m) = Joining rest' ∧
    (length rest' ≤ length rest)%nat ∧ rest' ⊆ rest.
Proof using Hexec.
  intros Hf Ht Hh Hn Hp. destruct (thread_ends n t Hf Ht Hh Hn) as (k&Hnk&Hk).
  destruct (exec_phase n k _ Hnk Hp) as (rk&Hrk&_).
  destruct (fair_join _ _ Hf k) as (m&Hkm&Hl); [by rewrite Hrk|].
  pose proof (exec_preserves (λ l, finished (lf_status l t) = true) k m
    (λ a l l' Hs, finished_step a l l' t Hs) Hkm Hk) as Hm.
  destruct (exec_phase n m _ ltac:(lia) Hp) as (rm&Hrm&Hsuf).
  destruct (decide (rm = t :: rest)) as [->|Hne].
  - exists (S m), rest. split; [lia|]. split; [|done]. pose proof (Hexec m) as Hs.
    rewrite Hl in Hs. destruct (st m) as [x b s ph]. cbn in *. subst ph. inversion Hs; subst; [done|congruence].
  - exists m, rm. split; [lia|]. split; [done|]. destruct rm as [|t' rm]; [split; [cbn; lia|set_solver]|].
    apply suffix_cons_inv in Hsuf as [?|Hsuf]; [done|].
    split; [by apply suffix_length|]. destruct Hsuf as [k' ->]. set_solver.
Qed.

Lemma shutdown_ends n rest :
  fair st lab → (∀ m t, lf_status (st m) t ≠ Hung) → lf_stop (st n) = true →
  lf_phase (st n) = Joining rest → rest ⊆ handles → ∃ m, (n ≤ m)%nat ∧ returned (st m).
Proof using Hexec.
  intros Hf Hh. remember (length rest) as k eqn:Hk. revert n rest Hk.
  induction k as [k IH] using lt_wf_ind. intros n rest -> Hn Hp Hin.
  destruct rest as [|t rest]; [by exists n|].
  destruct (join_progress n t rest) as (m&rest'&Hle&Hm&Hlen&Hsub); [set_solver..|].
  destruct (IH (length rest')) with (n := m) (rest := rest') as (m'&Hle'&Hr);
    [cbn; lia|done|by apply (exec_preserves (λ l, lf_stop l = true) n m stop_step)|done|set_solver|].
  exists m'. split; [lia|done].
Qed.

(** [shutdown] waits for every thread: one that hangs keeps it from returning. *)
Lemma hung_blocks n t :
  life_inv (st O) → t ∈ handles → lf_status (st n) t = Hung → ∀ m, ¬ returned (st m).
Proof using Hexec.
  intros Hi Ht Hn m Hm. assert (finished (lf_status (st m) t) = true) as Hf.
  { destruct (exec_inv m Hi) as [_ Hj].
    destruct (Hj [] t Hm Ht) as [Hin|]; [by apply not_elem_of_nil in Hin|done]. }
  assert (lf_status (st (n `max` m)) t = Hung) as Hh.
  { apply (exec_preserves (λ l, lf_status l t = Hung) n); [|lia|done].
    intros a l l' Hs Hl. rewrite (over_step _ _ _ _ Hs); [done|by rewrite Hl]. }
  assert (finished (lf_status (st (n `max` m)) t) = true) as Hf'.
  { apply (exec_preserves (λ l, finished (lf_status l t) = true) m); [|lia|done].
    intros a l l' Hs. by apply (finished_step a). }
  by rewrite Hh in Hf'.
Qed.

(** Waiting for the turn of thread [t], as long as nothing else ends what is
    waited for. *)
Lemma wait_turn (P : Life St T → Prop) t n :
  fair st lab → t ∈ handles → P (st n) →
  (∀ m, lf_stop (st m) = false → lab m ≠ LThread t false → P (st m) → P (st (S m))) →
  ∃ m, (n ≤ m)%nat ∧ (lf_stop (st m) = true ∨
    (lf_stop (st m) = false ∧ lab m = LThread t false ∧ P (st m))).
Proof using EqDecision0.
  intros Hf Ht HP Hkeep. destruct (fair_thread _ _ Hf t n Ht) as (m&Hle&Hl).
  remember (m - n)%nat as d eqn:Hd. revert n HP Hle Hd.
  induction d as [|d IH]; intros n HP Hle Hd.
  - replace m with n in Hl by lia. exists n. split; [done|]. destruct (lf_stop (st n)); auto.
  - destruct (lf_stop (st n)) eqn:Es; [by exists n; auto|].
    assert (lab n = LThread t false ∨ lab n ≠ LThread t false) as [Hn|Hn].
    { destruct (lab n) as [| | |t' []]; try (right; congruence).
      destruct (decide (t' = t)) as [->|]; [by left|right; congruence]. }
    + exists n. auto.
    + destruct (IH (S n)) as (m'&Hle'&Hm'); [by apply Hkeep|lia|lia|].
      exists m'. split; [lia|done].
Qed.

(** After [shutdown] nothing happens any more. *)
Lemma quiet n m :
  (∀ k t s x, turn t (lf_state (st k)) s x → t ∈ handles) → life_inv (st O) →
  returned (st n) → (n ≤ m)%nat → lf_state (st m) = lf_state (st n) ∧ returned (st m).
Proof using Hexec.
  intros Ht Hi Hn Hle. induction Hle as [|m Hle IH]; [done|]. destruct IH as [<- Hr].
  pose proof (Hexec m) as Hs. pose proof (exec_inv m Hi) as [_ Hj]. specialize (Ht m).
  unfold returned in *. destruct Hs as [| | | | | |? ? ? ? ? ? ? Hrun Hturn|]; cbn in *; simplify_eq; try done;
    [congruence|].
  exfalso. edestruct (Hj []) as [Hin|Hfin]; [done|by eapply Ht|by apply not_elem_of_nil in Hin|].
  by rewrite Hrun in Hfin.
Qed.
(** A call of [shutdown] returns if no thread hangs, and then all is quiet. *)
Lemma shutdown_joins n :
  life_inv (st O) → fair st lab → (∀ m t, lf_status (st m) t ≠ Hung) →
  (∀ k t s x, turn t (lf_state (st k)) s x → t ∈ handles) → lab n = LShutdown →
  ∃ m, (n < m)%nat ∧ returned (st m) ∧ (∀ t, t ∈ handles → finished (lf_status (st m) t) = true) ∧
    ∀ k, (m ≤ k)%nat → lf_state (st k) = lf_state (st m).
Proof using Hexec.
  intros Hli Hf Hh Ht Hn. assert (st (S n) = shutdown (st n)) as Hsd.
  { pose proof (Hexec n) as Hs. rewrite Hn in Hs. by inversion Hs. }
  destruct (shutdown_ends (S n) handles) as (m&Hle&Hm); [done|done|by rewrite Hsd..|done|].
  exists m. split; [lia|]. split; [done|]. split.
  - intros t Hin. destruct (exec_inv m Hli) as [_ Hj].
    destruct (Hj [] t Hm Hin) as [Hin'|]; [by apply not_elem_of_nil in Hin'|done].
  - intros k Hk. by eapply (quiet m k).
Qed.

(** If no turn ends its thread, every thread is in its loop until the flag is
    set. *)
Lemma all_up n :
  (∀ t, lf_status (st O) t = Running) →
  (∀ k t s x, (∀ t, lf_status (st k) t = Running) → turn t (lf_state (st k)) s x → s = Running) →
  lf_stop (st n) = false → ∀ t, lf_status (st n) t = Running.
Proof using Hexec.
  intros Hup Hkeep. induction n as [|n IH]; [done|]. intros Hs t. pose proof (Hexec n) as Hstep.
  assert (lf_stop (st n) = false) as Hsn.
  { destruct (lf_stop (st n)) eqn:E; [|done]. by rewrite (stop_step _ _ _ Hstep E) in Hs. }
  specialize (IH Hsn). specialize (Hkeep n).
  destruct Hstep as [| | | | |? ? ? ? Hr|t' ? ? ? ? ? ? Hr Hturn|]; cbn in *; try done.
  destruct (decide (t' = t)) as [->|]; [|by rewrite fn_lookup_insert_ne].
  rewrite fn_lookup_insert. by eapply Hkeep.
Qed.
End runs.

(** * Running a schedule *)

(** One pass as a function, with what a panicking pass leaves chosen. *)
Context (turn_do : T → St → status * St) (invoke_do : C → St → St).

Definition life_do (a : label T C) l : Life St T :=
  match a with
  | LCall c => mkLife (invoke_do c (lf_state l)) (lf_stop l) (lf_status l) (lf_phase l)
  | LShutdown => shutdown l
  | LJoin =>
      match lf_phase l with
      | Joining (t :: rest) =>
          if finished (lf_status l t)
          then mkLife (lf_state l) (lf_stop l) (lf_status l) (Joining rest) else l
      | _ => l
      end
  | LThread t seen =>
      if bool_decide (lf_status l t = Running)
      then if seen : bool
           then mkLife (lf_state l) (lf_stop l) (<[t := Exited]> (lf_status l)) (lf_phase l)
           else let '(s, st) := turn_do t (lf_state l) in
                mkLife st (lf_stop l) (<[t := s]> (lf_status l)) (lf_phase l)
      else l
  end.

(** The schedule [lab] from [l]. *)
Fixpoint life_run (lab : nat → label T C) l (n : nat) : Life St T :=
  match n with
  | O => l
  | S n => life_do (lab n) (life_run lab l n)
  end.

(** What an actor can do in [l]. *)
Definition enabled (a : label T C) l : Prop :=
  match a with
  | LCall c => lf_phase l = Up ∧ invoke c (lf_state l) (invoke_do c (lf_state l))
  | LShutdown => lf_phase l = Up
  | LJoin => lf_phase l ≠ Up
  | LThread t true => lf_stop l = true
  | LThread t false => let '(s, st) := turn_do t (lf_state l) in turn t (lf_state l) s st
  end.

Lemma life_do_step a l : enabled a l → life_step a l (life_do a l).
Proof.
  destruct l as [st stop ss ph]. destruct a as [c| | |t seen]; cbn.
  - intros [-> Hc]. by constructor.
  - intros Hp. by apply life_shutdown.
  - intros Hp. destruct ph as [|[|t rest]]; [done|by constructor|].
    destruct (finished (ss t)) eqn:E; by constructor.
  - case_bool_decide as Hr; [|intros; by apply life_over]. destruct seen; [intros ->; by constructor|].
    destruct (turn_do t st) as [s st'] eqn:E. intros Ht. by constructor.
Qed.

(** The label can be scheduled in [l]. *)
Definition fits (a : label T C) l : Prop :=
  match a with
  | LCall _ | LShutdown => lf_phase l = Up
  | LJoin => lf_phase l ≠ Up
  | LThread t true => lf_stop l = true
  | LThread t false => t ∈ handles
  end.

Lemma fits_enabled a l :
  (∀ c, invoke c (lf_state l) (invoke_do c (lf_state l))) →
  (∀ t, t ∈ handles → let '(s, st) := turn_do t (lf_state l) in turn t (lf_state l) s st) →
  fits a l → enabled a l.
Proof. destruct a as [c| | |t []]; cbn; naive_solver. Qed.

(** The threads and the joins leave the flag alone, and do not bring the
    sender back up or down. *)
Lemma life_run_keeps lab l n :
  (lab n = LJoin ∨ ∃ t seen, lab n = LThread t seen) →
  lf_stop (life_run lab l (S n)) = lf_stop (life_run lab l n) ∧
  (lf_phase (life_run lab l (S n)) = Up ↔ lf_phase (life_run lab l n) = Up).
Proof.
  cbn [life_run]. generalize (life_run lab l n). intros l' [->|(t&seen&->)]; cbn.
  - destruct l' as [st stop ss [|[|t rest]]]; cbn; [done..|]. by case_match.
  - by repeat case_match.
Qed.

(** What the threads leave alone stays as the calls left it. *)
Lemma life_run_same {A} (f : St → A) lab l n :
  (∀ t x, f (turn_do t x).2 = f x) → (∀ k c, lab (S k) ≠ LCall c) →
  f (lf_state (life_run lab l (S n))) = f (lf_state (life_run lab l 1)).
Proof.
  intros Hf Hlab. induction n as [|n IH]; [done|]. rewrite <- IH. cbn [life_run]. specialize (Hlab n).
  generalize (life_do (lab n) (life_run lab l n)). intros l'.
  destruct (lab (S n)) as [c| | |t []]; cbn; [by destruct (Hlab c)|done|by repeat case_match|..].
  - by case_match.
  - specialize (Hf t (lf_state l')). destruct (turn_do t (lf_state l')). by case_match.
Qed.

Lemma life_run_exec lab l :
  (∀ n, enabled (lab n) (life_run lab l n)) → exec (life_run lab l) lab.
Proof. intros He n. apply life_do_step, He. Qed.
End life.
