(* ===== verification/ParLife.v ===== *)
(** The parallel sender from [build] to [shutdown]: its threads as a machine in
    the sense of Lifecycle, in which a pass may also panic or not come back.
    With connections, a source and a sink that always come back, [shutdown]
    returns; when they do not panic either, every accepted job is sent and every
    response reaches the sink unless [shutdown] comes first. *)
From stdpp Require Import functions.
From S2P Require Import Prelude Types Ring Response Lane Quic Conn Reconnect Parallel Sequential Sender WorkerInv Demo System Lifecycle.
From stdpp Require Import options.

(** The threads of a sender. *)
Inductive thread := TWorker (i : nat) | TLane | TReconnect.
#[export] Instance thread_eq_dec : EqDecision thread.
Proof. solve_decision. Defined.

(** The handles in the order [shutdown] joins them: [build] pushes the lane's
    after the workers'. *)
Definition sender_handles (n : nat) : list thread := (TWorker <$> seq 0 n) ++ [TLane; TReconnect].

Lemma elem_sender_handles n t :
  (∀ i, t = TWorker i → (i < n)%nat) → t ∈ sender_handles n.
Proof.
  intros Ht. unfold sender_handles. apply elem_of_app. destruct t as [i| |]; [left|set_solver..].
  apply list_elem_of_fmap_2, elem_of_seq. specialize (Ht i eq_refl). lia.
Qed.

(** A response of ring [i] among the outcomes of all rings. *)
Lemma elem_outcomes `{QueueView Q} codecs (rings : list (Spsc Q RawResp)) i codec ring r :
  codecs !! i = Some codec → rings !! i = Some ring → r ∈ items ring →
  parse_one r codec ∈ concat (zip_with outcomes codecs rings).
Proof.
  intros Hc Hi Hr. apply list_elem_of_In, in_concat. setoid_rewrite <- list_elem_of_In.
  exists (outcomes codec ring). split; [|by apply (list_elem_of_fmap_2 (λ resp, parse_one resp codec))].
  apply list_elem_of_lookup. exists i. apply lookup_zip_with_Some. by exists codec, ring.
Qed.

Section machine.
Context `{BuildProfile} `{BoundedQueue Q, QueueView Q} `{BoundedQueue X}.
Context `{Conns W HC QC} `{Clock W, TxSource W, Idle W} `{ReconnectBuilder W (ConnState HC QC)}.
Abbreviation CS := (ConnState HC QC).
Context {SB : SinkBehaviour} (codecs : list ResponseCodec).
Implicit Type st : Sys Q X W CS.

Definition worker_pass (i : nat) (p : ParWorker Q X CS) (scratch : bytes) st :
    outcome (ParWorker Q X CS * bytes * W) :=
  par_pass (with_req_tx (sy_req st) p) (provider_id i) scratch (sy_world st).
Definition the_lane st : ResultLane Q :=
  mkResultLane ((λ wp, pw_result_tx wp.1) <$> sy_workers st) codecs.
Definition lane_turn st : outcome (bool * ResultLane Q * list ProviderOutcome) :=
  lane_pass (lane_fuel (sy_workers st)) (the_lane st) (sy_sunk st).
Definition reconnect_turn st : outcome (bool * ReconnectLoop X CS * W) :=
  reconnect_pass false false
    (mkReconnectLoop (sy_req st) ((λ wp, pw_reconnect_resp_rx wp.1) <$> sy_workers st)) (sy_world st).

Definition after_worker (i : nat) p scratch (w : W) st : Sys Q X W CS :=
  mkSys (<[i := (p, scratch)]> (sy_workers st)) (pw_reconnect_req_tx p) w (sy_sunk st) (sy_triggered st).
Definition after_lane (rings : list (Spsc Q RawResp)) sunk st : Sys Q X W CS :=
  mkSys (zip_with (λ ring wp, (with_result_tx ring wp.1, wp.2)) rings (sy_workers st))
    (sy_req st) (sy_world st) sunk (sy_triggered st).
Definition after_reconnect (l : ReconnectLoop X CS) (w : W) st : Sys Q X W CS :=
  mkSys (zip_with (λ rx wp, (with_resp_rx rx wp.1, wp.2)) (rcl_resp_txs l) (sy_workers st))
    (rcl_req_rx l) w (sy_sunk st) (sy_triggered st).

(** A pass that panics unwinds its thread: the channels, the sockets and the
    worker it was in are left in whatever state it had brought them to, those
    of the other threads are as they were. *)
Inductive par_turn : thread → Sys Q X W CS → status → Sys Q X W CS → Prop :=
| turn_worker i st p scratch p' scratch' w' :
    sy_workers st !! i = Some (p, scratch) → worker_pass i p scratch st = Ret (p', scratch', w') →
    par_turn (TWorker i) st Running (after_worker i p' scratch' w' st)
| turn_worker_panics i st p scratch p' scratch' w' :
    sy_workers st !! i = Some (p, scratch) → worker_pass i p scratch st = Panic →
    par_turn (TWorker i) st Panicked (after_worker i p' scratch' w' st)
| turn_worker_hangs i st p scratch :
    sy_workers st !! i = Some (p, scratch) → worker_pass i p scratch st = OutOfFuel →
    par_turn (TWorker i) st Hung st
| turn_lane st waits l sunk :
    lane_turn st = Ret (waits, l, sunk) → par_turn TLane st Running (after_lane (rl_rings l) sunk st)
| turn_lane_panics st rings sunk :
    lane_turn st = Panic → length rings = length (sy_workers st) →
    par_turn TLane st Panicked (after_lane rings sunk st)
| turn_lane_hangs st : lane_turn st = OutOfFuel → par_turn TLane st Hung st
| turn_reconnect st goes_on l w' :
    reconnect_turn st = Ret (goes_on, l, w') →
    par_turn TReconnect st (if goes_on : bool then Running else Exited) (after_reconnect l w' st)
| turn_reconnect_panics st req w' :
    reconnect_turn st = Panic →
    par_turn TReconnect st Panicked
      (mkSys (sy_workers st) req w' (sy_sunk st) (sy_triggered st))
| turn_reconnect_hangs st : reconnect_turn st = OutOfFuel → par_turn TReconnect st Hung st.

Inductive par_invoke : Job → Sys Q X W CS → Sys Q X W CS → Prop :=
| invoke_trigger job st r txs :
    trigger (Fanout ((λ wp, pw_trigger wp.1) <$> sy_workers st)) job = (r, Fanout txs) →
    par_invoke job st (mkSys (zip_with (λ tx wp, (with_trigger tx wp.1, wp.2)) txs (sy_workers st))
      (sy_req st) (sy_world st) (sy_sunk st) (sy_triggered st ++ [job])).

#[global] Instance par_machine : Machine (Sys Q X W CS) thread Job := {
  turn := par_turn; invoke := par_invoke }.

(** The turns as a function: a panicking pass leaves what it was given. *)
Definition par_turn_do (t : thread) st : status * Sys Q X W CS :=
  match t with
  | TWorker i =>
      match sy_workers st !! i with
      | Some (p, scratch) =>
          match worker_pass i p scratch st with
          | Ret (p', scratch', w') => (Running, after_worker i p' scratch' w' st)
          | Panic => (Panicked, after_worker i p scratch (sy_world st) st)
          | OutOfFuel => (Hung, st)
          end
      | None => (Running, st)
      end
  | TLane =>
      match lane_turn st with
      | Ret (_, l, sunk) => (Running, after_lane (rl_rings l) sunk st)
      | Panic => (Panicked, after_lane (rl_rings (the_lane st)) (sy_sunk st) st)
      | OutOfFuel => (Hung, st)
      end
  | TReconnect =>
      match reconnect_turn st with
      | Ret (goes_on, l, w') => (if goes_on : bool then Running else Exited, after_reconnect l w' st)
      | Panic => (Panicked, mkSys (sy_workers st) (sy_req st) (sy_world st) (sy_sunk st) (sy_triggered st))
      | OutOfFuel => (Hung, st)
      end
  end.

Lemma par_turn_do_turn t st :
  (∀ i, t = TWorker i → (i < length (sy_workers st))%nat) →
  let '(s, st') := par_turn_do t st in par_turn t st s st'.
Proof.
  intros Ht. destruct t as [i| |]; cbn [par_turn_do].
  - destruct (sy_workers st !! i) as [[p scratch]|] eqn:Ei;
      [|apply lookup_ge_None in Ei; specialize (Ht i eq_refl); lia].
    destruct (worker_pass i p scratch st) as [[[]]| |] eqn:E; cbv beta iota; by econstructor.
  - destruct (lane_turn st) as [[[]]| |] eqn:E; cbv beta iota; econstructor; try done.
    apply length_fmap.
  - destruct (reconnect_turn st) as [[[]]| |] eqn:E; cbv beta iota; by econstructor.
Qed.

Lemma par_turn_do_triggered t st : sy_triggered (par_turn_do t st).2 = sy_triggered st.
Proof. destruct t; cbn; by repeat case_match. Qed.

Lemma do_trigger_invoke job st : par_invoke job st (do_trigger job st).
Proof.
  unfold do_trigger, trigger. destruct (push_all _ job true) as [b txs] eqn:E.
  eapply invoke_trigger. unfold trigger. by rewrite E.
Qed.

(** What the threads do while none panics are the steps of the system. *)
Lemma turn_sys_step t st st' : par_turn t st Running st' → sys_step codecs st st'.
Proof.
  destruct st as [ws req w sk tr]. inversion 1; subst; cbn in *.
  - by eapply step_worker.
  - by eapply step_lane.
  - by apply (step_reconnect codecs _ _ _ _ _ false false goes_on).
Qed.
Lemma invoke_sys_step job st st' : par_invoke job st st' → sys_step codecs st st'.
Proof. intros [j [ws req w sunk tr] r txs Ht]. by eapply step_trigger. Qed.
End machine.

(** * Threads that come back *)

Section comes_back.
Context `{BuildProfile} `{QL : QueueLaws Q} `{XL : QueueLaws X}.
Context `{Clock W, Idle W} `{TS : TxSource W} `{CN : Conns W HC QC}.
Context `{RB : ReconnectBuilder W (ConnState HC QC)}.
Abbreviation CS := (ConnState HC QC).
Context {SB : SinkBehaviour} (codecs : list ResponseCodec) (hok : HC → Prop) (qok : QC → Prop).
Abbreviation ok := (cs_ok (hok := hok) (qok := qok)).
Implicit Types (st : Sys Q X W CS) (p : ParWorker Q X CS) (l : Life (Sys Q X W CS) thread).

(** The builder's connections are in order. *)
Definition build_ok (wp : ∀ A, M W A → W → (A → W → Prop) → Prop) : Prop :=
  builds (wp := wp) ok.

(** A worker that can do a pass: its connections are in order and its counter
    is below the number of jobs triggered. *)
Record ready (tr : list Job) p : Prop := {
  rd_ok : worker_ok (hok := hok) (qok := qok) p;
  rd_jobs : 0 ≤ pw_jobs_sent p;
  rd_taken : pw_jobs_sent p + zlen (items (pw_trigger p)) ≤ zlen tr;
}.

Record par_inv l : Prop := {
  pi_count : length (sy_workers (lf_state l)) = length codecs;
  pi_worker : ∀ i p scratch, sy_workers (lf_state l) !! i = Some (p, scratch) →
    lf_status l (TWorker i) = Running → ready (sy_triggered (lf_state l)) p;
  pi_hang : ∀ t, lf_status l t ≠ Hung;
}.

Section modal.
Context `{MW : Modality W wp}.

Lemma reconnect_supplies (rl : ReconnectLoop X CS) w :
  build_ok wp → wp _ (reconnect_pass false false rl) w (λ '(goes_on, rl') _,
    goes_on = true ∧ extends ok (rcl_resp_txs rl) (rcl_resp_txs rl')).
Proof using MW XL.
  intros Hb. eapply wp_mono; [by apply (reconnect_pass_extends ok)|].
  intros [goes_on rl'] w' [Hg He]. split; [by apply Hg|done].
Qed.

Lemma pass_ready `{FL : !FillLaws W wp} `{CL : !ConnOk W HC QC wp hok qok} i p scratch st :
  zlen (sy_triggered st) < U64 - 1 → ready (sy_triggered st) p →
  wp _ (par_pass (with_req_tx (sy_req st) p) (provider_id i) scratch) (sy_world st)
    (λ '(p', scratch') _, passed (hok := hok) (qok := qok) p p' ∧ ready (sy_triggered st) p').
Proof using MW QL XL.
  intros Htr [Hok Hj Ht]. pose proof (zlen_nonneg (items (pw_trigger p))).
  eapply wp_mono; [apply ok_pass; [cbn; lia|by destruct Hok; split]|].
  intros [p' s'] w' [[Ha Hb Hc Hd He Hfit] _]. cbn in Hb, Hc, Hd, He.
  split; [by split|]. split; [done|lia|lia].
Qed.
End modal.

(** ** What a turn does to the workers *)

Lemma ready_result tr r p : ready tr p → ready tr (with_result_tx r p).
Proof. intros [[] ? ?]. by split. Qed.

Lemma ok_supplied i rx p :
  (∃ new, contents rx = contents (pw_reconnect_resp_rx p) ++ new ∧
    Forall (λ r, rs_provider_idx r = i ∧ ∀ c, downcast (rs_conn r) = Some c → ok c) new) →
  worker_ok (hok := hok) (qok := qok) p → worker_ok (hok := hok) (qok := qok) (with_resp_rx rx p).
Proof.
  intros (new&Hnew&Hok) [Ha Hs Har]. split; [done..|].
  unfold arriving in *. cbn. rewrite Hnew, omap_app. apply Forall_app_2; [done|].
  apply Forall_forall. intros c (r&Hr&Hd)%list_elem_of_omap.
  rewrite Forall_forall in Hok. by apply (Hok r Hr).
Qed.

Lemma ready_pushed tr job tx p :
  pushed job (pw_trigger p) tx → ready tr p → ready (tr ++ [job]) (with_trigger tx p).
Proof.
  intros [Hit _] [[] ? ?]. split; [by split|done|]. cbn. rewrite Hit. case_match; len.
Qed.

(** The invariant after a turn that left thread [t] in status [s]. *)
Lemma par_inv_set st st' stop ss ph t s :
  par_inv (mkLife st stop ss ph) → s ≠ Hung →
  length (sy_workers st') = length (sy_workers st) → sy_triggered st' = sy_triggered st →
  (∀ i p' scratch', sy_workers st' !! i = Some (p', scratch') → t = TWorker i → s = Running →
     ready (sy_triggered st) p') →
  (∀ i p' scratch', sy_workers st' !! i = Some (p', scratch') → t ≠ TWorker i →
     ∃ p scratch, sy_workers st !! i = Some (p, scratch) ∧
       (ready (sy_triggered st) p → ready (sy_triggered st) p')) →
  par_inv (mkLife st' stop (<[t := s]> ss) ph).
Proof.
  intros [Hc Hw Hh] Hs Hl Htr Hown Hother. cbn in *. split; cbn; [by rewrite Hl| |].
  - intros i p' scratch' Hi. rewrite Htr. destruct (decide (t = TWorker i)) as [->|Hne].
    + rewrite fn_lookup_insert. by eapply Hown.
    + rewrite fn_lookup_insert_ne by done. intros Hr.
      destruct (Hother _ _ _ Hi Hne) as (p&scratch&Hp&Hk). by eapply Hk, Hw.
  - intros t'. destruct (decide (t = t')) as [->|]; [by rewrite fn_lookup_insert|].
    by rewrite fn_lookup_insert_ne.
Qed.

Lemma par_inv_lane st stop ss ph s rings sunk :
  par_inv (mkLife st stop ss ph) → s ≠ Hung → length rings = length (sy_workers st) →
  par_inv (mkLife (after_lane rings sunk st) stop (<[TLane := s]> ss) ph).
Proof.
  intros Hinv Hs Hr. eapply par_inv_set; [done..|cbn; rewrite length_zip_with; lia|done|done|]. cbn.
  intros k pk sk (ring&[p s']&Hrk&Hk&[= -> ->])%zip_with_lookup_r _. exists p, s'. split; [done|].
  apply ready_result.
Qed.

(** A turn of the lane, as far as the sink comes back. *)
Lemma lane_turn_wp `{SL : !SinkLaws (list ProviderOutcome) wp} `{MS : !Modality _ wp} st :
  length (sy_workers st) = length codecs →
  wp _ (lane_pass (lane_fuel (sy_workers st)) (the_lane codecs st)) (sy_sunk st) (λ '(waits, rl) sunk',
    sunk' = sy_sunk st ++ concat (zip_with outcomes codecs
      ((λ wp, pw_result_tx wp.1) <$> sy_workers st)) ∧
    length (rl_rings rl) = length (sy_workers st)).
Proof using QL.
  intros Hc. eapply wp_mono; [apply lane_pass_wp; [cbn; rewrite length_fmap; lia|apply rings_fuel_enough]|].
  intros [waits l] sunk' (_&_&Hl&Hd&_). cbn in Hl. rewrite length_fmap in Hl. done.
Qed.

Lemma lane_turn_ends `{SR : !SinkReturns} st :
  length (sy_workers st) = length codecs →
  ∃ waits rl, lane_turn codecs st = Ret (waits, rl, sy_sunk st ++ concat (zip_with outcomes codecs
    ((λ wp, pw_result_tx wp.1) <$> sy_workers st))) ∧ length (rl_rings rl) = length (sy_workers st).
Proof using QL.
  intros Hc. destruct (lane_turn_wp (wp := @ends _) st Hc) as ([waits rl]&sunk'&Hp&->&Hl). by exists waits, rl.
Qed.

Section halting.
Context `{FL : !FillLaws W (@halts W)} `{CL : !ConnOk W HC QC (@halts W) hok qok}.
Context {SC : SinkComesBack} (Hbuild : build_ok (@halts W)).

Lemma par_turn_inv t st s st' stop ss ph :
  zlen (sy_triggered st) < U64 - 1 → par_turn codecs t st s st' → ss t = Running →
  par_inv (mkLife st stop ss ph) → par_inv (mkLife st' stop (<[t := s]> ss) ph).
Proof using CL FL Hbuild QL SC XL.
  intros Htr Hturn Hss Hinv. pose proof Hinv as [Hc Hw Hh]. cbn in Hc, Hw, Hh.
  pose proof (lane_turn_wp (wp := @halts _) st Hc) as Hlane.
  pose proof (reconnect_supplies (wp := @halts W) (mkReconnectLoop (sy_req st)
    ((λ wp, pw_reconnect_resp_rx wp.1) <$> sy_workers st)) (sy_world st) Hbuild) as Hrec.
  destruct Hturn as [i st p scratch p' scratch' w' Hi Hp|i st p scratch p' scratch' w' Hi Hp
    |i st p scratch Hi Hp|st waits l sunk Hp|st rings sunk Hp Hr|st Hp|st goes_on l w' Hp|st req w' Hp|st Hp].
  - pose proof (halts_Ret _ _ _ _ _ (pass_ready i p scratch st Htr (Hw _ _ _ Hi Hss)) Hp) as [_ Hrd].
    eapply par_inv_set; [done..|cbn; by rewrite length_insert|done| |]; cbn;
      intros k pk sk; rewrite list_lookup_insert_Some; intros [(<-&[= <- <-]&_)|[Hne Hk]]; try done.
    + intros [= ->]. done.
    + intros _. eauto.
  - eapply par_inv_set; [done..|cbn; by rewrite length_insert|done|done|]. cbn.
    intros k pk sk; rewrite list_lookup_insert_Some; intros [(<-&_)|[Hne Hk]] ?; [done|eauto].
  - by destruct (halts_comes_back _ _ _ (pass_ready i p scratch st Htr (Hw _ _ _ Hi Hss))).
  - pose proof (halts_Ret _ _ _ _ _ Hlane Hp) as [_ Hl]. by eapply par_inv_lane.
  - by eapply par_inv_lane.
  - by destruct (halts_comes_back _ _ _ Hlane).
  - pose proof (halts_Ret _ _ _ _ _ Hrec Hp) as [-> [Hl Hsup]]. cbn in Hl, Hsup. rewrite length_fmap in Hl.
    eapply par_inv_set; [done..|cbn; rewrite length_zip_with; lia|done|done|]. cbn.
    intros k pk sk (rx&[p s']&Hrk&Hk&[= -> ->])%zip_with_lookup_r _. exists p, s'. split; [done|].
    intros [Hok ? ?]. split; [|done..]. apply (ok_supplied k); [|done]. apply Hsup; [|done].
    by rewrite list_lookup_fmap, Hk.
  - eapply par_inv_set; [done..|]. eauto.
  - by destruct (halts_comes_back _ _ _ Hrec).
Qed.

Lemma par_invoke_inv job st st' stop ss ph :
  par_invoke job st st' → par_inv (mkLife st stop ss ph) → par_inv (mkLife st' stop ss ph).
Proof using QL.
  intros [j s r txs Ht] [Hc Hw Hh]. cbn in *. clear st.
  destruct (push_all_spec ((λ wp, pw_trigger wp.1) <$> sy_workers s) j true) as [_ HF].
  unfold trigger in Ht. destruct (push_all _ _ _) as [b txs']. injection Ht as <- <-. cbn [snd] in HF.
  pose proof (Forall2_length _ _ _ HF) as Hl. rewrite length_fmap in Hl.
  split; cbn; [rewrite length_zip_with; lia| |done].
  intros i p' scratch (tx&[p s']&Htx&Hi&[= -> ->])%zip_with_lookup_r Hr.
  apply ready_pushed; [|by eapply Hw].
  apply (Forall2_lookup_lr _ _ _ i (pw_trigger p) tx HF); [|done]. by rewrite list_lookup_fmap, Hi.
Qed.

Lemma par_life_inv hs a l l' :
  zlen (sy_triggered (lf_state l)) < U64 - 1 →
  life_step (H := par_machine codecs) hs a l l' → par_inv l → par_inv l'.
Proof using CL FL Hbuild QL SC XL.
  intros Htr Hs Hl. destruct Hs as [| | | | |t ? ? ? Hr|t ? ? ? ? ? ? Hr Hturn|]; try done.
  - by eapply par_invoke_inv.
  - by destruct Hl.
  - by destruct Hl.
  - eapply par_inv_set; [done..| |]; eauto; done.
  - by eapply par_turn_inv.
Qed.

Lemma par_exec_inv hs run lab :
  exec (H := par_machine codecs) hs run lab →
  (∀ n, zlen (sy_triggered (lf_state (run n))) < U64 - 1) → par_inv (run O) → ∀ n, par_inv (run n).
Proof using CL FL Hbuild QL SC XL.
  intros He Htr Hz n. induction n as [|n IH]; [done|]. by eapply par_life_inv.
Qed.
End halting.

(** ** The sender [build] returns *)

Record thread_ready (t : ParThread Q X CS) : Prop := {
  tr_ok : worker_ok (hok := hok) (qok := qok) (pt_worker t);
  tr_trigger : items (pw_trigger (pt_worker t)) = [];
  tr_jobs : pw_jobs_sent (pt_worker t) = 0;
}.

Lemma started_par_inv threads (w : W) :
  Forall thread_ready threads → length threads = length codecs →
  par_inv (started (sys_init threads w)).
Proof.
  intros Hr Hl. split; cbn; [by rewrite length_fmap| |done].
  intros i p scratch. rewrite list_lookup_fmap_Some. intros (t&[= -> ->]&Ht) _.
  rewrite Forall_lookup in Hr. destruct (Hr _ _ Ht) as [Hok Hit Hj].
  split; [done|lia|]. by rewrite Hit, Hj.
Qed.

(** The threads that have turns are those with handles. *)
Lemma par_turn_handle t st s st' :
  length (sy_workers st) = length codecs → par_turn codecs t st s st' →
  t ∈ sender_handles (length codecs).
Proof.
  intros Hc Ht. apply elem_sender_handles. intros i ->. rewrite <- Hc.
  inversion Ht; subst; by eapply lookup_lt_Some.
Qed.
End comes_back.

(** * Progress *)

Section progress.
Context `{BuildProfile} `{QL : QueueLaws Q} `{XL : QueueLaws X}.
Context `{Clock W, Idle W} `{FL : FillLaws W (@ends W)} `{CN : Conns W HC QC}.
Context `{RB : ReconnectBuilder W (ConnState HC QC)}.
Abbreviation CS := (ConnState HC QC).
Context `{SR : SinkReturns} (codecs : list ResponseCodec) (hok : HC → Prop) (qok : QC → Prop).
Context `{CL : !ConnOk W HC QC (@ends W) hok qok} (Hbuild : build_ok hok qok (@ends W)).
Implicit Types (st : Sys Q X W CS) (l : Life (Sys Q X W CS) thread).

Lemma build_ok_halts : build_ok hok qok (@halts W).
Proof using Hbuild. intros i k w. apply ends_halts, Hbuild. Qed.

(** A turn of a thread that is in its loop leaves it there. *)
Lemma turn_running t st s st' stop ss ph :
  zlen (sy_triggered st) < U64 - 1 → par_turn codecs t st s st' → ss t = Running →
  par_inv codecs hok qok (mkLife st stop ss ph) → s = Running.
Proof using CL FL Hbuild QL SR XL.
  intros Htr Hturn Hss [Hc Hw _]. cbn in Hc, Hw.
  destruct (lane_turn_ends codecs st Hc) as (waits0&l0&Hlane&_).
  destruct (reconnect_supplies hok qok (wp := @ends W) (mkReconnectLoop (sy_req st)
    ((λ wp, pw_reconnect_resp_rx wp.1) <$> sy_workers st)) (sy_world st) Hbuild)
    as ([goes_on0 l1]&w1&Hrec&->&_). fold (reconnect_turn st) in Hrec.
  assert (∀ i p scratch, sy_workers st !! i = Some (p, scratch) → ss (TWorker i) = Running →
    ∃ r, worker_pass i p scratch st = Ret r) as Hpass.
  { intros i p scratch Hi Hr. destruct (pass_ready hok qok (wp := @ends W) i p scratch st Htr
      (Hw _ _ _ Hi Hr)) as (r&w'&Hp&_). by exists (r, w'). }
  destruct Hturn as [|? ? ? ? ? ? ? Hi Hp|? ? ? ? Hi Hp|? ? ? ? Hp|? ? ? Hp|? Hp|? ? ? ? Hp|? ? ? Hp|? Hp];
    try done; try (destruct (Hpass _ _ _ Hi Hss) as [? Hr]); try congruence.
  rewrite Hp in Hrec. by injection Hrec as ->.
Qed.

Section runs.
Context (hs : list thread) (run : nat → Life (Sys Q X W CS) thread) (lab : nat → label thread Job).
Context (Hexec : exec (H := par_machine codecs) hs run lab).
Context (Htr : ∀ n, zlen (sy_triggered (lf_state (run n))) < U64 - 1).
Context (Hinit : par_inv codecs hok qok (run O)) (Hup : ∀ t, lf_status (run O) t = Running).

Lemma run_inv n : par_inv codecs hok qok (run n).
Proof using CL FL Hbuild Hexec Hinit Htr QL SR XL.
  by apply (par_exec_inv codecs hok qok build_ok_halts hs run lab).
Qed.

(** Until the flag is set every thread is in its loop. *)
Lemma run_up n : lf_stop (run n) = false → ∀ t, lf_status (run n) t = Running.
Proof using CL FL Hbuild Hexec Hinit Htr Hup QL SR XL.
  apply (all_up (H := par_machine codecs) hs run lab Hexec); [done|]. intros k t s x Hall Hturn.
  pose proof (run_inv k) as Hinv. specialize (Htr k). destruct (run k) as [y stop ss ph].
  exact (turn_running t y s x stop ss ph Htr Hturn (Hall t) Hinv).
Qed.

(** ** Jobs *)

(** The job is the [k]-th of worker [i]'s trigger ring. *)
Definition waiting (i k : nat) (job : Job) l : Prop :=
  ∃ p scratch, sy_workers (lf_state l) !! i = Some (p, scratch) ∧ items (pw_trigger p) !! k = Some job.

(** The response is in worker [i]'s result ring. *)
Definition reported (i : nat) (r : RawResp) l : Prop :=
  ∃ p scratch, sy_workers (lf_state l) !! i = Some (p, scratch) ∧ r ∈ items (pw_result_tx p).

(** What a step leaves of a worker's rings. *)
Record rings_kept (a : label thread Job) (i : nat) (p p' : ParWorker Q X CS) : Prop := {
  rk_trigger : a ≠ LThread (TWorker i) false → items (pw_trigger p) `prefix_of` items (pw_trigger p');
  rk_taken : a = LThread (TWorker i) false → items (pw_trigger p') = tail (items (pw_trigger p));
  rk_result : a ≠ LThread TLane false → items (pw_result_tx p) `prefix_of` items (pw_result_tx p');
}.

Lemma rings_same a i p p' :
  a ≠ LThread (TWorker i) false → pw_trigger p' = pw_trigger p → pw_result_tx p' = pw_result_tx p →
  rings_kept a i p p'.
Proof using. intros Ha Ht Hr. split; [by rewrite Ht|done|by rewrite Hr]. Qed.

Lemma rings_invoke job st st' i p scratch :
  par_invoke job st st' → sy_workers st !! i = Some (p, scratch) →
  ∃ p' scratch', sy_workers st' !! i = Some (p', scratch') ∧ rings_kept (LCall job) i p p'.
Proof using QL.
  intros [j x r txs Ht] Hi. cbn. clear st.
  destruct (push_all_spec ((λ wp, pw_trigger wp.1) <$> sy_workers x) j true) as [_ HF].
  unfold trigger in Ht. destruct (push_all _ _ _) as [b txs']. injection Ht as <- <-. cbn [snd] in HF.
  destruct (Forall2_lookup_l _ _ _ i (pw_trigger p) HF) as (tx&Htx&[Hit _]);
    [by rewrite list_lookup_fmap, Hi|].
  exists (with_trigger tx p), scratch. split; [apply lookup_zip_with_Some; by eexists tx, (p, scratch)|].
  split; [|done..]. intros _. cbn. rewrite Hit. by apply prefix_app_r.
Qed.

Lemma rings_turn t st s st' stop ss ph i p scratch :
  zlen (sy_triggered st) < U64 - 1 → par_turn codecs t st s st' → (∀ t, ss t = Running) →
  par_inv codecs hok qok (mkLife st stop ss ph) → sy_workers st !! i = Some (p, scratch) →
  ∃ p' scratch', sy_workers st' !! i = Some (p', scratch') ∧ rings_kept (LThread t false) i p p'.
Proof using CL FL Hbuild QL SR XL.
  intros Hb Hturn Hss Hinv Hi. pose proof (turn_running _ _ _ _ _ _ _ Hb Hturn (Hss t) Hinv) as ->.
  pose proof Hinv as [Hc Hw _]. cbn in Hc, Hw.
  destruct (lane_turn_ends codecs st Hc) as (waits0&l0&Hlane&Hl0).
  pose proof (reconnect_supplies hok qok (wp := @halts W) (mkReconnectLoop (sy_req st)
    ((λ wp, pw_reconnect_resp_rx wp.1) <$> sy_workers st)) (sy_world st) build_ok_halts) as Hrec.
  inversion Hturn as [k ? pk sk p' scratch' w' Hk Hp| | |? ? l ? Hp| | |? ? l w' Hp| |]; subst; cbn.
  - pose proof (halts_Ret _ _ _ _ _ (pass_ready hok qok k pk sk st Hb (Hw _ _ _ Hk (Hss _))) Hp)
      as [[Ha Ht Hr _ _ _] _].
    destruct (decide (k = i)) as [->|Hne].
    + replace pk with p in * by congruence. exists p', scratch'.
      split; [apply list_lookup_insert_eq; by eapply lookup_lt_Some|]. by split.
    + exists p, scratch. rewrite list_lookup_insert_ne by done. split; [done|].
      apply rings_same; [|done..]. by intros [= ->].
  - rewrite Hp in Hlane. injection Hlane as -> -> ->.
    destruct (lookup_lt_is_Some_2 (rl_rings l0) i) as [ring Hring];
      [rewrite Hl0; by eapply lookup_lt_Some|].
    exists (with_result_tx ring p), scratch.
    split; [apply lookup_zip_with_Some; by eexists ring, (p, scratch)|]. by split.
  - pose proof (halts_Ret _ _ _ _ _ Hrec Hp) as [_ [Hl _]]. cbn in Hl. rewrite length_fmap in Hl.
    destruct (lookup_lt_is_Some_2 (rcl_resp_txs l) i) as [rx Hrx];
      [rewrite Hl; by eapply lookup_lt_Some|].
    exists (with_resp_rx rx p), scratch.
    split; [apply lookup_zip_with_Some; by eexists rx, (p, scratch)|]. by apply rings_same.
Qed.

Lemma rings_step m i p scratch :
  lf_stop (run m) = false → sy_workers (lf_state (run m)) !! i = Some (p, scratch) →
  ∃ p' scratch', sy_workers (lf_state (run (S m))) !! i = Some (p', scratch') ∧
    rings_kept (lab m) i p p'.
Proof using CL FL Hbuild Hexec Hinit Htr Hup QL SR XL.
  intros Hs. pose proof (run_inv m) as Hinv. pose proof (run_up m Hs) as Hall.
  pose proof (Htr m) as Hb. pose proof (Hexec m) as Hstep. revert Hs Hinv Hall Hb Hstep.
  generalize (lab m) (run m) (run (S m)). intros a l l' Hs Hinv Hall Hb Hstep Hi.
  destruct Hstep as [job st st' stop ss Hinvk| | | | |? ? ? ? Hr|t st st' s stop ss ph Hr Hturn|
    ? ? ? ? ? ? Hr]; cbn in *; try (exists p, scratch; split; [done|by apply rings_same]).
  - by eapply rings_invoke.
  - by eapply rings_turn.
  - by destruct Hr.
Qed.

Lemma job_accepted n i job p scratch :
  lab n = LCall job → lf_stop (run n) = false →
  sy_workers (lf_state (run n)) !! i = Some (p, scratch) → has_room (pw_trigger p) = true →
  ∃ k, waiting i k job (run (S n)).
Proof using QL Hexec.
  intros Hl Hs. pose proof (Hexec n) as Hstep. rewrite Hl in Hstep. revert Hs Hstep.
  generalize (run n) (run (S n)). intros l l' Hs Hstep Hi Hroom.
  inversion Hstep as [? ? ? ? ? Hinvk| | | | | | |]; subst. cbn in Hi, Hs.
  destruct Hinvk as [j x r txs Ht].
  destruct (push_all_spec ((λ wp, pw_trigger wp.1) <$> sy_workers x) j true) as [_ HF].
  unfold trigger in Ht. destruct (push_all _ _ _) as [b txs']. injection Ht as <- <-. cbn [snd] in HF.
  destruct (Forall2_lookup_l _ _ _ i (pw_trigger p) HF) as (tx&Htx&[Hit _]);
    [by rewrite list_lookup_fmap, Hi|].
  exists (length (items (pw_trigger p))), (with_trigger tx p), scratch.
  split; [apply lookup_zip_with_Some; by eexists tx, (p, scratch)|].
  cbn [pw_trigger with_trigger]. rewrite Hit, Hroom.
  by rewrite lookup_app_r, Nat.sub_diag by done.
Qed.

Lemma job_taken i job k n :
  fair hs run lab → TWorker i ∈ hs → waiting i k job (run n) →
  ∃ m, (n ≤ m)%nat ∧ (lf_stop (run m) = true ∨
    (lab m = LThread (TWorker i) false ∧ waiting i 0 job (run m))).
Proof using CL FL Hbuild Hexec Hinit Htr Hup QL SR XL.
  intros Hf Hin. revert n. induction k as [|k IH]; intros n Hk.
  all: destruct (wait_turn hs run lab (waiting i _ job) (TWorker i) n Hf Hin Hk) as (m&Hle&[Hs|(Hs&Hl&Hw)]);
    [|exists m; by auto| ].
  all: try (intros m Hs Hl (p&scratch&Hi&Hj);
    destruct (rings_step m i p scratch Hs Hi) as (p'&scratch'&Hi'&Hr);
    exists p', scratch'; split; [done|]; eapply prefix_lookup_Some; [exact Hj|by apply Hr]).
  - exists m. auto.
  - destruct Hw as (p&scratch&Hi&Hj).
    destruct (rings_step m i p scratch Hs Hi) as (p'&scratch'&Hi'&Hr).
    destruct (IH (S m)) as (m'&Hle'&Hm').
    + exists p', scratch'. split; [done|]. rewrite (rk_taken _ _ _ _ Hr Hl), lookup_tail. done.
    + exists m'. split; [lia|done].
Qed.

(** ** Responses *)

Lemma response_sunk i r codec n :
  fair hs run lab → TLane ∈ hs → codecs !! i = Some codec → reported i r (run n) →
  ∃ m, (n ≤ m)%nat ∧ (lf_stop (run m) = true ∨ parse_one r codec ∈ sy_sunk (lf_state (run m))).
Proof using CL FL Hbuild Hexec Hinit Htr Hup QL SR XL.
  intros Hf Hin Hc Hr. destruct (wait_turn hs run lab (reported i r) TLane n Hf Hin Hr) as (m&Hle&[Hs|(Hs&Hl&Hw)]).
  - intros m Hs Hl (p&scratch&Hi&Hj).
    destruct (rings_step m i p scratch Hs Hi) as (p'&scratch'&Hi'&Hk).
    exists p', scratch'. split; [done|]. destruct (rk_result _ _ _ _ Hk Hl) as [more ->].
    apply elem_of_app. by left.
  - exists m. auto.
  - exists (S m). split; [lia|]. right. pose proof (Hexec m) as Hstep. pose proof (run_up m Hs) as Hall.
    pose proof (pi_count _ _ _ _ (run_inv m)) as Hcount. rewrite Hl in Hstep.
    destruct Hw as (p&scratch&Hi&Hj). revert Hstep Hall Hcount Hi.
    generalize (run m) (run (S m)). intros l l' Hstep Hall Hcount Hi.
    inversion Hstep as [| | | | | |? st st' s stop ss ph Hrun Hturn|? ? ? ? ? ? Hno]; subst; cbn in *;
      [|by destruct Hno].
    destruct (lane_turn_ends codecs st Hcount) as (waits&l0&Hlane&_).
    inversion Hturn; subst; rewrite Hlane in *; simplify_eq. cbn. apply elem_of_app. right.
    eapply (elem_outcomes codecs _ i); [done| |done]. by rewrite list_lookup_fmap, Hi.
Qed.
End runs.
End progress.

(** C3: every accepted job is sent. If the connections, the builder, the
    transaction source and the sink neither panic nor hang, then in every fair
    execution a job that is triggered when a provider's ring has room is
    eventually the job that provider's worker takes in its pass, or the sender
    is being shut down. *)
Theorem jobs_eventually_taken `{BuildProfile} `{QueueLaws Q} `{QueueLaws X} `{Clock W, Idle W}
    `{FillLaws W (@ends W)} `{SinkReturns} `{ConnOk W HC QC (@ends W) hok qok}
    `{ReconnectBuilder W (ConnState HC QC)}
    codecs (threads : list (ParThread Q X (ConnState HC QC))) (w : W)
    (st : nat → Life (Sys Q X W (ConnState HC QC)) thread) (lab : nat → label thread Job)
    n job i p scratch :
  let handles := sender_handles (length codecs) in
  build_ok hok qok (@ends W) → Forall (thread_ready hok qok) threads → length threads = length codecs →
  st O = started (sys_init threads w) →
  exec (H := par_machine codecs) handles st lab → fair handles st lab →
  (∀ k, zlen (sy_triggered (lf_state (st k))) < U64 - 1) →
  lab n = LCall job → sy_workers (lf_state (st n)) !! i = Some (p, scratch) →
  has_room (pw_trigger p) = true →
  ∃ m, (n ≤ m)%nat ∧ (lf_stop (st m) = true ∨
    (lab m = LThread (TWorker i) false ∧ waiting i 0 job (st m))).
Proof.
  intros handles Hb Hr Hl Hz He Hf Htr Hn Hi Hroom.
  destruct (lf_stop (st n)) eqn:Es; [by exists n; auto|].
  assert (par_inv codecs hok qok (st O)) as Hinv by (rewrite Hz; by apply started_par_inv).
  destruct (job_accepted codecs handles st lab He n i job p scratch Hn Es Hi Hroom) as [k Hk].
  destruct (job_taken codecs hok qok Hb handles st lab He Htr Hinv) with (i := i) (job := job)
    (k := k) (n := S n) as (m&Hle&Hm); [by rewrite Hz|done| |done|by exists m; split; [lia|]].
  apply elem_sender_handles. intros ? [= <-].
  rewrite <- (pi_count _ _ _ _ (run_inv codecs hok qok Hb handles st lab He Htr Hinv n)).
  by eapply lookup_lt_Some.
Qed.

(** C4: every response reaches the sink. Under the same conditions, a response
    that is in a worker's result ring is eventually given to the sink, as its
    provider's codec reads it, or the sender is being shut down. *)
Theorem responses_eventually_sunk `{BuildProfile} `{QueueLaws Q} `{QueueLaws X} `{Clock W, Idle W}
    `{FillLaws W (@ends W)} `{SinkReturns} `{ConnOk W HC QC (@ends W) hok qok}
    `{ReconnectBuilder W (ConnState HC QC)}
    codecs (threads : list (ParThread Q X (ConnState HC QC))) (w : W)
    (st : nat → Life (Sys Q X W (ConnState HC QC)) thread) (lab : nat → label thread Job)
    n i r codec :
  let handles := sender_handles (length codecs) in
  build_ok hok qok (@ends W) → Forall (thread_ready hok qok) threads → length threads = length codecs →
  st O = started (sys_init threads w) →
  exec (H := par_machine codecs) handles st lab → fair handles st lab →
  (∀ k, zlen (sy_triggered (lf_state (st k))) < U64 - 1) →
  reported i r (st n) → codecs !! i = Some codec →
  ∃ m, (n ≤ m)%nat ∧ (lf_stop (st m) = true ∨ parse_one r codec ∈ sy_sunk (lf_state (st m))).
Proof.
  intros handles Hb Hr Hl Hz He Hf Htr Hn Hc.
  eapply (response_sunk codecs hok qok Hb handles st lab He Htr); [|by rewrite Hz|done| |done|exact Hn].
  - rewrite Hz. by apply started_par_inv.
  - by apply elem_sender_handles.
Qed.

(** C5: [shutdown] returns, and leaves nothing running. If the connections,
    the reconnect builder, the transaction source and the sink always come back,
    with a result or with a panic, then in every fair execution a call of
    [shutdown] returns: the flag is seen, the workers, the lane and the
    reconnect thread are joined in turn, whether they returned or panicked. From
    then on nothing changes any more: no job is taken, no connection is driven,
    the sink is not called. *)
Theorem shutdown_returns `{BuildProfile} `{QueueLaws Q} `{QueueLaws X} `{Clock W, Idle W}
    `{FillLaws W (@halts W)} `{SinkComesBack} `{ConnOk W HC QC (@halts W) hok qok}
    `{ReconnectBuilder W (ConnState HC QC)}
    codecs (threads : list (ParThread Q X (ConnState HC QC))) (w : W)
    (st : nat → Life (Sys Q X W (ConnState HC QC)) thread) (lab : nat → label thread Job) n :
  let handles := sender_handles (length codecs) in
  build_ok hok qok (@halts W) → Forall (thread_ready hok qok) threads → length threads = length codecs →
  st O = started (sys_init threads w) →
  exec (H := par_machine codecs) handles st lab → fair handles st lab →
  (∀ k, zlen (sy_triggered (lf_state (st k))) < U64 - 1) →
  lab n = LShutdown →
  ∃ m, (n < m)%nat ∧ returned (st m) ∧ (∀ t, t ∈ handles → finished (lf_status (st m) t) = true) ∧
    ∀ k, (m ≤ k)%nat → lf_state (st k) = lf_state (st m).
Proof.
  intros handles Hb Hr Hl Hz He Hf Htr Hn.
  pose proof (par_exec_inv codecs hok qok Hb handles st lab He Htr) as Hinv.
  rewrite Hz in Hinv. specialize (Hinv (started_par_inv _ _ _ _ w Hr Hl)).
  apply (shutdown_joins handles st lab He n); [rewrite Hz; apply started_inv|done|intros; apply Hinv| |done].
  intros k t s x. apply par_turn_handle, Hinv.
Qed.

(** * A sender from start to end *)

Section schedule.
Context `{BuildProfile} `{QL : QueueLaws Q} `{XL : QueueLaws X}.
Context `{Clock W, Idle W} `{FL : FillLaws W (@halts W)} `{CN : Conns W HC QC}.
Context `{RB : ReconnectBuilder W (ConnState HC QC)}.
Context `{SC : SinkComesBack} (codecs : list ResponseCodec) (hok : HC → Prop) (qok : QC → Prop).
Context `{CL : !ConnOk W HC QC (@halts W) hok qok} (Hbuild : build_ok hok qok (@halts W)).
Context (lab : nat → label thread Job) (l0 : Life (Sys Q X W (ConnState HC QC)) thread).

Definition par_life : nat → Life (Sys Q X W (ConnState HC QC)) thread :=
  life_run (sender_handles (length codecs)) (par_turn_do codecs) do_trigger lab l0.

Lemma par_enabled a (l : Life (Sys Q X W (ConnState HC QC)) thread) :
  length (sy_workers (lf_state l)) = length codecs → fits (sender_handles (length codecs)) a l →
  enabled (H := par_machine codecs) (par_turn_do codecs) do_trigger a l.
Proof.
  intros Hc. apply fits_enabled; [intros; apply do_trigger_invoke|]. intros t Ht.
  apply par_turn_do_turn. intros i ->. rewrite Hc. apply elem_of_app in Ht as [Ht|Ht].
  - apply list_elem_of_fmap in Ht as (j&[= ->]&Hj%elem_of_seq). apply Hj.
  - by apply elem_of_cons in Ht as [|[|[]%not_elem_of_nil]%elem_of_cons].
Qed.

Lemma par_life_exec :
  par_inv codecs hok qok l0 → (∀ n, fits (sender_handles (length codecs)) (lab n) (par_life n)) →
  (∀ n, zlen (sy_triggered (lf_state (par_life n))) < U64 - 1) →
  exec (H := par_machine codecs) (sender_handles (length codecs)) par_life lab.
Proof using CL FL Hbuild QL SC XL.
  intros Hz Hfit Htr n. assert (par_inv codecs hok qok (par_life n)) as Hinv.
  { induction n as [|n IH]; [done|].
    eapply (par_life_inv codecs hok qok Hbuild); [apply Htr| |exact IH].
    by apply life_do_step, par_enabled; [apply IH|apply Hfit]. }
  by apply life_do_step, par_enabled; [apply Hinv|apply Hfit].
Qed.
End schedule.

(** The threads in turn, for ever. *)
Definition live_schedule (n : nat) : label thread Job :=
  match n with
  | O => LCall (mkJob 7 0)
  | S n => LThread (match (n mod 3)%nat with O => TWorker 0 | 1%nat => TLane | _ => TReconnect end) false
  end.

(** A job, a pass of the worker, then [shutdown]. *)
Definition stop_schedule (n : nat) : label thread Job :=
  match n with
  | O => LCall (mkJob 7 0)
  | 1%nat => LThread (TWorker 0) false
  | 2%nat => LShutdown
  | S (S (S n)) =>
      match (n mod 4)%nat with
      | O => LThread (TWorker 0) true
      | 1%nat => LThread TLane true
      | 2%nat => LThread TReconnect true
      | _ => LJoin
      end
  end.

(** Each residue comes up again and again. *)
Lemma mod_again k n r c : (r < k)%nat → ∃ m, (n ≤ m)%nat ∧ (c ≤ m)%nat ∧ ((m - c) mod k = r)%nat.
Proof.
  intros Hr. exists (c + (r + (n * k)))%nat. split; [nia|]. split; [lia|].
  replace (c + (r + n * k) - c)%nat with (r + n * k)%nat by lia.
  rewrite Nat.Div0.mod_add. by apply Nat.mod_small.
Qed.

Lemma three_handles t :
  t ∈ sender_handles 1 → ∃ r, (r < 3)%nat ∧
    t = match r with O => TWorker 0 | 1%nat => TLane | _ => TReconnect end.
Proof.
  intros Ht. apply elem_of_cons in Ht as [->|[->|[->|[]%not_elem_of_nil]%elem_of_cons]%elem_of_cons].
  - by exists 0%nat; split; [lia|].
  - by exists 1%nat; split; [lia|].
  - by exists 2%nat; split; [lia|].
Qed.

(** The two schedules, for a sender of three threads. *)
Section schedules.
Context {St : Type} (turn_do : thread → St → status * St) (invoke_do : Job → St → St) (st0 : St).
Abbreviation run lab := (life_run (sender_handles 1) turn_do invoke_do lab (started st0)).

Lemma live_up n : lf_stop (run live_schedule n) = false ∧ lf_phase (run live_schedule n) = Up.
Proof.
  induction n as [|[|n] [IHs IHp]]; [done..|].
  destruct (life_run_keeps (sender_handles 1) turn_do invoke_do live_schedule (started st0) (S n))
    as [Hs Hp]; [by eauto|]. by rewrite Hs, Hp.
Qed.

Lemma stop_down n :
  lf_stop (run stop_schedule (3 + n)) = true ∧ lf_phase (run stop_schedule (3 + n)) ≠ Up.
Proof.
  induction n as [|n [IHs IHp]]; [done|].
  destruct (life_run_keeps (sender_handles 1) turn_do invoke_do stop_schedule (started st0) (3 + n))
    as [Hs Hp].
  { cbn [stop_schedule Nat.add]. repeat case_match; eauto. }
  cbn [Nat.add] in *. rewrite Hs, Hp. done.
Qed.

Lemma live_fits n : fits (sender_handles 1) (live_schedule n) (run live_schedule n).
Proof.
  destruct n as [|n]; [done|]. cbn [live_schedule fits]. apply elem_sender_handles.
  intros i. repeat case_match; try done. intros [= <-]. apply Nat.lt_0_succ.
Qed.

Lemma stop_fits n : fits (sender_handles 1) (stop_schedule n) (run stop_schedule n).
Proof.
  destruct n as [|[|[|n]]];
    [done|apply elem_sender_handles; intros ? [= <-]; apply Nat.lt_0_succ|by cbn; repeat case_match|].
  destruct (stop_down n) as [Hs Hp]. cbn [stop_schedule]. by repeat case_match.
Qed.

Lemma live_fair : fair (sender_handles 1) (run live_schedule) live_schedule.
Proof.
  split; [|intros n Hn; by destruct Hn, (live_up n)]. intros t n Ht.
  destruct (three_handles t Ht) as (r&Hr&->).
  destruct (mod_again 3 n r 1 Hr) as (m&Hn&Hc&Hm). exists m. split; [done|].
  destruct (live_up m) as [-> _]. destruct m as [|m]; [lia|]. cbn [live_schedule].
  replace (S m - 1)%nat with m in Hm by lia. by rewrite Hm.
Qed.

Lemma stop_fair : fair (sender_handles 1) (run stop_schedule) stop_schedule.
Proof.
  assert (∀ n r, (r < 4)%nat → ∃ m, (n ≤ m)%nat ∧ lf_stop (run stop_schedule m) = true ∧
    stop_schedule m = match r with O => LThread (TWorker 0) true | 1%nat => LThread TLane true
    | 2%nat => LThread TReconnect true | _ => LJoin end) as Hagain.
  { intros n r Hr. destruct (mod_again 4 n r 3 Hr) as (m&Hn&Hc&Hm). exists m. split; [done|].
    destruct m as [|[|[|m]]]; [lia..|]. destruct (stop_down m) as [Hs _]. split; [exact Hs|].
    cbn [stop_schedule]. replace (S (S (S m)) - 3)%nat with m in Hm by lia. by rewrite Hm. }
  split.
  - intros t n Ht. destruct (three_handles t Ht) as (r&Hr&->).
    destruct (Hagain n r) as (m&Hm&Hs&Hl); [lia|]. exists m. rewrite Hs, Hl. split; [done|].
    by destruct r as [|[|[|r]]]; [..|lia].
  - intros n _. destruct (Hagain n 3%nat) as (m&Hm&_&Hl); [lia|]. by exists m.
Qed.
End schedules.

#[local] Existing Instance quiet_sink.

(** One provider over QUIC: a job is triggered, sent, and reported. *)
Definition sample_start : Life (Sys list_queue list_queue demo_world demo_cs) thread :=
  started (sys_init sample_threads (mkDemoWorld 0)).

Definition sample_live := par_life (H := true) [JsonRpcCodec] live_schedule sample_start.
Definition sample_stop := par_life (H := true) [JsonRpcCodec] stop_schedule sample_start.

Lemma sample_ready : Forall (thread_ready (λ _ : demo_http, True) (λ _ : demo_quic, True)) sample_threads.
Proof. by repeat constructor. Qed.

Lemma sample_build_ok : build_ok (λ _ : demo_http, True) (λ _ : demo_quic, True) (@ends demo_world).
Proof. intros i k w. by apply ends_ret. Qed.

Lemma sample_start_inv :
  par_inv [JsonRpcCodec] (λ _ : demo_http, True) (λ _ : demo_quic, True) sample_start.
Proof. by apply started_par_inv; [apply sample_ready|]. Qed.

(** In a schedule that triggers once, the counters have room. *)
Lemma sample_room lab n :
  (∀ k job, lab (S k) ≠ LCall job) → lab O = LCall (mkJob 7 0) →
  zlen (sy_triggered (lf_state (par_life (H := true) [JsonRpcCodec] lab sample_start n))) < U64 - 1.
Proof.
  intros Hlab H0. destruct n as [|n]; [done|].
  unfold par_life. rewrite (life_run_same (sender_handles 1) (par_turn_do (H := true) [JsonRpcCodec]) do_trigger
    sy_triggered); [|apply par_turn_do_triggered|done]. cbn [life_run]. by rewrite H0.
Qed.

Lemma live_no_call k job : live_schedule (S k) ≠ LCall job.
Proof. done. Qed.
Lemma stop_no_call k job : stop_schedule (S k) ≠ LCall job.
Proof. destruct k as [|[|k]]; [done..|]. cbn [stop_schedule]. by repeat case_match. Qed.

Lemma live_exec :
  exec (H := par_machine (H := true) [JsonRpcCodec]) (sender_handles 1) sample_live live_schedule.
Proof.
  apply (par_life_exec [JsonRpcCodec] (λ _ : demo_http, True) (λ _ : demo_quic, True)).
  - intros i k w. apply ends_halts, sample_build_ok.
  - apply sample_start_inv.
  - apply live_fits.
  - intros n. by apply sample_room; [apply live_no_call|].
Qed.

Lemma stop_exec :
  exec (H := par_machine (H := true) [JsonRpcCodec]) (sender_handles 1) sample_stop stop_schedule.
Proof.
  apply (par_life_exec [JsonRpcCodec] (λ _ : demo_http, True) (λ _ : demo_quic, True)).
  - intros i k w. apply ends_halts, sample_build_ok.
  - apply sample_start_inv.
  - apply stop_fits.
  - intros n. by apply sample_room; [apply stop_no_call|].
Qed.

Lemma jobs_eventually_taken_witness :
  ∃ m, lf_stop (sample_live m) = true ∨
    (live_schedule m = LThread (TWorker 0) false ∧ waiting 0 0 (mkJob 7 0) (sample_live m)).
Proof.
  edestruct (jobs_eventually_taken (H := true) (hok := λ _ : demo_http, True)
    (qok := λ _ : demo_quic, True) [JsonRpcCodec] sample_threads (mkDemoWorld 0) sample_live
    live_schedule 0 (mkJob 7 0) 0) as (m&_&Hm);
    [exact sample_build_ok|exact sample_ready|reflexivity|reflexivity|exact live_exec|exact (live_fair _ _ _)|
     |reflexivity|reflexivity|reflexivity|exists m; exact Hm].
  intros k. apply sample_room; [apply live_no_call|reflexivity].
Defined.

Lemma responses_eventually_sunk_witness :
  let r := quic_resp 7 (provider_id 0) 0 1 in
  ∃ m, lf_stop (sample_live m) = true ∨ parse_one r JsonRpcCodec ∈ sy_sunk (lf_state (sample_live m)).
Proof.
  intros r.
  edestruct (responses_eventually_sunk (H := true) (hok := λ _ : demo_http, True)
    (qok := λ _ : demo_quic, True) [JsonRpcCodec] sample_threads (mkDemoWorld 0) sample_live
    live_schedule 2 0 r JsonRpcCodec) as (m&_&Hm);
    [exact sample_build_ok|exact sample_ready|reflexivity|reflexivity|exact live_exec|exact (live_fair _ _ _)|
     | |reflexivity|exists m; exact Hm].
  - intros k. apply sample_room; [apply live_no_call|reflexivity].
  - eexists _, _. split; [vm_compute; reflexivity|]. apply list_elem_of_singleton. reflexivity.
Defined.

Lemma shutdown_returns_witness :
  ∃ m, (2 < m)%nat ∧ returned (sample_stop m) ∧
    ∀ k, (m ≤ k)%nat → lf_state (sample_stop k) = lf_state (sample_stop m).
Proof.
  edestruct (shutdown_returns (H := true) (hok := λ _ : demo_http, True)
    (qok := λ _ : demo_quic, True) [JsonRpcCodec] sample_threads (mkDemoWorld 0) sample_stop
    stop_schedule 2) as (m&Hm&Hr&_&Hq);
    [intros i k w; apply ends_halts, sample_build_ok|exact sample_ready|reflexivity|reflexivity|
     exact stop_exec|exact (stop_fair _ _ _)| |reflexivity|exists m; split; [exact Hm|split; [exact Hr|exact Hq]]].
  intros k. apply sample_room; [apply stop_no_call|reflexivity].
Defined.
