(* ===== verification/SeqLife.v ===== *)
(** The sequential sender from [build] to [shutdown]: what a pass of the one
    worker over all providers keeps, in any of the senses of Prelude's
    [Modality], and its threads as a machine in the sense of Lifecycle. With
    connections, a source and a sink that always come back [shutdown] returns;
    when they do not panic either, every accepted job is sent on every provider. *)
From stdpp Require Import functions.
From S2P Require Import Prelude Types Ring Response Registry Lane Quic Conn Reconnect Parallel Sequential Sender WorkerInv Demo System SeqSystem Lifecycle ParLife.
From stdpp Require Import options.

Lemma for_pure_total {Q X HC QC} (J : SeqWorker Q X (ConnState HC QC) → Prop)
    (body : nat → SeqWorker Q X (ConnState HC QC) → outcome (SeqWorker Q X (ConnState HC QC))) k i s :
  (∀ j s, (j < i + k)%nat → J s → ∃ s', body j s = Ret s' ∧ J s') → J s →
  ∃ s', Seq.for_pure k i body s = Ret s' ∧ J s'.
Proof.
  revert i s. induction k as [|k IH]; intros i s Hb Hs; cbn [Seq.for_pure]; [by exists s|].
  destruct (Hb i s) as (s1&Hs1&HJ); [lia|done|]. rewrite Hs1.
  apply IH; [|done]. intros j s2 Hj. apply Hb. lia.
Qed.

(** Rings to which responses were added. *)
Definition grown `{QueueView Q} : list (Spsc Q RawResp) → list (Spsc Q RawResp) → Prop :=
  Forall2 (λ r r', items r `prefix_of` items r').
#[export] Instance grown_refl `{QueueView Q} : Reflexive (@grown Q _).
Proof. intros l. apply Forall_Forall2_diag, Forall_true. by intros r. Qed.
#[export] Instance grown_trans `{QueueView Q} : Transitive (@grown Q _).
Proof. intros l1 l2 l3. apply Forall2_trans. intros r1 r2 r3 ? ?. by etrans. Qed.

(** * A pass *)

Section passes.
Context `{BuildProfile} `{QL : QueueLaws Q} `{XL : QueueLaws X}.
Context `{Clock W, Idle W} `{TS : TxSource W} `{CN : Conns W HC QC}.
Abbreviation CS := (ConnState HC QC).
Context (hok : HC → Prop) (qok : QC → Prop) (n : nat) (tr : list Job).
Implicit Types (s : SeqWorker Q X CS) (p : ParWorker Q X CS).

(** A provider whose connections are in order, to which only its own
    replacements come, and whose counter has room for [b] more jobs. *)
Record lane_ready (b : Z) (i : nat) p : Prop := {
  lr_ok : worker_ok (hok := hok) (qok := qok) p;
  lr_routed : Forall (λ r, rs_provider_idx r = i) (contents (pw_reconnect_resp_rx p));
  lr_jobs : 0 ≤ pw_jobs_sent p;
  lr_taken : pw_jobs_sent p + zlen (items (pw_trigger p)) + b ≤ zlen tr;
}.
Definition lanes_ready (b : nat → Z) : SeqWorker Q X CS → Prop :=
  lanes_hold n (λ i, lane_ready (b i) i).

(** What has become of [s0]: the providers are in order, the trigger ring is
    as it was, and the result rings have grown. *)
Record moved (b : nat → Z) s0 s : Prop := {
  mv_ready : lanes_ready b s;
  mv_trigger : sw_trigger s = sw_trigger s0;
  mv_results : grown (sw_result_tx s0) (sw_result_tx s);
}.

Abbreviation steady := (λ _ : nat, 0).

Lemma moved_refl b s : lanes_ready b s → moved b s s.
Proof. by split. Qed.

Lemma ready_kept k b b' i p p' :
  kept (hok := hok) (qok := qok) k p p' → b' + k ≤ b → lane_ready b i p → lane_ready b' i p'.
Proof.
  intros [Hok [Ht Hr Hj Hx]] Hb [_ Hro Hjs Htk]. split; [done|by apply Hx|lia|rewrite Ht; lia].
Qed.

Lemma moved_put b b' s0 s i p p' k :
  moved b s0 s → get_lane i s = Some p → kept (hok := hok) (qok := qok) k p p' →
  b' i + k ≤ b i → (∀ j, j ≠ i → b' j ≤ b j) → moved b' s0 (put_lane i s p').
Proof.
  intros [Hs Ht Hg] Hp Hk Hb Hb'. pose proof (proj2 Hs _ _ Hp) as Hpr. split.
  - eapply lanes_hold_put; [exact Hs|exact Hp| |].
    + destruct (ready_kept k _ _ i p p' Hk Hb Hpr) as [[] ? ? ?]. by split.
    + intros j pj Hj Htj [[] ? ? Htk]. specialize (Hb' j Hj). split; [by split|done..|].
      cbn. rewrite (fr_trigger _ _ _ (proj2 Hk)), <- Htj. lia.
  - cbn. by rewrite (fr_trigger _ _ _ (proj2 Hk)), (get_lane_trigger_of _ _ _ Hp).
  - etrans; [exact Hg|]. cbn. destruct (get_lane_fields _ _ _ Hp) as [Hr _].
    unfold grown. rewrite <- (list_insert_id _ _ _ Hr) at 1.
    apply Forall2_insert; [apply grown_refl|]. apply (proj2 Hk).
Qed.

Lemma moved_ext b b' s0 s : (∀ i, (i < n)%nat → b' i ≤ b i) → moved b s0 s → moved b' s0 s.
Proof.
  intros Hb [Hs Ht Hg]. split; [|done..]. split; [apply Hs|]. intros i p Hp.
  pose proof (Hb i (lanes_hold_lt _ _ _ _ _ Hs Hp)). destruct (proj2 Hs _ _ Hp). split; [done..|lia].
Qed.

Lemma moved_tick t s0 s : moved steady s0 s → moved steady s0 (Seq.with_tick t s).
Proof.
  intros [Hs Ht Hg]. split; [|done..]. revert Hs.
  apply lanes_hold_map with (f := with_tick t); [intros; apply get_lane_tick|by intros []|].
  intros i p _ [[] ? ? ?]. by split.
Qed.

(** Taking a job off the ring makes room for sending it. *)
Lemma ready_pop s t k :
  (∀ l, k + zlen (items t) ≤ l ↔ zlen (items (sw_trigger s)) ≤ l) → lanes_ready steady s →
  lanes_ready (λ _, k) (Seq.with_trigger t s).
Proof.
  intros Hk. apply lanes_hold_map with (f := with_trigger t);
    [intros; apply get_lane_trigger|by intros []|].
  intros i p Ht [[] ? ? Htk]. split; [by split|done..|]. cbn. rewrite Ht in Htk.
  destruct (Hk (zlen tr - pw_jobs_sent p)). lia.
Qed.

(** ** The operations *)

Section modal.
Context {wp : ∀ A, M W A → W → (A → W → Prop) → Prop}.
Context `{MW : !Modality W wp} `{FL : !FillLaws W wp} `{CL : !ConnOk W HC QC wp hok qok}.
Context (Htr : zlen tr < U64 - 1).

(** A step of the sequential worker that is a provider's step [m]. *)
Lemma moved_lift k b b' s0 s i p (m : M W (ParWorker Q X CS)) (m' : M W (SeqWorker Q X CS)) w :
  moved b s0 s → get_lane i s = Some p → m' w = mapM (put_lane i s) m w →
  wp _ m w (λ p' _, kept (hok := hok) (qok := qok) k p p') →
  b' i + k ≤ b i → (∀ j, j ≠ i → b' j ≤ b j) → wp _ m' w (λ s' _, moved b' s0 s').
Proof using MW.
  intros Hs Hp Hm Hk Hb Hb'. eapply wp_at; [exact Hm|]. apply wp_bind.
  eapply wp_mono; [exact Hk|]. intros p' w' Hp'. apply wp_ret.
  eapply moved_put; [exact Hs|exact Hp|exact Hp'|exact Hb|exact Hb'].
Qed.

Lemma moved_send s0 s i job t len scratch w :
  0 ≤ len ≤ zlen scratch → (i < n)%nat → moved (sending i) s0 s →
  wp _ (Seq.send_to s i job t len scratch) w (λ s' _, moved (sending (S i)) s0 s').
Proof using CL Htr MW.
  intros Hlen Hi Hs. destruct (lane_exists _ _ _ _ (mv_ready _ _ _ Hs) Hi) as [p Hg].
  pose proof (proj2 (mv_ready _ _ _ Hs) _ _ Hg) as [Hok _ Hj Htk].
  pose proof (zlen_nonneg (items (pw_trigger p))).
  assert (sending i i = 1 ∧ sending (S i) i = 0) as [E0 E1].
  { unfold sending. by rewrite Nat.ltb_irrefl, (proj2 (Nat.ltb_lt i (S i))) by lia. }
  eapply (moved_lift 1); [exact Hs|exact Hg|by apply send_to_lane|apply ok_send_to; [lia|done..]|lia|].
  intros j Hne. unfold sending. destruct (Nat.ltb_spec j i), (Nat.ltb_spec j (S i)); lia.
Qed.

Lemma moved_drive s0 s i w :
  (i < n)%nat → moved steady s0 s → wp _ (Seq.drive_active i s) w (λ s' _, moved steady s0 s').
Proof using CL MW.
  intros Hi Hs. destruct (lane_exists _ _ _ _ (mv_ready _ _ _ Hs) Hi) as [p Hg].
  eapply (moved_lift 0); [exact Hs|exact Hg|by apply drive_lane| |done..].
  apply ok_drive, (proj2 (mv_ready _ _ _ Hs) _ _ Hg).
Qed.

Lemma moved_reap s0 s i w :
  (i < n)%nat → moved steady s0 s →
  wp _ (Seq.reap s i (provider_id i)) w (λ s' _, moved steady s0 s').
Proof using CL MW QL.
  intros Hi Hs. destruct (lane_exists _ _ _ _ (mv_ready _ _ _ Hs) Hi) as [p Hg].
  eapply (moved_lift 0); [exact Hs|exact Hg|by apply reap_lane| |done..].
  apply ok_reap, (proj2 (mv_ready _ _ _ Hs) _ _ Hg).
Qed.

Lemma moved_check_standby s0 s i :
  (i < n)%nat → moved steady s0 s → ∃ s', Seq.check_standby_delivery i s = Ret s' ∧ moved steady s0 s'.
Proof using XL.
  intros Hi Hs. destruct (lane_exists _ _ _ _ (mv_ready _ _ _ Hs) Hi) as [p Hg].
  pose proof (proj2 (mv_ready _ _ _ Hs) _ _ Hg) as [Hok Hro _ _].
  rewrite (check_standby_lane i s p Hg Hro). eexists. split; [done|].
  by eapply (moved_put _ _ _ _ _ _ _ 0); [exact Hs|exact Hg|apply ok_check_standby|..].
Qed.

Lemma moved_publish s0 s i :
  (i < n)%nat → moved steady s0 s → ∃ s', Seq.publish_diag_one i s = Ret s' ∧ moved steady s0 s'.
Proof.
  intros Hi Hs. destruct (lane_exists _ _ _ _ (mv_ready _ _ _ Hs) Hi) as [p Hg].
  rewrite (publish_lane i s p Hg). eexists. split; [done|].
  eapply (moved_put _ _ _ _ _ _ _ 0); [exact Hs|exact Hg|apply ok_publish|done..].
  apply (proj2 (mv_ready _ _ _ Hs) _ _ Hg).
Qed.

(** ** The phases *)

Lemma moved_housekeeping s0 s :
  moved steady s0 s → ∃ s', Seq.housekeeping s = Ret s' ∧ moved steady s0 s'.
Proof using XL.
  intros Hs. unfold Seq.housekeeping.
  destruct (for_pure_total (moved steady s0) Seq.check_standby_delivery
    (length (sw_reconnect_resp_rx s)) 0 s) as (s1&Hs1&Hm1); [|done|].
  { intros j s2 Hj. apply moved_check_standby. by rewrite <- (rg_resp _ _ (proj1 (mv_ready _ _ _ Hs))). }
  unfold Seq.check_standby_deliveries. rewrite Hs1. cbn. apply for_pure_total; [|done].
  intros j s2 Hj. apply moved_publish. by rewrite <- (rg_diag _ _ (proj1 (mv_ready _ _ _ Hm1))).
Qed.

Lemma moved_send_all k i job t s0 s scratch w :
  (i + k = n)%nat → moved (sending i) s0 s →
  wp _ (Seq.send_all k i job t s scratch) w (λ '(s', scratch') _,
    moved (sending n) s0 s' ∧ length scratch' = length scratch).
Proof using CL FL Htr MW.
  revert i s scratch w. induction k as [|k IH]; intros i s scratch w Hi Hs; cbn [Seq.send_all].
  { apply wp_ret. split; [|done]. by replace n with i by lia. }
  apply wp_bind. eapply wp_mono; [apply fill_bounds|]. intros [len scratch'] w' [Hl Hlen].
  apply wp_bind. eapply wp_mono; [apply moved_send; [unfold zlen in *; lia|lia|done]|].
  intros s' w'' Hs'. eapply wp_mono; [apply IH; [lia|done]|].
  intros [s2 scratch2] w2 [Hs2 Hl2]. split; [done|congruence].
Qed.

(** The worker without the job it takes. *)
Definition popped s : SeqWorker Q X CS := Seq.with_trigger (try_pop (sw_trigger s)).2 s.

Lemma moved_take_job s scratch w :
  lanes_ready steady s →
  wp _ (Seq.take_job s scratch) w (λ '(s', scratch') _,
    moved steady (popped s) s' ∧ length scratch' = length scratch).
Proof using CL FL Htr MW QL.
  intros Hs. unfold Seq.take_job, popped. destruct (try_pop_items (sw_trigger s)) as [Hpop Hit].
  destruct (try_pop (sw_trigger s)) as [o t]. cbn [snd] in *. injection Hpop as ->.
  destruct (items (sw_trigger s)) as [|job js] eqn:E; cbn [head tail] in *.
  - apply wp_ret. split; [|done]. apply moved_refl, ready_pop; [|done]. rewrite Hit, E. intros. by cbn.
  - apply wp_bind, wp_call. set (s0 := Seq.with_trigger t s).
    assert (moved (sending 0) s0 s0) as Hs0.
    { apply moved_refl, (ready_pop s t 1); [|done]. rewrite Hit, E. len. }
    change (sw_conns s0) with (sw_conns s). rewrite (rg_conns _ _ (proj1 Hs)).
    apply wp_bind. eapply wp_mono; [by apply moved_send_all|].
    intros [s1 scratch1] w1 [Hs1 Hl1]. assert (moved steady s0 s1) as Hs2.
    { eapply moved_ext; [|exact Hs1]. intros i Hi. unfold sending. by rewrite (proj2 (Nat.ltb_lt i n)). }
    apply wp_bind. eapply wp_mono; [apply (for_world_inv (moved steady s0)); [|exact Hs2]|].
    + intros j s3 w3 Hj. apply moved_drive. by rewrite <- (rg_conns _ _ (proj1 (mv_ready _ _ _ Hs2))).
    + intros s3 w3 Hs3. by apply wp_ret.
Qed.

Lemma moved_pass s scratch w :
  lanes_ready steady s →
  wp _ (Seq.seq_pass s scratch) w (λ '(s', scratch') _,
    moved steady (popped s) s' ∧ length scratch' = length scratch).
Proof using CL FL Htr MW QL XL.
  intros Hs. unfold Seq.seq_pass. apply wp_bind. eapply wp_mono; [by apply moved_take_job|].
  intros [s1 scratch1] w1 [Hs1 Hl1]. apply wp_bind.
  eapply wp_mono; [apply (for_world_inv (moved steady (popped s))); [|exact Hs1]|].
  { intros j s2 w2 Hj Hs2. rewrite (rg_conns _ _ (proj1 (mv_ready _ _ _ Hs1))) in Hj.
    unfold Seq.drive_and_reap. apply wp_bind. eapply wp_mono; [apply moved_drive; [lia|done]|].
    intros s3 w3 Hs3. apply moved_reap; [lia|done]. }
  intros s2 w2 Hs2. apply wp_bind.
  assert (∃ s3, Seq.tick_phase s2 = Ret s3 ∧ moved steady (popped s) s3) as (s3&Ht&Hs3).
  { unfold Seq.tick_phase. apply (moved_tick ((sw_tick s2 + 1) mod U32)) in Hs2.
    case_match; [by apply moved_housekeeping|by eexists]. }
  eapply wp_pure; [exact Ht|]. apply wp_bind. unfold Seq.idle_phase.
  case_match; [|by apply wp_ret, wp_ret]. apply wp_bind, wp_call.
  destruct (moved_housekeeping _ _ Hs3) as (s4&Hh&Hs4). eapply wp_pure; [exact Hh|]. by apply wp_ret.
Qed.
End modal.
End passes.

(** * The machine *)

Section machine.
Context `{BuildProfile} `{BoundedQueue Q, QueueView Q} `{BoundedQueue X}.
Context `{Conns W HC QC} `{Clock W, TxSource W, Idle W} `{ReconnectBuilder W (ConnState HC QC)}.
Abbreviation CS := (ConnState HC QC).
Context {SB : SinkBehaviour} (codecs : list ResponseCodec).
Implicit Type st : SeqSys Q X W CS.

Definition seq_worker_turn st : outcome (SeqWorker Q X CS * bytes * W) :=
  Seq.seq_pass (qs_worker st) (qs_scratch st) (qs_world st).
Definition seq_lane_turn st : outcome (bool * ResultLane Q * list ProviderOutcome) :=
  lane_pass (rings_fuel (sw_result_tx (qs_worker st)))
    (mkResultLane (sw_result_tx (qs_worker st)) codecs) (qs_sunk st).
Definition seq_reconnect_turn st : outcome (bool * ReconnectLoop X CS * W) :=
  reconnect_pass false false
    (mkReconnectLoop (sw_reconnect_req_tx (qs_worker st)) (sw_reconnect_resp_rx (qs_worker st)))
    (qs_world st).

Definition after_seq_worker (s : SeqWorker Q X CS) scratch (w : W) st : SeqSys Q X W CS :=
  mkSeqSys s scratch w (qs_sunk st) (qs_triggered st).
Definition after_seq_lane (rings : list (Spsc Q RawResp)) sunk st : SeqSys Q X W CS :=
  mkSeqSys (Seq.with_result_tx rings (qs_worker st)) (qs_scratch st) (qs_world st) sunk
    (qs_triggered st).
Definition after_seq_reconnect req rxs (w : W) st : SeqSys Q X W CS :=
  mkSeqSys (Seq.with_req_tx req (Seq.with_resp_rx rxs (qs_worker st))) (qs_scratch st) w
    (qs_sunk st) (qs_triggered st).

(** As in the parallel sender, a pass that panics leaves what its thread had in
    whatever state it had brought it to; the number of rings stays. *)
Inductive seq_turn : thread → SeqSys Q X W CS → status → SeqSys Q X W CS → Prop :=
| turn_seq_worker st s' scratch' w' :
    seq_worker_turn st = Ret (s', scratch', w') →
    seq_turn (TWorker 0) st Running (after_seq_worker s' scratch' w' st)
| turn_seq_worker_panics st s' scratch' w' :
    seq_worker_turn st = Panic → length (sw_result_tx s') = length (sw_result_tx (qs_worker st)) →
    seq_turn (TWorker 0) st Panicked (after_seq_worker s' scratch' w' st)
| turn_seq_worker_hangs st : seq_worker_turn st = OutOfFuel → seq_turn (TWorker 0) st Hung st
| turn_seq_lane st waits l sunk :
    seq_lane_turn st = Ret (waits, l, sunk) →
    seq_turn TLane st Running (after_seq_lane (rl_rings l) sunk st)
| turn_seq_lane_panics st rings sunk :
    seq_lane_turn st = Panic → length rings = length (sw_result_tx (qs_worker st)) →
    seq_turn TLane st Panicked (after_seq_lane rings sunk st)
| turn_seq_lane_hangs st : seq_lane_turn st = OutOfFuel → seq_turn TLane st Hung st
| turn_seq_reconnect st goes_on l w' :
    seq_reconnect_turn st = Ret (goes_on, l, w') →
    seq_turn TReconnect st (if goes_on : bool then Running else Exited)
      (after_seq_reconnect (rcl_req_rx l) (rcl_resp_txs l) w' st)
| turn_seq_reconnect_panics st req w' :
    seq_reconnect_turn st = Panic →
    seq_turn TReconnect st Panicked
      (after_seq_reconnect req (sw_reconnect_resp_rx (qs_worker st)) w' st)
| turn_seq_reconnect_hangs st :
    seq_reconnect_turn st = OutOfFuel → seq_turn TReconnect st Hung st.

Inductive seq_invoke : Job → SeqSys Q X W CS → SeqSys Q X W CS → Prop :=
| invoke_seq_trigger job st r tx :
    trigger (Single (sw_trigger (qs_worker st))) job = (r, Single tx) →
    seq_invoke job st (mkSeqSys (Seq.with_trigger tx (qs_worker st)) (qs_scratch st) (qs_world st)
      (qs_sunk st) (qs_triggered st ++ [job])).

#[global] Instance seq_machine : Machine (SeqSys Q X W CS) thread Job := {
  turn := seq_turn; invoke := seq_invoke }.

(** The turns as a function: a panicking pass leaves what it was given. *)
Definition seq_turn_do (t : thread) st : status * SeqSys Q X W CS :=
  match t with
  | TWorker _ =>
      match seq_worker_turn st with
      | Ret (s', scratch', w') => (Running, after_seq_worker s' scratch' w' st)
      | Panic => (Panicked, after_seq_worker (qs_worker st) (qs_scratch st) (qs_world st) st)
      | OutOfFuel => (Hung, st)
      end
  | TLane =>
      match seq_lane_turn st with
      | Ret (_, l, sunk) => (Running, after_seq_lane (rl_rings l) sunk st)
      | Panic => (Panicked, after_seq_lane (sw_result_tx (qs_worker st)) (qs_sunk st) st)
      | OutOfFuel => (Hung, st)
      end
  | TReconnect =>
      match seq_reconnect_turn st with
      | Ret (goes_on, l, w') =>
          (if goes_on : bool then Running else Exited,
           after_seq_reconnect (rcl_req_rx l) (rcl_resp_txs l) w' st)
      | Panic =>
          (Panicked, after_seq_reconnect (sw_reconnect_req_tx (qs_worker st))
             (sw_reconnect_resp_rx (qs_worker st)) (qs_world st) st)
      | OutOfFuel => (Hung, st)
      end
  end.

Lemma seq_turn_do_turn t st :
  t ∈ sender_handles 1 → let '(s, st') := seq_turn_do t st in seq_turn t st s st'.
Proof.
  intros Ht. apply elem_of_cons in Ht as [->|[->|[->|[]%not_elem_of_nil]%elem_of_cons]%elem_of_cons];
    cbn [seq_turn_do].
  - destruct (seq_worker_turn st) as [[[]]| |] eqn:E; cbv beta iota; by econstructor.
  - destruct (seq_lane_turn st) as [[[]]| |] eqn:E; cbv beta iota; by econstructor.
  - destruct (seq_reconnect_turn st) as [[[]]| |] eqn:E; cbv beta iota; by econstructor.
Qed.

(** Only the threads with handles have turns. *)
Lemma seq_turn_handle t st s st' : seq_turn t st s st' → t ∈ sender_handles 1.
Proof. intros []; apply elem_sender_handles; intros i; try done; intros [= <-]; lia. Qed.

Lemma seq_turn_do_triggered t st : qs_triggered (seq_turn_do t st).2 = qs_triggered st.
Proof. destruct t; cbn; by repeat case_match. Qed.

Lemma seq_do_trigger_invoke job st : seq_invoke job st (seq_do_trigger job st).
Proof.
  unfold seq_do_trigger. apply (invoke_seq_trigger job st
    (if is_ok (try_push job (sw_trigger (qs_worker st))).1 then Ok () else Err Backpressure)).
  unfold trigger. by destruct (try_push job (sw_trigger (qs_worker st))).
Qed.

(** What the threads do while none panics are the steps of the system. *)
Lemma turn_seq_step t st st' : seq_turn t st Running st' → seq_step codecs st st'.
Proof.
  destruct st as [s scratch w sk tr]. inversion 1; subst; cbn in *.
  - by apply seq_worker.
  - by eapply seq_lane.
  - by apply (seq_reconnect codecs _ _ _ _ _ false false goes_on).
Qed.
End machine.

(** * Threads that come back *)

Section comes_back.
Context `{BuildProfile} `{QL : QueueLaws Q} `{XL : QueueLaws X}.
Context `{Clock W, Idle W} `{TS : TxSource W} `{CN : Conns W HC QC}.
Context `{RB : ReconnectBuilder W (ConnState HC QC)}.
Abbreviation CS := (ConnState HC QC).
Context {SB : SinkBehaviour} (codecs : list ResponseCodec) (hok : HC → Prop) (qok : QC → Prop).
Abbreviation n := (length codecs).
Abbreviation ready_lanes := (λ tr, lanes_ready hok qok n tr (λ _, 0)).
Implicit Types (st : SeqSys Q X W CS) (s : SeqWorker Q X CS) (l : Life (SeqSys Q X W CS) thread).

Record seq_life_inv l : Prop := {
  sl_rings : length (sw_result_tx (qs_worker (lf_state l))) = n;
  sl_worker : lf_status l (TWorker 0) = Running →
    ready_lanes (qs_triggered (lf_state l)) (qs_worker (lf_state l));
  sl_hang : ∀ t, lf_status l t ≠ Hung;
}.

(** The invariant after a turn that left thread [t] in status [x]. *)
Lemma seq_life_inv_set st st' stop ss ph t x :
  seq_life_inv (mkLife st stop ss ph) → x ≠ Hung →
  length (sw_result_tx (qs_worker st')) = length (sw_result_tx (qs_worker st)) →
  (t = TWorker 0 → x = Running → ready_lanes (qs_triggered st') (qs_worker st')) →
  (t ≠ TWorker 0 → ready_lanes (qs_triggered st) (qs_worker st) →
     ready_lanes (qs_triggered st') (qs_worker st')) →
  seq_life_inv (mkLife st' stop (<[t := x]> ss) ph).
Proof.
  intros [Hc Hw Hh] Hx Hl Hown Hother. cbn in *. split; cbn; [by rewrite Hl| |].
  - destruct (decide (t = TWorker 0)) as [->|Hne]; [rewrite fn_lookup_insert; auto|].
    rewrite fn_lookup_insert_ne by done. auto.
  - intros t'. destruct (decide (t = t')) as [->|]; [by rewrite fn_lookup_insert|].
    by rewrite fn_lookup_insert_ne.
Qed.

(** ** What the other threads do to the providers *)

Lemma ready_results tr s rings :
  length rings = n → ready_lanes tr s → ready_lanes tr (Seq.with_result_tx rings s).
Proof.
  intros Hl [Hr Hp]. split; [by destruct Hr; split|]. intros i p' Hg.
  assert (wide i s) as Hw.
  { apply (regular_wide n); [done|]. apply get_lane_wide in Hg as []. cbn in *. lia. }
  destruct (lookup_lt_is_Some_2 rings i) as [r Hri]; [destruct Hw, Hr; lia|].
  rewrite (get_lane_result i rings s r) in Hg by done. apply fmap_Some in Hg as (p&Hg&->).
  destruct (Hp _ _ Hg) as [[] ? ? ?]. by split.
Qed.

Lemma ready_extends tr s rxs :
  extends (cs_ok (hok := hok) (qok := qok)) (sw_reconnect_resp_rx s) rxs →
  ready_lanes tr s → ready_lanes tr (Seq.with_resp_rx rxs s).
Proof.
  intros [Hl Hx] [Hr Hp]. pose proof (rg_resp _ _ Hr) as Hn.
  split; [destruct Hr; split; cbn; congruence|]. intros i p' Hg.
  assert (wide i s) as Hw.
  { apply (regular_wide n); [done|]. apply get_lane_wide in Hg as []. cbn in *. congruence. }
  destruct (lookup_lt_is_Some_2 rxs i) as [rx Hri]; [destruct Hw; lia|].
  rewrite (get_lane_resp i rxs s rx) in Hg by done. apply fmap_Some in Hg as (p&Hg&->).
  destruct (get_lane_fields _ _ _ Hg) as [_ Hpx]. specialize (Hx _ _ _ Hpx Hri).
  destruct (Hp _ _ Hg) as [Hok Hro ? ?]. split; [by apply (ok_supplied hok qok i)| |done..].
  destruct Hx as (new&Hnew&Hnok). cbn. rewrite Hnew. apply Forall_app_2; [done|].
  eapply Forall_impl; [exact Hnok|]. by intros r [].
Qed.

Lemma ready_req tr s x : ready_lanes tr s → ready_lanes tr (Seq.with_req_tx x s).
Proof.
  apply lanes_hold_map with (f := with_req_tx x); [intros; apply get_lane_req|by intros []|].
  intros i p _ [[] ? ? ?]. by split.
Qed.

Lemma ready_triggered tr s job t :
  pushed job (sw_trigger s) t → ready_lanes tr s →
  ready_lanes (tr ++ [job]) (Seq.with_trigger t s).
Proof.
  intros [Hit _]. apply lanes_hold_map with (f := with_trigger t);
    [intros; apply get_lane_trigger|by intros []|].
  intros i p Ht [[] ? ? Htk]. split; [by split|done..|]. cbn. rewrite Hit. rewrite Ht in Htk.
  case_match; revert Htk; len.
Qed.

(** A turn of the lane, as far as the sink comes back. *)
Lemma seq_lane_turn_wp `{SL : !SinkLaws (list ProviderOutcome) wp} `{MS : !Modality _ wp} st :
  length (sw_result_tx (qs_worker st)) = n →
  wp _ (lane_pass (rings_fuel (sw_result_tx (qs_worker st)))
          (mkResultLane (sw_result_tx (qs_worker st)) codecs)) (qs_sunk st) (λ '(waits, rl) sunk',
    sunk' = qs_sunk st ++ concat (zip_with outcomes codecs (sw_result_tx (qs_worker st))) ∧
    length (rl_rings rl) = n).
Proof using QL.
  intros Hc. eapply wp_mono; [apply lane_pass_wp; [cbn; lia|apply rings_fuel_enough]|].
  intros [waits l] sunk' (_&_&Hl&Hd&_). cbn in Hl. split; [done|congruence].
Qed.

Lemma seq_lane_turn_ends `{SR : !SinkReturns} st :
  length (sw_result_tx (qs_worker st)) = n →
  ∃ waits rl, seq_lane_turn codecs st = Ret (waits, rl, qs_sunk st ++
    concat (zip_with outcomes codecs (sw_result_tx (qs_worker st)))) ∧ length (rl_rings rl) = n.
Proof using QL.
  intros Hc. destruct (seq_lane_turn_wp (wp := @ends _) st Hc) as ([waits rl]&sunk'&Hp&->&Hl).
  by exists waits, rl.
Qed.

Section halting.
Context `{FL : !FillLaws W (@halts W)} `{CL : !ConnOk W HC QC (@halts W) hok qok}.
Context {SC : SinkComesBack} (Hbuild : build_ok hok qok (@halts W)).

Lemma seq_turn_inv t st x st' stop ss ph :
  zlen (qs_triggered st) < U64 - 1 → seq_turn codecs t st x st' → ss t = Running →
  seq_life_inv (mkLife st stop ss ph) → seq_life_inv (mkLife st' stop (<[t := x]> ss) ph).
Proof using CL FL Hbuild QL SC XL.
  intros Htr Hturn Hss Hinv. pose proof Hinv as [Hc Hw Hh]. cbn in Hc, Hw, Hh.
  pose proof (seq_lane_turn_wp (wp := @halts _) st Hc) as Hlane.
  pose proof (reconnect_supplies hok qok (wp := @halts W) (mkReconnectLoop
    (sw_reconnect_req_tx (qs_worker st)) (sw_reconnect_resp_rx (qs_worker st))) (qs_world st) Hbuild) as Hrec.
  assert (t = TWorker 0 → halts (Seq.seq_pass (qs_worker st) (qs_scratch st)) (qs_world st)
    (λ '(s', _) _, moved hok qok n (qs_triggered st) (λ _, 0) (popped (qs_worker st)) s')) as Hpass.
  { intros ->. eapply wp_mono.
    - apply (moved_pass hok qok n (qs_triggered st) (wp := @halts W) Htr); by apply Hw.
    - by intros [] ? []. }
  destruct Hturn as [st s' scratch' w' Hp|st s' scratch' w' Hp Hl|st Hp|st waits l sunk Hp
    |st rings sunk Hp Hr|st Hp|st goes_on l w' Hp|st req w' Hp|st Hp].
  - pose proof (halts_Ret _ _ _ _ _ (Hpass eq_refl) Hp) as [Hm _ _].
    apply (seq_life_inv_set st); [done..| |done|done].
    cbn. rewrite Hc. apply (proj1 Hm).
  - by apply (seq_life_inv_set st).
  - by destruct (halts_comes_back _ _ _ (Hpass eq_refl)).
  - pose proof (halts_Ret _ _ _ _ _ Hlane Hp) as [_ Hl].
    apply (seq_life_inv_set st); [done..|cbn; congruence|done|]. intros _. by apply ready_results.
  - apply (seq_life_inv_set st); [done..|]. intros _. apply ready_results. congruence.
  - by destruct (halts_comes_back _ _ _ Hlane).
  - pose proof (halts_Ret _ _ _ _ _ Hrec Hp) as [-> Hx].
    apply (seq_life_inv_set st); [done..|]. intros _ ?. by apply ready_req, ready_extends.
  - apply (seq_life_inv_set st); [done..|]. intros _ ?. apply ready_req, ready_extends; [|done].
    apply extends_refl.
  - by destruct (halts_comes_back _ _ _ Hrec).
Qed.

Lemma seq_life_step hs a l l' :
  zlen (qs_triggered (lf_state l)) < U64 - 1 →
  life_step (H := seq_machine codecs) hs a l l' → seq_life_inv l → seq_life_inv l'.
Proof using CL FL Hbuild QL SC XL.
  intros Htr Hs Hl. destruct Hs as [job ? ? ? ? Hinv| | | | |t ? ? ? Hr|t ? ? ? ? ? ? Hr Hturn|]; try done.
  - destruct Hinv as [j st r tx Ht]. destruct Hl as [Hc Hw Hh]. cbn in *. split; cbn; [done| |done].
    intros Hr. apply ready_triggered; [|by apply Hw]. unfold trigger in Ht.
    pose proof (try_push_pushed j (sw_trigger (qs_worker st))) as Hp.
    destruct (try_push _ _). by injection Ht as _ <-.
  - by destruct Hl.
  - by destruct Hl.
  - by eapply seq_life_inv_set.
  - by eapply seq_turn_inv.
Qed.

Lemma seq_exec_inv hs run lab :
  exec (H := seq_machine codecs) hs run lab →
  (∀ k, zlen (qs_triggered (lf_state (run k))) < U64 - 1) → seq_life_inv (run O) →
  ∀ k, seq_life_inv (run k).
Proof using CL FL Hbuild QL SC XL.
  intros He Htr Hz k. induction k as [|k IH]; [done|]. by eapply seq_life_step.
Qed.
End halting.

(** ** The sender [build] returns *)

Definition pair_ok (d : DualConn CS) : Prop :=
  cs_ok (hok := hok) (qok := qok) (conn (active d)) ∧ cs_ok (hok := hok) (qok := qok) (conn (standby d)).

Lemma started_seq_inv providers kind (duals : list (DualConn CS)) s (w : W) :
  codecs = pc_codec <$> providers →
  th_seq (sd_threads (finish_seq providers kind duals)) = Some s →
  length duals = length providers → Forall pair_ok duals → seq_life_inv (started (seq_init s w)).
Proof using QL XL.
  intros Hcod [= <-] Hl Hu. assert (n = length providers) as Hn by (by rewrite Hcod, length_fmap).
  assert (regular n (spawn_seq (X := X) (Q := Q) duals (channel (trigger_address providers) TRIGGER_RING)
    (result_rings providers) (bq_new (req_address providers) REQ_RING) (resp_channels providers) kind (diag_slots providers))) as Hr.
  { rewrite Hn. split; cbn; unfold result_rings, resp_channels, diag_slots;
      by rewrite ?length_imap, ?length_replicate, ?length_fmap. }
  split; cbn [started lf_state lf_status qs_worker qs_triggered seq_init]; [apply Hr| |done].
  intros _. split; [done|]. intros i p Hg. unfold get_lane, spawn_seq in Hg. cbn in Hg.
  apply bind_Some in Hg as (d&Hd&Hg). apply bind_Some in Hg as (r&_&Hg).
  apply bind_Some in Hg as (o&_&Hg). apply bind_Some in Hg as (x&(y&_&->)%list_lookup_imap_Some&Hg).
  apply bind_Some in Hg as (g&_&Hg). apply bind_Some in Hg as (js&[-> _]%lookup_replicate&Hg).
  injection Hg as <-. rewrite Forall_lookup in Hu. destruct (Hu _ _ Hd) as [Ha Hs].
  split; cbn; rewrite ?new_contents, ?channel_items; try done. split; [done..|].
  unfold arriving. cbn. by rewrite new_contents.
Qed.
End comes_back.

(** * Progress *)

Section progress.
Context `{BuildProfile} `{QL : QueueLaws Q} `{XL : QueueLaws X}.
Context `{Clock W, Idle W} `{FL : FillLaws W (@ends W)} `{CN : Conns W HC QC}.
Context `{RB : ReconnectBuilder W (ConnState HC QC)}.
Abbreviation CS := (ConnState HC QC).
Context `{SR : SinkReturns} (codecs : list ResponseCodec) (hok : HC → Prop) (qok : QC → Prop).
Context `{CL : !ConnOk W HC QC (@ends W) hok qok} (Hbuild : build_ok hok qok (@ends W)).
Implicit Types (st : SeqSys Q X W CS) (l : Life (SeqSys Q X W CS) thread).
Abbreviation rings st := (sw_result_tx (qs_worker st)).
Abbreviation queue st := (items (sw_trigger (qs_worker st))).

(** What a step of actor [a] leaves of the trigger ring and the result rings. *)
Record seq_rings_kept (a : label thread Job) st st' : Prop := {
  sk_trigger : a ≠ LThread (TWorker 0) false → queue st `prefix_of` queue st';
  sk_taken : a = LThread (TWorker 0) false → queue st' = tail (queue st);
  sk_result : a ≠ LThread TLane false → grown (rings st) (rings st');
}.

(** A turn of a thread that is in its loop leaves it there, and the rings as
    they should be. *)
Lemma seq_turn_keeps t st x st' stop ss ph :
  zlen (qs_triggered st) < U64 - 1 → seq_turn codecs t st x st' → (∀ t, ss t = Running) →
  seq_life_inv codecs hok qok (mkLife st stop ss ph) →
  x = Running ∧ seq_rings_kept (LThread t false) st st'.
Proof using CL FL Hbuild QL SR XL.
  intros Htr Hturn Hss [Hc Hw _]. cbn in Hc, Hw.
  destruct (seq_lane_turn_ends codecs st Hc) as (waits0&l0&Hlane&_).
  destruct (reconnect_supplies hok qok (wp := @ends W) (mkReconnectLoop
    (sw_reconnect_req_tx (qs_worker st)) (sw_reconnect_resp_rx (qs_worker st))) (qs_world st) Hbuild)
    as ([goes_on0 l1]&w1&Hrec&->&_). fold (seq_reconnect_turn st) in Hrec.
  destruct (moved_pass hok qok _ _ (wp := @ends W) Htr (qs_worker st) (qs_scratch st) (qs_world st)
    (Hw (Hss _))) as ([s1 scratch1]&w2&Hpass&[_ Hmt Hmg]&_). fold (seq_worker_turn st) in Hpass.
  destruct Hturn as [st s' scratch' w' Hp|st s' scratch' w' Hp|st Hp|st waits l sunk Hp|st rings sunk Hp
    |st Hp|st goes_on l w' Hp|st req w' Hp|st Hp]; try congruence.
  - split; [done|]. rewrite Hp in Hpass. injection Hpass as -> -> ->. split; [done| |done].
    intros _. cbn. rewrite Hmt. apply try_pop_items.
  - by split.
  - rewrite Hp in Hrec. injection Hrec as -> -> ->. by split.
Qed.

Section runs.
Context (hs : list thread) (run : nat → Life (SeqSys Q X W CS) thread) (lab : nat → label thread Job).
Context (Hexec : exec (H := seq_machine codecs) hs run lab).
Context (Htr : ∀ k, zlen (qs_triggered (lf_state (run k))) < U64 - 1).
Context (Hinit : seq_life_inv codecs hok qok (run O)) (Hup : ∀ t, lf_status (run O) t = Running).

Lemma seq_run_inv k : seq_life_inv codecs hok qok (run k).
Proof using CL FL Hbuild Hexec Hinit Htr QL SR XL.
  apply (seq_exec_inv codecs hok qok (build_ok_halts hok qok Hbuild) hs run lab); done.
Qed.

Lemma seq_run_up k : lf_stop (run k) = false → ∀ t, lf_status (run k) t = Running.
Proof using CL FL Hbuild Hexec Hinit Htr Hup QL SR XL.
  apply (all_up (H := seq_machine codecs) hs run lab Hexec); [done|]. intros j t s x Hall Hturn.
  pose proof (seq_run_inv j) as Hinv. specialize (Htr j). destruct (run j) as [y stop ss ph].
  apply (seq_turn_keeps t y s x stop ss ph Htr Hturn Hall Hinv).
Qed.

Lemma seq_rings_step m :
  lf_stop (run m) = false → seq_rings_kept (lab m) (lf_state (run m)) (lf_state (run (S m))).
Proof using CL FL Hbuild Hexec Hinit Htr Hup QL SR XL.
  intros Hs. pose proof (seq_run_inv m) as Hinv. pose proof (seq_run_up m Hs) as Hall.
  pose proof (Htr m) as Hb. pose proof (Hexec m) as Hstep. revert Hs Hinv Hall Hb Hstep.
  generalize (lab m) (run m) (run (S m)). intros a l l' Hs Hinv Hall Hb Hstep.
  destruct Hstep as [job st st' stop ss Hinvk| | | | |? ? ? ? Hr|t st st' s stop ss ph Hr Hturn|
    ? ? ? ? ? ? Hr]; cbn in *; try done; try by split.
  - destruct Hinvk as [j st r tx Ht]. split; try done. intros _. cbn. unfold trigger in Ht.
    destruct (try_push_pushed j (sw_trigger (qs_worker st))) as [Hp _].
    destruct (try_push _ _). injection Ht as _ <-. cbn in Hp. rewrite Hp. by apply prefix_app_r.
  - by eapply seq_turn_keeps.
  - by destruct Hr.
Qed.

(** The job is the [k]-th of the trigger ring. *)
Definition seq_waiting (k : nat) (job : Job) l : Prop := queue (lf_state l) !! k = Some job.

(** The response is in provider [i]'s result ring. *)
Definition seq_reported (i : nat) (r : RawResp) l : Prop :=
  ∃ ring, rings (lf_state l) !! i = Some ring ∧ r ∈ items ring.

Lemma seq_job_accepted k job :
  lab k = LCall job → has_room (sw_trigger (qs_worker (lf_state (run k)))) = true →
  ∃ j, seq_waiting j job (run (S k)).
Proof using QL Hexec.
  intros Hl. pose proof (Hexec k) as Hstep. rewrite Hl in Hstep. revert Hstep.
  generalize (run k) (run (S k)). intros l l' Hstep Hroom.
  inversion Hstep as [? ? ? ? ? Hinvk| | | | | | |]; subst. destruct Hinvk as [j x r tx Ht]. cbn in *.
  unfold trigger in Ht. destruct (try_push_pushed j (sw_trigger (qs_worker x))) as [Hp _].
  destruct (try_push _ _). injection Ht as _ <-. exists (length (queue x)). unfold seq_waiting.
  cbn in *. rewrite Hp, Hroom. by rewrite lookup_app_r, Nat.sub_diag by done.
Qed.

Lemma seq_job_taken job j k :
  fair hs run lab → TWorker 0 ∈ hs → seq_waiting j job (run k) →
  ∃ m, (k ≤ m)%nat ∧ (lf_stop (run m) = true ∨
    (lab m = LThread (TWorker 0) false ∧ seq_waiting 0 job (run m))).
Proof using CL FL Hbuild Hexec Hinit Htr Hup QL SR XL.
  intros Hf Hin. revert k. induction j as [|j IH]; intros k Hk.
  all: destruct (wait_turn hs run lab (seq_waiting _ job) (TWorker 0) k Hf Hin Hk)
    as (m&Hle&[Hs|(Hs&Hl&Hw)]); [|exists m; by auto| ].
  all: try (intros m Hs Hl Hj; eapply prefix_lookup_Some; [exact Hj|by apply seq_rings_step]).
  - exists m. auto.
  - destruct (IH (S m)) as (m'&Hle'&Hm').
    + unfold seq_waiting. by rewrite (sk_taken _ _ _ (seq_rings_step m Hs) Hl), lookup_tail.
    + exists m'. split; [lia|done].
Qed.

Lemma seq_response_sunk i r codec k :
  fair hs run lab → TLane ∈ hs → codecs !! i = Some codec → seq_reported i r (run k) →
  ∃ m, (k ≤ m)%nat ∧ (lf_stop (run m) = true ∨ parse_one r codec ∈ qs_sunk (lf_state (run m))).
Proof using CL FL Hbuild Hexec Hinit Htr Hup QL SR XL.
  intros Hf Hin Hc Hr.
  destruct (wait_turn hs run lab (seq_reported i r) TLane k Hf Hin Hr) as (m&Hle&[Hs|(Hs&Hl&Hw)]).
  - intros m Hs Hl (ring&Hi&Hj). pose proof (sk_result _ _ _ (seq_rings_step m Hs) Hl) as Hg.
    destruct (Forall2_lookup_l _ _ _ i ring Hg Hi) as (ring'&Hi'&[more Hm]).
    exists ring'. split; [done|]. rewrite Hm. apply elem_of_app. by left.
  - exists m. auto.
  - exists (S m). split; [lia|]. right. pose proof (Hexec m) as Hstep.
    pose proof (seq_run_up m Hs) as Hall. pose proof (sl_rings _ _ _ _ (seq_run_inv m)) as Hcount.
    rewrite Hl in Hstep. destruct Hw as (ring&Hi&Hj). revert Hstep Hall Hcount Hi.
    generalize (run m) (run (S m)). intros l l' Hstep Hall Hcount Hi.
    inversion Hstep as [| | | | | |? st st' s stop ss ph Hrun Hturn|? ? ? ? ? ? Hno]; subst; cbn in *;
      [|by destruct Hno].
    destruct (seq_lane_turn_ends codecs st Hcount) as (waits&l0&Hlane&_).
    inversion Hturn; subst; rewrite Hlane in *; simplify_eq. cbn. apply elem_of_app. right.
    by eapply elem_outcomes.
Qed.
End runs.
End progress.

(** C6: the sequential sender makes progress. If the connections, the
    builder, the transaction source and the sink neither panic nor hang, then in
    every fair execution from what [build] starts a job that is triggered when
    the ring has room is eventually the job the worker takes in its pass over
    the providers, and a response that is in a provider's result ring is
    eventually given to the sink, as that provider's codec reads it, unless the
    sender is being shut down. *)
Theorem seq_sender_live `{BuildProfile} `{QueueLaws Q} `{QueueLaws X} `{Clock W, Idle W}
    `{FillLaws W (@ends W)} `{SinkReturns} `{ConnOk W HC QC (@ends W) hok qok}
    `{ReconnectBuilder W (ConnState HC QC)}
    providers kind (duals : list (DualConn (ConnState HC QC))) (s : SeqWorker Q X (ConnState HC QC))
    (w : W) (st : nat → Life (SeqSys Q X W (ConnState HC QC)) thread) (lab : nat → label thread Job) :
  let codecs := pc_codec <$> providers in
  let handles := sender_handles 1 in
  build_ok hok qok (@ends W) → th_seq (sd_threads (finish_seq providers kind duals)) = Some s →
  length duals = length providers → Forall (pair_ok hok qok) duals →
  st O = started (seq_init s w) →
  exec (H := seq_machine codecs) handles st lab → fair handles st lab →
  (∀ k, zlen (qs_triggered (lf_state (st k))) < U64 - 1) →
  (∀ n job, lab n = LCall job → has_room (sw_trigger (qs_worker (lf_state (st n)))) = true →
     ∃ m, (n ≤ m)%nat ∧ (lf_stop (st m) = true ∨
       (lab m = LThread (TWorker 0) false ∧ seq_waiting 0 job (st m)))) ∧
  (∀ n i r codec, seq_reported i r (st n) → codecs !! i = Some codec →
     ∃ m, (n ≤ m)%nat ∧ (lf_stop (st m) = true ∨ parse_one r codec ∈ qs_sunk (lf_state (st m)))).
Proof.
  intros codecs handles Hb Hs Hl Hd Hz He Hf Htr.
  assert (seq_life_inv codecs hok qok (st O)) as Hinv by (rewrite Hz; by eapply started_seq_inv).
  assert (∀ t, lf_status (st O) t = Running) as Hup by (by rewrite Hz).
  split.
  - intros n job Hn Hroom.
    destruct (seq_job_accepted codecs handles st lab He n job Hn Hroom) as [j Hj].
    destruct (seq_job_taken codecs hok qok Hb handles st lab He Htr Hinv Hup job j (S n) Hf) as (m&Hle&Hm);
      [by apply list_elem_of_here|done|]. exists m. split; [lia|done].
  - intros n i r codec Hr Hc.
    apply (seq_response_sunk codecs hok qok Hb handles st lab He Htr Hinv Hup i r codec n Hf); [|done..].
    by apply elem_sender_handles.
Qed.

(** C7: [shutdown] of a sequential sender returns, and leaves nothing running.
    If the connections, the reconnect builder, the transaction source and the
    sink always come back, with a result or with a panic, then in every fair
    execution a call of [shutdown] joins the worker, the lane and the reconnect
    thread, whether they returned or panicked, and from then on nothing changes
    any more. *)
Theorem seq_shutdown_returns `{BuildProfile} `{QueueLaws Q} `{QueueLaws X} `{Clock W, Idle W}
    `{FillLaws W (@halts W)} `{SinkComesBack} `{ConnOk W HC QC (@halts W) hok qok}
    `{ReconnectBuilder W (ConnState HC QC)}
    providers kind (duals : list (DualConn (ConnState HC QC))) (s : SeqWorker Q X (ConnState HC QC))
    (w : W) (st : nat → Life (SeqSys Q X W (ConnState HC QC)) thread) (lab : nat → label thread Job) n :
  let handles := sender_handles 1 in
  build_ok hok qok (@halts W) → th_seq (sd_threads (finish_seq providers kind duals)) = Some s →
  length duals = length providers → Forall (pair_ok hok qok) duals →
  st O = started (seq_init s w) →
  exec (H := seq_machine (pc_codec <$> providers)) handles st lab → fair handles st lab →
  (∀ k, zlen (qs_triggered (lf_state (st k))) < U64 - 1) →
  lab n = LShutdown →
  ∃ m, (n < m)%nat ∧ returned (st m) ∧ (∀ t, t ∈ handles → finished (lf_status (st m) t) = true) ∧
    ∀ k, (m ≤ k)%nat → lf_state (st k) = lf_state (st m).
Proof.
  intros handles Hb Hs Hl Hd Hz He Hf Htr Hn.
  pose proof (seq_exec_inv _ hok qok Hb handles st lab He Htr) as Hinv. rewrite Hz in Hinv.
  specialize (Hinv (started_seq_inv _ hok qok providers kind duals s w eq_refl Hs Hl Hd)).
  apply (shutdown_joins handles st lab He n); [rewrite Hz; apply started_inv|done|intros; apply Hinv| |done].
  intros k t x y. apply seq_turn_handle.
Qed.

(** * A sequential sender from start to end *)

#[local] Existing Instance quiet_sink.

Definition seq_sample_start : Life (SeqSys list_queue list_queue demo_world demo_cs) thread :=
  started (seq_init sample_seq_worker (mkDemoWorld 0)).
Definition seq_sample (lab : nat → label thread Job) :
    nat → Life (SeqSys list_queue list_queue demo_world demo_cs) thread :=
  life_run (sender_handles 1) (seq_turn_do (H := true) (pc_codec <$> sample_providers)) seq_do_trigger
    lab seq_sample_start.

Lemma seq_sample_exec lab :
  (∀ k, fits (sender_handles 1) (lab k) (seq_sample lab k)) →
  exec (H := seq_machine (H := true) (pc_codec <$> sample_providers)) (sender_handles 1)
    (seq_sample lab) lab.
Proof.
  intros Hfit. apply life_run_exec. intros k. eapply fits_enabled; [..|apply Hfit].
  - intros. apply seq_do_trigger_invoke.
  - intros t. apply seq_turn_do_turn.
Qed.

Lemma seq_sample_room lab k :
  (∀ k job, lab (S k) ≠ LCall job) → lab O = LCall (mkJob 7 0) →
  zlen (qs_triggered (lf_state (seq_sample lab k))) < U64 - 1.
Proof.
  intros Hlab H0. destruct k as [|k]; [done|]. unfold seq_sample.
  rewrite (life_run_same (sender_handles 1) (seq_turn_do (H := true) (pc_codec <$> sample_providers))
    seq_do_trigger qs_triggered); [|apply seq_turn_do_triggered|done]. cbn [life_run]. by rewrite H0.
Qed.

Lemma sample_duals_ok : Forall (pair_ok (λ _ : demo_http, True) (λ _ : demo_quic, True)) sample_duals.
Proof. by repeat constructor. Qed.

Lemma seq_sample_reported :
  seq_reported 1 (quic_resp 7 (provider_id 1) 0 1) (seq_sample live_schedule 2).
Proof. eexists. split; [vm_compute; reflexivity|]. apply list_elem_of_singleton. reflexivity. Qed.

Lemma seq_sender_live_witness :
  let live := seq_sample live_schedule in
  let r := quic_resp 7 (provider_id 1) 0 1 in
  (∃ m, lf_stop (live m) = true ∨
     (live_schedule m = LThread (TWorker 0) false ∧ seq_waiting 0 (mkJob 7 0) (live m))) ∧
  ∃ m, lf_stop (live m) = true ∨ parse_one r JsonRpcCodec ∈ qs_sunk (lf_state (live m)).
Proof.
  intros live r.
  edestruct (seq_sender_live (H := true) (hok := λ _ : demo_http, True) (qok := λ _ : demo_quic, True)
    sample_providers KRawLibc sample_duals sample_seq_worker (mkDemoWorld 0) live live_schedule)
    as [Hj Hr]; [exact sample_build_ok|reflexivity|reflexivity|exact sample_duals_ok|reflexivity|
      apply seq_sample_exec; exact (live_fits _ _ _)|exact (live_fair _ _ _)| |split].
  - intros k. apply seq_sample_room; [apply live_no_call|reflexivity].
  - destruct (Hj O (mkJob 7 0)) as (m&_&Hm); [reflexivity|reflexivity|exists m; exact Hm].
  - destruct (Hr 2%nat 1%nat r JsonRpcCodec) as (m&_&Hm);
      [exact seq_sample_reported|reflexivity|exists m; exact Hm].
Defined.

Lemma seq_shutdown_returns_witness :
  ∃ m, (2 < m)%nat ∧ returned (seq_sample stop_schedule m) ∧
    ∀ k, (m ≤ k)%nat →
      lf_state (seq_sample stop_schedule k) = lf_state (seq_sample stop_schedule m).
Proof.
  edestruct (seq_shutdown_returns (H := true) (hok := λ _ : demo_http, True)
    (qok := λ _ : demo_quic, True) sample_providers KRawLibc sample_duals sample_seq_worker
    (mkDemoWorld 0) (seq_sample stop_schedule) stop_schedule 2) as (m&Hm&Hr&_&Hq);
    [intros i k w; apply ends_halts, sample_build_ok|reflexivity|reflexivity|exact sample_duals_ok|
     reflexivity|apply seq_sample_exec; exact (stop_fits _ _ _)|exact (stop_fair _ _ _)| |reflexivity|
     exists m; split; [exact Hm|split; [exact Hr|exact Hq]]].
  intros k. apply seq_sample_room; [apply stop_no_call|reflexivity].
Defined.
