(* ===== verification/ConnLive.v ===== *)
(** The crate's connections come back: over a TLS library, a QUIC library and a
    byte transport that do, every call a worker makes on a connection ends, with
    a result or with a panic; this is what the workers' loops and [shutdown]
    rely on. Making an HTTP connection is different: its handshake waits for
    the peer without a limit. *)
From S2P Require Import Prelude Str Types Envelope Http Backend Quic Conn Parallel WorkerInv.
From stdpp Require Import options.

(** * Computations without a world *)

(** The computation comes to an end. *)
Definition comes_back {A} (m : outcome A) : Prop := m ≠ OutOfFuel.

Lemma back_bind {A B} (m : outcome A) (f : A → outcome B) :
  comes_back m → (∀ a, comes_back (f a)) → comes_back (m ≫= f).
Proof. intros Hm Hf. destruct m; [apply Hf|done|done]. Qed.
Lemma back_fmap {A B} (f : A → B) (m : outcome A) : comes_back m → comes_back (f <$> m).
Proof. by destruct m. Qed.

Lemma back_slice {A} a b (l : list A) : comes_back (slice a b l).
Proof. unfold slice. by case_match. Qed.
Lemma slice_to_length {A} n (l l' : list A) : slice_to n l = Ret l' → (length l' ≤ length l)%nat.
Proof.
  unfold slice_to, slice. case_match; [|done]. intros [= <-]. rewrite length_take, length_drop. lia.
Qed.
Lemma back_write_at {A} a (src l : list A) : comes_back (write_at a src l).
Proof. unfold write_at. by case_match. Qed.
Lemma back_digits pos n ds : comes_back (digits_loop pos n ds).
Proof.
  revert n ds. induction pos as [|pos IH]; intros n ds; [done|]. cbn [digits_loop].
  case_match; [done|apply IH].
Qed.

Section outcomes.
Context `{BuildProfile}.

Lemma back_add_mod m a b : comes_back (add_mod m a b).
Proof. unfold add_mod. by repeat case_match. Qed.
Lemma back_sub_mod m a b : comes_back (sub_mod m a b).
Proof. unfold sub_mod. by repeat case_match. Qed.

Lemma back_splice base64 t tx : comes_back (splice base64 t tx).
Proof.
  unfold splice. case_match; [done|]. apply back_bind; [apply back_slice|]. intros head.
  apply back_bind; [apply back_slice|]. intros tail. case_match; [done|].
  apply back_bind; [|done]. unfold splice_cl. case_match; [|done].
  apply back_bind; [apply back_sub_mod|]. intros len. apply back_bind; [apply back_digits|]. intros ds.
  case_match; [done|]. apply back_bind; [apply back_write_at|]. intros o1.
  apply back_bind; [apply back_write_at|]. done.
Qed.

Lemma back_body_if_complete acc : comes_back (body_if_complete acc).
Proof.
  unfold body_if_complete. case_match; [|done]. apply back_bind; [apply back_slice|]. intros head.
  repeat (case_match; [|done]). apply back_bind; [apply back_add_mod|]. intros body_end.
  case_match; [|done]. apply back_fmap, back_slice.
Qed.
End outcomes.

Lemma halts_pure {W A} (m : outcome A) (w : W) (Q : A → W → Prop) :
  comes_back m → (∀ a, Q a w) → halts (pure m) w Q.
Proof. intros Hm HQ. unfold halts, pure. by destruct m. Qed.

(** * What the libraries do *)

(** A TLS connection has at most [K] writes and reads waiting. *)
Class TlsBounded (T : Type) `{Tls T} (backlog readable : T → nat) (K : nat) : Prop := {
  tls_bounded_progress : TlsProgress T backlog readable;
  backlog_bound : ∀ t, (backlog t ≤ K)%nat;
  readable_bound : ∀ t, (readable t ≤ K)%nat;
}.
#[export] Existing Instance tls_bounded_progress.

(** The transport's calls end, and what is received lies in the buffer. *)
Class ByteIoHalts (W B C : Type) `{ByteIo W B C} : Prop := {
  submit_halts : ∀ b c k l w, halts (io_submit b c k l) w (λ _ _, True);
  drive_halts : ∀ b w, halts (io_drive b) w (λ _ _, True);
  poll_recv_halts : ∀ b c buf w, halts (io_poll_recv b c buf) w (λ '(_, buf', _) _,
    length buf' = length buf);
}.

(** * HTTP *)

Section http.
Context `{BuildProfile} `{BH : ByteIoHalts W B C} `{TB : TlsBounded T backlog readable K}.
Context (base64 : bytes → bytes) (fuel : nat) (Hfuel : (K < fuel ∧ RX_LEN < fuel)%nat).

Lemma back_encode (e : HttpEngine T) tx : comes_back (encode base64 fuel e tx).
Proof using Hfuel TB.
  unfold encode. apply back_bind; [apply back_splice|]. intros [[frame|err] env]; [|done].
  destruct (writer_write_all _ _) as [[[]|err] t]; [|done].
  destruct (encode_loop_ends fuel t []) as (r&t'&out&->); [pose proof (backlog_bound t); lia|].
  by destruct r.
Qed.

Lemma back_take_body (e : HttpEngine T) : comes_back (take_body e).
Proof using.
  unfold take_body. apply back_bind; [apply back_body_if_complete|]. intros [body|]; [done|]. by case_match.
Qed.

Lemma back_ingest (e : HttpEngine T) data :
  (length data ≤ RX_LEN)%nat → comes_back (ingest fuel e data).
Proof using Hfuel TB.
  intros Hd. unfold ingest. destruct data as [|b data]; [apply back_take_body|].
  destruct (feed_loop_ends fuel (eng_tls e) (b :: data)) as (r&t&->); [lia|]. cbn [mbind outcome_bind].
  destruct r; [|done].
  destruct (read_loop_ends fuel t (eng_rx_plain e)) as (r&t'&plain&->);
    [pose proof (readable_bound t); lia|]. cbn [mbind outcome_bind].
  destruct r; [|done]. apply back_take_body.
Qed.

Lemma http_send_halts (h : HttpConn B C T) tx w : halts (http_send_tx base64 fuel h tx) w (λ _ _, True).
Proof using BH Hfuel TB.
  unfold http_send_tx. apply wp_bind, halts_pure; [apply back_encode|]. intros [[cipher|err] e]; [|done].
  apply wp_bind. eapply wp_mono; [apply submit_halts|]. by intros [r [io raw]] w' _.
Qed.

Lemma http_drive_halts (h : HttpConn B C T) w : halts (http_drive h) w (λ _ _, True).
Proof using BH. unfold http_drive. apply wp_bind. eapply wp_mono; [apply drive_halts|]. done. Qed.

Lemma poll_response_halts (h : HttpConn B C T) w : halts (poll_response fuel h) w (λ _ _, True).
Proof using BH Hfuel TB.
  unfold poll_response. apply wp_bind. eapply wp_mono; [apply poll_recv_halts|].
  intros [[[n|e] rx] [io raw]] w' Hrx; [|done]. rewrite length_zeroes in Hrx. apply wp_bind.
  eapply (wp_mono _ _ _ (λ data _, (length data ≤ RX_LEN)%nat)).
  - case_match; [apply wp_ret; cbn; lia|]. unfold halts, pure.
    destruct (slice_to n rx) as [data| |] eqn:E; [|done|by apply back_slice in E].
    apply slice_to_length in E. lia.
  - intros data w2 Hd. apply wp_bind, halts_pure; [by apply back_ingest|]. by intros [r e].
Qed.
End http.

(** * QUIC *)

Section quic.
Context `{Libc W, Clock W} `{TL : !TimeLaws W R age} `{RL : !RecvLaws W}.
Context `{QP : QuinnProgress QC E Cfg K txs evs apps}.
Context (fuel : nat) (Hfuel : (K < fuel)%nat).
Implicit Types (q : QuicEngine QC E) (c : QuicConn (QuicEngine QC E)).

Lemma drain_transmits_ends q now w : ends (drain_transmits fuel q now) w (λ _ _, True).
Proof using Hfuel QP TL.
  unfold drain_transmits. destruct (qe_connection q) as [c|]; [|by apply ends_ret].
  apply ends_bind. eapply ends_mono; [apply transmit_loop_ends; pose proof (txs_bound c); lia|].
  intros. by apply ends_ret.
Qed.

Lemma quic_send_ends q tx now w : ends (quic_send_tx fuel q tx now) w (λ _ _, True).
Proof using Hfuel QP TL.
  unfold quic_send_tx. repeat (case_match; try by apply ends_ret).
  apply ends_bind. eapply ends_mono; [apply drain_transmits_ends|]. intros. by apply ends_ret.
Qed.

Lemma recv_once_ends q now w : ends (recv_once fuel q now) w (λ _ _, True).
Proof using Hfuel QP RL TL.
  unfold recv_once, recv_dgram. apply ends_bind, ends_bind, ends_call.
  pose proof (recvfrom_bounds (qe_fd q) (length (qe_recv_buf q)) w) as Hb.
  destruct (libc_recvfrom _ _ w) as [[n data] w1]. cbn [fst snd]. destruct Hb as [Hn Hd].
  apply ends_ret. cbv beta iota. case_match; [by apply ends_ret|]. ztests.
  destruct (0 <? n) eqn:E0; ztests; [|lia].
  apply ends_bind. eapply ends_pure; [apply slice_to_ok; unfold zlen; rewrite length_written; lia|].
  pose proof (response_size (qe_endpoint (with_recv_buf (written data (qe_recv_buf q)) q)) now
    (qe_remote (with_recv_buf (written data (qe_recv_buf q)) q))
    (take (Z.to_nat n) (written data (qe_recv_buf q)))) as Hr.
  destruct (endpoint_handle _ _ _ _) as [[event resp] e]. cbn [fst snd] in Hr.
  apply ends_bind. eapply ends_mono with (P := λ _ _, True).
  - destruct event as [[ev|size|]|]; try by apply ends_ret. apply ends_bind.
    eapply ends_pure; [apply slice_to_ok, Hr; done|]. apply ends_bind.
    eapply ends_mono; [apply udp_sendto_ends|]. intros. by apply ends_ret.
  - intros q' w' _. destruct (qe_connection q') as [c|]; [|by apply ends_ret].
    destruct (endpoint_events_loop_ends fuel (qe_handle q') (qe_endpoint q') c) as [[e' c'] He];
      [pose proof (evs_bound c); lia|].
    apply ends_bind. eapply ends_pure; [exact He|]. by apply ends_ret.
Qed.

Lemma quic_drive_ends q now w : ends (quic_drive fuel q now) w (λ _ _, True).
Proof using Hfuel QP RL TL.
  unfold quic_drive. apply ends_bind. eapply ends_mono; [apply recv_once_ends|]. intros q1 w1 _.
  apply ends_bind. eapply ends_mono with (P := λ _ _, True).
  - unfold drive_timeout. repeat (case_match; try by apply ends_ret). apply drain_transmits_ends.
  - intros q2 w2 _. apply ends_bind. eapply ends_mono; [apply drain_transmits_ends|].
    intros. by apply ends_ret.
Qed.

Lemma conn_send_ends c job tsc tx w : ends (conn_send_tx fuel c job tsc tx) w (λ _ _, True).
Proof using Hfuel QP TL.
  unfold conn_send_tx. apply ends_bind, ends_call, ends_bind. eapply ends_mono; [apply quic_send_ends|].
  intros [[] ?] ? _; by apply ends_ret.
Qed.
Lemma noresp_window_ends c w : ends (poll_noresp_window c) w (λ _ _, True).
Proof using.
  unfold poll_noresp_window. repeat (case_match; try by apply ends_ret).
  apply ends_bind, ends_call. case_match; by apply ends_ret.
Qed.
Lemma conn_drive_ends c w : ends (conn_drive fuel c) w (λ _ _, True).
Proof using Hfuel QP RL TL.
  unfold conn_drive. apply ends_bind, ends_call, ends_bind. eapply ends_mono; [apply quic_drive_ends|].
  intros. by apply ends_ret.
Qed.
Lemma quic_ops_end ops c w : ends (quic_ops_run fuel ops c) w (λ _ _, True).
Proof using Hfuel QP RL TL.
  revert c w. induction ops as [|op ops IH]; intros c w; cbn [quic_ops_run]; [by apply ends_ret|].
  apply ends_bind. eapply ends_mono with (P := λ _ _, True).
  - unfold quic_op_run. apply ends_bind. eexists _, _. split; [done|].
    destruct op; apply ends_bind; (eapply ends_mono;
      [apply conn_send_ends || apply noresp_window_ends || apply conn_drive_ends|]); intros.
    all: repeat case_match; by apply ends_ret.
  - intros [o c'] w' _. apply ends_bind. eapply ends_mono; [apply IH|]. intros [] ? _. by apply ends_ret.
Qed.
End quic.

(** Writing does not finish a handshake. *)
Lemma handshake_still `{Tls T} fuel (t t' : T) out out' :
  (∀ t, is_handshaking t = true → is_handshaking (write_tls t).2 = true) →
  is_handshaking t = true → handshake_loop fuel t out = Ret (out', t') → is_handshaking t' = true.
Proof.
  intros Hw. revert t out. induction fuel as [|f IH]; intros t out Ht; [done|].
  cbn [handshake_loop]. destruct (wants_write t); [|by intros [= _ <-]].
  specialize (Hw t Ht). destruct (write_tls t) as [r t1]. by apply IH.
Qed.

(** * Theorems *)

(** C23: the crate's connections are connections a worker can rely on to come
    back. Over libraries and a transport whose calls come back, every call on
    an HTTP connection ends, with a result or with a panic, and every call on a
    QUIC connection ends with a result; with fuel for the libraries' buffers
    the loops of encoding, ingesting, transmitting and handling events never
    run out. *)
Theorem crate_conns_come_back `{BuildProfile} `{ByteIoHalts W B C} `{TlsBounded T backlog readable K}
    `{Libc W, Clock W} `{!TimeLaws W R age} `{!RecvLaws W} `{QuinnProgress QC E Cfg K' txs evs apps}
    (base64 : bytes → bytes) (fuel : nat) :
  (K < fuel)%nat → (RX_LEN < fuel)%nat → (K' < fuel)%nat →
  @ConnOk W (HttpConn B C T) (QuicConn (QuicEngine QC E)) (crate_conns base64 fuel) (@halts W)
    (λ _, True) (λ _, True) ∧
  (∀ (q : QuicConn (QuicEngine QC E)) job sent tx w,
     ends (conn_send_tx fuel q job sent tx) w (λ _ _, True) ∧
     ends (poll_noresp_window q) w (λ _ _, True) ∧ ends (conn_drive fuel q) w (λ _ _, True)).
Proof.
  intros Hk Hrx Hk'. split.
  - split; intros; cbn.
    + eapply wp_mono; [by apply http_send_halts|by intros []].
    + eapply wp_mono; [by apply poll_response_halts|by intros []].
    + eapply wp_mono; [by apply http_drive_halts|done].
    + eapply wp_mono; [by apply ends_halts, conn_send_ends|by intros []].
    + eapply wp_mono; [by apply ends_halts, noresp_window_ends|by intros []].
    + eapply wp_mono; [by apply ends_halts, conn_drive_ends|done].
  - intros. split_and!; [by apply conn_send_ends|by apply noresp_window_ends|by apply conn_drive_ends].
Qed.

(** C25: on a QUIC connection the last accepted job settles once, when its window
    has passed. In any sequence of sends, polls and drives of a new connection,
    whatever happens on the network, every call returns, and a poll hands out a
    job's id and send time exactly when that job is the last one whose send was
    accepted, was not handed out since, and was sent more than 500 ms before. So
    each send is handed out at most once, by the first poll after its window,
    and never if another send is accepted before that poll. *)
Theorem quic_window_settles_once `{Libc W, Clock W} `{!TimeLaws W R age} `{!RecvLaws W}
    `{QuinnProgress QC E Cfg K txs evs apps} fuel ops (e : QuicEngine QC E) (w : W) :
  (K < fuel)%nat →
  ends (quic_ops_run fuel ops (quic_conn_new e)) w (λ '(obs, _) _,
    Forall2 observes ops obs ∧
    ∀ j t r job, obs !! j = Some (ObsPoll t r) →
      (r = Some job ↔ ∃ t0, waits (take j obs) job t0 ∧ 500000000 < t - t0)).
Proof.
  intros Hf. destruct (quic_ops_end fuel Hf ops (quic_conn_new e) w) as ([obs q]&w'&Hr&_).
  exists (obs, q), w'. split; [done|].
  pose proof (post_Ret _ _ _ _ _ (quic_ops_inv fuel ops [] _ w (window_inv_new e)) Hr) as [Hops Hobs].
  split; [done|]. intros j t r job Hj. by apply Hobs in Hj.
Qed.

(** C24: the HTTP handshake has no limit. Against a peer that accepts the
    connection and then says nothing, [connect_with]'s loop never ends: after
    any number of passes it is back at its head, still handshaking, with all of
    its passes ahead of it. Nothing else ends it, neither a deadline (the QUIC
    handshake has one) nor the stop flag, so a reconnect thread caught in it
    is never joined. *)
Theorem silent_handshake_never_ends `{BuildProfile} `{ByteIo W B C} `{TlsBounded T backlog readable K}
    (fuel k : nat) (io : B) (raw : C) (e : HttpEngine T) rx (w : W) :
  (K < fuel)%nat →
  (∀ io raw l w, ∃ io' raw' w', io_submit io raw Stream l w = Ret (Ok (), (io', raw'), w')) →
  (∀ io w, ∃ io' w', io_drive io w = Ret (io', w')) →
  (∀ io raw rx w, ∃ rx' io' raw' w', io_poll_recv io raw rx w = Ret (Ok 0, rx', (io', raw'), w')) →
  (∀ t, is_handshaking t = true → is_handshaking (write_tls t).2 = true) →
  engine_is_handshaking e = true →
  ∃ io' raw' e' rx' w', engine_is_handshaking e' = true ∧
    ∀ passes, connect_loop (k + passes) fuel io raw e rx w = connect_loop passes fuel io' raw' e' rx' w'.
Proof.
  intros Hfuel Hsub Hdrv Hrecv Htls. revert io raw e rx w.
  induction k as [|k IH]; intros io raw e rx w He; [by exists io, raw, e, rx, w|].
  destruct (handshake_loop_ends fuel (eng_tls e) []) as (out&t&Hl);
    [pose proof (backlog_bound (eng_tls e)); lia|].
  pose proof (handshake_still _ _ _ _ _ Htls He Hl) as Ht.
  assert (∃ io' raw' w', (match out with [] => mret (Ok (), (io, raw)) | _ => io_submit io raw Stream out end
    : M W _) w = Ret (Ok (), (io', raw'), w')) as (io1&raw1&w1&Hs).
  { destruct out; [by eexists _, _, _|apply Hsub]. }
  destruct (Hdrv io1 w1) as (io2&w2&Hd). destruct (Hrecv io2 raw1 rx w2) as (rx'&io3&raw3&w3&Hr).
  destruct (IH io3 raw3 (mkHttpEngine t (eng_envelope e) (eng_rx_plain e) (eng_ciphertext e)) rx' w3 Ht)
    as (io'&raw'&e'&rx''&w'&He'&Hk).
  exists io', raw', e', rx'', w'. split; [done|]. intros passes. rewrite <- Hk.
  cbn [Nat.add connect_loop]. rewrite He. unfold mbind, M_bind, pure, handshake_ciphertext.
  rewrite Hl. cbn [mbind outcome_bind]. unfold mbind, M_bind. rewrite Hs, Hd, Hr. done.
Qed.

(** * A TLS connection that has its first message to send, for the examples *)

#[export] Instance hello_tls : Tls bool := {
  server_name_try_from n := Ok n;
  client_connection_new _ := Ok true;
  is_handshaking _ := true;
  wants_write t := t;
  write_tls _ := (Ok (str "hello"), false);
  writer_write_all t _ := (Ok (), t);
  read_tls t _ := (Ok O, t);
  process_new_packets t := (Ok (), t);
  reader_read t _ := (Err (Simple WouldBlock), t);
}.
#[export] Instance hello_bounded : TlsBounded bool (λ t, if t then 1 else 0)%nat (λ _, 0%nat) 1.
Proof.
  split; [split|..]; cbn; try lia; try done.
  - intros [] ?; [lia|done].
  - intros []; lia.
Qed.

Definition hello_engine : HttpEngine bool := mkHttpEngine true (mkEnvelopeTemplate [] [] 0 0 None 0 0) [] [].

Lemma silent_submit b c l (w : silent) : raw_submit 2 b c Stream l w = Ret (Ok (), (b, c), w).
Proof.
  unfold raw_submit, mbind, M_bind. cbn [submit_loop]. destruct (0 <? zlen l) eqn:E; ztests.
  - unfold mbind, M_bind, pure, call. pose proof (slice_from_app [] l) as Hl. cbn [zlen length] in Hl.
    change (zlen []) with 0 in Hl. cbn [app] in Hl. rewrite Hl. cbn [libc_send silent_libc].
    rewrite (proj2 (Z.ltb_lt _ _)) by done. cbn [submit_loop]. by rewrite Z.ltb_irrefl.
  - done.
Qed.
#[export] Instance silent_halts : ByteIoHalts silent RawLibc RawConn (H := raw_libc_io 2).
Proof.
  split; intros; cbn [io_submit io_drive io_poll_recv raw_libc_io].
  - destruct k; [by apply wp_ret|]. unfold halts. by rewrite silent_submit.
  - by apply wp_ret.
  - done.
Qed.

Lemma crate_conns_come_back_witness :
  halts (poll_response (H := true) (H0 := raw_libc_io 2) 5000
    (mkHttpConn mkRawLibc (mkRawConn 5) hello_engine)) (mkSilent 0) (λ _ _, True).
Proof.
  destruct (crate_conns_come_back (H := true) (H0 := raw_libc_io 2) (T := bool) (QC := bool) (E := unit) (Cfg := unit)
    (λ l, l) 5000) as [Hok _];
    [lia|unfold RX_LEN; lia|lia|].
  eapply wp_mono; [exact (h_poll_safe (ConnOk := Hok) _ (mkSilent 0) I)|]. intros [r h] w' _. exact I.
Defined.

Lemma silent_handshake_never_ends_witness :
  ∃ e' w', engine_is_handshaking e' = true ∧ ∃ io raw rx, ∀ passes,
    connect_loop (H := true) (H0 := raw_libc_io 2) (1000 + passes) 2 mkRawLibc (mkRawConn 5) hello_engine
      (zeroes RX_LEN) (mkSilent 0)
    = connect_loop (H := true) (H0 := raw_libc_io 2) passes 2 io raw e' rx w'.
Proof.
  destruct (silent_handshake_never_ends (H := true) (H0 := raw_libc_io 2) 2 1000 mkRawLibc (mkRawConn 5)
    hello_engine (zeroes RX_LEN) (mkSilent 0)) as (io&raw&e'&rx&w'&He&Hk).
  - lia.
  - intros io raw l w. exists io, raw, w. apply silent_submit.
  - intros io w. exists io, w. reflexivity.
  - intros io raw rx w. eexists _, _, _, _. reflexivity.
  - reflexivity.
  - reflexivity.
  - exists e', w'. split; [exact He|]. exists io, raw, rx. exact Hk.
Defined.

#[export] Instance open_progress :
  QuinnProgress nat unit unit 0 (λ _, 0%nat) (λ _, 0%nat) (λ _, 0%nat).
Proof. split; cbn; intros; done || lia. Qed.

(** A clock that moves 200 ms with every reading. *)
Definition coarse_clock : Clock silent := {|
  rdtsc w := (si_time w, mkSilent (si_time w + 1));
  instant_now w := (si_time w * 200000000, mkSilent (si_time w + 1));
|}.
Lemma coarse_time : @TimeLaws silent silent_libc coarse_clock 1 (λ w, si_time w * 200000000).
Proof. split; intros; cbn; rewrite ?Z.div_1_r; lia. Qed.

(** A second job within the window of the first: only the second is handed out. *)
Definition sample_ops : list quic_op :=
  [QSend (mkJob 1 0) 10 (str "tx"); QPoll; QSend (mkJob 2 0) 20 (str "tx"); QPoll; QPoll; QPoll; QPoll].
Definition sample_obs : list quic_obs :=
  [ObsSent 0 (1, 10); ObsPoll 200000000 None; ObsSent 400000000 (2, 20); ObsPoll 600000000 None;
   ObsPoll 800000000 None; ObsPoll 1000000000 (Some (2, 20)); ObsPoll 1200000000 None].

Lemma quic_window_settles_once_witness :
  ∃ q w, quic_ops_run (H0 := coarse_clock) 1 sample_ops sample_quic (mkSilent 0) = Ret (sample_obs, q, w) ∧
    ∃ t0, waits (take 5 sample_obs) (2, 20) t0 ∧ 500000000 < 1000000000 - t0.
Proof.
  destruct (quic_window_settles_once (H0 := coarse_clock) (TimeLaws0 := coarse_time) (QC := nat) (E := unit)
    (Cfg := unit) 1 sample_ops (qc_engine sample_quic) (mkSilent 0)) as ([obs q]&w&Hr&_&Hobs); [lia|].
  assert (obs = sample_obs) as -> by (vm_compute in Hr; injection Hr as <- _ _; reflexivity).
  exists q, w. split; [exact Hr|]. apply (Hobs 5%nat 1000000000 (Some (2, 20)) (2, 20)); reflexivity.
Defined.
