(* ===== verification/Example.v ===== *)
(** The example program, examples/send_real_tx.rs: what it reads from its
    environment, the transaction it prepares, and the sender it builds. The
    Solana SDK, the environment and the file system are parameters; what the
    program prints is left out. *)
From S2P Require Import Prelude Str Types Envelope SpecBuilder Http Response Framing Base64 Registry Ring Backend Lane Quic Conn Reconnect Parallel Sequential Demo Sender.
From stdpp Require Import options.

(** * str *)

(** [s.split_once(c)] for an ASCII character. *)
Fixpoint split_once (c : byte) (l : bytes) : option (bytes * bytes) :=
  match l with
  | [] => None
  | b :: l =>
      if Byte.eqb b c then Some ([], l)
      else match split_once c l with
           | Some (h, t) => Some (b :: h, t)
           | None => None
           end
  end.
(** [s.rsplit_once(c)]: at the last one. *)
Definition rsplit_once (c : byte) (l : bytes) : option (bytes * bytes) :=
  match split_once c (reverse l) with
  | Some (t, h) => Some (reverse h, reverse t)
  | None => None
  end.
(** [s.split(c)]. *)
Fixpoint split_from (c : byte) (cur l : bytes) : list bytes :=
  match l with
  | [] => [cur]
  | b :: l => if Byte.eqb b c then cur :: split_from c [] l else split_from c (cur ++ [b]) l
  end.
Definition split (c : byte) (l : bytes) : list bytes := split_from c [] l.

Definition SLASH : byte := x2f.
Definition COLON : byte := x3a.
Definition COMMA : byte := x2c.
Definition LBRACK : byte := x5b.
Definition RBRACK : byte := x5d.

(** [s.strip_prefix(c)], [s.strip_suffix(c)]. *)
Definition strip_prefix (c : byte) (l : bytes) : option bytes :=
  match l with
  | b :: l => if Byte.eqb b c then Some l else None
  | [] => None
  end.
Definition strip_suffix (c : byte) (l : bytes) : option bytes :=
  reverse <$> strip_prefix c (reverse l).

(** * How the program ends early *)

Inductive ExError :=
| NotAnArray
| BadNumber
| Not64Bytes
| BadKeypair
| BadTipAccount
| BadTipLamports
| BadBlockhash
| RpcFailed
| NoBlockhash
| SerializeFailed
| TxTooLong (len : Z)
| BuildFailed (e : SenderError)
| TriggerFailed (e : TriggerError).

(** [process::exit], an error from [main], a panic. *)
Inductive stopped := Exits (code : Z) | Fails (e : ExError) | Panics.

Declare Scope ex_scope.
Notation "x ←! m ; k" := (match m with Ok x => k | Err e => Err e end)
  (at level 20, m at level 100, k at level 200, right associativity) : ex_scope.
#[local] Open Scope ex_scope.

Definition DEFAULT_CU_PRICE : Z := 100000.
Definition DEFAULT_CU_LIMIT : Z := 100000.

(** * PreparedTxs *)

Record PreparedTxs := mkPreparedTxs { per_provider : list bytes }.

Definition prepared_fill (s : PreparedTxs) (provider : ProviderId) (out : bytes) : outcome (Z * bytes) :=
  bytes ← index (per_provider s) (Z.to_nat (idx provider));
  out ← write_at 0 bytes out;
  Ret (zlen bytes mod U16, out).

(** * Parsing *)

Definition parse_endpoint (raw : bytes) : result HttpEndpoint stopped :=
  let '(authority, path) :=
    match split_once SLASH raw with
    | Some (authority, rest) => (authority, SLASH :: rest)
    | None => (raw, [SLASH])
    end in
  match rsplit_once COLON authority with
  | Some (h, p) =>
      match parse_u16 p with
      | Some port => Ok (mkHttpEndpoint h port path h)
      | None => Err (Exits 2)
      end
  | None => Ok (mkHttpEndpoint authority 443 path authority)
  end.

(** The loop over the tokens. *)
Fixpoint parse_tokens (toks : list bytes) : result (list Z) stopped :=
  match toks with
  | [] => Ok []
  | tok :: toks =>
      match trim tok with
      | [] => parse_tokens toks
      | tok =>
          match parse_unsigned 255 tok with
          | None => Err (Fails BadNumber)
          | Some b => bs ←! parse_tokens toks; Ok (b :: bs)
          end
      end
  end.
Definition serde_json_array (contents : bytes) : result (list Z) stopped :=
  match strip_prefix LBRACK (trim contents) ≫= strip_suffix RBRACK with
  | None => Err (Fails NotAnArray)
  | Some inner => parse_tokens (split COMMA inner)
  end.

(** * The program *)

Section program.
Context {Keypair Pubkey Hash Tx : Type}.
(** [std::env::var] and [std::fs::read_to_string], when they succeed. *)
Context (env read_to_string : bytes → option bytes).
(** The Solana SDK. [from_base58_string] panics on what it cannot read,
    [new_signed_with_payer] when it cannot sign. *)
Context (keypair_try_from : list Z → option Keypair).
Context (keypair_from_base58_string : bytes → outcome Keypair).
Context (keypair_pubkey : Keypair → Pubkey).
Context (pubkey_from_str : bytes → option Pubkey).
Context (hash_from_str : bytes → option Hash).
Context (get_latest_blockhash : bytes → option Hash).

Inductive Instruction :=
| SetComputeUnitLimit (n : Z)
| SetComputeUnitPrice (n : Z)
| Transfer (from to : Pubkey) (lamports : Z).
Context (new_signed_with_payer : list Instruction → Pubkey → Keypair → Hash → outcome Tx).
Context (serialize : Tx → option bytes).

(** A call that may panic. *)
Definition returned {A} (r : outcome A) : result A stopped :=
  match r with Ret a => Ok a | _ => Err Panics end.

Definition require (name : string) : result bytes stopped :=
  match env (str name) with
  | Some (b :: v) => Ok (b :: v)
  | _ => Err (Exits 2)
  end.

Definition load_keypair (raw : bytes) : result Keypair stopped :=
  match read_to_string raw with
  | Some contents =>
      bytes ←! serde_json_array contents;
      if (length bytes =? 64)%nat
      then match keypair_try_from bytes with Some k => Ok k | None => Err (Fails BadKeypair) end
      else Err (Fails Not64Bytes)
  | None =>
      returned (keypair_from_base58_string raw)
  end.

Definition resolve_auth : result HttpAuth stopped :=
  match env (str "TXSENDER_AUTH") with
  | Some (b :: raw) =>
      match split_once COLON (b :: raw) with
      | Some (name, value) => Ok (HttpAuth_Header (trim name) (trim value))
      | None => Err (Exits 2)
      end
  | _ => Ok HttpAuth_None
  end.

Definition resolve_blockhash : result Hash stopped :=
  match env (str "TXSENDER_BLOCKHASH") with
  | Some (b :: raw) =>
      match hash_from_str (b :: raw) with Some h => Ok h | None => Err (Fails BadBlockhash) end
  | _ =>
      match env (str "TXSENDER_BLOCKHASH_RPC") with
      | Some (b :: url) =>
          match get_latest_blockhash (b :: url) with Some h => Ok h | None => Err (Fails RpcFailed) end
      | _ => Err (Fails NoBlockhash)
      end
  end.

(** [.ok().and_then(parse).unwrap_or(default)]. *)
Definition number_or (max : Z) (name : string) (d : Z) : Z :=
  default d (env (str name) ≫= parse_unsigned max).

(** The provider [main] configures. *)
Definition example_provider (endpoint : HttpEndpoint) (auth : HttpAuth) : ProviderConfig :=
  mkProviderConfig Http endpoint None None None auth MAX_BODY [] JsonRpcCodec.

(** [main] up to the builder: the provider and the source. *)
Definition prepare : result (ProviderConfig * PreparedTxs) stopped :=
  endpoint_raw ←! require "TXSENDER_ENDPOINT";
  keypair_raw ←! require "TXSENDER_KEYPAIR";
  tip_account_raw ←! require "TXSENDER_TIP_ACCOUNT";
  tip_lamports_raw ←! require "TXSENDER_TIP_LAMPORTS";
  endpoint ←! parse_endpoint endpoint_raw;
  keypair ←! load_keypair keypair_raw;
  let payer := keypair_pubkey keypair in
  tip_account ←! ok_or (pubkey_from_str tip_account_raw) (Fails BadTipAccount);
  tip_lamports ←! ok_or (parse_unsigned (U64 - 1) tip_lamports_raw) (Fails BadTipLamports);
  let cu_price := number_or (U64 - 1) "TXSENDER_CU_PRICE" DEFAULT_CU_PRICE in
  let cu_limit := number_or (U32 - 1) "TXSENDER_CU_LIMIT" DEFAULT_CU_LIMIT in
  auth ←! resolve_auth;
  blockhash ←! resolve_blockhash;
  let instructions := [SetComputeUnitLimit cu_limit; SetComputeUnitPrice cu_price;
                       Transfer payer tip_account tip_lamports] in
  tx ←! returned (new_signed_with_payer instructions payer keypair blockhash);
  bytes ←! ok_or (serialize tx) (Fails SerializeFailed);
  if zlen bytes >? MAX_TX_LEN then Err (Fails (TxTooLong (zlen bytes)))
  else Ok (example_provider endpoint auth, mkPreparedTxs [bytes]).

(** The bytes of the transaction the environment asks for: signed with its key
    over its block hash, it transfers its tip to its tip account, under its
    limit and price of compute units. *)
Definition signed_tx (raw : bytes) : Prop :=
  ∃ keypair_raw tip_account_raw tip_lamports_raw keypair tip_account tip_lamports blockhash tx,
    env (str "TXSENDER_KEYPAIR") = Some keypair_raw ∧ load_keypair keypair_raw = Ok keypair ∧
    env (str "TXSENDER_TIP_ACCOUNT") = Some tip_account_raw ∧
    pubkey_from_str tip_account_raw = Some tip_account ∧
    env (str "TXSENDER_TIP_LAMPORTS") = Some tip_lamports_raw ∧
    parse_unsigned (U64 - 1) tip_lamports_raw = Some tip_lamports ∧
    resolve_blockhash = Ok blockhash ∧
    new_signed_with_payer
      [SetComputeUnitLimit (number_or (U32 - 1) "TXSENDER_CU_LIMIT" 100000);
       SetComputeUnitPrice (number_or (U64 - 1) "TXSENDER_CU_PRICE" 100000);
       Transfer (keypair_pubkey keypair) tip_account tip_lamports]
      (keypair_pubkey keypair) keypair blockhash = Ret tx ∧
    serialize tx = Some raw.
(** The provider the environment names. *)
Definition named_provider (p : ProviderConfig) : Prop :=
  ∃ endpoint_raw endpoint auth, env (str "TXSENDER_ENDPOINT") = Some endpoint_raw ∧
    parse_endpoint endpoint_raw = Ok endpoint ∧ resolve_auth = Ok auth ∧
    p = example_provider endpoint auth.

Lemma require_Ok name v : require name = Ok v → env (str name) = Some v.
Proof. unfold require. repeat (case_match; try discriminate). by intros [= <-]. Qed.
Lemma ok_or_Ok {A B} (o : option A) (e : B) a : ok_or o e = Ok a → o = Some a.
Proof. by destruct o; intros [= ->]. Qed.
Lemma returned_Ok {A} (r : outcome A) a : returned r = Ok a → r = Ret a.
Proof. by destruct r; intros [= ->]. Qed.

Lemma prepare_Ok p txs :
  prepare = Ok (p, txs) →
  ∃ bytes, signed_tx bytes ∧ named_provider p ∧ txs = mkPreparedTxs [bytes] ∧ zlen bytes ≤ MAX_TX_LEN.
Proof.
  unfold prepare. repeat match goal with
  | |- match ?m with Ok _ => _ | Err _ => _ end = Ok _ → _ => destruct m eqn:?; [|discriminate]
  end. case_match; [discriminate|]. intros [= <- <-].
  repeat match goal with
  | E : require _ = Ok _ |- _ => apply require_Ok in E
  | E : ok_or _ _ = Ok _ |- _ => apply ok_or_Ok in E
  | E : returned _ = Ok _ |- _ => apply returned_Ok in E
  end.
  eexists. split; [|split]; [by eexists _, _, _, _, _, _, _, _; split_and!|by eexists _, _, _|].
  split; [done|lia].
Qed.
End program.

(** The sink: outcomes go to a channel unless a panic has poisoned its lock. *)
Record PrintSink := mkPrintSink { ps_poisoned : bool; ps_sent : list ProviderOutcome }.
Definition print_on_result (outcome : ProviderOutcome) (s : PrintSink) : PrintSink :=
  if ps_poisoned s then s else mkPrintSink false (ps_sent s ++ [outcome]).

(** What [main] prints to the standard output for the outcome it received. *)
Definition report (received : option ProviderOutcome) : list bytes :=
  match received with
  | Some o =>
      match po_kind o with
      | Accepted signature =>
          [str "accepted signature " ++ signature; str "https://solscan.io/tx/" ++ signature]
      | Rejected _ _ | Transport _ | NoResponse => []
      end
  | None => []
  end.

(** The end of [main]: the sender over io_uring with one provider, its one job,
    the outcome within ten seconds, and [shutdown]. *)
Section main.
Context `{BoundedQueue Q} `{BoundedQueue X} {W CS Mode Tuning Snk Tls : Type}.
Context (connect_raw : list ProviderConfig → Tls → M W (result (list (DualConn CS)) SenderError)).
Context (connect_uring : Mode → Tuning → list ProviderConfig → Tls →
           M W (result (list (DualConn CS)) SenderError)).
Context (tpa_start : Z → Z → M W (result unit TransportError)).
Context (batch_syscall : Mode) (default_tuning : Tuning) (real_roots : Tls) (print_sink : Snk).

Definition example_builder (p : ProviderConfig) (txs : PreparedTxs) :
    SenderBuilder Mode Tuning PreparedTxs Snk Tls :=
  set_sink (set_source (add_provider (set_tls (set_transport sender_builder
    (seq_io_uring default_tuning batch_syscall)) real_roots) p) txs) print_sink.

Definition submit_job (prepared : result (ProviderConfig * PreparedTxs) stopped) :
    M W (result (Sender Q X CS) stopped) :=
  match prepared with
  | Err e => mret (Err e)
  | Ok (p, txs) =>
      r ← build connect_raw connect_uring tpa_start (example_builder p txs);
      match r with
      | Err (e, _) => mret (Err (Fails (BuildFailed e)))
      | Ok s =>
          match trigger (sd_dispatch s) (mkJob 1 0) with
          | (Err e, _) => mret (Err (Fails (TriggerFailed e)))
          | (Ok _, d) => mret (Ok (mkSender d (sd_threads s) (sd_diag s)))
          end
      end
  end.

Context (recv_timeout : M W (option ProviderOutcome)) (sender_shutdown : Sender Q X CS → M W unit).

Definition main (prepared : result (ProviderConfig * PreparedTxs) stopped) :
    M W (result (list bytes) stopped) :=
  r ← submit_job prepared;
  match r with
  | Err e => mret (Err e)
  | Ok s =>
      received ← recv_timeout;
      _ ← sender_shutdown s;
      mret (Ok (report received))
  end.
End main.

(** * Lemmas *)

Lemma split_once_none c l : c ∉ l → split_once c l = None.
Proof.
  induction l as [|b l IH]; [done|]. rewrite not_elem_of_cons. intros [Hc Hl]. cbn.
  rewrite (byte_eqb_ne b c) by done. by rewrite IH.
Qed.
Lemma split_once_here c h t : c ∉ h → split_once c (h ++ c :: t) = Some (h, t).
Proof.
  induction h as [|b h IH]; cbn.
  - intros _. by rewrite byte_eqb_refl.
  - rewrite not_elem_of_cons. intros [Hc Hl]. rewrite (byte_eqb_ne b c) by done. by rewrite IH.
Qed.
Lemma rsplit_once_none c l : c ∉ l → rsplit_once c l = None.
Proof. intros Hl. unfold rsplit_once. by rewrite split_once_none by (by rewrite elem_of_reverse). Qed.
Lemma rsplit_once_here c h t : c ∉ t → rsplit_once c (h ++ c :: t) = Some (h, t).
Proof.
  intros Ht. unfold rsplit_once. rewrite reverse_app, reverse_cons, <- app_assoc.
  cbn [app]. rewrite split_once_here by (by rewrite elem_of_reverse). by rewrite !reverse_involutive.
Qed.

Lemma decimal_not_in c n : is_ascii_digit c = false → c ∉ decimal n.
Proof.
  intros Hc Hin. pose proof (decimal_digits n) as Hd. rewrite Forall_forall in Hd.
  by rewrite (Hd c Hin) in Hc.
Qed.

Lemma split_from_here c cur h t :
  c ∉ h → split_from c cur (h ++ c :: t) = (cur ++ h) :: split_from c [] t.
Proof.
  revert cur. induction h as [|b h IH]; intros cur; cbn.
  - intros _. by rewrite byte_eqb_refl, app_nil_r.
  - rewrite not_elem_of_cons. intros [Hc Hl]. rewrite (byte_eqb_ne b c) by done.
    by rewrite IH, <- app_assoc.
Qed.
Lemma split_from_last c cur h : c ∉ h → split_from c cur h = [cur ++ h].
Proof.
  revert cur. induction h as [|b h IH]; intros cur; cbn.
  - intros _. by rewrite app_nil_r.
  - rewrite not_elem_of_cons. intros [Hc Hl]. rewrite (byte_eqb_ne b c) by done.
    by rewrite IH, <- app_assoc.
Qed.

(** Numbers with white space around them, separated by commas. *)
Record padded := mkPadded { pad_l : bytes; pad_n : Z; pad_r : bytes }.
Definition pad_text (t : padded) : bytes := pad_l t ++ decimal (pad_n t) ++ pad_r t.
Definition pad_ok (t : padded) : Prop :=
  Forall (λ b, ws1 b = true) (pad_l t) ∧ Forall (λ b, ws1 b = true) (pad_r t) ∧ 0 ≤ pad_n t < 256.
Fixpoint commas (ts : list bytes) : bytes :=
  match ts with
  | [] => []
  | [t] => t
  | t :: ts => t ++ COMMA :: commas ts
  end.

Lemma split_commas t ts :
  Forall (λ t, COMMA ∉ t) (t :: ts) → split COMMA (commas (t :: ts)) = t :: ts.
Proof.
  unfold split. revert t. induction ts as [|t' ts IH]; intros t [Ht Hts]%Forall_cons.
  - by rewrite split_from_last.
  - cbn [commas]. rewrite split_from_here by done. rewrite app_nil_l. f_equal. by apply IH.
Qed.

Lemma pad_no_comma t : pad_ok t → COMMA ∉ pad_text t.
Proof.
  intros (Hl&Hr&_). unfold pad_text.
  assert (∀ ws, Forall (λ b, ws1 b = true) ws → COMMA ∉ ws) as Hws.
  { intros ws Hw Hin. rewrite Forall_forall in Hw. by specialize (Hw _ Hin). }
  rewrite !elem_of_app. intros [Hin|[Hin|Hin]];
    [exact (Hws _ Hl Hin)|exact (decimal_not_in COMMA _ eq_refl Hin)|exact (Hws _ Hr Hin)].
Qed.

Lemma parse_tokens_padded ts :
  Forall pad_ok ts → parse_tokens (pad_text <$> ts) = Ok (pad_n <$> ts).
Proof.
  induction 1 as [|t ts (Hl&Hr&Hn) _ IH]; [done|]. cbn [fmap list_fmap parse_tokens].
  unfold pad_text at 1. rewrite trim_digits; [|done..|apply decimal_digits|apply decimal_nonempty].
  destruct (decimal (pad_n t)) as [|b d] eqn:E; [by apply decimal_nonempty in E|].
  rewrite <- E, parse_unsigned_decimal by (unfold U64; lia). by rewrite IH.
Qed.

Lemma parse_tokens_none : parse_tokens (split COMMA []) = Ok [].
Proof. done. Qed.

#[export] Instance Ret_inj A : Inj eq eq (@Ret A).
Proof. by intros ? ? [= ->]. Qed.

(** What [prepare] has checked. *)
Lemma prepared_fill_Ok tx out :
  zlen tx ≤ MAX_TX_LEN → zlen out = MAX_TX_LEN →
  prepared_fill (mkPreparedTxs [tx]) (provider_id 0) out = Ret (zlen tx, tx ++ drop (length tx) out).
Proof.
  intros Htx Hout. unfold prepared_fill. cbn [provider_id idx pid_u16 per_provider].
  change (Z.to_nat (Z.of_nat 0 mod U16)) with O. cbn [index lookup list_lookup mbind outcome_bind].
  unfold write_at. rewrite (proj2 (andb_true_iff _ _)) by (split; [done|apply Z.leb_le; lia]).
  cbn [mbind outcome_bind]. rewrite Z.mod_small; [done|]. pose proof (zlen_nonneg tx).
  unfold MAX_TX_LEN, U16 in *. lia.
Qed.

(** * Theorems *)

(** C36: an endpoint is read as it is written. Whatever the host without a
    slash, even with colons, [host:port/path] and [host:port] give that host and
    port; when the port is left out it is 443, if the host has no colon; the
    path defaults to [/]. When the text after the last colon of the authority is
    not a port, as in an IPv6 address with no port, the program exits with 2. *)
Theorem parse_endpoint_roundtrip host rest :
  SLASH ∉ host →
  (∀ port, 0 ≤ port < U16 →
   parse_endpoint (host ++ COLON :: decimal port ++ SLASH :: rest)
     = Ok (mkHttpEndpoint host port (SLASH :: rest) host) ∧
   parse_endpoint (host ++ COLON :: decimal port) = Ok (mkHttpEndpoint host port [SLASH] host)) ∧
  (COLON ∉ host →
   parse_endpoint (host ++ SLASH :: rest) = Ok (mkHttpEndpoint host 443 (SLASH :: rest) host) ∧
   parse_endpoint host = Ok (mkHttpEndpoint host 443 [SLASH] host)) ∧
  (∀ text, SLASH ∉ text → COLON ∉ text → parse_u16 text = None →
   parse_endpoint (host ++ COLON :: text ++ SLASH :: rest) = Err (Exits 2) ∧
   parse_endpoint (host ++ COLON :: text) = Err (Exits 2)).
Proof.
  intros Hs. assert (∀ text, SLASH ∉ text → SLASH ∉ host ++ COLON :: text) as Hauth
    by (intros text Ht; rewrite elem_of_app, elem_of_cons; intros [?|[?|?]]; done).
  assert (∀ text path, SLASH ∉ text → COLON ∉ text →
    parse_endpoint (host ++ COLON :: text ++ SLASH :: path)
    = match parse_u16 text with
      | Some port => Ok (mkHttpEndpoint host port (SLASH :: path) host)
      | None => Err (Exits 2)
      end ∧
    parse_endpoint (host ++ COLON :: text)
    = match parse_u16 text with
      | Some port => Ok (mkHttpEndpoint host port [SLASH] host)
      | None => Err (Exits 2)
      end) as Hcolon.
  { intros text path Hts Htc. unfold parse_endpoint. rewrite app_comm_cons, app_assoc.
    rewrite split_once_here, split_once_none by auto. by rewrite rsplit_once_here. }
  split_and!.
  - intros port Hp. pose proof (Hcolon (decimal port) rest) as Hd. rewrite parse_u16_decimal in Hd by done.
    apply Hd; by apply decimal_not_in.
  - intros Hc. unfold parse_endpoint. rewrite split_once_here, split_once_none by done.
    by rewrite rsplit_once_none.
  - intros text Hts Htc Hp. pose proof (Hcolon text rest Hts Htc) as Hd. by rewrite Hp in Hd.
Qed.

Lemma parse_endpoint_roundtrip_witness :
  parse_endpoint (str "[::1]:8080/api") = Ok (mkHttpEndpoint (str "[::1]") 8080 (str "/api") (str "[::1]")) ∧
  parse_endpoint (str "[::1]/api") = Err (Exits 2).
Proof.
  destruct (parse_endpoint_roundtrip (str "[::1]") (str "api")) as [Hp _];
    [apply (bool_decide_unpack _); vm_compute; exact I|].
  destruct (parse_endpoint_roundtrip (str "[:") (str "api")) as (_&_&Hx);
    [apply (bool_decide_unpack _); vm_compute; exact I|].
  split; [apply (Hp 8080); compute_done|].
  apply (Hx (str "1]")); [apply (bool_decide_unpack _); vm_compute; exact I..|reflexivity].
Defined.

(** A key file is read as it is written: a JSON array of bytes, with any
    white space around the brackets and the numbers, gives those bytes. *)
Theorem serde_json_array_roundtrip lead trail ts :
  Forall (λ b, ws1 b = true) lead → Forall (λ b, ws1 b = true) trail → Forall pad_ok ts →
  serde_json_array (lead ++ (LBRACK :: commas (pad_text <$> ts) ++ [RBRACK]) ++ trail)
  = Ok (pad_n <$> ts).
Proof.
  intros Hl Ht Hts. unfold serde_json_array.
  rewrite (trim_pad lead _ trail LBRACK RBRACK); try done.
  2: by rewrite app_comm_cons, last_snoc.
  cbn [strip_prefix]. rewrite byte_eqb_refl. cbn [mbind option_bind].
  unfold strip_suffix. rewrite reverse_snoc. cbn [strip_prefix]. rewrite byte_eqb_refl.
  cbn [fmap option_fmap option_map]. rewrite reverse_involutive.
  destruct ts as [|t ts]; [done|]. rewrite fmap_cons, split_commas, <- fmap_cons.
  - by apply parse_tokens_padded.
  - rewrite <- fmap_cons. apply Forall_fmap. eapply Forall_impl; [exact Hts|]. apply pad_no_comma.
Qed.

Lemma serde_json_array_roundtrip_witness : serde_json_array (str " [1, 20 ,255] ") = Ok [1; 20; 255].
Proof.
  apply (serde_json_array_roundtrip (str " ") (str " ")
    [mkPadded [] 1 []; mkPadded (str " ") 20 (str " "); mkPadded [] 255 []]);
    repeat constructor; compute_done.
Defined.


(** An environment, and an SDK whose transactions are three bytes. *)
Definition sample_env (name : bytes) : option bytes :=
  if bool_decide (name = str "TXSENDER_ENDPOINT") then Some (str "rpc.example:8899/send")
  else if bool_decide (name = str "TXSENDER_KEYPAIR") then Some (str "id.json")
  else if bool_decide (name = str "TXSENDER_TIP_ACCOUNT") then Some (str "tip")
  else if bool_decide (name = str "TXSENDER_TIP_LAMPORTS") then Some (str "5000")
  else if bool_decide (name = str "TXSENDER_AUTH") then Some (str "x-key: secret")
  else if bool_decide (name = str "TXSENDER_BLOCKHASH") then Some (str "hash")
  else None.
Definition sample_file (path : bytes) : option bytes :=
  if bool_decide (path = str "id.json")
  then Some (LBRACK :: commas (replicate 64 (str "7")) ++ [RBRACK]) else None.
Definition sample_prepared : result (ProviderConfig * PreparedTxs) stopped :=
  prepare (Keypair := list Z) (Pubkey := bytes) (Hash := bytes) (Tx := bytes) sample_env sample_file Some
    (λ _, Panic) (λ _, str "payer") Some Some Some (λ _ _ _ h, Ret (str "tx!" ++ h)) Some.
Definition sample_example_provider : ProviderConfig :=
  example_provider (mkHttpEndpoint (str "rpc.example") 8899 (str "/send") (str "rpc.example"))
    (HttpAuth_Header (str "x-key") (str "secret")).

Lemma sample_prepared_Ok :
  sample_prepared = Ok (sample_example_provider, mkPreparedTxs [str "tx!hash"]).
Proof. vm_compute. reflexivity. Qed.


(** The example always gets its job in. Once its environment is in order
    and the sender connects, [build] succeeds and so does [trigger]: the ring
    is new, so the one job it is given is the one that waits in it. *)
Theorem example_submits `{QueueLaws Q} `{BoundedQueue X} {W CS Mode Tuning Snk Tls : Type} connect_raw
    connect_uring tpa_start (mode : Mode) (tuning : Tuning) (tls : Tls) (snk : Snk) p txs
    (duals : list (DualConn CS)) (w w' : W) :
  connect_uring mode tuning [p] tls w = Ret (Ok duals, w') →
  ∃ s tx, submit_job (Q := Q) (X := X) connect_raw connect_uring tpa_start mode tuning tls snk (Ok (p, txs)) w
            = Ret (Ok s, w') ∧
    sd_dispatch s = Single tx ∧ items tx = [mkJob 1 0] ∧
    th_seq (sd_threads s) = th_seq (sd_threads (finish_seq (Q := Q) (X := X) [p] KIoUring duals)).
Proof.
  intros Hc.
  destruct (try_push_room (mkJob 1 0) (channel (Q := Q) (trigger_address [p]) TRIGGER_RING)) as (Hok&Hit&_).
  { rewrite channel_items, channel_room. unfold TRIGGER_RING. cbn [length]. lia. }
  rewrite channel_items in Hit. unfold submit_job, build, example_builder. cbn.
  unfold mbind, M_bind. rewrite Hc. cbn. unfold trigger.
  destruct (try_push (mkJob 1 0) (channel _ TRIGGER_RING)) as [r tx]. cbn in Hok, Hit. subst r.
  by eexists _, tx.
Qed.

Lemma example_submits_witness :
  ∃ (s : Sender list_queue list_queue demo_cs) tx,
    submit_job sample_raw (λ _ _, sample_raw) sample_tpa tt tt tt tt sample_prepared (mkDemoWorld 0)
      = Ret (Ok s, mkDemoWorld 0) ∧ sd_dispatch s = Single tx ∧ items tx = [mkJob 1 0].
Proof.
  destruct (example_submits (Q := list_queue) (X := list_queue) sample_raw (λ _ _ : unit, sample_raw)
    sample_tpa tt tt tt tt sample_example_provider (mkPreparedTxs [str "tx!hash"])
    [dual_new (CsHttp idle_http) (CsHttp idle_http)] (mkDemoWorld 0) (mkDemoWorld 0)) as (s&tx&Hs&Hd&Hi&_);
    [reflexivity|]. exists s, tx. rewrite sample_prepared_Ok. split; [exact Hs|split; [exact Hd|exact Hi]].
Defined.
